(* ===== verification/_CoqProject ===== *)
-Q . S2P
Prelude.v
External.v
Primitives.v
Bits.v
TrieNode.v
Trie.v
TrieSpec.v
TrieStore.v
TrieWalk.v
TrieMap.v
TrieProof.v
TriePrune.v
TrieKeys.v
TriePartial.v
History.v
Evidence.v
Vrf.v
Votes.v
Finality.v
Records.v
Blocks.v
Signing.v
Offences.v
BftSafety.v
Sorted.v
Backend.v
Witness.v
RuntimeState.v
Transactions.v
Governance.v
Staking.v
Accountability.v
Stf.v
Views.v
Ledger.v
Sanctions.v
RuntimeSamples.v
Elections.v
Execution.v
RuntimeSafety.v
Proving.v
