(* ===== verification/Prelude.v ===== *)
(** * A verification of the Neutrino blockchain

    Neutrino is a proof-of-stake chain.  Validators execute blocks with a runtime,
    group the blocks into chunks, and finalize a chunk by two rounds of weighted
    votes; a guest program inside a zkVM checks every signature and certificate of a
    chunk again, and evidence of misbehaviour is turned into on-chain sanctions.  This
    library models, as executable definitions, the code those guarantees rest on, and
    proves what they say.

    ** Parts of the program, and where they are modelled

    - Shared data and constants (crates/primitives): [Primitives].
    - The state trie (crates/trie): packed bit paths (bits.rs): [Bits]; node encodings and
      hashers (node.rs, hasher.rs, poseidon2.rs): [TrieNode]; the operations of the trie
      and its walks (trie.rs): [Trie]; membership proofs (proof.rs): [TrieProof]; pruning
      ([retain_roots]): [TriePrune]; key enumeration: [TrieKeys].
    - History tree of finalized chunks (consensus-types/src/history.rs): [History].
    - Evidence statements, Merkle batches, memberships (consensus-types/src/evidence.rs):
      [Evidence].
    - Proposer lottery (crates/vrf): [Vrf].
    - Votes, certificates and leaders (consensus-types/src/lib.rs, bft.rs): [Votes].
    - Certificate and evidence verification shared by guest and engine
      (prover-chunk/src/finality.rs, slashing.rs, bft.rs): [Finality]; authenticated
      records of past chunks (prover-chunk/src/history.rs): [Records]; headers, bodies
      and proposers (consensus-types/src/lib.rs, prover-chunk/src/proposer.rs, body.rs):
      [Blocks]; offences and their authorization (prover-chunk/src/history.rs,
      evidence.rs): [Offences].
    - The durable signing journal of a validator (consensus-engine/src/signing.rs):
      [Signing].
    - The runtime (runtimes/neutrino-default/core/src): sorted vectors of the standard
      library: [Sorted]; state backends and the write-back view of a block
      (runtime-core/src/lib.rs, state.rs): [Backend]; records and typed access
      (state.rs): [RuntimeState]; transactions (tx.rs): [Transactions]; [Governance]
      (governance.rs); [Staking] (staking.rs); [Accountability] (accountability.rs,
      settlement.rs); block execution and admission (lib.rs): [Stf].
    - The state of a block on the host and in the zkVM Guest (runtime-core/src/lib.rs):
      [Witness]; whole blocks on them: [Proving].

    The runtime's [stf] programs are trees of backend calls, so that one definition of a
    handler runs against any backend, as the generic Rust functions do; a failed
    assertion aborts the block.  The other components are pure functions over records;
    fallible ones return a [result] with the source's error type, and the journal is
    explicit state with atomic batches.  The mutations of the trie are trees of node
    fetches and stores, run against its store.  Unsigned integers are [N] with the source's
    checked, saturating or wrapping operations written out; hashes, keys and encodings are
    byte lists; each definition keeps the name of the source where it can.

    Third-party code is a class of operations in [External] (BLAKE3, SHA-256, Borsh
    encodings, BLS12-381, Ed25519) and [KoalaPerm] of [TrieNode] (the permutation under
    Poseidon2).  The theorems on the runtime are about the content of the state, with its
    root function the class [TrieRoot] of [Backend]; [Proving] instantiates it by the root
    of the trie and carries them to the trie.  What the code relies on of them is a separate class of
    laws that a theorem takes when it needs it: decoding inverts encoding, digests have
    32 bytes.  No theorem assumes that a hash has no collisions: where one would be
    needed, the conclusion names the two byte strings of the run that collide, or, for the
    trie, a boolean check over the finitely many nodes and values of the run
    ([ops_clash_free], [proof_clash_free], [collision_free]) says that none of them do.
    Unforgeability is a hypothesis about one key and one trace of issued signatures.
    Every theorem with hypotheses has a witness on concrete instances.

    ** What the theorems show

    - Consensus.  A verified finality certificate has the quorums it claims; two
      conflicting certificates expose a third of the stake; a validator that signs
      through the journal never equivocates and respects its locks across restarts; so
      with more than two thirds of the stake signing through the journal, two verified
      certificates for one chunk agree ([Finality], [Signing], [BftSafety]).  A journal
      user is never convicted of equivocation; the lock rule, however, convicts every
      journal user that keeps a properly moved lock without repeating its quorum
      ([Offences]).
    - Authenticated data.  History frontiers compute the root of the full tree, openings
      are complete and sound, records and statements read through them are the committed
      ones ([History], [Evidence], [Records]); the compact body of the guest accepts the
      same headers as the full body ([Blocks]).
    - The state trie.  [TrieSpec] is the tree the nodes denote, [TrieStore] relates the
      operations on the store to it, [TrieWalk] the read-only walks.  [TrieMap] shows that
      the trie is a finite map, that its root commits to the content whatever the history,
      and that it reads back from the database; [TrieProof] that proofs are complete and
      sound; [TriePrune] that pruning ends on every store and keeps exactly what is
      reachable; [TrieKeys] that enumeration lists the keys.  [TriePartial] runs the
      operations on a partial store.
    - Proved blocks.  The Guest, on the witness the host builds, replays a block of the
      host to the same output, and an output of the Guest on any witness for the root is
      the output of the host ([Witness], [Proving]).
    - Arithmetic and encodings.  In-place Merkle reduction, bit vectors, the 384-bit
      lottery threshold, exact signer coverage, leader rotation, signing-message
      separation, chain-spec validation ([Primitives], [Vrf], [Votes]).
    - The runtime.  [Views] reads a state through its records and defines the money
      supply and the mirrors of the validator records; [Ledger] gives the effect of every
      transaction, [Sanctions] of the mandatory phase, [Elections] of governance,
      [Execution] of a whole block.  [RuntimeSafety] concludes for chains of blocks:
      money is conserved, a nonce is spent at most once, records and mirrors stay
      well-formed, gas and receipts add up, blocks without evidence never halt the chain
      and drain the sanction queue; [Elections] that policy and programs change only by
      two thirds of the counted stake; [Backend] that the write-back view is
      transparent.  [RuntimeSamples] has the concrete state of their witnesses.

    ** Fuel and bounds

    Recursion is structural except for loops over machine counters.  The Merkle reduction
    runs with the number of leaves as fuel, and halves its level every round; binary
    searches run with the length of the vector; [HISTORY_DEPTH] levels bound every walk of
    the history tree.  Trie operations run with one unit per bit of the key's path and one
    more, key enumeration with one per stored node, and pruning with one visit per stored
    node and pending root.  In each case a theorem shows that the fuel is enough for every
    input.

    ** Not modelled

    Networking, synchronisation, storage, RPC, the command line and process wiring, the
    execution and proving hosts, and the scheduling loop of the engine, whose decisions do
    not matter to the safety theorems: they hold for every order of journal calls and every
    certificate.  Bounded Borsh readers and formatting code are left out. *)

(** ** Results, machine integers, bytes, byte order and sums *)

From stdpp Require Export prelude gmap.

#[global] Open Scope N_scope.

(* ------------------------------------------------------------------ *)
(** ** Results

    Rust's [Result<A, E>], as a monad with stdpp's [x ← e; k] notation. *)

Inductive result (E A : Type) : Type :=
| Ok (a : A)
| Err (e : E).
Arguments Ok {E A} a.
Arguments Err {E A} e.

#[export] Instance result_ret {E} : MRet (result E) := fun A x => Ok x.
#[export] Instance result_bind {E} : MBind (result E) := fun A B k m =>
  match m with Ok x => k x | Err e => Err e end.

(** Early return of [e] when the guard [b] fails. *)
Definition ensure {E} (b : bool) (e : E) : result E unit :=
  if b then Ok tt else Err e.

(** [Option::ok_or]. *)
Definition ok_or {E A} (o : option A) (e : E) : result E A :=
  match o with Some x => Ok x | None => Err e end.

(** [Result::map_err]. *)
Definition map_err {E F A} (f : E -> F) (r : result E A) : result F A :=
  match r with Ok x => Ok x | Err e => Err (f e) end.

(** [Result::ok]. *)
Definition ok {E A} (r : result E A) : option A :=
  match r with Ok x => Some x | Err _ => None end.

Definition is_ok {E A} (r : result E A) : bool :=
  match r with Ok _ => true | Err _ => false end.

(** Left-to-right fold that stops at the first error: a [for] loop whose body
    uses [?]. *)
Fixpoint try_fold {E A S} (f : S -> A -> result E S) (s : S) (l : list A) : result E S :=
  match l with
  | [] => Ok s
  | x :: l => match f s x with Ok s => try_fold f s l | Err e => Err e end
  end.

(** [iter.map(f).collect::<Result<Vec<_>, _>>()]. *)
Fixpoint try_map {E A B} (f : A -> result E B) (l : list A) : result E (list B) :=
  match l with
  | [] => Ok []
  | x :: l => match f x with
              | Ok y => match try_map f l with Ok ys => Ok (y :: ys) | Err e => Err e end
              | Err e => Err e
              end
  end.

(* ------------------------------------------------------------------ *)
(** ** Unsigned machine integers

    A value of Rust type [uW] is an [N]; every operation that could leave the
    type's range is one of the named operations below, given the type's
    maximum. *)

Definition U8_MAX : N := 2 ^ 8 - 1.
Definition U16_MAX : N := 2 ^ 16 - 1.
Definition U32_MAX : N := 2 ^ 32 - 1.
Definition U64_MAX : N := 2 ^ 64 - 1.
Definition U128_MAX : N := 2 ^ 128 - 1.

Definition checked_add (max a b : N) : option N :=
  if a + b <=? max then Some (a + b) else None.
Definition checked_sub (a b : N) : option N :=
  if b <=? a then Some (a - b) else None.
Definition checked_mul (max a b : N) : option N :=
  if a * b <=? max then Some (a * b) else None.
Definition saturating_add (max a b : N) : N := N.min max (a + b).
Definition saturating_sub (a b : N) : N := a - b.
Definition saturating_mul (max a b : N) : N := N.min max (a * b).
(** [u64::try_from] and the like. *)
Definition try_from (max a : N) : option N := if a <=? max then Some a else None.
Definition div_ceil (a b : N) : N := (a + b - 1) / b.

(** Length of a slice as a [usize]. *)
Definition len {A} (l : list A) : N := N.of_nat (length l).

(** The range [0..n]. *)
Definition range (n : N) : list N := map N.of_nat (seq 0 (N.to_nat n)).

(* ------------------------------------------------------------------ *)
(** ** Bytes *)

Abbreviation byte := N (only parsing).
Abbreviation bytes := (list N) (only parsing).

(** [x.to_le_bytes()] of an [n]-byte integer. *)
Fixpoint to_le_bytes (n : nat) (x : N) : bytes :=
  match n with
  | O => []
  | S n => x mod 256 :: to_le_bytes n (x / 256)
  end.

(** [uW::from_le_bytes]. *)
Fixpoint from_le_bytes (l : bytes) : N :=
  match l with
  | [] => 0
  | b :: l => b + 256 * from_le_bytes l
  end.

(** [x.to_be_bytes()]. *)
Definition to_be_bytes (n : nat) (x : N) : bytes := reverse (to_le_bytes n x).

(** Rust's [Ord] on byte arrays and slices: lexicographic, a strict prefix
    comparing smaller. *)
Fixpoint bytes_cmp (a b : bytes) : comparison :=
  match a, b with
  | [], [] => Eq
  | [], _ :: _ => Lt
  | _ :: _, [] => Gt
  | x :: a, y :: b => match x ?= y with Eq => bytes_cmp a b | c => c end
  end.

(** [Ordering::then_with]. *)
Definition then_with (c : comparison) (d : comparison) : comparison :=
  match c with Eq => d | _ => c end.

(* ------------------------------------------------------------------ *)
(** ** Automation *)

Create HintDb neutrino discriminated.
Create Rewrite HintDb neutrino.

(** Take apart the successful run of a chain of guarded results. *)
Ltac result_step :=
  match goal with
  | H : Ok _ = Ok _ |- _ => injection H as H
  | H : Err _ = Err _ |- _ => injection H as H
  | H : Ok _ = Err _ |- _ => discriminate H
  | H : Err _ = Ok _ |- _ => discriminate H
  | H : Some _ = Some _ |- _ => injection H as H
  | H : None = Some _ |- _ => discriminate H
  | H : Some _ = None |- _ => discriminate H
  | H : mret _ = _ |- _ => cbv [mret result_ret] in H
  | H : (mbind _ ?m) = Ok _ |- _ =>
      let E := fresh "Hok" in
      destruct m eqn:E; cbn [mbind result_bind] in H; [|discriminate H]
  | H : ensure ?b _ = Ok _ |- _ =>
      let E := fresh "Hguard" in
      unfold ensure in H; destruct b eqn:E; [clear H|discriminate H]
  | H : ok_or ?o _ = Ok _ |- _ =>
      let E := fresh "Hsome" in
      unfold ok_or in H; destruct o eqn:E; [|discriminate H]
  | H : map_err _ ?r = Ok _ |- _ =>
      let E := fresh "Hok" in
      destruct r eqn:E; cbn [map_err] in H; [|discriminate H]
  end.
Ltac results := repeat (result_step; subst).

(** [lia] with division and remainder by constants. *)
Ltac Zify.zify_post_hook ::= Z.to_euclidean_division_equations.

(* ------------------------------------------------------------------ *)
(** ** Lemmas on results *)

Lemma try_fold_app {E A S} (f : S -> A -> result E S) s l1 l2 :
  try_fold f s (l1 ++ l2) =
    match try_fold f s l1 with Ok s => try_fold f s l2 | Err e => Err e end.
Proof.
  revert s; induction l1 as [|x l1 IH]; intros s; simpl; [done|].
  destruct (f s x); [apply IH|done].
Qed.

(** An invariant of the loop body is an invariant of the loop. *)
Lemma try_fold_invariant {E A S} (f : S -> A -> result E S) (I : list A -> S -> Prop) l s s' :
  I [] s ->
  (forall done_ x st st', I done_ st -> x ∈ l -> f st x = Ok st' -> I (done_ ++ [x]) st') ->
  try_fold f s l = Ok s' -> I l s'.
Proof.
  intros H0 Hstep.
  assert (forall todo done_ st, done_ ++ todo = l -> I done_ st ->
    try_fold f st todo = Ok s' -> I l s') as Hgen.
  { induction todo as [|x todo IH]; simpl; intros done_ st Heq HI Hf.
    - injection Hf as <-. by rewrite app_nil_r in Heq; subst.
    - destruct (f st x) as [st'|] eqn:Hx; [|done].
      apply (IH (done_ ++ [x]) st'); [by rewrite <- app_assoc| |done].
      eapply Hstep; [done| |done]. rewrite <- Heq. set_solver. }
  by apply (Hgen l [] s).
Qed.

Lemma try_map_Forall2 {E A B} (f : A -> result E B) l l' :
  try_map f l = Ok l' <-> Forall2 (fun x y => f x = Ok y) l l'.
Proof.
  revert l'; induction l as [|x l IH]; intros l'; simpl.
  - split; [by intros [= <-]|by inversion 1].
  - split.
    + intros H. destruct (f x) eqn:Hx; [|done]. destruct (try_map f l); [|done].
      injection H as <-. constructor; [done|by apply IH].
    + inversion 1 as [|? y ? ys Hy Hys]; subst. rewrite Hy.
      by apply IH in Hys as ->.
Qed.

Lemma ensure_Ok {E} b (e : E) u : ensure b e = Ok u <-> b = true.
Proof. destruct u, b; simpl; split; done. Qed.

Lemma bind_Ok {E A B} (m : result E A) (k : A -> result E B) y :
  (m ≫= k) = Ok y <-> exists x, m = Ok x /\ k x = Ok y.
Proof. destruct m; simpl; split; [eauto|by intros (? & [= ->] & ?)|done|by intros (? & ? & ?)]. Qed.

Lemma bind_unit_Ok {E B} (m : result E unit) (k : unit -> result E B) y :
  (m ≫= k) = Ok y <-> m = Ok tt /\ k tt = Ok y.
Proof. rewrite bind_Ok. split; [intros ([] & ? & ?)|intros []]; eauto. Qed.

Lemma negb_orb_true a b : negb (a || b) = true <-> negb a = true /\ negb b = true.
Proof. rewrite negb_orb, andb_true_iff. done. Qed.

Lemma negb_eqb_true a b : negb (a =? b) = true <-> a <> b.
Proof. by rewrite negb_true_iff, N.eqb_neq. Qed.

Lemma negb_leb_true a b : negb (a <=? b) = true <-> b < a.
Proof. by rewrite negb_true_iff, N.leb_gt. Qed.

Lemma negb_ltb_true a b : negb (a <? b) = true <-> b <= a.
Proof. by rewrite negb_true_iff, N.ltb_ge. Qed.

Lemma negb_negb_true a : negb (negb a) = true <-> a = true.
Proof. by destruct a. Qed.

Lemma negb_bool_decide_true P `{Decision P} : negb (bool_decide P) = true <-> ~ P.
Proof. case_bool_decide; simpl; naive_solver. Qed.

(** Read boolean guards of the goal as propositions. *)
Ltac bool_prop :=
  repeat first
    [ setoid_rewrite negb_orb_true | setoid_rewrite negb_negb_true
    | setoid_rewrite negb_eqb_true | setoid_rewrite negb_leb_true
    | setoid_rewrite negb_ltb_true | setoid_rewrite negb_bool_decide_true
    | setoid_rewrite andb_true_iff | setoid_rewrite orb_true_iff
    | setoid_rewrite N.eqb_eq | setoid_rewrite N.leb_le | setoid_rewrite N.ltb_lt
    | setoid_rewrite bool_decide_eq_true ].

(** The same in a hypothesis. *)
Tactic Notation "bool_prop" "in" hyp(H) :=
  repeat first
    [ rewrite ensure_Ok in H
    | rewrite negb_orb_true in H | rewrite negb_negb_true in H
    | rewrite negb_eqb_true in H | rewrite negb_leb_true in H
    | rewrite negb_ltb_true in H | rewrite negb_bool_decide_true in H
    | rewrite andb_true_iff in H | rewrite orb_true_iff in H
    | rewrite N.eqb_eq in H | rewrite N.leb_le in H | rewrite N.ltb_lt in H
    | rewrite bool_decide_eq_true in H ].

(* ------------------------------------------------------------------ *)
(** ** Lemmas on machine integers *)

Lemma checked_add_Some max a b c : checked_add max a b = Some c <-> c = a + b /\ a + b <= max.
Proof.
  unfold checked_add. destruct (N.leb_spec (a + b) max); split; intros; simplify_eq; try done.
  - destruct_and?; subst; done.
  - lia.
Qed.

Lemma checked_add_None max a b : checked_add max a b = None <-> max < a + b.
Proof. unfold checked_add. destruct (N.leb_spec (a + b) max); split; intros; try done; lia. Qed.

Lemma checked_sub_Some a b c : checked_sub a b = Some c <-> c = a - b /\ b <= a.
Proof.
  unfold checked_sub. destruct (N.leb_spec b a); split; intros; simplify_eq; try done.
  - destruct_and?; subst; done.
  - lia.
Qed.

Lemma checked_sub_None a b : checked_sub a b = None <-> a < b.
Proof. unfold checked_sub. destruct (N.leb_spec b a); split; intros; try done; lia. Qed.

Lemma checked_mul_Some max a b : a * b <= max -> checked_mul max a b = Some (a * b).
Proof. intros Hle. unfold checked_mul. by rewrite (proj2 (N.leb_le _ _) Hle). Qed.

Lemma try_from_Some max a b : try_from max a = Some b <-> b = a /\ a <= max.
Proof.
  unfold try_from. destruct (N.leb_spec a max); split.
  - by intros [= <-].
  - by intros [-> _].
  - done.
  - intros [_ ?]. lia.
Qed.

Lemma saturating_add_exact max a b : a + b <= max -> saturating_add max a b = a + b.
Proof. unfold saturating_add. lia. Qed.

Lemma saturating_add_le max a b : saturating_add max a b <= max.
Proof. unfold saturating_add. lia. Qed.

#[export] Hint Resolve saturating_add_le : neutrino.

Lemma len_app {A} (l k : list A) : len (l ++ k) = len l + len k.
Proof. unfold len. rewrite length_app. lia. Qed.

Lemma len_cons {A} (x : A) l : len (x :: l) = 1 + len l.
Proof. unfold len. simpl. lia. Qed.

Lemma len_snoc {A} (l : list A) x : len (l ++ [x]) = len l + 1.
Proof. by rewrite len_app. Qed.

#[export] Hint Rewrite @len_app @len_cons @len_snoc : neutrino.

Lemma elem_of_range n i : i ∈ range n <-> i < n.
Proof.
  unfold range. rewrite list_elem_of_fmap. split.
  - intros (j & -> & Hj%elem_of_seq). lia.
  - intros Hi. exists (N.to_nat i). split; [by rewrite N2Nat.id|]. apply elem_of_seq. lia.
Qed.

Lemma range_succ n : range (n + 1) = range n ++ [n].
Proof.
  unfold range. replace (N.to_nat (n + 1)) with (S (N.to_nat n)) by lia.
  rewrite seq_S, map_app. simpl. by rewrite N2Nat.id.
Qed.

Lemma lookup_range n i : (i < N.to_nat n)%nat -> range n !! i = Some (N.of_nat i).
Proof. intros Hi. unfold range. rewrite list_lookup_fmap, lookup_seq_lt by done. done. Qed.

Lemma length_range n : length (range n) = N.to_nat n.
Proof. unfold range. by rewrite length_map, length_seq. Qed.

Lemma NoDup_range n : NoDup (range n).
Proof. unfold range. apply NoDup_fmap_2, NoDup_seq. intros x y. lia. Qed.

(* ------------------------------------------------------------------ *)
(** ** Lemmas on bytes *)

Lemma length_to_le_bytes n x : length (to_le_bytes n x) = n.
Proof. revert x; induction n; intros; simpl; [done|by f_equal]. Qed.

Lemma to_le_bytes_bound n x : Forall (fun b => b <= U8_MAX) (to_le_bytes n x).
Proof.
  revert x. induction n as [|n IH]; intros x; constructor; [|apply IH].
  pose proof (N.mod_lt x 256). unfold U8_MAX. lia.
Qed.

Lemma from_to_le_bytes n x : x < 256 ^ N.of_nat n -> from_le_bytes (to_le_bytes n x) = x.
Proof.
  revert x; induction n as [|n IH]; intros x Hx; simpl.
  - change (256 ^ N.of_nat 0) with 1 in Hx. lia.
  - rewrite Nat2N.inj_succ, N.pow_succ_r' in Hx. rewrite IH.
    + pose proof (N.div_mod x 256). lia.
    + apply N.Div0.div_lt_upper_bound. lia.
Qed.

Lemma to_le_bytes_inj n x y :
  x < 256 ^ N.of_nat n -> y < 256 ^ N.of_nat n -> to_le_bytes n x = to_le_bytes n y -> x = y.
Proof. intros Hx Hy Heq. rewrite <- (from_to_le_bytes n x Hx), Heq. by apply from_to_le_bytes. Qed.

Lemma bytes_cmp_eq a b : bytes_cmp a b = Eq <-> a = b.
Proof.
  revert b; induction a as [|x a IH]; intros [|y b]; simpl; try done.
  destruct (N.compare_spec x y); subst; rewrite ?IH; split; intros; simplify_eq; try done; lia.
Qed.

Lemma bytes_cmp_refl a : bytes_cmp a a = Eq.
Proof. by apply bytes_cmp_eq. Qed.

Lemma bytes_cmp_antisym a b : bytes_cmp b a = CompOpp (bytes_cmp a b).
Proof.
  revert b; induction a as [|x a IH]; intros [|y b]; simpl; try done.
  rewrite (N.compare_antisym x y), IH. by destruct (x ?= y).
Qed.

Lemma bytes_cmp_trans c a b d : bytes_cmp a b = c -> bytes_cmp b d = c -> bytes_cmp a d = c.
Proof.
  revert b d; induction a as [|x a IH]; intros [|y b] [|z d]; simpl; intros; subst; try done.
  destruct (N.compare_spec x y), (N.compare_spec y z), (N.compare_spec x z); subst;
    simplify_eq; try lia; try done; eauto.
Qed.

Lemma then_with_antisym c d : CompOpp (then_with c d) = then_with (CompOpp c) (CompOpp d).
Proof. by destruct c. Qed.

(* ------------------------------------------------------------------ *)
(** ** Sums over lists

    Stakes, weights and balances are summed over lists of owners; the lemmas
    below are the counting arguments the components share. *)

Definition sum_by {A} (w : A -> N) (l : list A) : N := foldr (fun x s => w x + s) 0 l.

Lemma sum_by_nil {A} (w : A -> N) : sum_by w [] = 0.
Proof. done. Qed.

Lemma sum_by_cons {A} (w : A -> N) x l : sum_by w (x :: l) = w x + sum_by w l.
Proof. done. Qed.

Lemma sum_by_app {A} (w : A -> N) l1 l2 : sum_by w (l1 ++ l2) = sum_by w l1 + sum_by w l2.
Proof. induction l1 as [|x l1 IH]; simpl; [done|]. rewrite IH. lia. Qed.

#[export] Instance sum_by_perm {A} (w : A -> N) : Proper ((≡ₚ) ==> (=)) (sum_by w).
Proof. induction 1; simpl; lia. Qed.

Lemma sum_by_ext {A} (v w : A -> N) l :
  (forall x, x ∈ l -> v x = w x) -> sum_by v l = sum_by w l.
Proof.
  induction l as [|x l IH]; simpl; intros H; [done|].
  rewrite (H x), IH; [done| |]; set_solver.
Qed.

Lemma sum_by_le {A} (v w : A -> N) l :
  (forall x, x ∈ l -> v x <= w x) -> sum_by v l <= sum_by w l.
Proof.
  induction l as [|x l IH]; simpl; intros H; [lia|].
  pose proof (H x ltac:(set_solver)). specialize (IH ltac:(set_solver)). lia.
Qed.

(** Changing the weight of one member of a duplicate-free list changes the sum
    by exactly that member's change. *)
Lemma sum_by_update {A} (v w : A -> N) (x : A) l :
  NoDup l -> x ∈ l -> (forall y, y <> x -> v y = w y) ->
  sum_by v l + w x = sum_by w l + v x.
Proof.
  induction l as [|y l IH]; intros Hnd Hin Hne; [by apply not_elem_of_nil in Hin|].
  apply NoDup_cons in Hnd as [Hy Hnd]. simpl. apply elem_of_cons in Hin as [->|Hin].
  - rewrite (sum_by_ext v w l); [lia|]. intros z Hz. apply Hne. set_solver.
  - rewrite (Hne y); [|set_solver]. specialize (IH Hnd Hin Hne). lia.
Qed.

Lemma sum_by_submseteq {A} (w : A -> N) l k : l ⊆+ k -> sum_by w l <= sum_by w k.
Proof. induction 1; simpl; lia. Qed.

Lemma sum_by_filter_split {A} (w : A -> N) (P : A -> Prop) `{forall x, Decision (P x)} l :
  sum_by w l = sum_by w (filter P l) + sum_by w (filter (fun x => ~ P x) l).
Proof.
  induction l as [|x l IH]; [done|]. rewrite !filter_cons.
  destruct (decide (P x)); [rewrite decide_False by tauto|rewrite decide_True by tauto]; simpl; lia.
Qed.

(** Inclusion and exclusion: two duplicate-free parts of a universe overlap at
    least as much as their weights exceed it. *)
Lemma sum_by_overlap `{EqDecision A} (w : A -> N) (a b u : list A) :
  NoDup a -> NoDup b -> (forall x, x ∈ a -> x ∈ u) -> (forall x, x ∈ b -> x ∈ u) ->
  sum_by w a + sum_by w b <= sum_by w u + sum_by w (filter (fun x => x ∈ b) a).
Proof.
  intros Ha Hb Hau Hbu. rewrite (sum_by_filter_split w (fun x => x ∈ b) a).
  assert (sum_by w (filter (fun x => x ∉ b) a ++ b) <= sum_by w u) as Hle; [|rewrite sum_by_app in Hle; lia].
  apply sum_by_submseteq, NoDup_submseteq.
  - apply NoDup_app. split; [by apply NoDup_filter|]. split; [|done].
    intros x Hx. by apply list_elem_of_filter in Hx as [? _].
  - intros x. rewrite elem_of_app, list_elem_of_filter. naive_solver.
Qed.
