(* ===== verification/External.v ===== *)
(** * Third-party code the sources call

    The hash functions, the Borsh codec, the BLS12-381 library [blst] and the
    Ed25519 library are crates outside the repository.  Each is a class of
    operations, a parameter of every definition that calls it; what the code
    relies on is a separate class of laws, which the theorems that need it
    take as a hypothesis. *)

From S2P Require Import Prelude.

(** ** Hash functions *)

(** [blake3::hash], [blake3::Hasher]. *)
Class Blake3 := blake3_hash : bytes -> bytes.
(** [sha2::Sha256::digest]. *)
Class Sha256 := sha256_digest : bytes -> bytes.

(** An explicit hash collision between two computations, each given by the list
    of byte strings it hashes: the same position of the two lists holds
    different inputs with equal digests.  Soundness theorems conclude with it
    instead of assuming that the hash has no collisions. *)
Definition Collides `{Blake3} (xs ys : list bytes) : Prop :=
  exists k a b, xs !! k = Some a /\ ys !! k = Some b /\ a <> b /\ blake3_hash a = blake3_hash b.

(** The digest is 32 bytes. *)
Class Blake3Laws `{Blake3} : Prop :=
  blake3_length : forall input, length (blake3_hash input) = 32%nat.

Lemma collides_here `{Blake3} a b xs ys :
  blake3_hash a = blake3_hash b -> a = b \/ Collides (a :: xs) (b :: ys).
Proof. intros Heq. destruct (decide (a = b)); [by left|right]. by exists 0%nat, a, b. Qed.

Lemma collides_there `{Blake3} a b xs ys : Collides xs ys -> Collides (a :: xs) (b :: ys).
Proof. intros (k & x & y & Hx & Hy & ?). by exists (S k), x, y. Qed.

#[export] Hint Resolve collides_there : neutrino.

(** ** Borsh *)

(** [borsh::to_vec] and [T::try_from_slice] at one type. *)
Class Borsh (A : Type) := {
  borsh_to_vec : A -> bytes;
  borsh_from_slice : bytes -> option A;
}.

(** Decoding inverts encoding. *)
Class BorshLaws (A : Type) `{Borsh A} : Prop :=
  borsh_roundtrip : forall x : A, borsh_from_slice (borsh_to_vec x) = Some x.

Lemma borsh_to_vec_inj `{BorshLaws A} (x y : A) : borsh_to_vec x = borsh_to_vec y -> x = y.
Proof.
  intros Heq. pose proof (borsh_roundtrip x) as Hx.
  rewrite Heq, borsh_roundtrip in Hx. by injection Hx.
Qed.

(** ** BLS12-381 signatures: [blst::min_pk] *)

Class Blst := {
  blst_pk : Type;
  blst_sig : Type;
  (** [PublicKey::from_bytes], [PublicKey::validate], [PublicKey::to_bytes] *)
  blst_pk_from_bytes : bytes -> option blst_pk;
  blst_pk_validate : blst_pk -> bool;
  blst_pk_to_bytes : blst_pk -> bytes;
  (** [Signature::from_bytes], [Signature::validate(true)], [Signature::to_bytes] *)
  blst_sig_from_bytes : bytes -> option blst_sig;
  blst_sig_validate : blst_sig -> bool;
  blst_sig_to_bytes : blst_sig -> bytes;
  (** [signature.verify(true, message, dst, &[], pk, true)] succeeds *)
  blst_verify : blst_sig -> bytes -> bytes -> blst_pk -> bool;
  (** [signature.fast_aggregate_verify(true, message, dst, pks)] succeeds *)
  blst_fast_aggregate_verify : blst_sig -> bytes -> bytes -> list blst_pk -> bool;
  (** [AggregateSignature::aggregate(sigs, true)] then [to_signature] *)
  blst_aggregate : list blst_sig -> option blst_sig;
}.

(** ** Ed25519: [ed25519_dalek] *)

Class Ed25519 := {
  ed_key : Type;
  (** [VerifyingKey::from_bytes] *)
  ed_key_from_bytes : bytes -> option ed_key;
  (** [key.verify_strict(message, signature)] succeeds *)
  ed_verify_strict : ed_key -> bytes -> bytes -> bool;
}.

(** ** Concrete instances

    Functions that satisfy the laws above, for evaluating the theorems at
    concrete inputs; not models of the crates. *)

(** The first 32 bytes, zero padded. *)
Definition pad32 : Blake3 := fun input => take 32 (input ++ replicate 32 0).

Lemma pad32_laws : @Blake3Laws pad32.
Proof. intros input. unfold blake3_hash, pad32. rewrite length_take, length_app, length_replicate. lia. Qed.

(** Self-delimiting codecs, composed over the type structure. *)
Class Codec (A : Type) := {
  enc : A -> bytes;
  dec : bytes -> option (A * bytes);
  dec_enc : forall x rest, dec (enc x ++ rest) = Some (x, rest);
}.

#[export, refine] Instance N_codec : Codec N := {|
  enc (n : N) := [n];
  dec b := match b with n :: rest => Some (n, rest) | [] => None end;
|}.
Proof. done. Defined.

#[export, refine] Instance bool_codec : Codec bool := {|
  enc (b : bool) := [if b then 1 else 0];
  dec b := match b with n :: rest => Some (negb (n =? 0), rest) | [] => None end;
|}.
Proof. by intros []. Defined.

#[export, refine] Instance prod_codec `{Codec A} `{Codec B} : Codec (A * B) := {|
  enc (p : A * B) := enc p.1 ++ enc p.2;
  dec b := '(x, b) ← dec b; '(y, b) ← dec b; Some ((x, y), b);
|}.
Proof. intros [x y] rest. rewrite <- app_assoc. simpl. rewrite dec_enc. simpl. by rewrite dec_enc. Defined.

#[export, refine] Instance option_codec `{Codec A} : Codec (option A) := {|
  enc (o : option A) := match o with None => [0] | Some x => 1 :: enc x end;
  dec b := match b with
           | 0 :: rest => Some (None, rest)
           | _ :: rest => '(x, rest) ← dec rest; Some (Some x, rest)
           | [] => None
           end;
|}.
Proof. intros [x|] rest; simpl; [|done]. by rewrite dec_enc. Defined.

Fixpoint dec_list `{Codec A} (n : nat) (b : bytes) : option (list A * bytes) :=
  match n with
  | O => Some ([], b)
  | S n => '(x, b) ← dec b; '(l, b) ← dec_list n b; Some (x :: l, b)
  end.

#[export, refine] Instance list_codec `{Codec A} : Codec (list A) := {|
  enc (l : list A) := len l :: concat (map enc l);
  dec b := match b with n :: b => dec_list (N.to_nat n) b | [] => None end;
|}.
Proof.
  intros l rest. unfold len. simpl. rewrite Nat2N.id.
  induction l as [|x l IH]; [done|]. simpl. rewrite <- app_assoc, dec_enc. simpl. by rewrite IH.
Defined.

Definition via_codec `{Codec B} {A} (f : A -> B) (g : B -> A) (Hgf : forall x, g (f x) = x) : Codec A.
Proof.
  refine {| enc x := enc (f x); dec b := '(y, b) ← dec b; Some (g y, b) |}.
  intros x rest. rewrite dec_enc. simpl. by rewrite Hgf.
Defined.

(** The codec as an instance of the Borsh operations, with their law. *)
Definition codec_borsh `{Codec A} : Borsh A := {|
  borsh_to_vec := enc;
  borsh_from_slice b := match dec b with Some (x, []) => Some x | _ => None end;
|}.

Lemma codec_borsh_laws `{Codec A} : @BorshLaws A codec_borsh.
Proof.
  intros x. unfold borsh_from_slice, borsh_to_vec, codec_borsh.
  rewrite <- (app_nil_r (enc x)). by rewrite dec_enc.
Qed.
