(* ===== verification/Primitives.v ===== *)
(** * crates/primitives: shared primitive types and consensus constants

    Hashes and fixed-size byte arrays are byte lists, unsigned integers are [N].
    Models [crates/primitives/src/lib.rs]. *)

From S2P Require Import Prelude External.

Abbreviation Hash := (list N) (only parsing).
Abbreviation BlsPublicKey := (list N) (only parsing).
Abbreviation BlsSignature := (list N) (only parsing).
Abbreviation DomainTag := (list N) (only parsing).
Abbreviation ValidatorIndex := N (only parsing).

Definition ZERO_HASH : Hash := replicate 32 0.
Definition FIXED_U128_FRAC_BITS : N := 64.
Definition FIXED_U128_ONE : N := N.shiftl 1 FIXED_U128_FRAC_BITS.

(* ------------------------------------------------------------------ *)
(** ** Consensus signing domain *)

Record ConsensusDomain := {
  chain_id : N;
  chain_spec_hash : Hash;
}.

(** [tag || chain_id LE8 || chain_spec_hash || payload]. *)
Definition signing_message (d : ConsensusDomain) (tag : DomainTag) (payload : bytes) : bytes :=
  tag ++ to_le_bytes 8 (chain_id d) ++ chain_spec_hash d ++ payload.

(** The streaming form, serializing the payload after the prefix. *)
Definition signing_message_borsh `{Borsh A} (d : ConsensusDomain) (tag : DomainTag)
    (payload : A) : bytes :=
  (tag ++ to_le_bytes 8 (chain_id d) ++ chain_spec_hash d) ++ borsh_to_vec payload.

(** The 16-byte domain tags, as the ASCII codes of the source's byte strings. *)
Definition NEUTRINO_ : bytes := [78; 69; 85; 84; 82; 73; 78; 79; 95].
Definition DOMAIN_VRF : DomainTag := NEUTRINO_ ++ [86; 82; 70; 95; 95; 95; 95].
Definition DOMAIN_PROPOSER_SIG : DomainTag := NEUTRINO_ ++ [80; 82; 79; 80; 79; 83; 69].
Definition DOMAIN_PREVOTE : DomainTag := NEUTRINO_ ++ [80; 82; 69; 86; 79; 84; 69].
Definition DOMAIN_PRECOMMIT : DomainTag := NEUTRINO_ ++ [80; 82; 69; 67; 79; 77; 77].
Definition DOMAIN_VOTE_ATTESTATION : DomainTag := NEUTRINO_ ++ [86; 79; 84; 69; 95; 95; 95].
Definition DOMAIN_BFT_PROPOSAL : DomainTag := NEUTRINO_ ++ [66; 70; 84; 80; 82; 79; 80].
Definition DOMAIN_BFT_NIL : DomainTag := NEUTRINO_ ++ [66; 70; 84; 78; 73; 76; 95].
Definition DOMAIN_BFT_NIL_ATTESTATION : DomainTag := NEUTRINO_ ++ [78; 73; 76; 65; 84; 84; 95].
Definition DOMAIN_BFT_ROUND_CHANGE : DomainTag := NEUTRINO_ ++ [82; 79; 85; 78; 68; 67; 72].
Definition DOMAIN_DA_PUBLICATION : DomainTag := NEUTRINO_ ++ [68; 65; 95; 80; 85; 66; 95].
Definition DOMAIN_DEPOSIT_POP : DomainTag := NEUTRINO_ ++ [68; 69; 80; 95; 80; 79; 80].
Definition DOMAIN_VOLUNTARY_EXIT : DomainTag := NEUTRINO_ ++ [86; 69; 88; 73; 84; 95; 95].
Definition DOMAIN_AGG_PROOF : DomainTag := NEUTRINO_ ++ [65; 71; 71; 80; 82; 70; 95].
Definition DOMAIN_CONTEXT : DomainTag := NEUTRINO_ ++ [67; 79; 78; 84; 69; 88; 84].
Definition DOMAIN_HISTORY_STATEMENT : DomainTag := NEUTRINO_ ++ [72; 73; 83; 84; 79; 82; 89].
Definition DOMAIN_CHECKPOINT : DomainTag := NEUTRINO_ ++ [67; 72; 69; 67; 75; 80; 84].
Definition DOMAIN_HISTORY_LEAF : DomainTag := NEUTRINO_ ++ [72; 83; 84; 76; 69; 65; 70].
Definition DOMAIN_HISTORY_NODE : DomainTag := NEUTRINO_ ++ [72; 83; 84; 78; 79; 68; 69].
Definition DOMAIN_HISTORY_ROOT : DomainTag := NEUTRINO_ ++ [72; 83; 84; 82; 79; 79; 84].
Definition DOMAIN_PARTICIPATION : DomainTag := NEUTRINO_ ++ [80; 65; 82; 84; 73; 67; 73].
Definition DOMAIN_DA_LANE : DomainTag := NEUTRINO_ ++ [68; 65; 95; 95; 95; 95; 95].

(** All of them. *)
Definition consensus_tags : list DomainTag :=
  [DOMAIN_VRF; DOMAIN_PROPOSER_SIG; DOMAIN_PREVOTE; DOMAIN_PRECOMMIT; DOMAIN_VOTE_ATTESTATION;
   DOMAIN_BFT_PROPOSAL; DOMAIN_BFT_NIL; DOMAIN_BFT_NIL_ATTESTATION; DOMAIN_BFT_ROUND_CHANGE;
   DOMAIN_DA_PUBLICATION; DOMAIN_DEPOSIT_POP; DOMAIN_VOLUNTARY_EXIT; DOMAIN_AGG_PROOF;
   DOMAIN_CONTEXT; DOMAIN_HISTORY_STATEMENT; DOMAIN_CHECKPOINT; DOMAIN_HISTORY_LEAF;
   DOMAIN_HISTORY_NODE; DOMAIN_HISTORY_ROOT; DOMAIN_PARTICIPATION; DOMAIN_DA_LANE].

(** A consensus domain as the code builds it: a [u64] and a 32-byte hash. *)
Definition domain_wf (d : ConsensusDomain) : Prop :=
  chain_id d <= U64_MAX /\ length (chain_spec_hash d) = 32%nat.

(** [DOMAIN_DEPOSIT_POP || pubkey || address]. *)
Definition registration_pop_message (pubkey : BlsPublicKey) (address : Hash) : bytes :=
  DOMAIN_DEPOSIT_POP ++ pubkey ++ address.

(* ------------------------------------------------------------------ *)
(** ** Quorum fractions *)

Definition fixed_u128_from_integer (value : N) : N := N.shiftl value FIXED_U128_FRAC_BITS.

Definition quorum_fraction_valid (numerator denominator : N) : bool :=
  negb (numerator =? 0) && negb (denominator =? 0)
  && (numerator <=? denominator) && (denominator * 2 <=? numerator * 3).

Definition quorum_reached (stake total_stake numerator denominator : N) : bool :=
  total_stake * numerator <=? stake * denominator.

(* ------------------------------------------------------------------ *)
(** ** Merkle roots *)

Section merkle.
Context `{Blake3}.

Definition blake3_256 (input : bytes) : Hash := blake3_hash input.

Definition EMPTY_MERKLE_ROOT : Hash := ZERO_HASH.

(** [leaves[i]]; indexing out of range panics, which [merkle_level] never does. *)
Definition at_ (leaves : list Hash) (i : nat) : Hash := default [] (leaves !! i).

(** The inner [for index in 0..length / 2] loop, in place: [n] iterations are
    left, the next one writes slot [index]. *)
Fixpoint merkle_pairs_loop (n index : nat) (leaves : list Hash) : list Hash :=
  match n with
  | O => leaves
  | S n =>
      let concat := at_ leaves (index * 2) ++ at_ leaves (index * 2 + 1) in
      merkle_pairs_loop n (S index) (<[index := blake3_256 concat]> leaves)
  end.

(** One iteration of the [while leaves.len() > 1] loop. *)
Definition merkle_level (leaves : list Hash) : list Hash :=
  let length := length leaves in
  let leaves := merkle_pairs_loop (length / 2)%nat 0%nat leaves in
  let leaves := if Nat.odd length
                then <[(length / 2)%nat := at_ leaves (length - 1)]> leaves
                else leaves in
  take (N.to_nat (div_ceil (N.of_nat length) 2)) leaves.

(** The [while] loop, given fuel; [None] when the fuel runs out. *)
Fixpoint merkle_loop (fuel : nat) (leaves : list Hash) : option Hash :=
  match fuel with
  | O => None
  | S fuel =>
      if (1 <? length leaves)%nat then merkle_loop fuel (merkle_level leaves)
      else Some (at_ leaves 0)
  end.

Definition merkle_root_from_hashes (leaves : list Hash) : option Hash :=
  match leaves with
  | [] => Some EMPTY_MERKLE_ROOT
  | _ => merkle_loop (length leaves) leaves
  end.

Definition merkle_root_of_hashes (leaves : list Hash) : option Hash :=
  merkle_root_from_hashes leaves.

(** Each leaf hashes the Borsh form of the blob, [u32_le(len) || blob]. *)
Definition merkle_root_of_blobs (blobs : list bytes) : option Hash :=
  merkle_root_of_hashes
    (map (fun blob => blake3_256 (to_le_bytes 4 (len blob) ++ blob)) blobs).

(** The lane leaf [DOMAIN_DA_LANE || tag || count LE4 || root]. *)
Definition da_lane_leaf (tag : N) (lane : N * Hash) : Hash :=
  blake3_256 (DOMAIN_DA_LANE ++ [tag] ++ to_le_bytes 4 lane.1 ++ lane.2).

Definition da_root_from_lane_roots (lanes : (N * Hash) * (N * Hash) * (N * Hash)) : option Hash :=
  let '(transactions, votes, programs) := lanes in
  merkle_root_of_hashes
    [da_lane_leaf 0 transactions; da_lane_leaf 1 votes; da_lane_leaf 2 programs].

(** Reference definition: a level pairs its nodes, an odd last node is promoted. *)
Fixpoint pair_up (leaves : list Hash) : list Hash :=
  match leaves with
  | l :: r :: rest => blake3_256 (l ++ r) :: pair_up rest
  | _ => leaves
  end.

(** Reference tree: [n] levels of pairing. *)
Definition pair_levels (n : nat) (leaves : list Hash) : list Hash := Nat.iter n pair_up leaves.

End merkle.

(* ------------------------------------------------------------------ *)
(** ** Bounded bytes *)

Record BoundsError := { actual : N; max_len : N }.

(** [BoundedBytes::<MAX_LEN>::new]. *)
Definition BoundedBytes_new (MAX_LEN : N) (b : bytes) : result BoundsError bytes :=
  if MAX_LEN <? len b then Err {| actual := len b; max_len := MAX_LEN |} else Ok b.

(* ------------------------------------------------------------------ *)
(** ** Bit vectors *)

Module BitVec.

Record t := mk { bit_len : N; vec : bytes }.

#[global] Instance t_eq_dec : EqDecision t.
Proof. solve_decision. Defined.

Definition default_ : t := {| bit_len := 0; vec := [] |}.

Definition USIZE_MAX : N := U64_MAX.

Definition bytes_for_bits (n : N) : N := div_ceil n 8.

Definition has_non_zero_padding (b : t) : bool :=
  let unused_bits := saturating_sub (saturating_mul USIZE_MAX (len (vec b)) 8) (bit_len b) in
  if (unused_bits =? 0) || bool_decide (vec b = []) then false
  else
    let used_bits_in_last := bit_len b mod 8 in
    let mask := if used_bits_in_last =? 0 then 0
                else N.lxor U8_MAX (N.shiftl 1 used_bits_in_last - 1) in
    match last (vec b) with
    | Some l => negb (N.land l mask =? 0)
    | None => false
    end.

Definition from_bytes (n : N) (b : bytes) : result BoundsError t :=
  let expected := bytes_for_bits n in
  if negb (len b =? expected) then Err {| actual := len b; max_len := expected |}
  else
    let bit_vec := {| bit_len := n; vec := b |} in
    if has_non_zero_padding bit_vec then Err {| actual := len b; max_len := expected |}
    else Ok bit_vec.

(** [self.bytes[index / 8]] is in range whenever the vector is well formed
    ([get_in_range]). *)
Definition get (b : t) (index : N) : option bool :=
  if bit_len b <=? index then None
  else
    let byte := default 0 (vec b !! N.to_nat (index / 8)) in
    let mask := N.shiftl 1 (index mod 8) in
    Some (negb (N.land byte mask =? 0)).

Definition push (b : t) (value : bool) : t :=
  let index := bit_len b in
  let next_len := saturating_add U32_MAX index 1 in
  let next_byte_len := bytes_for_bits next_len in
  let v := if len (vec b) <? next_byte_len then vec b ++ [0] else vec b in
  let v := if value
           then alter (fun byte => N.lor byte (N.shiftl 1 (index mod 8))) (N.to_nat (index / 8)) v
           else v in
  {| bit_len := next_len; vec := v |}.

(** Bit [i] of the byte string, [false] past its end. *)
Definition bit (b : t) (i : N) : bool := N.testbit (default 0 (vec b !! N.to_nat (i / 8))) (i mod 8).

(** The type invariant: a [u32] length, exactly the bytes it needs, byte-sized
    values, and no bit set past the length. *)
Definition wf (b : t) : Prop :=
  bit_len b <= U32_MAX /\ len (vec b) = bytes_for_bits (bit_len b)
  /\ Forall (fun x => x <= U8_MAX) (vec b) /\ forall i, bit_len b <= i -> bit b i = false.

(** The sequence a vector denotes. *)
Definition to_bools (b : t) : list bool :=
  map (fun i => default false (get b i)) (range (bit_len b)).

End BitVec.

(* ------------------------------------------------------------------ *)
(** ** Validators and the chain specification *)

Record Validator := {
  pubkey : BlsPublicKey;
  withdrawal_credentials : Hash;
  effective_stake : N;
  slashed : bool;
  activation_epoch : N;
  exit_epoch : N;
  last_active_chunk : N;
}.

#[export] Instance Validator_eq_dec : EqDecision Validator.
Proof. solve_decision. Defined.

Record ConsensusParams := {
  slot_duration_secs : N;
  epoch_length : N;
  chunk_size : N;
  chunk_timeout_slots : N;
  proof_window_slots : N;
  finality_stall_threshold_slots : N;
  proposer_boost_fraction : N;
  bft_prevote_quorum_numerator : N;
  bft_prevote_quorum_denominator : N;
  bft_precommit_quorum_numerator : N;
  bft_precommit_quorum_denominator : N;
  min_validator_withdrawal_delay_secs : N;
  lock_window_chunks : N;
  expected_proposers_per_slot : N;
  expected_aggregators_per_round : N;
  vote_subnets : N;
  validator_subnets_per_chunk : N;
  bft_round_timeout_base_secs : N;
  bft_round_timeout_step_secs : N;
  epoch_length_in_chunks : N;
  activation_delay_epochs : N;
  exit_delay_epochs : N;
}.

Record ProofParams := {
  slot_budget_per_chunk : N;
  fallback_premium : N;
}.

Record StateParams := {
  keep_state_blocks : N;
  pruning_delay_chunks : N;
  witness_retention_blocks : N;
  snapshot_interval_chunks : N;
}.

Record LightClientParams := {
  weak_subjectivity_period_secs : N;
  anchor_interval_chunks : N;
  stale_threshold_secs : N;
}.

Record RuntimeParams := {
  evidence_max_age_blocks : N;
  evidence_max_pending : N;
  evidence_admissions_per_block : N;
  evidence_executions_per_block : N;
  gas_price : N;
  min_validator_stake : N;
  unbonding_delay_blocks : N;
  slash_amount : N;
  inactivity_leak_amount : N;
}.

Record ChainSpec := {
  name : bytes;
  spec_chain_id : N;
  genesis_time : N;
  genesis_gas_limit : N;
  runtime_info : bytes;
  runtime_code_hash : Hash;
  genesis_seed : Hash;
  genesis_state_root : Hash;
  genesis_block_hash : Hash;
  genesis_validator_set_root : Hash;
  consensus : ConsensusParams;
  proof : ProofParams;
  state_params : StateParams;
  light_client : LightClientParams;
  runtime : RuntimeParams;
  initial_validators : list Validator;
  metadata : bytes;
}.

(** The [Default] implementations. *)
Definition DEFAULT_SLOT_DURATION_SECS : N := 4.
Definition DEFAULT_CHUNK_SIZE : N := 128.
Definition DEFAULT_UNBONDING_DELAY_BLOCKS : N := 14 * 24 * 60 * 60 / DEFAULT_SLOT_DURATION_SECS.
Definition DEFAULT_WEAK_SUBJECTIVITY_PERIOD_SECS : N :=
  DEFAULT_UNBONDING_DELAY_BLOCKS * DEFAULT_SLOT_DURATION_SECS.

Definition ConsensusParams_default : ConsensusParams := {|
  slot_duration_secs := DEFAULT_SLOT_DURATION_SECS;
  epoch_length := 32;
  chunk_size := DEFAULT_CHUNK_SIZE;
  chunk_timeout_slots := 16;
  proof_window_slots := 8;
  finality_stall_threshold_slots := 64;
  proposer_boost_fraction := FIXED_U128_ONE * 2 / 5;
  bft_prevote_quorum_numerator := 2;
  bft_prevote_quorum_denominator := 3;
  bft_precommit_quorum_numerator := 2;
  bft_precommit_quorum_denominator := 3;
  min_validator_withdrawal_delay_secs := DEFAULT_WEAK_SUBJECTIVITY_PERIOD_SECS;
  lock_window_chunks := 64;
  expected_proposers_per_slot := FIXED_U128_ONE;
  expected_aggregators_per_round := FIXED_U128_ONE * 4;
  vote_subnets := 16;
  validator_subnets_per_chunk := 2;
  bft_round_timeout_base_secs := 2 * DEFAULT_SLOT_DURATION_SECS;
  bft_round_timeout_step_secs := DEFAULT_SLOT_DURATION_SECS;
  epoch_length_in_chunks := 1;
  activation_delay_epochs := 2;
  exit_delay_epochs := 2;
|}.

Definition ProofParams_default : ProofParams := {|
  slot_budget_per_chunk := DEFAULT_CHUNK_SIZE;
  fallback_premium := FIXED_U128_ONE / 2;
|}.

Definition StateParams_default : StateParams := {|
  keep_state_blocks := DEFAULT_CHUNK_SIZE * 4;
  pruning_delay_chunks := 2;
  witness_retention_blocks := DEFAULT_CHUNK_SIZE;
  snapshot_interval_chunks := 1024;
|}.

Definition LightClientParams_default : LightClientParams := {|
  weak_subjectivity_period_secs := DEFAULT_WEAK_SUBJECTIVITY_PERIOD_SECS;
  anchor_interval_chunks := 1024;
  stale_threshold_secs := 4 * DEFAULT_CHUNK_SIZE * DEFAULT_SLOT_DURATION_SECS;
|}.

Definition RuntimeParams_default : RuntimeParams := {|
  evidence_max_age_blocks := 1024;
  evidence_max_pending := 1024;
  evidence_admissions_per_block := 16;
  evidence_executions_per_block := 16;
  gas_price := 1;
  min_validator_stake := 32000000000;
  unbonding_delay_blocks := DEFAULT_UNBONDING_DELAY_BLOCKS;
  slash_amount := U128_MAX;
  inactivity_leak_amount := 1;
|}.

Inductive ChainSpecError :=
| InvalidEvidencePolicy
| ZeroGasPrice
| ZeroMinValidatorStake
| ZeroChainId
| InvalidGenesisValidatorRoot
| ZeroConsensusParameter
| InvalidQuorum
| InvalidFixedPointParameter
| ZeroProofParameter
| SlotBudgetDoesNotMatchChunkSize
| ZeroStateParameter
| ZeroLightClientParameter
| WeakSubjectivityOutlivesAccountability
| EmptyValidatorSet
| ZeroValidatorStake
| ValidatorStakeOverflow
| NonGenesisInitialValidator.

Definition validate_quorum (numerator denominator : N) : result ChainSpecError unit :=
  ensure (quorum_fraction_valid numerator denominator) InvalidQuorum.

Definition ConsensusParams_validate (c : ConsensusParams) : result ChainSpecError unit :=
  _ ← ensure (negb ((slot_duration_secs c =? 0) || (epoch_length c =? 0)
                    || (chunk_size c =? 0) || (chunk_timeout_slots c =? 0)
                    || (proof_window_slots c =? 0) || (finality_stall_threshold_slots c =? 0)
                    || (bft_round_timeout_base_secs c =? 0)
                    || (bft_round_timeout_step_secs c =? 0))) ZeroConsensusParameter;
  _ ← validate_quorum (bft_prevote_quorum_numerator c) (bft_prevote_quorum_denominator c);
  _ ← validate_quorum (bft_precommit_quorum_numerator c) (bft_precommit_quorum_denominator c);
  _ ← ensure (negb ((vote_subnets c =? 0) || (validator_subnets_per_chunk c =? 0)))
        ZeroConsensusParameter;
  _ ← ensure (negb ((expected_proposers_per_slot c =? 0) || (expected_aggregators_per_round c =? 0)
                    || (FIXED_U128_ONE <? proposer_boost_fraction c))) InvalidFixedPointParameter;
  ensure (negb ((epoch_length_in_chunks c =? 0) || (activation_delay_epochs c =? 0)
                || (exit_delay_epochs c =? 0))) ZeroConsensusParameter.

Definition ProofParams_validate (p : ProofParams) (c : ConsensusParams) :
    result ChainSpecError unit :=
  _ ← ensure (negb (slot_budget_per_chunk p =? 0)) ZeroProofParameter;
  ensure (slot_budget_per_chunk p =? chunk_size c) SlotBudgetDoesNotMatchChunkSize.

Definition StateParams_validate (s : StateParams) : result ChainSpecError unit :=
  ensure (negb ((keep_state_blocks s =? 0) || (pruning_delay_chunks s =? 0)
                || (witness_retention_blocks s =? 0) || (snapshot_interval_chunks s =? 0)))
    ZeroStateParameter.

Definition LightClientParams_validate (l : LightClientParams) : result ChainSpecError unit :=
  ensure (negb ((weak_subjectivity_period_secs l =? 0) || (anchor_interval_chunks l =? 0)
                || (stale_threshold_secs l =? 0))) ZeroLightClientParameter.

(** Body of the loop over [initial_validators]. *)
Definition validate_initial_validator (total_stake : N) (v : Validator) :
    result ChainSpecError N :=
  _ ← ensure (negb (effective_stake v =? 0)) ZeroValidatorStake;
  _ ← ensure (negb (negb (activation_epoch v =? 0) || negb (exit_epoch v =? U64_MAX)))
        NonGenesisInitialValidator;
  ok_or (checked_add U64_MAX total_stake (effective_stake v)) ValidatorStakeOverflow.

Section chain_spec.
Context `{Blake3} `{Borsh (list Validator)} `{Borsh ChainSpec}.

Definition ChainSpec_hash (s : ChainSpec) : Hash := blake3_256 (borsh_to_vec s).

Definition consensus_domain (s : ChainSpec) : ConsensusDomain :=
  {| chain_id := spec_chain_id s; chain_spec_hash := ChainSpec_hash s |}.

Definition ChainSpec_validate (s : ChainSpec) : result ChainSpecError unit :=
  let r := runtime s in
  _ ← ensure (negb (spec_chain_id s =? 0)) ZeroChainId;
  _ ← ConsensusParams_validate (consensus s);
  _ ← ProofParams_validate (proof s) (consensus s);
  _ ← StateParams_validate (state_params s);
  _ ← LightClientParams_validate (light_client s);
  _ ← ensure (negb ((evidence_max_age_blocks r =? 0)
                    || (unbonding_delay_blocks r <=? evidence_max_age_blocks r)
                    || (unbonding_delay_blocks r <=? chunk_size (consensus s))
                    || (evidence_max_pending r =? 0)
                    || (4096 <? evidence_max_pending r)
                    || (evidence_executions_per_block r =? 0)
                    || (evidence_max_pending r <? evidence_executions_per_block r)
                    || (evidence_admissions_per_block r =? 0)
                    || (evidence_max_pending r <? evidence_admissions_per_block r)))
        InvalidEvidencePolicy;
  _ ← ensure (negb (gas_price r =? 0)) ZeroGasPrice;
  _ ← ensure (negb (min_validator_stake r =? 0)) ZeroMinValidatorStake;
  _ ← ensure (negb match checked_mul U64_MAX (unbonding_delay_blocks r)
                           (slot_duration_secs (consensus s)) with
                   | None => true
                   | Some secs => secs <? weak_subjectivity_period_secs (light_client s)
                   end) WeakSubjectivityOutlivesAccountability;
  _ ← ensure (negb (bool_decide (initial_validators s = []))) EmptyValidatorSet;
  _ ← ensure (bool_decide (genesis_validator_set_root s
                           = blake3_256 (borsh_to_vec (initial_validators s))))
        InvalidGenesisValidatorRoot;
  _ ← try_fold validate_initial_validator 0 (initial_validators s);
  Ok tt.

(** What an accepted specification guarantees, as arithmetic facts. *)
Record consensus_params_valid (c : ConsensusParams) : Prop := {
  cpv_prevote : 2 * bft_prevote_quorum_denominator c <= 3 * bft_prevote_quorum_numerator c
    /\ 0 < bft_prevote_quorum_numerator c <= bft_prevote_quorum_denominator c;
  cpv_precommit : 2 * bft_precommit_quorum_denominator c <= 3 * bft_precommit_quorum_numerator c
    /\ 0 < bft_precommit_quorum_numerator c <= bft_precommit_quorum_denominator c;
  cpv_boost : proposer_boost_fraction c <= FIXED_U128_ONE;
  cpv_positive : Forall (fun x => 0 < x)
    [slot_duration_secs c; epoch_length c; chunk_size c; chunk_timeout_slots c;
     proof_window_slots c; finality_stall_threshold_slots c; bft_round_timeout_base_secs c;
     bft_round_timeout_step_secs c; vote_subnets c; validator_subnets_per_chunk c;
     expected_proposers_per_slot c; expected_aggregators_per_round c;
     epoch_length_in_chunks c; activation_delay_epochs c; exit_delay_epochs c];
}.

Record chain_spec_valid (s : ChainSpec) : Prop := {
  csv_chain_id : 0 < spec_chain_id s;
  csv_consensus : consensus_params_valid (consensus s);
  csv_budget : slot_budget_per_chunk (proof s) = chunk_size (consensus s);
  csv_positive : Forall (fun x => 0 < x)
    [keep_state_blocks (state_params s); pruning_delay_chunks (state_params s);
     witness_retention_blocks (state_params s); snapshot_interval_chunks (state_params s);
     weak_subjectivity_period_secs (light_client s); anchor_interval_chunks (light_client s);
     stale_threshold_secs (light_client s); evidence_max_age_blocks (runtime s);
     evidence_admissions_per_block (runtime s); evidence_executions_per_block (runtime s);
     gas_price (runtime s); min_validator_stake (runtime s)];
  csv_unbonding : evidence_max_age_blocks (runtime s) < unbonding_delay_blocks (runtime s)
    /\ chunk_size (consensus s) < unbonding_delay_blocks (runtime s);
  csv_pending : evidence_executions_per_block (runtime s) <= evidence_max_pending (runtime s) <= 4096
    /\ evidence_admissions_per_block (runtime s) <= evidence_max_pending (runtime s);
  csv_weak_subjectivity :
    weak_subjectivity_period_secs (light_client s)
      <= unbonding_delay_blocks (runtime s) * slot_duration_secs (consensus s) <= U64_MAX;
  csv_validators : initial_validators s <> []
    /\ Forall (fun v => 0 < effective_stake v /\ activation_epoch v = 0 /\ exit_epoch v = U64_MAX)
         (initial_validators s)
    /\ sum_by effective_stake (initial_validators s) <= U64_MAX;
  csv_root : genesis_validator_set_root s = blake3_256 (borsh_to_vec (initial_validators s));
}.

End chain_spec.

(* ------------------------------------------------------------------ *)
(** ** Merkle roots: the in-place reduction is level-wise pairing *)

Section merkle_facts.
Context `{Blake3}.

(** Induction two elements at a time, the recursion of [pair_up]. *)
Lemma list_pair_ind {A} (P : list A -> Prop) :
  P [] -> (forall x, P [x]) -> (forall x y l, P l -> P (x :: y :: l)) -> forall l, P l.
Proof.
  intros H0 H1 H2 l.
  assert (P l /\ forall x, P (x :: l)) as [? _]; [|done].
  induction l as [|y l [IH1 IH2]]; split; auto.
Qed.

Lemma length_pair_up l : length (pair_up l) = ((length l + 1) / 2)%nat.
Proof.
  induction l as [|x|x y l IH] using list_pair_ind; [done|done|].
  cbn [pair_up length]. rewrite IH.
  replace (S (S (length l)) + 1)%nat with (length l + 1 + 1 * 2)%nat by lia.
  rewrite Nat.div_add by lia. lia.
Qed.

Lemma lookup_pair_up l i :
  (2 * i + 1 < length l)%nat ->
  pair_up l !! i = Some (blake3_256 (at_ l (i * 2) ++ at_ l (i * 2 + 1))).
Proof.
  revert i; induction l as [|x|x y l IH] using list_pair_ind; simpl; intros i Hi; [lia|lia|].
  destruct i as [|i]; [done|].
  replace (S i * 2)%nat with (S (S (i * 2)))%nat by lia. simpl. rewrite IH by lia. done.
Qed.

Lemma lookup_pair_up_last l :
  Nat.odd (length l) = true -> pair_up l !! (length l / 2)%nat = last l.
Proof.
  induction l as [|x|x y l IH] using list_pair_ind; intros Hodd; [done|done|].
  cbn [pair_up length] in *.
  replace (S (S (length l)))%nat with (length l + 1 * 2)%nat by lia.
  rewrite Nat.div_add by lia. replace (length l / 2 + 1)%nat with (S (length l / 2)) by lia.
  etrans; [exact (IH Hodd)|by destruct l].
Qed.

Lemma merkle_pairs_loop_prefix n k l :
  (2 * (k + n) <= length l)%nat ->
  merkle_pairs_loop n k (take k (pair_up l) ++ drop k l)
  = take (k + n) (pair_up l) ++ drop (k + n) l.
Proof.
  revert k; induction n as [|n IH]; simpl; intros k Hle; [by rewrite Nat.add_0_r|].
  assert (k < length (pair_up l))%nat as Hk.
  { rewrite length_pair_up. apply Nat.div_le_lower_bound; lia. }
  assert (length (take k (pair_up l)) = k) as Htake by (rewrite length_take; lia).
  assert (forall j, (k <= j)%nat -> at_ (take k (pair_up l) ++ drop k l) j = at_ l j) as Hat.
  { intros j Hj. unfold at_. rewrite lookup_app_r by lia.
    rewrite Htake, lookup_drop. do 2 f_equal. lia. }
  rewrite !Hat by lia.
  replace (k + S n)%nat with (S k + n)%nat by lia. rewrite <- IH by lia. f_equal.
  erewrite take_S_r by (apply lookup_pair_up; lia).
  rewrite insert_app_r_alt by lia. rewrite Htake, Nat.sub_diag.
  destruct (drop k l) as [|d rest] eqn:Hdrop.
  { apply (f_equal length) in Hdrop. rewrite length_drop in Hdrop. simpl in Hdrop. lia. }
  simpl. rewrite <- app_assoc. simpl. repeat f_equal.
  rewrite <- Nat.add_1_r, <- drop_drop, Hdrop. done.
Qed.

Lemma half_odd n : Nat.odd n = true -> n = (2 * (n / 2) + 1)%nat.
Proof. intros Hodd. rewrite (Nat.div_mod_eq n 2) at 1. by rewrite <- Nat.bit0_mod, Nat.bit0_odd, Hodd. Qed.

Lemma half_even n : Nat.odd n = false -> n = (2 * (n / 2))%nat.
Proof. intros Hodd. rewrite (Nat.div_mod_eq n 2) at 1. rewrite <- Nat.bit0_mod, Nat.bit0_odd, Hodd. simpl; lia. Qed.

Lemma div_ceil_two n : N.to_nat (div_ceil (N.of_nat n) 2) = ((n + 1) / 2)%nat.
Proof. unfold div_ceil. rewrite N2Nat.inj_div. f_equal. lia. Qed.

(** The vector after the pairing loop of an odd-length level still ends with the
    last node, which the promotion then copies down. *)
Lemma odd_level_last h l x :
  length l = (2 * h + 1)%nat -> last l = Some x ->
  at_ (take h (pair_up l) ++ drop h l) (length l - 1) = x.
Proof.
  intros Hhalf Hlast. pose proof (length_pair_up l) as Hlen.
  assert (h <= length (pair_up l))%nat by (rewrite Hlen; apply Nat.div_le_lower_bound; lia).
  rewrite last_lookup in Hlast.
  unfold at_. rewrite lookup_app_r by (rewrite length_take; lia).
  rewrite length_take, Nat.min_l, lookup_drop by lia.
  replace (h + (length l - 1 - h))%nat with (pred (length l)) by lia. by rewrite Hlast.
Qed.

Lemma merkle_level_odd h l :
  length l = (2 * h + 1)%nat -> Nat.odd (length l) = true -> h = (length l / 2)%nat ->
  take (S h) (<[h := at_ (take h (pair_up l) ++ drop h l) (length l - 1)]>
                (take h (pair_up l) ++ drop h l)) = pair_up l.
Proof.
  intros Hhalf Hodd Hh.
  assert (length (pair_up l) = S h) as Hlen.
  { rewrite length_pair_up. symmetry. apply (Nat.div_unique _ 2 _ 0); lia. }
  destruct (last l) as [x|] eqn:Hlast; [|apply last_None in Hlast; subst l; simpl in *; lia].
  pose proof (lookup_pair_up_last l Hodd) as Hx. rewrite <- Hh, Hlast in Hx.
  rewrite (odd_level_last h l x) by done.
  rewrite insert_app_r_alt by (rewrite length_take; lia).
  rewrite length_take, Nat.min_l, Nat.sub_diag by lia.
  rewrite take_app_ge by (rewrite length_take; lia).
  rewrite length_take, Nat.min_l by lia.
  destruct (drop h l) as [|d rest] eqn:Hdrop.
  { apply (f_equal length) in Hdrop. rewrite length_drop in Hdrop. simpl in Hdrop. lia. }
  replace (S h - h)%nat with 1%nat by lia. simpl. rewrite take_0.
  rewrite <- (take_S_r _ _ _ Hx). apply take_ge. lia.
Qed.

Lemma merkle_level_pair_up l : merkle_level l = pair_up l.
Proof.
  unfold merkle_level. rewrite div_ceil_two.
  pose proof (Nat.div_mod_eq (length l) 2) as Hdm.
  pose proof (merkle_pairs_loop_prefix (length l / 2) 0 l ltac:(lia)) as Hloop.
  rewrite take_0, drop_0, app_nil_l, Nat.add_0_l in Hloop. rewrite Hloop.
  destruct (Nat.odd (length l)) eqn:Hodd.
  - pose proof (half_odd _ Hodd) as Hhalf. rewrite <- (merkle_level_odd _ _ Hhalf Hodd eq_refl) at 3.
    f_equal. symmetry. apply (Nat.div_unique _ 2 _ 0); lia.
  - pose proof (half_even _ Hodd) as Hhalf. pose proof (length_pair_up l) as Hlen.
    assert ((length l + 1) / 2 = length l / 2)%nat as Heq
      by (symmetry; apply (Nat.div_unique _ 2 _ 1); lia).
    rewrite Heq, take_app_le by (rewrite length_take; lia).
    rewrite take_take, Nat.min_id. apply take_ge. lia.
Qed.

Lemma pair_levels_S n l : pair_levels (S n) l = pair_levels n (pair_up l).
Proof. unfold pair_levels. by rewrite Nat.iter_succ_r. Qed.

(** The fuel [length leaves] is enough: every level shortens a list of two or
    more nodes. *)
Lemma merkle_loop_total fuel l :
  l <> [] -> (length l <= fuel)%nat ->
  exists n root, merkle_loop fuel l = Some root /\ pair_levels n l = [root].
Proof.
  revert l; induction fuel as [|fuel IH]; intros l Hne Hle.
  { destruct l; simpl in Hle; [done|lia]. }
  simpl. destruct (Nat.ltb_spec 1 (length l)) as [Hlt|Hge].
  - rewrite merkle_level_pair_up. pose proof (length_pair_up l) as Hlen.
    assert (length (pair_up l) < length l)%nat.
    { rewrite Hlen. apply Nat.Div0.div_lt_upper_bound; lia. }
    destruct (IH (pair_up l)) as (n & root & Hroot & Hlevels).
    { intros Hnil. rewrite Hnil in Hlen. cbn [length] in Hlen.
      assert (1 <= (length l + 1) / 2)%nat by (apply Nat.div_le_lower_bound; lia). lia. }
    { lia. }
    exists (S n), root. split; [done|]. by rewrite pair_levels_S.
  - destruct l as [|x [|? ?]]; [done| |simpl in Hge; lia]. by exists 0%nat, x.
Qed.

Lemma merkle_root_reference l :
  l <> [] -> exists n root, merkle_root_from_hashes l = Some root /\ pair_levels n l = [root].
Proof. intros Hne. destruct l; [done|]. by apply merkle_loop_total. Qed.

Lemma merkle_root_from_hashes_total l : exists root, merkle_root_from_hashes l = Some root.
Proof.
  destruct (decide (l = [])) as [->|Hne]; [by eexists|].
  destruct (merkle_root_reference l Hne) as (n & root & Hroot & _). by exists root.
Qed.

End merkle_facts.

(* ------------------------------------------------------------------ *)
(** ** Bit vectors: canonical encodings of boolean sequences *)

Module BitVecFacts.
Import BitVec.

Lemma land_mask x k : negb (N.land x (N.shiftl 1 k) =? 0) = N.testbit x k.
Proof.
  rewrite N.shiftl_1_l. destruct (N.testbit x k) eqn:Hk.
  - apply negb_true_iff, N.eqb_neq. intros Hz.
    assert (N.testbit (N.land x (2 ^ k)) k = true) as Ht
      by (by rewrite N.land_spec, Hk, N.pow2_bits_true).
    by rewrite Hz, N.bits_0 in Ht.
  - apply negb_false_iff, N.eqb_eq, N.bits_inj. intros j. rewrite N.land_spec, N.bits_0.
    destruct (decide (k = j)) as [->|Hne]; [by rewrite Hk|].
    by rewrite N.pow2_bits_false, andb_false_r.
Qed.

Lemma get_bit b i : get b i = if i <? bit_len b then Some (bit b i) else None.
Proof. unfold get, bit. rewrite land_mask. destruct (N.leb_spec (bit_len b) i), (N.ltb_spec i (bit_len b)); done || lia. Qed.

Lemma get_lt b i : i < bit_len b -> get b i = Some (bit b i).
Proof. intros Hi. rewrite get_bit. by apply N.ltb_lt in Hi as ->. Qed.

Lemma get_ge b i : bit_len b <= i -> get b i = None.
Proof. intros Hi. rewrite get_bit. by apply N.ltb_ge in Hi as ->. Qed.

Lemma get_in_range b i : wf b -> i < bit_len b -> is_Some (vec b !! N.to_nat (i / 8)).
Proof.
  intros (_ & Hlen & _) Hi. apply lookup_lt_is_Some.
  unfold len, bytes_for_bits, div_ceil in Hlen.
  assert (i / 8 < (bit_len b + 8 - 1) / 8); [|lia].
  apply N.lt_le_trans with (i / 8 + 1); [lia|].
  replace (i / 8 + 1) with ((i + 1 * 8) / 8) by (rewrite N.div_add; lia).
  apply N.Div0.div_le_mono. lia.
Qed.

Lemma bit_past_end b i : 8 * len (vec b) <= i -> bit b i = false.
Proof.
  intros Hi. unfold bit. rewrite lookup_ge_None_2; [apply N.bits_0|].
  unfold len in Hi. assert (len (vec b) <= i / 8); [|unfold len in *; lia].
  apply N.div_le_lower_bound; unfold len; lia.
Qed.

Lemma testbit_ones n j : N.testbit (N.ones n) j = (j <? n).
Proof.
  destruct (N.ltb_spec j n); [by apply N.ones_spec_low|by apply N.ones_spec_high].
Qed.

(** A byte's bits at and above [k] are clear exactly when masking finds none. *)
Lemma high_mask_zero x k :
  x <= U8_MAX -> k < 8 ->
  N.land x (N.lxor U8_MAX (N.shiftl 1 k - 1)) = 0 <-> forall j, k <= j < 8 -> N.testbit x j = false.
Proof.
  intros Hx Hk.
  assert (forall j, N.testbit (N.lxor U8_MAX (N.shiftl 1 k - 1)) j = (k <=? j) && (j <? 8)) as Hmask.
  { intros j. rewrite N.lxor_spec, N.shiftl_1_l, <- N.pred_sub.
    change U8_MAX with (N.ones 8).
    rewrite <- N.ones_equiv.
    rewrite !testbit_ones.
    destruct (N.ltb_spec j 8), (N.leb_spec k j), (N.ltb_spec j k); simpl; done || lia. }
  split.
  - intros Hz j Hj. apply (f_equal (fun y => N.testbit y j)) in Hz.
    rewrite N.land_spec, Hmask, N.bits_0 in Hz.
    apply andb_false_iff in Hz as [Hz|Hz]; [done|].
    apply andb_false_iff in Hz as [?%N.leb_gt|?%N.ltb_ge]; lia.
  - intros Hbits. apply N.bits_inj. intros j. rewrite N.land_spec, Hmask, N.bits_0.
    destruct (N.leb_spec k j), (N.ltb_spec j 8); simpl; rewrite ?andb_false_r; try done.
    rewrite Hbits by lia. done.
Qed.

Lemma div8_bound n m : m = div_ceil n 8 -> n <= 8 * m /\ 8 * m < n + 8.
Proof.
  unfold div_ceil. intros ->. lia.
Qed.

(** The padding test looks at the last byte only, which is where every bit past
    the length lives. *)
Lemma padding_spec b :
  bit_len b <= U32_MAX -> Forall (fun x => x <= U8_MAX) (vec b) ->
  len (vec b) = bytes_for_bits (bit_len b) ->
  has_non_zero_padding b = false <-> forall i, bit_len b <= i -> bit b i = false.
Proof.
  intros Hmax Hbytes Hlen. destruct (div8_bound _ _ Hlen) as [Hlo Hhi].
  unfold has_non_zero_padding.
  assert (saturating_mul USIZE_MAX (len (vec b)) 8 = 8 * len (vec b)) as ->.
  { unfold saturating_mul, USIZE_MAX, U64_MAX, U32_MAX in *. lia. }
  unfold saturating_sub. destruct (N.eqb_spec (8 * len (vec b) - bit_len b) 0) as [Hz|Hnz]; simpl.
  { split; [|done]. intros _ i Hi. apply bit_past_end. lia. }
  case_bool_decide as Hnil.
  { split; [|done]. intros _ i Hi. apply bit_past_end. rewrite Hnil. apply N.le_0_l. }
  assert (bit_len b mod 8 <> 0) as Hused by lia.
  assert (len (vec b) = bit_len b / 8 + 1) as Hlast by lia. apply N.eqb_neq in Hused as ->.
  destruct (last (vec b)) as [l|] eqn:Hl; [|by apply last_None in Hl].
  rewrite last_lookup in Hl.
  replace (pred (length (vec b))) with (N.to_nat (bit_len b / 8)) in Hl
    by (unfold len in Hlast; lia).
  assert (l <= U8_MAX) as Hl8 by (by eapply (Forall_lookup_1 _ _ _ _ Hbytes)).
  rewrite negb_false_iff, N.eqb_eq, high_mask_zero by (done || lia). split.
  - intros Hbits i Hi.
    destruct (decide (8 * len (vec b) <= i)); [by apply bit_past_end|].
    assert (i / 8 = bit_len b / 8) as Hdiv by lia.
    unfold bit. rewrite Hdiv, Hl. simpl. apply Hbits. lia.
  - intros Hbits j Hj. specialize (Hbits (8 * (bit_len b / 8) + j) ltac:(lia)). unfold bit in Hbits.
    rewrite (N.add_comm (8 * _)), (N.mul_comm 8), N.Div0.mod_add, N.div_add, N.div_small, N.mod_small,
      N.add_0_l, Hl in Hbits by lia. done.
Qed.

Lemma from_bytes_Ok n v b :
  n <= U32_MAX -> Forall (fun x => x <= U8_MAX) v ->
  from_bytes n v = Ok b <-> b = mk n v /\ wf b.
Proof.
  intros Hn Hv. unfold from_bytes. destruct (N.eqb_spec (len v) (bytes_for_bits n)) as [Hlen|Hlen]; simpl.
  - pose proof (padding_spec (mk n v) Hn Hv Hlen) as Hpad.
    destruct (has_non_zero_padding _); split.
    + done.
    + intros [-> (_ & _ & _ & Hbits)]. by apply Hpad in Hbits.
    + intros [= <-]. split; [done|]. by repeat split; try apply Hpad.
    + by intros [-> _].
  - split; [done|]. intros [-> (_ & ? & _)]. done.
Qed.

Lemma lookup_to_bools b i : (i < N.to_nat (bit_len b))%nat -> to_bools b !! i = Some (bit b (N.of_nat i)).
Proof.
  intros Hi. unfold to_bools. rewrite list_lookup_fmap, lookup_range by done. simpl.
  by rewrite get_lt by lia.
Qed.

Lemma length_to_bools b : length (to_bools b) = N.to_nat (bit_len b).
Proof. unfold to_bools. by rewrite length_map, length_range. Qed.

Lemma byte_bit b k j x : vec b !! k = Some x -> j < 8 -> N.testbit x j = bit b (8 * N.of_nat k + j).
Proof.
  intros Hx Hj. unfold bit.
  rewrite (N.add_comm (8 * _)), (N.mul_comm 8), N.Div0.mod_add, N.div_add, N.div_small, N.mod_small,
    N.add_0_l, Nat2N.id, Hx by lia. done.
Qed.

Lemma byte_high x j : x <= U8_MAX -> 8 <= j -> N.testbit x j = false.
Proof.
  intros Hx Hj. destruct (decide (x = 0)) as [->|]; [apply N.bits_0|].
  apply N.bits_above_log2. apply N.log2_lt_pow2; [lia|].
  apply N.lt_le_trans with (2 ^ 8); [unfold U8_MAX in Hx; lia|]. by apply N.pow_le_mono_r.
Qed.

Lemma to_bools_inj a b : wf a -> wf b -> to_bools a = to_bools b -> a = b.
Proof.
  intros (Ha1 & Ha2 & Ha3 & Ha4) (Hb1 & Hb2 & Hb3 & Hb4) Heq.
  assert (bit_len a = bit_len b) as Hlen.
  { apply (f_equal length) in Heq. rewrite !length_to_bools in Heq. lia. }
  assert (forall i, bit a i = bit b i) as Hbit.
  { intros i. destruct (decide (i < bit_len a)) as [Hi|Hi]; [|by rewrite Ha4, Hb4 by lia].
    apply (f_equal (.!! N.to_nat i)) in Heq. rewrite !lookup_to_bools, N2Nat.id in Heq by lia.
    by injection Heq. }
  assert (vec a = vec b) as Hvec.
  { rewrite Hlen, <- Hb2 in Ha2.
    apply list_eq_same_length with (length (vec a)); [unfold len in *; lia|done|].
    intros k x y _ Hx Hy. apply N.bits_inj. intros j.
    destruct (decide (j < 8)); [by rewrite (byte_bit a k j x), (byte_bit b k j y)|].
    pose proof (Forall_lookup_1 _ _ _ _ Ha3 Hx). pose proof (Forall_lookup_1 _ _ _ _ Hb3 Hy).
    by rewrite !byte_high by (done || lia). }
  destruct a, b; simpl in *; congruence.
Qed.

Lemma bit_push b v i :
  wf b -> bit_len b < U32_MAX -> bit (push b v) i = if i =? bit_len b then v else bit b i.
Proof.
  intros (_ & Hlen & _ & Hhigh) Hmax. destruct (div8_bound _ _ Hlen) as [Hlo Hhi].
  unfold push. rewrite saturating_add_exact by (unfold U32_MAX in *; lia).
  set (v' := if len (vec b) <? _ then vec b ++ [0] else vec b).
  assert (forall i, default 0 (v' !! i) = default 0 (vec b !! i)) as Hv'.
  { intros k. unfold v'. destruct (_ <? _); [|done].
    destruct (decide (k < length (vec b))%nat); [by rewrite lookup_app_l|].
    rewrite lookup_app_r, (lookup_ge_None_2 (vec b)) by lia. by destruct (k - _)%nat. }
  assert (N.to_nat (bit_len b / 8) < length v')%nat as Hin.
  { unfold v', bytes_for_bits, div_ceil, len in *.
    destruct (N.ltb_spec (N.of_nat (length (vec b))) ((bit_len b + 1 + 8 - 1) / 8));
      rewrite ?length_app; simpl; lia. }
  apply lookup_lt_is_Some in Hin as [x Hx].
  unfold bit. simpl. destruct v; simpl.
  - rewrite list_lookup_alter. case_decide as Hk.
    + rewrite <- Hk, Hx. simpl. rewrite N.lor_spec, N.shiftl_1_l, N.pow2_bits_eqb.
      rewrite Hk, <- Hv', <- Hk, Hx. simpl.
      destruct (N.eqb_spec (bit_len b mod 8) (i mod 8)), (N.eqb_spec i (bit_len b));
        rewrite ?orb_true_r, ?orb_false_r; done || lia.
    + rewrite Hv'. by destruct (N.eqb_spec i (bit_len b)) as [->|].
  - rewrite Hv'. destruct (N.eqb_spec i (bit_len b)) as [->|]; [|done]. apply Hhigh. lia.
Qed.

Lemma lor_byte x k : x <= U8_MAX -> k < 8 -> N.lor x (N.shiftl 1 k) <= U8_MAX.
Proof.
  intros Hx Hk. assert (N.land (N.lor x (N.shiftl 1 k)) (N.ones 8) = N.lor x (N.shiftl 1 k)) as <-.
  { apply N.bits_inj. intros j. rewrite N.land_spec, testbit_ones.
    destruct (N.ltb_spec j 8); [apply andb_true_r|].
    rewrite N.lor_spec, N.shiftl_1_l, N.pow2_bits_false, byte_high by lia. done. }
  rewrite N.land_ones. unfold U8_MAX. lia.
Qed.

Lemma push_wf b v : wf b -> bit_len b < U32_MAX -> wf (push b v).
Proof.
  intros Hwf Hmax. pose proof (bit_push b v) as Hbit. destruct Hwf as (Hb1 & Hlen & Hbytes & Hhigh).
  destruct (div8_bound _ _ Hlen) as [Hlo Hhi].
  assert (bit_len (push b v) = bit_len b + 1) as Hnext
    by (simpl; rewrite saturating_add_exact; [done|unfold U32_MAX in *; lia]).
  split; [rewrite Hnext; lia|]. split; [|split].
  - rewrite Hnext. simpl in Hnext |- *. rewrite Hnext. unfold len, bytes_for_bits, div_ceil in *.
    destruct v; rewrite ?length_alter;
      destruct (N.ltb_spec (N.of_nat (length (vec b))) ((bit_len b + 1 + 8 - 1) / 8));
      rewrite ?length_app; simpl; lia.
  - simpl. assert (Forall (fun x => x <= U8_MAX) (vec b ++ [0])) by (apply Forall_app; by repeat constructor).
    destruct v; [apply Forall_alter; [|intros; apply lor_byte; [done|lia]]|]; by destruct (_ <? _).
  - intros i Hi. rewrite Hnext in Hi. rewrite Hbit by done.
    destruct (N.eqb_spec i (bit_len b)); [lia|]. apply Hhigh. lia.
Qed.

Lemma push_to_bools b v :
  wf b -> bit_len b < U32_MAX -> to_bools (push b v) = to_bools b ++ [v].
Proof.
  intros Hwf Hmax.
  assert (bit_len (push b v) = bit_len b + 1) as Hnext
    by (simpl; rewrite saturating_add_exact; [done|unfold U32_MAX in *; lia]).
  unfold to_bools. rewrite Hnext, range_succ, map_app. f_equal.
  - apply map_ext_in. intros i Hi%list_elem_of_In%elem_of_range.
    rewrite !get_lt, bit_push by (done || lia). simpl. by destruct (N.eqb_spec i (bit_len b)); [lia|].
  - simpl. rewrite get_lt, bit_push, N.eqb_refl by (done || lia). done.
Qed.

End BitVecFacts.

(* ------------------------------------------------------------------ *)
(** ** Quorum arithmetic *)

(** Two sets of stake that both reach a valid quorum of the same total overlap
    in at least a third of it: [a + b <= total + overlap]. *)
Lemma quorum_overlap a b overlap total n1 d1 n2 d2 :
  quorum_fraction_valid n1 d1 = true -> quorum_fraction_valid n2 d2 = true ->
  quorum_reached a total n1 d1 = true -> quorum_reached b total n2 d2 = true ->
  a + b <= total + overlap -> total <= 3 * overlap.
Proof.
  unfold quorum_fraction_valid, quorum_reached.
  rewrite !andb_true_iff, !negb_true_iff, !N.eqb_neq, !N.leb_le. intros. destruct_and?.
  assert (2 * total <= 3 * a) by nia. assert (2 * total <= 3 * b) by nia. lia.
Qed.

(** Reaching a quorum is monotone in the stake. *)
Lemma quorum_reached_mono a b total n d :
  a <= b -> quorum_reached a total n d = true -> quorum_reached b total n d = true.
Proof. unfold quorum_reached. rewrite !N.leb_le. nia. Qed.

(* ------------------------------------------------------------------ *)
(** ** Signing messages *)

Lemma consensus_tags_length t : t ∈ consensus_tags -> length t = 16%nat.
Proof.
  assert (Forall (fun t => length t = 16%nat) consensus_tags) as H by (by repeat constructor).
  intros Ht. by eapply Forall_forall in H.
Qed.

Lemma consensus_tags_NoDup : NoDup consensus_tags.
Proof. apply (bool_decide_unpack _). by vm_compute. Qed.

Lemma signing_message_inj d1 d2 t1 t2 p1 p2 :
  domain_wf d1 -> domain_wf d2 -> length t1 = length t2 ->
  signing_message d1 t1 p1 = signing_message d2 t2 p2 -> t1 = t2 /\ d1 = d2 /\ p1 = p2.
Proof.
  intros [Hid1 Hh1] [Hid2 Hh2] Ht Heq. unfold signing_message in Heq.
  apply app_inj_1 in Heq as [<- Heq]; [|done].
  apply app_inj_1 in Heq as [Hid Heq]; [|by rewrite !length_to_le_bytes].
  apply app_inj_1 in Heq as [Hhash <-]; [|by rewrite Hh1, Hh2].
  apply to_le_bytes_inj in Hid; [|unfold U64_MAX in *; cbn; lia..].
  destruct d1, d2; simpl in *; by subst.
Qed.

(* ------------------------------------------------------------------ *)
(** ** Chain specification *)

Section chain_spec_facts.
Context `{Blake3} `{Borsh (list Validator)} `{Borsh ChainSpec}.

Lemma validate_validators_Ok start vs total :
  start <= U64_MAX ->
  try_fold validate_initial_validator start vs = Ok total <->
    total = start + sum_by effective_stake vs /\ total <= U64_MAX
    /\ Forall (fun v => 0 < effective_stake v /\ activation_epoch v = 0 /\ exit_epoch v = U64_MAX) vs.
Proof.
  revert start; induction vs as [|v vs IH]; intros start Hstart; simpl.
  { rewrite Forall_nil. split; [intros [= <-]; repeat split; lia|intros (-> & _ & _); f_equal; lia]. }
  rewrite Forall_cons. destruct (validate_initial_validator start v) as [s|e] eqn:Hv.
  - unfold validate_initial_validator in Hv. apply bind_unit_Ok in Hv as [Hg1 Hv].
    apply bind_unit_Ok in Hv as [Hg2 Hv]. rewrite ensure_Ok in Hg1, Hg2.
    unfold ok_or in Hv. destruct (checked_add _ _ _) eqn:Hadd; [|done]. injection Hv as ->.
    apply checked_add_Some in Hadd as [-> Hle]. rewrite IH by done.
    rewrite negb_true_iff, N.eqb_neq in Hg1.
    rewrite negb_true_iff, orb_false_iff, !negb_false_iff, !N.eqb_eq in Hg2. intuition lia.
  - split; [done|]. intros (-> & Hle & (Hs & Ha & He) & _).
    unfold validate_initial_validator in Hv. rewrite Ha, He in Hv.
    assert ((effective_stake v =? 0) = false) as Hz by (apply N.eqb_neq; lia).
    rewrite Hz in Hv. unfold ensure, ok_or in Hv. simpl in Hv.
    destruct (checked_add _ _ _) eqn:Hadd; [done|]. apply checked_add_None in Hadd. lia.
Qed.

Lemma validate_quorum_Ok n d :
  validate_quorum n d = Ok tt <-> 2 * d <= 3 * n /\ 0 < n <= d.
Proof. unfold validate_quorum, quorum_fraction_valid. rewrite ensure_Ok. bool_prop. lia. Qed.

Lemma ConsensusParams_validate_Ok c :
  ConsensusParams_validate c = Ok tt <-> consensus_params_valid c.
Proof.
  unfold ConsensusParams_validate.
  rewrite !bind_unit_Ok, !ensure_Ok, !validate_quorum_Ok. bool_prop. split.
  - intros. destruct_and?. split; repeat constructor; lia.
  - intros [Hpv Hpc Hboost Hpos]. rewrite !Forall_cons in Hpos. destruct_and?. repeat split; lia.
Qed.

Lemma unbonding_outlives_Ok unbonding slot period :
  negb match checked_mul U64_MAX unbonding slot with
       | None => true | Some secs => secs <? period end = true
  <-> period <= unbonding * slot <= U64_MAX.
Proof.
  unfold checked_mul. destruct (N.leb_spec (unbonding * slot) U64_MAX); simpl.
  - rewrite negb_ltb_true. lia.
  - split; [done|lia].
Qed.

Lemma ChainSpec_validate_Ok s : ChainSpec_validate s = Ok tt <-> chain_spec_valid s.
Proof.
  unfold ChainSpec_validate, ProofParams_validate, StateParams_validate, LightClientParams_validate.
  rewrite !bind_unit_Ok, !ensure_Ok, ConsensusParams_validate_Ok, bind_Ok, unbonding_outlives_Ok.
  setoid_rewrite validate_validators_Ok; [|by vm_compute]. bool_prop. split.
  - intros. destruct_and?.
    match goal with H : exists _, _ |- _ => destruct H as (total & (-> & Hle & Hall) & _) end.
    split; try done; repeat constructor; lia.
  - intros [? ? ? Hpos ? ? ? (Hne & Hall & Hsum) ?]. rewrite !Forall_cons in Hpos. destruct_and?.
    pose proof (cpv_positive _ ltac:(eassumption)) as Hc. rewrite !Forall_cons in Hc.
    repeat match goal with |- _ /\ _ => split end; try done; try lia.
    eexists. split; [split; [done|split; [lia|done]]|done].
Qed.

End chain_spec_facts.

(** A concrete codec, for witnesses. *)
#[export] Instance Validator_codec : Codec Validator.
Proof.
  refine (via_codec
    (fun v => (pubkey v, withdrawal_credentials v, effective_stake v, slashed v,
               activation_epoch v, exit_epoch v, last_active_chunk v))
    (fun '(a, b, c, d, e, f, g) =>
       {| pubkey := a; withdrawal_credentials := b; effective_stake := c; slashed := d;
          activation_epoch := e; exit_epoch := f; last_active_chunk := g |}) _).
  by intros [].
Defined.

(* ------------------------------------------------------------------ *)
(** ** Properties *)

(** The in-place Merkle reduction terminates on every list of leaves, and
    its root is the root of the reference tree: some number of levels of
    pairing, an odd last node promoted, reduces the leaves to exactly that one
    hash.  The empty list has the all-zero root. *)
Theorem merkle_root_in_place `{Blake3} (leaves : list Hash) :
  exists root, merkle_root_from_hashes leaves = Some root /\
    match leaves with
    | [] => root = ZERO_HASH
    | _ => exists n, pair_levels n leaves = [root]
    end.
Proof.
  destruct leaves as [|l leaves]; [by eexists|].
  destruct (merkle_root_reference (l :: leaves)) as (n & root & ? & ?); [done|]. eauto.
Qed.

(** Pushing a bit onto a well-formed bit vector that is not full keeps it
    well formed and appends exactly that bit to the sequence it denotes. *)
Theorem bitvec_push_appends (b : BitVec.t) (v : bool) :
  BitVec.wf b -> BitVec.bit_len b < U32_MAX ->
  BitVec.wf (BitVec.push b v) /\ BitVec.to_bools (BitVec.push b v) = BitVec.to_bools b ++ [v].
Proof. intros. split; [by apply BitVecFacts.push_wf|by apply BitVecFacts.push_to_bools]. Qed.

Lemma bitvec_push_appends_witness :
  BitVec.to_bools (BitVec.push (BitVec.push BitVec.default_ true) false) = [true; false].
Proof.
  assert (BitVec.wf BitVec.default_) as H0.
  { split; [by vm_compute|]. split; [done|]. split; [constructor|]. intros i _. apply N.bits_0. }
  destruct (bitvec_push_appends BitVec.default_ true H0 eq_refl) as [H1 E1].
  destruct (bitvec_push_appends _ false H1 eq_refl) as [_ E2].
  rewrite E2, E1. reflexivity.
Defined.

(** The bit-vector decoder is canonical: it accepts byte strings of the
    exact length with clear padding and nothing else, and two accepted inputs
    that denote the same sequence of bits are the same bytes. *)
Theorem bitvec_decoding_canonical (n m : N) (v w : bytes) (a b : BitVec.t) :
  n <= U32_MAX -> m <= U32_MAX ->
  Forall (fun x => x <= U8_MAX) v -> Forall (fun x => x <= U8_MAX) w ->
  BitVec.from_bytes n v = Ok a -> BitVec.from_bytes m w = Ok b ->
  BitVec.wf a /\ BitVec.wf b /\ (BitVec.to_bools a = BitVec.to_bools b -> n = m /\ v = w).
Proof.
  intros Hn Hm Hv Hw [-> Ha]%BitVecFacts.from_bytes_Ok [-> Hb]%BitVecFacts.from_bytes_Ok; try done.
  split; [done|]. split; [done|]. intros Heq. by injection (BitVecFacts.to_bools_inj _ _ Ha Hb Heq).
Qed.

Lemma bitvec_decoding_canonical_witness :
  exists a, BitVec.from_bytes 9 [5; 1] = Ok a /\ BitVec.wf a
    /\ is_ok (BitVec.from_bytes 9 [5; 2]) = false.
Proof.
  exists (BitVec.mk 9 [5; 1]). split; [reflexivity|]. split; [|reflexivity].
  apply (bitvec_decoding_canonical 9 9 [5; 1] [5; 1] (BitVec.mk 9 [5; 1]) (BitVec.mk 9 [5; 1]));
    first [reflexivity | done | by vm_compute | by repeat constructor].
Defined.

(** C38: consensus signing messages separate domains: messages under two of the
    consensus tags and two consensus domains coincide only when the tag, the
    chain id, the chain-spec hash and the payload all do; the tags are
    pairwise different. *)
Theorem signing_messages_separate (d1 d2 : ConsensusDomain) (t1 t2 : DomainTag) (p1 p2 : bytes) :
  domain_wf d1 -> domain_wf d2 -> t1 ∈ consensus_tags -> t2 ∈ consensus_tags ->
  signing_message d1 t1 p1 = signing_message d2 t2 p2 ->
  t1 = t2 /\ d1 = d2 /\ p1 = p2 /\ NoDup consensus_tags.
Proof.
  intros Hd1 Hd2 Ht1 Ht2 Heq. pose proof consensus_tags_NoDup.
  apply signing_message_inj in Heq; [naive_solver|done..|].
  by rewrite !consensus_tags_length.
Qed.

Lemma signing_messages_separate_witness :
  let d := {| chain_id := 7; chain_spec_hash := ZERO_HASH |} in
  signing_message d DOMAIN_PREVOTE [1] <> signing_message d DOMAIN_PRECOMMIT [1].
Proof.
  intros d Heq.
  assert (domain_wf d) as Hd by (split; by vm_compute).
  destruct (signing_messages_separate d d DOMAIN_PREVOTE DOMAIN_PRECOMMIT [1] [1] Hd Hd) as [Ht _].
  - unfold consensus_tags. set_solver.
  - unfold consensus_tags. set_solver.
  - exact Heq.
  - discriminate Ht.
Defined.

(** The default parameters are accepted with every proper genesis set. *)
Lemma chain_spec_defaults_valid `{Blake3} `{Borsh (list Validator)} (s : ChainSpec) :
  consensus s = ConsensusParams_default -> proof s = ProofParams_default ->
  state_params s = StateParams_default -> light_client s = LightClientParams_default ->
  runtime s = RuntimeParams_default -> spec_chain_id s <> 0 -> initial_validators s <> [] ->
  Forall (fun v => 0 < effective_stake v /\ activation_epoch v = 0 /\ exit_epoch v = U64_MAX)
    (initial_validators s) ->
  sum_by effective_stake (initial_validators s) <= U64_MAX ->
  genesis_validator_set_root s = blake3_256 (borsh_to_vec (initial_validators s)) ->
  ChainSpec_validate s = Ok tt.
Proof.
  intros Hc Hp Hs Hl Hr Hid Hne Hall Hsum Hroot. apply ChainSpec_validate_Ok.
  split; rewrite ?Hc, ?Hp, ?Hs, ?Hl, ?Hr; try done; try lia.
  1: split. all: repeat constructor; by vm_compute.
Qed.

(** The chain-specification check accepts exactly the specifications whose
    quorum fractions are proper and at least two thirds, whose genesis stake
    adds up within a [u64], whose unbonding delay outlasts the evidence age,
    the chunk and the weak-subjectivity period, and whose remaining bounds
    hold. *)
Theorem chain_spec_validate_exact `{Blake3} `{Borsh (list Validator)} (s : ChainSpec) :
  ChainSpec_validate s = Ok tt <-> chain_spec_valid s.
Proof. apply ChainSpec_validate_Ok. Qed.
