(* ===== verification/Bits.v ===== *)
(** * Bit paths of the state trie

    crates/trie/src/bits.rs: bit sequences packed most significant bit first into
    bytes, with the shifting and masking the code does, and their canonical
    encoding.  An operation whose assertion or index can fail returns [None]
    there.  The lemmas read every operation as one on lists of booleans. *)

From S2P Require Import Prelude Primitives.

(** ** The type and its operations *)

Record BitPath := { bp_len : N; bp_bytes : bytes }.

#[export] Instance BitPath_eq_dec : EqDecision BitPath.
Proof. solve_decision. Defined.

Inductive TrieError :=
| PrefixCollision | TruncatedNode | TrailingNodeBytes | InvalidNodeTag (tag : N)
| NonCanonicalBitPath | BitPathTooLong | MissingRetainedEntry | RetainedHashMismatch.

#[export] Instance TrieError_eq_dec : EqDecision TrieError.
Proof. solve_decision. Defined.

(** [x << k] of a [u8]. *)
Definition shl8 (x k : N) : N := N.land (N.shiftl x k) U8_MAX.

(** [x.leading_zeros()] of a [u8]. *)
Definition leading_zeros8 (x : N) : N := 8 - N.size x.

Definition bytes_for_bits (bit_len : N) : N := div_ceil bit_len 8.

Definition mask_padding (l : bytes) (bit_len : N) : bytes :=
  let trailing_bits := bit_len mod 8 in
  if trailing_bits =? 0 then l
  else alter (fun last => N.land last (shl8 U8_MAX (8 - trailing_bits))) (pred (length l)) l.

Definition has_nonzero_padding (bit_len : N) (l : bytes) : bool :=
  let trailing_bits := bit_len mod 8 in
  if trailing_bits =? 0 then false
  else match last l with
       | Some b => negb (N.land b (N.shiftr U8_MAX trailing_bits) =? 0)
       | None => false
       end.

Definition BitPath_empty : BitPath := {| bp_len := 0; bp_bytes := [] |}.

Definition BitPath_is_empty (p : BitPath) : bool := bp_len p =? 0.

Definition BitPath_from_owned_key (l : bytes) : option BitPath :=
  bit_len_usize ← checked_mul BitVec.USIZE_MAX (len l) 8;
  bit_len ← try_from U32_MAX bit_len_usize;
  Some {| bp_len := bit_len; bp_bytes := l |}.

Definition BitPath_for_key (key : bytes) : option BitPath :=
  key_len ← try_from U32_MAX (len key);
  BitPath_from_owned_key (to_le_bytes 4 key_len ++ key).

Definition BitPath_single (bit : bool) : BitPath :=
  {| bp_len := 1; bp_bytes := [shl8 (if bit then 1 else 0) 7] |}.

Definition BitPath_bit (p : BitPath) (index : N) : option bool :=
  guard (index < bp_len p);;
  byte ← bp_bytes p !! N.to_nat (index / 8);
  Some (N.land (N.shiftr byte (7 - index mod 8)) 1 =? 1).

Definition BitPath_prefix (p : BitPath) (n : N) : option BitPath :=
  guard (n <= bp_len p);;
  if n =? 0 then Some BitPath_empty
  else
    let byte_len := bytes_for_bits n in
    guard (byte_len <= len (bp_bytes p));;
    Some {| bp_len := n; bp_bytes := mask_padding (take (N.to_nat byte_len) (bp_bytes p)) n |}.

(** Byte [index] of the bits read from bit [shift] of byte [start]. *)
Definition window (l : bytes) (start shift index : N) : option N :=
  byte ← l !! N.to_nat (start + index);
  let high := shl8 byte shift in
  if shift =? 0 then Some high
  else
    let low := match l !! N.to_nat (start + index + 1) with
               | Some byte => N.shiftr byte (8 - shift)
               | None => 0
               end in
    Some (N.lor high low).

Definition BitPath_suffix (p : BitPath) (from : N) : option BitPath :=
  guard (from <= bp_len p);;
  let new_bit_len := bp_len p - from in
  if new_bit_len =? 0 then Some BitPath_empty
  else
    let new_byte_len := bytes_for_bits new_bit_len in
    new_bytes ← mapM (window (bp_bytes p) (from / 8) (from mod 8)) (range new_byte_len);
    Some {| bp_len := new_bit_len; bp_bytes := mask_padding new_bytes new_bit_len |}.

(** The loop over whole bytes: the common length when they differ. *)
Fixpoint common_bytes (full_bytes : nat) (i : N) (a b : bytes) : option (option N) :=
  match full_bytes with
  | O => Some None
  | S full_bytes =>
      match a, b with
      | x :: a, y :: b =>
          if x =? y then common_bytes full_bytes (i + 1) a b
          else Some (Some (i * 8 + leading_zeros8 (N.lxor x y)))
      | _, _ => None
      end
  end.

Definition BitPath_common_prefix_len (p other : BitPath) : option N :=
  let max_len := N.min (bp_len p) (bp_len other) in
  if max_len =? 0 then Some 0
  else
    let full_bytes := max_len / 8 in
    differ ← common_bytes (N.to_nat full_bytes) 0 (bp_bytes p) (bp_bytes other);
    match differ with
    | Some n => Some n
    | None =>
        let trailing_bits := max_len mod 8 in
        if trailing_bits =? 0 then Some max_len
        else
          x ← bp_bytes p !! N.to_nat full_bytes;
          y ← bp_bytes other !! N.to_nat full_bytes;
          Some (full_bytes * 8 + N.min (leading_zeros8 (N.lxor x y)) trailing_bits)
    end.

(** [iter.any(f)]. *)
Fixpoint any_bit (f : N -> option bool) (l : list N) : option bool :=
  match l with
  | [] => Some false
  | x :: l => b ← f x; if b : bool then Some true else any_bit f l
  end.

Definition BitPath_matches_at (p : BitPath) (offset : N) (other : BitPath) : option bool :=
  match checked_add U32_MAX offset (bp_len other) with
  | None => Some false
  | Some end_ =>
      if bp_len p <? end_ then Some false
      else
        let window := window (bp_bytes p) (offset / 8) (offset mod 8) in
        let full := bp_len other / 8 in
        differs ← any_bit (fun index => w ← window index; b ← bp_bytes other !! N.to_nat index;
                                        Some (negb (w =? b))) (range full);
        if differs : bool then Some false
        else
          let tail := bp_len other mod 8 in
          if tail =? 0 then Some true
          else
            let mask := shl8 U8_MAX (8 - tail) in
            w ← window full; b ← bp_bytes other !! N.to_nat full;
            Some (N.land w mask =? N.land b mask)
  end.

(** The loop that shifts the tail in below the last byte. *)
Fixpoint concat_loop (shift : N) (l tail_bytes : bytes) : option bytes :=
  match tail_bytes with
  | [] => Some l
  | byte :: tail_bytes =>
      last ← last l;
      concat_loop shift (removelast l ++ [N.lor last (N.shiftr byte shift); shl8 byte (8 - shift)])
        tail_bytes
  end.

Definition BitPath_concat (p tail : BitPath) : option BitPath :=
  if BitPath_is_empty p then Some tail
  else if BitPath_is_empty tail then Some p
  else
    bit_len ← checked_add U32_MAX (bp_len p) (bp_len tail);
    guard (bytes_for_bits (bp_len p) <= len (bp_bytes p));;
    let head := mask_padding (take (N.to_nat (bytes_for_bits (bp_len p))) (bp_bytes p)) (bp_len p) in
    guard (bytes_for_bits (bp_len tail) <= len (bp_bytes tail));;
    let tail_bytes := take (N.to_nat (bytes_for_bits (bp_len tail))) (bp_bytes tail) in
    let shift := bp_len p mod 8 in
    l ← if shift =? 0 then Some (head ++ tail_bytes) else concat_loop shift head tail_bytes;
    Some {| bp_len := bit_len;
            bp_bytes := mask_padding (take (N.to_nat (bytes_for_bits bit_len)) l) bit_len |}.

Definition BitPath_encode (p : BitPath) : bytes := to_le_bytes 4 (bp_len p) ++ bp_bytes p.

Definition BitPath_decode (l : bytes) : result TrieError (BitPath * N) :=
  if len l <? 4 then Err TruncatedNode
  else
    let bit_len := from_le_bytes (take 4 l) in
    let byte_len := bytes_for_bits bit_len in
    total ← ok_or (checked_add BitVec.USIZE_MAX 4 byte_len) BitPathTooLong;
    if len l <? total then Err TruncatedNode
    else
      let path_bytes := take (N.to_nat byte_len) (drop 4 l) in
      if has_nonzero_padding bit_len path_bytes then Err NonCanonicalBitPath
      else Ok ({| bp_len := bit_len; bp_bytes := path_bytes |}, total).

(* ------------------------------------------------------------------ *)
(** ** Byte strings as bit sequences *)

(** Bit [i] of a byte string, [false] past its end. *)
Definition bit_at (l : bytes) (i : N) : bool :=
  N.testbit (default 0 (l !! N.to_nat (i / 8))) (7 - i mod 8).

Definition octets (l : bytes) : Prop := Forall (fun x => x <= U8_MAX) l.

(** The type invariant: a [u32] length, exactly the bytes it needs, and no bit set
    past the length. *)
Record path_wf (p : BitPath) : Prop := {
  pw_len : bp_len p <= U32_MAX;
  pw_bytes : len (bp_bytes p) = bytes_for_bits (bp_len p);
  pw_octets : octets (bp_bytes p);
  pw_padding : forall i, bp_len p <= i -> bit_at (bp_bytes p) i = false;
}.

(** The bits a path denotes. *)
Definition bits (p : BitPath) : list bool := map (bit_at (bp_bytes p)) (range (bp_len p)).

Lemma length_bits p : length (bits p) = N.to_nat (bp_len p).
Proof. unfold bits. by rewrite length_map, length_range. Qed.

Lemma lookup_bits p i : (i < N.to_nat (bp_len p))%nat -> bits p !! i = Some (bit_at (bp_bytes p) (N.of_nat i)).
Proof. intros Hi. unfold bits. by rewrite list_lookup_fmap, lookup_range by done. Qed.

Lemma bit_at_byte l (k r : N) : r < 8 -> bit_at l (8 * k + r) = N.testbit (default 0 (l !! N.to_nat k)) (7 - r).
Proof. intros Hr. unfold bit_at. repeat f_equal; lia. Qed.

Lemma bit_at_past l i : 8 * len l <= i -> bit_at l i = false.
Proof. intros Hi. unfold bit_at, len in *. rewrite lookup_ge_None_2 by lia. apply N.bits_0. Qed.

Lemma bit_at_app l k i : bit_at (l ++ k) i = if i <? 8 * len l then bit_at l i else bit_at k (i - 8 * len l).
Proof.
  unfold bit_at, len. destruct (N.ltb_spec i (8 * N.of_nat (length l))).
  - by rewrite lookup_app_l by lia.
  - rewrite lookup_app_r by lia. set (n := N.of_nat (length l)) in *.
    replace (N.to_nat (i / 8) - length l)%nat with (N.to_nat ((i - 8 * n) / 8)) by lia.
    by replace ((i - 8 * n) mod 8) with (i mod 8) by lia.
Qed.

Lemma bit_at_take n l i : bit_at (take (N.to_nat n) l) i = (i <? 8 * n) && bit_at l i.
Proof.
  unfold bit_at. destruct (N.ltb_spec i (8 * n)); simpl.
  - by rewrite lookup_take_lt by lia.
  - by rewrite lookup_take_ge by lia.
Qed.

(** Byte strings of one length are equal when their bits are. *)
Lemma bit_at_ext l k : octets l -> octets k -> len l = len k -> (forall i, bit_at l i = bit_at k i) -> l = k.
Proof.
  unfold len. intros Hl Hk Hlen Hbits. apply list_eq_same_length with (length l); [lia|done|].
  intros i x y _ Hx Hy. apply N.bits_inj. intros j.
  destruct (decide (j < 8)) as [Hj|Hj].
  - specialize (Hbits (8 * N.of_nat i + (7 - j))). rewrite !bit_at_byte, Nat2N.id, Hx, Hy in Hbits by lia.
    cbn in Hbits. by replace (7 - (7 - j)) with j in Hbits by lia.
  - pose proof (Forall_lookup_1 _ _ _ _ Hl Hx). pose proof (Forall_lookup_1 _ _ _ _ Hk Hy).
    by rewrite !BitVecFacts.byte_high by (done || lia).
Qed.

Lemma bits_inj p q : path_wf p -> path_wf q -> bits p = bits q -> p = q.
Proof.
  intros Hp Hq Heq. assert (bp_len p = bp_len q) as Hlen.
  { apply (f_equal length) in Heq. rewrite !length_bits in Heq. lia. }
  destruct Hp as [_ Hp1 Hp2 Hp3], Hq as [_ Hq1 Hq2 Hq3]. destruct p as [n l], q as [n' l']. cbn in *. subst n'. f_equal.
  apply bit_at_ext; [done..|congruence|]. intros i. destruct (decide (i < n)) as [Hi|Hi]; [|by rewrite Hp3, Hq3 by lia].
  apply (f_equal (.!! N.to_nat i)) in Heq. rewrite !lookup_bits, N2Nat.id in Heq by (cbn; lia). by injection Heq.
Qed.

(** A path read off a bit function. *)
Lemma bits_of n l (m : list bool) :
  n = len m -> (forall i b, m !! i = Some b -> bit_at l (N.of_nat i) = b) -> bits {| bp_len := n; bp_bytes := l |} = m.
Proof.
  intros -> Hm. apply list_eq_same_length with (length m); [done|rewrite length_bits; unfold len; cbn; lia|].
  intros i x y Hi Hx Hy. rewrite lookup_bits in Hx by (unfold len; cbn; lia). injection Hx as <-. by apply Hm.
Qed.

(** *** Bytes *)

Lemma testbit_octet x j : x <= U8_MAX -> N.testbit x j = (j <? 8) && N.testbit x j.
Proof. intros Hx. destruct (N.ltb_spec j 8); [done|]. by rewrite BitVecFacts.byte_high. Qed.

Lemma testbit_shl8 x k j : N.testbit (shl8 x k) j = (j <? 8) && (k <=? j) && N.testbit x (j - k).
Proof.
  unfold shl8. change U8_MAX with (N.ones 8). rewrite N.land_spec, BitVecFacts.testbit_ones.
  destruct (N.leb_spec k j); [rewrite N.shiftl_spec_high'|rewrite N.shiftl_spec_low]; rewrite ?andb_false_r by done; try done.
  by rewrite andb_true_r, andb_comm.
Qed.

Lemma octet_bits x : (forall j, 8 <= j -> N.testbit x j = false) -> x <= U8_MAX.
Proof.
  intros Hx. assert (x = N.land x (N.ones 8)) as ->; [|rewrite N.land_ones; unfold U8_MAX; pose proof (N.mod_lt x (2 ^ 8)); lia].
  apply N.bits_inj. intros j. rewrite N.land_spec, BitVecFacts.testbit_ones.
  destruct (N.ltb_spec j 8); [by rewrite andb_true_r|]. by rewrite Hx by done.
Qed.

Lemma octet_shl8 x k : shl8 x k <= U8_MAX.
Proof. apply octet_bits. intros j Hj. rewrite testbit_shl8. by apply N.ltb_ge in Hj as ->. Qed.

Lemma octet_shiftr x k : x <= U8_MAX -> N.shiftr x k <= U8_MAX.
Proof. intros Hx. apply octet_bits. intros j Hj. rewrite N.shiftr_spec'. apply BitVecFacts.byte_high; [done|lia]. Qed.

Lemma octet_lor x y : x <= U8_MAX -> y <= U8_MAX -> N.lor x y <= U8_MAX.
Proof. intros Hx Hy. apply octet_bits. intros j Hj. by rewrite N.lor_spec, !BitVecFacts.byte_high. Qed.

Lemma octet_land x y : x <= U8_MAX -> N.land x y <= U8_MAX.
Proof. intros Hx. apply octet_bits. intros j Hj. by rewrite N.land_spec, BitVecFacts.byte_high. Qed.

#[export] Hint Resolve octet_shl8 octet_shiftr octet_lor octet_land : neutrino.

Lemma bytes_bound n m : m = bytes_for_bits n -> n <= 8 * m /\ 8 * m < n + 8.
Proof. unfold bytes_for_bits, div_ceil. intros ->. lia. Qed.

(** *** Masking *)

Lemma length_mask l n : length (mask_padding l n) = length l.
Proof. unfold mask_padding. destruct (_ =? 0); [done|apply length_alter]. Qed.

Lemma octets_mask l n : octets l -> octets (mask_padding l n).
Proof.
  intros Hl. unfold mask_padding. destruct (_ =? 0); [done|]. apply Forall_alter; [done|].
  intros x _ Hx. auto with neutrino.
Qed.

Lemma mask_bits t j : 0 < t < 8 -> N.testbit (shl8 U8_MAX (8 - t)) j = (j <? 8) && (8 - t <=? j).
Proof.
  intros Ht. rewrite testbit_shl8. change U8_MAX with (N.ones 8). rewrite BitVecFacts.testbit_ones.
  destruct (N.ltb_spec j 8), (N.leb_spec (8 - t) j); cbn; [apply N.ltb_lt; lia|done..].
Qed.

Lemma bit_at_mask l n i : len l = bytes_for_bits n -> bit_at (mask_padding l n) i = (i <? n) && bit_at l i.
Proof.
  intros Hlen. destruct (bytes_bound _ _ Hlen) as [Hlo Hhi]. unfold mask_padding.
  destruct (N.eqb_spec (n mod 8) 0) as [Ht|Ht].
  { destruct (N.ltb_spec i n); [done|]. apply bit_at_past. lia. }
  unfold bit_at at 1. destruct (decide (i / 8 = n / 8)) as [Heq|Hne].
  - assert (N.to_nat (i / 8) = pred (length l)) as Hlast by (unfold len in *; lia). rewrite Hlast, list_lookup_alter, decide_True by done.
    unfold bit_at. rewrite Hlast. destruct (l !! pred (length l)) as [x|]; cbn [fmap option_fmap option_map default id];
      [|by rewrite N.bits_0, andb_false_r].
    rewrite N.land_spec, mask_bits by lia. rewrite andb_comm. f_equal.
    destruct (N.ltb_spec (7 - i mod 8) 8), (N.leb_spec (8 - n mod 8) (7 - i mod 8)), (N.ltb_spec i n); done || lia.
  - rewrite list_lookup_alter_ne by (unfold len in *; lia). destruct (N.ltb_spec i n); [done|]. apply bit_at_past. lia.
Qed.

(** A masked byte string is a well-formed path. *)
Lemma masked_path n l (m : list bool) :
  n = len m -> n <= U32_MAX -> len l = bytes_for_bits n -> octets l ->
  (forall i b, m !! i = Some b -> bit_at l (N.of_nat i) = b) ->
  path_wf {| bp_len := n; bp_bytes := mask_padding l n |}
  /\ bits {| bp_len := n; bp_bytes := mask_padding l n |} = m.
Proof.
  intros Hn Hmax Hlen Hoct Hm. split.
  - constructor; cbn; [done|unfold len in *; by rewrite length_mask|by apply octets_mask|].
    intros i Hi. rewrite bit_at_mask by done. by apply N.ltb_ge in Hi as ->.
  - apply bits_of; [done|]. intros i b Hb. rewrite bit_at_mask by done.
    apply lookup_lt_Some in Hb as Hi. rewrite (Hm _ _ Hb).
    assert ((N.of_nat i <? n) = true) as -> by (apply N.ltb_lt; unfold len in *; lia). done.
Qed.

Lemma empty_path : path_wf BitPath_empty /\ bits BitPath_empty = [].
Proof. split; [|done]. constructor; cbn; [lia|done|constructor|]. intros i _. apply bit_at_past. apply N.le_0_l. Qed.

Lemma path_bytes_enough p n : path_wf p -> n <= bp_len p -> bytes_for_bits n <= len (bp_bytes p).
Proof.
  intros [_ Hb _ _] Hn. rewrite Hb. unfold bytes_for_bits, div_ceil. lia.
Qed.

Lemma octets_take k l : octets l -> octets (take k l).
Proof. apply Forall_take. Qed.

(** *** Prefixes and suffixes *)

Lemma prefix_spec p n : path_wf p -> n <= bp_len p ->
  exists q, BitPath_prefix p n = Some q /\ path_wf q /\ bits q = take (N.to_nat n) (bits p).
Proof.
  intros Hp Hn. unfold BitPath_prefix. rewrite option_guard_True by done.
  destruct (N.eqb_spec n 0) as [->|Hz]; [exists BitPath_empty; by destruct empty_path|].
  pose proof (path_bytes_enough p n Hp Hn) as Hb. rewrite option_guard_True by done. eexists. split; [done|].
  apply masked_path; [| |unfold len in *; rewrite length_take; lia|apply octets_take, Hp|].
  - unfold len. rewrite length_take, length_bits. lia.
  - pose proof (pw_len _ Hp). lia.
  - intros i b. destruct (bytes_bound n _ eq_refl). intros [Hi Hlt]%lookup_take_Some. rewrite bit_at_take.
    pose proof (lookup_lt_Some _ _ _ Hi) as Hl. rewrite length_bits in Hl.
    rewrite lookup_bits in Hi by done. injection Hi as <-.
    assert ((N.of_nat i <? 8 * bytes_for_bits n) = true) as -> by (apply N.ltb_lt; lia). done.
Qed.

Lemma window_spec l start shift index : octets l -> shift < 8 -> start + index < len l ->
  exists w, window l start shift index = Some w /\ w <= U8_MAX
    /\ forall r, r < 8 -> N.testbit w (7 - r) = bit_at l (8 * (start + index) + shift + r).
Proof.
  intros Hl Hs Hi. unfold window.
  destruct (l !! N.to_nat (start + index)) as [x|] eqn:Hx; [|apply lookup_ge_None in Hx; unfold len in *; lia].
  pose proof (Forall_lookup_1 _ _ _ _ Hl Hx) as Hx8. cbn [mbind option_bind].
  assert (forall r, r < 8 -> shift + r < 8 -> bit_at l (8 * (start + index) + shift + r) = N.testbit x (7 - r - shift)) as Hlow.
  { intros r Hr Hsr. replace (8 * (start + index) + shift + r) with (8 * (start + index) + (shift + r)) by lia.
    rewrite bit_at_byte, Hx by lia. cbn. f_equal. lia. }
  destruct (N.eqb_spec shift 0) as [->|Hs0].
  { eexists. split; [done|]. split; [auto with neutrino|]. intros r Hr. rewrite Hlow by lia. rewrite testbit_shl8, N.sub_0_r.
    destruct (N.ltb_spec (7 - r) 8), (N.leb_spec 0 (7 - r)); cbn; done || lia. }
  eexists. split; [done|]. set (y := l !! N.to_nat (start + index + 1)).
  assert (default 0 y <= U8_MAX) as Hy.
  { destruct y eqn:Hy; cbn; [|done]. by apply (Forall_lookup_1 _ _ _ _ Hl Hy). }
  assert (match y with Some byte => N.shiftr byte (8 - shift) | None => 0 end = N.shiftr (default 0 y) (8 - shift)) as ->
    by (destruct y; [done|by rewrite N.shiftr_0_l]).
  split; [auto with neutrino|]. intros r Hr. rewrite N.lor_spec, testbit_shl8, N.shiftr_spec'.
  destruct (decide (shift + r < 8)) as [Hsr|Hsr].
  - rewrite Hlow by done. rewrite (BitVecFacts.byte_high (default 0 y)) by (done || lia). rewrite orb_false_r.
    destruct (N.ltb_spec (7 - r) 8), (N.leb_spec shift (7 - r)); cbn; done || lia.
  - replace (8 * (start + index) + shift + r) with (8 * (start + index + 1) + (shift + r - 8)) by lia.
    rewrite bit_at_byte by lia. fold y. destruct (N.leb_spec shift (7 - r)); [lia|]. rewrite andb_false_r. cbn. f_equal. lia.
Qed.

Lemma mapM_total {A B} (f : A -> option B) l : (forall x, x ∈ l -> is_Some (f x)) -> exists k, mapM f l = Some k.
Proof. intros Hf. by apply mapM_is_Some, Forall_forall. Qed.

Lemma suffix_spec p n : path_wf p -> n <= bp_len p ->
  exists q, BitPath_suffix p n = Some q /\ path_wf q /\ bits q = drop (N.to_nat n) (bits p).
Proof.
  intros Hp Hn. unfold BitPath_suffix. rewrite option_guard_True by done.
  destruct (N.eqb_spec (bp_len p - n) 0) as [Hz|Hz].
  { exists BitPath_empty. rewrite drop_ge by (rewrite length_bits; lia). by destruct empty_path. }
  set (k := bytes_for_bits (bp_len p - n)). destruct (bytes_bound (bp_len p - n) k eq_refl) as [Hk1 Hk2].
  destruct (bytes_bound _ _ (pw_bytes _ Hp)) as [Hb1 Hb2].
  assert (forall j, j < k -> exists w, window (bp_bytes p) (n / 8) (n mod 8) j = Some w /\ w <= U8_MAX
    /\ forall r, r < 8 -> N.testbit w (7 - r) = bit_at (bp_bytes p) (n + (8 * j + r))) as Hw.
  { intros j Hj. destruct (window_spec (bp_bytes p) (n / 8) (n mod 8) j) as (w & Hw & Hw8 & Hwb); [apply Hp|lia..|].
    exists w. split_and!; [done..|]. intros r Hr. rewrite Hwb by done. f_equal. lia. }
  destruct (mapM_total (window (bp_bytes p) (n / 8) (n mod 8)) (range k)) as [l Hl].
  { intros j Hj%elem_of_range. destruct (Hw j Hj) as (w & -> & _). eauto. }
  fold k. rewrite Hl. eexists. split; [done|]. apply mapM_Some in Hl.
  assert (len l = k) as Hlen by (unfold len; rewrite <- (Forall2_length _ _ _ Hl), length_range; lia).
  apply masked_path; [| |done| |].
  - unfold len. rewrite length_drop, length_bits. lia.
  - pose proof (pw_len _ Hp). lia.
  - apply Forall_forall. intros x [i Hi]%list_elem_of_lookup_1. destruct (Forall2_lookup_r _ _ _ _ _ Hl Hi) as (j & Hj & Hjx).
    apply list_elem_of_lookup_2, elem_of_range, Hw in Hj as (w & Hw' & Hw8 & _). congruence.
  - intros i b Hi. rewrite lookup_drop in Hi. pose proof (lookup_lt_Some _ _ _ Hi) as Hlt. rewrite length_bits in Hlt.
    rewrite lookup_bits in Hi by done. injection Hi as <-.
    set (j := N.of_nat i / 8). assert (j < k) as Hj by (unfold j; lia).
    destruct (Hw j Hj) as (w & Hwj & _ & Hwb).
    destruct (Forall2_lookup_l _ _ _ _ _ Hl (lookup_range k (N.to_nat j) ltac:(lia))) as (w' & Hlj & Hw').
    rewrite N2Nat.id in Hw'. assert (w' = w) as -> by congruence.
    replace (N.of_nat i) with (8 * j + N.of_nat i mod 8) by (unfold j; lia).
    rewrite bit_at_byte by lia. rewrite Hlj. cbn. rewrite Hwb by lia. f_equal. unfold j. lia.
Qed.

(** *** Single bits *)

Lemma bit_spec p i : path_wf p -> i < bp_len p ->
  exists b, BitPath_bit p i = Some b /\ bits p !! N.to_nat i = Some b.
Proof.
  intros Hp Hi. unfold BitPath_bit. rewrite option_guard_True by done.
  destruct (bytes_bound _ _ (pw_bytes _ Hp)) as [Hb _].
  destruct (bp_bytes p !! N.to_nat (i / 8)) as [x|] eqn:Hx; [|apply lookup_ge_None in Hx; unfold len in *; lia].
  eexists. split; [done|]. rewrite lookup_bits, N2Nat.id by lia. f_equal.
  unfold bit_at. rewrite Hx. cbn [default id]. rewrite N.testbit_eqb. change 1 with (N.ones 1) at 2.
  by rewrite N.land_ones, N.shiftr_div_pow2.
Qed.

Lemma single_spec b : path_wf (BitPath_single b) /\ bits (BitPath_single b) = [b].
Proof.
  split; [|by destruct b].
  assert (octets (bp_bytes (BitPath_single b))) as Ho by (destruct b; repeat constructor; by vm_compute).
  constructor; cbn [bp_len BitPath_single]; [by vm_compute|by destruct b|done|].
  intros i Hi. destruct (N.le_gt_cases 8 i) as [H8|H8]; [by apply bit_at_past|].
  unfold bit_at. rewrite N.div_small, N.mod_small by done. change (N.testbit (shl8 (if b then 1 else 0) 7) (7 - i) = false).
  rewrite testbit_shl8. destruct (N.leb_spec 7 (7 - i)); [lia|]. by rewrite andb_false_r.
Qed.

(** *** Common prefixes *)

(** The length of the longest common prefix. *)
Fixpoint lcp (a b : list bool) : nat :=
  match a, b with
  | x :: a, y :: b => if Bool.eqb x y then S (lcp a b) else 0%nat
  | _, _ => 0%nat
  end.

Lemma lcp_unique a b n :
  (n <= length a)%nat -> (n <= length b)%nat -> (forall i, (i < n)%nat -> a !! i = b !! i) ->
  n = length a \/ n = length b \/ a !! n <> b !! n -> lcp a b = n.
Proof.
  revert b n. induction a as [|x a IH]; intros [|y b] [|n] Ha Hb Heq Hend; cbn in *; try lia.
  - destruct (Bool.eqb_spec x y) as [->|]; [|done]. destruct Hend as [?|[?|?]]; done.
  - pose proof (Heq 0%nat ltac:(lia)) as [= ->]. rewrite Bool.eqb_reflx. f_equal. apply IH; [lia..| |].
    + intros i Hi. by apply (Heq (S i)); lia.
    + destruct Hend as [?|[?|?]]; auto.
Qed.

Lemma leading_zeros_spec z : z <= U8_MAX ->
  leading_zeros8 z <= 8
  /\ (forall r, r < leading_zeros8 z -> N.testbit z (7 - r) = false)
  /\ (leading_zeros8 z < 8 <-> z <> 0)
  /\ (z <> 0 -> N.testbit z (7 - leading_zeros8 z) = true).
Proof.
  intros Hz. unfold leading_zeros8. destruct (decide (z = 0)) as [->|Hne].
  { cbn. split_and!; [lia|done|lia|done]. }
  assert (N.log2 z < 8) as Hlog by (apply N.log2_lt_pow2; unfold U8_MAX in Hz; lia).
  rewrite N.size_log2 by done. split_and!; [lia| |lia|].
  - intros r Hr. apply N.bits_above_log2. lia.
  - intros _. replace (7 - (8 - N.succ (N.log2 z))) with (N.log2 z) by lia. by apply N.bit_log2.
Qed.

Lemma lxor_bits x y r : N.testbit (N.lxor x y) r = false <-> N.testbit x r = N.testbit y r.
Proof. rewrite N.lxor_spec. by destruct (N.testbit x r), (N.testbit y r). Qed.

Lemma octet_lxor x y : x <= U8_MAX -> y <= U8_MAX -> N.lxor x y <= U8_MAX.
Proof. intros Hx Hy. apply octet_bits. intros j Hj. by rewrite N.lxor_spec, !BitVecFacts.byte_high. Qed.

Lemma bit_at_cons x l i : bit_at (x :: l) i = if i <? 8 then N.testbit x (7 - i) else bit_at l (i - 8).
Proof.
  change (x :: l) with ([x] ++ l). rewrite bit_at_app. change (8 * len [x]) with 8.
  destruct (N.ltb_spec i 8); [|done]. unfold bit_at. by rewrite N.div_small, N.mod_small.
Qed.

Lemma common_bytes_spec n i a b : octets a -> octets b -> (n <= length a)%nat -> (n <= length b)%nat ->
  exists r, common_bytes n i a b = Some r
    /\ match r with
       | None => forall j, j < 8 * N.of_nat n -> bit_at a j = bit_at b j
       | Some k => exists m, k = 8 * i + m /\ m < 8 * N.of_nat n /\ (forall j, j < m -> bit_at a j = bit_at b j)
                     /\ bit_at a m <> bit_at b m
       end.
Proof.
  revert i a b. induction n as [|n IH]; intros i a b Ha Hb Hla Hlb; cbn [common_bytes]; [exists None; split; [done|lia]|].
  destruct a as [|x a], b as [|y b]; cbn in Hla, Hlb; try lia.
  apply Forall_cons in Ha as [Hx Ha], Hb as [Hy Hb]. destruct (N.eqb_spec x y) as [->|Hne].
  - destruct (IH (i + 1) a b) as (r & -> & Hr); [done..|lia|lia|]. exists r. split; [done|]. destruct r as [k|].
    + destruct Hr as (m & -> & Hm & Heq & Hdiff). exists (m + 8). split_and!; [lia..| |].
      * intros j Hj. rewrite !bit_at_cons. destruct (N.ltb_spec j 8); [done|]. apply Heq. lia.
      * rewrite !bit_at_cons. destruct (N.ltb_spec (m + 8) 8); [lia|]. by replace (m + 8 - 8) with m by lia.
    + intros j Hj. rewrite !bit_at_cons. destruct (N.ltb_spec j 8); [done|]. apply Hr. lia.
  - eexists. split; [done|]. cbn beta iota.
    destruct (leading_zeros_spec (N.lxor x y) (octet_lxor _ _ Hx Hy)) as (_ & Hlow & Hlt & Hbit).
    assert (N.lxor x y <> 0) as Hnz by (by rewrite N.lxor_eq_0_iff). apply Hlt in Hnz as Hl8.
    exists (leading_zeros8 (N.lxor x y)). split_and!; [lia..| |].
    + intros j Hj. rewrite !bit_at_cons. destruct (N.ltb_spec j 8); [|lia]. by apply lxor_bits, Hlow.
    + rewrite !bit_at_cons. destruct (N.ltb_spec (leading_zeros8 (N.lxor x y)) 8); [|lia].
      rewrite <- lxor_bits. by rewrite Hbit.
Qed.

Lemma lcp_bits p q n :
  path_wf p -> path_wf q -> n <= bp_len p -> n <= bp_len q ->
  (forall i, i < n -> bit_at (bp_bytes p) i = bit_at (bp_bytes q) i) ->
  n = bp_len p \/ n = bp_len q \/ bit_at (bp_bytes p) n <> bit_at (bp_bytes q) n ->
  n = N.of_nat (lcp (bits p) (bits q)).
Proof.
  intros Hp Hq Hnp Hnq Heq Hend. rewrite (lcp_unique _ _ (N.to_nat n)); [lia|rewrite ?length_bits; lia..| |].
  - intros i Hi. rewrite !lookup_bits by lia. f_equal. apply Heq. lia.
  - rewrite !length_bits. destruct Hend as [->|[->|Hne]]; [by left|by right; left|].
    destruct (decide (n = bp_len p)); [left; lia|]. destruct (decide (n = bp_len q)); [right; left; lia|].
    right; right. rewrite !lookup_bits, N2Nat.id by lia. congruence.
Qed.

Lemma common_prefix_spec p q : path_wf p -> path_wf q ->
  BitPath_common_prefix_len p q = Some (N.of_nat (lcp (bits p) (bits q))).
Proof.
  intros Hp Hq. unfold BitPath_common_prefix_len. set (n := N.min (bp_len p) (bp_len q)).
  destruct (N.eqb_spec n 0) as [Hz|Hz]; [f_equal; apply lcp_bits; try done; lia|].
  destruct (bytes_bound _ _ (pw_bytes _ Hp)) as [Hp8 _], (bytes_bound _ _ (pw_bytes _ Hq)) as [Hq8 _].
  destruct (common_bytes_spec (N.to_nat (n / 8)) 0 (bp_bytes p) (bp_bytes q)) as (r & -> & Hr);
    [apply Hp|apply Hq|unfold len in *; lia..|].
  cbn [mbind option_bind]. destruct r as [k|].
  { destruct Hr as (m & -> & Hm & Heq & Hdiff). f_equal. rewrite N.add_0_l. apply lcp_bits; auto; lia. }
  destruct (N.eqb_spec (n mod 8) 0) as [Ht|Ht].
  { f_equal. apply lcp_bits; [done..|lia|lia| |lia]. intros i Hi. apply Hr. lia. }
  destruct (bp_bytes p !! N.to_nat (n / 8)) as [x|] eqn:Hx; [|apply lookup_ge_None in Hx; unfold len in *; lia].
  destruct (bp_bytes q !! N.to_nat (n / 8)) as [y|] eqn:Hy; [|apply lookup_ge_None in Hy; unfold len in *; lia].
  cbn [mbind option_bind]. f_equal.
  destruct (leading_zeros_spec (N.lxor x y)) as (Hl8 & Hlow & Hlt & Hbit).
  { apply octet_lxor; [apply (Forall_lookup_1 _ _ _ _ (pw_octets _ Hp) Hx)|apply (Forall_lookup_1 _ _ _ _ (pw_octets _ Hq) Hy)]. }
  set (lz := leading_zeros8 (N.lxor x y)) in *.
  assert (forall t, t < 8 -> bit_at (bp_bytes p) (n / 8 * 8 + t) = N.testbit x (7 - t)
    /\ bit_at (bp_bytes q) (n / 8 * 8 + t) = N.testbit y (7 - t)) as Hbyte.
  { intros t H8. by rewrite (N.mul_comm (n / 8)), !bit_at_byte, Hx, Hy. }
  apply lcp_bits; [done..|lia|lia| |].
  - intros i Hi. destruct (N.lt_ge_cases i (8 * (n / 8))) as [Hlt'|Hge]; [apply Hr; lia|].
    replace i with (n / 8 * 8 + i mod 8) by lia. destruct (Hbyte (i mod 8)) as [-> ->]; [lia|]. apply lxor_bits, Hlow. lia.
  - destruct (N.min_spec lz (n mod 8)) as [[Hm ->]|[Hm ->]]; [|lia].
    right; right. destruct (Hbyte lz) as [-> ->]; [lia|]. rewrite <- lxor_bits, Hbit; [done|]. apply Hlt. lia.
Qed.

(** *** Matching in place *)

Lemma any_bit_spec f l : (forall x, x ∈ l -> is_Some (f x)) ->
  exists r, any_bit f l = Some r /\ (r = false <-> forall x, x ∈ l -> f x = Some false).
Proof.
  induction l as [|x l IH]; intros Hf; cbn; [exists false; split; [done|set_solver]|].
  destruct (Hf x) as [b Hb]; [set_solver|]. rewrite Hb. cbn. destruct b.
  - exists true. split; [done|]. split; [done|]. intros Hall. specialize (Hall x). rewrite Hb in Hall.
    by assert (Some true = Some false) by (apply Hall; set_solver).
  - destruct IH as (r & -> & Hr); [set_solver|]. exists r. split; [done|]. rewrite Hr. split; [|set_solver].
    intros Hall y [->|Hy]%elem_of_cons; auto.
Qed.

Lemma octet_eq x y : x <= U8_MAX -> y <= U8_MAX ->
  x = y <-> forall r, r < 8 -> N.testbit x (7 - r) = N.testbit y (7 - r).
Proof.
  intros Hx Hy. split; [by intros ->|]. intros Heq. apply N.bits_inj. intros j.
  destruct (N.lt_ge_cases j 8) as [Hj|Hj]; [|by rewrite !BitVecFacts.byte_high].
  specialize (Heq (7 - j) ltac:(lia)). by replace (7 - (7 - j)) with j in Heq by lia.
Qed.

Lemma masked_eq x y t : x <= U8_MAX -> y <= U8_MAX -> 0 < t < 8 ->
  N.land x (shl8 U8_MAX (8 - t)) = N.land y (shl8 U8_MAX (8 - t))
  <-> forall r, r < t -> N.testbit x (7 - r) = N.testbit y (7 - r).
Proof.
  intros Hx Hy Ht. rewrite octet_eq by auto with neutrino.
  assert (forall z r, r < 8 -> N.testbit (N.land z (shl8 U8_MAX (8 - t))) (7 - r) = (r <? t) && N.testbit z (7 - r)) as Hz.
  { intros z r Hr. rewrite N.land_spec, mask_bits, andb_comm by lia. f_equal.
    destruct (N.ltb_spec (7 - r) 8), (N.leb_spec (8 - t) (7 - r)), (N.ltb_spec r t); done || lia. }
  split; intros Heq r Hr.
  - specialize (Heq r ltac:(lia)). rewrite !Hz in Heq by lia. by apply N.ltb_lt in Hr as Hr'; rewrite Hr' in Heq.
  - rewrite !Hz by done. destruct (N.ltb_spec r t); [|done]. by rewrite Heq.
Qed.

Lemma prefix_lookups {A} (a b : list A) :
  a `prefix_of` b <-> (length a <= length b)%nat /\ forall i, (i < length a)%nat -> a !! i = b !! i.
Proof.
  split; [intros Hab; split; [by apply prefix_length|intros i Hi; by apply prefix_lookup_lt]|].
  intros [Hlen Heq]. replace a with (take (length a) b); [apply prefix_take|].
  apply list_eq_same_length with (length a); [done|rewrite length_take; lia|].
  intros i x y Hi Hx Hy. rewrite lookup_take_lt, <- Heq in Hx by done. congruence.
Qed.

Lemma prefix_bits p q n : n <= bp_len p ->
  bits q `prefix_of` drop (N.to_nat n) (bits p)
  <-> n + bp_len q <= bp_len p /\ forall i, i < bp_len q -> bit_at (bp_bytes p) (n + i) = bit_at (bp_bytes q) i.
Proof.
  intros Hn. rewrite prefix_lookups, length_drop, !length_bits. split; intros [Hlen Heq].
  - split; [lia|]. intros i Hi. specialize (Heq (N.to_nat i) ltac:(lia)).
    rewrite lookup_drop, !lookup_bits in Heq by lia. injection Heq as Heq. rewrite N2Nat.id in Heq. rewrite Heq. f_equal. lia.
  - split; [lia|]. intros i Hi. rewrite lookup_drop, !lookup_bits by lia. f_equal. rewrite <- Heq by lia. f_equal. lia.
Qed.

(** Bytes of the path's window agree with bytes of the other path. *)
Lemma window_agrees p q n k t :
  path_wf p -> path_wf q -> n + bp_len q <= bp_len p -> 0 < t <= 8 -> 8 * k + t <= bp_len q ->
  exists w b, window (bp_bytes p) (n / 8) (n mod 8) k = Some w /\ bp_bytes q !! N.to_nat k = Some b
    /\ w <= U8_MAX /\ b <= U8_MAX
    /\ ((forall r, r < t -> N.testbit w (7 - r) = N.testbit b (7 - r))
        <-> forall r, r < t -> bit_at (bp_bytes p) (n + (8 * k + r)) = bit_at (bp_bytes q) (8 * k + r)).
Proof.
  intros Hp Hq Hlen Ht Hk.
  destruct (bytes_bound _ _ (pw_bytes _ Hp)) as [Hp8 _], (bytes_bound _ _ (pw_bytes _ Hq)) as [Hq8 _].
  destruct (window_spec (bp_bytes p) (n / 8) (n mod 8) k) as (w & Hw & Hw8 & Hbits); [apply Hp|lia..|].
  destruct (bp_bytes q !! N.to_nat k) as [b|] eqn:Hb; [|apply lookup_ge_None in Hb; unfold len in *; lia].
  exists w, b. split_and!; [done..|by apply (Forall_lookup_1 _ _ _ _ (pw_octets _ Hq) Hb)|].
  assert (forall r, r < t -> bit_at (bp_bytes p) (n + (8 * k + r)) = N.testbit w (7 - r)
    /\ bit_at (bp_bytes q) (8 * k + r) = N.testbit b (7 - r)) as Hr.
  { intros r Hr. rewrite Hbits, bit_at_byte, Hb by lia. split; [f_equal; lia|done]. }
  split; intros Heq r Hlt; destruct (Hr r Hlt) as [Hr1 Hr2]; [by rewrite Hr1, Hr2, Heq|by rewrite <- Hr1, <- Hr2, Heq].
Qed.

Lemma matches_at_spec p q n : path_wf p -> path_wf q -> n <= bp_len p ->
  BitPath_matches_at p n q = Some (bool_decide (bits q `prefix_of` drop (N.to_nat n) (bits p))).
Proof.
  intros Hp Hq Hn. unfold BitPath_matches_at. pose proof (pw_len _ Hp) as Hmax.
  destruct (checked_add U32_MAX n (bp_len q)) as [e|] eqn:He.
  2:{ apply checked_add_None in He. rewrite bool_decide_false; [done|]. rewrite prefix_bits by done. lia. }
  apply checked_add_Some in He as [-> _]. destruct (N.ltb_spec (bp_len p) (n + bp_len q)) as [Hlt|Hge].
  { rewrite bool_decide_false; [done|]. rewrite prefix_bits by done. lia. }
  set (f := fun index => _ ← window _ _ _ index; _). set (full := bp_len q / 8).
  assert (forall k, k < full -> exists d, f k = Some d
    /\ (d = false <-> forall r, r < 8 -> bit_at (bp_bytes p) (n + (8 * k + r)) = bit_at (bp_bytes q) (8 * k + r))) as Hf.
  { intros k Hk. destruct (window_agrees p q n k 8) as (w & b & Hw & Hb & Hw8 & Hb8 & Hiff); [done..|lia|unfold full in Hk; lia|].
    unfold f. rewrite Hw. cbn [mbind option_bind]. rewrite Hb. eexists. split; [done|].
    by rewrite negb_false_iff, N.eqb_eq, octet_eq. }
  destruct (any_bit_spec f (range full)) as (d & -> & Hd).
  { intros k Hk%elem_of_range. destruct (Hf k Hk) as (? & -> & _). eauto. }
  assert (d = false <-> forall i, i < 8 * full -> bit_at (bp_bytes p) (n + i) = bit_at (bp_bytes q) i) as Hd'.
  { rewrite Hd. split.
    - intros Hall i Hi. assert (i / 8 < full) as Hk by lia. destruct (Hf _ Hk) as (d' & Hd' & Hiff).
      rewrite (Hall (i / 8)) in Hd' by (by apply elem_of_range). injection Hd' as <-.
      replace i with (8 * (i / 8) + i mod 8) by lia. apply Hiff; [done|lia].
    - intros Hall k Hk%elem_of_range. destruct (Hf k Hk) as (d' & -> & Hiff). f_equal. apply Hiff. intros r Hr. apply Hall. lia. }
  cbn [mbind option_bind]. destruct d.
  { rewrite bool_decide_false; [done|]. rewrite prefix_bits by done. intros [_ Hall].
    destruct Hd' as [_ Hd']. discriminate Hd'. intros i Hi. apply Hall. unfold full in Hi. lia. }
  pose proof (proj1 Hd' eq_refl) as Hfull. destruct (N.eqb_spec (bp_len q mod 8) 0) as [Ht|Ht].
  { rewrite bool_decide_true; [done|]. rewrite prefix_bits by done. split; [done|]. intros i Hi. apply Hfull. unfold full. lia. }
  destruct (window_agrees p q n full (bp_len q mod 8)) as (w & b & -> & -> & Hw8 & Hb8 & Hiff); [done..|lia|unfold full; lia|].
  cbn [mbind option_bind]. f_equal. apply eq_bool_prop_intro.
  rewrite bool_decide_spec, Is_true_true, N.eqb_eq, masked_eq, Hiff, prefix_bits by (done || lia). split.
  - intros Htail. split; [done|]. intros i Hi. destruct (N.lt_ge_cases i (8 * full)) as [Hlt|Hle]; [by apply Hfull|].
    replace i with (8 * full + (i - 8 * full)) by lia. apply Htail. unfold full in *. lia.
  - intros [_ Hall] r Hr. apply Hall. unfold full. lia.
Qed.

(** *** Concatenation *)

Lemma last_split {A} (l : list A) : l <> [] -> exists k x, l = k ++ [x] /\ last l = Some x /\ removelast l = k.
Proof. induction l as [|x k _] using rev_ind; [done|]. intros _. exists k, x. by rewrite last_snoc, removelast_last. Qed.

(** One byte shifted in below the last one. *)
Lemma shift_in k z byte shift i :
  z <= U8_MAX -> byte <= U8_MAX -> 0 < shift < 8 ->
  (forall r, shift <= r < 8 -> N.testbit z (7 - r) = false) ->
  let l' := k ++ [N.lor z (N.shiftr byte shift); shl8 byte (8 - shift)] in
  let n := 8 * len k + shift in
  bit_at l' i = if i <? n then bit_at (k ++ [z]) i else (i - n <? 8) && N.testbit byte (7 - (i - n)).
Proof.
  intros Hz Hbyte Hs Hlow. cbv zeta. rewrite !bit_at_app, !bit_at_cons. set (m := 8 * len k).
  assert (forall j, bit_at [] j = false) as Hnil by (intros j; apply bit_at_past; apply N.le_0_l). rewrite !Hnil.
  destruct (N.ltb_spec i m) as [Hm|Hm].
  { by assert ((i <? m + shift) = true) as -> by (apply N.ltb_lt; lia). }
  destruct (N.ltb_spec (i - m) 8) as [H8|H8].
  - rewrite N.lor_spec, N.shiftr_spec'. destruct (N.ltb_spec i (m + shift)) as [Hi|Hi].
    + rewrite (BitVecFacts.byte_high byte) by (done || lia). by rewrite orb_false_r.
    + rewrite Hlow by lia. assert ((i - (m + shift) <? 8) = true) as -> by (apply N.ltb_lt; lia).
      cbn [orb andb]. f_equal. lia.
  - destruct (N.ltb_spec i (m + shift)); [lia|]. destruct (N.ltb_spec (i - m - 8) 8) as [H16|H16].
    + rewrite testbit_shl8. destruct (N.ltb_spec (7 - (i - m - 8)) 8); [|lia].
      destruct (N.leb_spec (8 - shift) (7 - (i - m - 8))), (N.ltb_spec (i - (m + shift)) 8); try lia; cbn [andb]; done || (f_equal; lia).
    + by assert ((i - (m + shift) <? 8) = false) as -> by (apply N.ltb_ge; lia).
Qed.

Lemma concat_loop_spec shift l tail :
  octets l -> octets tail -> 0 < shift < 8 -> l <> [] ->
  (forall i, 8 * (len l - 1) + shift <= i -> bit_at l i = false) ->
  exists r, concat_loop shift l tail = Some r /\ len r = len l + len tail /\ octets r
    /\ forall i, let n := 8 * (len l - 1) + shift in
         bit_at r i = if i <? n then bit_at l i else bit_at tail (i - n).
Proof.
  revert l. induction tail as [|byte tail IH]; intros l Hl Ht Hs Hne Hlow; cbn [concat_loop].
  { exists l. split_and!; [done|unfold len; cbn; lia|done|]. cbv zeta. intros i. destruct (N.ltb_spec i (8 * (len l - 1) + shift)); [done|].
    rewrite Hlow by done. symmetry. apply bit_at_past, N.le_0_l. }
  apply Forall_cons in Ht as [Hbyte Ht]. destruct (last_split l Hne) as (k & z & -> & -> & ->).
  apply Forall_app in Hl as [Hk Hz]. apply Forall_cons in Hz as [Hz _]. cbn [mbind option_bind].
  assert (len (k ++ [z]) - 1 = len k) as Hlen by (rewrite len_app; unfold len; cbn; lia). rewrite Hlen in *.
  assert (forall r, shift <= r < 8 -> N.testbit z (7 - r) = false) as Hz0.
  { intros r Hr. specialize (Hlow (8 * len k + r) ltac:(lia)). rewrite bit_at_app, bit_at_cons in Hlow.
    destruct (N.ltb_spec (8 * len k + r) (8 * len k)); [lia|]. replace (8 * len k + r - 8 * len k) with r in Hlow by lia.
    by destruct (N.ltb_spec r 8); [|lia]. }
  set (l' := k ++ [N.lor z (N.shiftr byte shift); shl8 byte (8 - shift)]).
  assert (len l' = len k + 2) as Hl' by (unfold l'; rewrite len_app; unfold len; cbn; lia).
  pose proof (fun i => shift_in k z byte shift i Hz Hbyte Hs Hz0) as Hin. cbv zeta in Hin. fold l' in Hin.
  destruct (IH l') as (r & -> & Hr & Hoct & Hbits); [|done|done|unfold l'; by destruct k| |].
  { apply Forall_app. split; [done|]. repeat constructor; auto with neutrino. }
  { intros i Hi. rewrite Hl' in Hi. rewrite Hin. destruct (N.ltb_spec i (8 * len k + shift)); [lia|].
    destruct (N.ltb_spec (i - (8 * len k + shift)) 8); [lia|done]. }
  exists r. split_and!; [done|rewrite Hr, Hl', len_app, len_cons; unfold len; cbn; lia|done|]. cbv zeta. intros i.
  rewrite Hbits, Hl', Hin. clear Hin Hbits Hlow. rewrite (bit_at_cons byte).
  destruct (N.ltb_spec i (8 * (len k + 2 - 1) + shift)), (N.ltb_spec i (8 * len k + shift)),
    (N.ltb_spec (i - (8 * len k + shift)) 8); try lia; try done. f_equal. lia.
Qed.

Lemma lookup_bits_Some p i b : bits p !! i = Some b -> bit_at (bp_bytes p) (N.of_nat i) = b /\ N.of_nat i < bp_len p.
Proof.
  intros Hi. pose proof (lookup_lt_Some _ _ _ Hi) as Hlt. rewrite length_bits in Hlt.
  rewrite lookup_bits in Hi by done. injection Hi as <-. split; [done|lia].
Qed.

Lemma joined_bytes p q : path_wf p -> path_wf q -> bp_len p <> 0 -> 
  exists l, (if bp_len p mod 8 =? 0 then Some (bp_bytes p ++ bp_bytes q)
             else concat_loop (bp_len p mod 8) (bp_bytes p) (bp_bytes q)) = Some l
    /\ len l = len (bp_bytes p) + len (bp_bytes q) /\ octets l
    /\ forall i, bit_at l i = if i <? bp_len p then bit_at (bp_bytes p) i else bit_at (bp_bytes q) (i - bp_len p).
Proof.
  intros Hp Hq Hz. destruct (bytes_bound _ _ (pw_bytes _ Hp)) as [Hp1 Hp2].
  destruct (N.eqb_spec (bp_len p mod 8) 0) as [Hs|Hs].
  - eexists. split; [done|]. rewrite len_app. split_and!; [done|apply Forall_app; split; [apply Hp|apply Hq]|].
    intros i. rewrite bit_at_app. by replace (8 * len (bp_bytes p)) with (bp_len p) by lia.
  - assert (8 * (len (bp_bytes p) - 1) + bp_len p mod 8 = bp_len p) as Hn by lia.
    destruct (concat_loop_spec (bp_len p mod 8) (bp_bytes p) (bp_bytes q)) as (l & Hl & Hlen & Hoct & Hbits);
      [apply Hp|apply Hq|lia|intros Hnil; rewrite Hnil in *; unfold len in *; cbn in *; lia| |].
    { rewrite Hn. apply Hp. }
    exists l. split_and!; [done..|]. cbv zeta in Hbits. by rewrite Hn in Hbits.
Qed.

Lemma masked_self p : path_wf p -> mask_padding (take (N.to_nat (bytes_for_bits (bp_len p))) (bp_bytes p)) (bp_len p) = bp_bytes p.
Proof.
  intros Hp. rewrite <- (pw_bytes _ Hp). rewrite take_ge by (unfold len; lia).
  apply bit_at_ext; [apply octets_mask, Hp|apply Hp|unfold len; by rewrite length_mask|].
  intros i. rewrite bit_at_mask by apply Hp. destruct (N.ltb_spec i (bp_len p)); [done|]. by rewrite (pw_padding _ Hp).
Qed.

Lemma concat_spec p q : path_wf p -> path_wf q -> bp_len p + bp_len q <= U32_MAX ->
  exists r, BitPath_concat p q = Some r /\ path_wf r /\ bits r = bits p ++ bits q.
Proof.
  intros Hp Hq Hmax. unfold BitPath_concat, BitPath_is_empty.
  destruct (N.eqb_spec (bp_len p) 0) as [Hp0|Hp0].
  { exists q. split_and!; [done..|]. unfold bits at 2. by rewrite Hp0. }
  destruct (N.eqb_spec (bp_len q) 0) as [Hq0|Hq0].
  { exists p. split_and!; [done..|]. unfold bits at 3. rewrite Hq0. by rewrite app_nil_r. }
  assert (checked_add U32_MAX (bp_len p) (bp_len q) = Some (bp_len p + bp_len q)) as -> by (by apply checked_add_Some).
  cbn [mbind option_bind]. rewrite !option_guard_True by (rewrite (pw_bytes _ Hp) || rewrite (pw_bytes _ Hq); done).
  rewrite masked_self by done.
  replace (take (N.to_nat (bytes_for_bits (bp_len q))) (bp_bytes q)) with (bp_bytes q)
    by (rewrite <- (pw_bytes _ Hq), take_ge by (unfold len; lia); done).
  destruct (joined_bytes p q Hp Hq Hp0) as (l & -> & Hlen & Hoct & Hbits). cbn [mbind option_bind].
  eexists. split; [done|].
  set (n := bp_len p + bp_len q). destruct (bytes_bound n _ eq_refl) as [Hn1 Hn2].
  destruct (bytes_bound _ _ (pw_bytes _ Hp)) as [Hp1 Hp2], (bytes_bound _ _ (pw_bytes _ Hq)) as [Hq1 Hq2].
  apply masked_path; [unfold len; rewrite length_app, !length_bits; lia|done|
    unfold len in *; rewrite length_take; lia|by apply octets_take|].
  intros i b Hi. rewrite bit_at_take, Hbits. pose proof (lookup_lt_Some _ _ _ Hi) as Hlt.
  rewrite length_app, !length_bits in Hlt. assert ((N.of_nat i <? 8 * bytes_for_bits n) = true) as -> by (apply N.ltb_lt; lia).
  cbn [andb]. apply lookup_app_Some in Hi as [Hi|[Hge Hi]]; apply lookup_bits_Some in Hi as [Hi Hb].
  - by assert ((N.of_nat i <? bp_len p) = true) as -> by (by apply N.ltb_lt).
  - rewrite length_bits in *. assert ((N.of_nat i <? bp_len p) = false) as -> by (apply N.ltb_ge; lia).
    rewrite <- Hi. f_equal. lia.
Qed.

(** *** Packing a list of bits *)

Definition byte_of (f : N -> bool) : N :=
  foldr (fun r acc => N.lor (if f r then N.shiftl 1 (7 - r) else 0) acc) 0 (range 8).

Definition pack (m : list bool) : BitPath :=
  {| bp_len := len m;
     bp_bytes := map (fun j => byte_of (fun r => default false (m !! N.to_nat (8 * j + r))))
                   (range (bytes_for_bits (len m))) |}.

Lemma testbit_flag b k j : N.testbit (if b : bool then N.shiftl 1 k else 0) j = b && (k =? j).
Proof.
  destruct b; [|by rewrite N.bits_0]. cbn. rewrite N.shiftl_1_l. apply N.pow2_bits_eqb.
Qed.

Lemma testbit_byte_of f j : N.testbit (byte_of f) j = (j <? 8) && f (7 - j).
Proof.
  unfold byte_of. change (range 8) with [0; 1; 2; 3; 4; 5; 6; 7]. cbn [foldr].
  rewrite !N.lor_spec, !testbit_flag, N.bits_0. destruct (N.ltb_spec j 8) as [Hj|Hj].
  - assert (j = 0 \/ j = 1 \/ j = 2 \/ j = 3 \/ j = 4 \/ j = 5 \/ j = 6 \/ j = 7) as Hcases by lia.
    destruct Hcases as [->|[->|[->|[->|[->|[->|[->| ->]]]]]]]; cbn; rewrite ?andb_false_r, ?andb_true_r, ?orb_false_r; done.
  - assert (forall k, k < 8 -> (k =? j) = false) as Hk by (intros k Hk; apply N.eqb_neq; lia).
    rewrite !Hk by (cbn; lia). by rewrite !andb_false_r.
Qed.

Lemma pack_spec m : len m <= U32_MAX -> path_wf (pack m) /\ bits (pack m) = m.
Proof.
  intros Hm. destruct (bytes_bound (len m) _ eq_refl) as [H1 H2].
  assert (forall i, bit_at (bp_bytes (pack m)) i = default false (m !! N.to_nat i)) as Hbits.
  { intros i. unfold bit_at, pack. cbn [bp_bytes]. rewrite list_lookup_fmap.
    destruct (N.lt_ge_cases (i / 8) (bytes_for_bits (len m))) as [Hi|Hi].
    - rewrite lookup_range by lia. cbn [fmap option_fmap option_map default id]. rewrite testbit_byte_of, N2Nat.id.
      destruct (N.ltb_spec (7 - i mod 8) 8); [|lia]. cbn. do 2 f_equal. lia.
    - rewrite lookup_ge_None_2 by (rewrite length_range; lia). cbn.
      by rewrite lookup_ge_None_2 by (unfold len in *; lia). }
  split.
  - constructor; cbn; [done|unfold len; rewrite length_map, length_range; lia| |].
    + apply Forall_forall. intros x (j & -> & _)%list_elem_of_fmap. apply octet_bits. intros j' Hj'.
      rewrite testbit_byte_of. by apply N.ltb_ge in Hj' as ->.
    + intros i Hi. change (bit_at (bp_bytes (pack m)) i = false). rewrite Hbits.
      by rewrite lookup_ge_None_2 by (unfold len in *; lia).
  - apply bits_of; [done|]. intros i b Hi. change (bit_at (bp_bytes (pack m)) (N.of_nat i) = b).
    by rewrite Hbits, Nat2N.id, Hi.
Qed.

Lemma len_bits p : len (bits p) = bp_len p.
Proof. unfold len. rewrite length_bits. lia. Qed.

Lemma pack_bits p : path_wf p -> pack (bits p) = p.
Proof.
  intros Hp. destruct (pack_spec (bits p)) as [Hw Hb]; [rewrite len_bits; apply Hp|]. by apply bits_inj.
Qed.

(** *** Keys *)

Definition key_path (key : bytes) : BitPath :=
  {| bp_len := 8 * (4 + len key); bp_bytes := to_le_bytes 4 (len key) ++ key |}.

Definition key_bits (key : bytes) : list bool := bits (key_path key).

(** Keys the trie accepts: bytes, short enough for a 32-bit bit length. *)
Definition key_ok (key : bytes) : Prop := octets key /\ 8 * (4 + len key) <= U32_MAX.

#[export] Instance key_ok_dec key : Decision (key_ok key).
Proof. unfold key_ok, octets. apply _. Defined.

Lemma some_bind {A B} (x : A) (f : A -> option B) : (Some x ≫= f) = f x.
Proof. done. Qed.

Lemma len_to_le n x : len (to_le_bytes n x) = N.of_nat n.
Proof. unfold len. by rewrite length_to_le_bytes. Qed.

Lemma key_path_wf key : key_ok key -> path_wf (key_path key).
Proof.
  intros [Hkey Hmax]. assert (len (bp_bytes (key_path key)) = 4 + len key) as Hlen.
  { cbn [key_path bp_bytes]. by rewrite len_app, len_to_le. }
  constructor; [done| | |].
  - rewrite Hlen. unfold bytes_for_bits, div_ceil, key_path. cbn [bp_len]. lia.
  - apply Forall_app. split; [apply to_le_bytes_bound|done].
  - intros i Hi. apply bit_at_past. rewrite Hlen. cbn [key_path bp_len] in Hi. lia.
Qed.

Lemma for_key_spec key : key_ok key -> BitPath_for_key key = Some (key_path key).
Proof.
  intros [_ Hmax]. unfold BitPath_for_key, BitPath_from_owned_key.
  assert (8 * (4 + len key) <= BitVec.USIZE_MAX) as Hmax' by (unfold BitVec.USIZE_MAX, U64_MAX, U32_MAX in *; lia).
  rewrite (proj2 (try_from_Some U32_MAX (len key) _)) by (split; [done|lia]). rewrite some_bind.
  assert (len (to_le_bytes 4 (len key) ++ key) = 4 + len key) as -> by (rewrite len_app, len_to_le; lia).
  rewrite checked_mul_Some by (by rewrite N.mul_comm). rewrite some_bind.
  by rewrite (N.mul_comm (4 + len key) 8), (proj2 (try_from_Some U32_MAX _ _)), some_bind by done.
Qed.

(** The length prefix makes the key paths prefix free. *)
Lemma key_bits_prefix_free k1 k2 : key_ok k1 -> key_ok k2 -> key_bits k1 `prefix_of` key_bits k2 -> k1 = k2.
Proof.
  intros [Ho1 Hm1] [Ho2 Hm2]. unfold key_bits. rewrite <- (drop_0 (bits (key_path k2))).
  rewrite (prefix_bits (key_path k2) (key_path k1) 0) by apply N.le_0_l. intros [Hlen Hbits]. cbn [key_path bp_len bp_bytes] in *.
  assert (to_le_bytes 4 (len k1) = to_le_bytes 4 (len k2)) as Hle.
  { apply bit_at_ext; [apply to_le_bytes_bound..|done|]. intros i.
    destruct (N.lt_ge_cases i 32) as [Hi|Hi]; [|by rewrite !bit_at_past by (rewrite len_to_le; lia)].
    specialize (Hbits i ltac:(lia)). rewrite N.add_0_l, !bit_at_app, !len_to_le in Hbits. change (8 * N.of_nat 4) with 32 in Hbits.
    by apply N.ltb_lt in Hi as Hi'; rewrite Hi' in Hbits. }
  apply to_le_bytes_inj in Hle as Hlens; [|unfold U32_MAX in *; lia..].
  apply (app_inv_head (to_le_bytes 4 (len k1))). rewrite Hle at 2.
  apply bit_at_ext; [by apply Forall_app; split; [apply to_le_bytes_bound|]..|by rewrite !len_app, Hlens|].
  intros i. destruct (N.lt_ge_cases i (8 * (4 + len k1))) as [Hi|Hi]; [symmetry; by apply Hbits|].
  rewrite !bit_at_past; [done|rewrite len_app, len_to_le; lia..].
Qed.

(** *** The wire encoding *)

Lemma nonzero_padding_spec n l : octets l -> len l = bytes_for_bits n ->
  has_nonzero_padding n l = false <-> forall i, n <= i -> bit_at l i = false.
Proof.
  intros Hl Hlen. destruct (bytes_bound _ _ Hlen) as [H1 H2]. unfold has_nonzero_padding.
  destruct (N.eqb_spec (n mod 8) 0) as [Ht|Ht].
  { split; [|done]. intros _ i Hi. apply bit_at_past. lia. }
  assert (l <> []) as Hne by (intros ->; cbn in *; lia). destruct (last_split l Hne) as (k & x & -> & -> & _).
  apply Forall_app in Hl as [_ Hx]. apply Forall_cons in Hx as [Hx _].
  assert (8 * len k = 8 * (n / 8)) as Hk by (rewrite len_app in *; change (len [x]) with 1 in *; lia).
  rewrite negb_false_iff, N.eqb_eq. split.
  - intros Hz i Hi. rewrite bit_at_app, bit_at_cons. destruct (N.ltb_spec i (8 * len k)); [lia|].
    destruct (N.ltb_spec (i - 8 * len k) 8); [|apply bit_at_past, N.le_0_l].
    apply (f_equal (fun z => N.testbit z (7 - (i - 8 * len k)))) in Hz.
    rewrite N.land_spec, N.shiftr_spec', N.bits_0 in Hz. change U8_MAX with (N.ones 8) in Hz.
    rewrite BitVecFacts.testbit_ones in Hz. by assert ((7 - (i - 8 * len k) + n mod 8 <? 8) = true) as Hlt by (apply N.ltb_lt; lia);
      rewrite Hlt, andb_true_r in Hz.
  - intros Hbits. apply N.bits_inj. intros j. rewrite N.land_spec, N.shiftr_spec', N.bits_0. change U8_MAX with (N.ones 8).
    rewrite BitVecFacts.testbit_ones. destruct (N.ltb_spec (j + n mod 8) 8) as [Hj|]; [|by rewrite andb_false_r].
    specialize (Hbits (8 * len k + (7 - j)) ltac:(lia)). rewrite bit_at_app, bit_at_cons in Hbits.
    destruct (N.ltb_spec (8 * len k + (7 - j)) (8 * len k)); [lia|].
    replace (8 * len k + (7 - j) - 8 * len k) with (7 - j) in Hbits by lia.
    destruct (N.ltb_spec (7 - j) 8); [|lia]. replace (7 - (7 - j)) with j in Hbits by lia. by rewrite Hbits.
Qed.

Lemma to_from_le_bytes l : octets l -> to_le_bytes (length l) (from_le_bytes l) = l.
Proof.
  induction 1 as [|x l Hx _ IH]; cbn [length to_le_bytes from_le_bytes]; [done|]. unfold U8_MAX in Hx.
  f_equal; [lia|]. replace ((x + 256 * from_le_bytes l) / 256) with (from_le_bytes l) by lia. done.
Qed.

Lemma from_le_bytes_bound l : octets l -> from_le_bytes l < 256 ^ len l.
Proof.
  induction 1 as [|x l Hx _ IH]; [by vm_compute|]. cbn [from_le_bytes]. unfold U8_MAX in Hx.
  rewrite len_cons, N.pow_add_r. change (256 ^ 1) with 256. lia.
Qed.

Lemma take_len_app {A} (l k : list A) n : n = len l -> take (N.to_nat n) (l ++ k) = l.
Proof. intros ->. unfold len. rewrite Nat2N.id. apply take_app_length. Qed.

Lemma decode_encode p rest : path_wf p ->
  BitPath_decode (BitPath_encode p ++ rest) = Ok (p, 4 + len (bp_bytes p)).
Proof.
  intros Hp. pose proof (pw_len _ Hp) as Hmax. unfold BitPath_decode, BitPath_encode. rewrite <- app_assoc.
  rewrite len_app, len_to_le. change (N.of_nat 4) with 4.
  destruct (N.ltb_spec (4 + len (bp_bytes p ++ rest)) 4); [lia|].
  assert (take 4 (to_le_bytes 4 (bp_len p) ++ bp_bytes p ++ rest) = to_le_bytes 4 (bp_len p)) as -> by done. cbv zeta.
  assert (drop 4 (to_le_bytes 4 (bp_len p) ++ bp_bytes p ++ rest) = bp_bytes p ++ rest) as -> by done.
  rewrite from_to_le_bytes by (unfold U32_MAX in *; cbn; lia). rewrite <- (pw_bytes _ Hp).
  rewrite (proj2 (checked_add_Some BitVec.USIZE_MAX 4 (len (bp_bytes p)) (4 + len (bp_bytes p)))).
  2:{ split; [done|]. rewrite (pw_bytes _ Hp). unfold bytes_for_bits, div_ceil, BitVec.USIZE_MAX, U64_MAX, U32_MAX in *. lia. }
  cbn [ok_or mbind result_bind]. rewrite len_app. destruct (N.ltb_spec (4 + (len (bp_bytes p) + len rest)) (4 + len (bp_bytes p))); [lia|].
  rewrite take_len_app by done.
  destruct (has_nonzero_padding (bp_len p) (bp_bytes p)) eqn:Hpad; [|by destruct p].
  assert (has_nonzero_padding (bp_len p) (bp_bytes p) = false) as Hno by (apply nonzero_padding_spec; apply Hp).
  congruence.
Qed.

Lemma decode_wf l p n : octets l -> BitPath_decode l = Ok (p, n) ->
  path_wf p /\ n = 4 + len (bp_bytes p) /\ l = BitPath_encode p ++ drop (N.to_nat n) l.
Proof.
  intros Hl. unfold BitPath_decode. destruct (N.ltb_spec (len l) 4) as [|H4]; [done|]. cbv zeta.
  set (m := from_le_bytes (take 4 l)). intros H. results. apply checked_add_Some in Hsome as [-> _].
  destruct (N.ltb_spec (len l) (4 + bytes_for_bits m)); [done|].
  destruct (has_nonzero_padding m _) eqn:Hpad; [done|]. injection H as <- <-. cbn [bp_bytes].
  assert (length (take 4 l) = 4%nat) as Hlen4 by (rewrite length_take; unfold len in *; lia).
  assert (octets (take 4 l)) as Ho4 by (by apply octets_take).
  assert (octets (take (N.to_nat (bytes_for_bits m)) (drop 4 l))) as Ho by (by apply octets_take, Forall_drop).
  assert (len (take (N.to_nat (bytes_for_bits m)) (drop 4 l)) = bytes_for_bits m) as Hlen
    by (unfold len in *; rewrite length_take, length_drop; lia).
  split_and!; [|by rewrite Hlen|].
  - constructor; [|done|done|by apply nonzero_padding_spec]. cbn. unfold m. pose proof (from_le_bytes_bound _ Ho4) as Hb.
    unfold len in Hb. rewrite Hlen4 in Hb. cbn in Hb. unfold U32_MAX. lia.
  - unfold BitPath_encode. cbn [bp_len bp_bytes]. unfold m at 1. rewrite <- Hlen4 at 1. rewrite to_from_le_bytes by done.
    rewrite <- app_assoc. replace (N.to_nat (4 + bytes_for_bits m)) with (4 + N.to_nat (bytes_for_bits m))%nat by lia.
    by rewrite <- drop_drop, take_drop, take_drop.
Qed.

(** Distinct paths have distinct encodings, also with more bytes behind them. *)
Lemma encode_app_inj p q a b : bp_len p <= U32_MAX -> bp_len q <= U32_MAX -> length a = length b ->
  BitPath_encode p ++ a = BitPath_encode q ++ b -> p = q /\ a = b.
Proof.
  intros Hp Hq Hab. unfold BitPath_encode. rewrite <- !app_assoc. intros [Hlen Hrest]%app_inj_1;
    [|by rewrite !length_to_le_bytes].
  apply to_le_bytes_inj in Hlen; [|unfold U32_MAX in *; cbn; lia..].
  apply app_inj_2 in Hrest as [Hbytes ->]; [|done]. split; [|done]. destruct p, q; cbn in *; congruence.
Qed.
