(* ===== verification/TrieNode.v ===== *)
(** * Nodes of the state trie and their hashes

    crates/trie/src/node.rs, hasher.rs and poseidon2.rs: the node encoding, and the
    hash plug-ins.  The permutation of the Poseidon2 sponge is a library outside
    the repository and a parameter here. *)

From S2P Require Import Prelude External Primitives Bits.

(** ** Nodes *)

Definition NODE_TAG_LEAF : N := 0.
Definition NODE_TAG_BRANCH : N := 1.
Definition NODE_TAG_EXTENSION : N := 2.

Inductive Node :=
| NodeLeaf (key_suffix : BitPath) (value_hash : Hash)
| NodeBranch (left right : Hash)
| NodeExtension (prefix : BitPath) (child : Hash).

#[export] Instance Node_eq_dec : EqDecision Node.
Proof. solve_decision. Defined.

Definition Node_encode (n : Node) : bytes :=
  match n with
  | NodeLeaf key_suffix value_hash => [NODE_TAG_LEAF] ++ BitPath_encode key_suffix ++ value_hash
  | NodeBranch l r => [NODE_TAG_BRANCH] ++ l ++ r
  | NodeExtension prefix child => [NODE_TAG_EXTENSION] ++ BitPath_encode prefix ++ child
  end.

Definition decode_hash_tail (tail : bytes) : result TrieError Hash :=
  if len tail <? 32 then Err TruncatedNode
  else if 32 <? len tail then Err TrailingNodeBytes
  else Ok tail.

Definition Node_decode (l : bytes) : result TrieError Node :=
  match l with
  | [] => Err TruncatedNode
  | tag :: body =>
      if tag =? NODE_TAG_LEAF then
        '(key_suffix, consumed) ← BitPath_decode body;
        value_hash ← decode_hash_tail (drop (N.to_nat consumed) body);
        Ok (NodeLeaf key_suffix value_hash)
      else if tag =? NODE_TAG_BRANCH then
        if len body <? 64 then Err TruncatedNode
        else if 64 <? len body then Err TrailingNodeBytes
        else Ok (NodeBranch (take 32 body) (take 32 (drop 32 body)))
      else if tag =? NODE_TAG_EXTENSION then
        '(prefix, consumed) ← BitPath_decode body;
        child ← decode_hash_tail (drop (N.to_nat consumed) body);
        Ok (NodeExtension prefix child)
      else Err (InvalidNodeTag tag)
  end.

(** ** Hashers *)

Class Hasher := {
  hash_node : bytes -> Hash;
  hash_value : bytes -> Hash;
}.

(** Digests are [[u8; 32]]. *)
Class HasherLaws `{Hasher} : Prop := {
  hash_node_length : forall x, length (hash_node x) = 32%nat;
  hash_value_length : forall x, length (hash_value x) = 32%nat;
}.

(** "NEUTRINO_TR_NODE" *)
Definition TRIE_NODE_DOMAIN : bytes :=
  [78; 69; 85; 84; 82; 73; 78; 79; 95; 84; 82; 95; 78; 79; 68; 69].

Definition Blake3Hasher `{Blake3} : Hasher := {|
  hash_node encoded_node := blake3_256 (TRIE_NODE_DOMAIN ++ encoded_node);
  hash_value value := blake3_256 value;
|}.

(** "NTRO_TR_NODE_P2_" *)
Definition TRIE_NODE_DOMAIN_POSEIDON2 : bytes :=
  [78; 84; 82; 79; 95; 84; 82; 95; 78; 79; 68; 69; 95; 80; 50; 95].

Definition RATE : nat := 8.
Definition WIDTH : nat := 16.
Definition BYTE_BLOCK_SIZE : nat := RATE * 3.

(** [permute_mut] of [slop_koala_bear::my_kb_16_perm] on canonical [u32] values. *)
Class KoalaPerm := permute : list N -> list N.

(** It permutes arrays of [WIDTH] elements. *)
Class KoalaPermLaws `{KoalaPerm} : Prop :=
  permute_length : forall l, length l = WIDTH -> length (permute l) = WIDTH.

Section Poseidon2.
Context `{KoalaPerm}.

(** The [i]th element of a block: three bytes, little endian. *)
Definition block_element (block : bytes) (i : nat) : N :=
  from_le_bytes (take 3 (drop (3 * i) block)).

Definition absorb_byte_block (state : list N) (block : bytes) : list N :=
  permute (map (block_element block) (seq 0 RATE) ++ drop RATE state).

(** [as_chunks::<BYTE_BLOCK_SIZE>()]: whole blocks and the remainder. *)
Fixpoint as_chunks (n : nat) (l : bytes) : list bytes * bytes :=
  match n with
  | O => ([], l)
  | S n => let '(blocks, remainder) := as_chunks n (drop BYTE_BLOCK_SIZE l) in
           (take BYTE_BLOCK_SIZE l :: blocks, remainder)
  end.

Definition zero_padded (l : bytes) : bytes := l ++ replicate (BYTE_BLOCK_SIZE - length l) 0.

Definition poseidon2_byte_hash (l : bytes) : Hash :=
  let state := replicate WIDTH 0 in
  let state := absorb_byte_block state (zero_padded (to_le_bytes 8 (len l))) in
  let '(blocks, remainder) := as_chunks (length l / BYTE_BLOCK_SIZE) l in
  let state := foldl absorb_byte_block state blocks in
  let state := if bool_decide (remainder = []) then state
               else absorb_byte_block state (zero_padded remainder) in
  mjoin (map (to_le_bytes 4) (take RATE state)).

Definition Poseidon2Hasher : Hasher := {|
  hash_node encoded_node := poseidon2_byte_hash (TRIE_NODE_DOMAIN_POSEIDON2 ++ encoded_node);
  hash_value value := poseidon2_byte_hash value;
|}.

End Poseidon2.

(* ------------------------------------------------------------------ *)
(** ** Digest lengths *)

Lemma blake3_hasher_laws `{Blake3Laws} : @HasherLaws Blake3Hasher.
Proof. constructor; intros x; cbn; unfold blake3_256; apply blake3_length. Qed.

Lemma length_absorb `{KoalaPermLaws} state block : length state = WIDTH -> length (absorb_byte_block state block) = WIDTH.
Proof.
  intros Hs. apply permute_length. rewrite length_app, length_map, length_seq, length_drop, Hs. done.
Qed.

Lemma poseidon2_hasher_laws `{KoalaPermLaws} : @HasherLaws Poseidon2Hasher.
Proof.
  assert (forall l, length (poseidon2_byte_hash l) = 32%nat) as Hlen; [|constructor; intros x; apply Hlen].
  intros l. unfold poseidon2_byte_hash. destruct (as_chunks _ l) as [blocks remainder].
  set (s0 := absorb_byte_block _ (zero_padded (to_le_bytes 8 (len l)))).
  assert (length (foldl absorb_byte_block s0 blocks) = WIDTH) as Hs.
  { assert (length s0 = WIDTH) as Hs0 by (by apply length_absorb). revert Hs0. generalize s0.
    induction blocks as [|b blocks IH]; intros s Hs; [done|]. by apply IH, length_absorb. }
  set (s := if bool_decide (remainder = []) then _ else _).
  assert (length s = WIDTH) as Hfin by (unfold s; case_bool_decide; [done|by apply length_absorb]).
  do 16 (destruct s as [|? s]; [done|]). done.
Qed.

(* ------------------------------------------------------------------ *)
(** ** The encoding is canonical *)

Definition node_wf (n : Node) : Prop :=
  match n with
  | NodeLeaf p h | NodeExtension p h => path_wf p /\ length h = 32%nat
  | NodeBranch l r => length l = 32%nat /\ length r = 32%nat
  end.

Lemma decode_tail h : length h = 32%nat -> decode_hash_tail h = Ok h.
Proof. intros Hh. unfold decode_hash_tail, len. by rewrite Hh. Qed.

Lemma decode_tail_Ok h h' : decode_hash_tail h = Ok h' -> h' = h /\ length h = 32%nat.
Proof.
  unfold decode_hash_tail, len. destruct (N.ltb_spec (N.of_nat (length h)) 32), (N.ltb_spec 32 (N.of_nat (length h))); try done.
  intros [= ->]. split; [done|lia].
Qed.

Lemma node_decode_encode n : node_wf n -> Node_decode (Node_encode n) = Ok n.
Proof.
  destruct n as [p h|l r|p h]; cbn [node_wf Node_encode app].
  - intros [Hp Hh]. cbn [Node_decode]. cbv beta iota zeta delta [NODE_TAG_LEAF NODE_TAG_BRANCH NODE_TAG_EXTENSION N.eqb Pos.eqb]. rewrite decode_encode by done. cbn [mbind result_bind].
    replace (N.to_nat (4 + len (bp_bytes p))) with (length (BitPath_encode p))
      by (unfold BitPath_encode, len; rewrite length_app, length_to_le_bytes; lia).
    by rewrite drop_app_length, decode_tail.
  - intros [Hl Hr]. cbn. unfold len. rewrite length_app, Hl, Hr. change (N.of_nat (32 + 32)) with 64. cbn -[take drop].
    by rewrite (take_app_length' l r 32), (drop_app_length' l r 32), take_ge by lia.
  - intros [Hp Hh]. cbn [Node_decode]. cbv beta iota zeta delta [NODE_TAG_LEAF NODE_TAG_BRANCH NODE_TAG_EXTENSION N.eqb Pos.eqb]. rewrite decode_encode by done. cbn [mbind result_bind].
    replace (N.to_nat (4 + len (bp_bytes p))) with (length (BitPath_encode p))
      by (unfold BitPath_encode, len; rewrite length_app, length_to_le_bytes; lia).
    by rewrite drop_app_length, decode_tail.
Qed.

Lemma node_decode_wf l n : octets l -> Node_decode l = Ok n -> node_wf n /\ l = Node_encode n.
Proof.
  intros Hl. destruct l as [|tag body]; [done|]. apply Forall_cons in Hl as [_ Hbody]. cbn [Node_decode].
  destruct (N.eqb_spec tag NODE_TAG_LEAF) as [->|].
  { intros H. destruct (BitPath_decode body) as [[p c]|] eqn:Hp; [|done]. cbn in H. results.
    apply decode_tail_Ok in Hok as [-> Hh]. apply decode_wf in Hp as (Hp & _ & Hb); [|done]. split; [done|]. cbn [Node_encode app]. by rewrite <- Hb. }
  destruct (N.eqb_spec tag NODE_TAG_BRANCH) as [->|].
  { unfold len. destruct (N.ltb_spec (N.of_nat (length body)) 64), (N.ltb_spec 64 (N.of_nat (length body))); try done.
    intros [= <-]. cbn. rewrite !length_take, length_drop. split; [lia|].
    rewrite (take_ge (drop 32 body)) by (rewrite length_drop; lia). by rewrite take_drop. }
  destruct (N.eqb_spec tag NODE_TAG_EXTENSION) as [->|]; [|done].
  intros H. destruct (BitPath_decode body) as [[p c]|] eqn:Hp; [|done]. cbn in H. results.
  apply decode_tail_Ok in Hok as [-> Hh]. apply decode_wf in Hp as (Hp & _ & Hb); [|done]. split; [done|]. cbn [Node_encode app]. by rewrite <- Hb.
Qed.

(** Typed nodes: 32-bit lengths and 32-byte hashes, as the Rust types enforce. *)
Definition node_typed (n : Node) : Prop :=
  match n with
  | NodeLeaf p h | NodeExtension p h => bp_len p <= U32_MAX /\ length h = 32%nat
  | NodeBranch l r => length l = 32%nat /\ length r = 32%nat
  end.

Lemma node_wf_typed n : node_wf n -> node_typed n.
Proof. destruct n; cbn; [|done|]; intros [Hp ?]; split; (apply Hp || done). Qed.

Lemma cons_eq_inv {A} (x y : A) l k : x :: l = y :: k -> x = y /\ l = k.
Proof. by intros [= -> ->]. Qed.

Lemma node_encode_inj n m : node_typed n -> node_typed m -> Node_encode n = Node_encode m -> n = m.
Proof.
  destruct n as [p h|l r|p h], m as [p' h'|l' r'|p' h']; cbn [node_typed Node_encode app]; intros [] [] Heq;
    apply cons_eq_inv in Heq as [Htag Heq]; try done.
  - apply encode_app_inj in Heq as [-> ->]; [done..|congruence].
  - apply app_inj_1 in Heq as [-> ->]; [done|congruence].
  - apply encode_app_inj in Heq as [-> ->]; [done..|congruence].
Qed.

(** ** A concrete hasher, for examples *)

Definition fold_digest (seed : N) (l : bytes) : Hash :=
  to_le_bytes 32 (foldl (fun acc b => N.land (acc * 2862933555777941757 + b + 3037000493) U64_MAX) seed l).

Definition sample_hasher : Hasher := {| hash_node := fold_digest 1; hash_value := fold_digest 2 |}.

Lemma sample_hasher_laws : @HasherLaws sample_hasher.
Proof. split; intros x; apply length_to_le_bytes. Qed.
