(* ===== verification/Trie.v ===== *)
(** * The state trie

    crates/trie/src/trie.rs: a binary Patricia trie over content-addressed node and
    value stores.  Operations that store nodes are programs over [fetch_node] and
    [store_node], which [run_trie] executes on a trie; a panic is a [TrieFault].
    Walks and recursions take fuel: one unit per key bit and one more is enough on
    the tries the operations build (file TrieSpec), since every node consumes at
    least one bit. *)

From S2P Require Import Prelude Primitives Bits TrieNode.

(** ** The store *)

Record Trie := {
  tr_nodes : gmap Hash bytes;
  tr_values : gmap Hash bytes;
  tr_pending_nodes : list (Hash * bytes);
  tr_pending_values : list (Hash * bytes);
  tr_root : Hash;
}.

Definition EMPTY_TRIE_ROOT : Hash := ZERO_HASH.

Definition Trie_new : Trie :=
  {| tr_nodes := ∅; tr_values := ∅; tr_pending_nodes := []; tr_pending_values := []; tr_root := ZERO_HASH |}.

(** [collect] into a [BTreeMap]: the last entry of a key wins. *)
Definition collect_map (l : list (Hash * bytes)) : gmap Hash bytes :=
  foldl (fun m e => <[e.1 := e.2]> m) ∅ l.

Definition Trie_from_persisted (root : Hash) (nodes values : list (Hash * bytes)) : Trie :=
  {| tr_nodes := collect_map nodes; tr_values := collect_map values;
     tr_pending_nodes := []; tr_pending_values := []; tr_root := root |}.

Definition set_root (root : Hash) (tr : Trie) : Trie :=
  {| tr_nodes := tr_nodes tr; tr_values := tr_values tr; tr_pending_nodes := tr_pending_nodes tr;
     tr_pending_values := tr_pending_values tr; tr_root := root |}.

Definition drain_pending_nodes (tr : Trie) : list (Hash * bytes) * Trie :=
  (tr_pending_nodes tr,
   {| tr_nodes := tr_nodes tr; tr_values := tr_values tr; tr_pending_nodes := [];
      tr_pending_values := tr_pending_values tr; tr_root := tr_root tr |}).

Definition drain_pending_values (tr : Trie) : list (Hash * bytes) * Trie :=
  (tr_pending_values tr,
   {| tr_nodes := tr_nodes tr; tr_values := tr_values tr; tr_pending_nodes := tr_pending_nodes tr;
      tr_pending_values := []; tr_root := tr_root tr |}).

(** The panics of the operations: a node or value the store lacks, node bytes that
    do not decode, an assertion or index of a bit path; and the end of the fuel.  Index
    arithmetic that leaves [u32] is a [BadIndex] too: the profiles of the workspace set
    [overflow-checks], and in the guests, which are built without it, the wrapped bound
    is accepted but [BitPath::prefix] then fails its assertion
    ([overflowing_prefix_panics]). *)
Inductive TrieFault := MissingNode | MalformedNode | MissingValue | BadIndex | OutOfFuel.

#[export] Instance TrieFault_eq_dec : EqDecision TrieFault.
Proof. solve_decision. Defined.

Definition fetch_node (nodes : gmap Hash bytes) (hash : Hash) : result TrieFault Node :=
  l ← ok_or (nodes !! hash) MissingNode;
  map_err (fun _ => MalformedNode) (Node_decode l).

Definition in_range {A} (o : option A) : result TrieFault A := ok_or o BadIndex.

Section Operations.
Context `{Hasher}.

Definition store_node (node : Node) (tr : Trie) : Hash * Trie :=
  let encoded := Node_encode node in
  let hash := hash_node encoded in
  (hash,
   {| tr_nodes := <[hash := encoded]> (tr_nodes tr);
      tr_values := tr_values tr;
      tr_pending_nodes := match tr_nodes tr !! hash with
                          | None => tr_pending_nodes tr ++ [(hash, encoded)]
                          | Some _ => tr_pending_nodes tr
                          end;
      tr_pending_values := tr_pending_values tr;
      tr_root := tr_root tr |}).

(** The value part of [Trie::insert]. *)
Definition store_value (value : bytes) (tr : Trie) : Hash * Trie :=
  let hash := hash_value value in
  (hash,
   {| tr_nodes := tr_nodes tr;
      tr_values := <[hash := value]> (tr_values tr);
      tr_pending_nodes := tr_pending_nodes tr;
      tr_pending_values := match tr_values tr !! hash with
                           | None => tr_pending_values tr ++ [(hash, value)]
                           | Some _ => tr_pending_values tr
                           end;
      tr_root := tr_root tr |}).

(** ** Programs over the node store *)

Inductive prog (A : Type) : Type :=
| PRet (a : A)
| PFault (f : TrieFault)
| PFetch (hash : Hash) (k : Node -> prog A)
| PStore (node : Node) (k : Hash -> prog A).
#[global] Arguments PRet {A} a.
#[global] Arguments PFault {A} f.
#[global] Arguments PFetch {A} hash k.
#[global] Arguments PStore {A} node k.

#[global] Instance prog_ret : MRet prog := fun A => PRet.
#[global] Instance prog_bind : MBind prog := fun A B f =>
  fix go p := match p with
              | PRet a => f a
              | PFault e => PFault e
              | PFetch h k => PFetch h (fun n => go (k n))
              | PStore n k => PStore n (fun h => go (k h))
              end.

Definition fetch (hash : Hash) : prog Node := PFetch hash PRet.
Definition store (node : Node) : prog Hash := PStore node PRet.

(** Bit-path operations panic out of range. *)
Definition checked {A} (o : option A) : prog A :=
  match o with Some x => PRet x | None => PFault BadIndex end.

(** The [?] operator. *)
Definition p_try {E A B} (p : prog (result E A)) (k : A -> prog (result E B)) : prog (result E B) :=
  r ← p; match r with Ok x => k x | Err e => PRet (Err e) end.

Fixpoint run_trie {A} (p : prog A) (tr : Trie) : result TrieFault (A * Trie) :=
  match p with
  | PRet a => Ok (a, tr)
  | PFault e => Err e
  | PFetch h k => n ← fetch_node (tr_nodes tr) h; run_trie (k n) tr
  | PStore n k => let '(h, tr) := store_node n tr in run_trie (k h) tr
  end.

(** ** Insertion *)

(** A branch with [hash] on the side of [bit]. *)
Definition branch_of (bit : bool) (hash other : Hash) : Node :=
  if bit then NodeBranch other hash else NodeBranch hash other.

Definition insert_into_leaf (existing_suffix : BitPath) (existing_vh : Hash) (path : BitPath) (value_hash : Hash)
    : prog (result TrieError Hash) :=
  if (bp_len existing_suffix =? bp_len path) && bool_decide (existing_suffix = path) then
    h ← store (NodeLeaf existing_suffix value_hash); PRet (Ok h)
  else
    common ← checked (BitPath_common_prefix_len existing_suffix path);
    if (common =? bp_len existing_suffix) || (common =? bp_len path) then PRet (Err PrefixCollision)
    else
      existing_bit ← checked (BitPath_bit existing_suffix common);
      existing_tail ← checked (BitPath_suffix existing_suffix (common + 1));
      new_tail ← checked (BitPath_suffix path (common + 1));
      existing_leaf_hash ← store (NodeLeaf existing_tail existing_vh);
      new_leaf_hash ← store (NodeLeaf new_tail value_hash);
      branch_hash ← store (branch_of existing_bit existing_leaf_hash new_leaf_hash);
      if common =? 0 then PRet (Ok branch_hash)
      else
        prefix ← checked (BitPath_prefix path common);
        h ← store (NodeExtension prefix branch_hash); PRet (Ok h).

(** [insert_child] is the recursive call on the child at a new offset. *)
Definition insert_into_extension (insert_child : Hash -> N -> prog (result TrieError Hash))
    (prefix : BitPath) (child : Hash) (path : BitPath) (offset : N) (value_hash : Hash)
    : prog (result TrieError Hash) :=
  matches ← checked (BitPath_matches_at path offset prefix);
  if matches : bool then
    let rest := offset + bp_len prefix in
    if rest =? bp_len path then PRet (Err PrefixCollision)
    else p_try (insert_child child rest) (fun new_child =>
      h ← store (NodeExtension prefix new_child); PRet (Ok h))
  else
    path ← checked (BitPath_suffix path offset);
    common ← checked (BitPath_common_prefix_len prefix path);
    if common =? bp_len path then PRet (Err PrefixCollision)
    else
      existing_bit ← checked (BitPath_bit prefix common);
      existing_tail ← checked (BitPath_suffix prefix (common + 1));
      new_tail ← checked (BitPath_suffix path (common + 1));
      existing_side_hash ← (if BitPath_is_empty existing_tail then PRet child
                            else store (NodeExtension existing_tail child));
      new_leaf_hash ← store (NodeLeaf new_tail value_hash);
      branch_hash ← store (branch_of existing_bit existing_side_hash new_leaf_hash);
      if common =? 0 then PRet (Ok branch_hash)
      else
        prefix ← checked (BitPath_prefix path common);
        h ← store (NodeExtension prefix branch_hash); PRet (Ok h).

Fixpoint insert_at (fuel : nat) (node_hash : Hash) (path : BitPath) (offset : N) (value_hash : Hash)
    : prog (result TrieError Hash) :=
  match fuel with
  | O => PFault OutOfFuel
  | S fuel =>
      if bool_decide (node_hash = ZERO_HASH) then
        key_suffix ← checked (BitPath_suffix path offset);
        h ← store (NodeLeaf key_suffix value_hash); PRet (Ok h)
      else
        node ← fetch node_hash;
        match node with
        | NodeLeaf key_suffix existing_vh =>
            rest ← checked (BitPath_suffix path offset);
            insert_into_leaf key_suffix existing_vh rest value_hash
        | NodeBranch l r =>
            if bp_len path <=? offset then PRet (Err PrefixCollision)
            else
              bit ← checked (BitPath_bit path offset);
              p_try (insert_at fuel (if bit : bool then r else l) path (offset + 1) value_hash) (fun new_child =>
                h ← store (branch_of bit new_child (if bit : bool then l else r)); PRet (Ok h))
        | NodeExtension prefix child =>
            insert_into_extension (fun child rest => insert_at fuel child path rest value_hash)
              prefix child path offset value_hash
        end
  end.

(** Enough for every path: one unit per bit and one more. *)
Definition path_fuel (path : BitPath) : nat := S (N.to_nat (bp_len path)).

Definition Trie_insert (key value : bytes) (tr : Trie) : result TrieFault (result TrieError unit * Trie) :=
  path ← in_range (BitPath_for_key key);
  let '(value_hash, tr) := store_value value tr in
  '(r, tr) ← run_trie (insert_at (path_fuel path) (tr_root tr) path 0 value_hash) tr;
  match r with
  | Ok new_root => Ok (Ok tt, set_root new_root tr)
  | Err e => Ok (Err e, tr)
  end.

(** ** Removal *)

Definition absorb_into_parent (surviving_child : Hash) (child_bit : bool) : prog Hash :=
  surviving_node ← fetch surviving_child;
  let prefix_bits := BitPath_single child_bit in
  match surviving_node with
  | NodeLeaf key_suffix value_hash =>
      combined ← checked (BitPath_concat prefix_bits key_suffix);
      store (NodeLeaf combined value_hash)
  | NodeExtension child_prefix grandchild =>
      combined ← checked (BitPath_concat prefix_bits child_prefix);
      store (NodeExtension combined grandchild)
  | NodeBranch _ _ => store (NodeExtension prefix_bits surviving_child)
  end.

Definition collapse_branch (l r : Hash) : prog Hash :=
  match bool_decide (l = ZERO_HASH), bool_decide (r = ZERO_HASH) with
  | true, true => PRet ZERO_HASH
  | false, true => absorb_into_parent l false
  | true, false => absorb_into_parent r true
  | false, false => store (NodeBranch l r)
  end.

Definition collapse_extension (prefix : BitPath) (child : Hash) : prog Hash :=
  if bool_decide (child = ZERO_HASH) then PRet ZERO_HASH
  else
    child_node ← fetch child;
    match child_node with
    | NodeLeaf key_suffix value_hash =>
        combined_path ← checked (BitPath_concat prefix key_suffix);
        store (NodeLeaf combined_path value_hash)
    | NodeExtension child_prefix grandchild =>
        combined_prefix ← checked (BitPath_concat prefix child_prefix);
        store (NodeExtension combined_prefix grandchild)
    | NodeBranch _ _ => store (NodeExtension prefix child)
    end.

Fixpoint remove_at (fuel : nat) (node_hash : Hash) (path : BitPath) (offset : N) : prog (Hash * option Hash) :=
  match fuel with
  | O => PFault OutOfFuel
  | S fuel =>
      if bool_decide (node_hash = ZERO_HASH) then PRet (ZERO_HASH, None)
      else
        node ← fetch node_hash;
        match node with
        | NodeLeaf key_suffix value_hash =>
            remaining ← checked (checked_sub (bp_len path) offset);
            matches ← (if bp_len key_suffix =? remaining
                       then checked (BitPath_matches_at path offset key_suffix) else PRet false);
            PRet (if matches : bool then (ZERO_HASH, Some value_hash) else (node_hash, None))
        | NodeBranch l r =>
            if bp_len path <=? offset then PRet (node_hash, None)
            else
              bit ← checked (BitPath_bit path offset);
              '(new_child, removed) ← remove_at fuel (if bit : bool then r else l) path (offset + 1);
              match removed with
              | None => PRet (node_hash, None)
              | Some _ =>
                  collapsed_hash ← (if bit : bool then collapse_branch l new_child else collapse_branch new_child r);
                  PRet (collapsed_hash, removed)
              end
        | NodeExtension prefix child =>
            matches ← checked (BitPath_matches_at path offset prefix);
            if negb matches then PRet (node_hash, None)
            else
              let rest := offset + bp_len prefix in
              '(new_child, removed) ← remove_at fuel child path rest;
              match removed with
              | None => PRet (node_hash, None)
              | Some _ =>
                  collapsed_hash ← collapse_extension prefix new_child;
                  PRet (collapsed_hash, removed)
              end
        end
  end.

Definition Trie_remove (key : bytes) (tr : Trie) : result TrieFault (option bytes * Trie) :=
  path ← in_range (BitPath_for_key key);
  '((new_root, removed), tr) ← run_trie (remove_at (path_fuel path) (tr_root tr) path 0) tr;
  Ok (value_hash ← removed; tr_values tr !! value_hash, set_root new_root tr).

End Operations.

(** ** Walks *)

(** The loop of [Trie::get], up to the leaf's value hash. *)
Fixpoint get_walk (nodes : gmap Hash bytes) (fuel : nat) (path : BitPath) (current : Hash) (consumed : N)
    : result TrieFault (option Hash) :=
  match fuel with
  | O => Err OutOfFuel
  | S fuel =>
      if bool_decide (current = ZERO_HASH) then Ok None
      else
        node ← fetch_node nodes current;
        match node with
        | NodeLeaf key_suffix value_hash =>
            remaining ← in_range (BitPath_suffix path consumed);
            Ok (if bool_decide (remaining = key_suffix) then Some value_hash else None)
        | NodeBranch l r =>
            if bp_len path <=? consumed then Ok None
            else
              bit ← in_range (BitPath_bit path consumed);
              get_walk nodes fuel path (if bit : bool then r else l) (consumed + 1)
        | NodeExtension prefix child =>
            let n := bp_len prefix in
            end_ ← in_range (checked_add U32_MAX consumed n);
            if bp_len path <? end_ then Ok None
            else
              rest ← in_range (BitPath_suffix path consumed);
              segment ← in_range (BitPath_prefix rest n);
              if bool_decide (segment = prefix) then get_walk nodes fuel path child end_ else Ok None
        end
  end.

Definition Trie_get (key : bytes) (tr : Trie) : result TrieFault (option bytes) :=
  path ← in_range (BitPath_for_key key);
  found ← get_walk (tr_nodes tr) (path_fuel path) path (tr_root tr) 0;
  match found with
  | None => Ok None
  | Some value_hash => value ← ok_or (tr_values tr !! value_hash) MissingValue; Ok (Some value)
  end.

(** [map.insert(key, map2[key].clone())] when the key is there. *)
Definition copy_entry (from : gmap Hash bytes) (key : Hash) (out : gmap Hash bytes) : gmap Hash bytes :=
  match from !! key with Some l => <[key := l]> out | None => out end.

(** The loop of [Trie::collect_path_nodes]. *)
Fixpoint collect_walk (tr : Trie) (fuel : nat) (path : BitPath) (current : Hash) (consumed : N)
    (out : gmap Hash bytes * gmap Hash bytes) : result TrieFault (gmap Hash bytes * gmap Hash bytes) :=
  match fuel with
  | O => Err OutOfFuel
  | S fuel =>
      if bool_decide (current = ZERO_HASH) then Ok out
      else
        let out := (copy_entry (tr_nodes tr) current out.1, out.2) in
        node ← fetch_node (tr_nodes tr) current;
        match node with
        | NodeLeaf _ value_hash => Ok (out.1, copy_entry (tr_values tr) value_hash out.2)
        | NodeBranch l r =>
            if bp_len path <=? consumed then Ok out
            else
              bit ← in_range (BitPath_bit path consumed);
              let sibling := if bit : bool then l else r in
              let descended := if bit : bool then r else l in
              let out := if bool_decide (sibling = ZERO_HASH) then out
                         else (copy_entry (tr_nodes tr) sibling out.1, out.2) in
              collect_walk tr fuel path descended (consumed + 1) out
        | NodeExtension prefix child =>
            let n := bp_len prefix in
            end_ ← in_range (checked_add U32_MAX consumed n);
            if bp_len path <? end_ then Ok out
            else
              rest ← in_range (BitPath_suffix path consumed);
              segment ← in_range (BitPath_prefix rest n);
              if bool_decide (segment = prefix) then collect_walk tr fuel path child end_ out else Ok out
        end
  end.

Definition collect_path_nodes (tr : Trie) (key : bytes) (out : gmap Hash bytes * gmap Hash bytes)
    : result TrieFault (gmap Hash bytes * gmap Hash bytes) :=
  path ← in_range (BitPath_for_key key);
  collect_walk tr (path_fuel path) path (tr_root tr) 0 out.

(** The loop of [lookup_persisted]: the same walk over stores that may lack
    entries, which are errors here.  [None] is a panic of a bit path, or the end
    of the fuel. *)
Fixpoint persisted_walk (node value : Hash -> option bytes) (fuel : nat) (path : BitPath) (current : Hash) (consumed : N)
    : option (result TrieError (option bytes)) :=
  match fuel with
  | O => None
  | S fuel =>
      if bool_decide (current = ZERO_HASH) then Some (Ok None)
      else
        match l ← ok_or (node current) MissingRetainedEntry; Node_decode l with
        | Err e => Some (Err e)
        | Ok (NodeLeaf key_suffix value_hash) =>
            remaining ← BitPath_suffix path consumed;
            Some (if bool_decide (remaining = key_suffix)
                  then v ← ok_or (value value_hash) MissingRetainedEntry; Ok (Some v)
                  else Ok None)
        | Ok (NodeBranch l r) =>
            if bp_len path <=? consumed then Some (Ok None)
            else
              bit ← BitPath_bit path consumed;
              persisted_walk node value fuel path (if bit : bool then r else l) (consumed + 1)
        | Ok (NodeExtension prefix child) =>
            let n := bp_len prefix in
            end_ ← checked_add U32_MAX consumed n;
            if bp_len path <? end_ then Some (Ok None)
            else
              rest ← BitPath_suffix path consumed;
              segment ← BitPath_prefix rest n;
              if bool_decide (segment = prefix) then persisted_walk node value fuel path child end_
              else Some (Ok None)
        end
  end.

Definition lookup_persisted (root : Hash) (key : bytes) (node value : Hash -> option bytes)
    : option (result TrieError (option bytes)) :=
  path ← BitPath_for_key key;
  persisted_walk node value (path_fuel path) path root 0.

(** An extension that would overflow the offset of a walk does not fit the rest of
    the path, so taking that prefix panics whatever the sum wraps to. *)
Lemma overflowing_prefix_panics (path rest : BitPath) (consumed n : N) :
  bp_len path <= U32_MAX -> checked_add U32_MAX consumed n = None ->
  BitPath_suffix path consumed = Some rest -> BitPath_prefix rest n = None.
Proof.
  unfold checked_add. destruct (N.leb_spec (consumed + n) U32_MAX) as [|Hover]; [done|]. intros Hlen _ Hrest.
  assert (consumed <= bp_len path /\ bp_len rest = bp_len path - consumed) as [Hle Hr].
  { unfold BitPath_suffix in Hrest. case_guard; cbn in Hrest; [|done]. split; [done|].
    destruct (N.eqb_spec (bp_len path - consumed) 0) as [H0|]; [by injection Hrest as <-|].
    destruct (mapM _ _); cbn in Hrest; [by injection Hrest as <-|done]. }
  unfold BitPath_prefix. by rewrite (option_guard_False (n <= bp_len rest)) by lia.
Qed.

(** ** Hash collisions

    [clash_free p tr]: along the run of [p] from [tr], no stored node has the hash
    of a different node already in the store, or the hash that stands for the
    empty trie.  The run is then free of hash collisions, and a store only grows;
    the same for values. *)

Definition entry_free (m : gmap Hash bytes) (hash : Hash) (l : bytes) : bool :=
  match m !! hash with None => true | Some l' => bool_decide (l' = l) end.

Fixpoint clash_free `{Hasher} {A} (p : prog A) (tr : Trie) : bool :=
  match p with
  | PRet _ | PFault _ => true
  | PFetch h k => match fetch_node (tr_nodes tr) h with Ok n => clash_free (k n) tr | Err _ => true end
  | PStore n k =>
      let h := hash_node (Node_encode n) in
      negb (bool_decide (h = ZERO_HASH)) && entry_free (tr_nodes tr) h (Node_encode n)
      && clash_free (k h) (store_node n tr).2
  end.

Definition insert_clash_free `{Hasher} (key value : bytes) (tr : Trie) : bool :=
  match BitPath_for_key key with
  | None => true
  | Some path =>
      entry_free (tr_values tr) (hash_value value) value
      && let '(value_hash, tr) := store_value value tr in
         clash_free (insert_at (path_fuel path) (tr_root tr) path 0 value_hash) tr
  end.

Definition remove_clash_free `{Hasher} (key : bytes) (tr : Trie) : bool :=
  match BitPath_for_key key with
  | None => true
  | Some path => clash_free (remove_at (path_fuel path) (tr_root tr) path 0) tr
  end.
