(* ===== verification/TrieSpec.v ===== *)
(** * The trie as a tree

    The tree a root hash stands for, with insertion and removal as functions on
    it, and the lemmas that the operations of file Trie compute the hash of the
    resulting tree and store its nodes.  Trees in canonical shape are determined by
    their content. *)

From S2P Require Import Prelude Primitives Bits TrieNode Trie.

(** ** Trees *)

Inductive tree :=
| TLeaf (suffix : list bool) (value_hash : Hash)
| TBranch (l r : tree)
| TExt (prefix : list bool) (child : tree).

#[export] Instance tree_eq_dec : EqDecision tree.
Proof. solve_decision. Defined.

(** [x] on the side of [b], [y] on the other. *)
Definition tside (b : bool) (x y : tree) : tree := if b then TBranch y x else TBranch x y.

(** An extension unless its prefix is empty. *)
Definition text (p : list bool) (t : tree) : tree := match p with [] => t | _ => TExt p t end.

(** The tree below a longer prefix. *)
Definition graft (p : list bool) (t : tree) : tree :=
  match t with
  | TLeaf s v => TLeaf (p ++ s) v
  | TBranch _ _ => TExt p t
  | TExt q c => TExt (p ++ q) c
  end.

Fixpoint tlookup (t : tree) (k : list bool) : option Hash :=
  match t with
  | TLeaf s v => if bool_decide (s = k) then Some v else None
  | TBranch l r => match k with [] => None | b :: k => tlookup (if b then r else l) k end
  | TExt p c => if bool_decide (p `prefix_of` k) then tlookup c (drop (length p) k) else None
  end.

Fixpoint tinsert (t : tree) (k : list bool) (v : Hash) : option tree :=
  match t with
  | TLeaf s w =>
      if bool_decide (s = k) then Some (TLeaf k v)
      else let n := lcp s k in
           match drop n s, drop n k with
           | b :: s, _ :: k' => Some (text (take n k) (tside b (TLeaf s w) (TLeaf k' v)))
           | _, _ => None
           end
  | TBranch l r =>
      match k with
      | [] => None
      | b :: k => c ← tinsert (if b then r else l) k v; Some (tside b c (if b then l else r))
      end
  | TExt p c =>
      if bool_decide (p `prefix_of` k) then
        match drop (length p) k with
        | [] => None
        | k => c ← tinsert c k v; Some (TExt p c)
        end
      else let n := lcp p k in
           match drop n p, drop n k with
           | b :: p, _ :: k' => Some (text (take n k) (tside b (text p c) (TLeaf k' v)))
           | _, _ => None
           end
  end.

(** The node stored last, above the branch of a split. *)
Definition split_nodes (p : list bool) (t : tree) : list tree :=
  t :: match p with [] => [] | _ => [TExt p t] end.

(** The nodes an insertion stores. *)
Fixpoint insert_nodes (t : tree) (k : list bool) (v : Hash) : list tree :=
  match t with
  | TLeaf s w =>
      if bool_decide (s = k) then [TLeaf k v]
      else let n := lcp s k in
           match drop n s, drop n k with
           | b :: s, _ :: k' =>
               [TLeaf s w; TLeaf k' v] ++ split_nodes (take n k) (tside b (TLeaf s w) (TLeaf k' v))
           | _, _ => []
           end
  | TBranch l r =>
      match k with
      | [] => []
      | b :: k => match tinsert (if b then r else l) k v with
                  | Some c => insert_nodes (if b then r else l) k v ++ [tside b c (if b then l else r)]
                  | None => []
                  end
      end
  | TExt p c =>
      if bool_decide (p `prefix_of` k) then
        match drop (length p) k with
        | [] => []
        | k => match tinsert c k v with
               | Some c' => insert_nodes c k v ++ [TExt p c']
               | None => []
               end
        end
      else let n := lcp p k in
           match drop n p, drop n k with
           | b :: p, _ :: k' =>
               match p with [] => [] | _ => [TExt p c] end
               ++ TLeaf k' v :: split_nodes (take n k) (tside b (text p c) (TLeaf k' v))
           | _, _ => []
           end
  end.

(** The tree without a key, and the key's value hash; [None] when it is absent. *)
Fixpoint tremove (t : tree) (k : list bool) : option (option tree * Hash) :=
  match t with
  | TLeaf s v => if bool_decide (s = k) then Some (None, v) else None
  | TBranch l r =>
      match k with
      | [] => None
      | b :: k => '(c, v) ← tremove (if b then r else l) k;
                  let other := if b then l else r in
                  Some (Some (match c with Some c => tside b c other | None => graft [negb b] other end), v)
      end
  | TExt p c =>
      if bool_decide (p `prefix_of` k) then
        '(c, v) ← tremove c (drop (length p) k);
        Some (match c with Some c => Some (graft p c) | None => None end, v)
      else None
  end.

(** The nodes a removal stores. *)
Fixpoint remove_nodes (t : tree) (k : list bool) : list tree :=
  match t with
  | TLeaf _ _ => []
  | TBranch l r =>
      match k with
      | [] => []
      | b :: k => let other := if b then l else r in
                  remove_nodes (if b then r else l) k
                  ++ match tremove (if b then r else l) k with
                     | Some (Some c, _) => [tside b c other]
                     | Some (None, _) => [graft [negb b] other]
                     | None => []
                     end
      end
  | TExt p c =>
      if bool_decide (p `prefix_of` k) then
        remove_nodes c (drop (length p) k)
        ++ match tremove c (drop (length p) k) with Some (Some c, _) => [graft p c] | _ => [] end
      else []
  end.

(** ** Shape *)

Definition is_branch (t : tree) : Prop := match t with TBranch _ _ => True | _ => False end.

(** Extensions are non-empty and lie above branches. *)
Fixpoint canonical (t : tree) : Prop :=
  match t with
  | TLeaf _ _ => True
  | TBranch l r => canonical l /\ canonical r
  | TExt p c => p <> [] /\ is_branch c /\ canonical c
  end.

(** The length of the longest path. *)
Fixpoint depth (t : tree) : nat :=
  match t with
  | TLeaf s _ => length s
  | TBranch l r => S (Nat.max (depth l) (depth r))
  | TExt p c => (length p + depth c)%nat
  end.

(** Value hashes are 32 bytes. *)
Fixpoint sized (t : tree) : Prop :=
  match t with
  | TLeaf _ v => length v = 32%nat
  | TBranch l r => sized l /\ sized r
  | TExt _ c => sized c
  end.

(** What the operations need of a tree. *)
Record shaped (t : tree) : Prop := {
  sh_canonical : canonical t;
  sh_sized : sized t;
  sh_depth : N.of_nat (depth t) <= U32_MAX;
}.

(* ------------------------------------------------------------------ *)
(** ** Lookups *)

Lemma lcp_view a b : exists c a' b',
  a = c ++ a' /\ b = c ++ b' /\ lcp a b = length c /\ match a', b' with x :: _, y :: _ => y = negb x | _, _ => True end.
Proof.
  revert b. induction a as [|x a IH]; intros b; [by exists [], [], b|].
  destruct b as [|y b]; [by exists [], (x :: a), []|]. cbn. destruct (Bool.eqb_spec x y) as [->|Hne].
  - destruct (IH b) as (c & a' & b' & -> & -> & -> & Hd). by exists (y :: c), a', b'.
  - exists [], (x :: a), (y :: b). split_and!; [done..|]. by destruct x, y.
Qed.

(** Case analysis on where two bit strings part. *)
Ltac lcp_cases s k :=
  let c := fresh "c" in let s' := fresh "s'" in let k' := fresh "k'" in let Hn := fresh "Hn" in let Hd := fresh "Hd" in
  destruct (lcp_view s k) as (c & s' & k' & -> & -> & Hn & Hd); rewrite Hn in *;
  rewrite ?drop_app_length, ?take_app_length in *; clear Hn.

Lemma tlookup_leaf s w k v : tlookup (TLeaf s w) k = Some v <-> k = s /\ w = v.
Proof. cbn. case_bool_decide; naive_solver. Qed.

Lemma tlookup_branch l r k v :
  tlookup (TBranch l r) k = Some v <-> exists b k', k = b :: k' /\ tlookup (if b : bool then r else l) k' = Some v.
Proof. cbn. destruct k as [|b k]; naive_solver. Qed.

Lemma tlookup_ext p c k v : tlookup (TExt p c) k = Some v <-> exists k', k = p ++ k' /\ tlookup c k' = Some v.
Proof.
  cbn. case_bool_decide as Hp.
  - destruct Hp as [k' ->]. rewrite drop_app_length. split; [eauto|]. intros (k'' & Heq & ?). by simplify_list_eq.
  - split; [done|]. intros (k' & -> & _). destruct Hp. by apply prefix_app_r.
Qed.

Lemma tlookup_text p c k v : tlookup (text p c) k = Some v <-> exists k', k = p ++ k' /\ tlookup c k' = Some v.
Proof. destruct p as [|b p]; [cbn; naive_solver|apply tlookup_ext]. Qed.

Lemma tlookup_tside b x y k v :
  tlookup (tside b x y) k = Some v <-> exists b' k', k = b' :: k' /\ tlookup (if Bool.eqb b b' then x else y) k' = Some v.
Proof. unfold tside. destruct b; rewrite tlookup_branch; split; intros (b' & k' & -> & Hk); exists b', k'; by destruct b'. Qed.

Lemma tlookup_graft p t k v : tlookup (graft p t) k = Some v <-> exists k', k = p ++ k' /\ tlookup t k' = Some v.
Proof.
  destruct t as [s w|l r|q c]; cbn [graft].
  - rewrite tlookup_leaf. setoid_rewrite tlookup_leaf. naive_solver.
  - apply tlookup_ext.
  - rewrite tlookup_ext. setoid_rewrite tlookup_ext. split.
    + intros (k' & -> & Hk). exists (q ++ k'). rewrite app_assoc. eauto.
    + intros (k' & -> & k'' & -> & Hk). exists k''. by rewrite app_assoc.
Qed.

Lemma tside_self b l r : tside b (if b then r else l) (if b then l else r) = TBranch l r.
Proof. by destruct b. Qed.

(** The tree of a split: the old side and the new leaf. *)
Lemma split_lookup c b x k' v k2 y :
  tlookup (text c (tside b x (TLeaf k' v))) k2 = Some y <->
  k2 = c ++ negb b :: k' /\ y = v \/ exists k3, k2 = c ++ b :: k3 /\ tlookup x k3 = Some y.
Proof.
  rewrite tlookup_text. setoid_rewrite tlookup_tside. split.
  - intros (k3 & -> & b' & k4 & -> & Hk). destruct (Bool.eqb_spec b b') as [->|Hne]; [eauto|].
    apply tlookup_leaf in Hk as [-> ->]. left. split; [|done]. do 2 f_equal. by destruct b, b'.
  - intros [[-> ->]|(k3 & -> & Hk)]; eexists; (split; [done|]); eexists _, _; (split; [done|]).
    + destruct b; by apply tlookup_leaf.
    + by rewrite Bool.eqb_reflx.
Qed.

Lemma split_apart (c : list bool) b k k' : c ++ b :: k <> c ++ negb b :: k'.
Proof. intros [= Heq]%app_inv_head. by destruct b. Qed.

Lemma insert_lookup t k v t' k2 x : tinsert t k v = Some t' ->
  tlookup t' k2 = Some x <-> k2 = k /\ x = v \/ k2 <> k /\ tlookup t k2 = Some x.
Proof.
  revert k t' k2 x. induction t as [s w|l IHl r IHr|p c IH]; intros k t' k2 x; cbn [tinsert].
  - case_bool_decide as Hs.
    { intros [= <-]. subst s. rewrite !tlookup_leaf. naive_solver. }
    lcp_cases s k. destruct s' as [|b s'], k' as [|b' k']; [done..|]. subst b'. intros [= <-].
    rewrite split_lookup. setoid_rewrite tlookup_leaf. pose proof (split_apart c b s' k'). naive_solver.
  - destruct k as [|b k]; [done|]. intros H. destruct (tinsert (if b then r else l) k v) as [c|] eqn:Hc; [|done].
    injection H as <-. assert (forall k2 x, tlookup c k2 = Some x <->
      k2 = k /\ x = v \/ k2 <> k /\ tlookup (if b then r else l) k2 = Some x) as IH by (intros; destruct b; eauto).
    rewrite tlookup_tside, tlookup_branch. split.
    + intros (b' & k' & -> & Hk). destruct (Bool.eqb_spec b b') as [->|Hne].
      * apply IH in Hk as [[-> ->]|[Hne Hk]]; [by left|right]. split; [congruence|eauto].
      * right. split; [congruence|]. exists b', k'. by destruct b, b'.
    + intros [[-> ->]|(Hne & b' & k' & -> & Hk)].
      * exists b, k. rewrite Bool.eqb_reflx, IH. auto.
      * exists b', k'. split; [done|]. destruct (Bool.eqb_spec b b') as [->|Hb]; [|by destruct b, b'].
        apply IH. right. split; [congruence|done].
  - case_bool_decide as Hp.
    + destruct Hp as [k' ->]. rewrite drop_app_length. destruct k' as [|b k']; [done|]. intros H.
      destruct (tinsert c (b :: k') v) as [c'|] eqn:Hc; [|done]. injection H as <-. rewrite !tlookup_ext. split.
      * intros (k3 & -> & [[-> ->]|[Hne Hk]]%(IH _ _ _ _ Hc)); [by left|right]. split; [|eauto]. by intros ->%app_inv_head.
      * intros [[-> ->]|(Hne & k3 & -> & Hk)]; eexists; (split; [done|]); apply (IH _ _ _ _ Hc); [by left|right].
        split; [|done]. congruence.
    + lcp_cases p k. destruct s' as [|b s'], k' as [|b' k']; [done..|]. subst b'. intros [= <-].
      rewrite split_lookup, tlookup_ext. setoid_rewrite tlookup_text. split.
      * intros [?|(k3 & -> & k4 & -> & Hk)]; [by left|right]. split; [apply split_apart|]. exists k4. by rewrite <- app_assoc.
      * intros [?|(Hne & k3 & -> & Hk)]; [by left|right]. exists (s' ++ k3). rewrite <- app_assoc. eauto.
Qed.

Lemma remove_lookup t k t' v k2 x : tremove t k = Some (t', v) ->
  (t' ≫= fun t' => tlookup t' k2) = Some x <-> k2 <> k /\ tlookup t k2 = Some x.
Proof.
  revert k t' v k2 x. induction t as [s w|l IHl r IHr|p c IH]; intros k t' v k2 x; cbn [tremove].
  - case_bool_decide as Hs; [|done]. intros [= <- <-]. subst s. rewrite tlookup_leaf. cbn. naive_solver.
  - destruct k as [|b k]; [done|]. intros H. destruct (tremove (if b then r else l) k) as [[c v']|] eqn:Hc; [|done].
    cbn in H. injection H as <- <-. cbn [mbind option_bind].
    assert (forall k2 x, (c ≫= fun c => tlookup c k2) = Some x <-> k2 <> k /\ tlookup (if b then r else l) k2 = Some x) as IH
      by (intros; destruct b; eauto).
    rewrite tlookup_branch. destruct c as [c|]; cbn [mbind option_bind] in IH.
    + rewrite tlookup_tside. split.
      * intros (b' & k' & -> & Hk). destruct (Bool.eqb_spec b b') as [->|Hb]; [apply IH in Hk as [Hne Hk]|];
          (split; [congruence|]); eexists _, _; (split; [done|]); [done|by destruct b, b'].
      * intros (Hne & b' & k' & -> & Hk). exists b', k'. split; [done|]. destruct (Bool.eqb_spec b b') as [->|Hb];
          [apply IH; split; [congruence|done]|by destruct b, b'].
    + rewrite tlookup_graft. split.
      * intros (k' & -> & Hk). split; [by destruct b|]. exists (negb b), k'. split; [done|]. by destruct b.
      * intros (Hne & b' & k' & -> & Hk). exists k'. destruct (Bool.eqb_spec b b') as [->|Hb].
        -- assert (None = Some x) as Habs by (apply (IH k'); split; [congruence|done]). done.
        -- split; [by destruct b, b'|]. by destruct b, b'.
  - case_bool_decide as Hp; [|done]. destruct Hp as [k' ->]. rewrite drop_app_length. intros H.
    destruct (tremove c k') as [[c' v']|] eqn:Hc; [|done]. cbn in H. injection H as <- <-.
    specialize (IH k' c' v'). rewrite tlookup_ext. destruct c' as [c'|]; cbn [mbind option_bind] in *.
    + rewrite tlookup_graft. split.
      * intros (k3 & -> & [Hne Hk]%IH); [|done]. split; [|eauto]. by intros ->%app_inv_head.
      * intros (Hne & k3 & -> & Hk). exists k3. split; [done|]. apply IH; [done|]. split; [congruence|done].
    + split; [done|]. intros (Hne & k3 & -> & Hk). apply (IH k3 x); [done|]. split; [congruence|done].
Qed.

(** Removal finds exactly the keys that are present. *)
Lemma remove_found t k : tlookup t k = snd <$> tremove t k.
Proof.
  revert k. induction t as [s w|l IHl r IHr|p c IH]; intros k; cbn.
  - by case_bool_decide.
  - destruct k as [|b k]; [done|]. destruct b; [rewrite IHr|rewrite IHl]; by destruct (tremove _ k) as [[]|].
  - case_bool_decide; [|done]. rewrite IH. by destruct (tremove c _) as [[]|].
Qed.

(** ** Shape is kept *)

Lemma canonical_text p t : is_branch t -> canonical t -> canonical (text p t).
Proof. by destruct p. Qed.

Lemma canonical_tside b x y : canonical x -> canonical y -> canonical (tside b x y).
Proof. by destruct b. Qed.

Lemma branch_tside b x y : is_branch (tside b x y).
Proof. by destruct b. Qed.

Lemma canonical_graft p t : p <> [] -> canonical t -> canonical (graft p t).
Proof. destruct t as [s w|l r|q c]; cbn; [done|done|]. intros Hp (_ & Hb & Hc). split_and!; [by destruct p|done..]. Qed.

Lemma depth_text p t : depth (text p t) = (length p + depth t)%nat.
Proof. by destruct p. Qed.

Lemma depth_tside b x y : depth (tside b x y) = S (Nat.max (depth x) (depth y)).
Proof. destruct b; cbn; lia. Qed.

Lemma depth_graft p t : depth (graft p t) = (length p + depth t)%nat.
Proof. destruct t; cbn; rewrite ?length_app; lia. Qed.

Lemma sized_text p t : sized (text p t) <-> sized t.
Proof. by destruct p. Qed.

Lemma sized_tside b x y : sized (tside b x y) <-> sized x /\ sized y.
Proof. destruct b; cbn; tauto. Qed.

Lemma sized_graft p t : sized (graft p t) <-> sized t.
Proof. by destruct t. Qed.

#[local] Hint Resolve canonical_text canonical_tside branch_tside canonical_graft : neutrino.

Lemma side_canonical b l r : canonical l -> canonical r -> canonical (if b : bool then r else l).
Proof. by destruct b. Qed.

#[local] Hint Resolve side_canonical : neutrino.

Lemma insert_canonical t k v t' : canonical t -> tinsert t k v = Some t' -> canonical t' /\ (is_branch t -> is_branch t').
Proof.
  revert k t'. induction t as [s w|l IHl r IHr|p c IH]; intros k t'; cbn [tinsert canonical].
  - intros _. case_bool_decide; [by intros [= <-]|]. destruct (drop (lcp s k) s), (drop (lcp s k) k); try done. intros [= <-].
    split; [|done]. apply canonical_text, canonical_tside; by auto with neutrino.
  - intros [Hl Hr]. destruct k as [|b k]; [done|]. intros H. destruct (tinsert _ k v) as [c|] eqn:Hc; [|done]. injection H as <-.
    assert (canonical c) by (destruct b; [by destruct (IHr _ _ Hr Hc)|by destruct (IHl _ _ Hl Hc)]).
    split; [|auto with neutrino]. destruct b; auto with neutrino.
  - intros (Hp & Hb & Hc). case_bool_decide.
    + destruct (drop (length p) k) as [|b k']; [done|]. intros H'. destruct (tinsert c _ v) as [c'|] eqn:Hc'; [|done]. injection H' as <-.
      destruct (IH _ _ Hc Hc') as [Hcan Hbr]. split; [|done]. cbn. auto.
    + destruct (drop (lcp p k) p), (drop (lcp p k) k); try done. intros [= <-]. split; [|done]. apply canonical_text, canonical_tside; by auto with neutrino.
Qed.

Lemma insert_sized t k v t' : length v = 32%nat -> sized t -> tinsert t k v = Some t' -> sized t'.
Proof.
  intros Hv. revert k t'. induction t as [s w|l IHl r IHr|p c IH]; intros k t'; cbn [tinsert sized].
  - intros Hw. case_bool_decide; [by intros [= <-]|]. destruct (drop (lcp s k) s), (drop (lcp s k) k); try done. intros [= <-].
    by rewrite sized_text, sized_tside.
  - intros [Hl Hr]. destruct k as [|b k]; [done|]. intros H. destruct (tinsert _ k v) as [c|] eqn:Hc; [|done]. injection H as <-.
    rewrite sized_tside. destruct b; eauto.
  - intros Hc. case_bool_decide.
    + destruct (drop (length p) k) as [|b k']; [done|]. intros H'. destruct (tinsert c _ v) as [c'|] eqn:Hc'; [|done]. injection H' as <-.
      cbn. eauto.
    + destruct (drop (lcp p k) p), (drop (lcp p k) k); try done. intros [= <-]. by rewrite sized_text, sized_tside, sized_text.
Qed.

Lemma insert_depth t k v t' : tinsert t k v = Some t' -> (depth t' <= Nat.max (depth t) (length k))%nat.
Proof.
  revert k t'. induction t as [s w|l IHl r IHr|p c IH]; intros k t'; cbn [tinsert depth].
  - case_bool_decide; [intros [= <-]; cbn; lia|]. lcp_cases s k. destruct s' as [|b s'], k' as [|b' k']; try done. intros [= <-].
    rewrite depth_text, depth_tside. cbn. rewrite !length_app. cbn. lia.
  - destruct k as [|b k]; [done|]. intros H. destruct (tinsert _ k v) as [c|] eqn:Hc; [|done]. injection H as <-.
    rewrite depth_tside. cbn. destruct b; [apply IHr in Hc|apply IHl in Hc]; lia.
  - case_bool_decide as Hp.
    + destruct Hp as [k' ->]. rewrite drop_app_length, length_app. destruct k' as [|b k']; [done|]. intros H'.
      destruct (tinsert c _ v) as [c'|] eqn:Hc'; [|done]. injection H' as <-. apply IH in Hc'. cbn in *. lia.
    + lcp_cases p k. destruct s' as [|b s'], k' as [|b' k']; try done. intros [= <-].
      rewrite depth_text, depth_tside, depth_text. cbn. rewrite !length_app. cbn. lia.
Qed.

Lemma remove_canonical t k t' v : canonical t -> tremove t k = Some (Some t', v) -> canonical t'.
Proof.
  revert k t' v. induction t as [s w|l IHl r IHr|p c IH]; intros k t' v; cbn [tremove canonical].
  - by case_bool_decide.
  - intros [Hl Hr]. destruct k as [|b k]; [done|]. intros H. destruct (tremove _ k) as [[c v']|] eqn:Hc; [|done].
    cbn in H. injection H as <- <-. destruct c as [c|]; [|destruct b; auto with neutrino].
    assert (canonical c) by (destruct b; eauto). destruct b; auto with neutrino.
  - intros (Hp & Hb & Hc). case_bool_decide; [|done]. intros H'. destruct (tremove c _) as [[[c'|] v']|] eqn:Hc'; try done.
    cbn in H'. injection H' as <- <-. eauto with neutrino.
Qed.

Lemma remove_sized t k t' v : sized t -> tremove t k = Some (Some t', v) -> sized t'.
Proof.
  revert k t' v. induction t as [s w|l IHl r IHr|p c IH]; intros k t' v; cbn [tremove sized].
  - by case_bool_decide.
  - intros [Hl Hr]. destruct k as [|b k]; [done|]. intros H. destruct (tremove _ k) as [[c v']|] eqn:Hc; [|done].
    cbn in H. injection H as <- <-. destruct c as [c|]; [|rewrite sized_graft; by destruct b].
    rewrite sized_tside. destruct b; eauto.
  - intros Hc. case_bool_decide; [|done]. intros H'. destruct (tremove c _) as [[[c'|] v']|] eqn:Hc'; try done.
    cbn in H'. injection H' as <- <-. rewrite sized_graft. eauto.
Qed.

Lemma remove_depth t k t' v : tremove t k = Some (Some t', v) -> (depth t' <= depth t)%nat.
Proof.
  revert k t' v. induction t as [s w|l IHl r IHr|p c IH]; intros k t' v; cbn [tremove depth].
  - by case_bool_decide.
  - destruct k as [|b k]; [done|]. intros H. destruct (tremove _ k) as [[c v']|] eqn:Hc; [|done].
    cbn in H. injection H as <- <-. destruct c as [c|].
    + rewrite depth_tside. destruct b; [apply IHr in Hc|apply IHl in Hc]; lia.
    + rewrite depth_graft. destruct b; cbn; lia.
  - case_bool_decide; [|done]. intros H'. destruct (tremove c _) as [[[c'|] v']|] eqn:Hc'; try done.
    cbn in H'. injection H' as <- <-. rewrite depth_graft. apply IH in Hc'. lia.
Qed.

Lemma insert_shaped t k v t' : length v = 32%nat -> N.of_nat (length k) <= U32_MAX ->
  shaped t -> tinsert t k v = Some t' -> shaped t'.
Proof.
  intros Hv Hk [Hc Hs Hd] Ht. constructor; [by destruct (insert_canonical _ _ _ _ Hc Ht)|by eapply insert_sized|].
  apply insert_depth in Ht. lia.
Qed.

Lemma remove_shaped t k t' v : shaped t -> tremove t k = Some (Some t', v) -> shaped t'.
Proof.
  intros [Hc Hs Hd] Ht. constructor; [by eapply remove_canonical|by eapply remove_sized|]. apply remove_depth in Ht. lia.
Qed.

(** ** Insertion succeeds on prefix-free keys *)

Lemma tree_has_key t : exists k v, tlookup t k = Some v.
Proof.
  induction t as [s w|l (k & v & Hl) r _|p c (k & v & Hc)].
  - exists s, w. by apply tlookup_leaf.
  - exists (false :: k), v. by apply tlookup_branch; exists false, k.
  - exists (p ++ k), v. apply tlookup_ext. eauto.
Qed.

(** [k] is one of the keys of the tree or no prefix of one, nor the converse. *)
Definition fresh_in (t : tree) (k : list bool) : Prop :=
  forall k2 x, tlookup t k2 = Some x -> k2 `prefix_of` k \/ k `prefix_of` k2 -> k2 = k.

Lemma insert_succeeds t k v : canonical t -> fresh_in t k -> is_Some (tinsert t k v).
Proof.
  unfold fresh_in. revert k. induction t as [s w|l IHl r IHr|p c IH]; intros k; cbn [tinsert canonical].
  - intros _ Hk. case_bool_decide as Hs; [eauto|]. specialize (Hk s w (proj2 (tlookup_leaf _ _ _ _) (conj eq_refl eq_refl))).
    lcp_cases s k. destruct s' as [|b s'], k' as [|b' k']; eauto; destruct Hs; apply Hk; [left..|right];
      rewrite ?app_nil_r; by apply prefix_app_r || done.
  - intros [Hl Hr] Hk. destruct k as [|b k].
    { destruct (tree_has_key (TBranch l r)) as (k2 & x & Hx). pose proof (Hk _ _ Hx (or_intror (prefix_nil _))) as ->. done. }
    assert (is_Some (tinsert (if b then r else l) k v)) as [c ->]; [|eauto].
    assert (forall k2 x, tlookup (if b then r else l) k2 = Some x -> k2 `prefix_of` k \/ k `prefix_of` k2 -> k2 = k) as Hk'.
    { intros k2 x Hx Hpre. assert (b :: k2 = b :: k) as Heq; [|congruence]. apply (Hk (b :: k2) x).
      - apply tlookup_branch. eauto.
      - destruct Hpre; [left|right]; by apply prefix_cons. }
    destruct b; auto.
  - intros (_ & Hb & Hc) Hk. case_bool_decide as Hp.
    + destruct Hp as [k' ->]. rewrite drop_app_length.
      assert (forall k2 x, tlookup c k2 = Some x -> k2 `prefix_of` k' \/ k' `prefix_of` k2 -> k2 = k') as Hk'.
      { intros k2 x Hx Hpre. apply (app_inv_head p). apply (Hk (p ++ k2) x); [apply tlookup_ext; eauto|].
        destruct Hpre; [left|right]; by apply prefix_app. }
      destruct k' as [|b k']; [|destruct (IH _ Hc Hk') as [c' ->]; eauto].
      destruct (tree_has_key c) as (k2 & x & Hx). pose proof (Hk' _ _ Hx (or_intror (prefix_nil _))) as ->. by destruct c.
    + destruct (tree_has_key c) as (k2 & x & Hx).
      assert (p ++ k2 `prefix_of` k \/ k `prefix_of` p ++ k2 -> p ++ k2 = k) as Hpk by (apply (Hk _ x), tlookup_ext; eauto).
      lcp_cases p k. destruct s' as [|b s'], k' as [|b' k']; eauto; destruct Hp; [apply prefix_app, prefix_nil..|].
      rewrite <- Hpk; [by apply prefix_app_r|]. right. rewrite <- app_assoc. apply prefix_app, prefix_nil.
Qed.

(** ** A canonical tree is determined by its content *)

Lemma branch_key t b : is_branch t -> exists k v, tlookup t (b :: k) = Some v.
Proof. destruct t as [|l r|]; [done| |done]. intros _. destruct b; cbn; apply tree_has_key. Qed.

Lemma ext_prefix_determined p q c d :
  is_branch c -> is_branch d -> (forall k, tlookup (TExt p c) k = tlookup (TExt q d) k) -> p `prefix_of` q.
Proof.
  intros Hc Hd Heq. assert (forall b, exists k k', p ++ b :: k = q ++ k') as Hkeys.
  { intros b. destruct (branch_key c b Hc) as (k & v & Hv).
    assert (tlookup (TExt q d) (p ++ b :: k) = Some v) as Hq by (rewrite <- Heq; apply tlookup_ext; eauto).
    apply tlookup_ext in Hq as (k' & Hk & _). eauto. }
  destruct (lcp_view p q) as (c0 & p' & q' & -> & -> & _ & Hd'). destruct p' as [|b p']; [apply prefix_app, prefix_nil|].
  destruct q' as [|b' q'].
  - destruct (branch_key d (negb b) Hd) as (k & v & Hv).
    assert (tlookup (TExt (c0 ++ b :: p') c) ((c0 ++ []) ++ negb b :: k) = Some v) as Hp by (rewrite Heq; apply tlookup_ext; eauto).
    apply tlookup_ext in Hp as (k' & Hk & _). rewrite app_nil_r, <- app_assoc in Hk. symmetry in Hk. by apply split_apart in Hk.
  - subst b'. destruct (Hkeys true) as (k & k' & Hk). rewrite <- !app_assoc in Hk. by apply split_apart in Hk.
Qed.

Lemma ext_two_keys p c : is_branch c -> exists k1 k2 v1 v2,
  tlookup (TExt p c) (p ++ true :: k1) = Some v1 /\ tlookup (TExt p c) (p ++ false :: k2) = Some v2.
Proof.
  intros Hc. destruct (branch_key c true Hc) as (k1 & v1 & H1), (branch_key c false Hc) as (k2 & v2 & H2).
  exists k1, k2, v1, v2. rewrite !tlookup_ext. split; eauto.
Qed.

Lemma leaf_not_ext s w p c : is_branch c -> ~ (forall k, tlookup (TLeaf s w) k = tlookup (TExt p c) k).
Proof.
  intros Hc Heq. destruct (ext_two_keys p c Hc) as (k1 & k2 & v1 & v2 & H1 & H2). rewrite <- Heq in H1, H2.
  apply tlookup_leaf in H1 as [<- _], H2 as [H2 _]. by apply app_inv_head in H2.
Qed.

Lemma leaf_not_branch s w l r : ~ (forall k, tlookup (TLeaf s w) k = tlookup (TBranch l r) k).
Proof.
  intros Heq. destruct (branch_key (TBranch l r) true I) as (k1 & v1 & H1), (branch_key (TBranch l r) false I) as (k2 & v2 & H2).
  rewrite <- Heq in H1, H2. apply tlookup_leaf in H1 as [<- _], H2 as [H2 _]. done.
Qed.

Lemma branch_not_ext l r p c : p <> [] -> ~ (forall k, tlookup (TBranch l r) k = tlookup (TExt p c) k).
Proof.
  intros Hp Heq. destruct p as [|b p]; [done|]. destruct (branch_key (TBranch l r) (negb b) I) as (k & v & Hk).
  rewrite Heq in Hk. apply tlookup_ext in Hk as (k' & Hk & _). by destruct b.
Qed.

Lemma canonical_unique t1 t2 : canonical t1 -> canonical t2 -> (forall k, tlookup t1 k = tlookup t2 k) -> t1 = t2.
Proof.
  revert t2. induction t1 as [s w|l IHl r IHr|p c IH]; intros [s' w'|l' r'|p' c'] H1 H2 Heq; cbn in H1, H2; destruct_and?.
  - assert (tlookup (TLeaf s' w') s = Some w) as Hs by (rewrite <- Heq; by apply tlookup_leaf).
    by apply tlookup_leaf in Hs as [-> ->].
  - by apply leaf_not_branch in Heq.
  - by apply leaf_not_ext in Heq.
  - exfalso. by eapply leaf_not_branch.
  - f_equal; [apply IHl|apply IHr]; try done; intros k; [apply (Heq (false :: k))|apply (Heq (true :: k))].
  - by apply branch_not_ext in Heq.
  - exfalso. by eapply leaf_not_ext.
  - exfalso. by eapply branch_not_ext.
  - assert (p = p') as <-.
    { apply (anti_symm prefix); [by apply (ext_prefix_determined _ _ c c')|by apply (ext_prefix_determined _ _ c' c)]. }
    f_equal. apply IH; [done..|]. intros k. specialize (Heq (p ++ k)). cbn in Heq.
    by rewrite bool_decide_true, drop_app_length in Heq by (by apply prefix_app_r).
Qed.
