(* ===== verification/TrieStore.v ===== *)
(** * Trie operations compute the tree functions

    The nodes of a tree in a store, and the lemmas that insertion, removal and the
    walks of file Trie, run on a store that holds the nodes on a key's path, return
    the hashes of the trees of file TrieSpec and store the new nodes.  Only the
    nodes on the path (and the siblings, for a removal) are needed, so the lemmas
    apply to the full trie of a host and to the partial trie of a guest. *)

From S2P Require Import Prelude Primitives Bits TrieNode Trie TrieSpec.

#[global] Arguments ZERO_HASH : simpl never.

Section Store.
Context `{Hasher} `{!HasherLaws}.

(** ** Trees in a store *)

Fixpoint tree_node (t : tree) : Node :=
  match t with
  | TLeaf s v => NodeLeaf (pack s) v
  | TBranch l r => NodeBranch (hash_node (Node_encode (tree_node l))) (hash_node (Node_encode (tree_node r)))
  | TExt p c => NodeExtension (pack p) (hash_node (Node_encode (tree_node c)))
  end.

Definition tree_bytes (t : tree) : bytes := Node_encode (tree_node t).
Definition tree_hash (t : tree) : Hash := hash_node (tree_bytes t).
Definition root_hash (o : option tree) : Hash := match o with Some t => tree_hash t | None => ZERO_HASH end.

(** The store holds the root node of [t]. *)
Definition has (nodes : gmap Hash bytes) (t : tree) : Prop :=
  nodes !! tree_hash t = Some (tree_bytes t) /\ tree_hash t <> ZERO_HASH.

(** [P] holds of the nodes on the path of [k]. *)
Fixpoint reach (P : tree -> Prop) (t : tree) (k : list bool) : Prop :=
  P t /\ match t with
         | TLeaf _ _ => True
         | TBranch l r => match k with [] => True | b :: k => reach P (if b then r else l) k end
         | TExt p c => p `prefix_of` k -> reach P c (drop (length p) k)
         end.

(** ... and of the siblings next to it. *)
Fixpoint cover (P : tree -> Prop) (t : tree) (k : list bool) : Prop :=
  P t /\ match t with
         | TLeaf _ _ => True
         | TBranch l r =>
             match k with [] => True | b :: k => P (if b then l else r) /\ cover P (if b then r else l) k end
         | TExt p c => p `prefix_of` k -> cover P c (drop (length p) k)
         end.

(** [P] holds of every node. *)
Fixpoint everywhere (P : tree -> Prop) (t : tree) : Prop :=
  P t /\ match t with
         | TLeaf _ _ => True
         | TBranch l r => everywhere P l /\ everywhere P r
         | TExt _ c => everywhere P c
         end.

Lemma reach_root P t k : reach P t k -> P t.
Proof. destruct t; by intros [? _]. Qed.

Lemma cover_reach P t k : cover P t k -> reach P t k.
Proof.
  revert k. induction t as [s w|l IHl r IHr|p c IH]; intros k; cbn; [done| |].
  - intros [Ht Hk]. split; [done|]. destruct k as [|b k]; [done|]. destruct Hk as [_ Hk]. destruct b; auto.
  - intros [Ht Hk]. split; [done|]. auto.
Qed.

Lemma everywhere_root P t : everywhere P t -> P t.
Proof. destruct t; by intros [? _]. Qed.

Lemma everywhere_cover P t k : everywhere P t -> cover P t k.
Proof.
  revert k. induction t as [s w|l IHl r IHr|p c IH]; intros k; cbn; [done| |].
  - intros [Ht [Hl Hr]]. split; [done|]. destruct k as [|b k]; [done|]. destruct b; (split; [by apply everywhere_root|auto]).
  - intros [Ht Hc]. split; [done|]. auto.
Qed.

Lemma reach_mono (P Q : tree -> Prop) t k : (forall t, P t -> Q t) -> reach P t k -> reach Q t k.
Proof.
  intros HPQ. revert k. induction t as [s w|l IHl r IHr|p c IH]; intros k; cbn; intros [Ht Hk]; (split; [by apply HPQ|]); [done| |auto].
  destruct k as [|b k]; [done|]. destruct b; auto.
Qed.

Lemma cover_mono (P Q : tree -> Prop) t k : (forall t, P t -> Q t) -> cover P t k -> cover Q t k.
Proof.
  intros HPQ. revert k. induction t as [s w|l IHl r IHr|p c IH]; intros k; cbn; intros [Ht Hk]; (split; [by apply HPQ|]); [done| |auto].
  destruct k as [|b k]; [done|]. destruct Hk as [Hs Hk]. split; [by apply HPQ|]. destruct b; auto.
Qed.

Lemma everywhere_mono (P Q : tree -> Prop) t : (forall t, P t -> Q t) -> everywhere P t -> everywhere Q t.
Proof. intros HPQ. induction t as [s w|l IHl r IHr|p c IH]; cbn; naive_solver. Qed.

Lemma has_mono (m m' : gmap Hash bytes) t : m ⊆ m' -> has m t -> has m' t.
Proof. intros Hm [Ht Hz]. split; [by eapply lookup_weaken|done]. Qed.

(** ** Node encodings *)

Lemma length_tree_hash t : length (tree_hash t) = 32%nat.
Proof. apply hash_node_length. Qed.

Lemma tree_node_wf t : sized t -> N.of_nat (depth t) <= U32_MAX -> node_wf (tree_node t).
Proof.
  destruct t as [s w|l r|p c]; cbn [tree_node node_wf sized depth]; intros Hs Hd.
  - split; [|done]. apply pack_spec. unfold len. lia.
  - split; apply hash_node_length.
  - split; [|apply hash_node_length]. apply pack_spec. unfold len. lia.
Qed.

Lemma fetch_has nodes t : shaped t -> has nodes t -> fetch_node nodes (tree_hash t) = Ok (tree_node t).
Proof.
  intros [_ Hs Hd] [Ht _]. unfold fetch_node. rewrite Ht. cbn. unfold tree_bytes.
  by rewrite node_decode_encode by (by apply tree_node_wf).
Qed.

Lemma shaped_branch l r : shaped (TBranch l r) -> shaped l /\ shaped r.
Proof. intros [[Hcl Hcr] [Hsl Hsr] Hd]. cbn in Hd. split; constructor; try done; lia. Qed.

Lemma shaped_side (b : bool) l r : shaped (TBranch l r) -> shaped (if b then r else l).
Proof. intros [Hl Hr]%shaped_branch. by destruct b. Qed.

Lemma shaped_ext p c : shaped (TExt p c) -> p <> [] /\ is_branch c /\ shaped c.
Proof. intros [(Hp & Hb & Hc) Hs Hd]. cbn in Hd. split_and!; [done..|]. constructor; try done. lia. Qed.

(** ** Runs without collisions *)

Lemma collect_map_snoc l h b : collect_map (l ++ [(h, b)]) = <[h := b]> (collect_map l).
Proof. unfold collect_map. by rewrite foldl_app. Qed.

(** What a run changes: the node store grows, and its pending list with it. *)
Record grown (tr tr' : Trie) : Prop := {
  gr_nodes : tr_nodes tr ⊆ tr_nodes tr';
  gr_pending_nodes : forall base, collect_map (base ++ tr_pending_nodes tr) = tr_nodes tr ->
    collect_map (base ++ tr_pending_nodes tr') = tr_nodes tr';
  gr_values : tr_values tr' = tr_values tr;
  gr_pending_values : tr_pending_values tr' = tr_pending_values tr;
  gr_root : tr_root tr' = tr_root tr;
}.

Lemma grown_refl tr : grown tr tr.
Proof. by constructor. Qed.

Lemma grown_trans a b c : grown a b -> grown b c -> grown a c.
Proof. intros [] []. constructor; [by etrans|auto|congruence..]. Qed.

(** The run of [p] ends, unless it meets a collision, with [Q]. *)
Definition pwp {A} (p : prog A) (tr : Trie) (Q : A -> Trie -> Prop) : Prop :=
  clash_free p tr = true -> exists a tr', run_trie p tr = Ok (a, tr') /\ grown tr tr' /\ Q a tr'.

Lemma run_trie_bind {A B} (p : prog A) (f : A -> prog B) tr :
  run_trie (p ≫= f) tr = match run_trie p tr with Ok (a, tr') => run_trie (f a) tr' | Err e => Err e end.
Proof.
  revert tr. induction p as [a|e|h k IH|n k IH]; intros tr; cbn; [done|done| |apply IH].
  destruct (fetch_node _ h); cbn; [apply IH|done].
Qed.

Lemma clash_free_bind {A B} (p : prog A) (f : A -> prog B) tr :
  clash_free (p ≫= f) tr
  = clash_free p tr && match run_trie p tr with Ok (a, tr') => clash_free (f a) tr' | Err _ => true end.
Proof.
  revert tr. induction p as [a|e|h k IH|n k IH]; intros tr; cbn; [done|done| |].
  - destruct (fetch_node _ h); cbn; [apply IH|done].
  - by rewrite IH, andb_assoc.
Qed.

Lemma pwp_bind {A B} (p : prog A) (f : A -> prog B) tr Q R :
  pwp p tr Q -> (forall a tr', grown tr tr' -> Q a tr' -> pwp (f a) tr' R) -> pwp (p ≫= f) tr R.
Proof.
  intros Hp Hf. unfold pwp. rewrite clash_free_bind, run_trie_bind. intros [Hc1 Hc2]%andb_true_iff.
  destruct (Hp Hc1) as (a & tr' & Hrun & Hg & HQ). rewrite Hrun in *.
  destruct (Hf a tr' Hg HQ Hc2) as (b & tr'' & -> & Hg' & HR).
  exists b, tr''. split_and!; [done|by eapply grown_trans|done].
Qed.

Lemma pwp_ret {A} (a : A) tr (Q : A -> Trie -> Prop) : Q a tr -> pwp (PRet a) tr Q.
Proof. intros HQ _. eauto using grown_refl. Qed.

Lemma pwp_mono {A} (p : prog A) tr (Q R : A -> Trie -> Prop) :
  pwp p tr Q -> (forall a tr', grown tr tr' -> Q a tr' -> R a tr') -> pwp p tr R.
Proof. intros Hp HQR Hc. destruct (Hp Hc) as (a & tr' & ? & ? & ?). eauto 6. Qed.

Lemma pwp_checked {A B} (o : option A) x (f : A -> prog B) tr Q :
  o = Some x -> pwp (f x) tr Q -> pwp (checked o ≫= f) tr Q.
Proof. by intros ->. Qed.

Lemma pwp_fetch {A} t (k : Node -> prog A) tr Q :
  shaped t -> has (tr_nodes tr) t -> pwp (k (tree_node t)) tr Q -> pwp (fetch (tree_hash t) ≫= k) tr Q.
Proof. intros Hs Ht Hk. unfold pwp in *. cbn. by rewrite fetch_has. Qed.

Lemma store_grown n tr :
  entry_free (tr_nodes tr) (hash_node (Node_encode n)) (Node_encode n) = true -> grown tr (store_node n tr).2.
Proof.
  unfold entry_free. intros Hf. constructor; [..|done|done|done]; cbn.
  - destruct (tr_nodes tr !! _) as [l|] eqn:Hl; [|by apply insert_subseteq].
    apply bool_decide_eq_true in Hf as ->. by rewrite insert_id.
  - intros base Hbase. destruct (tr_nodes tr !! _) as [l|] eqn:Hl; [|by rewrite app_assoc, collect_map_snoc, Hbase].
    apply bool_decide_eq_true in Hf as ->. by rewrite insert_id.
Qed.

(** Storing the root node of [t]. *)
Lemma pwp_store {A} t (k : Hash -> prog A) tr Q :
  (forall tr', grown tr tr' -> has (tr_nodes tr') t -> pwp (k (tree_hash t)) tr' Q) ->
  pwp (store (tree_node t) ≫= k) tr Q.
Proof.
  intros Hk. unfold pwp. cbn. intros [[Hz Hf]%andb_true_iff Hc]%andb_true_iff.
  apply negb_true_iff, bool_decide_eq_false in Hz. pose proof (store_grown _ _ Hf) as Hg.
  destruct (Hk _ Hg) as (a & tr' & Hrun & Hg' & HQ); [|exact Hc|exists a, tr'; split_and!; [done|by eapply grown_trans|done]].
  split; [|done]. cbn. apply lookup_insert_eq.
Qed.

Lemma pwp_store_ret t tr (Q : Hash -> Trie -> Prop) :
  (forall tr', grown tr tr' -> has (tr_nodes tr') t -> Q (tree_hash t) tr') -> pwp (store (tree_node t)) tr Q.
Proof.
  intros HQ. assert (pwp (store (tree_node t) ≫= PRet) tr Q) as Hp; [|exact Hp].
  apply pwp_store. intros tr' Hg Ht. apply pwp_ret. auto.
Qed.

(** ** Insertion *)

Lemma leaf_node q w : path_wf q -> NodeLeaf q w = tree_node (TLeaf (bits q) w).
Proof. intros Hq. cbn. by rewrite pack_bits. Qed.

Lemma ext_node q c : path_wf q -> NodeExtension q (tree_hash c) = tree_node (TExt (bits q) c).
Proof. intros Hq. cbn. by rewrite pack_bits. Qed.

Lemma branch_node b x y : branch_of b (tree_hash x) (tree_hash y) = tree_node (tside b x y).
Proof. by destruct b. Qed.

(** The result of inserting [v] at [k] below [t]. *)
Definition inserted (t : tree) (k : list bool) (v : Hash) (r : result TrieError Hash) (tr : Trie) : Prop :=
  match tinsert t k v with
  | Some t' => r = Ok (tree_hash t') /\ Forall (has (tr_nodes tr)) (insert_nodes t k v)
  | None => r = Err PrefixCollision
  end.

Lemma has_all_mono tr tr' l : grown tr tr' -> Forall (has (tr_nodes tr)) l -> Forall (has (tr_nodes tr')) l.
Proof. intros Hg Hl. eapply Forall_impl; [exact Hl|]. intros t. apply has_mono, Hg. Qed.

(** The top of a split: an extension unless the keys part at once. *)
Lemma split_top path (n : nat) t tr l (Q : result TrieError Hash -> Trie -> Prop) :
  path_wf path -> (n <= length (bits path))%nat -> has (tr_nodes tr) t -> Forall (has (tr_nodes tr)) l ->
  (forall tr', grown tr tr' -> Forall (has (tr_nodes tr')) (l ++ split_nodes (take n (bits path)) t) ->
     Q (Ok (tree_hash (text (take n (bits path)) t))) tr') ->
  pwp (if N.of_nat n =? 0 then PRet (Ok (tree_hash t))
       else prefix ← checked (BitPath_prefix path (N.of_nat n));
            h ← store (NodeExtension prefix (tree_hash t)); PRet (Ok h)) tr Q.
Proof.
  intros Hp Hn Ht Hl HQ. rewrite length_bits in Hn. destruct (N.eqb_spec (N.of_nat n) 0) as [Hz|Hz].
  - assert (n = 0%nat) as -> by lia. apply pwp_ret. apply (HQ tr); [apply grown_refl|]. apply Forall_app. by split; [|constructor].
  - destruct (prefix_spec path (N.of_nat n) Hp ltac:(lia)) as (q & Hq & Hqw & Hqb). rewrite Nat2N.id in Hqb.
    apply (pwp_checked _ q); [done|]. rewrite ext_node, Hqb by done. apply pwp_store. intros tr' Hg Hext. apply pwp_ret.
    specialize (HQ tr' Hg). destruct (take n (bits path)) as [|b p'] eqn:Htake.
    + apply (f_equal length) in Htake. rewrite length_take, length_bits in Htake. cbn in Htake. lia.
    + apply HQ. apply Forall_app. split; [by eapply has_all_mono|]. unfold split_nodes.
      apply Forall_cons_2; [eapply has_mono, Ht; apply Hg|]. by apply Forall_singleton.
Qed.

(** The bits of a path from [n] on, when there is one. *)
Lemma tail_spec p (n : nat) b k : path_wf p -> drop n (bits p) = b :: k ->
  BitPath_bit p (N.of_nat n) = Some b
  /\ exists q, BitPath_suffix p (N.of_nat n + 1) = Some q /\ path_wf q /\ bits q = k.
Proof.
  intros Hp Hd. assert (n < length (bits p))%nat as Hn.
  { apply (f_equal length) in Hd. rewrite length_drop in Hd. cbn in Hd. lia. }
  rewrite length_bits in Hn. split.
  - destruct (bit_spec p (N.of_nat n) Hp ltac:(lia)) as (b' & -> & Hb'). rewrite Nat2N.id in Hb'.
    apply (f_equal head) in Hd. rewrite head_lookup, lookup_drop, Nat.add_0_r, Hb' in Hd. cbn in Hd. congruence.
  - destruct (suffix_spec p (N.of_nat n + 1) Hp ltac:(lia)) as (q & -> & Hq & Hbits). exists q. split_and!; [done..|].
    rewrite Hbits. replace (N.to_nat (N.of_nat n + 1)) with (n + 1)%nat by lia. rewrite <- drop_drop, Hd. done.
Qed.

Lemma lcp_le a b : (lcp a b <= length a)%nat /\ (lcp a b <= length b)%nat.
Proof. destruct (lcp_view a b) as (c & a' & b' & -> & -> & -> & _). rewrite !length_app. lia. Qed.

Lemma drop_nil_iff {A} n (l : list A) : (n <= length l)%nat -> drop n l = [] <-> n = length l.
Proof. intros Hn. split; [|intros ->; by rewrite drop_all]. intros Hd. apply (f_equal length) in Hd. rewrite length_drop in Hd. cbn in Hd. lia. Qed.

Lemma insert_into_leaf_spec es w path v tr : path_wf es -> path_wf path ->
  pwp (insert_into_leaf es w path v) tr (inserted (TLeaf (bits es) w) (bits path) v).
Proof.
  intros Hes Hp. unfold insert_into_leaf. destruct ((bp_len es =? bp_len path) && bool_decide (es = path)) eqn:Heq.
  - apply andb_true_iff in Heq as [_ ->%bool_decide_eq_true]. rewrite leaf_node by done. apply pwp_store. intros tr' Hg Ht.
    apply pwp_ret. unfold inserted. cbn. rewrite !bool_decide_true by done. split; [done|]. by constructor.
  - assert (bits es <> bits path) as Hne.
    { intros Hb. apply bits_inj in Hb as ->; [|done..]. by rewrite N.eqb_refl, bool_decide_true in Heq. }
    destruct (lcp_le (bits es) (bits path)) as [Hle1 Hle2].
    apply (pwp_checked _ _ _ _ _ (common_prefix_spec es path Hes Hp)). set (n := lcp (bits es) (bits path)) in *.
    rewrite <- (len_bits es), <- (len_bits path). unfold len, inserted. cbn [tinsert insert_nodes].
    rewrite !bool_decide_false by done. fold n.
    destruct (drop n (bits es)) as [|b s'] eqn:Hs.
    { apply drop_nil_iff in Hs as ->; [|done]. rewrite N.eqb_refl. by apply pwp_ret. }
    destruct (drop n (bits path)) as [|b' k'] eqn:Hk.
    { apply drop_nil_iff in Hk as ->; [|done]. rewrite N.eqb_refl, orb_true_r. by apply pwp_ret. }
    assert ((N.of_nat n =? N.of_nat (length (bits es))) || (N.of_nat n =? N.of_nat (length (bits path))) = false) as ->.
    { apply orb_false_iff. split; apply N.eqb_neq; intros Hn%Nat2N.inj; rewrite Hn in *; by rewrite drop_all in *. }
    destruct (tail_spec es n b s' Hes Hs) as (Hbit & q1 & Hq1 & Hw1 & Hb1).
    destruct (tail_spec path n b' k' Hp Hk) as (_ & q2 & Hq2 & Hw2 & Hb2).
    apply (pwp_checked _ _ _ _ _ Hbit), (pwp_checked _ _ _ _ _ Hq1), (pwp_checked _ _ _ _ _ Hq2).
    rewrite !leaf_node, Hb1, Hb2 by done.
    apply pwp_store. intros tr1 Hg1 Ht1. apply pwp_store. intros tr2 Hg2 Ht2. rewrite branch_node.
    apply pwp_store. intros tr3 Hg3 Ht3. apply (split_top _ _ _ _ [TLeaf s' w; TLeaf k' v]); [done|lia|done| |done].
    apply Forall_cons_2; [|apply Forall_singleton]; eapply has_mono; [|exact Ht1| |exact Ht2];
      [apply (grown_trans _ _ _ Hg2 Hg3)|apply Hg3].
Qed.

(** The bits of a path from an offset on. *)
Definition from (path : BitPath) (offset : N) : list bool := drop (N.to_nat offset) (bits path).

Lemma length_from path offset : length (from path offset) = N.to_nat (bp_len path - offset).
Proof. unfold from. rewrite length_drop, length_bits. lia. Qed.

Lemma from_add path a b : from path (a + b) = drop (N.to_nat b) (from path a).
Proof. unfold from. rewrite drop_drop. f_equal. lia. Qed.

Lemma from_bit path offset : path_wf path -> offset < bp_len path ->
  exists b, BitPath_bit path offset = Some b /\ from path offset = b :: from path (offset + 1).
Proof.
  intros Hp Ho. destruct (bit_spec path offset Hp Ho) as (b & Hb & Hl). exists b. split; [done|].
  rewrite from_add. unfold from in *. by rewrite (drop_S _ b _ Hl).
Qed.

Lemma from_empty path offset : bp_len path <= offset -> from path offset = [].
Proof. intros Ho. apply length_zero_iff_nil. rewrite length_from. lia. Qed.

(** The recursive call below a branch or an extension, then the node above. *)
Lemma pwp_child c k v (f : tree -> tree) (ins : prog (result TrieError Hash)) (node : Hash -> Node) tr Q :
  pwp ins tr (inserted c k v) ->
  (forall c', node (tree_hash c') = tree_node (f c')) ->
  (forall c' tr', tinsert c k v = Some c' -> Forall (has (tr_nodes tr')) (insert_nodes c k v ++ [f c']) ->
     Q (Ok (tree_hash (f c'))) tr') ->
  (forall tr', tinsert c k v = None -> Q (Err PrefixCollision) tr') ->
  pwp (p_try ins (fun new_child => h ← store (node new_child); PRet (Ok h))) tr Q.
Proof.
  intros Hins Hnode HQ Herr. eapply pwp_bind; [exact Hins|]. intros r tr1 _ Hr. unfold inserted in Hr.
  destruct (tinsert c k v) as [c'|] eqn:Hc; [destruct Hr as [-> Hall]|subst r; by apply pwp_ret, Herr].
  rewrite Hnode. apply pwp_store. intros tr2 Hg Ht. apply pwp_ret, HQ; [done|].
  apply Forall_app. split; [by eapply has_all_mono|by apply Forall_singleton].
Qed.

(** Inserting a key that leaves inside an extension. *)
Lemma split_extension_spec p c q v tr :
  len p <= U32_MAX -> path_wf q -> ~ p `prefix_of` bits q ->
  pwp (common ← checked (BitPath_common_prefix_len (pack p) q);
       if common =? bp_len q then PRet (Err PrefixCollision)
       else
         existing_bit ← checked (BitPath_bit (pack p) common);
         existing_tail ← checked (BitPath_suffix (pack p) (common + 1));
         new_tail ← checked (BitPath_suffix q (common + 1));
         existing_side_hash ← (if BitPath_is_empty existing_tail then PRet (tree_hash c)
                               else store (NodeExtension existing_tail (tree_hash c)));
         new_leaf_hash ← store (NodeLeaf new_tail v);
         branch_hash ← store (branch_of existing_bit existing_side_hash new_leaf_hash);
         if common =? 0 then PRet (Ok branch_hash)
         else
           prefix ← checked (BitPath_prefix q common);
           h ← store (NodeExtension prefix branch_hash); PRet (Ok h)) tr
    (inserted (TExt p c) (bits q) v).
Proof.
  intros Hlen Hqw Hpre. destruct (pack_spec p Hlen) as [Hpw Hpb].
  unfold inserted. cbn [tinsert insert_nodes]. rewrite !bool_decide_false by done.
  apply (pwp_checked _ _ _ _ _ (common_prefix_spec (pack p) q Hpw Hqw)). rewrite Hpb.
  destruct (lcp_le p (bits q)) as [Hle1 Hle2]. set (n := lcp p (bits q)) in *.
  rewrite <- (len_bits q). unfold len at 1.
  destruct (drop n p) as [|b p'] eqn:Hs.
  { apply drop_nil_iff in Hs; [|done]. destruct (lcp_view p (bits q)) as (c0 & p' & q' & Hp0 & Hq0 & Hn & _).
    destruct Hpre. rewrite Hq0. fold n in Hn. rewrite Hs in Hn. rewrite Hp0, length_app in Hn.
    destruct p'; [|cbn in Hn; lia]. rewrite Hp0, app_nil_r. by apply prefix_app_r. }
  destruct (drop n (bits q)) as [|b' k'] eqn:Hk.
  { apply drop_nil_iff in Hk as ->; [|done]. rewrite N.eqb_refl. by apply pwp_ret. }
  assert ((N.of_nat n =? N.of_nat (length (bits q))) = false) as ->.
  { apply N.eqb_neq. intros Hn%Nat2N.inj. rewrite Hn in *. by rewrite drop_all in *. }
  destruct (tail_spec (pack p) n b p' Hpw) as (Hbit & q1 & Hq1 & Hw1 & Hb1); [by rewrite Hpb|].
  destruct (tail_spec q n b' k' Hqw Hk) as (_ & q2 & Hq2 & Hw2 & Hb2).
  apply (pwp_checked _ _ _ _ _ Hbit), (pwp_checked _ _ _ _ _ Hq1), (pwp_checked _ _ _ _ _ Hq2).
  eapply (pwp_bind _ _ _ (fun h tr1 => h = tree_hash (text p' c)
    /\ Forall (has (tr_nodes tr1)) match p' with [] => [] | _ => [TExt p' c] end)).
  { unfold BitPath_is_empty. rewrite <- len_bits, Hb1. destruct p' as [|x p'']; cbn [len length N.of_nat N.eqb].
    - apply pwp_ret. split; [done|constructor].
    - rewrite ext_node, Hb1 by done. apply pwp_store_ret. intros tr1 Hg Ht. split; [done|by apply Forall_singleton]. }
  intros h tr1 Hg1 [-> Hside]. rewrite leaf_node, Hb2 by done.
  apply pwp_store. intros tr2 Hg2 Ht2. rewrite branch_node. apply pwp_store. intros tr3 Hg3 Ht3.
  apply (split_top _ _ _ _ (match p' with [] => [] | _ => [TExt p' c] end ++ [TLeaf k' v])); [done|lia|done|..].
  + apply Forall_app. split; [eapply has_all_mono, Hside; by eapply grown_trans|].
    apply Forall_singleton. eapply has_mono, Ht2. apply Hg3.
  + intros tr' _ Hall. split; [done|]. by rewrite <- app_assoc in Hall.
Qed.

Lemma insert_into_extension_spec ins p c path offset v tr :
  path_wf path -> offset <= bp_len path -> len p <= U32_MAX ->
  (p `prefix_of` from path offset -> from path (offset + len p) <> [] ->
     pwp (ins (tree_hash c) (offset + len p)) tr (inserted c (from path (offset + len p)) v)) ->
  pwp (insert_into_extension ins (pack p) (tree_hash c) path offset v) tr (inserted (TExt p c) (from path offset) v).
Proof.
  intros Hp Ho Hlen Hins. destruct (pack_spec p Hlen) as [Hpw Hpb]. unfold insert_into_extension.
  apply (pwp_checked _ _ _ _ _ (matches_at_spec path (pack p) offset Hp Hpw Ho)). rewrite Hpb. fold (from path offset).
  change (bp_len (pack p)) with (len p). unfold inserted. cbn [tinsert insert_nodes].
  case_bool_decide as Hpre.
  - assert (drop (length p) (from path offset) = from path (offset + len p)) as Hrest
      by (rewrite from_add; f_equal; unfold len; lia). rewrite Hrest.
    destruct (N.eqb_spec (offset + len p) (bp_len path)) as [Heq|Hne].
    { rewrite from_empty by lia. by apply pwp_ret. }
    pose proof (length_from path (offset + len p)) as Hl. apply prefix_length in Hpre as Hle. rewrite length_from in Hle.
    destruct (from path (offset + len p)) as [|b k'] eqn:Hk; [unfold len in *; cbn in Hl; lia|].
    apply (pwp_child c (b :: k') v (TExt p)); [by apply Hins|done|..].
    + intros c' tr' -> Hall. done.
    + by intros tr' ->.
  - destruct (suffix_spec path offset Hp Ho) as (q & Hq & Hqw & Hqb). fold (from path offset) in Hqb.
    apply (pwp_checked _ _ _ _ _ Hq). rewrite <- Hqb in *.
    pose proof (split_extension_spec p c q v tr Hlen Hqw Hpre) as Hsplit.
    unfold inserted in Hsplit. cbn [tinsert insert_nodes] in Hsplit. by rewrite !bool_decide_false in Hsplit by done.
Qed.

Lemma insert_at_spec fuel t path offset v tr :
  path_wf path -> offset <= bp_len path -> shaped t -> (N.to_nat (bp_len path - offset) < fuel)%nat ->
  reach (has (tr_nodes tr)) t (from path offset) ->
  pwp (insert_at fuel (tree_hash t) path offset v) tr (inserted t (from path offset) v).
Proof.
  revert t offset. induction fuel as [|fuel IH]; intros t offset Hp Ho Hs Hf Hr; [lia|]. cbn [insert_at].
  pose proof (reach_root _ _ _ Hr) as Ht. rewrite bool_decide_false by apply Ht. apply pwp_fetch; [done..|].
  destruct t as [s w|l r|p c]; cbn [tree_node reach] in *; destruct Hr as [_ Hr].
  - destruct (pack_spec s) as [Hsw Hsb]; [unfold len; apply Hs|].
    destruct (suffix_spec path offset Hp Ho) as (q & Hq & Hqw & Hqb). fold (from path offset) in Hqb.
    apply (pwp_checked _ _ _ _ _ Hq). pose proof (insert_into_leaf_spec (pack s) w q v tr Hsw Hqw) as Hleaf. by rewrite Hsb, Hqb in Hleaf.
  - destruct (N.leb_spec (bp_len path) offset) as [Hle|Hlt].
    { rewrite from_empty by done. by apply pwp_ret. }
    destruct (from_bit path offset Hp Hlt) as (b & Hb & Hk). rewrite Hk in *. apply (pwp_checked _ _ _ _ _ Hb).
    set (c := if b then r else l) in *. set (other := if b then l else r).
    assert ((if b then hash_node (Node_encode (tree_node r)) else hash_node (Node_encode (tree_node l))) = tree_hash c) as ->
      by (by destruct b).
    assert ((if b then hash_node (Node_encode (tree_node l)) else hash_node (Node_encode (tree_node r))) = tree_hash other) as ->
      by (by destruct b).
    apply (pwp_child c (from path (offset + 1)) v (fun c' => tside b c' other) _ (fun h => branch_of b h (tree_hash other))).
    + apply IH; [done|lia|by apply shaped_side|lia|done].
    + intros c'. apply branch_node.
    + intros c' tr' Hc Hall. unfold inserted. cbn [tinsert insert_nodes]. fold c. by rewrite Hc.
    + intros tr' Hc. unfold inserted. cbn [tinsert]. fold c. by rewrite Hc.
  - apply shaped_ext in Hs as Hpc. destruct Hpc as (Hne & _ & Hc). pose proof (sh_depth _ Hs) as Hd. cbn in Hd.
    apply insert_into_extension_spec; [done..|unfold len; lia|]. intros Hpre Hrest.
    assert (0 < len p) as Hpos by (destruct p; [done|unfold len; cbn; lia]).
    apply prefix_length in Hpre as Hle. rewrite length_from in Hle.
    apply IH; [done|unfold len in *; lia|done|unfold len in *; lia|].
    rewrite from_add. replace (N.to_nat (len p)) with (length p) by (unfold len; lia). by apply Hr.
Qed.

(** Into the empty trie. *)
Lemma insert_at_empty fuel path v tr : path_wf path ->
  pwp (insert_at (S fuel) ZERO_HASH path 0 v) tr
    (fun r tr' => r = Ok (tree_hash (TLeaf (bits path) v)) /\ has (tr_nodes tr') (TLeaf (bits path) v)).
Proof.
  intros Hp. cbn [insert_at]. rewrite bool_decide_true by done.
  destruct (suffix_spec path 0 Hp ltac:(lia)) as (q & Hq & Hqw & Hqb). rewrite drop_0 in Hqb.
  apply (pwp_checked _ _ _ _ _ Hq). rewrite leaf_node, Hqb by done. apply pwp_store. intros tr' Hg Ht. by apply pwp_ret.
Qed.

(** ** Removal *)

Definition removed_at (t : tree) (k : list bool) (r : Hash * option Hash) (tr : Trie) : Prop :=
  match tremove t k with
  | Some (t', v) => r = (root_hash t', Some v) /\ Forall (has (tr_nodes tr)) (remove_nodes t k)
  | None => r = (tree_hash t, None)
  end.

(** The new root of a removal is one of the nodes it stores. *)
Lemma remove_root t k t' v : tremove t k = Some (Some t', v) -> t' ∈ remove_nodes t k.
Proof.
  destruct t as [s w|l r|p c]; cbn.
  - by case_bool_decide.
  - destruct k as [|b k]; [done|]. intros Hr. destruct (tremove _ k) as [[[c|] v']|]; [..|done]; cbn in Hr; injection Hr as <- <-; set_solver.
  - case_bool_decide; [|done]. intros Hr. destruct (tremove c _) as [[[c'|] v']|]; try done. cbn in Hr. injection Hr as <- <-. set_solver.
Qed.

Lemma collapse_extension_spec q t tr :
  path_wf q -> shaped t -> has (tr_nodes tr) t -> bp_len q + N.of_nat (depth t) <= U32_MAX ->
  pwp (collapse_extension q (tree_hash t)) tr
    (fun h tr' => h = tree_hash (graft (bits q) t) /\ has (tr_nodes tr') (graft (bits q) t)).
Proof.
  intros Hq Hs Ht Hlen. unfold collapse_extension. rewrite bool_decide_false by apply Ht. apply pwp_fetch; [done..|].
  destruct t as [s w|l r|p c]; cbn [tree_node graft depth] in *.
  - destruct (pack_spec s) as [Hsw Hsb]; [unfold len; lia|].
    destruct (concat_spec q (pack s) Hq Hsw) as (q' & Hq' & Hw & Hb); [change (bp_len (pack s)) with (len s); unfold len; lia|].
    apply (pwp_checked _ _ _ _ _ Hq'). rewrite leaf_node, Hb, Hsb by done. by apply pwp_store_ret.
  - change (NodeExtension q (tree_hash (TBranch l r))) with (NodeExtension q (tree_hash (TBranch l r))).
    rewrite ext_node by done. by apply pwp_store_ret.
  - destruct (pack_spec p) as [Hpw Hpb]; [unfold len; lia|].
    destruct (concat_spec q (pack p) Hq Hpw) as (q' & Hq' & Hw & Hb); [change (bp_len (pack p)) with (len p); unfold len; lia|].
    apply (pwp_checked _ _ _ _ _ Hq'). fold (tree_bytes c) (tree_hash c). rewrite ext_node, Hb, Hpb by done. by apply pwp_store_ret.
Qed.

(** Absorbing a surviving child is collapsing a one-bit extension over it. *)
Lemma absorb_spec b t tr :
  shaped t -> has (tr_nodes tr) t -> N.of_nat (S (depth t)) <= U32_MAX ->
  pwp (absorb_into_parent (tree_hash t) b) tr
    (fun h tr' => h = tree_hash (graft [b] t) /\ has (tr_nodes tr') (graft [b] t)).
Proof.
  intros Hs Ht Hlen. destruct (single_spec b) as [Hw Hb]. rewrite <- Hb.
  pose proof (collapse_extension_spec (BitPath_single b) t tr Hw Hs Ht) as Hc. unfold collapse_extension in Hc.
  rewrite bool_decide_false in Hc by apply Ht. apply Hc. change (bp_len (BitPath_single b)) with 1. lia.
Qed.

Lemma collapse_branch_spec b (c : option tree) other tr :
  shaped other -> has (tr_nodes tr) other -> N.of_nat (S (depth other)) <= U32_MAX ->
  (forall c', c = Some c' -> tree_hash c' <> ZERO_HASH) ->
  let t := match c with Some c => tside b c other | None => graft [negb b] other end in
  pwp (if b : bool then collapse_branch (tree_hash other) (root_hash c) else collapse_branch (root_hash c) (tree_hash other)) tr
    (fun h tr' => h = tree_hash t /\ has (tr_nodes tr') t).
Proof.
  intros Hs Ho Hd Hc. cbv zeta. unfold collapse_branch. destruct c as [c|]; cbn [root_hash].
  - specialize (Hc c eq_refl). destruct b; rewrite !bool_decide_false by (done || apply Ho);
      [by apply (pwp_store_ret (TBranch other c))|by apply (pwp_store_ret (TBranch c other))].
  - destruct b; rewrite (bool_decide_true (ZERO_HASH = _)), bool_decide_false by (done || apply Ho); by apply absorb_spec.
Qed.

(** What a removal needs of the store: the path, and the siblings when the key is there. *)
Definition removable (P : tree -> Prop) (t : tree) (k : list bool) : Prop :=
  reach P t k /\ (is_Some (tlookup t k) -> cover P t k).

Lemma remove_leaf_spec s w path offset tr :
  path_wf path -> offset <= bp_len path -> len s <= U32_MAX ->
  pwp (remaining ← checked (checked_sub (bp_len path) offset);
       matches ← (if bp_len (pack s) =? remaining
                  then checked (BitPath_matches_at path offset (pack s)) else PRet false);
       PRet (if matches : bool then (ZERO_HASH, Some w) else (tree_hash (TLeaf s w), None))) tr
    (removed_at (TLeaf s w) (from path offset)).
Proof.
  intros Hp Ho Hlen. destruct (pack_spec s Hlen) as [Hsw Hsb]. unfold removed_at. cbn [tremove remove_nodes].
  apply (pwp_checked _ (bp_len path - offset)); [by apply checked_sub_Some|]. change (bp_len (pack s)) with (len s).
  pose proof (length_from path offset) as Hl. destruct (N.eqb_spec (len s) (bp_len path - offset)) as [Heq|Hne].
  - apply (pwp_checked _ _ _ _ _ (matches_at_spec path (pack s) offset Hp Hsw Ho)). rewrite Hsb. fold (from path offset).
    apply pwp_ret. assert (s `prefix_of` from path offset <-> s = from path offset) as Hiff.
    { split; [|by intros ->]. intros Hpre. apply prefix_length_eq; [done|]. unfold len in Heq. lia. }
    rewrite (bool_decide_ext _ _ Hiff). case_bool_decide; [by split|done].
  - apply pwp_ret. rewrite bool_decide_false; [done|]. intros ->. unfold len in Hne. lia.
Qed.

(** The recursive call, then the collapse of the node above. *)
Lemma pwp_removed c k t (rem : prog (Hash * option Hash))
    (collapse : Hash -> prog Hash) tr Q :
  pwp rem tr (removed_at c k) ->
  (forall tr', tremove c k = None -> Q (t, None) tr') ->
  (forall c' v tr1, tremove c k = Some (c', v) -> grown tr tr1 -> Forall (has (tr_nodes tr1)) (remove_nodes c k) ->
     pwp (collapse (root_hash c')) tr1 (fun h tr2 => Q (h, Some v) tr2)) ->
  pwp ('(new_child, removed) ← rem;
       match removed with
       | None => PRet (t, None)
       | Some _ => collapsed_hash ← collapse new_child; PRet (collapsed_hash, removed)
       end) tr Q.
Proof.
  intros Hrem Hnone Hsome. eapply pwp_bind; [exact Hrem|]. intros [h removed] tr1 Hg Hr. unfold removed_at in Hr.
  destruct (tremove c k) as [[c' v]|] eqn:Hc; [destruct Hr as [[= -> ->] Hall]|injection Hr as -> ->; by apply pwp_ret, Hnone].
  eapply pwp_bind; [by apply Hsome|]. intros h tr2 _ Hh. by apply pwp_ret.
Qed.

Lemma removed_branch (b : bool) l r k c' v tr :
  let c := if b then r else l in
  let other := if b then l else r in
  shaped (TBranch l r) -> has (tr_nodes tr) other ->
  tremove c k = Some (c', v) -> Forall (has (tr_nodes tr)) (remove_nodes c k) ->
  pwp (if b then collapse_branch (tree_hash l) (root_hash c') else collapse_branch (root_hash c') (tree_hash r)) tr
    (fun h tr' => removed_at (TBranch l r) (b :: k) (h, Some v) tr').
Proof.
  intros c other Hs Hother Hc Hall. pose proof (sh_depth _ Hs) as Hd. cbn in Hd.
  replace (if b then collapse_branch (tree_hash l) (root_hash c') else collapse_branch (root_hash c') (tree_hash r))
    with (if b then collapse_branch (tree_hash other) (root_hash c') else collapse_branch (root_hash c') (tree_hash other))
    by (unfold other; by destruct b).
  eapply pwp_mono; [apply (collapse_branch_spec b c' other tr); [|done|unfold other; destruct b; lia|]|].
  - unfold other. apply shaped_branch in Hs as []. by destruct b.
  - intros c'' ->. apply remove_root in Hc. rewrite Forall_forall in Hall. by apply Hall.
  - intros h tr2 Hg2 [-> Hh]. unfold removed_at. cbn [tremove remove_nodes]. fold c other. rewrite Hc. cbn.
    split; [done|]. apply Forall_app. split; [by eapply has_all_mono|]. destruct c'; by apply Forall_singleton.
Qed.

Lemma removed_ext p c k c' v tr :
  shaped (TExt p c) -> tremove c k = Some (c', v) -> Forall (has (tr_nodes tr)) (remove_nodes c k) ->
  pwp (collapse_extension (pack p) (root_hash c')) tr
    (fun h tr' => h = root_hash (match c' with Some c => Some (graft p c) | None => None end)
       /\ Forall (has (tr_nodes tr')) (remove_nodes c k ++ match c' with Some c => [graft p c] | None => [] end)).
Proof.
  intros Hs Hc Hall. apply shaped_ext in Hs as Hpc. destruct Hpc as (_ & _ & Hsc). pose proof (sh_depth _ Hs) as Hd. cbn in Hd.
  destruct c' as [c'|].
  2:{ unfold collapse_extension. cbn [root_hash]. rewrite bool_decide_true by done. apply pwp_ret. split; [done|]. by rewrite app_nil_r. }
  destruct (pack_spec p) as [Hpw Hpb]; [unfold len; lia|].
  pose proof (remove_root _ _ _ _ Hc) as Hin. pose proof (remove_shaped _ _ _ _ Hsc Hc) as Hsc'.
  pose proof (remove_depth _ _ _ _ Hc) as Hdc. pose proof (proj1 (Forall_forall _ _) Hall _ Hin) as Hc'.
  eapply pwp_mono; [apply (collapse_extension_spec (pack p) c'); [done..|change (bp_len (pack p)) with (len p); unfold len; lia]|].
  intros h tr2 Hg2 [-> Hh]. rewrite Hpb in *. split; [done|]. apply Forall_app. split; [by eapply has_all_mono|by apply Forall_singleton].
Qed.

Lemma remove_at_spec fuel t path offset tr :
  path_wf path -> offset <= bp_len path -> shaped t -> (N.to_nat (bp_len path - offset) < fuel)%nat ->
  removable (has (tr_nodes tr)) t (from path offset) ->
  pwp (remove_at fuel (tree_hash t) path offset) tr (removed_at t (from path offset)).
Proof.
  revert t offset. induction fuel as [|fuel IH]; intros t offset Hp Ho Hs Hf [Hr Hcov]; [lia|]. cbn [remove_at].
  pose proof (reach_root _ _ _ Hr) as Ht. rewrite bool_decide_false by apply Ht. apply pwp_fetch; [done..|].
  pose proof (sh_depth _ Hs) as Hd.
  destruct t as [s w|l r|p c]; cbn [tree_node reach cover depth] in *; destruct Hr as [_ Hr]; [by apply remove_leaf_spec|..].
  - destruct (N.leb_spec (bp_len path) offset) as [Hle|Hlt].
    { rewrite from_empty by done. by apply pwp_ret. }
    destruct (from_bit path offset Hp Hlt) as (b & Hb & Hk). rewrite Hk in *. apply (pwp_checked _ _ _ _ _ Hb).
    cbn [tlookup] in Hcov. fold (tree_bytes l) (tree_bytes r) (tree_hash l) (tree_hash r).
    replace (if b then tree_hash r else tree_hash l) with (tree_hash (if b then r else l)) by (by destruct b).
    eapply (pwp_removed _ _ _ _ (fun h => if b then collapse_branch (tree_hash l) h else collapse_branch h (tree_hash r))).
    + apply (IH (if b then r else l)); [done|lia|by apply shaped_side|lia|]. split; [done|].
      intros Hsome. by apply Hcov in Hsome as (_ & _ & Hsome).
    + intros tr' Hc. unfold removed_at. cbn [tremove]. by rewrite Hc.
    + intros c' v tr1 Hc Hg Hall. apply removed_branch; [done| |done..].
      assert (is_Some (tlookup (if b then r else l) (from path (offset + 1)))) as Hsome by (rewrite remove_found, Hc; eauto).
      apply Hcov in Hsome as (_ & Hother & _). eapply has_mono, Hother. apply Hg.
  - apply shaped_ext in Hs as Hpc. destruct Hpc as (Hne & _ & Hsc).
    assert (len p <= U32_MAX) as Hlen by (unfold len; lia). destruct (pack_spec p Hlen) as [Hpw Hpb].
    apply (pwp_checked _ _ _ _ _ (matches_at_spec path (pack p) offset Hp Hpw Ho)). rewrite Hpb. fold (from path offset).
    change (bp_len (pack p)) with (len p). unfold removed_at. cbn [tremove remove_nodes tlookup] in *.
    case_bool_decide as Hpre; [|by apply pwp_ret]. cbn [negb].
    assert (0 < len p) as Hpos by (destruct p; [done|unfold len; cbn; lia]).
    apply prefix_length in Hpre as Hle. rewrite length_from in Hle.
    assert (drop (length p) (from path offset) = from path (offset + len p)) as Hrest by (rewrite from_add; f_equal; unfold len; lia).
    rewrite Hrest in *. fold (tree_bytes c) (tree_hash c).
    eapply (pwp_removed _ _ _ _ (collapse_extension (pack p))).
    + apply (IH c); [done|unfold len in *; lia|done|unfold len in *; lia|]. split; [by apply Hr|]. intros Hsome.
      apply Hcov in Hsome as [_ Hsome]. by apply Hsome.
    + by intros tr' ->.
    + intros c' v tr1 Hc Hg Hall. rewrite Hc. eapply pwp_mono; [by eapply removed_ext|].
      intros h tr2 _ [-> Hh]. cbn. split; [done|]. by destruct c'.
Qed.

(** ** Other keys

    [P] holds of nodes of the old store and [Q] of nodes of the new one: what the
    store held for another key, it holds after the operation. *)

Lemma forall_one {A} (P : A -> Prop) x : Forall P [x] -> P x.
Proof. rewrite Forall_singleton. done. Qed.

Lemma reach_tside P b x y b' k : P (tside b x y) -> reach P (if Bool.eqb b b' then x else y) k -> reach P (tside b x y) (b' :: k).
Proof. by destruct b, b'. Qed.

Lemma cover_tside P b x y b' k : P (tside b x y) -> P (if Bool.eqb b b' then y else x) ->
  cover P (if Bool.eqb b b' then x else y) k -> cover P (tside b x y) (b' :: k).
Proof. by destruct b, b'. Qed.

Lemma everywhere_tside P b x y : P (tside b x y) -> everywhere P x -> everywhere P y -> everywhere P (tside b x y).
Proof. by destruct b. Qed.

Lemma reach_tside_nil P b x y : P (tside b x y) -> reach P (tside b x y) [].
Proof. by destruct b. Qed.

Lemma reach_text P p t k : Forall P (split_nodes p t) -> (p `prefix_of` k -> reach P t (drop (length p) k)) -> reach P (text p t) k.
Proof.
  intros [Ht Hext]%Forall_cons Hr. destruct p as [|b p]; cbn [text]; [by apply Hr, prefix_nil|].
  split; [by apply forall_one in Hext|done].
Qed.

Lemma cover_text P p t k : Forall P (split_nodes p t) -> (p `prefix_of` k -> cover P t (drop (length p) k)) -> cover P (text p t) k.
Proof.
  intros [Ht Hext]%Forall_cons Hr. destruct p as [|b p]; cbn [text]; [by apply Hr, prefix_nil|].
  split; [by apply forall_one in Hext|done].
Qed.

Lemma everywhere_text P p t : Forall P (split_nodes p t) -> everywhere P t -> everywhere P (text p t).
Proof.
  intros [Ht Hext]%Forall_cons Hr. destruct p as [|b p]; cbn [text]; [done|]. split; [by apply forall_one in Hext|done].
Qed.

Lemma reach_graft (P : tree -> Prop) p t k : P (graft p t) -> (p `prefix_of` k -> reach P t (drop (length p) k)) -> reach P (graft p t) k.
Proof.
  destruct t as [s w|l r|q c]; cbn [graft]; intros Ht Hr; [done|done|]. split; [done|]. intros [k' ->]. rewrite drop_app_length.
  rewrite <- app_assoc, drop_app_length in Hr. destruct Hr as [_ Hr]; [by apply prefix_app_r|].
  rewrite drop_app_length in Hr. apply Hr. by apply prefix_app_r.
Qed.

Lemma cover_graft (P : tree -> Prop) p t k : P (graft p t) -> (p `prefix_of` k -> cover P t (drop (length p) k)) -> cover P (graft p t) k.
Proof.
  destruct t as [s w|l r|q c]; cbn [graft]; intros Ht Hr; [done|done|]. split; [done|]. intros [k' ->]. rewrite drop_app_length.
  rewrite <- app_assoc, drop_app_length in Hr. destruct Hr as [_ Hr]; [by apply prefix_app_r|].
  rewrite drop_app_length in Hr. apply Hr. by apply prefix_app_r.
Qed.

Lemma everywhere_graft (P : tree -> Prop) p t : P (graft p t) -> everywhere P t -> everywhere P (graft p t).
Proof. destruct t; cbn; intros Ht Hr; [done|done|]. split; [done|apply Hr]. Qed.

(** The new root of an insertion is one of the nodes it stores. *)
Lemma text_split p t : text p t ∈ split_nodes p t.
Proof. destruct p; cbn; set_solver. Qed.

Lemma insert_root t k v t' : tinsert t k v = Some t' -> t' ∈ insert_nodes t k v.
Proof.
  destruct t as [s w|l r|p c]; cbn [tinsert insert_nodes].
  - case_bool_decide; [intros [= <-]; set_solver|]. destruct (drop (lcp s k) s) as [|b s'], (drop (lcp s k) k) as [|b' k']; try done. intros [= <-].
    apply elem_of_app. right. apply text_split.
  - destruct k as [|b k]; [done|]. intros Hi. destruct (tinsert _ k v); [|done]. injection Hi as <-. set_solver.
  - case_bool_decide.
    + destruct (drop (length p) k); [done|]. intros Hi. destruct (tinsert c _ v); [|done]. injection Hi as <-. set_solver.
    + destruct (drop (lcp p k) p) as [|b p'], (drop (lcp p k) k) as [|b' k']; try done. intros [= <-].
      apply elem_of_app. right. apply list_elem_of_further, text_split.
Qed.

Section Others.
Context (P Q : tree -> Prop) (HPQ : forall t, P t -> Q t).

Lemma side_nodes p c : everywhere P c -> Forall Q match p with [] => [] | _ => [TExt p c] end -> everywhere Q (text p c).
Proof.
  intros Hc Hp. destruct p as [|b p]; cbn; [by eapply everywhere_mono|]. split; [by apply forall_one in Hp|by eapply everywhere_mono].
Qed.

Lemma insert_reach t k v t' k2 : tinsert t k v = Some t' -> Forall Q (insert_nodes t k v) ->
  reach P t k2 -> reach Q t' k2.
Proof.
  revert k t' k2. induction t as [s w|l IHl r IHr|p c IH]; intros k t' k2; cbn [tinsert insert_nodes].
  - case_bool_decide; [intros [= <-] Hn _; split; [by apply forall_one in Hn|done]|].
    destruct (drop (lcp s k) s) as [|b s'], (drop (lcp s k) k) as [|b' k']; try done. intros [= <-] [Hold Hn]%Forall_app _.
    apply Forall_cons in Hold as [Hs Hk']. apply forall_one in Hk'.
    apply reach_text; [done|]. intros _. apply Forall_cons in Hn as [Hb _]. destruct (drop (length (take (lcp s k) k)) k2) as [|b2 k3]; [by apply reach_tside_nil|].
    apply reach_tside; [done|]. by destruct (Bool.eqb b b2).
  - destruct k as [|b k]; [done|]. intros Hi. destruct (tinsert _ k v) as [c'|] eqn:Hc; [|done]. injection Hi as <-.
    intros [Hn Hb]%Forall_app [_ Hr]. apply forall_one in Hb. destruct k2 as [|b2 k2]; [by apply reach_tside_nil|].
    apply reach_tside; [done|]. destruct (Bool.eqb_spec b b2) as [->|Hne].
    + destruct b2; eauto.
    + eapply reach_mono; [exact HPQ|]. by destruct b, b2.
  - case_bool_decide as Hp.
    + destruct (drop (length p) k) as [|x k']; [done|]. intros Hi. destruct (tinsert c _ v) as [c'|] eqn:Hc; [|done]. injection Hi as <-.
      intros [Hn Ht]%Forall_app [_ Hr]. apply forall_one in Ht. split; [done|]. intros Hp2. eauto.
    + lcp_cases p k. destruct s' as [|b s'], k' as [|b' k']; try done. intros [= <-] [Hside [Hleaf Hn]%Forall_cons]%Forall_app [_ Hr].
      apply reach_text; [done|]. intros [k3 ->]. rewrite drop_app_length. apply Forall_cons in Hn as [Hb _].
      destruct k3 as [|b2 k3]; [by apply reach_tside_nil|]. apply reach_tside; [done|].
      destruct (Bool.eqb_spec b b2) as [->|Hne]; [|done].
      assert (s' `prefix_of` k3 -> reach Q c (drop (length s') k3)) as Hrc.
      { intros [k4 ->]. eapply reach_mono; [exact HPQ|]. rewrite drop_app_length.
        replace (c0 ++ b2 :: s' ++ k4) with ((c0 ++ b2 :: s') ++ k4) in Hr by (by rewrite <- app_assoc).
        rewrite drop_app_length in Hr. apply Hr. by apply prefix_app_r. }
      destruct s' as [|x s']; [by apply Hrc, prefix_nil|]. split; [by apply forall_one in Hside|done].
Qed.

Lemma insert_cover t k v t' k2 : tinsert t k v = Some t' -> Forall Q (insert_nodes t k v) ->
  k2 <> k -> is_Some (tlookup t k2) -> cover P t k2 -> cover Q t' k2.
Proof.
  revert k t' k2. induction t as [s w|l IHl r IHr|p c IH]; intros k t' k2; cbn [tinsert insert_nodes].
  - case_bool_decide; [intros [= <-] Hn; split; [by apply forall_one in Hn|done]|].
    destruct (drop (lcp s k) s) as [|b s'], (drop (lcp s k) k) as [|b' k']; try done. intros [= <-] [Hold Hn]%Forall_app _ _ _.
    apply Forall_cons in Hold as [Hs Hk']. apply forall_one in Hk'.
    apply cover_text; [done|]. intros _. apply Forall_cons in Hn as [Hb _]. destruct (drop (length (take (lcp s k) k)) k2) as [|b2 k3]; [by destruct b|].
    apply cover_tside; [done|..]; by destruct (Bool.eqb b b2).
  - destruct k as [|b k]; [done|]. intros Hi. destruct (tinsert _ k v) as [c'|] eqn:Hc; [|done]. injection Hi as <-.
    intros [Hn Hb]%Forall_app Hne Hsome [_ Hr]. apply forall_one in Hb. destruct k2 as [|b2 k2]; [by destruct b|]. destruct Hr as [Hsib Hr].
    cbn in Hsome. apply cover_tside; [done|..]; destruct (Bool.eqb_spec b b2) as [->|Hbb].
    + apply HPQ. by destruct b2.
    + pose proof (insert_root _ _ _ _ Hc) as Hin. rewrite Forall_forall in Hn. by apply Hn.
    + assert (k2 <> k) by congruence. destruct b2; eauto.
    + eapply cover_mono; [exact HPQ|]. by destruct b, b2.
  - case_bool_decide as Hp.
    + destruct Hp as [k' ->]. rewrite drop_app_length. destruct k' as [|x k']; [done|]. intros Hi.
      destruct (tinsert c _ v) as [c'|] eqn:Hc; [|done]. injection Hi as <-.
      intros [Hn Ht]%Forall_app Hne [y Hy] [_ Hr]. apply forall_one in Ht. apply tlookup_ext in Hy as (k3 & -> & Hy).
      split; [done|]. intros Hp2. rewrite drop_app_length in *. eapply IH; [done..| |eauto|by apply Hr]. congruence.
    + lcp_cases p k. destruct s' as [|b s'], k' as [|b' k']; try done. intros [= <-] [Hside [Hleaf Hn]%Forall_cons]%Forall_app Hne [y Hy] [_ Hr].
      apply tlookup_ext in Hy as (k3 & -> & Hy). rewrite drop_app_length in Hr.
      apply cover_text; [done|]. intros _. rewrite <- app_assoc, drop_app_length. apply Forall_cons in Hn as [Hb _].
      cbn [app]. apply cover_tside; [done|..]; rewrite Bool.eqb_reflx; [done|].
      assert (cover Q c k3) as Hc by (eapply cover_mono; [exact HPQ|]; apply Hr; by apply prefix_app_r).
      destruct s' as [|x s']; [done|]. split; [by apply forall_one in Hside|]. intros _.
      change (x :: s' ++ k3) with ((x :: s') ++ k3). by rewrite drop_app_length.
Qed.

Lemma insert_everywhere t k v t' : tinsert t k v = Some t' -> Forall Q (insert_nodes t k v) ->
  everywhere P t -> everywhere Q t'.
Proof.
  revert k t'. induction t as [s w|l IHl r IHr|p c IH]; intros k t'; cbn [tinsert insert_nodes].
  - case_bool_decide; [intros [= <-] Hn _; split; [by apply forall_one in Hn|done]|].
    destruct (drop (lcp s k) s) as [|b s'], (drop (lcp s k) k) as [|b' k']; try done. intros [= <-] [Hold Hn]%Forall_app _.
    apply Forall_cons in Hold as [Hs Hk']. apply forall_one in Hk'. apply everywhere_text; [done|].
    apply Forall_cons in Hn as [Hb _]. by apply everywhere_tside.
  - destruct k as [|b k]; [done|]. intros Hi. destruct (tinsert _ k v) as [c'|] eqn:Hc; [|done]. injection Hi as <-.
    intros [Hn Hb]%Forall_app (_ & Hl & Hr). apply forall_one in Hb.
    destruct b; (apply everywhere_tside; [done|eauto|by eapply everywhere_mono]).
  - case_bool_decide as Hp.
    + destruct (drop (length p) k) as [|x k']; [done|]. intros Hi. destruct (tinsert c _ v) as [c'|] eqn:Hc; [|done]. injection Hi as <-.
      intros [Hn Ht]%Forall_app [_ Hr]. apply forall_one in Ht. split; [done|eauto].
    + destruct (drop (lcp p k) p) as [|b s'], (drop (lcp p k) k) as [|b' k']; try done. intros [= <-] [Hside [Hleaf Hn]%Forall_cons]%Forall_app [_ Hr].
      apply everywhere_text; [done|]. apply Forall_cons in Hn as [Hb _]. apply everywhere_tside; [done|by apply side_nodes|done].
Qed.

Lemma remove_reach t k t' v k2 : tremove t k = Some (Some t', v) -> Forall Q (remove_nodes t k) ->
  reach P t k2 -> reach Q t' k2.
Proof.
  revert k t' v k2. induction t as [s w|l IHl r IHr|p c IH]; intros k t' v k2; cbn [tremove remove_nodes]; [by case_bool_decide|..].
  - destruct k as [|b k]; [done|]. intros Hi. destruct (tremove _ k) as [[c' v']|] eqn:Hc; [|done]. cbn in Hi. injection Hi as <- <-.
    intros [Hn Hb]%Forall_app [_ Hr]. destruct c' as [c'|]; apply forall_one in Hb.
    + destruct k2 as [|b2 k2]; [by apply reach_tside_nil|]. apply reach_tside; [done|]. destruct (Bool.eqb_spec b b2) as [->|Hne].
      * destruct b2; eauto.
      * eapply reach_mono; [exact HPQ|]. by destruct b, b2.
    + apply reach_graft; [done|]. intros [k3 ->]. cbn. rewrite drop_0. eapply reach_mono; [exact HPQ|]. by destruct b.
  - case_bool_decide as Hp; [|done]. intros Hi. destruct (tremove c _) as [[[c'|] v']|] eqn:Hc; try done. cbn in Hi. injection Hi as <- <-.
    intros [Hn Hb]%Forall_app [_ Hr]. apply forall_one in Hb. apply reach_graft; [done|]. eauto.
Qed.

Lemma remove_cover t k t' v k2 : tremove t k = Some (Some t', v) -> Forall Q (remove_nodes t k) ->
  k2 <> k -> is_Some (tlookup t k2) -> cover P t k2 -> cover Q t' k2.
Proof.
  revert k t' v k2. induction t as [s w|l IHl r IHr|p c IH]; intros k t' v k2; cbn [tremove remove_nodes]; [by case_bool_decide|..].
  - destruct k as [|b k]; [done|]. intros Hi. destruct (tremove _ k) as [[c' v']|] eqn:Hc; [|done]. cbn in Hi. injection Hi as <- <-.
    intros [Hn Hb]%Forall_app Hne Hsome [_ Hr]. destruct k2 as [|b2 k2]; [by destruct Hsome|]. cbn in Hsome. destruct Hr as [Hsib Hr].
    destruct c' as [c'|]; apply forall_one in Hb.
    + apply cover_tside; [done|..]; destruct (Bool.eqb_spec b b2) as [->|Hbb].
      * apply HPQ. by destruct b2.
      * pose proof (remove_root _ _ _ _ Hc) as Hin. rewrite Forall_forall in Hn. by apply Hn.
      * assert (k2 <> k) by congruence. destruct b2; eauto.
      * eapply cover_mono; [exact HPQ|]. by destruct b, b2.
    + destruct (Bool.eqb_spec b b2) as [->|Hbb].
      * exfalso. destruct Hsome as [y Hy]. assert (k2 <> k) as Hk by congruence.
        pose proof (proj2 (remove_lookup _ _ _ _ k2 y Hc) (conj Hk Hy)) as Habs. done.
      * apply cover_graft; [done|]. intros _. cbn. rewrite drop_0. eapply cover_mono; [exact HPQ|]. by destruct b, b2.
  - case_bool_decide as Hp; [|done]. destruct Hp as [k' ->]. rewrite drop_app_length. intros Hi.
    destruct (tremove c _) as [[[c'|] v']|] eqn:Hc; try done. cbn in Hi. injection Hi as <- <-.
    intros [Hn Hb]%Forall_app Hne [y Hy] [_ Hr]. apply tlookup_ext in Hy as (k3 & -> & Hy). apply forall_one in Hb.
    apply cover_graft; [done|]. intros Hp2. rewrite drop_app_length in *. eapply IH; [done..| |eauto|by apply Hr]. congruence.
Qed.

Lemma remove_everywhere t k t' v : tremove t k = Some (Some t', v) -> Forall Q (remove_nodes t k) ->
  everywhere P t -> everywhere Q t'.
Proof.
  revert k t' v. induction t as [s w|l IHl r IHr|p c IH]; intros k t' v; cbn [tremove remove_nodes]; [by case_bool_decide|..].
  - destruct k as [|b k]; [done|]. intros Hi. destruct (tremove _ k) as [[c' v']|] eqn:Hc; [|done]. cbn in Hi. injection Hi as <- <-.
    intros [Hn Hb]%Forall_app (_ & Hl & Hr). destruct c' as [c'|]; apply forall_one in Hb.
    + destruct b; (apply everywhere_tside; [done|eauto|by eapply everywhere_mono]).
    + apply everywhere_graft; [done|]. eapply everywhere_mono; [exact HPQ|]. by destruct b.
  - case_bool_decide as Hp; [|done]. intros Hi. destruct (tremove c _) as [[[c'|] v']|] eqn:Hc; try done. cbn in Hi. injection Hi as <- <-.
    intros [Hn Hb]%Forall_app [_ Hr]. apply forall_one in Hb. apply everywhere_graft; [done|]. eauto.
Qed.

End Others.

End Store.
