(* ===== verification/TrieWalk.v ===== *)
(** * Walks of the trie

    Reading a key, collecting the nodes a witness needs for it, and reading a
    persisted trie, as lookups in the tree.  Runs on two stores that agree where
    both have an entry return the same results. *)

From S2P Require Import Prelude Primitives Bits TrieNode Trie TrieSpec TrieStore.

Section Walk.
Context `{Hasher} `{!HasherLaws}.

(** One step of a walk through an extension. *)
Lemma walk_extension path offset p : path_wf path -> offset <= bp_len path -> len p <= U32_MAX ->
  if bool_decide (p `prefix_of` from path offset) then
    checked_add U32_MAX offset (bp_len (pack p)) = Some (offset + len p)
    /\ (bp_len path <? offset + len p) = false
    /\ exists rest, BitPath_suffix path offset = Some rest /\ BitPath_prefix rest (bp_len (pack p)) = Some (pack p)
  else
    checked_add U32_MAX offset (bp_len (pack p)) = None \/
    exists end_, checked_add U32_MAX offset (bp_len (pack p)) = Some end_
    /\ ((bp_len path <? end_) = true
        \/ (bp_len path <? end_) = false
           /\ exists rest segment, BitPath_suffix path offset = Some rest
                /\ BitPath_prefix rest (bp_len (pack p)) = Some segment /\ segment <> pack p).
Proof.
  intros Hp Ho Hlen. destruct (pack_spec p Hlen) as [Hpw Hpb]. change (bp_len (pack p)) with (len p).
  destruct (suffix_spec path offset Hp Ho) as (rest & Hrest & Hrw & Hrb). fold (from path offset) in Hrb.
  pose proof (length_from path offset) as Hl. pose proof (pw_len _ Hp) as Hmax.
  assert (bp_len rest = bp_len path - offset) as Hrl by (rewrite <- len_bits, Hrb; unfold len; lia).
  assert (len p <= bp_len path - offset -> exists segment, BitPath_prefix rest (len p) = Some segment
    /\ (segment = pack p <-> p `prefix_of` from path offset)) as Hseg.
  { intros Hle. destruct (prefix_spec rest (len p) Hrw ltac:(lia)) as (q & Hq & Hqw & Hqb). exists q. split; [done|].
    rewrite Hrb in Hqb. replace (N.to_nat (len p)) with (length p) in Hqb by (unfold len; lia). split.
    - intros ->. rewrite Hpb in Hqb. rewrite Hqb. apply prefix_take.
    - intros [k Hk]. apply bits_inj; [done..|]. by rewrite Hpb, Hqb, Hk, take_app_length. }
  case_bool_decide as Hpre.
  - apply prefix_length in Hpre as Hle. assert (len p <= bp_len path - offset) as Hle' by (unfold len; lia).
    split_and!; [apply checked_add_Some; lia|apply N.ltb_ge; lia|].
    destruct (Hseg Hle') as (q & Hq & Hiff). exists rest. split; [done|]. rewrite Hq. f_equal. by apply Hiff.
  - destruct (checked_add U32_MAX offset (len p)) as [e|] eqn:He; [right|by left]. apply checked_add_Some in He as [-> _].
    eexists. split; [done|]. destruct (N.ltb_spec (bp_len path) (offset + len p)) as [|Hge]; [by left|right]. split; [done|].
    destruct (Hseg ltac:(lia)) as (q & Hq & Hiff). exists rest, q. split_and!; [done..|]. by rewrite Hiff.
Qed.

(** [consumed + len] fits [u32] in a tree of bounded depth. *)
Lemma walk_fits offset p c : shaped (TExt p c) -> offset + N.of_nat (depth (TExt p c)) <= U32_MAX ->
  exists end_, checked_add U32_MAX offset (bp_len (pack p)) = Some end_.
Proof. intros Hs Hd. exists (offset + len p). apply checked_add_Some. change (bp_len (pack p)) with (len p). cbn in Hd. unfold len. lia. Qed.

Lemma get_walk_spec nodes fuel t path offset :
  path_wf path -> offset <= bp_len path -> shaped t -> offset + N.of_nat (depth t) <= U32_MAX ->
  (N.to_nat (bp_len path - offset) < fuel)%nat -> reach (has nodes) t (from path offset) ->
  get_walk nodes fuel path (tree_hash t) offset = Ok (tlookup t (from path offset)).
Proof.
  revert t offset. induction fuel as [|fuel IH]; intros t offset Hp Ho Hs Hd Hf Hr; [lia|]. cbn [get_walk].
  pose proof (reach_root _ _ _ Hr) as Ht. rewrite bool_decide_false by apply Ht. rewrite fetch_has by done. cbn [mbind result_bind].
  destruct t as [s w|l r|p c]; cbn [tree_node reach tlookup] in *; destruct Hr as [_ Hr].
  - destruct (pack_spec s) as [Hsw Hsb]; [unfold len; apply Hs|].
    destruct (suffix_spec path offset Hp Ho) as (q & Hq & Hqw & Hqb). fold (from path offset) in Hqb. rewrite Hq. cbn.
    f_equal. rewrite (bool_decide_ext (q = pack s) (s = from path offset)); [done|]. rewrite <- Hqb. split.
    + intros ->. by rewrite Hsb.
    + intros Heq. apply bits_inj; [done..|]. by rewrite Hsb.
  - destruct (N.leb_spec (bp_len path) offset) as [Hle|Hlt]; [by rewrite from_empty by done|].
    destruct (from_bit path offset Hp Hlt) as (b & Hb & Hk). rewrite Hb, Hk in *. cbn [in_range ok_or mbind result_bind].
    replace (if b then _ else _) with (tree_hash (if b then r else l)) by (by destruct b).
    cbn [depth] in Hd. apply IH; [done|lia|by apply shaped_side|destruct b; lia|lia|done].
  - apply shaped_ext in Hs as Hpc. destruct Hpc as (Hne & _ & Hc). pose proof (sh_depth _ Hs) as Hd'. cbn in Hd'.
    assert (len p <= U32_MAX) as Hlen by (unfold len; lia). pose proof (walk_extension path offset p Hp Ho Hlen) as Hstep.
    case_bool_decide as Hpre.
    + destruct Hstep as (-> & Hlt & rest & -> & Hseg). cbn [in_range ok_or mbind result_bind]. rewrite Hlt, Hseg. cbn [in_range ok_or mbind result_bind].
      rewrite bool_decide_true by done. fold (tree_bytes c) (tree_hash c). apply prefix_length in Hpre as Hle. rewrite length_from in Hle.
      assert (0 < len p) as Hpos by (destruct p; [done|unfold len; cbn; lia]). cbn [depth] in Hd.
      assert (drop (length p) (from path offset) = from path (offset + len p)) as Hrest by (rewrite from_add; f_equal; unfold len; lia).
      rewrite Hrest in *. apply IH; [done|unfold len in *; lia|done|unfold len in *; lia|unfold len in *; lia|by apply Hr].
    + destruct (walk_fits offset p c Hs Hd) as [e He]. rewrite He in *. destruct Hstep as [|(e' & [= <-] & Hstep)]; [done|].
      cbn [in_range ok_or mbind result_bind]. destruct Hstep as [->|(-> & rest & segment & -> & Hseg & Hne')]; [done|].
      cbn [in_range ok_or mbind result_bind]. rewrite Hseg. cbn. by rewrite bool_decide_false by done.
Qed.

(** ** Collecting a path *)

Lemma copy_entry_sub from out key : out ⊆ from -> out ⊆ copy_entry from key out /\ copy_entry from key out ⊆ from
  /\ copy_entry from key out !! key = from !! key.
Proof.
  intros Hsub. unfold copy_entry. destruct (from !! key) as [l|] eqn:Hl.
  - split_and!; [|by apply insert_subseteq_l|by apply lookup_insert_eq].
    destruct (out !! key) as [l'|] eqn:Ho; [|by apply insert_subseteq].
    rewrite insert_id; [done|]. rewrite Ho. f_equal. apply (lookup_weaken _ from) in Ho; [congruence|done].
  - split_and!; [done..|]. destruct (out !! key) eqn:Ho; [|done]. apply (lookup_weaken _ from) in Ho; [congruence|done].
Qed.

(** What a walk adds: entries of the trie, among them those of the path. *)
Record collected (tr : Trie) (out out' : gmap Hash bytes * gmap Hash bytes) : Prop := {
  cl_nodes : out.1 ⊆ out'.1;
  cl_values : out.2 ⊆ out'.2;
  cl_trie_nodes : out'.1 ⊆ tr_nodes tr;
  cl_trie_values : out'.2 ⊆ tr_values tr;
}.

Lemma collected_refl (tr : Trie) (out : gmap Hash bytes * gmap Hash bytes) : out.1 ⊆ tr_nodes tr -> out.2 ⊆ tr_values tr -> collected tr out out.
Proof. by constructor. Qed.

Lemma collected_trans tr a b c : collected tr a b -> collected tr b c -> collected tr a c.
Proof. intros [] []. constructor; [by etrans..|done|done]. Qed.

Lemma collected_node (tr : Trie) (out : gmap Hash bytes * gmap Hash bytes) h : out.1 ⊆ tr_nodes tr -> out.2 ⊆ tr_values tr ->
  collected tr out (copy_entry (tr_nodes tr) h out.1, out.2).
Proof. intros Hn Hv. destruct (copy_entry_sub (tr_nodes tr) out.1 h Hn) as (? & ? & _). by constructor. Qed.

Lemma collected_has (tr : Trie) (out : gmap Hash bytes * gmap Hash bytes) t : out.1 ⊆ tr_nodes tr -> has (tr_nodes tr) t -> has (copy_entry (tr_nodes tr) (tree_hash t) out.1) t.
Proof. intros Hn [Ht Hz]. split; [|done]. destruct (copy_entry_sub (tr_nodes tr) out.1 (tree_hash t) Hn) as (_ & _ & ->). done. Qed.

Lemma collect_walk_spec (tr : Trie) fuel t path offset out :
  path_wf path -> offset <= bp_len path -> shaped t -> offset + N.of_nat (depth t) <= U32_MAX ->
  (N.to_nat (bp_len path - offset) < fuel)%nat -> everywhere (has (tr_nodes tr)) t ->
  out.1 ⊆ tr_nodes tr -> out.2 ⊆ tr_values tr ->
  exists out', collect_walk tr fuel path (tree_hash t) offset out = Ok out' /\ collected tr out out'
    /\ cover (has out'.1) t (from path offset)
    /\ forall v, tlookup t (from path offset) = Some v -> out'.2 !! v = tr_values tr !! v.
Proof.
  revert t offset out. induction fuel as [|fuel IH]; intros t offset out Hp Ho Hs Hd Hf He Hn Hv; [lia|]. cbn [collect_walk].
  pose proof (everywhere_root _ _ He) as Ht. rewrite bool_decide_false by apply Ht. rewrite fetch_has by done. cbn [mbind result_bind].
  pose proof (collected_node tr out (tree_hash t) Hn Hv) as Hcol. pose proof (collected_has tr out t Hn Ht) as Hhas.
  set (out1 := (copy_entry (tr_nodes tr) (tree_hash t) out.1, out.2)) in *.
  destruct t as [s w|l r|p c]; cbn [tree_node everywhere tlookup cover] in *; destruct He as [_ He].
  - eexists. split; [done|]. destruct (copy_entry_sub (tr_values tr) out.2 w Hv) as (Hv1 & Hv2 & Hv3).
    split_and!; [|done|done|]; [constructor; [apply Hcol|done|apply Hcol|done]|].
    intros v. case_bool_decide; [by intros [= <-]|done].
  - destruct (N.leb_spec (bp_len path) offset) as [Hle|Hlt]; [rewrite from_empty by done; by exists out1|].
    destruct (from_bit path offset Hp Hlt) as (b & Hb & Hk). rewrite Hb, Hk in *. cbn [in_range ok_or mbind result_bind].
    set (other := if b then l else r). set (c := if b then r else l).
    replace (if b then hash_node (Node_encode (tree_node l)) else hash_node (Node_encode (tree_node r))) with (tree_hash other) by (by destruct b).
    replace (if b then hash_node (Node_encode (tree_node r)) else hash_node (Node_encode (tree_node l))) with (tree_hash c) by (by destruct b).
    assert (everywhere (has (tr_nodes tr)) other /\ everywhere (has (tr_nodes tr)) c) as [Heo Hec] by (unfold other, c; destruct b; tauto).
    pose proof (everywhere_root _ _ Heo) as Hother. rewrite bool_decide_false by apply Hother.
    pose proof (collected_node tr out1 (tree_hash other) (cl_trie_nodes _ _ _ Hcol) (cl_trie_values _ _ _ Hcol)) as Hcol2.
    pose proof (collected_has tr out1 other (cl_trie_nodes _ _ _ Hcol) Hother) as Hhas2.
    cbn [depth] in Hd.
    destruct (IH c (offset + 1) (copy_entry (tr_nodes tr) (tree_hash other) out1.1, out1.2)) as (out' & -> & Hcol3 & Hcov & Hval);
      [done|lia|by apply shaped_side|unfold c; destruct b; lia|lia|done|apply Hcol2..|].
    exists out'. split; [done|]. split; [do 2 (eapply collected_trans; [done|]); done|]. split; [|done].
    split_and!; [eapply has_mono, Hhas; etrans; [apply Hcol2|apply Hcol3]|eapply has_mono, Hhas2; apply Hcol3|done].
  - apply shaped_ext in Hs as Hpc. destruct Hpc as (Hne & _ & Hc). pose proof (sh_depth _ Hs) as Hd'. cbn in Hd'.
    assert (len p <= U32_MAX) as Hlen by (unfold len; lia). pose proof (walk_extension path offset p Hp Ho Hlen) as Hstep.
    case_bool_decide as Hpre.
    + destruct Hstep as (-> & Hlt & rest & -> & Hseg). cbn [in_range ok_or mbind result_bind]. rewrite Hlt, Hseg. cbn [in_range ok_or mbind result_bind].
      rewrite bool_decide_true by done. fold (tree_bytes c) (tree_hash c). apply prefix_length in Hpre as Hle. rewrite length_from in Hle.
      assert (0 < len p) as Hpos by (destruct p; [done|unfold len; cbn; lia]). cbn [depth] in Hd.
      assert (drop (length p) (from path offset) = from path (offset + len p)) as Hrest by (rewrite from_add; f_equal; unfold len; lia).
      destruct (IH c (offset + len p) out1) as (out' & -> & Hcol2 & Hcov & Hval);
        [done|unfold len in *; lia|done|unfold len in *; lia|unfold len in *; lia|done|apply Hcol..|].
      exists out'. split; [done|]. split; [by eapply collected_trans|]. rewrite Hrest. split; [|done].
      split; [eapply has_mono, Hhas; apply Hcol2|done].
    + destruct (walk_fits offset p c Hs Hd) as [e He']. rewrite He' in *. destruct Hstep as [|(e' & [= <-] & Hstep)]; [done|].
      cbn [in_range ok_or mbind result_bind]. destruct Hstep as [->|(-> & rest & segment & -> & Hseg & Hne')]; [by exists out1|].
      cbn [in_range ok_or mbind result_bind]. rewrite Hseg. cbn [in_range ok_or mbind result_bind]. rewrite bool_decide_false by done. by exists out1.
Qed.

(** ** Stores that agree *)

(** Two stores never hold different bytes under one hash. *)
Definition agree (a b : gmap Hash bytes) : Prop := forall h x y, a !! h = Some x -> b !! h = Some y -> x = y.

Lemma agree_insert a b h l : agree a b -> agree (<[h := l]> a) (<[h := l]> b).
Proof.
  intros Hab h' x y. destruct (decide (h = h')) as [->|Hne]; [rewrite !lookup_insert_eq; congruence|].
  rewrite !lookup_insert_ne by done. apply Hab.
Qed.

Lemma fetch_agree a b h n m : agree a b -> fetch_node a h = Ok n -> fetch_node b h = Ok m -> n = m.
Proof.
  unfold fetch_node. intros Hab. destruct (a !! h) as [x|] eqn:Hx; [|done]. destruct (b !! h) as [y|] eqn:Hy; [|done].
  rewrite (Hab h x y) by done. cbn. destruct (Node_decode y); cbn; congruence.
Qed.

(** A run on one store and on another that agrees with it: the results are equal
    when both runs succeed. *)
Lemma run_agree {A} (p : prog A) (g h : Trie) a g' a' h' :
  agree (tr_nodes g) (tr_nodes h) -> run_trie p g = Ok (a, g') -> run_trie p h = Ok (a', h') ->
  a = a' /\ agree (tr_nodes g') (tr_nodes h').
Proof.
  revert g h. induction p as [x|e|hash k IH|n k IH]; intros g h Hab; cbn [run_trie].
  - intros [= -> <-] [= -> <-]. done.
  - done.
  - intros Hg Hh. destruct (fetch_node (tr_nodes g) hash) as [n|] eqn:Hn; [|done].
    destruct (fetch_node (tr_nodes h) hash) as [m|] eqn:Hm; [|done]. cbn in Hg, Hh.
    rewrite (fetch_agree _ _ _ _ _ Hab Hn Hm) in Hg. by eapply IH.
  - apply IH. by apply agree_insert.
Qed.

(** Collisions met on a part of a store are met on the whole. *)
Lemma fetch_sub (a b : gmap Hash bytes) h n : a ⊆ b -> fetch_node a h = Ok n -> fetch_node b h = Ok n.
Proof.
  unfold fetch_node. intros Hab. destruct (a !! h) as [x|] eqn:Hx; [|done]. by rewrite (lookup_weaken _ _ _ _ Hx Hab).
Qed.

Lemma entry_free_sub (a b : gmap Hash bytes) h l : a ⊆ b -> entry_free b h l = true -> entry_free a h l = true.
Proof.
  unfold entry_free. intros Hab. destruct (a !! h) as [x|] eqn:Hx; [|done]. by rewrite (lookup_weaken _ _ _ _ Hx Hab).
Qed.

Lemma clash_free_sub {A} (p : prog A) (g h : Trie) :
  tr_nodes g ⊆ tr_nodes h -> clash_free p h = true -> clash_free p g = true.
Proof.
  revert g h. induction p as [x|e|hash k IH|n k IH]; intros g h Hab; cbn [clash_free]; [done|done|..].
  - destruct (fetch_node (tr_nodes g) hash) as [n|] eqn:Hn; [|done]. rewrite (fetch_sub _ _ _ _ Hab Hn). by apply IH.
  - intros [[Hz Hf]%andb_true_iff Hc]%andb_true_iff. rewrite Hz, (entry_free_sub _ _ _ _ Hab Hf). cbn.
    eapply IH, Hc. cbn. by apply insert_mono.
Qed.

Lemma run_sub {A} (p : prog A) (g h : Trie) a g' a' h' :
  tr_nodes g ⊆ tr_nodes h -> run_trie p g = Ok (a, g') -> run_trie p h = Ok (a', h') ->
  a = a' /\ tr_nodes g' ⊆ tr_nodes h'.
Proof.
  revert g h. induction p as [x|e|hash k IH|n k IH]; intros g h Hab; cbn [run_trie].
  - intros [= -> <-] [= -> <-]. done.
  - done.
  - intros Hg Hh. destruct (fetch_node (tr_nodes g) hash) as [n|] eqn:Hn; [|done].
    rewrite (fetch_sub _ _ _ _ Hab Hn) in Hh. cbn in Hg, Hh. by eapply IH.
  - apply IH. cbn. by apply insert_mono.
Qed.

(** ** Reading a persisted trie *)

(** The outcome of a read through the stores, from the outcome of [Trie::get]. *)
Definition persisted_outcome (r : result TrieFault (option bytes)) (o : option (result TrieError (option bytes))) : Prop :=
  match r with
  | Ok v => o = Some (Ok v)
  | Err MissingNode | Err MissingValue => o = Some (Err MissingRetainedEntry)
  | Err MalformedNode => exists e, o = Some (Err e)
  | Err BadIndex | Err OutOfFuel => o = None
  end.

Lemma persisted_walk_spec (nodes values : gmap Hash bytes) fuel path current consumed :
  persisted_outcome
    (found ← get_walk nodes fuel path current consumed;
     match found with
     | None => Ok None
     | Some value_hash => value ← ok_or (values !! value_hash) MissingValue; Ok (Some value)
     end)
    (persisted_walk (fun h => nodes !! h) (fun h => values !! h) fuel path current consumed).
Proof.
  revert current consumed. induction fuel as [|fuel IH]; intros current consumed; cbn [get_walk persisted_walk]; [done|].
  case_bool_decide; [done|]. unfold fetch_node. destruct (nodes !! current) as [l|]; cbn; [|done].
  destruct (Node_decode l) as [[p v|a b|p c]|e]; cbn; [..|by exists e].
  - destruct (BitPath_suffix path consumed); cbn; [|done]. case_bool_decide; cbn; [|done]. by destruct (values !! v).
  - destruct (bp_len path <=? consumed); [done|]. destruct (BitPath_bit path consumed) as [x|]; cbn; [apply IH|done].
  - destruct (checked_add U32_MAX consumed (bp_len p)) as [e|]; cbn; [|done]. destruct (bp_len path <? e); [done|].
    destruct (BitPath_suffix path consumed) as [rest|]; cbn; [|done]. destruct (BitPath_prefix rest (bp_len p)) as [seg|]; cbn; [|done].
    case_bool_decide; [apply IH|done].
Qed.

End Walk.
