(* ===== verification/TrieMap.v ===== *)
(** * The trie as a map

    A trie stands for a finite map from keys to values.  Reading, inserting and
    removing refine the operations of the map; the root hash is a function of the
    map alone, whatever the order of the operations that built it; reads of a
    persisted trie are reads of the trie. *)

From S2P Require Import Prelude Primitives Bits TrieNode Trie TrieSpec TrieStore TrieWalk.

(** The content of a trie. *)
Abbreviation content :=
  (@gmap (list N) (@list_eq_dec N N.eq_dec) (@list_countable N N.eq_dec N_countable) (list N)) (only parsing).

Section Map.
Context `{Hasher} `{!HasherLaws}.

(** ** Trees that may be empty *)

Definition olookup (t : option tree) (k : list bool) : option Hash := t ≫= fun t => tlookup t k.

Definition oinsert (t : option tree) (k : list bool) (v : Hash) : option tree :=
  match t with None => Some (TLeaf k v) | Some t => tinsert t k v end.

Definition oinsert_nodes (t : option tree) (k : list bool) (v : Hash) : list tree :=
  match t with None => [TLeaf k v] | Some t => insert_nodes t k v end.

(** The tree without a key. *)
Definition oremove (t : option tree) (k : list bool) : option tree :=
  match t with
  | None => None
  | Some t => match tremove t k with Some (t', _) => t' | None => Some t end
  end.

Definition oremove_nodes (t : option tree) (k : list bool) : list tree :=
  match t with None => [] | Some t => remove_nodes t k end.

Lemma oinsert_lookup t k v t' k2 x : oinsert t k v = Some t' ->
  tlookup t' k2 = Some x <-> k2 = k /\ x = v \/ k2 <> k /\ olookup t k2 = Some x.
Proof.
  destruct t as [t|]; cbn [oinsert]; [apply insert_lookup|]. intros [= <-]. rewrite tlookup_leaf. cbn. naive_solver.
Qed.

Lemma oremove_lookup t k k2 x : olookup (oremove t k) k2 = Some x <-> k2 <> k /\ olookup t k2 = Some x.
Proof.
  destruct t as [t|]; cbn [oremove]; [|cbn; naive_solver]. destruct (tremove t k) as [[t' v]|] eqn:Hr; [by eapply remove_lookup|].
  cbn. split; [|by intros [_ ?]]. intros Hx. split; [|done]. intros ->. by rewrite remove_found, Hr in Hx.
Qed.

Lemma oinsert_shaped t k v t' : length v = 32%nat -> N.of_nat (length k) <= U32_MAX ->
  (forall t0, t = Some t0 -> shaped t0) -> oinsert t k v = Some t' -> shaped t'.
Proof.
  intros Hv Hk Hs. destruct t as [t|]; cbn [oinsert]; [by apply insert_shaped; [..|apply Hs]|]. intros [= <-]. by constructor.
Qed.

Lemma oremove_shaped t k t' : (forall t0, t = Some t0 -> shaped t0) -> oremove t k = Some t' -> shaped t'.
Proof.
  intros Hs. destruct t as [t|]; cbn [oremove]; [|done]. destruct (tremove t k) as [[t0 v]|] eqn:Hr; [|by apply Hs].
  intros ->. eapply remove_shaped, Hr. by apply Hs.
Qed.

(** ** The content of a tree *)

(** The tree holds the hashes of the values of [s] at the paths of its keys. *)
Record holds (t : option tree) (s : content) : Prop := {
  ho_keys : forall key, is_Some (s !! key) -> key_ok key;
  ho_lookup : forall k v, olookup t k = Some v <-> exists key l, k = key_bits key /\ s !! key = Some l /\ v = hash_value l;
}.

Lemma key_bits_inj k1 k2 : key_ok k1 -> key_ok k2 -> key_bits k1 = key_bits k2 -> k1 = k2.
Proof. intros H1 H2 Heq. apply key_bits_prefix_free; [done..|]. by rewrite Heq. Qed.

Lemma holds_lookup t s key : holds t s -> key_ok key -> olookup t (key_bits key) = hash_value <$> s !! key.
Proof.
  intros Hh Hk. destruct (olookup t (key_bits key)) as [v|] eqn:Hv.
  - apply (ho_lookup _ _ Hh) in Hv as (key' & l & Hbits & Hl & ->).
    apply key_bits_inj in Hbits as ->; [by rewrite Hl|done|apply (ho_keys _ _ Hh); eauto].
  - destruct (s !! key) as [l|] eqn:Hl; [|done]. cbn.
    assert (olookup t (key_bits key) = Some (hash_value l)) as Hv' by (apply (ho_lookup _ _ Hh); eauto). congruence.
Qed.

Lemma holds_empty : holds None ∅.
Proof.
  constructor; [intros key [l Hl]; by rewrite lookup_empty in Hl|]. intros k v. split; [done|].
  intros (key & l & _ & Hl & _). by rewrite lookup_empty in Hl.
Qed.

Lemma holds_insert t s key l t' : holds t s -> key_ok key ->
  oinsert t (key_bits key) (hash_value l) = Some t' -> holds (Some t') (<[key := l]> s).
Proof.
  intros Hh Hk Ht. constructor.
  - intros key' [l' Hl']. destruct (decide (key = key')) as [<-|Hne]; [done|]. rewrite lookup_insert_ne in Hl' by done.
    apply (ho_keys _ _ Hh). eauto.
  - intros k v. cbn. rewrite (oinsert_lookup _ _ _ _ _ _ Ht). split.
    + intros [[-> ->]|(Hne & (key' & l' & -> & Hl' & ->)%(ho_lookup _ _ Hh))].
      * exists key, l. by rewrite lookup_insert_eq.
      * exists key', l'. rewrite lookup_insert_ne by congruence. done.
    + intros (key' & l' & -> & Hl' & ->). destruct (decide (key = key')) as [<-|Hne].
      * rewrite lookup_insert_eq in Hl'. injection Hl' as <-. by left.
      * rewrite lookup_insert_ne in Hl' by done. right. split; [|apply (ho_lookup _ _ Hh); eauto].
        intros Hbits. apply key_bits_inj in Hbits; [congruence|apply (ho_keys _ _ Hh); eauto|done].
Qed.

Lemma holds_remove t s key : holds t s -> key_ok key -> holds (oremove t (key_bits key)) (delete key s).
Proof.
  intros Hh Hk. constructor.
  - intros key' [l Hl]. apply lookup_delete_Some in Hl as [_ Hl]. apply (ho_keys _ _ Hh). eauto.
  - intros k v. rewrite oremove_lookup. split.
    + intros (Hne & (key' & l & -> & Hl & ->)%(ho_lookup _ _ Hh)). exists key', l. rewrite lookup_delete_ne by congruence. done.
    + intros (key' & l & -> & Hl & ->). apply lookup_delete_Some in Hl as [Hne Hl]. split; [|apply (ho_lookup _ _ Hh); eauto].
      intros Hbits. apply key_bits_inj in Hbits; [congruence|apply (ho_keys _ _ Hh); eauto|done].
Qed.

(** Key paths never run into each other, so an insertion never fails. *)
Lemma holds_succeeds t s key v : holds t s -> (forall t0, t = Some t0 -> shaped t0) -> key_ok key ->
  is_Some (oinsert t (key_bits key) v).
Proof.
  intros Hh Hs Hk. destruct t as [t|]; [|by eexists]. apply insert_succeeds; [by apply Hs|].
  intros k2 x Hx Hpre. apply (ho_lookup _ _ Hh) in Hx as (key' & l & -> & Hl & ->).
  assert (key_ok key') as Hk' by (apply (ho_keys _ _ Hh); eauto).
  destruct Hpre as [Hpre|Hpre]; apply key_bits_prefix_free in Hpre as ->; done.
Qed.

(** ** The tree is determined by the content *)

Lemma canonical_determined t1 t2 s :
  holds t1 s -> holds t2 s -> (forall t, t1 = Some t -> shaped t) -> (forall t, t2 = Some t -> shaped t) -> t1 = t2.
Proof.
  intros H1 H2 Hs1 Hs2. assert (forall k, olookup t1 k = olookup t2 k) as Heq.
  { intros k. apply option_eq. intros v. by rewrite (ho_lookup _ _ H1), (ho_lookup _ _ H2). }
  destruct t1 as [t1|], t2 as [t2|]; [|destruct (tree_has_key t1) as (k & v & Hk)|destruct (tree_has_key t2) as (k & v & Hk)|done].
  - f_equal. apply canonical_unique; [by apply Hs1|by apply Hs2|done].
  - specialize (Heq k). cbn in Heq. congruence.
  - specialize (Heq k). cbn in Heq. congruence.
Qed.

(** ** Operations of a trie *)

(** The root of [tr] is that of [t], a tree for the content [s]. *)
Record rooted (tr : Trie) (t : option tree) (s : content) : Prop := {
  ro_root : tr_root tr = root_hash t;
  ro_shaped : forall t0, t = Some t0 -> shaped t0;
  ro_holds : holds t s;
}.

Lemma for_key_path key : key_ok key -> BitPath_for_key key = Some (key_path key) /\ path_wf (key_path key)
  /\ from (key_path key) 0 = key_bits key.
Proof. intros Hk. split_and!; [by apply for_key_spec|by apply key_path_wf|done]. Qed.

Lemma get_spec tr t s key :
  rooted tr t s -> key_ok key ->
  (forall t0, t = Some t0 -> reach (has (tr_nodes tr)) t0 (key_bits key)) ->
  (forall l, s !! key = Some l -> tr_values tr !! hash_value l = Some l) ->
  Trie_get key tr = Ok (s !! key).
Proof.
  intros Hro Hk Hr Hv. destruct (for_key_path key Hk) as (Hpath & Hw & Hfrom). unfold Trie_get. rewrite Hpath. cbn [in_range ok_or mbind result_bind].
  assert (get_walk (tr_nodes tr) (path_fuel (key_path key)) (key_path key) (tr_root tr) 0 = Ok (olookup t (key_bits key))) as ->.
  { rewrite (ro_root _ _ _ Hro). destruct t as [t|]; cbn [root_hash]; [|done]. rewrite <- Hfrom.
    pose proof (ro_shaped _ _ _ Hro t eq_refl) as Hs.
    apply get_walk_spec; [done|lia|done|apply Hs|unfold path_fuel; lia|rewrite Hfrom; by apply Hr]. }
  rewrite (holds_lookup _ _ _ (ro_holds _ _ _ Hro) Hk). cbn [mbind result_bind]. destruct (s !! key) as [l|] eqn:Hl; [|done].
  cbn. by rewrite Hv.
Qed.

(** What an operation does to a trie: nodes and values are only added, and the
    additions are pending. *)
Record extended (tr tr' : Trie) : Prop := {
  ex_nodes : tr_nodes tr ⊆ tr_nodes tr';
  ex_values : tr_values tr ⊆ tr_values tr';
  ex_pending_nodes : forall base, collect_map (base ++ tr_pending_nodes tr) = tr_nodes tr ->
    collect_map (base ++ tr_pending_nodes tr') = tr_nodes tr';
  ex_pending_values : forall base, collect_map (base ++ tr_pending_values tr) = tr_values tr ->
    collect_map (base ++ tr_pending_values tr') = tr_values tr';
}.

Lemma store_value_extended l tr : entry_free (tr_values tr) (hash_value l) l = true -> extended tr (store_value l tr).2.
Proof.
  unfold entry_free. intros Hf. constructor; [done| |done|]; cbn.
  - destruct (tr_values tr !! hash_value l) as [l'|] eqn:Hl; [|by apply insert_subseteq].
    apply bool_decide_eq_true in Hf as ->. by rewrite insert_id.
  - intros base Hbase. destruct (tr_values tr !! hash_value l) as [l'|] eqn:Hl; [|by rewrite app_assoc, collect_map_snoc, Hbase].
    apply bool_decide_eq_true in Hf as ->. by rewrite insert_id.
Qed.

Lemma grown_extended a b c root : extended a b -> grown b c -> extended a (set_root root c).
Proof.
  intros [] []. constructor; cbn; [by etrans|by rewrite gr_values|by auto|]. intros base Hbase. rewrite gr_values, gr_pending_values. by auto.
Qed.

Lemma extended_refl tr : extended tr tr.
Proof. by constructor. Qed.

Lemma extended_trans a b c : extended a b -> extended b c -> extended a c.
Proof. intros [] []. constructor; [by etrans|by etrans|by auto..]. Qed.

Lemma insert_spec tr t s key l :
  rooted tr t s -> key_ok key -> insert_clash_free key l tr = true ->
  (forall t0, t = Some t0 -> reach (has (tr_nodes tr)) t0 (key_bits key)) ->
  exists t' tr', Trie_insert key l tr = Ok (Ok tt, tr')
    /\ oinsert t (key_bits key) (hash_value l) = Some t'
    /\ rooted tr' (Some t') (<[key := l]> s) /\ extended tr tr'
    /\ tr_values tr' !! hash_value l = Some l
    /\ Forall (has (tr_nodes tr')) (oinsert_nodes t (key_bits key) (hash_value l)).
Proof.
  intros Hro Hk Hcf Hr. destruct (for_key_path key Hk) as (Hpath & Hw & Hfrom).
  unfold insert_clash_free in Hcf. rewrite Hpath in Hcf. apply andb_true_iff in Hcf as [Hfree Hcf].
  unfold Trie_insert. rewrite Hpath. cbn [in_range ok_or mbind result_bind store_value] in *.
  set (tr1 := {| tr_nodes := tr_nodes tr |}) in *.
  destruct (holds_succeeds t s key (hash_value l) (ro_holds _ _ _ Hro) (ro_shaped _ _ _ Hro) Hk) as [t' Ht'].
  assert (pwp (insert_at (path_fuel (key_path key)) (tr_root tr1) (key_path key) 0 (hash_value l)) tr1
    (fun r tr2 => r = Ok (tree_hash t') /\ Forall (has (tr_nodes tr2)) (oinsert_nodes t (key_bits key) (hash_value l)))) as Hpwp.
  { change (tr_root tr1) with (tr_root tr). rewrite (ro_root _ _ _ Hro). destruct t as [t|]; cbn [root_hash oinsert oinsert_nodes] in *.
    - eapply pwp_mono.
      + apply insert_at_spec; [done|lia|by apply (ro_shaped _ _ _ Hro)|unfold path_fuel; lia|]. rewrite Hfrom. by apply Hr.
      + intros r tr2 _ Hins. rewrite Hfrom in Hins. unfold inserted in Hins. by rewrite Ht' in Hins.
    - injection Ht' as <-. eapply pwp_mono; [by apply insert_at_empty|]. intros r tr2 _ [-> Hleaf]. split; [done|by apply Forall_singleton]. }
  destruct (Hpwp Hcf) as (r & tr2 & -> & Hg & -> & Hall). cbn [mbind result_bind]. exists t', (set_root (tree_hash t') tr2).
  split; [done|]. split; [done|].
  assert (tr_values tr2 = <[hash_value l := l]> (tr_values tr)) as Hv by apply (gr_values _ _ Hg).
  split_and!; [|eapply grown_extended, Hg; by apply store_value_extended|cbn; rewrite Hv; apply lookup_insert_eq|done].
  constructor; [done| |by eapply holds_insert, Ht'; [apply Hro|]].
  intros t0 [= <-]. eapply oinsert_shaped, Ht'; [apply hash_value_length| |apply Hro].
  unfold key_bits. rewrite length_bits. destruct Hk as [_ Hmax]. cbn [key_path bp_len]. lia.
Qed.

Lemma remove_spec tr t s key :
  rooted tr t s -> key_ok key -> remove_clash_free key tr = true ->
  (forall t0, t = Some t0 -> removable (has (tr_nodes tr)) t0 (key_bits key)) ->
  exists tr', Trie_remove key tr = Ok (l ← s !! key; tr_values tr !! hash_value l, tr')
    /\ rooted tr' (oremove t (key_bits key)) (delete key s) /\ extended tr tr' /\ tr_values tr' = tr_values tr
    /\ Forall (has (tr_nodes tr')) (oremove_nodes t (key_bits key)).
Proof.
  intros Hro Hk Hcf Hr. destruct (for_key_path key Hk) as (Hpath & Hw & Hfrom).
  unfold remove_clash_free in Hcf. rewrite Hpath in Hcf. unfold Trie_remove. rewrite Hpath. cbn [in_range ok_or mbind result_bind].
  assert (pwp (remove_at (path_fuel (key_path key)) (tr_root tr) (key_path key) 0) tr
    (fun r tr2 => r = (root_hash (oremove t (key_bits key)), olookup t (key_bits key))
       /\ Forall (has (tr_nodes tr2)) (oremove_nodes t (key_bits key)))) as Hpwp.
  { rewrite (ro_root _ _ _ Hro). destruct t as [t|]; cbn [root_hash oremove oremove_nodes olookup mbind option_bind].
    - eapply pwp_mono.
      + apply remove_at_spec; [done|lia|by apply (ro_shaped _ _ _ Hro)|unfold path_fuel; lia|]. rewrite Hfrom. by apply Hr.
      + intros r tr2 _ Hrem. rewrite Hfrom in Hrem. unfold removed_at in Hrem. rewrite remove_found.
        destruct (tremove t (key_bits key)) as [[t' v]|] eqn:Hc; [done|]. subst r. split; [done|].
        assert (forall t k, tremove t k = None -> remove_nodes t k = []) as Hnil; [|by rewrite Hnil].
        clear. induction t as [s w|l IHl r IHr|p c IH]; intros k; cbn; [done|..].
        * destruct k as [|b k]; [done|]. intros Hn. destruct (tremove _ k) as [[]|] eqn:Hc; [done|]. rewrite app_nil_r. destruct b; auto.
        * case_bool_decide; [|done]. intros Hn. destruct (tremove c _) as [[]|] eqn:Hc; [done|]. rewrite app_nil_r. auto.
    - cbn. apply pwp_ret. split; [done|constructor]. }
  destruct (Hpwp Hcf) as ([root removed] & tr2 & -> & Hg & [= -> ->] & Hall). cbn [mbind result_bind].
  rewrite (holds_lookup _ _ _ (ro_holds _ _ _ Hro) Hk), (gr_values _ _ Hg).
  eexists. split; [by destruct (s !! key)|].
  split_and!; [|eapply grown_extended, Hg; apply extended_refl|apply Hg|done].
  constructor; [done|intros t0 Ht0; eapply oremove_shaped, Ht0; apply Hro|]. apply holds_remove; [apply Hro|done].
Qed.

(** ** Complete tries *)

(** Every node of the tree and every value of the content is stored. *)
Record models (tr : Trie) (t : option tree) (s : content) : Prop := {
  md_rooted : rooted tr t s;
  md_nodes : forall t0, t = Some t0 -> everywhere (has (tr_nodes tr)) t0;
  md_values : forall key l, s !! key = Some l -> tr_values tr !! hash_value l = Some l;
}.

(** The trie stands for the content. *)
Definition represents (tr : Trie) (s : content) : Prop := exists t, models tr t s.

Lemma models_removable tr t s key t0 : models tr t s -> t = Some t0 -> removable (has (tr_nodes tr)) t0 (key_bits key).
Proof.
  intros Hm Ht. apply (md_nodes _ _ _ Hm), (everywhere_cover _ _ (key_bits key)) in Ht. split; [by apply cover_reach|done].
Qed.

Lemma oinsert_everywhere (P Q : tree -> Prop) t k v t' : (forall t, P t -> Q t) -> oinsert t k v = Some t' ->
  Forall Q (oinsert_nodes t k v) -> (forall t0, t = Some t0 -> everywhere P t0) -> everywhere Q t'.
Proof.
  intros HPQ Ht Hall Hp. destruct t as [t|]; cbn [oinsert oinsert_nodes] in *; [eapply insert_everywhere; eauto|].
  injection Ht as <-. split; [by apply forall_one in Hall|done].
Qed.

Lemma oremove_everywhere (P Q : tree -> Prop) t k t' : (forall t, P t -> Q t) -> oremove t k = Some t' ->
  Forall Q (oremove_nodes t k) -> (forall t0, t = Some t0 -> everywhere P t0) -> everywhere Q t'.
Proof.
  intros HPQ Ht Hall Hp. destruct t as [t|]; cbn [oremove oremove_nodes] in *; [|done].
  destruct (tremove t k) as [[t0 v]|] eqn:Hr; [subst t0; eapply remove_everywhere; eauto|].
  injection Ht as <-. eapply everywhere_mono; [exact HPQ|]. by apply Hp.
Qed.

Lemma models_insert tr t s key l : models tr t s -> key_ok key -> insert_clash_free key l tr = true ->
  exists t' tr', Trie_insert key l tr = Ok (Ok tt, tr') /\ models tr' (Some t') (<[key := l]> s) /\ extended tr tr'
    /\ oinsert t (key_bits key) (hash_value l) = Some t'
    /\ Forall (has (tr_nodes tr')) (oinsert_nodes t (key_bits key) (hash_value l)).
Proof.
  intros Hm Hk Hcf. destruct (insert_spec tr t s key l (md_rooted _ _ _ Hm) Hk Hcf) as (t' & tr' & Hrun & Ht' & Hro & Hex & Hv & Hall).
  { intros t0 Ht. by destruct (models_removable tr t s key t0 Hm Ht). }
  exists t', tr'. split_and!; [done| |done..]. constructor; [done|..].
  - intros t0 [= <-]. eapply oinsert_everywhere; [|done..|apply Hm]. intros t0. apply has_mono, Hex.
  - intros key' l'. destruct (decide (key = key')) as [<-|Hne]; [rewrite lookup_insert_eq; by intros [= <-]|].
    rewrite lookup_insert_ne by done. intros Hl'. eapply lookup_weaken; [by apply (md_values _ _ _ Hm _ _ Hl')|apply Hex].
Qed.

Lemma models_remove tr t s key : models tr t s -> key_ok key -> remove_clash_free key tr = true ->
  exists tr', Trie_remove key tr = Ok (s !! key, tr') /\ models tr' (oremove t (key_bits key)) (delete key s) /\ extended tr tr'
    /\ Forall (has (tr_nodes tr')) (oremove_nodes t (key_bits key)).
Proof.
  intros Hm Hk Hcf. destruct (remove_spec tr t s key (md_rooted _ _ _ Hm) Hk Hcf) as (tr' & Hrun & Hro & Hex & Hv & Hall).
  { intros t0 Ht. by apply (models_removable tr t s key t0). }
  exists tr'. split.
  - rewrite Hrun. do 2 f_equal. destruct (s !! key) as [l|] eqn:Hl; [|done]. cbn. by apply (md_values _ _ _ Hm _ _ Hl).
  - split_and!; [|done|done]. constructor; [done|..].
    + intros t0 Ht0. eapply oremove_everywhere; [|done..|apply Hm]. intros t1. apply has_mono, Hex.
    + intros key' l' [_ Hl']%lookup_delete_Some. rewrite Hv. by apply (md_values _ _ _ Hm _ _ Hl').
Qed.

Lemma models_get tr t s key : models tr t s -> key_ok key -> Trie_get key tr = Ok (s !! key).
Proof.
  intros Hm Hk. eapply get_spec; [apply Hm|done| |by apply Hm].
  intros t0 Ht. by destruct (models_removable tr t s key t0 Hm Ht).
Qed.

Lemma models_new : models Trie_new None ∅.
Proof.
  constructor; [constructor; [done|done|apply holds_empty]|done|]. intros key l Hl. by rewrite lookup_empty in Hl.
Qed.

(** ** Sequences of operations *)

Inductive trie_op :=
| OpInsert (key value : bytes)
| OpRemove (key : bytes).

Inductive trie_answer :=
| Inserted (r : result TrieError unit)
| Removed (value : option bytes).

Definition op_key (op : trie_op) : bytes := match op with OpInsert key _ | OpRemove key => key end.

Definition run_op (op : trie_op) (tr : Trie) : result TrieFault (trie_answer * Trie) :=
  match op with
  | OpInsert key value => '(r, tr) ← Trie_insert key value tr; Ok (Inserted r, tr)
  | OpRemove key => '(value, tr) ← Trie_remove key tr; Ok (Removed value, tr)
  end.

Fixpoint run_ops (ops : list trie_op) (tr : Trie) : result TrieFault (list trie_answer * Trie) :=
  match ops with
  | [] => Ok ([], tr)
  | op :: ops => '(a, tr) ← run_op op tr; '(answers, tr) ← run_ops ops tr; Ok (a :: answers, tr)
  end.

(** The same on a map. *)
Definition map_op (op : trie_op) (s : content) : trie_answer * content :=
  match op with
  | OpInsert key value => (Inserted (Ok tt), <[key := value]> s)
  | OpRemove key => (Removed (s !! key), delete key s)
  end.

Fixpoint map_ops (ops : list trie_op) (s : content) : list trie_answer * content :=
  match ops with
  | [] => ([], s)
  | op :: ops => let '(a, s) := map_op op s in let '(answers, s) := map_ops ops s in (a :: answers, s)
  end.

Lemma map_ops_app ops1 ops2 s : (map_ops (ops1 ++ ops2) s).2 = (map_ops ops2 (map_ops ops1 s).2).2.
Proof.
  revert s. induction ops1 as [|op ops1 IH]; intros s; [done|]. cbn. destruct (map_op op s) as [a s1]. specialize (IH s1).
  destruct (map_ops (ops1 ++ ops2) s1), (map_ops ops1 s1). done.
Qed.

Definition op_clash_free (op : trie_op) (tr : Trie) : bool :=
  match op with
  | OpInsert key value => insert_clash_free key value tr
  | OpRemove key => remove_clash_free key tr
  end.

Fixpoint ops_clash_free (ops : list trie_op) (tr : Trie) : bool :=
  match ops with
  | [] => true
  | op :: ops => op_clash_free op tr && match run_op op tr with Ok (_, tr) => ops_clash_free ops tr | Err _ => true end
  end.

Lemma models_op op tr t s : models tr t s -> key_ok (op_key op) -> op_clash_free op tr = true ->
  exists t' tr', run_op op tr = Ok ((map_op op s).1, tr') /\ models tr' t' (map_op op s).2 /\ extended tr tr'.
Proof.
  intros Hm Hk Hcf. destruct op as [key l|key]; cbn [op_key op_clash_free run_op map_op fst snd] in *.
  - destruct (models_insert tr t s key l Hm Hk Hcf) as (t' & tr' & -> & Hm' & Hex & _). by exists (Some t'), tr'.
  - destruct (models_remove tr t s key Hm Hk Hcf) as (tr' & -> & Hm' & Hex & _). by eexists _, tr'.
Qed.

Lemma models_ops ops tr t s : models tr t s -> Forall (fun op => key_ok (op_key op)) ops -> ops_clash_free ops tr = true ->
  exists t' tr', run_ops ops tr = Ok ((map_ops ops s).1, tr') /\ models tr' t' (map_ops ops s).2 /\ extended tr tr'.
Proof.
  revert tr t s. induction ops as [|op ops IH]; intros tr t s Hm Hk Hcf; [exists t, tr; auto using extended_refl|].
  apply Forall_cons in Hk as [Hop Hk]. cbn [ops_clash_free run_ops map_ops] in *. apply andb_true_iff in Hcf as [Hcf1 Hcf2].
  destruct (models_op op tr t s Hm Hop Hcf1) as (t1 & tr1 & Hrun & Hm1 & Hex1). rewrite Hrun in *. cbn [mbind result_bind].
  destruct (IH tr1 t1 _ Hm1 Hk Hcf2) as (t2 & tr2 & -> & Hm2 & Hex2). cbn [mbind result_bind].
  destruct (map_op op s) as [a s1]. cbn [fst snd] in *. destruct (map_ops ops s1) as [answers s2].
  exists t2, tr2. split_and!; [done..|by eapply extended_trans].
Qed.

(** C5: the state trie implements a finite map.  Any sequence of insertions and
    removals on a new trie runs without a panic, answers each operation as the map
    does (removal returns the previous value), and leaves a trie whose reads are the
    lookups of the resulting map, for every key of a length the trie encodes, unless
    two of the nodes or values stored on the way collide. *)
Theorem trie_refines_map ops :
  Forall (fun op => key_ok (op_key op)) ops -> ops_clash_free ops Trie_new = true ->
  exists tr, run_ops ops Trie_new = Ok ((map_ops ops ∅).1, tr)
    /\ forall key, key_ok key -> Trie_get key tr = Ok ((map_ops ops ∅).2 !! key).
Proof.
  intros Hk Hcf. destruct (models_ops ops _ _ _ models_new Hk Hcf) as (t & tr & Hrun & Hm & _).
  exists tr. split; [done|]. intros key Hkey. by eapply models_get.
Qed.

(** ** The root commits to the content *)

Lemma models_root tr1 tr2 t1 t2 s : models tr1 t1 s -> models tr2 t2 s -> tr_root tr1 = tr_root tr2.
Proof.
  intros H1 H2. rewrite (ro_root _ _ _ (md_rooted _ _ _ H1)), (ro_root _ _ _ (md_rooted _ _ _ H2)).
  f_equal. eapply canonical_determined; [apply H1|apply H2|apply H1|apply H2].
Qed.

Lemma pack_inj m1 m2 : len m1 <= U32_MAX -> len m2 <= U32_MAX -> pack m1 = pack m2 -> m1 = m2.
Proof. intros H1 H2 Heq. rewrite <- (proj2 (pack_spec m1 H1)), Heq. by apply pack_spec. Qed.

Lemma has_node_inj (a b : gmap Hash bytes) t1 t2 : agree a b -> shaped t1 -> shaped t2 ->
  has a t1 -> has b t2 -> tree_hash t1 = tree_hash t2 -> tree_node t1 = tree_node t2.
Proof.
  intros Hab H1 H2 [Hh1 _] [Hh2 _] Heq. rewrite Heq in Hh1.
  apply node_encode_inj; [apply node_wf_typed, tree_node_wf; [apply H1|apply H1]|apply node_wf_typed, tree_node_wf; apply H2|].
  by eapply Hab.
Qed.

(** Two trees of stores that agree have different hashes, unless they are equal. *)
Lemma tree_hash_inj (a b : gmap Hash bytes) t1 t2 : agree a b -> shaped t1 -> shaped t2 ->
  everywhere (has a) t1 -> everywhere (has b) t2 -> tree_hash t1 = tree_hash t2 -> t1 = t2.
Proof.
  intros Hab. revert t2. induction t1 as [s w|l IHl r IHr|p c IH]; intros t2 Hs1 Hs2 He1 He2 Heq;
    (apply (has_node_inj a b) in Heq; [|first [done|by apply everywhere_root]..]);
    pose proof (sh_depth _ Hs1) as Hd1; pose proof (sh_depth _ Hs2) as Hd2;
    destruct t2 as [s2 w2|l2 r2|p2 c2]; cbn [tree_node depth] in *; try done.
  - assert (pack s = pack s2 /\ w = w2) as [Hp ->] by (split; congruence). apply pack_inj in Hp as ->; [done|unfold len; lia..].
  - assert (tree_hash l = tree_hash l2 /\ tree_hash r = tree_hash r2) as [Hl Hr] by (unfold tree_hash, tree_bytes; split; congruence).
    apply shaped_branch in Hs1 as [], Hs2 as []. destruct He1 as (_ & ? & ?), He2 as (_ & ? & ?). f_equal; [by apply IHl|by apply IHr].
  - assert (pack p = pack p2 /\ tree_hash c = tree_hash c2) as [Hp Hc] by (unfold tree_hash, tree_bytes; split; congruence).
    apply shaped_ext in Hs1 as (_ & _ & ?), Hs2 as (_ & _ & ?). destruct He1 as [_ ?], He2 as [_ ?].
    apply pack_inj in Hp as ->; [|unfold len; lia..]. f_equal. by apply IH.
Qed.

Lemma models_commits tr1 tr2 t1 t2 s1 s2 : models tr1 t1 s1 -> models tr2 t2 s2 ->
  agree (tr_nodes tr1) (tr_nodes tr2) -> agree (tr_values tr1) (tr_values tr2) -> tr_root tr1 = tr_root tr2 -> s1 = s2.
Proof.
  intros H1 H2 Hn Hv Hroot. rewrite (ro_root _ _ _ (md_rooted _ _ _ H1)), (ro_root _ _ _ (md_rooted _ _ _ H2)) in Hroot.
  assert (t1 = t2) as <-.
  { pose proof (md_nodes _ _ _ H1) as He1. pose proof (md_nodes _ _ _ H2) as He2.
    destruct t1 as [t1|], t2 as [t2|]; cbn [root_hash] in Hroot; [|..|done].
    - f_equal. apply (tree_hash_inj _ _ t1 t2 Hn); [by apply H1|by apply H2|by apply He1|by apply He2|done].
    - by destruct (everywhere_root _ _ (He1 _ eq_refl)) as [_ []].
    - symmetry in Hroot. by destruct (everywhere_root _ _ (He2 _ eq_refl)) as [_ []]. }
  assert (forall tr tr' (s s' : content), models tr t1 s -> models tr' t1 s' -> agree (tr_values tr) (tr_values tr') ->
    forall key l, s !! key = Some l -> s' !! key = Some l) as Hsub.
  { clear. intros tr tr' s s' H1 H2 Hv key l Hl. pose proof (ro_holds _ _ _ (md_rooted _ _ _ H1)) as Ho1.
    pose proof (ro_holds _ _ _ (md_rooted _ _ _ H2)) as Ho2.
    assert (key_ok key) as Hk by (apply (ho_keys _ _ Ho1); eauto).
    pose proof (holds_lookup _ _ key Ho1 Hk) as Hk1. rewrite (holds_lookup _ _ key Ho2 Hk), Hl in Hk1.
    destruct (s' !! key) as [l'|] eqn:Hl'; [|done]. cbn in Hk1. injection Hk1 as Hh. f_equal.
    apply (md_values _ _ _ H1) in Hl. apply (md_values _ _ _ H2) in Hl'. rewrite Hh in Hl'. symmetry. by eapply Hv. }
  apply map_eq. intros key. apply option_eq. intros l. split; eapply Hsub; [..|intros h x y Hx Hy; symmetry; by eapply Hv]; done.
Qed.

(** C6: the root commits to the content.  Two histories of insertions and removals
    that end in the same map have the same root, whatever their order and their
    intermediate contents; conversely two tries with the same root, whose stores
    hold no colliding nodes or values, have the same map. *)
Theorem trie_root_commits ops1 ops2 tr1 tr2 answers1 answers2 :
  Forall (fun op => key_ok (op_key op)) ops1 -> ops_clash_free ops1 Trie_new = true -> run_ops ops1 Trie_new = Ok (answers1, tr1) ->
  Forall (fun op => key_ok (op_key op)) ops2 -> ops_clash_free ops2 Trie_new = true -> run_ops ops2 Trie_new = Ok (answers2, tr2) ->
  ((map_ops ops1 ∅).2 = (map_ops ops2 ∅).2 -> tr_root tr1 = tr_root tr2)
  /\ (agree (tr_nodes tr1) (tr_nodes tr2) -> agree (tr_values tr1) (tr_values tr2) ->
      tr_root tr1 = tr_root tr2 -> (map_ops ops1 ∅).2 = (map_ops ops2 ∅).2).
Proof.
  intros Hk1 Hcf1 Hr1 Hk2 Hcf2 Hr2.
  destruct (models_ops ops1 _ _ _ models_new Hk1 Hcf1) as (t1 & tr1' & Hrun1 & Hm1 & _). rewrite Hr1 in Hrun1. injection Hrun1 as _ <-.
  destruct (models_ops ops2 _ _ _ models_new Hk2 Hcf2) as (t2 & tr2' & Hrun2 & Hm2 & _). rewrite Hr2 in Hrun2. injection Hrun2 as _ <-.
  split; [|intros; by eapply models_commits]. intros Heq. rewrite Heq in Hm1. by eapply models_root.
Qed.

(** *** The root of a content *)

Definition content_tree (s : content) : option tree :=
  map_fold (fun key l t => match oinsert t (key_bits key) (hash_value l) with Some t => Some t | None => t end) None s.

Definition content_root (s : content) : Hash := root_hash (content_tree s).

Lemma content_tree_holds s : (forall key, is_Some (s !! key) -> key_ok key) ->
  holds (content_tree s) s /\ forall t, content_tree s = Some t -> shaped t.
Proof.
  unfold content_tree. apply (map_fold_weak_ind (fun t (s : content) => (forall key, is_Some (s !! key) -> key_ok key) ->
    holds t s /\ forall t0, t = Some t0 -> shaped t0)); [intros _; split; [apply holds_empty|done]|].
  intros key l m t Hfresh IH Hok. assert (key_ok key) as Hk by (apply Hok; rewrite lookup_insert_eq; by eexists).
  destruct IH as [Hh Hs].
  { intros key' Hk'. apply Hok. rewrite lookup_insert_ne; [done|]. intros ->. rewrite Hfresh in Hk'. by destruct Hk'. }
  destruct (holds_succeeds t m key (hash_value l) Hh Hs Hk) as [t' Ht']. rewrite Ht'. split; [by eapply holds_insert|].
  intros t0 [= <-]. eapply oinsert_shaped, Ht'; [apply hash_value_length| |done].
  unfold key_bits. rewrite length_bits. destruct Hk as [_ Hmax]. cbn [key_path bp_len]. lia.
Qed.

(** The root of a trie is that of its content. *)
Lemma represents_root tr s : represents tr s -> tr_root tr = content_root s.
Proof.
  intros [t [[Hr Hs Hh] _ _]]. unfold content_root. rewrite Hr. f_equal. destruct (content_tree_holds s) as [Hh' Hs']; [apply Hh|].
  by eapply canonical_determined.
Qed.

(** ** Persisted tries *)

(** The engine persists a trie by appending the pending entries of every block to
    the node and value columns. *)
Fixpoint persist_blocks (blocks : list (list trie_op)) (tr : Trie) (nodes values : list (Hash * bytes))
    : result TrieFault (Trie * (list (Hash * bytes) * list (Hash * bytes))) :=
  match blocks with
  | [] => Ok (tr, (nodes, values))
  | ops :: blocks =>
      '(_, tr) ← run_ops ops tr;
      let '(new_nodes, tr) := drain_pending_nodes tr in
      let '(new_values, tr) := drain_pending_values tr in
      persist_blocks blocks tr (nodes ++ new_nodes) (values ++ new_values)
  end.

Fixpoint blocks_clash_free (blocks : list (list trie_op)) (tr : Trie) : bool :=
  match blocks with
  | [] => true
  | ops :: blocks =>
      ops_clash_free ops tr
      && match run_ops ops tr with
         | Ok (_, tr) => blocks_clash_free blocks (drain_pending_values (drain_pending_nodes tr).2).2
         | Err _ => true
         end
  end.

(** The columns hold the entries of the trie, those that are pending apart. *)
Record saved (tr : Trie) (nodes values : list (Hash * bytes)) : Prop := {
  sa_nodes : collect_map (nodes ++ tr_pending_nodes tr) = tr_nodes tr;
  sa_values : collect_map (values ++ tr_pending_values tr) = tr_values tr;
}.

Lemma models_ext (tr tr' : Trie) t s : models tr t s -> tr_nodes tr' = tr_nodes tr -> tr_values tr' = tr_values tr ->
  tr_root tr' = tr_root tr -> models tr' t s.
Proof.
  intros [[Hr Hs Hh] Hn Hv] Hn' Hv' Hr'. constructor; [constructor; [by rewrite Hr'|done..]|by rewrite Hn'|by rewrite Hv'].
Qed.

Lemma models_blocks blocks tr t s nodes values :
  models tr t s -> Forall (fun op => key_ok (op_key op)) (concat blocks) -> blocks_clash_free blocks tr = true ->
  saved tr nodes values -> tr_pending_nodes tr = [] -> tr_pending_values tr = [] ->
  exists t' tr' nodes' values', persist_blocks blocks tr nodes values = Ok (tr', (nodes', values'))
    /\ models tr' t' (map_ops (concat blocks) s).2 /\ collect_map nodes' = tr_nodes tr' /\ collect_map values' = tr_values tr'.
Proof.
  revert tr t s nodes values. induction blocks as [|ops blocks IH]; intros tr t s nodes values Hm Hk Hcf Hsv Hpn Hpv.
  { exists t, tr, nodes, values. destruct Hsv as [Hn Hv]. rewrite Hpn, app_nil_r in Hn. rewrite Hpv, app_nil_r in Hv. done. }
  cbn [concat] in Hk. apply Forall_app in Hk as [Hk1 Hk2]. cbn [blocks_clash_free] in Hcf. apply andb_true_iff in Hcf as [Hcf1 Hcf2].
  destruct (models_ops ops tr t s Hm Hk1 Hcf1) as (t1 & tr1 & Hrun & Hm1 & Hex). rewrite Hrun in Hcf2.
  cbn [persist_blocks]. rewrite Hrun. cbn [mbind result_bind drain_pending_nodes drain_pending_values].
  destruct Hsv as [Hn Hv]. apply Hex in Hn, Hv.
  assert (models (drain_pending_values (drain_pending_nodes tr1).2).2 t1 (map_ops ops s).2) as Hm2 by (by eapply models_ext).
  destruct (IH _ t1 (map_ops ops s).2 (nodes ++ tr_pending_nodes tr1) (values ++ tr_pending_values tr1) Hm2 Hk2 Hcf2) as (t' & tr' & nodes' & values' & Hp & Hm' & Hn' & Hv'); [|done|done|].
  { by constructor; cbn; rewrite app_nil_r. }
  exists t', tr', nodes', values'. split_and!; [exact Hp| |done|done]. cbn [concat]. by rewrite map_ops_app.
Qed.

(** C21: persisting a trie block by block and reading it back.  After any blocks of
    operations, each followed by a drain of the pending nodes and values into the
    database, both reloading the trie from the database and looking a key up in the
    database without reloading give the lookup in the map of all operations. *)
Theorem persisted_trie_reads_back blocks key :
  Forall (fun op => key_ok (op_key op)) (concat blocks) -> blocks_clash_free blocks Trie_new = true -> key_ok key ->
  exists tr nodes values, persist_blocks blocks Trie_new [] [] = Ok (tr, (nodes, values))
    /\ Trie_get key (Trie_from_persisted (tr_root tr) nodes values) = Ok ((map_ops (concat blocks) ∅).2 !! key)
    /\ lookup_persisted (tr_root tr) key (fun h => collect_map nodes !! h) (fun h => collect_map values !! h)
       = Some (Ok ((map_ops (concat blocks) ∅).2 !! key)).
Proof.
  intros Hk Hcf Hkey. destruct (models_blocks blocks _ _ _ [] [] models_new Hk Hcf) as (t & tr & nodes & values & Hp & Hm & Hn & Hv);
    [done..|]. exists tr, nodes, values. split; [done|].
  assert (Trie_get key (Trie_from_persisted (tr_root tr) nodes values) = Ok ((map_ops (concat blocks) ∅).2 !! key)) as Hget.
  { eapply models_get; [|done]. by eapply models_ext. }
  split; [done|]. unfold Trie_get in Hget. unfold lookup_persisted. rewrite for_key_spec in * by done. cbn [in_range ok_or mbind result_bind option_bind] in *.
  pose proof (persisted_walk_spec (collect_map nodes) (collect_map values) (path_fuel (key_path key)) (key_path key) (tr_root tr) 0) as Hw.
  cbn [Trie_from_persisted tr_nodes tr_values tr_root] in Hget. by rewrite Hget in Hw.
Qed.

(** [from_persisted] stores its pairs as they are, and a read does not compare a
    node with the hash it is filed under: any root reads the leaf filed there. *)
Theorem mismatched_node_is_read root key l : key_ok key -> root <> ZERO_HASH ->
  Trie_get key (Trie_from_persisted root [(root, Node_encode (NodeLeaf (key_path key) (hash_value l)))] [(hash_value l, l)])
  = Ok (Some l).
Proof.
  intros Hk Hz. destruct (for_key_path key Hk) as (Hpath & Hw & _). unfold Trie_get. rewrite Hpath. cbn [in_range ok_or mbind result_bind].
  unfold path_fuel. cbn [Trie_from_persisted tr_nodes tr_values tr_root collect_map foldl fst snd get_walk].
  rewrite bool_decide_false by done. unfold fetch_node. rewrite lookup_insert_eq. cbn [ok_or mbind result_bind].
  rewrite node_decode_encode by (split; [done|apply hash_value_length]). cbn [map_err mbind result_bind].
  destruct (suffix_spec (key_path key) 0 Hw ltac:(lia)) as (q & -> & Hqw & Hqb). cbn [in_range ok_or mbind result_bind].
  rewrite bool_decide_true by (by apply bits_inj). cbn [mbind result_bind]. by rewrite lookup_insert_eq.
Qed.

End Map.

(** ** Examples *)

Definition sample_ops : list trie_op :=
  [OpInsert [1; 2] [5]; OpInsert [1; 2; 3] [7]; OpInsert [1; 2; 4] [9; 9]; OpRemove [1; 2; 3]; OpInsert [1] [8]; OpRemove [7]].

(** The same content, built in another order. *)
Definition sample_ops_again : list trie_op := [OpInsert [1] [8]; OpInsert [1; 2; 4] [6]; OpInsert [1; 2] [5]; OpInsert [1; 2; 4] [9; 9]].

Lemma trie_refines_map_witness :
  exists tr, @run_ops sample_hasher sample_ops Trie_new
    = Ok ([Inserted (Ok tt); Inserted (Ok tt); Inserted (Ok tt); Removed (Some [7]); Inserted (Ok tt); Removed None], tr)
    /\ Trie_get [1; 2; 4] tr = Ok (Some [9; 9]) /\ Trie_get [1; 2; 3] tr = Ok None.
Proof.
  destruct (@trie_refines_map sample_hasher sample_hasher_laws sample_ops) as (tr & Hrun & Hget);
    [by apply (bool_decide_unpack _); vm_compute|by vm_compute|].
  exists tr. split; [exact Hrun|]. rewrite !Hget by (by apply (bool_decide_unpack _); vm_compute). split; by vm_compute.
Defined.

Definition run_or_new (r : result TrieFault (list trie_answer * Trie)) : list trie_answer * Trie :=
  match r with Ok r => r | Err _ => ([], Trie_new) end.

Lemma run_or_new_Ok r : is_ok r = true -> r = Ok ((run_or_new r).1, (run_or_new r).2).
Proof. by destruct r as [[]|]. Qed.

Definition sample_trie (ops : list trie_op) : list trie_answer * Trie := run_or_new (@run_ops sample_hasher ops Trie_new).

Lemma trie_root_commits_witness : tr_root (sample_trie sample_ops).2 = tr_root (sample_trie sample_ops_again).2.
Proof.
  refine (proj1 (@trie_root_commits sample_hasher sample_hasher_laws sample_ops sample_ops_again _ _
    (sample_trie sample_ops).1 (sample_trie sample_ops_again).1 _ _ _ _ _ _) _).
  - by apply (bool_decide_unpack _); vm_compute.
  - by vm_compute.
  - apply run_or_new_Ok. by vm_compute.
  - by apply (bool_decide_unpack _); vm_compute.
  - by vm_compute.
  - apply run_or_new_Ok. by vm_compute.
  - by vm_compute.
Defined.

Lemma persisted_trie_reads_back_witness :
  exists tr nodes values, @persist_blocks sample_hasher [sample_ops; sample_ops_again] Trie_new [] [] = Ok (tr, (nodes, values))
    /\ lookup_persisted (tr_root tr) [1; 2; 4] (fun h => collect_map nodes !! h) (fun h => collect_map values !! h) = Some (Ok (Some [9; 9])).
Proof.
  destruct (@persisted_trie_reads_back sample_hasher sample_hasher_laws [sample_ops; sample_ops_again] [1; 2; 4])
    as (tr & nodes & values & Hp & _ & Hl); [by apply (bool_decide_unpack _); vm_compute|by vm_compute|by apply (bool_decide_unpack _); vm_compute|].
  exists tr, nodes, values. split; [exact Hp|]. rewrite Hl. by vm_compute.
Defined.
