(* ===== verification/TrieProof.v ===== *)
(** * Trie proofs

    crates/trie/src/proof.rs and [Trie::prove]: inclusion and exclusion proofs
    against a trie root.  A trie proves every key, and the proof verifies with what
    the trie holds; a proof that verifies against the root of a trie, whoever made
    it, says what the trie holds, unless one of the nodes it recomputes has the hash
    of a different node of the trie. *)

From S2P Require Import Prelude Primitives Bits TrieNode Trie TrieSpec TrieStore TrieWalk TrieMap.

(** ** Proofs *)

Inductive ProofStep :=
| StepBranch (sibling : Hash) (descended_right : bool)
| StepExtension (prefix : BitPath).

Inductive ProofTerminal :=
| TerminalEmpty
| TerminalLeaf (key_suffix : BitPath) (value_hash : Hash)
| TerminalDivergentExtension (prefix : BitPath) (child_hash : Hash).

Record TrieProof := { pf_steps : list ProofStep; pf_terminal : ProofTerminal }.

Inductive ProofOutcome :=
| Included (value_hash : Hash)
| Excluded.

Inductive ProofError :=
| BranchBitMismatch
| ExtensionPrefixMismatch
| KeyTooShort
| LeafKeyMismatch
| ValueHashMismatch
| NonDivergentExtensionTerminal
| RootMismatch.

Section Verify.
Context `{Hasher}.

(** ** Proving *)

(** The loop of [Trie::prove]. *)
Fixpoint prove_walk (nodes : gmap Hash bytes) (fuel : nat) (path : BitPath) (current : Hash) (consumed : N) (steps : list ProofStep)
    : result TrieFault TrieProof :=
  match fuel with
  | O => Err OutOfFuel
  | S fuel =>
      if bool_decide (current = ZERO_HASH) then Ok {| pf_steps := steps; pf_terminal := TerminalEmpty |}
      else
        node ← fetch_node nodes current;
        match node with
        | NodeLeaf key_suffix value_hash => Ok {| pf_steps := steps; pf_terminal := TerminalLeaf key_suffix value_hash |}
        | NodeBranch l r =>
            if bp_len path <=? consumed then Ok {| pf_steps := steps; pf_terminal := TerminalEmpty |}
            else
              bit ← in_range (BitPath_bit path consumed);
              let '(sibling, child) := if bit : bool then (l, r) else (r, l) in
              prove_walk nodes fuel path child (consumed + 1) (steps ++ [StepBranch sibling bit])
        | NodeExtension prefix child =>
            let n := bp_len prefix in
            remaining ← in_range (BitPath_suffix path consumed);
            common ← in_range (BitPath_common_prefix_len prefix remaining);
            if common =? n then
              end_ ← in_range (checked_add U32_MAX consumed n);
              prove_walk nodes fuel path child end_ (steps ++ [StepExtension prefix])
            else Ok {| pf_steps := steps; pf_terminal := TerminalDivergentExtension prefix child |}
        end
  end.

Definition Trie_prove (key : bytes) (tr : Trie) : result TrieFault TrieProof :=
  path ← in_range (BitPath_for_key key);
  prove_walk (tr_nodes tr) (path_fuel path) path (tr_root tr) 0 [].

(** ** Verifying

    [None] is a panic of a bit path. *)

Fixpoint check_steps (key_bits : BitPath) (steps : list ProofStep) (consumed : N) : option (result ProofError N) :=
  match steps with
  | [] => Some (Ok consumed)
  | StepBranch _ descended_right :: steps =>
      if bp_len key_bits <=? consumed then Some (Err KeyTooShort)
      else
        bit ← BitPath_bit key_bits consumed;
        if negb (Bool.eqb bit descended_right) then Some (Err BranchBitMismatch)
        else check_steps key_bits steps (consumed + 1)
  | StepExtension prefix :: steps =>
      match checked_add U32_MAX consumed (bp_len prefix) with
      | None => Some (Err KeyTooShort)
      | Some end_ =>
          if bp_len key_bits <? end_ then Some (Err KeyTooShort)
          else
            rest ← BitPath_suffix key_bits consumed;
            segment ← BitPath_prefix rest (bp_len prefix);
            if bool_decide (segment = prefix) then check_steps key_bits steps end_
            else Some (Err ExtensionPrefixMismatch)
      end
  end.

Definition check_step_bits (pf : TrieProof) (key_bits : BitPath) : option (result ProofError N) :=
  check_steps key_bits (pf_steps pf) 0.

(** The ancestor node of a step, from the hash below it. *)
Definition step_node (step : ProofStep) (current : Hash) : Node :=
  match step with
  | StepBranch sibling descended_right => branch_of descended_right current sibling
  | StepExtension prefix => NodeExtension prefix current
  end.

(** The loop of [recompute_root], [iter().rev()]. *)
Definition recompute_steps (steps : list ProofStep) (terminal_hash : Hash) : Hash :=
  foldr (fun step current => hash_node (Node_encode (step_node step current))) terminal_hash steps.

Definition recompute_root (pf : TrieProof) (terminal_hash : Hash) : Hash := recompute_steps (pf_steps pf) terminal_hash.

Definition leaves_match (stored remaining : BitPath) : bool := bool_decide (stored = remaining).

Definition extension_matches (stored_prefix remaining : BitPath) : option bool :=
  if bp_len remaining <? bp_len stored_prefix then Some false
  else q ← BitPath_prefix remaining (bp_len stored_prefix); Some (bool_decide (q = stored_prefix)).

Definition Proof_verify (pf : TrieProof) (expected_root : Hash) (key : bytes) : option (result ProofError ProofOutcome) :=
  key_bits ← BitPath_for_key key;
  checked ← check_step_bits pf key_bits;
  match checked with
  | Err e => Some (Err e)
  | Ok consumed =>
      match pf_terminal pf with
      | TerminalEmpty =>
          Some (if bool_decide (recompute_root pf ZERO_HASH = expected_root) then Ok Excluded else Err RootMismatch)
      | TerminalLeaf key_suffix value_hash =>
          remaining ← BitPath_suffix key_bits consumed;
          let leaf_hash := hash_node (Node_encode (NodeLeaf key_suffix value_hash)) in
          let outcome := if leaves_match key_suffix remaining then Included value_hash else Excluded in
          Some (if bool_decide (recompute_root pf leaf_hash = expected_root) then Ok outcome else Err RootMismatch)
      | TerminalDivergentExtension prefix child_hash =>
          remaining ← BitPath_suffix key_bits consumed;
          matches ← extension_matches prefix remaining;
          if matches : bool then Some (Err NonDivergentExtensionTerminal)
          else
            let ext_hash := hash_node (Node_encode (NodeExtension prefix child_hash)) in
            Some (if bool_decide (recompute_root pf ext_hash = expected_root) then Ok Excluded else Err RootMismatch)
      end
  end.

Definition verify_inclusion (pf : TrieProof) (expected_root : Hash) (key value : bytes) : option (result ProofError unit) :=
  verified ← Proof_verify pf expected_root key;
  Some (outcome ← verified;
        match outcome with
        | Included value_hash => if bool_decide (value_hash = hash_value value) then Ok tt else Err ValueHashMismatch
        | Excluded => Err LeafKeyMismatch
        end).

Definition verify_exclusion (pf : TrieProof) (expected_root : Hash) (key : bytes) : option (result ProofError unit) :=
  verified ← Proof_verify pf expected_root key;
  Some (outcome ← verified;
        match outcome with
        | Excluded => Ok tt
        | Included _ => Err LeafKeyMismatch
        end).

End Verify.

(* ------------------------------------------------------------------ *)
(** ** What a proof says *)

Section Correctness.
Context `{Hasher} `{!HasherLaws}.

(** The hash of the terminal. *)
Definition terminal_node (terminal : ProofTerminal) : option Node :=
  match terminal with
  | TerminalEmpty => None
  | TerminalLeaf key_suffix value_hash => Some (NodeLeaf key_suffix value_hash)
  | TerminalDivergentExtension prefix child_hash => Some (NodeExtension prefix child_hash)
  end.

Definition terminal_hash (terminal : ProofTerminal) : Hash :=
  match terminal_node terminal with Some n => hash_node (Node_encode n) | None => ZERO_HASH end.

(** The nodes a verifier rebuilds above a terminal. *)
Fixpoint rebuilt (steps : list ProofStep) (current : Hash) : list Node :=
  match steps with
  | [] => []
  | step :: steps =>
      step_node step (recompute_steps steps current) :: rebuilt steps current
  end.

Definition proof_nodes (pf : TrieProof) : list Node :=
  rebuilt (pf_steps pf) (terminal_hash (pf_terminal pf)) ++ option_list (terminal_node (pf_terminal pf)).

(** No rebuilt node has the hash of a different node of the store, or of the empty
    trie. *)
Definition node_clash_free (nodes : gmap Hash bytes) (n : Node) : bool :=
  negb (bool_decide (hash_node (Node_encode n) = ZERO_HASH)) && entry_free nodes (hash_node (Node_encode n)) (Node_encode n).

Definition proof_clash_free (pf : TrieProof) (tr : Trie) : bool := forallb (node_clash_free (tr_nodes tr)) (proof_nodes pf).

(** The machine types of a proof: 32-byte hashes and [u32] lengths. *)
Definition step_typed (step : ProofStep) : Prop :=
  match step with
  | StepBranch sibling _ => length sibling = 32%nat
  | StepExtension prefix => bp_len prefix <= U32_MAX
  end.

#[local] Instance step_typed_dec step : Decision (step_typed step).
Proof. destruct step; apply _. Defined.

#[local] Instance node_typed_dec n : Decision (node_typed n).
Proof. destruct n; apply _. Defined.

Definition proof_typed (pf : TrieProof) : Prop :=
  Forall step_typed (pf_steps pf) /\ Forall node_typed (option_list (terminal_node (pf_terminal pf))).

#[global] Instance proof_typed_dec pf : Decision (proof_typed pf).
Proof. unfold proof_typed. apply _. Defined.

Lemma forallb_app_andb {A} (f : A -> bool) l k : forallb f (l ++ k) = true -> forallb f l = true /\ forallb f k = true.
Proof. rewrite forallb_app. apply andb_true_iff. Qed.

Lemma node_known nodes t n : shaped t -> has nodes t -> node_typed n -> node_clash_free nodes n = true ->
  hash_node (Node_encode n) = tree_hash t -> n = tree_node t.
Proof.
  intros Hs [Ht _] Hn [_ Hf]%andb_true_iff Heq. unfold entry_free in Hf. rewrite Heq, Ht in Hf. apply bool_decide_eq_true in Hf.
  apply node_encode_inj; [done|apply node_wf_typed, tree_node_wf; apply Hs|done].
Qed.

Lemma recomputed_length steps th : length th = 32%nat ->
  length (recompute_steps steps th) = 32%nat.
Proof. destruct steps; [done|]. intros _. apply hash_node_length. Qed.

(** Steps that check and rebuild the hash of [t] lead to a subtree with the rest of
    the key. *)
Lemma steps_descend nodes steps th path t consumed consumed' :
  shaped t -> everywhere (has nodes) t -> Forall step_typed steps -> length th = 32%nat ->
  forallb (node_clash_free nodes) (rebuilt steps th) = true ->
  recompute_steps steps th = tree_hash t ->
  path_wf path -> consumed <= bp_len path -> check_steps path steps consumed = Some (Ok consumed') ->
  consumed' <= bp_len path /\ exists t', shaped t' /\ everywhere (has nodes) t' /\ th = tree_hash t'
    /\ tlookup t (from path consumed) = tlookup t' (from path consumed').
Proof.
  intros Hs He Hty Hth Hcf Hhash Hp. revert t consumed Hs He Hhash. induction Hty as [|step steps Hst Hty IH]; intros t consumed Hs He Hhash Hc Hchk.
  { injection Hchk as <-. split; [done|]. by exists t. }
  cbn [rebuilt forallb recompute_steps foldr] in Hcf, Hhash. fold (recompute_steps steps th) in Hhash. apply andb_true_iff in Hcf as [Hn Hcf]. specialize (IH Hcf).
  pose proof (recomputed_length steps th Hth) as Hlen.
  apply (node_known nodes t) in Hhash; [|done|by apply everywhere_root|by destruct step as [? []|]|done].
  destruct step as [sibling b|prefix]; cbn [step_node check_steps] in *.
  - destruct (N.leb_spec (bp_len path) consumed) as [|Hlt]; [done|]. destruct (from_bit path consumed Hp Hlt) as (b' & Hb & Hk).
    rewrite Hb in Hchk. cbn in Hchk. destruct (Bool.eqb b' b) eqn:Hbb; [|done]. apply Bool.eqb_prop in Hbb. subst b'. cbn in Hchk.
    destruct t as [|l r|]; [by destruct b| |by destruct b]. rewrite Hk. cbn [tlookup].
    apply (IH (if b then r else l) (consumed + 1)); [by apply shaped_side|destruct He as (_ & ? & ?); by destruct b| |lia|done].
    unfold tree_hash, tree_bytes. destruct b; cbn in Hhash; congruence.
  - destruct (checked_add U32_MAX consumed (bp_len prefix)) as [e|] eqn:Hadd; [|done].
    destruct t as [| |p c]; [done..|]. injection Hhash as Hpre Hh. pose proof (sh_depth _ Hs) as Hd. cbn in Hd.
    pose proof (walk_extension path consumed p Hp Hc ltac:(unfold len; lia)) as Hw. rewrite <- Hpre, Hadd in Hw. cbn [tlookup].
    case_bool_decide as Hpc.
    + destruct Hw as ([= ->] & Hlt & rest & Hr & Hpr). rewrite Hlt, Hr in Hchk. cbn in Hchk. rewrite Hpr in Hchk. cbn in Hchk.
      rewrite bool_decide_true in Hchk by done. apply N.ltb_ge in Hlt. apply shaped_ext in Hs as (_ & _ & Hsc). destruct He as [_ He].
      replace (drop (length p) (from path consumed)) with (from path (consumed + len p)) by (rewrite from_add; f_equal; unfold len; lia).
      by apply IH.
    + destruct Hw as [|(e' & [= <-] & [Hlt|(Hlt & rest & segment & Hr & Hpr & Hne)])]; [done|by rewrite Hlt in Hchk|].
      rewrite Hlt, Hr in Hchk. cbn in Hchk. rewrite Hpr in Hchk. cbn in Hchk. by rewrite bool_decide_false in Hchk.
Qed.

(** What a trie of content [s] says of a key. *)
Definition outcome_of (s : content) (key : bytes) : ProofOutcome :=
  match s !! key with Some l => Included (hash_value l) | None => Excluded end.

Definition lookup_outcome (o : option Hash) : ProofOutcome :=
  match o with Some v => Included v | None => Excluded end.

(** The outcome of a terminal reached with [remaining] bits of the key. *)
Definition terminal_outcome (terminal : ProofTerminal) (remaining : BitPath) : option (result ProofError ProofOutcome) :=
  match terminal with
  | TerminalEmpty => Some (Ok Excluded)
  | TerminalLeaf key_suffix value_hash => Some (Ok (if leaves_match key_suffix remaining then Included value_hash else Excluded))
  | TerminalDivergentExtension prefix _ =>
      matches ← extension_matches prefix remaining;
      Some (if matches : bool then Err NonDivergentExtensionTerminal else Ok Excluded)
  end.

(** Verification: the steps, the terminal, the root. *)
Lemma verify_unfold pf root key consumed remaining : key_ok key ->
  check_steps (key_path key) (pf_steps pf) 0 = Some (Ok consumed) -> BitPath_suffix (key_path key) consumed = Some remaining ->
  Proof_verify pf root key =
    r ← terminal_outcome (pf_terminal pf) remaining;
    Some (outcome ← r; if bool_decide (recompute_steps (pf_steps pf) (terminal_hash (pf_terminal pf)) = root) then Ok outcome else Err RootMismatch).
Proof.
  intros Hk Hc Hr. unfold Proof_verify, check_step_bits, recompute_root. rewrite for_key_spec by done. cbn [mbind option_bind].
  rewrite Hc. cbn [mbind option_bind].
  destruct (pf_terminal pf) as [|q v|q c]; cbn [terminal_outcome terminal_hash terminal_node]; [done|by rewrite Hr|].
  rewrite Hr. cbn [mbind option_bind]. by destruct (extension_matches q remaining) as [[]|].
Qed.

Lemma extension_matches_spec p remaining : path_wf remaining -> len p <= U32_MAX ->
  extension_matches (pack p) remaining = Some (bool_decide (p `prefix_of` bits remaining)).
Proof.
  intros Hr Hp. destruct (pack_spec p Hp) as [Hpw Hpb]. unfold extension_matches. change (bp_len (pack p)) with (len p).
  destruct (N.ltb_spec (bp_len remaining) (len p)) as [Hlt|Hge].
  - rewrite bool_decide_false; [done|]. intros Hpre%prefix_length. rewrite length_bits in Hpre. unfold len in *. lia.
  - destruct (prefix_spec remaining (len p) Hr Hge) as (q & -> & Hqw & Hqb). cbn. f_equal. apply bool_decide_ext.
    replace (N.to_nat (len p)) with (length p) in Hqb by (unfold len; lia). split.
    + intros ->. rewrite Hpb in Hqb. rewrite Hqb. apply prefix_take.
    + intros [k Hk]. apply bits_inj; [done..|]. by rewrite Hpb, Hqb, Hk, take_app_length.
Qed.

(** The terminal of a subtree tells what the subtree holds. *)
Lemma terminal_lookup terminal t remaining n outcome : shaped t -> path_wf remaining ->
  terminal_node terminal = Some n -> n = tree_node t -> terminal_outcome terminal remaining = Some (Ok outcome) ->
  outcome = lookup_outcome (tlookup t (bits remaining)).
Proof.
  intros Hs Hr Hn -> Hout. pose proof (sh_depth _ Hs) as Hd. destruct terminal as [|q v|q c]; cbn in Hn; [done|..]; injection Hn as Hn; cbn in Hout.
  - destruct t as [k w| |]; [|done..]. injection Hn as -> ->. injection Hout as <-. cbn in Hd |- *. unfold leaves_match.
    destruct (pack_spec k) as [Hpw Hpb]; [unfold len; lia|].
    rewrite (bool_decide_ext (pack k = remaining) (k = bits remaining)); [by case_bool_decide|]. split; [by intros <-|].
    intros ->. by apply bits_inj.
  - destruct t as [| |p c']; [done..|]. injection Hn as -> _. cbn in Hd. rewrite extension_matches_spec in Hout by (done || unfold len; lia).
    cbn in Hout |- *. case_bool_decide; [done|]. by injection Hout as <-.
Qed.

Lemma check_steps_bound path steps consumed consumed' : path_wf path -> consumed <= bp_len path ->
  check_steps path steps consumed = Some (Ok consumed') -> consumed' <= bp_len path.
Proof.
  intros Hp. revert consumed. induction steps as [|[sibling b|prefix] steps IH]; intros consumed Hc; cbn [check_steps]; [by intros [= <-]|..].
  - destruct (N.leb_spec (bp_len path) consumed) as [|Hlt]; [done|]. destruct (BitPath_bit path consumed) as [b'|]; [|done]. cbn.
    destruct (negb _); [done|]. apply IH. lia.
  - destruct (checked_add _ _ _) as [e|]; [|done]. destruct (N.ltb_spec (bp_len path) e) as [|Hge]; [done|].
    destruct (BitPath_suffix path consumed) as [rest|]; [|done]. cbn. destruct (BitPath_prefix rest _); [|done]. cbn.
    case_bool_decide; [by apply IH|done].
Qed.

(** A verified proof: its steps check, its terminal gives the outcome, and the root is rebuilt. *)
Lemma verify_inv pf root key outcome : key_ok key -> Proof_verify pf root key = Some (Ok outcome) ->
  exists consumed remaining, check_steps (key_path key) (pf_steps pf) 0 = Some (Ok consumed)
    /\ path_wf remaining /\ bits remaining = from (key_path key) consumed
    /\ terminal_outcome (pf_terminal pf) remaining = Some (Ok outcome)
    /\ recompute_steps (pf_steps pf) (terminal_hash (pf_terminal pf)) = root.
Proof.
  intros Hk Hv. destruct (for_key_path key Hk) as (Hpath & Hw & _).
  assert (exists consumed, check_steps (key_path key) (pf_steps pf) 0 = Some (Ok consumed)) as [consumed Hc].
  { unfold Proof_verify in Hv. rewrite Hpath in Hv. cbn [mbind option_bind] in Hv. unfold check_step_bits in Hv.
    destruct (check_steps (key_path key) (pf_steps pf) 0) as [[consumed|]|]; [by eexists|done..]. }
  destruct (suffix_spec (key_path key) consumed Hw) as (remaining & Hr & Hrw & Hrb); [by eapply check_steps_bound, Hc; [|lia]|].
  rewrite (verify_unfold _ _ _ _ _ Hk Hc Hr) in Hv. exists consumed, remaining. split_and!; [done..| |].
  - destruct (terminal_outcome _ _) as [[o|]|]; [|done..]. cbn in Hv. case_bool_decide; [|done]. by injection Hv as ->.
  - destruct (terminal_outcome _ _) as [[o|]|]; [|done..]. cbn in Hv. by case_bool_decide.
Qed.

Lemma holds_outcome t s key : holds t s -> key_ok key -> outcome_of s key = lookup_outcome (olookup t (key_bits key)).
Proof. intros Hh Hk. rewrite (holds_lookup _ _ _ Hh Hk). unfold outcome_of. by destruct (s !! key). Qed.

(** Nothing but the empty proof rebuilds the empty root. *)
Lemma recomputed_empty pf tr : proof_clash_free pf tr = true ->
  recompute_steps (pf_steps pf) (terminal_hash (pf_terminal pf)) = ZERO_HASH -> pf_terminal pf = TerminalEmpty.
Proof.
  unfold proof_clash_free, proof_nodes, terminal_hash. intros [Hcf Hcft]%forallb_app_andb Hz.
  assert (forall n, node_clash_free (tr_nodes tr) n = true -> hash_node (Node_encode n) <> ZERO_HASH) as Hnz.
  { intros n [Hn _]%andb_true_iff. by apply negb_true_iff, bool_decide_eq_false in Hn. }
  destruct (pf_steps pf) as [|step steps].
  - destruct (pf_terminal pf) as [|q v|q c]; [done|..]; cbn in Hcft, Hz; apply andb_true_iff in Hcft as [Hn _]; by apply Hnz in Hn.
  - cbn [rebuilt forallb] in Hcf. apply andb_true_iff in Hcf as [Hn _]. by apply Hnz in Hn.
Qed.

Lemma verified_outcome tr t s pf key outcome : models tr t s -> proof_typed pf -> proof_clash_free pf tr = true -> key_ok key ->
  Proof_verify pf (tr_root tr) key = Some (Ok outcome) -> outcome = outcome_of s key.
Proof.
  intros Hm Hty Hcf Hk (consumed & remaining & Hc & Hrw & Hrb & Hout & Hroot)%verify_inv; [|done].
  destruct (for_key_path key Hk) as (_ & Hw & Hfrom). pose proof (md_rooted _ _ _ Hm) as Hro.
  rewrite (holds_outcome _ _ _ (ro_holds _ _ _ Hro) Hk). rewrite (ro_root _ _ _ Hro) in Hroot.
  destruct t as [t|]; cbn [root_hash olookup mbind option_bind] in *.
  - unfold proof_clash_free, proof_nodes in Hcf. apply forallb_app_andb in Hcf as [Hcf Hcft].
    assert (length (terminal_hash (pf_terminal pf)) = 32%nat) as Hlen.
    { unfold terminal_hash. destruct (terminal_node _); [apply hash_node_length|done]. }
    destruct (steps_descend (tr_nodes tr) (pf_steps pf) (terminal_hash (pf_terminal pf)) (key_path key) t 0 consumed)
      as (_ & t' & Hs' & He' & Hth & Hl); [by apply Hro|by apply Hm|apply Hty|done|done|done|done|lia|done|].
    rewrite <- Hfrom, Hl, <- Hrb. pose proof (everywhere_root _ _ He') as Hhas. unfold terminal_hash in Hth.
    destruct (terminal_node (pf_terminal pf)) as [n|] eqn:Hn; [|by destruct Hhas as [_ []]].
    cbn in Hcft. rewrite andb_true_r in Hcft.
    eapply terminal_lookup; [done|done|exact Hn| |done]. eapply node_known; [done|done| |done|done].
    destruct Hty as [_ Hty]. rewrite Hn in Hty. by apply forall_one in Hty.
  - apply (recomputed_empty _ tr) in Hroot; [|done]. rewrite Hroot in Hout. by injection Hout as <-.
Qed.

(** ** Proving a key *)

(** What [prove_walk] returns below [t]: more steps, which check and rebuild the
    hash of [t], and a terminal with the outcome of the lookup. *)
Definition proved (t : tree) (path : BitPath) (offset : N) (steps : list ProofStep) (pf : TrieProof) : Prop :=
  exists more consumed remaining, pf_steps pf = steps ++ more /\ check_steps path more offset = Some (Ok consumed)
    /\ recompute_steps more (terminal_hash (pf_terminal pf)) = tree_hash t
    /\ BitPath_suffix path consumed = Some remaining
    /\ terminal_outcome (pf_terminal pf) remaining = Some (Ok (lookup_outcome (tlookup t (from path offset)))).

(** The walk stops at [t]. *)
Lemma proved_here t path offset steps terminal : path_wf path -> offset <= bp_len path -> shaped t ->
  terminal_node terminal = Some (tree_node t) ->
  (forall remaining, path_wf remaining -> bits remaining = from path offset -> exists o, terminal_outcome terminal remaining = Some (Ok o)) ->
  proved t path offset steps {| pf_steps := steps; pf_terminal := terminal |}.
Proof.
  intros Hp Ho Hs Hn Hout. destruct (suffix_spec path offset Hp Ho) as (q & Hq & Hqw & Hqb). exists [], offset, q. cbn [pf_steps pf_terminal].
  split_and!; [by rewrite app_nil_r|done|unfold terminal_hash; by rewrite Hn|done|].
  destruct (Hout q Hqw Hqb) as [o Ho']. rewrite Ho'. do 2 f_equal. unfold from. rewrite <- Hqb. by eapply terminal_lookup.
Qed.

(** The walk takes a step. *)
Lemma proved_step t c path offset offset' step steps pf : step_node step (tree_hash c) = tree_node t ->
  (forall more, check_steps path (step :: more) offset = check_steps path more offset') ->
  tlookup t (from path offset) = tlookup c (from path offset') ->
  proved c path offset' (steps ++ [step]) pf -> proved t path offset steps pf.
Proof.
  intros Hn Hchk Hl (more & consumed & remaining & Hst & Hc & Hre & Hr & Hout). exists (step :: more), consumed, remaining.
  split_and!; [by rewrite Hst, <- app_assoc|by rewrite Hchk| |done|by rewrite Hl].
  cbn [recompute_steps foldr]. fold (recompute_steps more (terminal_hash (pf_terminal pf))). by rewrite Hre, Hn.
Qed.

Lemma fresh_side l r b k : fresh_in (TBranch l r) (b :: k) -> fresh_in (if b then r else l) k.
Proof.
  intros Hf k2 x Hx Hpre. assert (b :: k2 = b :: k) as [= ->]; [|done]. eapply Hf; [exact Hx|].
  destruct Hpre as [[m ->]|[m ->]]; [left|right]; by exists m.
Qed.

Lemma fresh_ext p c k : fresh_in (TExt p c) (p ++ k) -> fresh_in c k.
Proof.
  intros Hf k2 x Hx Hpre. apply (app_inv_head p). eapply Hf; [by apply tlookup_ext; exists k2|].
  destruct Hpre as [Hpre|Hpre]; [left|right]; by apply prefix_app.
Qed.

Lemma lcp_prefix a b : lcp a b = length a <-> a `prefix_of` b.
Proof.
  destruct (lcp_view a b) as (c & a' & b' & -> & -> & -> & Hd). rewrite length_app. split.
  - intros Hl. destruct a'; [|cbn in Hl; lia]. rewrite app_nil_r. by eexists.
  - intros Hpre%prefix_app_inv. destruct a' as [|x a']; [cbn; lia|]. destruct Hpre as [m Hm]. destruct b' as [|y b']; [done|].
    injection Hm as -> _. by destruct x.
Qed.

(** A full step through an extension, as prover and verifier see it. *)
Lemma extension_step path offset p : path_wf path -> offset <= bp_len path -> len p <= U32_MAX -> p `prefix_of` from path offset ->
  offset + len p <= bp_len path /\ checked_add U32_MAX offset (len p) = Some (offset + len p)
  /\ drop (length p) (from path offset) = from path (offset + len p)
  /\ forall more, check_steps path (StepExtension (pack p) :: more) offset = check_steps path more (offset + len p).
Proof.
  intros Hp Ho Hlen Hpre. pose proof (walk_extension path offset p Hp Ho Hlen) as Hw. rewrite bool_decide_true in Hw by done.
  destruct Hw as (Hadd & Hlt & rest & Hr & Hpr). apply N.ltb_ge in Hlt as Hle.
  split_and!; [done|done|rewrite from_add; f_equal; unfold len; lia|].
  intros more. cbn [check_steps]. rewrite Hadd, Hlt, Hr. cbn [mbind option_bind]. rewrite Hpr. cbn [mbind option_bind]. by rewrite bool_decide_true.
Qed.

Lemma prove_walk_spec nodes fuel t path offset steps :
  path_wf path -> offset <= bp_len path -> shaped t -> (N.to_nat (bp_len path - offset) < fuel)%nat ->
  reach (has nodes) t (from path offset) -> fresh_in t (from path offset) ->
  exists pf, prove_walk nodes fuel path (tree_hash t) offset steps = Ok pf /\ proved t path offset steps pf.
Proof.
  revert t offset steps. induction fuel as [|fuel IH]; intros t offset steps Hp Ho Hs Hf Hr Hfr; [lia|]. cbn [prove_walk].
  pose proof (reach_root _ _ _ Hr) as Ht. rewrite bool_decide_false by apply Ht. rewrite fetch_has by done. cbn [mbind result_bind].
  pose proof (sh_depth _ Hs) as Hd. destruct t as [k w|l r|p c]; cbn [tree_node reach] in *; destruct Hr as [_ Hr].
  - eexists. split; [done|]. apply proved_here; [done..|]. intros remaining _ _. by eexists.
  - destruct (N.leb_spec (bp_len path) offset) as [Hle|Hlt].
    { exfalso. rewrite from_empty in Hfr by done. destruct (branch_key (TBranch l r) true I) as (k & v & Hk).
      specialize (Hfr _ _ Hk ltac:(right; apply prefix_nil)). done. }
    destruct (from_bit path offset Hp Hlt) as (b & Hb & Hk). rewrite Hb, Hk in *. cbn [in_range ok_or mbind result_bind].
    apply fresh_side in Hfr. set (other := if b then l else r). set (c := if b then r else l) in *.
    replace (if b then (hash_node (Node_encode (tree_node l)), hash_node (Node_encode (tree_node r)))
      else (hash_node (Node_encode (tree_node r)), hash_node (Node_encode (tree_node l)))) with (tree_hash other, tree_hash c) by (by destruct b).
    destruct (IH c (offset + 1) (steps ++ [StepBranch (tree_hash other) b])) as (pf & -> & Hpf);
      [done|lia|by apply shaped_side|lia|done|done|]. exists pf. split; [done|].
    eapply proved_step, Hpf; [unfold c, other; by destruct b| |by rewrite Hk].
    intros more. cbn [check_steps]. rewrite (proj2 (N.leb_gt _ _) Hlt), Hb. cbn. by rewrite Bool.eqb_reflx.
  - apply shaped_ext in Hs as Hpc. destruct Hpc as (Hne & _ & Hc). cbn in Hd. assert (len p <= U32_MAX) as Hlen by (unfold len; lia).
    destruct (suffix_spec path offset Hp Ho) as (q & Hq & Hqw & Hqb). fold (from path offset) in Hqb.
    destruct (pack_spec p Hlen) as [Hpw Hpb]. rewrite Hq. cbn [in_range ok_or mbind result_bind].
    rewrite common_prefix_spec, Hpb, Hqb by done. cbn [in_range ok_or mbind result_bind]. change (bp_len (pack p)) with (len p).
    replace (N.of_nat (lcp p (from path offset)) =? len p) with (bool_decide (p `prefix_of` from path offset)).
    2:{ apply eq_true_iff_eq. rewrite bool_decide_eq_true, N.eqb_eq, <- lcp_prefix. unfold len. lia. }
    case_bool_decide as Hpre.
    + destruct (extension_step path offset p Hp Ho Hlen Hpre) as (Hle & Hadd & Hdrop & Hchk).
      rewrite Hadd. cbn [in_range ok_or mbind result_bind]. fold (tree_bytes c) (tree_hash c).
      assert (0 < len p) as Hpos by (destruct p; [done|unfold len; cbn; lia]).
      destruct (IH c (offset + len p) (steps ++ [StepExtension (pack p)])) as (pf & -> & Hpf); [done|done|done|lia|rewrite <- Hdrop; by apply Hr| |].
      { rewrite <- Hdrop. apply (fresh_ext p). destruct Hpre as [k Hk]. rewrite Hk in *. by rewrite drop_app_length. }
      exists pf. split; [done|]. eapply proved_step, Hpf; [done|done|]. cbn [tlookup]. by rewrite bool_decide_true, Hdrop.
    + eexists. split; [done|]. apply proved_here; [done..|]. intros remaining Hrw Hrb. cbn [terminal_outcome].
      rewrite extension_matches_spec, Hrb, bool_decide_false by done. by eexists.
Qed.

Lemma models_prove tr t s key : models tr t s -> key_ok key ->
  exists pf, Trie_prove key tr = Ok pf /\ Proof_verify pf (tr_root tr) key = Some (Ok (outcome_of s key)).
Proof.
  intros Hm Hk. destruct (for_key_path key Hk) as (Hpath & Hw & Hfrom). pose proof (md_rooted _ _ _ Hm) as Hro.
  unfold Trie_prove. rewrite Hpath. cbn [in_range ok_or mbind result_bind]. rewrite (holds_outcome _ _ _ (ro_holds _ _ _ Hro) Hk), (ro_root _ _ _ Hro).
  destruct t as [t|]; cbn [root_hash olookup mbind option_bind].
  - destruct (prove_walk_spec (tr_nodes tr) (path_fuel (key_path key)) t (key_path key) 0 []) as (pf & -> & Hpf);
      [done|lia|by apply Hro|unfold path_fuel; lia| | |].
    { rewrite Hfrom. by destruct (models_removable tr (Some t) s key t Hm eq_refl). }
    { rewrite Hfrom. intros k2 x Hx Hpre. apply (ho_lookup _ _ (ro_holds _ _ _ Hro)) in Hx as (key' & l & -> & Hl & ->).
      assert (key_ok key') as Hk' by (apply (ho_keys _ _ (ro_holds _ _ _ Hro)); eauto).
      destruct Hpre as [Hpre|Hpre]; apply key_bits_prefix_free in Hpre as ->; done. }
    exists pf. split; [done|]. destruct Hpf as (more & consumed & remaining & Hst & Hc & Hre & Hr & Hout). cbn in Hst. subst more.
    rewrite (verify_unfold _ _ _ _ _ Hk Hc Hr), Hout. cbn [mbind option_bind result_bind]. by rewrite Hre, bool_decide_true, Hfrom.
  - eexists. split; [done|]. destruct (suffix_spec (key_path key) 0 Hw ltac:(lia)) as (q & Hq & _).
    by rewrite (verify_unfold {| pf_steps := []; pf_terminal := TerminalEmpty |} _ _ 0 q Hk eq_refl Hq).
Qed.

(** C20: the proof that [prove] builds for a key verifies against the root with the
    outcome of the map: inclusion of the value of a present key, exclusion of an
    absent one. *)
Theorem trie_proofs_complete ops key :
  Forall (fun op => key_ok (op_key op)) ops -> ops_clash_free ops Trie_new = true -> key_ok key ->
  exists answers tr pf, run_ops ops Trie_new = Ok (answers, tr) /\ Trie_prove key tr = Ok pf
    /\ Proof_verify pf (tr_root tr) key = Some (Ok (outcome_of (map_ops ops ∅).2 key))
    /\ match (map_ops ops ∅).2 !! key with
       | Some l => verify_inclusion pf (tr_root tr) key l = Some (Ok tt)
       | None => verify_exclusion pf (tr_root tr) key = Some (Ok tt)
       end.
Proof.
  intros Hks Hcf Hk. destruct (models_ops ops _ _ _ models_new Hks Hcf) as (t & tr & Hrun & Hm & _).
  destruct (models_prove tr t _ key Hm Hk) as (pf & Hpf & Hv). exists (map_ops ops ∅).1, tr, pf. split_and!; [done..|].
  unfold verify_inclusion, verify_exclusion. rewrite Hv. unfold outcome_of.
  destruct ((map_ops ops ∅).2 !! key) as [l|]; cbn; [by rewrite bool_decide_true|done].
Qed.

(** C19: a proof that verifies against the root of a trie, whoever built it, states
    what the trie holds: an accepted outcome is that of the map, an accepted
    inclusion names the stored value and an accepted exclusion an absent key, unless
    a node or the value of the proof collides with a stored one. *)
Theorem trie_proofs_sound ops answers tr pf key :
  Forall (fun op => key_ok (op_key op)) ops -> ops_clash_free ops Trie_new = true -> run_ops ops Trie_new = Ok (answers, tr) ->
  proof_typed pf -> proof_clash_free pf tr = true -> key_ok key ->
  (forall outcome, Proof_verify pf (tr_root tr) key = Some (Ok outcome) -> outcome = outcome_of (map_ops ops ∅).2 key)
  /\ (forall value, verify_inclusion pf (tr_root tr) key value = Some (Ok tt) ->
        entry_free (tr_values tr) (hash_value value) value = true -> (map_ops ops ∅).2 !! key = Some value)
  /\ (verify_exclusion pf (tr_root tr) key = Some (Ok tt) -> (map_ops ops ∅).2 !! key = None).
Proof.
  intros Hks Hcf Hrun Hty Hpf Hk. destruct (models_ops ops _ _ _ models_new Hks Hcf) as (t & tr' & Hrun' & Hm & _).
  rewrite Hrun in Hrun'. injection Hrun' as _ <-.
  assert (forall outcome, Proof_verify pf (tr_root tr) key = Some (Ok outcome) -> outcome = outcome_of (map_ops ops ∅).2 key) as Hall
    by (intros outcome; by eapply verified_outcome).
  unfold verify_inclusion, verify_exclusion. split; [done|]. destruct (Proof_verify pf (tr_root tr) key) as [[outcome|]|]; [|done..].
  specialize (Hall _ eq_refl). subst outcome. unfold outcome_of. destruct ((map_ops ops ∅).2 !! key) as [l|] eqn:Hl; [|done].
  split; [|done]. intros value Hv Hfree. cbn in Hv. case_bool_decide as Hh; [|done].
  unfold entry_free in Hfree. rewrite <- Hh, (md_values _ _ _ Hm _ _ Hl) in Hfree. by apply bool_decide_eq_true in Hfree as ->.
Qed.

End Correctness.

(** ** Examples *)

Lemma trie_proofs_complete_witness : exists answers tr pf, @run_ops sample_hasher sample_ops Trie_new = Ok (answers, tr)
  /\ Trie_prove [1; 2; 3] tr = Ok pf /\ @verify_exclusion sample_hasher pf (tr_root tr) [1; 2; 3] = Some (Ok tt).
Proof.
  destruct (@trie_proofs_complete sample_hasher sample_hasher_laws sample_ops [1; 2; 3]) as (answers & tr & pf & Hrun & Hpf & _ & Hex);
    [by apply (bool_decide_unpack _); vm_compute|by vm_compute|by apply (bool_decide_unpack _); vm_compute|].
  exists answers, tr, pf. split_and!; [done..|]. exact Hex.
Defined.

(** The proof of [[1; 2; 4]] that the sample trie gives, offered for that key. *)
Definition proof_or_empty (r : result TrieFault TrieProof) : TrieProof :=
  match r with Ok pf => pf | Err _ => {| pf_steps := []; pf_terminal := TerminalEmpty |} end.

Definition sample_proof : TrieProof := proof_or_empty (Trie_prove [1; 2; 4] (sample_trie sample_ops).2).

Lemma trie_proofs_sound_witness : (map_ops sample_ops ∅).2 !! [1; 2; 4] = Some [9; 9].
Proof.
  refine (proj1 (proj2 (@trie_proofs_sound sample_hasher sample_hasher_laws sample_ops (sample_trie sample_ops).1 (sample_trie sample_ops).2
    sample_proof [1; 2; 4] _ _ _ _ _ _)) [9; 9] _ _).
  - by apply (bool_decide_unpack _); vm_compute.
  - by vm_compute.
  - apply run_or_new_Ok. by vm_compute.
  - by apply (bool_decide_unpack _); vm_compute.
  - by vm_compute.
  - by apply (bool_decide_unpack _); vm_compute.
  - by vm_compute.
  - by vm_compute.
Defined.
