(* ===== verification/TriePrune.v ===== *)
(** * Pruning the trie

    [Trie::retain_roots] of crates/trie/src/trie.rs: a walk from the retained roots
    that checks every entry it reaches, and then drops the rest.  The walk ends on
    every store, also a corrupt one whose nodes form cycles; on the tries the
    operations build it keeps exactly the entries of the retained roots. *)

From S2P Require Import Prelude Primitives Bits TrieNode Trie TrieSpec TrieStore TrieWalk TrieMap.

Section Prune.
Context `{Hasher}.

(** ** The walk *)

(** The [while let] loop; the head of [pending] is the top of the stack.  [None] is
    the end of the fuel. *)
Fixpoint retain_walk (tr : Trie) (fuel : nat) (nodes values : gset Hash) (pending : list Hash)
    : option (result TrieError (gset Hash * gset Hash)) :=
  match fuel with
  | O => None
  | S fuel =>
      match pending with
      | [] => Some (Ok (nodes, values))
      | hash :: pending =>
          if bool_decide (hash = ZERO_HASH) || bool_decide (hash ∈ nodes) then retain_walk tr fuel nodes values pending
          else
            let nodes := {[hash]} ∪ nodes in
            match tr_nodes tr !! hash with
            | None => Some (Err MissingRetainedEntry)
            | Some l =>
                if bool_decide (hash_node l ≠ hash) then Some (Err RetainedHashMismatch)
                else
                  match Node_decode l with
                  | Err e => Some (Err e)
                  | Ok (NodeLeaf _ value_hash) =>
                      if bool_decide (value_hash ∈ values) then retain_walk tr fuel nodes values pending
                      else
                        match tr_values tr !! value_hash with
                        | None => Some (Err MissingRetainedEntry)
                        | Some value =>
                            if bool_decide (hash_value value ≠ value_hash) then Some (Err RetainedHashMismatch)
                            else retain_walk tr fuel nodes ({[value_hash]} ∪ values) pending
                        end
                  | Ok (NodeBranch l r) => retain_walk tr fuel nodes values (r :: l :: pending)
                  | Ok (NodeExtension _ child) => retain_walk tr fuel nodes values (child :: pending)
                  end
            end
      end
  end.

(** One unit per stack entry: a visit of a stored node pushes at most two. *)
Definition retain_fuel (tr : Trie) (pending : list Hash) : nat := S (length pending + 2 * size (tr_nodes tr)).

Definition retained (nodes values : gset Hash) (tr : Trie) : Trie :=
  {| tr_nodes := filter (fun e => e.1 ∈ nodes) (tr_nodes tr);
     tr_values := filter (fun e => e.1 ∈ values) (tr_values tr);
     tr_pending_nodes := filter (fun e => e.1 ∈ nodes) (tr_pending_nodes tr);
     tr_pending_values := filter (fun e => e.1 ∈ values) (tr_pending_values tr);
     tr_root := tr_root tr |}.

Definition retain_roots (roots : list Hash) (tr : Trie) : option (result TrieError unit * Trie) :=
  let pending := tr_root tr :: reverse roots in
  r ← retain_walk tr (retain_fuel tr pending) ∅ ∅ pending;
  Some (match r with
        | Ok (nodes, values) => (Ok tt, retained nodes values tr)
        | Err e => (Err e, tr)
        end).

(** ** Termination *)

(** Stored nodes the walk has not visited. *)
Definition unvisited (tr : Trie) (nodes : gset Hash) : nat := size (dom (tr_nodes tr) ∖ nodes).

Lemma unvisited_visit tr nodes hash l : tr_nodes tr !! hash = Some l -> hash ∉ nodes ->
  unvisited tr nodes = S (unvisited tr ({[hash]} ∪ nodes)).
Proof.
  intros Hl Hn. unfold unvisited. replace (dom (tr_nodes tr) ∖ nodes) with ({[hash]} ∪ dom (tr_nodes tr) ∖ ({[hash]} ∪ nodes)).
  - rewrite size_union by set_solver. by rewrite size_singleton.
  - apply set_eq. intros x. apply elem_of_dom_2 in Hl. destruct (decide (x = hash)); set_solver.
Qed.

Lemma retain_walk_terminates tr fuel nodes values pending :
  (length pending + 2 * unvisited tr nodes < fuel)%nat -> is_Some (retain_walk tr fuel nodes values pending).
Proof.
  revert nodes values pending. induction fuel as [|fuel IH]; intros nodes values pending Hf; [lia|]. cbn [retain_walk].
  destruct pending as [|hash pending]; [by eexists|]. cbn [length] in Hf.
  destruct (bool_decide (hash = ZERO_HASH) || bool_decide (hash ∈ nodes)) eqn:Hskip; [apply IH; lia|].
  apply orb_false_iff in Hskip as [_ Hn]. apply bool_decide_eq_false in Hn.
  destruct (tr_nodes tr !! hash) as [l|] eqn:Hl; [|by eexists]. rewrite (unvisited_visit tr nodes hash l Hl Hn) in Hf.
  case_bool_decide; [by eexists|]. destruct (Node_decode l) as [[p v|x y|p c]|e]; [..|by eexists].
  - case_bool_decide; [apply IH; lia|]. destruct (tr_values tr !! v) as [value|]; [|by eexists].
    case_bool_decide; [by eexists|apply IH; lia].
  - apply IH. cbn [length]. lia.
  - apply IH. cbn [length]. lia.
Qed.

(** C22: pruning ends.  On every store, corrupt or cyclic ones included, and for
    every list of roots the worklist of [retain_roots] empties within the fuel of one
    visit per stored node and pending root; the result keeps a part of the store and
    the root, and a failed pruning changes nothing. *)
Theorem retain_roots_terminates roots tr : exists r tr', retain_roots roots tr = Some (r, tr')
  /\ tr_nodes tr' ⊆ tr_nodes tr /\ tr_values tr' ⊆ tr_values tr /\ tr_root tr' = tr_root tr
  /\ (is_ok r = false -> tr' = tr).
Proof.
  unfold retain_roots. set (pending := tr_root tr :: reverse roots).
  destruct (retain_walk_terminates tr (retain_fuel tr pending) ∅ ∅ pending) as [r Hr].
  { unfold retain_fuel, unvisited. rewrite difference_empty_L, size_dom. lia. }
  rewrite Hr. destruct r as [[nodes values]|e]; cbn; eexists _, _; split_and!; try done; apply map_filter_subseteq.
Qed.

(** ** What is kept *)

(** The hashes a node refers to. *)
Definition node_links (n : Node) : list Hash :=
  match n with NodeLeaf _ _ => [] | NodeBranch l r => [l; r] | NodeExtension _ c => [c] end.

Definition link (tr : Trie) (a b : Hash) : Prop :=
  a <> ZERO_HASH /\ exists n, fetch_node (tr_nodes tr) a = Ok n /\ b ∈ node_links n.

(** Entries reachable from a root. *)
Definition linked_node (tr : Trie) (root h : Hash) : Prop := rtc (link tr) root h /\ h <> ZERO_HASH.

Definition linked_value (tr : Trie) (root v : Hash) : Prop :=
  exists h k, linked_node tr root h /\ fetch_node (tr_nodes tr) h = Ok (NodeLeaf k v).

Context `{!HasherLaws}.

Definition children (t : tree) : list tree :=
  match t with TLeaf _ _ => [] | TBranch l r => [l; r] | TExt _ c => [c] end.

(** The value of a leaf is stored. *)
Definition leaf_stored (values : gmap Hash bytes) (t : tree) : Prop :=
  match t with TLeaf _ v => exists l, values !! v = Some l /\ hash_value l = v | _ => True end.

(** A tree whose entries are all stored. *)
Record stored (tr : Trie) (t : tree) : Prop := {
  st_shaped : shaped t;
  st_nodes : everywhere (has (tr_nodes tr)) t;
  st_values : everywhere (leaf_stored (tr_values tr)) t;
}.

Lemma stored_child tr t c : stored tr t -> c ∈ children t -> stored tr c.
Proof.
  intros [Hs Hn Hv] Hc. destruct t as [|l r|p c']; cbn in *; [by apply not_elem_of_nil in Hc|..].
  - apply shaped_branch in Hs as []. destruct Hn as (_ & ? & ?), Hv as (_ & ? & ?).
    apply elem_of_cons in Hc as [->| ->%list_elem_of_singleton]; by constructor.
  - apply shaped_ext in Hs as (_ & _ & ?). destruct Hn as [_ ?], Hv as [_ ?]. apply list_elem_of_singleton in Hc as ->. by constructor.
Qed.

Lemma stored_hash_inj tr t u : stored tr t -> stored tr u -> tree_hash t = tree_hash u -> t = u.
Proof.
  intros Ht Hu. apply (tree_hash_inj (tr_nodes tr) (tr_nodes tr)); [by intros h x y -> [= ->]|apply Ht|apply Hu|apply Ht|apply Hu].
Qed.

Lemma stored_links t : node_links (tree_node t) = tree_hash <$> children t.
Proof. by destruct t. Qed.

(** [u] is a subtree of [t]. *)
Definition below (t u : tree) : Prop := rtc (fun t c => c ∈ children t) t u.

Lemma below_stored tr t u : stored tr t -> below t u -> stored tr u.
Proof. intros Ht Hu. induction Hu; eauto using stored_child. Qed.

Lemma stored_fetch tr t : stored tr t -> tree_hash t <> ZERO_HASH /\ fetch_node (tr_nodes tr) (tree_hash t) = Ok (tree_node t).
Proof. intros Ht. pose proof (everywhere_root _ _ (st_nodes _ _ Ht)) as Hh. split; [apply Hh|by apply fetch_has; [apply Ht|]]. Qed.

(** Reachable hashes are those of the subtrees. *)
Lemma linked_below tr t h : stored tr t -> rtc (link tr) (tree_hash t) h <-> exists u, below t u /\ h = tree_hash u.
Proof.
  intros Ht. split.
  - intros Hr. remember (tree_hash t) as a eqn:Ha. revert t Ht Ha. induction Hr as [a|a b c [_ (n & Hn & Hb)] _ IH]; intros t Ht ->.
    + exists t. split; [apply rtc_refl|done].
    + destruct (stored_fetch tr t Ht) as [_ Hf]. rewrite Hf in Hn. injection Hn as <-. rewrite stored_links in Hb.
      apply list_elem_of_fmap in Hb as (x & -> & Hx). destruct (IH x) as (u & Hu & ->); [by eapply stored_child|done|].
      exists u. split; [by eapply rtc_l|done].
  - intros (u & Hu & ->). induction Hu as [t|t c u Hc _ IH]; [apply rtc_refl|]. eapply rtc_l; [|apply IH; by eapply stored_child].
    destruct (stored_fetch tr t Ht) as [Hz Hf]. split; [done|]. exists (tree_node t). split; [done|]. rewrite stored_links.
    apply list_elem_of_fmap. by exists c.
Qed.

(** *** The walk on stored trees *)

Section Walk.
Variables (tr : Trie) (trees : list tree).
Hypothesis trees_stored : forall t, t ∈ trees -> stored tr t.

Definition known (u : tree) : Prop := exists t, t ∈ trees /\ below t u.

Lemma known_stored u : known u -> stored tr u.
Proof. intros (t & Ht & Hu). eapply below_stored; [by apply trees_stored|done]. Qed.

Lemma known_child u c : known u -> c ∈ children u -> known c.
Proof. intros (t & Ht & Hu) Hc. exists t. split; [done|]. by eapply rtc_r. Qed.

(** Visited nodes are subtrees whose children are visited or pending. *)
Record walk_inv (nodes values : gset Hash) (pending : list Hash) : Prop := {
  wi_pending : forall h, h ∈ pending -> h = ZERO_HASH \/ exists u, known u /\ h = tree_hash u;
  wi_nodes : forall h, h ∈ nodes -> exists u, known u /\ h = tree_hash u
    /\ (forall c, c ∈ children u -> tree_hash c ∈ nodes \/ tree_hash c ∈ pending)
    /\ (forall k v, u = TLeaf k v -> v ∈ values);
  wi_trees : forall t, t ∈ trees -> tree_hash t ∈ nodes \/ tree_hash t ∈ pending;
  wi_values : forall v, v ∈ values -> exists k, known (TLeaf k v);
}.

(** A pending hash that is empty or visited already is dropped. *)
Lemma walk_skip nodes values hash pending : walk_inv nodes values (hash :: pending) -> hash = ZERO_HASH \/ hash ∈ nodes ->
  walk_inv nodes values pending.
Proof.
  intros [Hp Hn Ht Hv] Hskip.
  assert (forall u, known u -> tree_hash u ∈ nodes \/ tree_hash u ∈ hash :: pending -> tree_hash u ∈ nodes \/ tree_hash u ∈ pending) as Hdrop.
  { intros u Hu [?|[Heq|?]%elem_of_cons]; [by left| |by right]. destruct Hskip as [Hz|Hin]; [|left; by rewrite Heq].
    destruct (stored_fetch tr u (known_stored u Hu)). congruence. }
  constructor; [|..|done].
  - intros h Hh. apply Hp. by right.
  - intros h Hh. destruct (Hn h Hh) as (u & Hu & -> & Hc & Hl). exists u. split_and!; [done..| |done].
    intros c Hcu. apply Hdrop; [by eapply known_child|by apply Hc].
  - intros t Hin. apply Hdrop; [exists t; split; [done|apply rtc_refl]|by apply Ht].
Qed.

(** A subtree is visited: its children are pushed. *)
Lemma walk_visit nodes values values' u pending pushed : walk_inv nodes values (tree_hash u :: pending) -> known u ->
  pushed ≡ₚ tree_hash <$> children u -> values ⊆ values' -> (forall k v, u = TLeaf k v -> v ∈ values') ->
  (forall v, v ∈ values' -> exists k, known (TLeaf k v)) ->
  walk_inv ({[tree_hash u]} ∪ nodes) values' (pushed ++ pending).
Proof.
  intros [Hp Hn Ht Hv] Hu Hpush Hsub Hleaf Hv'.
  assert (forall h, h ∈ nodes \/ h ∈ tree_hash u :: pending -> h ∈ ({[tree_hash u]} ∪ nodes : gset Hash) \/ h ∈ pushed ++ pending) as Hmove.
  { intros h [?|[->|?]%elem_of_cons]; [left; set_solver|left; set_solver|right; apply elem_of_app; by right]. }
  constructor; [..|done].
  - intros h [Hh|Hh]%elem_of_app; [|apply Hp; by right]. rewrite Hpush in Hh. apply list_elem_of_fmap in Hh as (c & -> & Hc).
    right. exists c. split; [by eapply known_child|done].
  - intros h [->%elem_of_singleton|Hh]%elem_of_union.
    + exists u. split_and!; [done..| |done]. intros c Hc. right. apply elem_of_app. left. rewrite Hpush. apply list_elem_of_fmap. by exists c.
    + destruct (Hn h Hh) as (u' & Hu' & -> & Hc & Hl). exists u'. split_and!; [done..|by auto|].
      intros k v Heq. apply Hsub. by eapply Hl.
  - intros t Hin. by apply Hmove, Ht.
Qed.

Lemma retain_walk_spec fuel nodes values pending r : walk_inv nodes values pending ->
  retain_walk tr fuel nodes values pending = Some r -> exists nodes' values', r = Ok (nodes', values') /\ walk_inv nodes' values' [].
Proof.
  revert nodes values pending. induction fuel as [|fuel IH]; intros nodes values pending Hinv Hr; [done|]. cbn [retain_walk] in Hr.
  destruct pending as [|hash pending]; [injection Hr as <-; by exists nodes, values|].
  destruct (bool_decide (hash = ZERO_HASH) || bool_decide (hash ∈ nodes)) eqn:Hskip.
  { eapply IH, Hr. eapply walk_skip; [done|]. by apply orb_true_iff in Hskip as [?%bool_decide_eq_true|?%bool_decide_eq_true]; [left|right]. }
  apply orb_false_iff in Hskip as [Hz Hn]. apply bool_decide_eq_false in Hz, Hn.
  destruct (wi_pending _ _ _ Hinv hash ltac:(by left)) as [|(u & Hu & ->)]; [done|].
  pose proof (known_stored u Hu) as Hst. destruct (everywhere_root _ _ (st_nodes _ _ Hst)) as [Hbytes _].
  destruct (stored_fetch tr u Hst) as [_ Hf]. unfold fetch_node in Hf. rewrite Hbytes in Hr, Hf. cbn [ok_or mbind result_bind] in Hf.
  rewrite bool_decide_false in Hr by (by intros []). destruct (Node_decode (tree_bytes u)) as [n|] eqn:Hd; [|done]. injection Hf as ->.
  destruct u as [k v|l r'|p c]; cbn [tree_node] in Hr.
  - destruct (everywhere_root _ _ (st_values _ _ Hst)) as (value & Hval & Hhv).
    case_bool_decide as Hin; [|rewrite Hval, bool_decide_false in Hr by (by intros [])];
      (eapply IH, Hr; apply (walk_visit _ values _ _ pending []); [done..|set_solver|intros ? ? [= <- <-]; set_solver|]).
    + apply Hinv.
    + intros x [->%elem_of_singleton|Hx]%elem_of_union; [by exists k|by apply Hinv].
  - eapply IH, Hr. apply (walk_visit _ values _ _ pending [_; _]); [done..|apply Permutation_swap|done|done|apply Hinv].
  - eapply IH, Hr. apply (walk_visit _ values _ _ pending [_]); [done..|apply Hinv].
Qed.

(** At the end every subtree is visited. *)
Lemma visited_below nodes values t u : walk_inv nodes values [] -> known t -> tree_hash t ∈ nodes -> below t u ->
  tree_hash u ∈ nodes /\ forall k v, u = TLeaf k v -> v ∈ values.
Proof.
  intros Hinv Ht Hin Hu. induction Hu as [t|t c u Hc _ IH];
    destruct (wi_nodes _ _ _ Hinv _ Hin) as (t' & Ht' & Heq & Hch & Hl);
    (apply (stored_hash_inj tr) in Heq as <-; [|by apply known_stored..]); [done|].
  apply IH; [by eapply known_child|]. by destruct (Hch c Hc) as [|?%not_elem_of_nil].
Qed.

Lemma visited_known nodes values u : walk_inv nodes values [] -> known u ->
  tree_hash u ∈ nodes /\ forall k v, u = TLeaf k v -> v ∈ values.
Proof.
  intros Hinv (t & Ht & Hu). eapply visited_below; [done|exists t; split; [done|apply rtc_refl]| |done].
  by destruct (wi_trees _ _ _ Hinv t Ht) as [|?%not_elem_of_nil].
Qed.

Lemma retained_nodes nodes values h : walk_inv nodes values [] ->
  is_Some (tr_nodes (retained nodes values tr) !! h) <-> exists u, known u /\ h = tree_hash u.
Proof.
  intros Hinv. cbn. split.
  - intros [l [_ Hin]%map_lookup_filter_Some]. destruct (wi_nodes _ _ _ Hinv h Hin) as (u & Hu & -> & _). by exists u.
  - intros (u & Hu & ->). exists (tree_bytes u). apply map_lookup_filter_Some. split; [|apply (visited_known _ _ u Hinv Hu)].
    apply (everywhere_root _ _ (st_nodes _ _ (known_stored u Hu))).
Qed.

Lemma retained_values nodes values v : walk_inv nodes values [] ->
  is_Some (tr_values (retained nodes values tr) !! v) <-> exists k, known (TLeaf k v).
Proof.
  intros Hinv. cbn. split.
  - intros [l [_ Hin]%map_lookup_filter_Some]. by apply (wi_values _ _ _ Hinv).
  - intros [k Hk]. destruct (everywhere_root _ _ (st_values _ _ (known_stored _ Hk))) as (l & Hl & _). exists l.
    apply map_lookup_filter_Some. split; [done|]. by apply (proj2 (visited_known _ _ _ Hinv Hk) k v).
Qed.

End Walk.

(** ** Roots of a trie *)

Lemma everywhere_below (P : tree -> Prop) t : (forall u, below t u -> P u) -> everywhere P t.
Proof.
  induction t as [k v|l IHl r IHr|p c IH]; intros Hall; (split; [apply Hall, rtc_refl|]); [done|split; [apply IHl|apply IHr]|apply IH];
    intros u Hu; apply Hall; (eapply rtc_l; [|exact Hu]); set_solver.
Qed.

Lemma leaf_below t k v : tlookup t k = Some v -> exists k', below t (TLeaf k' v).
Proof.
  revert k. induction t as [s w|l IHl r IHr|p c IH]; intros k; cbn.
  - case_bool_decide; [|done]. intros [= ->]. exists s. apply rtc_refl.
  - destruct k as [|b k]; [done|]. intros Hl. assert (exists k', below (if b then r else l) (TLeaf k' v)) as [k' Hk'] by (destruct b; eauto).
    exists k'. eapply rtc_l, Hk'. destruct b; set_solver.
  - case_bool_decide; [|done]. intros Hl. destruct (IH _ Hl) as [k' Hk']. exists k'. eapply rtc_l, Hk'. set_solver.
Qed.

(** A leaf below is looked up by some key. *)
Lemma below_leaf t k v : below t (TLeaf k v) -> exists k', tlookup t k' = Some v.
Proof.
  intros Hb. remember (TLeaf k v) as u eqn:Hu. induction Hb as [t|t c u Hc _ IH]; [subst; exists k; by apply tlookup_leaf|].
  destruct (IH Hu) as [k' Hk']. destruct t as [|l r|p c']; cbn in Hc; [by apply not_elem_of_nil in Hc|..].
  - apply elem_of_cons in Hc as [->| ->%list_elem_of_singleton]; [by exists (false :: k')|by exists (true :: k')].
  - apply list_elem_of_singleton in Hc as ->. exists (p ++ k'). apply tlookup_ext. by exists k'.
Qed.

Lemma models_stored tr t s t0 : models tr t s -> t = Some t0 -> stored tr t0.
Proof.
  intros Hm ->. constructor; [by apply (md_rooted _ _ _ Hm)|by apply Hm|].
  apply everywhere_below. intros [k v| |] Hu; [|done..]. destruct (below_leaf _ _ _ Hu) as [k' Hk'].
  apply (ho_lookup _ _ (ro_holds _ _ _ (md_rooted _ _ _ Hm))) in Hk' as (key & l & _ & Hl & ->). exists l.
  by rewrite (md_values _ _ _ Hm _ _ Hl).
Qed.

Lemma models_retained tr trees nodes values root t s : (forall t, t ∈ trees -> stored tr t) -> walk_inv trees nodes values [] ->
  (forall t0, t = Some t0 -> t0 ∈ trees) -> models (set_root root tr) t s -> models (set_root root (retained nodes values tr)) t s.
Proof.
  intros Hst Hinv Hin Hm. pose proof (md_rooted _ _ _ Hm) as [Hroot Hsh Hho].
  assert (forall t0 u, t = Some t0 -> below t0 u -> known trees u) as Hknown by (intros t0 u Ht0 Hu; exists t0; auto).
  constructor; [by constructor|..].
  - intros t0 Ht0. apply everywhere_below. intros u Hu. apply (Hknown _ _ Ht0) in Hu as Hk.
    destruct (everywhere_root _ _ (st_nodes _ _ (known_stored tr trees Hst u Hk))) as [Hb Hz]. split; [|done].
    apply map_lookup_filter_Some. split; [done|]. apply (visited_known tr trees Hst _ _ u Hinv Hk).
  - intros key l Hl. apply map_lookup_filter_Some. split; [by apply (md_values _ _ _ Hm _ _ Hl)|]. cbn.
    assert (olookup t (key_bits key) = Some (hash_value l)) as Hlk by (apply (ho_lookup _ _ Hho); eauto).
    destruct t as [t0|]; [|done]. apply leaf_below in Hlk as [k Hk].
    apply (Hknown _ _ eq_refl) in Hk. by apply (proj2 (visited_known tr trees Hst _ _ _ Hinv Hk) k).
Qed.

Lemma set_root_same tr : set_root (tr_root tr) tr = tr.
Proof. by destruct tr. Qed.

(** The trees of the retained roots. *)
Lemma views_trees tr views : Forall (fun v => represents (set_root v.1 tr) v.2) views -> exists ts : list (option tree),
  Forall2 (fun v t => models (set_root v.1 tr) t v.2) views ts.
Proof.
  induction 1 as [|v views [t Ht] _ [ts IH]]; [by exists []|]. exists (t :: ts). by constructor.
Qed.

Lemma elem_of_trees (ts : list (option tree)) t : t ∈ omap id ts <-> Some t ∈ ts.
Proof. rewrite list_elem_of_omap. unfold id. split; [by intros (x & Hx & ->)|]. intros Hin. by exists (Some t). Qed.

Lemma view_stored tr root t s t0 : models (set_root root tr) t s -> t = Some t0 -> stored tr t0.
Proof. intros Hm Ht. destruct (models_stored _ _ _ t0 Hm Ht). by constructor. Qed.

Lemma views_stored tr views ts : Forall2 (fun v t => models (set_root v.1 tr) t v.2) views ts ->
  forall t, t ∈ omap id ts -> stored tr t.
Proof.
  intros Hall t [i Hi]%elem_of_trees%list_elem_of_lookup. destruct (Forall2_lookup_r _ _ _ _ _ Hall Hi) as (v & _ & Hm).
  by apply (view_stored _ _ _ _ _ Hm).
Qed.

Lemma trees_linked tr views ts : Forall2 (fun v t => models (set_root v.1 tr) t v.2) views ts ->
  forall h, (exists u, known (omap id ts) u /\ h = tree_hash u) <-> exists root, root ∈ views.*1 /\ linked_node tr root h.
Proof.
  intros Hall h. split.
  - intros (u & (t & Ht & Hu) & ->). apply elem_of_trees, list_elem_of_lookup in Ht as [i Hi].
    destruct (Forall2_lookup_r _ _ _ _ _ Hall Hi) as (v & Hv & Hm).
    assert (stored tr t) as Hst by (by apply (view_stored _ _ _ _ _ Hm)). exists v.1. split; [apply list_elem_of_fmap; exists v; split; [done|by eapply list_elem_of_lookup_2]|].
    pose proof (ro_root _ _ _ (md_rooted _ _ _ Hm)) as Hroot. cbn in Hroot. rewrite Hroot. split; [by apply linked_below; [|by exists u]|].
    apply (proj1 (stored_fetch tr u (below_stored tr t u Hst Hu))).
  - intros (root & (v & -> & Hv)%list_elem_of_fmap & Hl & Hz). apply list_elem_of_lookup in Hv as [i Hi].
    destruct (Forall2_lookup_l _ _ _ _ _ Hall Hi) as (t & Ht & Hm). pose proof (ro_root _ _ _ (md_rooted _ _ _ Hm)) as Hroot. cbn in Hroot.
    rewrite Hroot in Hl. destruct t as [t|]; cbn [root_hash] in Hl.
    + apply linked_below in Hl as (u & Hu & ->); [|by apply (view_stored _ _ _ _ _ Hm)].
      exists u. split; [|done]. exists t. split; [|done]. by apply elem_of_trees; eapply list_elem_of_lookup_2.
    + inversion Hl as [|a b c [Hnz _] _]; by subst.
Qed.

Lemma values_linked tr views ts : Forall2 (fun v t => models (set_root v.1 tr) t v.2) views ts ->
  forall x, (exists k, known (omap id ts) (TLeaf k x)) <-> exists root, root ∈ views.*1 /\ linked_value tr root x.
Proof.
  intros Hall x. pose proof (views_stored tr views ts Hall) as Hst. split.
  - intros [k Hk]. destruct (proj1 (trees_linked tr views ts Hall (tree_hash (TLeaf k x)))) as (root & Hroot & Hl); [by eexists|].
    exists root. split; [done|]. exists (tree_hash (TLeaf k x)), (pack k). split; [done|].
    apply (stored_fetch tr _ (known_stored tr (omap id ts) Hst _ Hk)).
  - intros (root & Hroot & h & q & Hl & Hf). destruct (proj2 (trees_linked tr views ts Hall h)) as (u & Hu & ->); [by exists root|].
    destruct (stored_fetch tr u) as [_ Hf']; [by apply (known_stored tr (omap id ts) Hst)|]. rewrite Hf in Hf'.
    destruct u as [k v| |]; [|done..]. injection Hf' as _ ->. by exists k.
Qed.

Lemma walk_start tr views ts pending : Forall2 (fun v t => models (set_root v.1 tr) t v.2) views ts -> pending ≡ₚ views.*1 ->
  walk_inv (omap id ts) ∅ ∅ pending.
Proof.
  intros Hall Hp.
  assert (forall t, t ∈ omap id ts -> tree_hash t ∈ pending) as Hin.
  { intros t [i Hi]%elem_of_trees%list_elem_of_lookup. destruct (Forall2_lookup_r _ _ _ _ _ Hall Hi) as (v & Hv & Hm).
    rewrite Hp. apply list_elem_of_fmap. exists v. split; [symmetry; apply (ro_root _ _ _ (md_rooted _ _ _ Hm))|by eapply list_elem_of_lookup_2]. }
  constructor; [|set_solver|by right; apply Hin|set_solver].
  intros h Hh. rewrite Hp in Hh. apply list_elem_of_fmap in Hh as (v & -> & [i Hi]%list_elem_of_lookup).
  destruct (Forall2_lookup_l _ _ _ _ _ Hall Hi) as (t & Ht & Hm). pose proof (ro_root _ _ _ (md_rooted _ _ _ Hm)) as Hroot. cbn in Hroot.
  rewrite Hroot. destruct t as [t|]; [right|by left]. exists t. split; [|done]. exists t. split; [|apply rtc_refl].
  apply elem_of_trees. by eapply list_elem_of_lookup_2.
Qed.

(** C23: pruning a trie to its root and a list of leased roots succeeds, keeps the
    content of each of those roots, and keeps exactly the nodes and values that are
    reachable from one of them. *)
Theorem retain_roots_exact tr s views :
  represents tr s -> Forall (fun v => represents (set_root v.1 tr) v.2) views ->
  exists tr', retain_roots views.*1 tr = Some (Ok tt, tr')
    /\ represents tr' s /\ Forall (fun v => represents (set_root v.1 tr') v.2) views
    /\ (forall h, is_Some (tr_nodes tr' !! h) <-> exists root, root ∈ tr_root tr :: views.*1 /\ linked_node tr root h)
    /\ (forall x, is_Some (tr_values tr' !! x) <-> exists root, root ∈ tr_root tr :: views.*1 /\ linked_value tr root x).
Proof.
  intros Hrep Hviews. set (all := (tr_root tr, s) :: views).
  assert (Forall (fun v => represents (set_root v.1 tr) v.2) all) as Hall by (constructor; [by cbn; rewrite set_root_same|done]).
  destruct (views_trees tr all Hall) as [ts Hts]. pose proof (views_stored tr all ts Hts) as Hst.
  unfold retain_roots. set (pending := tr_root tr :: reverse views.*1).
  assert (pending ≡ₚ all.*1) as Hp by (unfold pending, all; cbn; by rewrite reverse_Permutation).
  destruct (retain_walk_terminates tr (retain_fuel tr pending) ∅ ∅ pending) as [r Hr].
  { unfold retain_fuel, unvisited. rewrite difference_empty_L, size_dom. lia. }
  rewrite Hr. destruct (retain_walk_spec tr (omap id ts) Hst _ _ _ _ _ (walk_start tr all ts pending Hts Hp) Hr) as (nodes & values & -> & Hinv).
  cbn [mbind option_bind]. eexists. split; [done|].
  assert (Forall (fun v => represents (set_root v.1 (retained nodes values tr)) v.2) all) as Hkept.
  { apply Forall_forall. intros v [i Hi]%list_elem_of_lookup. destruct (Forall2_lookup_l _ _ _ _ _ Hts Hi) as (t & Ht & Hm). exists t.
    eapply models_retained; [exact Hst|done| |done]. intros t0 ->. apply elem_of_trees. by eapply list_elem_of_lookup_2. }
  apply Forall_cons in Hkept as [Hown Hkept]. split_and!; [exact Hown|done|..].
  - intros h. rewrite (retained_nodes tr _ Hst _ _ _ Hinv). by apply (trees_linked tr all).
  - intros x. rewrite (retained_values tr _ Hst _ _ _ Hinv). by apply (values_linked tr all).
Qed.

(** A trie still represents the content of an earlier root. *)
Lemma models_history tr tr' t s : models tr t s -> extended tr tr' -> models (set_root (tr_root tr) tr') t s.
Proof.
  intros [[Hr Hs Hh] Hn Hv] Hex. constructor; [by constructor|..].
  - intros t0 Ht0. eapply everywhere_mono, Hn; [|done]. intros u. apply has_mono, Hex.
  - intros key l Hl. eapply lookup_weaken; [by apply (Hv key)|apply Hex].
Qed.

Lemma represents_ops ops tr s answers tr' : represents tr s -> Forall (fun op => key_ok (op_key op)) ops -> ops_clash_free ops tr = true ->
  run_ops ops tr = Ok (answers, tr') -> represents tr' (map_ops ops s).2 /\ represents (set_root (tr_root tr) tr') s.
Proof.
  intros [t Hm] Hk Hcf Hrun. destruct (models_ops ops tr t s Hm Hk Hcf) as (t' & tr2 & Hrun' & Hm' & Hex).
  rewrite Hrun in Hrun'. injection Hrun' as _ ->. split; [by exists t'|]. exists t. by apply models_history.
Qed.

End Prune.

(** ** Examples *)

Definition sample_later : list trie_op := [OpRemove [1; 2]; OpInsert [9] [4; 4]].

Definition sample_pruned : list trie_answer * Trie := run_or_new (@run_ops sample_hasher sample_later (sample_trie sample_ops).2).

Lemma retain_roots_exact_witness : exists tr',
  @retain_roots sample_hasher [tr_root (sample_trie sample_ops).2] sample_pruned.2 = Some (Ok tt, tr')
  /\ @represents sample_hasher tr' (map_ops sample_later (map_ops sample_ops ∅).2).2.
Proof.
  assert (@represents sample_hasher Trie_new ∅) as H0 by (exists None; apply models_new).
  destruct (@represents_ops sample_hasher sample_hasher_laws sample_ops Trie_new ∅ (sample_trie sample_ops).1 (sample_trie sample_ops).2) as [H1 _];
    [done|by apply (bool_decide_unpack _); vm_compute|by vm_compute|apply run_or_new_Ok; by vm_compute|].
  destruct (@represents_ops sample_hasher sample_hasher_laws sample_later _ _ sample_pruned.1 sample_pruned.2 H1) as [H2 H3];
    [by apply (bool_decide_unpack _); vm_compute|by vm_compute|apply run_or_new_Ok; by vm_compute|].
  destruct (@retain_roots_exact sample_hasher sample_hasher_laws sample_pruned.2 _ [(tr_root (sample_trie sample_ops).2, (map_ops sample_ops ∅).2)] H2)
    as (tr' & Hrun & Hrep & _); [by constructor|].
  exists tr'. split; [exact Hrun|exact Hrep].
Defined.
