(* ===== verification/TrieKeys.v ===== *)
(** * Listing the keys of the trie

    [Trie::keys] of crates/trie/src/trie.rs: the raw keys, rebuilt from the bits of
    the leaf paths.  Fuel is the number of stored nodes and one more: the nodes on a
    path of a tree are distinct. *)

From stdpp Require Import sorting.
From S2P Require Import Prelude Primitives Bits TrieNode Trie TrieSpec TrieStore TrieWalk TrieMap TriePrune.

(** ** Operations *)

(** [append_bits]: the bits of a path, pushed one by one. *)
Definition append_bits (out : list bool) (path : BitPath) : option (list bool) :=
  l ← mapM (BitPath_bit path) (range (bp_len path));
  Some (out ++ l).

(** [encoded[index / 8] |= 1 << (7 - (index % 8))] when the bit is set. *)
Definition set_bit (encoded : bytes) (index : N) (bit : bool) : bytes :=
  if bit then alter (fun b => N.lor b (shl8 1 (7 - index mod 8))) (N.to_nat (index / 8)) encoded else encoded.

Fixpoint set_bits (bits : list bool) (index : N) (encoded : bytes) : bytes :=
  match bits with
  | [] => encoded
  | bit :: bits => set_bits bits (index + 1) (set_bit encoded index bit)
  end.

Definition decode_raw_key (bits : list bool) : option bytes :=
  if (len bits <? 32) || negb (len bits mod 8 =? 0) then None
  else
    let encoded := set_bits bits 0 (replicate (N.to_nat (len bits / 8)) 0) in
    let key_len := from_le_bytes (take 4 encoded) in
    total ← checked_add BitVec.USIZE_MAX 4 key_len;
    if len encoded =? total then Some (drop 4 encoded) else None.

Fixpoint collect_keys (nodes : gmap Hash bytes) (fuel : nat) (hash : Hash) (prefix : list bool) (keys : list bytes)
    : result TrieFault (list bytes) :=
  match fuel with
  | O => Err OutOfFuel
  | S fuel =>
      if bool_decide (hash = ZERO_HASH) then Ok keys
      else
        node ← fetch_node nodes hash;
        match node with
        | NodeLeaf key_suffix _ =>
            bits ← in_range (append_bits prefix key_suffix);
            Ok (match decode_raw_key bits with Some key => keys ++ [key] | None => keys end)
        | NodeBranch l r =>
            keys ← collect_keys nodes fuel l (prefix ++ [false]) keys;
            collect_keys nodes fuel r (prefix ++ [true]) keys
        | NodeExtension ext child =>
            bits ← in_range (append_bits prefix ext);
            collect_keys nodes fuel child bits keys
        end
  end.

(** [Ord] on byte vectors, as a relation. *)
Definition bytes_le (a b : bytes) : Prop := bytes_cmp a b <> Gt.

#[export] Instance bytes_le_dec a b : Decision (bytes_le a b).
Proof. unfold bytes_le. destruct (bytes_cmp a b); [left|left|right]; congruence. Defined.

Definition Trie_keys (tr : Trie) : result TrieFault (list bytes) :=
  keys ← collect_keys (tr_nodes tr) (S (size (tr_nodes tr))) (tr_root tr) [] [];
  Ok (merge_sort bytes_le keys).

(** ** Bits of a key *)

Lemma set_bit_spec encoded i b j : i / 8 < len encoded -> bit_at (set_bit encoded i b) j = bit_at encoded j || (b && (i =? j)).
Proof.
  intros Hi. unfold set_bit. destruct b; [|by rewrite orb_false_r]. cbn [andb]. unfold bit_at.
  destruct (decide (N.to_nat (i / 8) = N.to_nat (j / 8))) as [Heq|Hne].
  - rewrite Heq, list_lookup_alter_eq. destruct (encoded !! N.to_nat (j / 8)) as [x|] eqn:Hx; [|apply lookup_ge_None in Hx; unfold len in Hi; lia].
    cbn. rewrite N.lor_spec, testbit_shl8. f_equal.
    destruct (N.eqb_spec i j) as [->|Hne].
    + rewrite N.sub_diag, N.leb_refl, andb_true_r. apply andb_true_iff. split; [apply N.ltb_lt; lia|done].
    + destruct (N.leb_spec (7 - i mod 8) (7 - j mod 8)) as [Hle|Hlt]; [|by rewrite andb_false_r].
      change 1 with (2 ^ 0). rewrite N.pow2_bits_false; [by rewrite andb_false_r|lia].
  - rewrite list_lookup_alter_ne by done. destruct (N.eqb_spec i j); [by subst|by rewrite orb_false_r].
Qed.

Lemma length_set_bit encoded i b : length (set_bit encoded i b) = length encoded.
Proof. unfold set_bit. destruct b; [apply length_alter|done]. Qed.

Lemma octets_set_bit encoded i b : octets encoded -> octets (set_bit encoded i b).
Proof.
  intros Ho. unfold set_bit. destruct b; [|done]. apply Forall_lookup. intros j x Hx. rewrite list_lookup_alter in Hx.
  destruct (decide _); [|by apply (Forall_lookup_1 _ _ _ _ Ho Hx)].
  destruct (encoded !! N.to_nat (i / 8)) as [y|] eqn:Hy; [|done]. injection Hx as <-. eapply Forall_lookup_1 in Hy; [|done]. auto with neutrino.
Qed.

Lemma set_bits_spec l index encoded : index + len l <= 8 * len encoded -> octets encoded ->
  octets (set_bits l index encoded) /\ length (set_bits l index encoded) = length encoded
  /\ forall j, bit_at (set_bits l index encoded) j
     = bit_at encoded j || ((index <=? j) && default false (l !! N.to_nat (j - index))).
Proof.
  revert index encoded. induction l as [|b l IH]; intros index encoded Hl Ho; cbn [set_bits].
  { split_and!; [done..|]. intros j. by rewrite andb_false_r, orb_false_r. }
  rewrite len_cons in Hl.
  destruct (IH (index + 1) (set_bit encoded index b)) as (Ho' & Hlen & Hbits);
    [unfold len in *; rewrite length_set_bit; lia|by apply octets_set_bit|].
  split_and!; [done|by rewrite Hlen, length_set_bit|]. intros j. rewrite Hbits, set_bit_spec by (unfold len in *; lia).
  rewrite <- orb_assoc. f_equal. destruct (N.eqb_spec index j) as [->|Hne].
  - rewrite (proj2 (N.leb_gt (j + 1) j)), N.leb_refl, N.sub_diag by lia. cbn. by rewrite andb_true_r, orb_false_r.
  - rewrite andb_false_r. cbn. destruct (N.leb_spec (index + 1) j), (N.leb_spec index j); try lia.
    replace (N.to_nat (j - index)) with (S (N.to_nat (j - (index + 1)))) by lia. done.
Qed.

Lemma decode_raw_key_bits key : key_ok key -> decode_raw_key (key_bits key) = Some key.
Proof.
  intros Hk. pose proof (key_path_wf key Hk) as Hw. destruct Hk as [Ho Hmax]. unfold decode_raw_key.
  assert (len (key_bits key) = 8 * (4 + len key)) as Hl by (unfold key_bits; by rewrite len_bits).
  rewrite Hl, N.mul_comm, N.Div0.mod_mul, N.div_mul by done. rewrite (proj2 (N.ltb_ge _ 32)) by lia. cbn [orb negb N.eqb].
  destruct (set_bits_spec (key_bits key) 0 (replicate (N.to_nat (4 + len key)) 0)) as (Hoct & Hlen & Hbits).
  { unfold len in Hl |- *. rewrite length_replicate. lia. }
  { apply Forall_replicate. done. }
  set (encoded := set_bits _ _ _) in *. rewrite length_replicate in Hlen.
  assert (encoded = to_le_bytes 4 (len key) ++ key) as ->.
  { apply bit_at_ext; [done|apply Hw|unfold len in *; rewrite length_app, length_to_le_bytes; lia|]. intros j. rewrite Hbits.
    assert (bit_at (replicate (N.to_nat (4 + len key)) 0) j = false) as ->.
    { unfold bit_at. destruct (_ !! _) as [x|] eqn:Hx; [|done]. by apply lookup_replicate in Hx as [-> _]. }
    cbn [orb]. rewrite N.sub_0_r, (proj2 (N.leb_le 0 j)) by lia. cbn [andb]. unfold key_bits.
    destruct (N.lt_ge_cases j (8 * (4 + len key))) as [Hj|Hj].
    - rewrite lookup_bits, N2Nat.id by (cbn; lia). done.
    - rewrite lookup_ge_None_2 by (rewrite length_bits; cbn [key_path bp_len]; lia). symmetry. by apply (pw_padding _ Hw). }
  rewrite take_app_length' by (by rewrite length_to_le_bytes). rewrite drop_app_length' by (by rewrite length_to_le_bytes).
  rewrite from_to_le_bytes by (unfold U32_MAX in *; cbn; lia).
  rewrite (proj2 (checked_add_Some BitVec.USIZE_MAX 4 (len key) (4 + len key))) by (unfold BitVec.USIZE_MAX, U64_MAX, U32_MAX in *; lia).
  rewrite some_bind. unfold len in *. rewrite Hlen, (proj2 (N.eqb_eq _ _)) by lia. done.
Qed.

Lemma append_bits_spec out p : path_wf p -> append_bits out p = Some (out ++ bits p).
Proof.
  intros Hp. unfold append_bits.
  assert (mapM (BitPath_bit p) (range (bp_len p)) = Some (bits p)) as ->; [|done].
  apply mapM_Some_2. apply Forall2_same_length_lookup_2; [by rewrite length_bits, length_range|].
  intros i x y Hx Hy. assert (i < N.to_nat (bp_len p))%nat as Hi by (apply lookup_lt_Some in Hx; by rewrite length_range in Hx).
  rewrite lookup_range in Hx by done. injection Hx as <-. destruct (bit_spec p (N.of_nat i) Hp ltac:(lia)) as (b & Hb & Hl).
  rewrite Nat2N.id in Hl. rewrite Hb. congruence.
Qed.

(** ** Keys of a tree *)

Fixpoint tkeys (t : tree) (prefix : list bool) : list (list bool) :=
  match t with
  | TLeaf k _ => [prefix ++ k]
  | TBranch l r => tkeys l (prefix ++ [false]) ++ tkeys r (prefix ++ [true])
  | TExt p c => tkeys c (prefix ++ p)
  end.

Lemma elem_of_tkeys t prefix k : k ∈ tkeys t prefix <-> exists k', k = prefix ++ k' /\ is_Some (tlookup t k').
Proof.
  revert prefix. induction t as [s w|l IHl r IHr|p c IH]; intros prefix; cbn [tkeys].
  - rewrite list_elem_of_singleton. split; [intros ->; exists s; split; [done|exists w; by apply tlookup_leaf]|].
    intros (k' & -> & v & [-> _]%tlookup_leaf). done.
  - rewrite elem_of_app, IHl, IHr. split.
    + intros [(k' & -> & Hs)|(k' & -> & Hs)]; rewrite <- app_assoc; eexists; (split; [done|done]).
    + intros ([|b k'] & -> & [v Hv]); [done|]. cbn in Hv. destruct b; [right|left]; exists k'; rewrite <- app_assoc; (split; [done|by exists v]).
  - rewrite IH. split.
    + intros (k' & -> & v & Hv). rewrite <- app_assoc. exists (p ++ k'). split; [done|]. exists v. apply tlookup_ext. by exists k'.
    + intros (k0 & -> & v & (k' & -> & Hv)%tlookup_ext). exists k'. rewrite <- app_assoc. split; [done|by exists v].
Qed.

Lemma tkeys_NoDup t prefix : NoDup (tkeys t prefix).
Proof.
  revert prefix. induction t as [s w|l IHl r IHr|p c IH]; intros prefix; cbn [tkeys]; [apply NoDup_singleton| |apply IH].
  apply NoDup_app. split_and!; [apply IHl| |apply IHr]. intros k Hl Hr.
  apply elem_of_tkeys in Hl as (k1 & -> & _), Hr as (k2 & Heq & _). rewrite <- !app_assoc in Heq. by apply app_inv_head in Heq.
Qed.

Section Keys.
Context `{Hasher} `{!HasherLaws}.

(** Nodes on the longest path. *)
Fixpoint height (t : tree) : nat :=
  match t with
  | TLeaf _ _ => 1
  | TBranch l r => S (Nat.max (height l) (height r))
  | TExt _ c => S (height c)
  end.

Lemma below_height t u : below t u -> (height u <= height t)%nat.
Proof.
  induction 1 as [t|t c u Hc _ IH]; [done|]. destruct t as [|l r|p c']; cbn in Hc |- *; [by apply not_elem_of_nil in Hc|..].
  - apply elem_of_cons in Hc as [->| ->%list_elem_of_singleton]; lia.
  - apply list_elem_of_singleton in Hc as ->. lia.
Qed.

(** A child of full height. *)
Lemma high_child t n : height t = S (S n) -> exists c, c ∈ children t /\ height c = S n.
Proof.
  destruct t as [|l r|p c]; cbn; [done|..]; intros [= Ht].
  - destruct (Nat.max_spec (height l) (height r)) as [[_ Hm]|[_ Hm]]; rewrite Hm in Ht; [exists r|exists l]; set_solver.
  - exists c. set_solver.
Qed.

Lemma spine tr t n : stored tr t -> height t = S n ->
  exists hs : list Hash, NoDup hs /\ length hs = S n /\ forall h, h ∈ hs -> exists u, below t u /\ h = tree_hash u.
Proof.
  revert t. induction n as [|n IH]; intros t Hst Hh.
  { exists [tree_hash t]. split_and!; [apply NoDup_singleton|done|]. intros h ->%list_elem_of_singleton. exists t. split; [apply rtc_refl|done]. }
  destruct (high_child t n Hh) as (c & Hc & Hn). destruct (IH c) as (hs & Hnd & Hlen & Hall); [by eapply stored_child|done|].
  exists (tree_hash t :: hs). split_and!; [|cbn; lia|].
  - apply NoDup_cons. split; [|done]. intros Hin. destruct (Hall _ Hin) as (u & Hu & Heq).
    apply below_height in Hu as Hle. apply (stored_hash_inj tr) in Heq as ->; [lia|done|].
    eapply below_stored, Hu. by eapply stored_child.
  - intros h [->|Hin]%elem_of_cons; [exists t; split; [apply rtc_refl|done]|].
    destruct (Hall h Hin) as (u & Hu & ->). exists u. split; [by eapply rtc_l|done].
Qed.

Lemma height_bound tr t : stored tr t -> (height t <= size (tr_nodes tr))%nat.
Proof.
  intros Hst. destruct (height t) as [|n] eqn:Hh; [lia|]. destruct (spine tr t n Hst Hh) as (hs & Hnd & Hlen & Hall).
  rewrite <- size_dom, <- Hlen, <- (size_list_to_set (C := gset Hash) hs) by done. apply subseteq_size.
  intros h Hin%elem_of_list_to_set. destruct (Hall h Hin) as (u & Hu & ->). apply elem_of_dom. exists (tree_bytes u).
  apply (everywhere_root _ _ (st_nodes _ _ (below_stored _ _ _ Hst Hu))).
Qed.

Lemma collect_keys_spec tr fuel t prefix keys : stored tr t -> (height t <= fuel)%nat ->
  collect_keys (tr_nodes tr) fuel (tree_hash t) prefix keys = Ok (keys ++ omap decode_raw_key (tkeys t prefix)).
Proof.
  revert fuel prefix keys. induction t as [s w|l IHl r IHr|p c IH]; intros fuel prefix keys Hst Hf;
    (destruct fuel as [|fuel]; [cbn in Hf; lia|]); cbn [collect_keys tkeys];
    destruct (stored_fetch tr _ Hst) as [Hz Hfetch]; rewrite (bool_decide_false _ Hz), Hfetch; cbn [mbind result_bind tree_node];
    pose proof (sh_depth _ (st_shaped _ _ Hst)) as Hd; cbn in Hd.
  - destruct (pack_spec s) as [Hpw Hpb]; [unfold len; lia|]. rewrite append_bits_spec, Hpb by done. cbn.
    destruct (decode_raw_key (prefix ++ s)); [done|by rewrite app_nil_r].
  - cbn [height] in Hf. assert (stored tr l /\ stored tr r) as [Hl Hr] by (split; (eapply stored_child; [exact Hst|set_solver])).
    fold (tree_bytes l) (tree_hash l) (tree_bytes r) (tree_hash r).
    rewrite IHl by (done || lia). cbn [mbind result_bind]. rewrite IHr by (done || lia). by rewrite omap_app, app_assoc.
  - destruct (pack_spec p) as [Hpw Hpb]; [unfold len; lia|]. rewrite append_bits_spec, Hpb by done. cbn [height] in Hf. cbn [in_range ok_or mbind result_bind].
    apply IH; [eapply stored_child; [exact Hst|set_solver]|lia].
Qed.

#[local] Instance bytes_le_total : Total bytes_le.
Proof. intros a b. unfold bytes_le. rewrite (bytes_cmp_antisym a b). destruct (bytes_cmp a b); [left|left|right]; done. Qed.

Lemma NoDup_omap {A B} (f : A -> option B) l : NoDup l ->
  (forall x y z, x ∈ l -> y ∈ l -> f x = Some z -> f y = Some z -> x = y) -> NoDup (omap f l).
Proof.
  induction 1 as [|x l Hx _ IH]; intros Hinj; [constructor|]. cbn. destruct (f x) as [z|] eqn:Hz; [|apply IH; set_solver].
  apply NoDup_cons. split; [|apply IH; set_solver]. intros (y & Hy & Hfy)%list_elem_of_omap.
  assert (x = y) as <-; [|done]. apply (Hinj x y z); [by left|by right|done|done].
Qed.

Lemma holds_none s : holds None s -> s = ∅.
Proof.
  intros Hh. apply map_empty. intros key. destruct (s !! key) as [l|] eqn:Hl; [|done].
  assert (olookup None (key_bits key) = Some (hash_value l)) by (apply (ho_lookup _ _ Hh); eauto). done.
Qed.

(** Keys of the content, decoded from the paths of the tree. *)
Lemma holds_keys t s : holds (Some t) s -> omap decode_raw_key (tkeys t []) ≡ₚ (map_to_list s).*1.
Proof.
  intros Hh.
  assert (forall k, k ∈ tkeys t [] <-> exists key, k = key_bits key /\ key ∈ (map_to_list s).*1) as Hkeys.
  { intros k. rewrite elem_of_tkeys. split.
    - intros (k' & -> & v & (key & l & -> & Hl & _)%(ho_lookup _ _ Hh)). exists key. split; [done|].
      apply list_elem_of_fmap. exists (key, l). split; [done|]. by apply elem_of_map_to_list.
    - intros (key & -> & ([key' l] & -> & Hl%elem_of_map_to_list)%list_elem_of_fmap). eexists. split; [done|]. exists (hash_value l).
      apply (ho_lookup _ _ Hh). by exists key', l. }
  assert (forall key, key ∈ (map_to_list s).*1 -> key_ok key) as Hok.
  { intros key ([key' l] & -> & Hl%elem_of_map_to_list)%list_elem_of_fmap. apply (ho_keys _ _ Hh). by exists l. }
  apply NoDup_Permutation; [|apply NoDup_fst_map_to_list|].
  - apply NoDup_omap; [apply tkeys_NoDup|]. intros x y key (k1 & -> & H1)%Hkeys (k2 & -> & H2)%Hkeys Hx Hy.
    rewrite decode_raw_key_bits in Hx, Hy by auto. congruence.
  - intros key. rewrite list_elem_of_omap. split.
    + intros (k & (key' & -> & Hin)%Hkeys & Hd). rewrite decode_raw_key_bits in Hd by auto. by injection Hd as <-.
    + intros Hin. exists (key_bits key). split; [apply Hkeys; eauto|]. by apply decode_raw_key_bits, Hok.
Qed.

(** C24: [keys] returns each key of the map exactly once, in lexicographic order. *)
Theorem trie_keys_exact ops answers tr :
  Forall (fun op => key_ok (op_key op)) ops -> ops_clash_free ops Trie_new = true -> run_ops ops Trie_new = Ok (answers, tr) ->
  exists keys, Trie_keys tr = Ok keys /\ Sorted bytes_le keys /\ keys ≡ₚ (map_to_list (map_ops ops ∅).2).*1.
Proof.
  intros Hks Hcf Hrun. destruct (models_ops ops _ _ _ models_new Hks Hcf) as (t & tr' & Hrun' & Hm & _).
  rewrite Hrun in Hrun'. injection Hrun' as _ <-. pose proof (md_rooted _ _ _ Hm) as [Hroot _ Hh]. unfold Trie_keys.
  assert (exists keys, collect_keys (tr_nodes tr) (S (size (tr_nodes tr))) (tr_root tr) [] [] = Ok keys
    /\ keys ≡ₚ (map_to_list (map_ops ops ∅).2).*1) as (keys & -> & Hp).
  { rewrite Hroot. destruct t as [t|].
    - pose proof (models_stored _ _ _ t Hm eq_refl) as Hst. pose proof (height_bound tr t Hst). eexists. split; [apply collect_keys_spec; [done|lia]|]. by apply holds_keys.
    - exists []. split; [done|]. by rewrite (holds_none _ Hh), map_to_list_empty. }
  eexists. split; [done|]. split; [apply Sorted_merge_sort, _|]. by rewrite merge_sort_Permutation.
Qed.

End Keys.

(** ** Examples *)

Lemma trie_keys_exact_witness : exists keys, Trie_keys (sample_trie sample_ops).2 = Ok keys /\ Sorted bytes_le keys.
Proof.
  destruct (@trie_keys_exact sample_hasher sample_hasher_laws sample_ops (sample_trie sample_ops).1 (sample_trie sample_ops).2) as (keys & Hk & Hs & _);
    [by apply (bool_decide_unpack _); vm_compute|by vm_compute|apply run_or_new_Ok; by vm_compute|].
  exists keys. split; [exact Hk|exact Hs].
Defined.
