(* ===== verification/TriePartial.v ===== *)
(** * Partial tries

    A trie rebuilt from some of the nodes of another, as the Guest rebuilds the
    state trie from its witness.  When the nodes cover the paths of the keys that
    are going to change, every change replays on the partial trie with the same
    root; and whatever the nodes are, operations that succeed on both tries have the
    same results. *)

From S2P Require Import Prelude Primitives Bits TrieNode Trie TrieSpec TrieStore TrieWalk TrieMap.

Section Partial.
Context `{Hasher} `{!HasherLaws}.

(** ** Replaying changes *)

(** [g] holds a part of the nodes and values of [h]. *)
Record replays (h g : Trie) (t : option tree) (s : content) : Prop := {
  rp_host : models h t s;
  rp_guest : rooted g t s;
  rp_nodes : tr_nodes g ⊆ tr_nodes h;
  rp_values : tr_values g ⊆ tr_values h;
}.

(** The nodes a change of [key] needs are in [g]. *)
Definition ready (g : Trie) (t : option tree) (key : bytes) : Prop :=
  forall t0, t = Some t0 -> removable (has (tr_nodes g)) t0 (key_bits key).

Lemma replays_root h g t s : replays h g t s -> tr_root g = tr_root h.
Proof. intros Hr. by rewrite (ro_root _ _ _ (rp_guest _ _ _ _ Hr)), (ro_root _ _ _ (md_rooted _ _ _ (rp_host _ _ _ _ Hr))). Qed.

Lemma insert_clash_sub h g key l : tr_nodes g ⊆ tr_nodes h -> tr_values g ⊆ tr_values h -> tr_root g = tr_root h ->
  insert_clash_free key l h = true -> insert_clash_free key l g = true.
Proof.
  unfold insert_clash_free. intros Hn Hv Hr. destruct (BitPath_for_key key) as [path|]; [|done].
  intros [Hf Hc]%andb_true_iff. rewrite (entry_free_sub _ _ _ _ Hv Hf). cbn [store_value andb]. cbn [tr_root]. rewrite Hr.
  by eapply clash_free_sub, Hc.
Qed.

Lemma remove_clash_sub h g key : tr_nodes g ⊆ tr_nodes h -> tr_root g = tr_root h ->
  remove_clash_free key h = true -> remove_clash_free key g = true.
Proof.
  unfold remove_clash_free. intros Hn Hr. destruct (BitPath_for_key key) as [path|]; [|done]. rewrite Hr. by apply clash_free_sub.
Qed.

Lemma run_values {A} (p : prog A) tr a tr' : run_trie p tr = Ok (a, tr') -> tr_values tr' = tr_values tr.
Proof.
  revert tr. induction p as [x|e|hash k IH|n k IH]; intros tr; cbn [run_trie]; [by intros [= _ <-]|done|..].
  - destruct (fetch_node (tr_nodes tr) hash); [apply IH|done].
  - intros Hrun. apply IH in Hrun. done.
Qed.

Definition insert_outcome (r : result TrieError Hash) (tr : Trie) : result TrieError unit * Trie :=
  match r with Ok root => (Ok tt, set_root root tr) | Err e => (Err e, tr) end.

Lemma insert_inv key l tr r tr' : Trie_insert key l tr = Ok (r, tr') -> exists path r0 tr1, BitPath_for_key key = Some path
  /\ run_trie (insert_at (path_fuel path) (tr_root tr) path 0 (hash_value l)) (store_value l tr).2 = Ok (r0, tr1)
  /\ (r, tr') = insert_outcome r0 tr1.
Proof.
  unfold Trie_insert. destruct (BitPath_for_key key) as [path|]; [|done]. cbn [in_range ok_or mbind result_bind].
  change (store_value l tr) with ((store_value l tr).1, (store_value l tr).2). cbn [store_value fst snd tr_root].
  destruct (run_trie _ _) as [[r0 tr1]|] eqn:Hrun; [|done]. cbn [mbind result_bind]. intros Hr. exists path, r0, tr1.
  split_and!; [done..|]. destruct r0; by injection Hr as <- <-.
Qed.

Lemma remove_inv key tr v tr' : Trie_remove key tr = Ok (v, tr') -> exists path root removed tr1, BitPath_for_key key = Some path
  /\ run_trie (remove_at (path_fuel path) (tr_root tr) path 0) tr = Ok ((root, removed), tr1)
  /\ tr' = set_root root tr1.
Proof.
  unfold Trie_remove. destruct (BitPath_for_key key) as [path|]; [|done]. cbn [in_range ok_or mbind result_bind].
  destruct (run_trie _ _) as [[[root removed] tr1]|] eqn:Hrun; [|done]. cbn [mbind result_bind]. intros [= _ <-].
  by exists path, root, removed, tr1.
Qed.

Lemma insert_sub h g key l h' g' r r' : tr_nodes g ⊆ tr_nodes h -> tr_values g ⊆ tr_values h -> tr_root g = tr_root h ->
  Trie_insert key l h = Ok (r, h') -> Trie_insert key l g = Ok (r', g') -> tr_nodes g' ⊆ tr_nodes h' /\ tr_values g' ⊆ tr_values h'.
Proof.
  intros Hn Hv Hr (path & rh & h1 & Hpath & Hh & Heqh)%insert_inv (path' & rg & g1 & Hpath' & Hg & Heqg)%insert_inv.
  rewrite Hpath in Hpath'. injection Hpath' as <-. rewrite Hr in Hg.
  destruct (run_sub _ (store_value l g).2 (store_value l h).2 _ _ _ _ Hn Hg Hh) as [-> Hsub].
  apply run_values in Hg, Hh. assert (tr_values g1 ⊆ tr_values h1) as Hvs by (rewrite Hg, Hh; by apply insert_mono).
  destruct rh; injection Heqh as _ ->; injection Heqg as _ ->; done.
Qed.

Lemma remove_sub h g key h' g' v v' : tr_nodes g ⊆ tr_nodes h -> tr_values g ⊆ tr_values h -> tr_root g = tr_root h ->
  Trie_remove key h = Ok (v, h') -> Trie_remove key g = Ok (v', g') -> tr_nodes g' ⊆ tr_nodes h' /\ tr_values g' ⊆ tr_values h'.
Proof.
  intros Hn Hv Hr (path & rh & xh & h1 & Hpath & Hh & ->)%remove_inv (path' & rg & xg & g1 & Hpath' & Hg & ->)%remove_inv.
  rewrite Hpath in Hpath'. injection Hpath' as <-. rewrite Hr in Hg.
  destruct (run_sub _ g h _ _ _ _ Hn Hg Hh) as [_ Hsub]. apply run_values in Hg, Hh. cbn. by rewrite Hg, Hh.
Qed.

(** Changing one key leaves what the others need. *)
Lemma ready_insert g g' t t' key v key2 : key_ok key -> key_ok key2 -> key <> key2 ->
  oinsert t (key_bits key) v = Some t' -> tr_nodes g ⊆ tr_nodes g' -> Forall (has (tr_nodes g')) (oinsert_nodes t (key_bits key) v) ->
  ready g t key2 -> ready g' (Some t') key2.
Proof.
  intros Hk Hk2 Hne Ht Hsub Hall Hr t0 [= <-].
  assert (key_bits key2 <> key_bits key) as Hbits by (intros Heq; apply key_bits_inj in Heq; [congruence|done..]).
  pose proof (fun u => has_mono (tr_nodes g) (tr_nodes g') u Hsub) as HPQ. destruct t as [t|]; cbn [oinsert oinsert_nodes] in *.
  - destruct (Hr t eq_refl) as [Hreach Hcov]. split; [by eapply insert_reach|].
    intros [x Hx]. assert (is_Some (tlookup t (key_bits key2))) as Hsome.
    { apply (insert_lookup _ _ _ _ _ _ Ht) in Hx as [[Heq _]|[_ Hx]]; [done|by exists x]. }
    eapply insert_cover; eauto.
  - injection Ht as <-. apply forall_one in Hall. split; [by split|]. intros _. by split.
Qed.

Lemma ready_remove g g' t key key2 : key_ok key -> key_ok key2 -> key <> key2 ->
  tr_nodes g ⊆ tr_nodes g' -> Forall (has (tr_nodes g')) (oremove_nodes t (key_bits key)) ->
  ready g t key2 -> ready g' (oremove t (key_bits key)) key2.
Proof.
  intros Hk Hk2 Hne Hsub Hall Hr t' Ht'.
  assert (key_bits key2 <> key_bits key) as Hbits by (intros Heq; apply key_bits_inj in Heq; [congruence|done..]).
  pose proof (fun u => has_mono (tr_nodes g) (tr_nodes g') u Hsub) as HPQ. destruct t as [t|]; cbn [oremove oremove_nodes] in *; [|done].
  destruct (Hr t eq_refl) as [Hreach Hcov]. destruct (tremove t (key_bits key)) as [[t0 v]|] eqn:Hrem; cbn in Ht'; [subst t0|injection Ht' as <-].
  - split; [by eapply remove_reach|]. intros [x Hx].
    assert (is_Some (tlookup t (key_bits key2))) as Hsome by (apply (remove_lookup _ _ _ _ (key_bits key2) x Hrem) in Hx as [_ Hx]; by exists x).
    eapply remove_cover; eauto.
  - split; [by eapply reach_mono|]. intros Hx. eapply cover_mono; [exact HPQ|]. by apply Hcov.
Qed.

Lemma replay_op op h g t s : replays h g t s -> key_ok (op_key op) -> op_clash_free op h = true -> ready g t (op_key op) ->
  exists t' h' g' a, run_op op h = Ok ((map_op op s).1, h') /\ run_op op g = Ok (a, g')
    /\ (forall r, a = Inserted r -> r = Ok tt)
    /\ replays h' g' t' (map_op op s).2
    /\ forall key2, key_ok key2 -> op_key op <> key2 -> ready g t key2 -> ready g' t' key2.
Proof.
  intros Hrp Hk Hcf Hrd. pose proof (replays_root _ _ _ _ Hrp) as Hroot. destruct Hrp as [Hm Hro Hn Hv].
  destruct op as [key l|key]; cbn [op_key op_clash_free run_op map_op fst snd] in *.
  - destruct (models_insert h t s key l Hm Hk Hcf) as (t' & h' & Hrunh & Hm' & _ & Ht' & _).
    destruct (insert_spec g t s key l Hro Hk) as (t2 & g' & Hrung & Ht2 & Hro' & Hex & _ & Hall);
      [by eapply insert_clash_sub|by intros t0 Ht0; apply Hrd|]. rewrite Ht' in Ht2. injection Ht2 as <-.
    rewrite Hrunh, Hrung. cbn [mbind result_bind]. exists (Some t'), h', g', (Inserted (Ok tt)). split_and!; [done..|by intros r [= <-]| |].
    + destruct (insert_sub _ _ _ _ _ _ _ _ Hn Hv Hroot Hrunh Hrung). by constructor.
    + intros key2 Hk2 Hne Hr2. eapply ready_insert; [exact Hk|done..|apply Hex|done|done].
  - destruct (models_remove h t s key Hm Hk Hcf) as (h' & Hrunh & Hm' & _).
    destruct (remove_spec g t s key Hro Hk) as (g' & Hrung & Hro' & Hex & _ & Hall); [by eapply remove_clash_sub|done|].
    rewrite Hrunh, Hrung. cbn [mbind result_bind]. eexists _, h', g', _. split_and!; [done..| |].
    + destruct (remove_sub _ _ _ _ _ _ _ Hn Hv Hroot Hrunh Hrung). by constructor.
    + intros key2 Hk2 Hne Hr2. eapply ready_remove; [exact Hk|done..|apply Hex|done|done].
Qed.

(** Changes of distinct keys replay with the same root. *)
Lemma replay_ops ops h g t s : replays h g t s -> Forall (fun op => key_ok (op_key op)) ops -> NoDup (op_key <$> ops) ->
  ops_clash_free ops h = true -> Forall (fun op => ready g t (op_key op)) ops ->
  exists t' h' g' answers, run_ops ops h = Ok ((map_ops ops s).1, h') /\ run_ops ops g = Ok (answers, g')
    /\ (forall r, Inserted r ∈ answers -> r = Ok tt)
    /\ replays h' g' t' (map_ops ops s).2.
Proof.
  revert h g t s. induction ops as [|op ops IH]; intros h g t s Hrp Hk Hnd Hcf Hrd.
  { exists t, h, g, []. split_and!; [done..| |done]. by intros r ?%not_elem_of_nil. }
  apply Forall_cons in Hk as [Hop Hk], Hrd as [Hrop Hrd]. cbn in Hnd. apply NoDup_cons in Hnd as [Hnin Hnd].
  cbn [ops_clash_free run_ops map_ops] in *. apply andb_true_iff in Hcf as [Hcf1 Hcf2].
  destruct (replay_op op h g t s Hrp Hop Hcf1 Hrop) as (t1 & h1 & g1 & a & Hrunh & Hrung & Hins & Hrp1 & Hkeep). rewrite Hrunh in *. rewrite Hrung.
  cbn [mbind result_bind]. destruct (map_op op s) as [a1 s1]. cbn [fst snd] in *.
  destruct (IH h1 g1 t1 s1 Hrp1 Hk Hnd Hcf2) as (t2 & h2 & g2 & answers & -> & -> & Hall & Hrp2).
  { apply Forall_forall. intros op2 Hin. rewrite Forall_forall in Hk, Hrd. apply Hkeep; [by apply Hk| |by apply Hrd].
    intros Heq. apply Hnin. rewrite Heq. by apply list_elem_of_fmap_2. }
  cbn [mbind result_bind]. destruct (map_ops ops s1) as [answers1 s2]. exists t2, h2, g2, (a :: answers). split_and!; [done..| |done].
  intros r [Heq|Hin]%elem_of_cons; [by apply Hins|by apply Hall].
Qed.

(** ** Tries that agree *)

(** The same root, and no hash with different bytes in the two stores. *)
Record agrees (g h : Trie) : Prop := {
  ag_root : tr_root g = tr_root h;
  ag_nodes : agree (tr_nodes g) (tr_nodes h);
  ag_values : agree (tr_values g) (tr_values h);
}.

Lemma get_walk_agree (a b : gmap Hash bytes) fuel path current consumed v v' : agree a b ->
  get_walk a fuel path current consumed = Ok v -> get_walk b fuel path current consumed = Ok v' -> v = v'.
Proof.
  intros Hab. revert current consumed. induction fuel as [|fuel IH]; intros current consumed; cbn [get_walk]; [done|].
  case_bool_decide; [congruence|].
  destruct (fetch_node a current) as [n|] eqn:Hn; [|done]. destruct (fetch_node b current) as [m|] eqn:Hm; [|done].
  rewrite (fetch_agree _ _ _ _ _ Hab Hn Hm). cbn [mbind result_bind]. destruct m as [p w|l r|p c].
  - destruct (BitPath_suffix path consumed); cbn; [congruence|done].
  - destruct (bp_len path <=? consumed); [congruence|]. destruct (BitPath_bit path consumed) as [b0|]; cbn; [apply IH|done].
  - destruct (checked_add U32_MAX consumed (bp_len p)) as [e|]; cbn; [|done]. destruct (bp_len path <? e); [congruence|].
    destruct (BitPath_suffix path consumed) as [rest|]; cbn; [|done]. destruct (BitPath_prefix rest (bp_len p)) as [seg|]; cbn; [|done].
    case_bool_decide; [apply IH|congruence].
Qed.

Lemma get_agree g h key v v' : agrees g h -> Trie_get key g = Ok v -> Trie_get key h = Ok v' -> v = v'.
Proof.
  intros [Hr Hn Hv]. unfold Trie_get. destruct (BitPath_for_key key) as [path|]; [|done]. cbn [in_range ok_or mbind result_bind]. rewrite Hr.
  destruct (get_walk (tr_nodes g) _ _ _ _) as [x|] eqn:Hg; [|done]. destruct (get_walk (tr_nodes h) _ _ _ _) as [y|] eqn:Hh; [|done].
  rewrite (get_walk_agree _ _ _ _ _ _ _ _ Hn Hg Hh). cbn [mbind result_bind]. destruct y as [y|]; [|congruence].
  destruct (tr_values g !! y) as [l|] eqn:Hlg; cbn; [|done]. destruct (tr_values h !! y) as [l'|] eqn:Hlh; cbn; [|done].
  rewrite (Hv _ _ _ Hlg Hlh). congruence.
Qed.

Lemma insert_agree g h key l r g' r' h' : agrees g h -> Trie_insert key l g = Ok (r, g') -> Trie_insert key l h = Ok (r', h') ->
  r = r' /\ (r = Ok tt -> agrees g' h').
Proof.
  intros [Hr Hn Hv] (path & rg & g1 & Hpath & Hg & Heqg)%insert_inv (path' & rh & h1 & Hpath' & Hh & Heqh)%insert_inv.
  rewrite Hpath in Hpath'. injection Hpath' as <-. rewrite Hr in Hg.
  destruct (run_agree _ (store_value l g).2 (store_value l h).2 _ _ _ _ Hn Hg Hh) as [-> Hag].
  apply run_values in Hg, Hh. destruct rh as [root|e]; injection Heqg as -> ->; injection Heqh as -> ->; (split; [done|]); [|done].
  intros _. constructor; [done|done|]. cbn. rewrite Hg, Hh. by apply agree_insert.
Qed.

Lemma remove_agree g h key v g' v' h' : agrees g h -> Trie_remove key g = Ok (v, g') -> Trie_remove key h = Ok (v', h') -> agrees g' h'.
Proof.
  intros [Hr Hn Hv] (path & rg & xg & g1 & Hpath & Hg & ->)%remove_inv (path' & rh & xh & h1 & Hpath' & Hh & ->)%remove_inv.
  rewrite Hpath in Hpath'. injection Hpath' as <-. rewrite Hr in Hg.
  destruct (run_agree _ g h _ _ _ _ Hn Hg Hh) as [[= -> _] Hag]. apply run_values in Hg, Hh. constructor; [done|done|]. cbn. by rewrite Hg, Hh.
Qed.

End Partial.
