(* ===== verification/History.v ===== *)
(** * crates/consensus-types/src/history.rs: the append-only history tree

    A counted tree of fixed depth 64 over the finalized chunk contexts, kept as
    a frontier of complete-subtree roots.  The reference is [subtree], the
    recursive root of the leaves below a node; the theorems show that frontier
    roots, appends, openings and their advancement all agree with it, and that
    an accepted opening of a different leaf exhibits a hash collision. *)

From S2P Require Import Prelude External Primitives.

Definition HISTORY_DEPTH : nat := 64.
Definition HISTORY_RETENTION_CHUNKS : N := 8.

Definition is_history_index_within (index count window : N) : bool :=
  (index <? count) && (saturating_sub count window <=? index).

Definition is_recent_history_index (index count : N) : bool :=
  is_history_index_within index count HISTORY_RETENTION_CHUNKS.

Definition history_record_window_chunks (unbonding_delay_blocks chunk_size : N) : N :=
  if chunk_size =? 0 then HISTORY_RETENTION_CHUNKS
  else
    let chunks := div_ceil unbonding_delay_blocks chunk_size in
    if HISTORY_RETENTION_CHUNKS <? chunks then chunks else HISTORY_RETENTION_CHUNKS.

(** [u64::count_ones] and [u64::trailing_ones]. *)
Definition count_ones (n : N) : nat :=
  length (filter (fun i => N.testbit n i = true) (range 64)).
Fixpoint trailing_ones_loop (fuel : nat) (n : N) : nat :=
  match fuel with
  | O => O
  | S fuel => if N.odd n then S (trailing_ones_loop fuel (n / 2)) else O
  end.
Definition trailing_ones (n : N) : nat := trailing_ones_loop 64 n.

Section history.
Context `{Blake3}.

(** The bytes hashed for an empty and an occupied leaf. *)
Definition leaf_preimage (value : option Hash) : bytes :=
  match value with
  | None => DOMAIN_HISTORY_LEAF ++ [0]
  | Some value => DOMAIN_HISTORY_LEAF ++ [1] ++ value
  end.

Definition history_leaf_hash (value : option Hash) : Hash := blake3_256 (leaf_preimage value).

Definition node_preimage (level : nat) (l r : Hash) : bytes :=
  DOMAIN_HISTORY_NODE ++ [N.of_nat level] ++ l ++ r.

(** The source asserts [level < HISTORY_DEPTH]; every caller below passes the
    level of a loop bounded by the depth. *)
Definition history_node_hash (level : nat) (l r : Hash) : Hash :=
  blake3_256 (node_preimage level l r).

(** [EMPTY_HISTORY_HASHES] by the recursion that generates the table. *)
Fixpoint empty_history_hash (level : nat) : Hash :=
  match level with
  | O => history_leaf_hash None
  | S level => history_node_hash level (empty_history_hash level) (empty_history_hash level)
  end.

Definition root_preimage (count : N) (root : Hash) : bytes :=
  DOMAIN_HISTORY_ROOT ++ to_le_bytes 8 count ++ root.

Definition counted_history_root (count : N) (root : Hash) : Hash :=
  blake3_256 (root_preimage count root).

Definition empty_history_root : Hash :=
  counted_history_root 0 (empty_history_hash HISTORY_DEPTH).

(** [(count >> level) & 1 == 1]. *)
Definition bit_set (count : N) (level : nat) : bool :=
  N.land (N.shiftr count (N.of_nat level)) 1 =? 1.

Record HistoryFrontier := { fcount : N; peaks : list Hash }.

Definition HistoryFrontier_empty : HistoryFrontier := {| fcount := 0; peaks := [] |}.

(** The loop over the levels [level ..], [n] of them left, consuming [peaks]. *)
Fixpoint root_loop (n level : nat) (count : N) (right_ : Hash) (peaks : list Hash) : option Hash :=
  match n with
  | O => Some right_
  | S n =>
      if bit_set count level then
        match peaks with
        | [] => None
        | peak :: peaks => root_loop n (S level) count (history_node_hash level peak right_) peaks
        end
      else root_loop n (S level) count
             (history_node_hash level right_ (empty_history_hash level)) peaks
  end.

Definition frontier_root (f : HistoryFrontier) : option Hash :=
  if negb (length (peaks f) =? count_ones (fcount f))%nat then None
  else
    right_ ← root_loop HISTORY_DEPTH 0 (fcount f) (empty_history_hash 0) (peaks f);
    Some (counted_history_root (fcount f) right_).

(** The loop folding the consumed peaks into the appended leaf. *)
Fixpoint append_loop (level : nat) (consumed : list Hash) (node : Hash) : Hash :=
  match consumed with
  | [] => node
  | l :: consumed => append_loop (S level) consumed (history_node_hash level l node)
  end.

(** [append]: the updated frontier and its root; [None] leaves it unchanged.
    [&self.peaks[consumed..]] is in range for a frontier of canonical shape. *)
Definition append (f : HistoryFrontier) (leaf : Hash) : option (HistoryFrontier * Hash) :=
  next ← checked_add U64_MAX (fcount f) 1;
  if negb (length (peaks f) =? count_ones (fcount f))%nat then None
  else
    let consumed := trailing_ones (fcount f) in
    let node := append_loop 0 (take consumed (peaks f)) (history_leaf_hash (Some leaf)) in
    let f' := {| fcount := next; peaks := node :: drop consumed (peaks f) |} in
    root ← frontier_root f';
    Some (f', root).

Fixpoint from_leaves_loop (f : HistoryFrontier) (leaves : list Hash) : option HistoryFrontier :=
  match leaves with
  | [] => Some f
  | leaf :: leaves => '(f, _) ← append f leaf; from_leaves_loop f leaves
  end.

Definition from_leaves (leaves : list Hash) : option HistoryFrontier :=
  from_leaves_loop HistoryFrontier_empty leaves.

Definition history_root (leaves : list Hash) : option Hash :=
  f ← from_leaves leaves; frontier_root f.

Record HistoryPath := { pindex : N; pcount : N; siblings : list Hash }.

(** The loop of [verify] over the siblings from [level] up. *)
Fixpoint verify_loop (level : nat) (index : N) (siblings : list Hash) (node : Hash) : Hash :=
  match siblings with
  | [] => node
  | sibling :: siblings =>
      verify_loop (S level) index siblings
        (if negb (bit_set index level) then history_node_hash level node sibling
         else history_node_hash level sibling node)
  end.

Definition path_verify (p : HistoryPath) (leaf expected : Hash) : bool :=
  if (pcount p <=? pindex p) || negb (length (siblings p) =? HISTORY_DEPTH)%nat then false
  else
    let node := verify_loop 0 (pindex p) (siblings p) (history_leaf_hash (Some leaf)) in
    bool_decide (counted_history_root (pcount p) node = expected).

Fixpoint append_path_loop (n level : nat) (count : N) (peaks : list Hash) : option (list Hash) :=
  match n with
  | O => Some []
  | S n =>
      if bit_set count level then
        match peaks with
        | [] => None
        | peak :: peaks => rest ← append_path_loop n (S level) count peaks; Some (peak :: rest)
        end
      else rest ← append_path_loop n (S level) count peaks;
           Some (empty_history_hash level :: rest)
  end.

Definition append_path (f : HistoryFrontier) (leaf : Hash) : option HistoryPath :=
  count ← checked_add U64_MAX (fcount f) 1;
  if negb (length (peaks f) =? count_ones (fcount f))%nat then None
  else
    siblings ← append_path_loop HISTORY_DEPTH 0 (fcount f) (peaks f);
    let path := {| pindex := fcount f; pcount := count; siblings := siblings |} in
    '(_, root) ← append f leaf;
    if path_verify path leaf root then Some path else None.

(** [nodes.chunks(2)] with the missing right child an empty subtree. *)
Fixpoint history_pair_up (level : nat) (nodes : list Hash) : list Hash :=
  match nodes with
  | l :: r :: nodes => history_node_hash level l r :: history_pair_up level nodes
  | [l] => [history_node_hash level l (empty_history_hash level)]
  | [] => []
  end.

Fixpoint build_loop (n level : nat) (nodes : list Hash) (position : N) : list Hash :=
  match n with
  | O => []
  | S n =>
      default (empty_history_hash level) (nodes !! N.to_nat (N.lxor position 1))
      :: build_loop n (S level) (history_pair_up level nodes) (position / 2)
  end.

Definition path_build (leaves : list Hash) (index : nat) : option HistoryPath :=
  if (length leaves <=? index)%nat then None
  else
    count ← try_from U64_MAX (len leaves);
    let nodes := map (fun leaf => history_leaf_hash (Some leaf)) leaves in
    index' ← try_from U64_MAX (N.of_nat index);
    Some {| pindex := index'; pcount := count;
            siblings := build_loop HISTORY_DEPTH 0 nodes (N.of_nat index) |}.

(** The loop recomputing the one sibling the appended leaf changes. *)
Fixpoint advance_loop (level : nat) (count : N) (others : list Hash) (sibling : Hash) : Hash :=
  match others with
  | [] => sibling
  | other :: others =>
      advance_loop (S level) count others
        (if negb (bit_set count level) then history_node_hash level sibling other
         else history_node_hash level other sibling)
  end.

(** [advance]: the new path and root; [None] leaves the path unchanged. *)
Definition path_advance (p : HistoryPath) (leaf : Hash) (f : HistoryFrontier)
    (appended_leaf : Hash) : option (HistoryPath * Hash) :=
  if negb (pcount p =? fcount f) then None
  else
    froot ← frontier_root f;
    if negb (path_verify p leaf froot) then None
    else
      insertion ← append_path f appended_leaf;
      let changed_level := N.to_nat (N.log2 (N.lxor (pindex p) (fcount f))) in
      let sibling := advance_loop 0 (fcount f) (take changed_level (siblings insertion))
                       (history_leaf_hash (Some appended_leaf)) in
      '(_, root) ← append f appended_leaf;
      let next_path := {| pindex := pindex p; pcount := pcount insertion;
                          siblings := <[changed_level := sibling]> (siblings p) |} in
      if negb (path_verify next_path leaf root) then None
      else Some (next_path, root).

(** ** Reference definitions *)

(** Root of the subtree of height [level] at position [pos] of its row, for the
    leaf assignment [leaf_at]. *)
Fixpoint subtree (leaf_at : N -> option Hash) (level : nat) (pos : N) : Hash :=
  match level with
  | O => history_leaf_hash (leaf_at pos)
  | S level => history_node_hash level (subtree leaf_at level (2 * pos))
                 (subtree leaf_at level (2 * pos + 1))
  end.

Definition leaves_at (leaves : list Hash) (i : N) : option Hash := leaves !! N.to_nat i.

Definition reference_root (leaves : list Hash) : Hash :=
  counted_history_root (len leaves) (subtree (leaves_at leaves) HISTORY_DEPTH 0).

(** One complete subtree per set bit of the count, low to high, [n] levels from
    [level] on. *)
Fixpoint reference_peaks (leaves : list Hash) (n level : nat) : list Hash :=
  match n with
  | O => []
  | S n =>
      if N.testbit (len leaves) (N.of_nat level) then
        subtree (leaves_at leaves) level (N.shiftr (len leaves) (N.of_nat level) - 1)
        :: reference_peaks leaves n (S level)
      else reference_peaks leaves n (S level)
  end.

(** The frontier of a list of leaves. *)
Definition frontier_of (leaves : list Hash) (f : HistoryFrontier) : Prop :=
  fcount f = len leaves /\ peaks f = reference_peaks leaves HISTORY_DEPTH 0.

(** The siblings of the leaf at [index], [n] levels from [level] on. *)
Definition reference_siblings (leaves : list Hash) (n level : nat) (index : N) : list Hash :=
  map (fun l => subtree (leaves_at leaves) l (N.lxor (N.shiftr index (N.of_nat l)) 1)) (seq level n).

(** The opening of the leaf at [index]. *)
Definition opening_of (leaves : list Hash) (index : N) (p : HistoryPath) : Prop :=
  pindex p = index /\ pcount p = len leaves
  /\ siblings p = reference_siblings leaves HISTORY_DEPTH 0 index.

(** The inputs [verify] hashes, the counted root first, then from the leaf up. *)
Fixpoint verify_preimages (level : nat) (index : N) (siblings : list Hash) (node : Hash) :
    list bytes :=
  match siblings with
  | [] => []
  | sibling :: siblings =>
      let input := if negb (bit_set index level) then node_preimage level node sibling
                   else node_preimage level sibling node in
      input :: verify_preimages (S level) index siblings (blake3_256 input)
  end.

Definition path_preimages (p : HistoryPath) (leaf : Hash) : list bytes :=
  let leaf_hash := history_leaf_hash (Some leaf) in
  root_preimage (pcount p) (verify_loop 0 (pindex p) (siblings p) leaf_hash)
  :: leaf_preimage (Some leaf) :: verify_preimages 0 (pindex p) (siblings p) leaf_hash.

(** The inputs of the reference tree on the way from the leaf at [index] up. *)
Fixpoint spine_preimages (leaf_at : N -> option Hash) (n level : nat) (index : N) : list bytes :=
  match n with
  | O => []
  | S n =>
      let pos := N.shiftr index (N.of_nat (S level)) in
      node_preimage level (subtree leaf_at level (2 * pos)) (subtree leaf_at level (2 * pos + 1))
      :: spine_preimages leaf_at n (S level) index
  end.

Definition tree_preimages (leaves : list Hash) (index : N) : list bytes :=
  root_preimage (len leaves) (subtree (leaves_at leaves) HISTORY_DEPTH 0)
  :: leaf_preimage (leaves_at leaves index) :: spine_preimages (leaves_at leaves) HISTORY_DEPTH 0 index.

End history.

(* ------------------------------------------------------------------ *)
(** ** Bits and positions *)

Lemma shiftr_S c l : N.shiftr c (N.of_nat (S l)) = N.shiftr c (N.of_nat l) / 2.
Proof.
  rewrite Nat2N.inj_succ, <- N.add_1_r, <- N.shiftr_shiftr, (N.shiftr_div_pow2 _ 1). done.
Qed.

Lemma shiftr_0_nat c : N.shiftr c (N.of_nat 0) = c.
Proof. apply N.shiftr_0_r. Qed.

Lemma testbit_mod c l : N.testbit c (N.of_nat l) = (N.shiftr c (N.of_nat l) mod 2 =? 1).
Proof.
  rewrite <- (N.add_0_l (N.of_nat l)), <- N.shiftr_spec', N.add_0_l.
  pose proof (N.bit0_mod (N.shiftr c (N.of_nat l))) as Hb. rewrite <- Hb.
  by destruct (N.testbit _ 0).
Qed.

Lemma bit_set_mod c l : bit_set c l = (N.shiftr c (N.of_nat l) mod 2 =? 1).
Proof. unfold bit_set. change 1 with (N.ones 1) at 1. by rewrite N.land_ones. Qed.

Lemma bit_set_testbit c l : bit_set c l = N.testbit c (N.of_nat l).
Proof. by rewrite bit_set_mod, testbit_mod. Qed.

Lemma lxor_1 q : N.lxor q 1 = if q mod 2 =? 0 then q + 1 else q - 1.
Proof.
  destruct q as [|[p|p|]]; try done.
  - assert (Npos p~1 mod 2 = 1) as -> by lia. done.
  - assert (Npos p~0 mod 2 = 0) as -> by lia. done.
Qed.

Lemma shiftr_bounds c l :
  N.shiftr c (N.of_nat l) * 2 ^ N.of_nat l <= c < (N.shiftr c (N.of_nat l) + 1) * 2 ^ N.of_nat l.
Proof.
  rewrite N.shiftr_div_pow2. pose proof (N.div_mod c (2 ^ N.of_nat l) (N.pow_nonzero 2 _ ltac:(lia))).
  pose proof (N.mod_lt c (2 ^ N.of_nat l) (N.pow_nonzero 2 _ ltac:(lia))). nia.
Qed.

Lemma shiftr_64 c : c <= U64_MAX -> N.shiftr c (N.of_nat HISTORY_DEPTH) = 0.
Proof.
  intros Hc. rewrite N.shiftr_div_pow2. apply N.div_small.
  change (2 ^ N.of_nat HISTORY_DEPTH) with (U64_MAX + 1). lia.
Qed.

Lemma changed_level_lt a c : a <= U64_MAX -> c <= U64_MAX -> a <> c ->
  (N.to_nat (N.log2 (N.lxor a c)) < HISTORY_DEPTH)%nat.
Proof.
  intros Ha Hc Hne.
  assert (N.log2 (N.lxor a c) < 64); [|unfold HISTORY_DEPTH; lia].
  apply N.log2_lt_pow2.
  - destruct (N.eq_0_gt_0_cases (N.lxor a c)) as [Hz%N.lxor_eq|]; done.
  - assert (N.shiftr (N.lxor a c) 64 = 0) as Hz.
    { change 64 with (N.of_nat HISTORY_DEPTH). by rewrite N.shiftr_lxor, !shiftr_64 by done. }
    rewrite N.shiftr_div_pow2 in Hz. apply N.div_small_iff in Hz; [done|]. by apply N.pow_nonzero.
Qed.

(** The nodes below [pos] at height [level] are the indices that shift to it. *)
Lemma below_iff i l pos :
  N.shiftr i (N.of_nat l) = pos <-> pos * 2 ^ N.of_nat l <= i < (pos + 1) * 2 ^ N.of_nat l.
Proof.
  split; [intros <-; apply shiftr_bounds|]. intros Hi. rewrite N.shiftr_div_pow2.
  symmetry. apply (N.div_unique _ _ _ (i - pos * 2 ^ N.of_nat l)); nia.
Qed.

Lemma even_half q : q mod 2 = 0 -> 2 * (q / 2) = q.
Proof. lia. Qed.

Lemma odd_half q : q mod 2 = 1 -> 2 * (q / 2) = q - 1 /\ 2 * (q / 2) + 1 = q.
Proof. lia. Qed.

(** A count whose [t] low bits are ones is one less than a multiple of [2^t]. *)
Lemma ones_low c t :
  (forall i, (i < t)%nat -> N.testbit c (N.of_nat i) = true) ->
  c + 1 = (N.shiftr c (N.of_nat t) + 1) * 2 ^ N.of_nat t.
Proof.
  induction t as [|t IH]; intros Hbits; [rewrite shiftr_0_nat; simpl; lia|].
  rewrite IH by (intros; apply Hbits; lia). specialize (Hbits t ltac:(lia)).
  rewrite testbit_mod in Hbits. apply N.eqb_eq in Hbits.
  rewrite shiftr_S, Nat2N.inj_succ, N.pow_succ_r'.
  assert (N.shiftr c (N.of_nat t) + 1 = 2 * (N.shiftr c (N.of_nat t) / 2 + 1)) as -> by lia. lia.
Qed.

Lemma trailing_ones_loop_bits fuel n i :
  (i < trailing_ones_loop fuel n)%nat -> N.testbit n (N.of_nat i) = true.
Proof.
  revert n i; induction fuel as [|fuel IH]; intros n i Hi; simpl in Hi; [lia|].
  destruct (N.odd n) eqn:Hodd; [|lia]. destruct i as [|i]; [by rewrite <- N.bit0_odd in Hodd|].
  rewrite Nat2N.inj_succ, <- N.div2_bits. apply IH. lia.
Qed.

Lemma trailing_ones_loop_le fuel n : (trailing_ones_loop fuel n <= fuel)%nat.
Proof.
  revert n; induction fuel as [|fuel IH]; intros n; simpl; [lia|].
  destruct (N.odd n); [|lia]. specialize (IH (n / 2)). lia.
Qed.

Lemma trailing_ones_loop_end fuel n :
  (trailing_ones_loop fuel n < fuel)%nat ->
  N.testbit n (N.of_nat (trailing_ones_loop fuel n)) = false.
Proof.
  revert n; induction fuel as [|fuel IH]; intros n Hlt; simpl in *; [lia|].
  destruct (N.odd n) eqn:Hodd; [|by rewrite <- N.bit0_odd in Hodd].
  rewrite Nat2N.inj_succ, <- N.div2_bits. apply IH. lia.
Qed.

(** What incrementing does to the bits: ones below [t] clear, bit [t] is set,
    the rest stays. *)
Lemma increment_spec c :
  c < U64_MAX ->
  let t := trailing_ones c in
  (t < HISTORY_DEPTH)%nat
  /\ (forall i, (i < t)%nat -> N.testbit c (N.of_nat i) = true)
  /\ N.testbit c (N.of_nat t) = false
  /\ (forall i, (i < t)%nat -> N.testbit (c + 1) (N.of_nat i) = false)
  /\ N.shiftr (c + 1) (N.of_nat t) = N.shiftr c (N.of_nat t) + 1
  /\ (forall k, N.shiftr (c + 1) (N.of_nat (S t + k)) = N.shiftr c (N.of_nat (S t + k))).
Proof.
  intros Hc t. pose proof (trailing_ones_loop_bits 64 c) as Hbits. fold (trailing_ones c) t in Hbits.
  pose proof (ones_low c t Hbits) as Hlow.
  assert (t < HISTORY_DEPTH)%nat as Ht.
  { pose proof (trailing_ones_loop_le 64 c) as Hle. fold (trailing_ones c) t in Hle.
    destruct (decide (t = 64%nat)) as [H64|]; [|unfold HISTORY_DEPTH; lia].
    rewrite H64 in Hlow. change (2 ^ N.of_nat 64) with (U64_MAX + 1) in Hlow. nia. }
  assert (N.testbit c (N.of_nat t) = false) as Hend by (apply trailing_ones_loop_end; apply Ht).
  assert (N.shiftr (c + 1) (N.of_nat t) = N.shiftr c (N.of_nat t) + 1) as Hshift.
  { rewrite Hlow. rewrite (N.shiftr_div_pow2 (_ * _)).
    apply N.div_mul, N.pow_nonzero; lia. }
  repeat split; try done.
  - intros i Hi. rewrite Hlow, N.mul_pow2_bits_low by lia. done.
  - rewrite testbit_mod in Hend. apply N.eqb_neq in Hend.
    induction k as [|k IH]; [rewrite Nat.add_0_r, !shiftr_S, Hshift; lia|].
    rewrite Nat.add_succ_r, !(shiftr_S _ (S t + k)), IH. done.
Qed.

Section tree_facts.
Context `{Blake3}.

Lemma subtree_ext (f g : N -> option Hash) level pos :
  (forall i, N.shiftr i (N.of_nat level) = pos -> f i = g i) ->
  subtree f level pos = subtree g level pos.
Proof.
  revert pos; induction level as [|level IH]; intros pos Heq; simpl.
  - by rewrite Heq by apply shiftr_0_nat.
  - rewrite (IH (2 * pos)), (IH (2 * pos + 1)); [done| |];
      intros i Hi; apply Heq; rewrite shiftr_S, Hi; lia.
Qed.

Lemma subtree_empty f level pos :
  (forall i, N.shiftr i (N.of_nat level) = pos -> f i = None) ->
  subtree f level pos = empty_history_hash level.
Proof.
  revert pos; induction level as [|level IH]; intros pos Heq; simpl.
  - by rewrite Heq by apply shiftr_0_nat.
  - rewrite (IH (2 * pos)), (IH (2 * pos + 1)); [done| |];
      intros i Hi; apply Heq; rewrite shiftr_S, Hi; lia.
Qed.

Lemma leaves_at_ge leaves i : len leaves <= i -> leaves_at leaves i = None.
Proof. intros Hi. apply lookup_ge_None_2. unfold len in Hi. lia. Qed.

Lemma leaves_at_app leaves leaf i :
  i <> len leaves -> leaves_at (leaves ++ [leaf]) i = leaves_at leaves i.
Proof.
  intros Hi. unfold leaves_at, len in *.
  destruct (decide (N.to_nat i < length leaves)%nat); [by rewrite lookup_app_l|].
  rewrite !lookup_ge_None_2; [done|lia|rewrite length_app; simpl; lia].
Qed.

Lemma leaves_at_last leaves leaf : leaves_at (leaves ++ [leaf]) (len leaves) = Some leaf.
Proof. unfold leaves_at, len. rewrite Nat2N.id. by apply list_lookup_middle. Qed.

Lemma shiftr_mono a b l : a <= b -> N.shiftr a (N.of_nat l) <= N.shiftr b (N.of_nat l).
Proof. intros. rewrite !N.shiftr_div_pow2. by apply N.Div0.div_le_mono. Qed.

(** Nodes right of the boundary are empty subtrees. *)
Lemma subtree_right leaves level pos :
  N.shiftr (len leaves) (N.of_nat level) < pos ->
  subtree (leaves_at leaves) level pos = empty_history_hash level.
Proof.
  intros Hpos. apply subtree_empty. intros i Hi. apply leaves_at_ge.
  destruct (decide (len leaves <= i)); [done|].
  pose proof (shiftr_mono i (len leaves) level ltac:(lia)). lia.
Qed.

(** An append changes only the nodes above the appended leaf. *)
Lemma subtree_append leaves leaf level pos :
  pos <> N.shiftr (len leaves) (N.of_nat level) ->
  subtree (leaves_at (leaves ++ [leaf])) level pos = subtree (leaves_at leaves) level pos.
Proof. intros Hpos. apply subtree_ext. intros i Hi. apply leaves_at_app. by intros ->. Qed.

Lemma root_loop_spec leaves n level :
  root_loop n level (len leaves)
    (subtree (leaves_at leaves) level (N.shiftr (len leaves) (N.of_nat level)))
    (reference_peaks leaves n level)
  = Some (subtree (leaves_at leaves) (n + level) (N.shiftr (len leaves) (N.of_nat (n + level)))).
Proof.
  revert level; induction n as [|n IH]; intros level; [done|].
  cbn [root_loop reference_peaks]. rewrite bit_set_testbit, testbit_mod.
  pose proof (shiftr_S (len leaves) level) as HS. set (q := N.shiftr _ (N.of_nat level)) in *.
  replace (S n + level)%nat with (n + S level)%nat by lia. rewrite <- IH. clear IH.
  destruct (N.eqb_spec (q mod 2) 1) as [Hodd|Hodd]; cbn [subtree]; rewrite HS.
  - destruct (odd_half q Hodd) as [-> ->]. done.
  - rewrite even_half by lia. by rewrite (subtree_right leaves level (q + 1)) by (fold q; lia).
Qed.

Lemma filter_range_seq (c : N) (k n : nat) :
  length (filter (fun i => N.testbit c i = true) (map N.of_nat (seq k n)))
  = length (filter (fun i => N.testbit c (N.of_nat i) = true) (seq k n)).
Proof.
  revert k; induction n as [|n IH]; intros k; [done|]. cbn [seq map]. rewrite !filter_cons.
  destruct (decide _); cbn [length]; by rewrite IH.
Qed.

Lemma length_reference_peaks leaves n level :
  length (reference_peaks leaves n level)
  = length (filter (fun i => N.testbit (len leaves) (N.of_nat i) = true) (seq level n)).
Proof.
  revert level; induction n as [|n IH]; intros level; [done|]. cbn [reference_peaks seq].
  rewrite filter_cons. destruct (N.testbit _ _) eqn:Hb.
  - rewrite decide_True by done. cbn [length]. by rewrite IH.
  - rewrite decide_False by done. apply IH.
Qed.

Lemma frontier_shape leaves f :
  frontier_of leaves f -> negb (length (peaks f) =? count_ones (fcount f))%nat = false.
Proof.
  intros [-> ->]. apply negb_false_iff, Nat.eqb_eq.
  rewrite length_reference_peaks. unfold count_ones, range. by rewrite filter_range_seq.
Qed.

Lemma frontier_root_spec leaves f :
  len leaves <= U64_MAX -> frontier_of leaves f -> frontier_root f = Some (reference_root leaves).
Proof.
  intros Hlen Hf. unfold frontier_root. rewrite (frontier_shape _ _ Hf). destruct Hf as [Hc Hp].
  rewrite Hc, Hp. unfold reference_root.
  assert (empty_history_hash 0
    = subtree (leaves_at leaves) 0 (N.shiftr (len leaves) (N.of_nat 0))) as ->.
  { simpl. by rewrite shiftr_0_nat, leaves_at_ge by lia. }
  rewrite root_loop_spec, Nat.add_0_r, shiftr_64 by done. done.
Qed.

End tree_facts.

(* ------------------------------------------------------------------ *)
(** ** Appending *)

Section append_facts.
Context `{Blake3}.

Lemma reference_peaks_ones leaves m n level :
  (forall i, (i < m)%nat -> N.testbit (len leaves) (N.of_nat (level + i)) = true) ->
  reference_peaks leaves (m + n) level
  = map (fun l => subtree (leaves_at leaves) l (N.shiftr (len leaves) (N.of_nat l) - 1)) (seq level m)
    ++ reference_peaks leaves n (level + m).
Proof.
  revert level; induction m as [|m IH]; intros level Hbits; [by rewrite Nat.add_0_r|].
  cbn [Nat.add reference_peaks seq map app].
  pose proof (Hbits 0%nat ltac:(lia)) as H0. rewrite Nat.add_0_r in H0. rewrite H0. f_equal.
  rewrite IH; [by rewrite Nat.add_succ_r|].
  intros i Hi. rewrite Nat.add_succ_comm. apply Hbits. lia.
Qed.

Lemma reference_peaks_zeros leaves m n level :
  (forall i, (i < m)%nat -> N.testbit (len leaves) (N.of_nat (level + i)) = false) ->
  reference_peaks leaves (m + n) level = reference_peaks leaves n (level + m).
Proof.
  revert level; induction m as [|m IH]; intros level Hbits; [by rewrite Nat.add_0_r|].
  cbn [Nat.add reference_peaks].
  pose proof (Hbits 0%nat ltac:(lia)) as H0. rewrite Nat.add_0_r in H0. rewrite H0.
  rewrite IH; [by rewrite Nat.add_succ_r|].
  intros i Hi. rewrite Nat.add_succ_comm. apply Hbits. lia.
Qed.

Lemma append_loop_spec leaves leaf m level :
  (forall i, (i < m)%nat -> N.testbit (len leaves) (N.of_nat (level + i)) = true) ->
  append_loop level
    (map (fun l => subtree (leaves_at leaves) l (N.shiftr (len leaves) (N.of_nat l) - 1)) (seq level m))
    (subtree (leaves_at (leaves ++ [leaf])) level (N.shiftr (len leaves) (N.of_nat level)))
  = subtree (leaves_at (leaves ++ [leaf])) (level + m) (N.shiftr (len leaves) (N.of_nat (level + m))).
Proof.
  revert level; induction m as [|m IH]; intros level Hbits; [by rewrite Nat.add_0_r|].
  cbn [seq map append_loop]. pose proof (Hbits 0%nat ltac:(lia)) as H0.
  rewrite Nat.add_0_r, testbit_mod in H0. apply N.eqb_eq in H0.
  rewrite Nat.add_succ_r, <- Nat.add_succ_l, <- IH
    by (intros i Hi; rewrite Nat.add_succ_comm; apply Hbits; lia).
  f_equal. cbn [subtree]. rewrite shiftr_S. destruct (odd_half _ H0) as [-> ->].
  rewrite (subtree_append leaves leaf level (_ - 1)) by lia. done.
Qed.

(** Above the incremented bit the peaks of the extended list are the old ones. *)
Lemma reference_peaks_above leaves leaf n level :
  (forall k, N.shiftr (len leaves + 1) (N.of_nat (level + k))
             = N.shiftr (len leaves) (N.of_nat (level + k))) ->
  reference_peaks (leaves ++ [leaf]) n level = reference_peaks leaves n level.
Proof.
  revert level; induction n as [|n IH]; intros level Heq; [done|]. cbn [reference_peaks].
  rewrite len_snoc. rewrite !testbit_mod.
  pose proof (Heq 0%nat) as H0. rewrite Nat.add_0_r in H0. rewrite H0.
  rewrite (IH (S level)) by (intros k; rewrite Nat.add_succ_comm; apply Heq).
  destruct (N.eqb_spec (N.shiftr (len leaves) (N.of_nat level) mod 2) 1) as [Hodd|]; [|done].
  f_equal. apply subtree_append. lia.
Qed.

Lemma append_spec leaves f leaf :
  len leaves < U64_MAX -> frontier_of leaves f ->
  exists f', append f leaf = Some (f', reference_root (leaves ++ [leaf]))
    /\ frontier_of (leaves ++ [leaf]) f'.
Proof.
  intros Hlen Hf. pose proof (frontier_shape _ _ Hf) as Hshape. destruct Hf as [Hc Hp].
  destruct (increment_spec _ Hlen) as (Ht & Hones & Hzero & Hclear & Hat & Habove).
  set (t := trailing_ones (len leaves)) in *.
  unfold append. rewrite Hshape, Hc. rewrite (proj2 (checked_add_Some _ _ _ (len leaves + 1))) by (split; [done|lia]).
  cbn [mbind option_bind]. fold t.
  set (f' := {| fcount := _; peaks := _ |}).
  assert (frontier_of (leaves ++ [leaf]) f') as Hf'.
  { split; [unfold f'; simpl; by rewrite len_snoc|]. unfold f'. cbn [peaks]. rewrite Hp.
    replace HISTORY_DEPTH with (t + S (HISTORY_DEPTH - t - 1))%nat by lia.
    rewrite (reference_peaks_ones leaves) by done.
    rewrite (reference_peaks_zeros (leaves ++ [leaf]))
      by (intros; rewrite len_snoc; by apply Hclear).
    rewrite take_app_le, take_ge, drop_app_le, drop_ge by (rewrite length_map, length_seq; lia).
    rewrite Nat.add_0_l, app_nil_l. cbn [reference_peaks]. rewrite Hzero.
    rewrite len_snoc. rewrite testbit_mod, Hat.
    rewrite testbit_mod in Hzero. apply N.eqb_neq in Hzero.
    assert ((N.shiftr (len leaves) (N.of_nat t) + 1) mod 2 = 1) as -> by lia.
    rewrite N.eqb_refl, N.add_sub, reference_peaks_above by done. f_equal.
    etrans; [|exact (append_loop_spec leaves leaf t 0 Hones)]. f_equal.
    cbn [subtree]. by rewrite shiftr_0_nat, leaves_at_last. }
  exists f'. rewrite (frontier_root_spec (leaves ++ [leaf]) f') by (done || rewrite len_snoc; lia).
  done.
Qed.

Lemma frontier_of_empty : frontier_of [] HistoryFrontier_empty.
Proof. split; reflexivity. Qed.

Lemma from_leaves_loop_spec done_ leaves f :
  len (done_ ++ leaves) <= U64_MAX -> frontier_of done_ f ->
  exists f', from_leaves_loop f leaves = Some f' /\ frontier_of (done_ ++ leaves) f'.
Proof.
  revert done_ f; induction leaves as [|leaf leaves IH]; intros done_ f Hlen Hf.
  { exists f. by rewrite app_nil_r. }
  destruct (append_spec done_ f leaf) as (f1 & Happ & Hf1); [|done|].
  { rewrite len_app, len_cons in Hlen. lia. }
  simpl. rewrite Happ. simpl. rewrite (cons_middle leaf done_ leaves), app_assoc in *.
  by apply IH.
Qed.

Lemma from_leaves_spec leaves :
  len leaves <= U64_MAX -> exists f, from_leaves leaves = Some f /\ frontier_of leaves f.
Proof. intros Hlen. apply (from_leaves_loop_spec [] leaves); [done|apply frontier_of_empty]. Qed.

End append_facts.

(* ------------------------------------------------------------------ *)
(** ** Openings *)

(** The depth stays folded: unfolding a tree of height 64 is exponential. *)
#[local] Opaque HISTORY_DEPTH.

Section path_facts.
Context `{Blake3}.

(** Folding the reference siblings into a node gives its ancestor. *)
Lemma verify_loop_spec leaves index n level :
  verify_loop level index (reference_siblings leaves n level index)
    (subtree (leaves_at leaves) level (N.shiftr index (N.of_nat level)))
  = subtree (leaves_at leaves) (level + n) (N.shiftr index (N.of_nat (level + n))).
Proof.
  revert level; induction n as [|n IH]; intros level; [by rewrite Nat.add_0_r|].
  cbn [reference_siblings seq map verify_loop].
  rewrite Nat.add_succ_r, <- Nat.add_succ_l, <- IH. unfold reference_siblings. f_equal.
  rewrite bit_set_mod, lxor_1. cbn [subtree]. rewrite shiftr_S.
  set (q := N.shiftr index (N.of_nat level)).
  destruct (N.eqb_spec (q mod 2) 1) as [Hodd|Hodd]; simpl negb; cbn [negb].
  - destruct (odd_half q Hodd) as [-> ->]. by rewrite Hodd.
  - assert (q mod 2 = 0) as Heven by lia. rewrite Heven, even_half by done. done.
Qed.

Lemma length_reference_siblings leaves n level index :
  length (reference_siblings leaves n level index) = n.
Proof. unfold reference_siblings. by rewrite length_map, length_seq. Qed.

Lemma leaf_is_subtree leaves index leaf :
  leaves_at leaves index = Some leaf ->
  history_leaf_hash (Some leaf)
  = subtree (leaves_at leaves) 0 (N.shiftr index (N.of_nat 0)).
Proof. intros Hleaf. rewrite shiftr_0_nat. simpl. by rewrite Hleaf. Qed.

Lemma opening_verifies leaves index leaf p :
  len leaves <= U64_MAX -> leaves_at leaves index = Some leaf -> opening_of leaves index p ->
  path_verify p leaf (reference_root leaves) = true.
Proof.
  intros Hlen Hleaf (Hi & Hc & Hs).
  assert (index < len leaves) as Hlt
    by (apply lookup_lt_Some in Hleaf; unfold len; lia).
  unfold path_verify. rewrite Hi, Hc, Hs, length_reference_siblings.
  apply N.leb_gt in Hlt as Hleb. rewrite Hleb. cbn [orb negb]. rewrite Nat.eqb_refl. cbn [negb].
  apply bool_decide_eq_true_2. unfold reference_root. f_equal.
  rewrite (leaf_is_subtree leaves index leaf Hleaf), verify_loop_spec, Nat.add_0_l.
  by rewrite shiftr_64 by lia.
Qed.

Lemma append_path_loop_spec leaves leaf n level :
  append_path_loop n level (len leaves) (reference_peaks leaves n level)
  = Some (reference_siblings (leaves ++ [leaf]) n level (len leaves)).
Proof.
  revert level; induction n as [|n IH]; intros level; [done|].
  cbn [append_path_loop reference_peaks reference_siblings seq map].
  rewrite bit_set_testbit, testbit_mod, lxor_1.
  set (q := N.shiftr (len leaves) (N.of_nat level)).
  assert (N.shiftr (len (leaves ++ [leaf])) (N.of_nat level) <= q + 1) as Hq.
  { pose proof (shiftr_bounds (len leaves) level) as Hb. fold q in Hb. rewrite len_snoc.
    rewrite N.shiftr_div_pow2. apply N.lt_succ_r. apply N.Div0.div_lt_upper_bound. nia. }
  destruct (N.eqb_spec (q mod 2) 1) as [Hodd|Hodd]; cbn [mbind option_bind]; rewrite IH;
    cbn [mbind option_bind]; unfold reference_siblings; do 2 f_equal.
  - rewrite Hodd. cbn. rewrite subtree_append by (fold q; lia). done.
  - assert (q mod 2 = 0) as -> by lia. cbn [N.eqb]. rewrite subtree_append by (fold q; lia).
    rewrite subtree_right by (fold q; lia). done.
Qed.

Lemma append_path_spec leaves f leaf :
  len leaves < U64_MAX -> frontier_of leaves f ->
  exists p, append_path f leaf = Some p /\ opening_of (leaves ++ [leaf]) (len leaves) p.
Proof.
  intros Hlen Hf. pose proof (frontier_shape _ _ Hf) as Hshape.
  destruct (append_spec leaves f leaf Hlen Hf) as (f' & Happ & _). destruct Hf as [Hc Hp].
  exists {| pindex := len leaves; pcount := len leaves + 1;
            siblings := reference_siblings (leaves ++ [leaf]) HISTORY_DEPTH 0 (len leaves) |}.
  match goal with |- _ /\ ?Q => assert Q as Hop end.
  { split; [reflexivity|split; [symmetry; apply len_snoc|reflexivity]]. }
  split; [|exact Hop]. unfold append_path. rewrite Hshape, Hc, Hp.
  apply bind_Some. exists (len leaves + 1).
  split; [apply checked_add_Some; split; [done|lia]|].
  apply bind_Some. eexists. split; [apply (append_path_loop_spec leaves leaf)|].
  apply bind_Some. eexists. split; [exact Happ|]. cbv beta iota.
  rewrite (opening_verifies (leaves ++ [leaf]) (len leaves) leaf); [reflexivity| |apply leaves_at_last|exact Hop].
  rewrite len_snoc. lia.
Qed.

(** The level the node list of [build] stands for. *)
Definition row_of (leaves : list Hash) (level : nat) (nodes : list Hash) : Prop :=
  forall pos, default (empty_history_hash level) (nodes !! N.to_nat pos)
              = subtree (leaves_at leaves) level pos.

Lemma lookup_history_pair_up level nodes i :
  default (empty_history_hash (S level)) (history_pair_up level nodes !! i)
  = history_node_hash level (default (empty_history_hash level) (nodes !! (2 * i)%nat))
      (default (empty_history_hash level) (nodes !! (2 * i + 1)%nat)).
Proof.
  revert i; induction nodes as [|x|x y nodes IH] using list_pair_ind; intros i.
  - done.
  - destruct i as [|i]; [done|]. replace (2 * S i)%nat with (S (S (2 * i))) by lia. done.
  - destruct i as [|i]; [done|]. replace (2 * S i)%nat with (S (S (2 * i))) by lia. apply IH.
Qed.

Lemma row_of_pair_up leaves level nodes :
  row_of leaves level nodes -> row_of leaves (S level) (history_pair_up level nodes).
Proof.
  intros Hrow pos. rewrite lookup_history_pair_up. cbn [subtree]. rewrite <- !Hrow.
  repeat f_equal; lia.
Qed.

Lemma build_loop_spec leaves index n level nodes :
  row_of leaves level nodes ->
  build_loop n level nodes (N.shiftr index (N.of_nat level))
  = reference_siblings leaves n level index.
Proof.
  revert level nodes; induction n as [|n IH]; intros level nodes Hrow; [done|].
  cbn [build_loop reference_siblings seq map]. rewrite Hrow, <- shiftr_S.
  rewrite IH by (by apply row_of_pair_up). done.
Qed.

Lemma row_of_leaves leaves :
  row_of leaves 0 (map (fun leaf => history_leaf_hash (Some leaf)) leaves).
Proof.
  intros pos. cbn [subtree empty_history_hash]. unfold leaves_at.
  rewrite list_lookup_fmap. by destruct (leaves !! N.to_nat pos).
Qed.

Lemma path_build_spec leaves index :
  (index < length leaves)%nat -> len leaves <= U64_MAX ->
  exists p, path_build leaves index = Some p /\ opening_of leaves (N.of_nat index) p.
Proof.
  intros Hi Hlen. unfold path_build. apply Nat.leb_gt in Hi as Hleb. rewrite Hleb.
  unfold try_from. apply N.leb_le in Hlen as Hleb2. rewrite Hleb2. cbn [mbind option_bind].
  assert (N.of_nat index <= U64_MAX) as Hidx%N.leb_le by (unfold len in Hlen; lia).
  rewrite Hidx. cbn [mbind option_bind]. eexists. split; [done|].
  split; [done|]. split; [done|]. cbn [siblings].
  rewrite <- (build_loop_spec leaves (N.of_nat index) HISTORY_DEPTH 0
    (map (fun leaf => history_leaf_hash (Some leaf)) leaves)) by apply row_of_leaves.
  by rewrite shiftr_0_nat.
Qed.

End path_facts.

(* ------------------------------------------------------------------ *)
(** ** Advancing an opening over an append *)

Lemma shiftr_one x k : 0 < x -> N.shiftr x k = 1 <-> k = N.log2 x.
Proof.
  intros Hx. rewrite N.shiftr_div_pow2. pose proof (N.log2_spec x Hx) as Hlog.
  pose proof (N.pow_nonzero 2 k ltac:(lia)) as Hk. split.
  - intros Hdiv. symmetry. apply N.log2_unique; [lia|].
    pose proof (N.div_mod x (2 ^ k) Hk). pose proof (N.mod_lt x (2 ^ k) Hk).
    rewrite N.pow_succ_r'. lia.
  - intros ->. symmetry. apply (N.div_unique _ _ _ (x - 2 ^ N.log2 x));
      rewrite N.pow_succ_r' in Hlog; lia.
Qed.

(** The one level at which the sibling of [a] is an ancestor of [c]. *)
Lemma sibling_is_ancestor a c k :
  a <> c -> N.lxor (N.shiftr a k) 1 = N.shiftr c k <-> k = N.log2 (N.lxor a c).
Proof.
  intros Hne. rewrite <- (shiftr_one (N.lxor a c)).
  - rewrite N.shiftr_lxor. split; intros Heq.
    + by rewrite <- Heq, <- N.lxor_assoc, N.lxor_nilpotent, N.lxor_0_l.
    + by rewrite <- Heq, <- N.lxor_assoc, N.lxor_nilpotent, N.lxor_0_l.
  - destruct (N.eq_0_gt_0_cases (N.lxor a c)) as [Hz%N.lxor_eq|]; done.
Qed.

Section advance_facts.
Context `{Blake3}.

Lemma advance_loop_verify level count others sibling :
  advance_loop level count others sibling = verify_loop level count others sibling.
Proof. revert level sibling; induction others as [|o others IH]; intros; simpl; [done|apply IH]. Qed.

Lemma take_reference_siblings leaves n k level index :
  (k <= n)%nat ->
  take k (reference_siblings leaves n level index) = reference_siblings leaves k level index.
Proof. intros Hk. unfold reference_siblings. rewrite firstn_map, take_seq, Nat.min_l by done. done. Qed.

Lemma lookup_reference_siblings leaves n index i :
  (i < n)%nat -> reference_siblings leaves n 0 index !! i
  = Some (subtree (leaves_at leaves) i (N.lxor (N.shiftr index (N.of_nat i)) 1)).
Proof.
  intros Hi. unfold reference_siblings. rewrite list_lookup_fmap, lookup_seq_lt by done. done.
Qed.

Lemma advanced_siblings leaves x n index :
  index <> len leaves ->
  let k := N.to_nat (N.log2 (N.lxor index (len leaves))) in
  <[k := subtree (leaves_at (leaves ++ [x])) k (N.shiftr (len leaves) (N.of_nat k))]>
    (reference_siblings leaves n 0 index)
  = reference_siblings (leaves ++ [x]) n 0 index.
Proof.
  intros Hne k. apply list_eq_same_length with n;
    [apply length_reference_siblings|by rewrite length_insert, length_reference_siblings|].
  intros i a b Hi Ha Hb.
  rewrite lookup_reference_siblings in Hb by done. injection Hb as <-.
  pose proof (sibling_is_ancestor index (len leaves) (N.of_nat i) Hne) as Hiff.
  destruct (decide (i = k)) as [->|Hik].
  - rewrite list_lookup_insert_eq in Ha by (by rewrite length_reference_siblings).
    injection Ha as <-. f_equal. symmetry. apply Hiff. unfold k. lia.
  - rewrite list_lookup_insert_ne, lookup_reference_siblings in Ha by done. injection Ha as <-.
    symmetry. apply subtree_append. intros Heq. apply Hiff in Heq. unfold k in Hik. lia.
Qed.

Lemma path_advance_spec leaves f p index leaf x :
  len leaves < U64_MAX -> frontier_of leaves f ->
  leaves_at leaves index = Some leaf -> opening_of leaves index p ->
  exists p', path_advance p leaf f x = Some (p', reference_root (leaves ++ [x]))
    /\ opening_of (leaves ++ [x]) index p'.
Proof.
  intros Hlen Hf Hleaf Hop. pose proof Hop as (Hi & Hc & Hs).
  assert (index < len leaves) as Hlt by (apply lookup_lt_Some in Hleaf; unfold len; lia).
  destruct (append_path_spec leaves f x Hlen Hf) as (ins & Hins & _ & Hinsc & Hinss).
  destruct (append_spec leaves f x Hlen Hf) as (f' & Happ & _).
  pose proof (frontier_root_spec leaves f ltac:(lia) Hf) as Hroot. destruct Hf as [Hfc _].
  pose proof (changed_level_lt index (len leaves) ltac:(lia) ltac:(lia) ltac:(lia)) as Hk.
  exists {| pindex := index; pcount := len (leaves ++ [x]);
            siblings := reference_siblings (leaves ++ [x]) HISTORY_DEPTH 0 index |}.
  match goal with |- _ /\ ?Q => assert Q as Hop' by (split; [|split]; reflexivity) end.
  split; [|exact Hop']. unfold path_advance. rewrite Hc, Hfc, N.eqb_refl.
  apply bind_Some. eexists. split; [exact Hroot|].
  rewrite (opening_verifies leaves index leaf) by (done || lia).
  apply bind_Some. eexists. split; [exact Hins|].
  apply bind_Some. eexists. split; [exact Happ|]. cbv beta iota.
  rewrite Hi, Hs, Hinsc, Hinss, take_reference_siblings, advance_loop_verify by lia.
  rewrite (leaf_is_subtree (leaves ++ [x]) (len leaves) x) by apply leaves_at_last.
  rewrite verify_loop_spec, Nat.add_0_l, advanced_siblings by lia.
  rewrite (opening_verifies (leaves ++ [x]) index leaf); [reflexivity| | |exact Hop'].
  - rewrite len_snoc. lia.
  - rewrite leaves_at_app by lia. done.
Qed.

End advance_facts.

(* ------------------------------------------------------------------ *)
(** ** Soundness of openings *)

Section sound_facts.
Context `{Blake3Laws}.

Lemma length_blake3_256 b : length (blake3_256 b) = 32%nat.
Proof. apply blake3_length. Qed.

Lemma length_subtree leaf_at level pos : length (subtree leaf_at level pos) = 32%nat.
Proof. destruct level; apply length_blake3_256. Qed.

Lemma node_preimage_inj level a b c d :
  length a = length c -> node_preimage level a b = node_preimage level c d -> a = c /\ b = d.
Proof.
  unfold node_preimage. intros Hlen Heq.
  apply app_inj_1 in Heq as [_ Heq]; [|done]. injection Heq as Heq. by apply app_inj_1.
Qed.

Lemma if_distr_hash (b : bool) x y :
  blake3_256 (if b then x else y) = if b then blake3_256 x else blake3_256 y.
Proof. by destruct b. Qed.

Lemma verify_loop_sound leaf_at index n level sibs node :
  length sibs = n -> Forall (fun s => length s = 32%nat) sibs -> length node = 32%nat ->
  verify_loop level index sibs node = subtree leaf_at (n + level) (N.shiftr index (N.of_nat (n + level))) ->
  node = subtree leaf_at level (N.shiftr index (N.of_nat level))
  \/ Collides (verify_preimages level index sibs node) (spine_preimages leaf_at n level index).
Proof.
  revert level sibs node; induction n as [|n IH]; intros level [|s sibs] node Hn Hsibs Hnode Hv;
    try done; [by left|].
  apply Forall_cons in Hsibs as [Hs Hsibs]. cbn [verify_loop verify_preimages spine_preimages] in *.
  unfold history_node_hash in Hv. rewrite <- (if_distr_hash (negb (bit_set index level))) in Hv.
  set (input := if negb (bit_set index level) then node_preimage level node s
                else node_preimage level s node) in *.
  replace (S n + level)%nat with (n + S level)%nat in Hv by lia.
  destruct (IH (S level) sibs (blake3_256 input)) as [Hstep|Hcol];
    [by injection Hn|done|apply length_blake3_256|done| |right; by apply collides_there].
  cbn [subtree] in Hstep. unfold history_node_hash, blake3_256 in Hstep.
  destruct (collides_here _ _ (verify_preimages (S level) index sibs (blake3_256 input))
    (spine_preimages leaf_at n (S level) index) Hstep) as [Heq|Hcol]; [left|by right].
  pose proof (length_subtree leaf_at level) as Hsub. unfold input in Heq.
  rewrite bit_set_mod, shiftr_S in Heq. set (q := N.shiftr index (N.of_nat level)) in *.
  destruct (N.eqb_spec (q mod 2) 1) as [Hodd|Hodd]; cbn [negb] in Heq;
    apply node_preimage_inj in Heq as [-> ->]; try (by rewrite Hsub).
  - by destruct (odd_half q Hodd) as [_ ->].
  - by rewrite even_half by lia.
Qed.

Lemma root_preimage_inj c1 r1 c2 r2 :
  c1 <= U64_MAX -> c2 <= U64_MAX -> root_preimage c1 r1 = root_preimage c2 r2 -> c1 = c2 /\ r1 = r2.
Proof.
  unfold root_preimage. intros H1 H2 Heq. apply app_inj_1 in Heq as [_ Heq]; [|done].
  apply app_inj_1 in Heq as [Hc ->]; [|by rewrite !length_to_le_bytes].
  apply to_le_bytes_inj in Hc; [done|unfold U64_MAX in *; cbn; lia..].
Qed.

Lemma leaf_preimage_inj a b : leaf_preimage a = leaf_preimage b -> a = b.
Proof.
  destruct a, b; unfold leaf_preimage; intros Heq; apply app_inj_1 in Heq as [_ Heq]; try done.
  by injection Heq as ->.
Qed.

Lemma path_verify_sound leaves p leaf :
  len leaves <= U64_MAX -> pcount p <= U64_MAX -> Forall (fun s => length s = 32%nat) (siblings p) ->
  path_verify p leaf (reference_root leaves) = true ->
  (pcount p = len leaves /\ leaves_at leaves (pindex p) = Some leaf)
  \/ Collides (path_preimages p leaf) (tree_preimages leaves (pindex p)).
Proof.
  intros Hlen Hcount Hsibs. unfold path_verify.
  destruct (_ || _) eqn:Hshape; [done|]. apply orb_false_iff in Hshape as [Hidx Hdepth].
  apply N.leb_gt in Hidx. apply negb_false_iff, Nat.eqb_eq in Hdepth.
  intros Hroot%bool_decide_eq_true. unfold reference_root, counted_history_root, blake3_256 in Hroot.
  unfold path_preimages, tree_preimages.
  eapply collides_here in Hroot as [Heq|Hcol]; [|right; exact Hcol].
  apply root_preimage_inj in Heq as [Hc Hnode]; [|done..].
  assert (pindex p <= U64_MAX) as Hpi by lia.
  rewrite <- (shiftr_64 (pindex p) Hpi) in Hnode. rewrite <- (Nat.add_0_r HISTORY_DEPTH) in Hnode at 1 2.
  apply verify_loop_sound in Hnode; [|done|done|apply length_blake3_256].
  destruct Hnode as [Hleaf|Hcol]; [|right; do 2 apply collides_there; exact Hcol].
  rewrite shiftr_0_nat in Hleaf. cbn [subtree] in Hleaf. unfold history_leaf_hash, blake3_256 in Hleaf.
  eapply collides_here in Hleaf as [Heq%leaf_preimage_inj|Hcol]; [by left|].
  right. apply collides_there. exact Hcol.
Qed.

End sound_facts.

(* ------------------------------------------------------------------ *)
(** ** Properties *)

(** C31: the frontier refines the list of leaves: building it by appends
    succeeds for every list whose length fits a [u64], [history_root] is the
    root of the reference tree of depth 64, and one more append succeeds with
    the root of the extended list, until the index space is exhausted. *)
Theorem history_frontier_refines_tree `{Blake3} (leaves : list Hash) :
  len leaves <= U64_MAX ->
  history_root leaves = Some (reference_root leaves)
  /\ exists f, from_leaves leaves = Some f /\ frontier_of leaves f
     /\ forall leaf,
          append f leaf = None /\ len leaves = U64_MAX
          \/ exists f', append f leaf = Some (f', reference_root (leaves ++ [leaf]))
               /\ frontier_of (leaves ++ [leaf]) f'.
Proof.
  intros Hlen. destruct (from_leaves_spec leaves Hlen) as (f & Hf & Hof). split.
  - unfold history_root. rewrite Hf. by apply frontier_root_spec.
  - exists f. split; [done|]. split; [done|]. intros leaf.
    destruct (decide (len leaves = U64_MAX)) as [Hmax|]; [left|right; apply append_spec; [lia|done]].
    split; [|done]. unfold append. destruct Hof as [-> _].
    by rewrite (proj2 (checked_add_None _ _ _)) by lia.
Qed.

Lemma history_frontier_refines_tree_witness :
  exists f, @from_leaves pad32 [ZERO_HASH; ZERO_HASH; ZERO_HASH] = Some f
    /\ fcount f = 3 /\ length (peaks f) = 2%nat.
Proof.
  destruct (@history_frontier_refines_tree pad32 [ZERO_HASH; ZERO_HASH; ZERO_HASH])
    as (_ & f & Hf & [Hc Hp] & _); [by vm_compute|].
  exists f. split; [exact Hf|]. split; [by rewrite Hc|].
  rewrite Hp. rewrite length_reference_peaks. reflexivity.
Defined.

(** C32: openings are complete: an opening built from archived leaves, and the
    opening of a leaf about to be appended, both exist and verify against the
    root of the tree that contains the leaf; the second needs the frontier
    only. *)
Theorem history_openings_complete `{Blake3} (leaves : list Hash) (leaf : Hash) (f : HistoryFrontier) :
  len leaves < U64_MAX -> frontier_of leaves f ->
  (forall i x, leaves !! i = Some x ->
     exists p, path_build leaves i = Some p /\ pindex p = N.of_nat i
       /\ path_verify p x (reference_root leaves) = true)
  /\ exists p, append_path f leaf = Some p /\ pindex p = len leaves
       /\ path_verify p leaf (reference_root (leaves ++ [leaf])) = true.
Proof.
  intros Hlen Hf. split.
  - intros i x Hx. destruct (path_build_spec leaves i) as (p & Hp & Hop);
      [by eapply lookup_lt_Some|lia|].
    exists p. split; [done|]. split; [apply Hop|].
    apply (opening_verifies leaves (N.of_nat i)); [lia| |done]. unfold leaves_at. by rewrite Nat2N.id.
  - destruct (append_path_spec leaves f leaf Hlen Hf) as (p & Hp & Hop).
    exists p. split; [done|]. split; [apply Hop|].
    apply (opening_verifies (leaves ++ [leaf]) (len leaves)); [|apply leaves_at_last|done].
    rewrite len_snoc. lia.
Qed.

Lemma history_openings_complete_witness :
  exists p, @append_path pad32 HistoryFrontier_empty ZERO_HASH = Some p /\ pindex p = 0.
Proof.
  destruct (@history_openings_complete pad32 [] ZERO_HASH HistoryFrontier_empty) as (_ & p & Hp & Hi & _).
  - by vm_compute.
  - apply frontier_of_empty.
  - exists p. split; [exact Hp|exact Hi].
Defined.

(** An opening survives appends without the archived leaves: advancing the
    opening of a leaf over an append succeeds, keeps the index, and yields the
    opening of the same leaf in the extended tree, which verifies against the
    returned root. *)
Theorem history_advance_complete `{Blake3} (leaves : list Hash) (f : HistoryFrontier)
    (p : HistoryPath) (index : N) (leaf x : Hash) :
  len leaves < U64_MAX -> frontier_of leaves f ->
  leaves_at leaves index = Some leaf -> opening_of leaves index p ->
  exists p', path_advance p leaf f x = Some (p', reference_root (leaves ++ [x]))
    /\ opening_of (leaves ++ [x]) index p'
    /\ path_verify p' leaf (reference_root (leaves ++ [x])) = true.
Proof.
  intros Hlen Hf Hleaf Hop.
  destruct (path_advance_spec leaves f p index leaf x) as (p' & Hp' & Hop'); [done..|].
  exists p'. split; [done|]. split; [done|].
  apply (opening_verifies (leaves ++ [x]) index); [rewrite len_snoc; lia| |done].
  rewrite leaves_at_app; [done|]. apply lookup_lt_Some in Hleaf. unfold len. lia.
Qed.

Lemma history_advance_complete_witness :
  exists p p' r, @path_build pad32 [ZERO_HASH] 0 = Some p
    /\ @from_leaves pad32 [ZERO_HASH] <> None
    /\ (forall f, @frontier_of pad32 [ZERO_HASH] f ->
          @path_advance pad32 p ZERO_HASH f ZERO_HASH = Some (p', r)) /\ pcount p' = 2.
Proof.
  destruct (@path_build_spec pad32 [ZERO_HASH] 0) as (p & Hp & Hop); [apply Nat.lt_0_1|by vm_compute|].
  destruct (@from_leaves_spec pad32 [ZERO_HASH]) as (f0 & Hf0 & Hof0); [by vm_compute|].
  destruct (@history_advance_complete pad32 [ZERO_HASH] f0 p 0 ZERO_HASH ZERO_HASH)
    as (p' & Hadv & (_ & Hc & _) & _); [by vm_compute|exact Hof0|reflexivity|exact Hop|].
  exists p, p', (@reference_root pad32 ([ZERO_HASH] ++ [ZERO_HASH])).
  split; [exact Hp|]. split; [by rewrite Hf0|]. split; [|by rewrite Hc].
  intros f Hf. assert (f = f0) as ->; [|exact Hadv].
  destruct f, f0, Hf, Hof0; simpl in *; by subst.
Defined.

(** C33: openings are sound: an opening that verifies against the root of a
    history opens a leaf the history holds at that very index, under the same
    count, or it exhibits a BLAKE3 collision between an input of the
    verification and an input of the tree. *)
Theorem history_opening_sound `{Blake3Laws} (leaves : list Hash) (p : HistoryPath) (leaf : Hash) :
  len leaves <= U64_MAX -> pcount p <= U64_MAX -> Forall (fun s => length s = 32%nat) (siblings p) ->
  path_verify p leaf (reference_root leaves) = true ->
  (pcount p = len leaves /\ leaves_at leaves (pindex p) = Some leaf)
  \/ Collides (path_preimages p leaf) (tree_preimages leaves (pindex p)).
Proof. apply path_verify_sound. Qed.

Lemma history_opening_sound_witness :
  exists p, @path_build pad32 [ZERO_HASH] 0 = Some p
    /\ ((pcount p = 1 /\ leaves_at [ZERO_HASH] (pindex p) = Some ZERO_HASH)
        \/ @Collides pad32 (@path_preimages pad32 p ZERO_HASH)
             (@tree_preimages pad32 [ZERO_HASH] (pindex p))).
Proof.
  destruct (@path_build_spec pad32 [ZERO_HASH] 0) as (p & Hp & Hop); [apply Nat.lt_0_1|by vm_compute|].
  exists p. split; [exact Hp|].
  apply (@history_opening_sound pad32 pad32_laws [ZERO_HASH] p ZERO_HASH); [by vm_compute| | |].
  - destruct Hop as (_ & -> & _). by vm_compute.
  - destruct Hop as (_ & _ & ->). apply Forall_map, Forall_forall.
    intros l _. apply (@length_subtree pad32 pad32_laws).
  - apply (@opening_verifies pad32 [ZERO_HASH] 0); [by vm_compute|reflexivity|exact Hop].
Defined.
