(* ===== verification/Evidence.v ===== *)
(** * crates/consensus-types/src/evidence.rs: offence statements and openings

    Evidence batches commit to their statements with a counted Merkle tree that
    promotes odd nodes.  Borsh encodings are parameters; [commitment] hashes
    them.  The theorems show that openings built for a batch verify, that a
    verified opening or a binding membership names a statement of the batch (or
    exhibits a collision), and what an accepted submission guarantees. *)

From S2P Require Import Prelude External Primitives History.

Definition MAX_EVIDENCE_PROOF_BYTES : N := 2 * 1024 * 1024.
Definition MAX_EVIDENCE_BATCH : nat := 16.

Abbreviation Digest := (list N) (only parsing).

Record EvidenceContext := {
  ctx_chunk_id : N;
  ctx_chunk_hash : Hash;
  end_height : N;
  validators_root : Hash;
  ctx_seed : Hash;
  source_block_guest_vk_digest : Digest;
  source_runtime_code_hash : Hash;
}.

Inductive SanctionKind := Slash | Inactivity.

Record EvidenceStatement := {
  st_chain_id : N;
  st_chain_spec_hash : Hash;
  st_block_guest_vk_digest : Digest;
  context : EvidenceContext;
  offender : Validator;
  kind : SanctionKind;
  offence_id : Hash;
  facts_commitment : Hash;
  reporter : option Hash;
}.

#[export] Instance EvidenceContext_eq_dec : EqDecision EvidenceContext.
Proof. solve_decision. Defined.
#[export] Instance SanctionKind_eq_dec : EqDecision SanctionKind.
Proof. solve_decision. Defined.
#[export] Instance EvidenceStatement_eq_dec : EqDecision EvidenceStatement.
Proof. solve_decision. Defined.

Record MerkleOpening := { oindex : N; ocount : N; osiblings : list Hash }.

Record EvidenceBatch := { fact_guest_vk_digest : Digest; batch_count : N; batch_root : Hash }.

Record EvidenceMembership := { batch : EvidenceBatch; opening : MerkleOpening }.

Record EvidenceArtifact := {
  membership : EvidenceMembership;
  art_evidence_guest_vk_digest : Digest;
  art_statement : EvidenceStatement;
  proof_bytes : bytes;
}.

Record EvidenceSubmission := { statement : EvidenceStatement; history : HistoryPath }.

Record EvidenceAnchor := {
  an_fact_guest_vk_digest : Digest;
  an_chain_spec_hash : Hash;
  an_chunk_id : N;
  history_root_ : Hash;
  an_block_guest_vk_digest : Digest;
  evidence_guest_vk_digest : Digest;
  an_unbonding_delay_blocks : N;
  an_chunk_size : N;
}.

Definition EvidenceAnchor_is_well_formed (a : EvidenceAnchor) : bool :=
  (0 <? an_chunk_size a) && (an_chunk_size a <? an_unbonding_delay_blocks a).

(** The domain strings of the counted root and of the statement identity. *)
Definition EVIDENCE_MEMBERSHIP_TAG : bytes :=
  [110; 101; 117; 116; 114; 105; 110; 111; 45; 101; 118; 105; 100; 101; 110; 99; 101; 45;
   109; 101; 109; 98; 101; 114; 115; 104; 105; 112].
Definition EVIDENCE_STATEMENT_TAG : bytes :=
  [110; 101; 117; 116; 114; 105; 110; 111; 45; 101; 118; 105; 100; 101; 110; 99; 101; 45;
   115; 116; 97; 116; 101; 109; 101; 110; 116].

Section evidence.
Context `{Blake3}.

Definition commitment `{Borsh A} (value : A) : Hash := blake3_256 (borsh_to_vec value).

Context `{Borsh (bytes * N * Hash)}.

Definition counted_merkle_root (count : N) (root : Hash) : Hash :=
  commitment (EVIDENCE_MEMBERSHIP_TAG, count, root).

Definition pair_hash (l r : Hash) : Hash := blake3_256 (l ++ r).

(** [nodes.chunks(2).map(..)]. *)
Fixpoint next_row (nodes : list Hash) : list Hash :=
  match nodes with
  | l :: r :: nodes => pair_hash l r :: next_row nodes
  | [l] => [l]
  | [] => []
  end.

(** The [while nodes.len() > 1] loop of [build]; [None] when the fuel runs out. *)
Fixpoint opening_build_loop (fuel : nat) (nodes : list Hash) (position : N) : option (list Hash) :=
  match fuel with
  | O => None
  | S fuel =>
      if (1 <? length nodes)%nat then
        rest ← opening_build_loop fuel (next_row nodes) (position / 2);
        Some match nodes !! N.to_nat (N.lxor position 1) with
             | Some sibling => sibling :: rest
             | None => rest
             end
      else Some []
  end.

Definition opening_build (leaves : list Hash) (index : N) : option MerkleOpening :=
  if len leaves <=? index then None
  else
    siblings ← opening_build_loop (length leaves) leaves index;
    Some {| oindex := index; ocount := len leaves; osiblings := siblings |}.

(** The [while width > 1] loop of [verify]: the folded hash and the siblings
    left over; [None] when a sibling is missing or the fuel runs out. *)
Fixpoint opening_verify_loop (fuel : nat) (position width : N) (hash : Hash)
    (siblings : list Hash) : option (Hash * list Hash) :=
  match fuel with
  | O => None
  | S fuel =>
      if 1 <? width then
        if N.lxor position 1 <? width then
          match siblings with
          | [] => None
          | sibling :: siblings =>
              opening_verify_loop fuel (position / 2) (div_ceil width 2)
                (if position mod 2 =? 0 then pair_hash hash sibling else pair_hash sibling hash)
                siblings
          end
        else opening_verify_loop fuel (position / 2) (div_ceil width 2) hash siblings
      else Some (hash, siblings)
  end.

(** A [u64] width reaches one after at most 64 halvings. *)
Definition VERIFY_FUEL : nat := 65.

Definition opening_verify (o : MerkleOpening) (leaf expected_root : Hash) : bool :=
  if (ocount o <=? oindex o) || (ocount o =? 0) || (64 <? length (osiblings o))%nat then false
  else
    match opening_verify_loop VERIFY_FUEL (oindex o) (ocount o) leaf (osiblings o) with
    | None => false
    | Some (hash, rest) =>
        bool_decide (rest = []) && bool_decide (counted_merkle_root (ocount o) hash = expected_root)
    end.

Context `{Borsh EvidenceStatement} `{Borsh EvidenceContext}.
Context `{Borsh (bytes * Digest * Digest * EvidenceStatement)}.

(** [statements.iter().any(|s| !seen.insert(s.offence_id))]. *)
Fixpoint duplicate_offence (seen : list Hash) (statements : list EvidenceStatement) : bool :=
  match statements with
  | [] => false
  | s :: statements =>
      bool_decide (offence_id s ∈ seen) || duplicate_offence (offence_id s :: seen) statements
  end.

Definition EvidenceBatch_new (statements : list EvidenceStatement) (fact_key : Digest) :
    option EvidenceBatch :=
  if bool_decide (statements = []) || (MAX_EVIDENCE_BATCH <? length statements)%nat then None
  else if duplicate_offence [] statements then None
  else
    count ← try_from U32_MAX (len statements);
    root ← merkle_root_from_hashes (map commitment statements);
    Some {| fact_guest_vk_digest := fact_key; batch_count := count; batch_root := root |}.

Definition EvidenceMembership_build (statements : list EvidenceStatement) (index : N)
    (fact_key : Digest) : option EvidenceMembership :=
  batch ← EvidenceBatch_new statements fact_key;
  opening ← opening_build (map commitment statements) index;
  Some {| batch := batch; opening := opening |}.

Definition EvidenceMembership_binds (m : EvidenceMembership) (s : EvidenceStatement)
    (fact_key : Digest) : bool :=
  bool_decide (fact_guest_vk_digest (batch m) = fact_key)
  && (0 <? batch_count (batch m))
  && (batch_count (batch m) <=? N.of_nat MAX_EVIDENCE_BATCH)
  && (ocount (opening m) =? batch_count (batch m))
  && opening_verify (opening m) (commitment s)
       (counted_merkle_root (ocount (opening m)) (batch_root (batch m))).

Definition statement_id (a : EvidenceArtifact) : Hash :=
  commitment (EVIDENCE_STATEMENT_TAG, art_evidence_guest_vk_digest a,
              fact_guest_vk_digest (batch (membership a)), art_statement a).

Definition EvidenceArtifact_binds (a : EvidenceArtifact) (s : EvidenceStatement)
    (key fact_key : Digest) : bool :=
  EvidenceMembership_binds (membership a) s fact_key
  && bool_decide (art_evidence_guest_vk_digest a = key)
  && bool_decide (art_statement a = s)
  && negb (bool_decide (proof_bytes a = []))
  && (len (proof_bytes a) <=? MAX_EVIDENCE_PROOF_BYTES).

Definition EvidenceSubmission_binds (s : EvidenceSubmission) (chain_id height : N)
    (anchor : EvidenceAnchor) : bool :=
  let st := statement s in
  let source := ctx_chunk_id (context st) in
  let in_window := match kind st with
                   | Slash => source <? an_chunk_id anchor
                   | Inactivity => is_recent_history_index source (an_chunk_id anchor)
                   end in
  (st_chain_id st =? chain_id)
  && bool_decide (st_chain_spec_hash st = an_chain_spec_hash anchor)
  && bool_decide (st_block_guest_vk_digest st = an_block_guest_vk_digest anchor)
  && (pindex (history s) =? source)
  && (pcount (history s) =? an_chunk_id anchor)
  && in_window
  && path_verify (history s) (commitment (context st)) (history_root_ anchor)
  && (end_height (context st) <? height).

Definition within_age (s : EvidenceSubmission) (height max_age_blocks : N) : bool :=
  let end_ := end_height (context (statement s)) in
  match kind (statement s) with
  | Slash => end_ <? height
  | Inactivity => (end_ <? height) && (height - end_ <=? max_age_blocks)
  end.

(** ** The inputs the two sides of an opening hash *)

(** By [verify], level by level. *)
Fixpoint opening_inputs (fuel : nat) (position width : N) (hash : Hash) (siblings : list Hash) :
    list bytes :=
  match fuel with
  | O => []
  | S fuel =>
      if 1 <? width then
        if N.lxor position 1 <? width then
          match siblings with
          | [] => []
          | sibling :: siblings =>
              let input := if position mod 2 =? 0 then hash ++ sibling else sibling ++ hash in
              input :: opening_inputs fuel (position / 2) (div_ceil width 2) (blake3_256 input) siblings
          end
        else opening_inputs fuel (position / 2) (div_ceil width 2) hash siblings
      else []
  end.

(** By the tree over [nodes], on the way up from [position]. *)
Fixpoint row_inputs (fuel : nat) (position : N) (nodes : list Hash) : list bytes :=
  match fuel with
  | O => []
  | S fuel =>
      if 1 <? len nodes then
        if N.lxor position 1 <? len nodes then
          let i := N.to_nat (position / 2) in
          (at_ nodes (i * 2) ++ at_ nodes (i * 2 + 1)) :: row_inputs fuel (position / 2) (next_row nodes)
        else row_inputs fuel (position / 2) (next_row nodes)
      else []
  end.

(** The inputs hashed for a counted opening and for the counted root of [leaves]. *)
Definition opening_preimages (o : MerkleOpening) (leaf : Hash) : list bytes :=
  match opening_verify_loop VERIFY_FUEL (oindex o) (ocount o) leaf (osiblings o) with
  | Some (hash, _) => [borsh_to_vec (EVIDENCE_MEMBERSHIP_TAG, ocount o, hash)]
  | None => []
  end ++ opening_inputs VERIFY_FUEL (oindex o) (ocount o) leaf (osiblings o).

Definition batch_preimages (leaves : list Hash) (root : Hash) (index : N) : list bytes :=
  borsh_to_vec (EVIDENCE_MEMBERSHIP_TAG, len leaves, root) :: row_inputs VERIFY_FUEL index leaves.

(** The same with the statement's encoding in front. *)
Definition membership_preimages (m : EvidenceMembership) (s : EvidenceStatement) : list bytes :=
  borsh_to_vec s :: opening_preimages (opening m) (commitment s).

Definition statements_preimages (statements : list EvidenceStatement) (b : EvidenceBatch)
    (index : N) : list bytes :=
  match statements !! N.to_nat index with Some s => borsh_to_vec s | None => [] end
  :: batch_preimages (map commitment statements) (batch_root b) index.

End evidence.

(** A 32-byte digest. *)
Definition hash_sized (h : Hash) : Prop := length h = 32%nat.


(* ------------------------------------------------------------------ *)
(** ** Rows of the batch tree *)

Section row_facts.
Context `{Blake3}.

Lemma next_row_pair_up nodes : next_row nodes = pair_up nodes.
Proof.
  induction nodes as [|x|x y nodes IH] using list_pair_ind; [done|done|].
  cbn [next_row pair_up]. by rewrite IH.
Qed.

Lemma len_next_row nodes : len (next_row nodes) = div_ceil (len nodes) 2.
Proof.
  rewrite next_row_pair_up. unfold len. by rewrite length_pair_up, <- div_ceil_two, N2Nat.id.
Qed.

(** The two shapes of a step up: the position has a sibling, or it is promoted. *)
Lemma lxor_1_lt position width :
  position < width -> N.lxor position 1 < width -> 2 * (position / 2) + 1 < width.
Proof. rewrite lxor_1. destruct (N.eqb_spec (position mod 2) 0); lia. Qed.

Lemma lxor_1_ge position width :
  position < width -> width <= N.lxor position 1 ->
  position mod 2 = 0 /\ 2 * (position / 2) = position /\ position + 1 = width.
Proof. rewrite lxor_1. destruct (N.eqb_spec (position mod 2) 0); lia. Qed.

Lemma lookup_next_row nodes position :
  position < len nodes -> N.lxor position 1 < len nodes ->
  next_row nodes !! N.to_nat (position / 2)
  = Some (pair_hash (at_ nodes (N.to_nat (position / 2) * 2))
                    (at_ nodes (N.to_nat (position / 2) * 2 + 1))).
Proof.
  intros Hp Hs. pose proof (lxor_1_lt _ _ Hp Hs). rewrite next_row_pair_up.
  apply lookup_pair_up. unfold len in *. lia.
Qed.

Lemma lookup_next_row_promoted nodes position :
  position < len nodes -> len nodes <= N.lxor position 1 ->
  next_row nodes !! N.to_nat (position / 2) = nodes !! N.to_nat position.
Proof.
  intros Hp Hs. destruct (lxor_1_ge _ _ Hp Hs) as (Heven & Hhalf & Hlast).
  rewrite next_row_pair_up.
  assert (length nodes = 2 * N.to_nat (position / 2) + 1)%nat as Hlen by (unfold len in *; lia).
  assert (Nat.odd (length nodes) = true) as Hodd.
  { rewrite Hlen, Nat.add_comm, Nat.odd_add_mul_2. done. }
  pose proof (lookup_pair_up_last nodes Hodd) as Hl.
  replace (length nodes / 2)%nat with (N.to_nat (position / 2)) in Hl.
  - rewrite Hl, last_lookup. f_equal. lia.
  - rewrite Hlen. apply (Nat.div_unique _ 2 _ 1); lia.
Qed.

Lemma at_lookup (nodes : list Hash) i x : nodes !! i = Some x -> at_ nodes i = x.
Proof. unfold at_. by intros ->. Qed.

Lemma lookup_at (nodes : list Hash) i : (i < length nodes)%nat -> nodes !! i = Some (at_ nodes i).
Proof. intros [x Hx]%lookup_lt_is_Some. by rewrite (at_lookup _ _ _ Hx). Qed.

(** The sibling [build] pushes and the combination [verify] makes of it give
    the parent. *)
Lemma parent_of nodes position hash sibling :
  position < len nodes -> N.lxor position 1 < len nodes ->
  nodes !! N.to_nat position = Some hash -> nodes !! N.to_nat (N.lxor position 1) = Some sibling ->
  next_row nodes !! N.to_nat (position / 2)
  = Some (if position mod 2 =? 0 then pair_hash hash sibling else pair_hash sibling hash).
Proof.
  intros Hp Hs Hhash Hsib. rewrite lookup_next_row by done. rewrite lxor_1 in Hsib.
  destruct (N.eqb_spec (position mod 2) 0) as [Heven|Hodd].
  - replace (N.to_nat (position / 2) * 2)%nat with (N.to_nat position) by lia.
    replace (N.to_nat position + 1)%nat with (N.to_nat (position + 1)) by lia.
    by rewrite (at_lookup _ _ _ Hhash), (at_lookup _ _ _ Hsib).
  - replace (N.to_nat (position / 2) * 2)%nat with (N.to_nat (position - 1)) by lia.
    replace (N.to_nat (position - 1) + 1)%nat with (N.to_nat position) by lia.
    by rewrite (at_lookup _ _ _ Hhash), (at_lookup _ _ _ Hsib).
Qed.

Lemma pair_levels_add n m l : pair_levels (n + m) l = pair_levels m (pair_levels n l).
Proof. unfold pair_levels. rewrite Nat.add_comm. apply Nat.iter_add. Qed.

Lemma pair_levels_single n x : pair_levels n [x] = [x].
Proof. unfold pair_levels. induction n as [|n IH]; [done|]. simpl. by rewrite IH. Qed.

Lemma pair_levels_unique n m l a b : pair_levels n l = [a] -> pair_levels m l = [b] -> a = b.
Proof.
  intros Hn Hm. destruct (Nat.le_ge_cases n m) as [Hle|Hle].
  - replace m with (n + (m - n))%nat in Hm by lia.
    rewrite pair_levels_add, Hn, pair_levels_single in Hm. by injection Hm.
  - replace n with (m + (n - m))%nat in Hn by lia.
    rewrite pair_levels_add, Hm, pair_levels_single in Hn. by injection Hn.
Qed.

(** Building an opening and folding it back gives the root, within 64 levels. *)
Lemma opening_complete k fuel nodes position hash :
  len nodes <= 2 ^ N.of_nat k -> (length nodes <= fuel)%nat ->
  nodes !! N.to_nat position = Some hash ->
  exists sibs root n, opening_build_loop fuel nodes position = Some sibs
    /\ pair_levels n nodes = [root] /\ (length sibs <= k)%nat
    /\ opening_verify_loop (S k) position (len nodes) hash sibs = Some (root, []).
Proof.
  revert fuel nodes position hash; induction k as [|k IH]; intros fuel nodes position hash Hk Hfuel Hhash;
    pose proof (lookup_lt_Some _ _ _ Hhash) as Hlt; (destruct fuel as [|fuel]; [lia|]);
    cbn [opening_build_loop opening_verify_loop].
  { assert (length nodes = 1%nat) as Hone by (unfold len in Hk; simpl in Hk; lia).
    destruct nodes as [|x [|? ?]]; try done. replace (N.to_nat position) with 0%nat in Hhash by (simpl in Hlt; lia).
    injection Hhash as ->. by exists [], hash, 0%nat. }
  destruct (Nat.ltb_spec 1 (length nodes)) as [Hmany|Hone].
  - assert (1 < len nodes) as Hmany' by (unfold len; lia). apply N.ltb_lt in Hmany' as ->.
    pose proof (len_next_row nodes) as Hrow.
    assert (position < len nodes) as Hp by (unfold len; lia).
    rewrite Nat2N.inj_succ, N.pow_succ_r' in Hk.
    assert (len (next_row nodes) <= 2 ^ N.of_nat k) as Hk' by (rewrite Hrow; unfold div_ceil; lia).
    assert (length (next_row nodes) <= fuel)%nat as Hfuel'.
    { unfold len, div_ceil in Hrow. lia. }
    destruct (N.ltb_spec (N.lxor position 1) (len nodes)) as [Hs|Hs].
    + assert (is_Some (nodes !! N.to_nat (N.lxor position 1))) as [sib Hsib]
        by (apply lookup_lt_is_Some; unfold len in Hs; lia).
      destruct (IH fuel (next_row nodes) (position / 2) _ Hk' Hfuel' (parent_of _ _ _ _ Hp Hs Hhash Hsib))
        as (sibs & root & n & Hb & Hl & Hlen & Hv).
      exists (sib :: sibs), root, (S n). rewrite Hb. cbn [mbind option_bind]. rewrite Hsib.
      rewrite Hrow in Hv. rewrite pair_levels_S, <- next_row_pair_up. simpl length. split_and!; try done. lia.
    + rewrite <- lookup_next_row_promoted in Hhash by done.
      destruct (IH fuel (next_row nodes) (position / 2) _ Hk' Hfuel' Hhash)
        as (sibs & root & n & Hb & Hl & Hlen & Hv).
      exists sibs, root, (S n). rewrite Hb. cbn [mbind option_bind].
      rewrite lookup_ge_None_2 by (unfold len in Hs; lia).
      rewrite Hrow in Hv. rewrite pair_levels_S, <- next_row_pair_up. split_and!; try done. lia.
  - assert (len nodes <= 1) as Hone' by (unfold len; lia). apply N.ltb_ge in Hone' as ->.
    destruct nodes as [|x [|? ?]]; try done; [|simpl in Hone; lia].
    replace (N.to_nat position) with 0%nat in Hhash by (simpl in Hlt; lia).
    injection Hhash as ->. exists [], hash, 0%nat. split_and!; try done. simpl. lia.
Qed.

Context `{Borsh (bytes * N * Hash)}.

Lemma opening_build_verifies leaves index leaf root :
  len leaves <= U64_MAX -> leaves !! N.to_nat index = Some leaf ->
  merkle_root_from_hashes leaves = Some root ->
  exists o, opening_build leaves index = Some o /\ oindex o = index /\ ocount o = len leaves
    /\ opening_verify o leaf (counted_merkle_root (len leaves) root) = true.
Proof.
  intros Hlen Hleaf Hroot. pose proof (lookup_lt_Some _ _ _ Hleaf) as Hlt.
  assert (len leaves <= 2 ^ N.of_nat 64) as H64
    by (change (2 ^ N.of_nat 64) with (U64_MAX + 1); lia).
  destruct (opening_complete 64 (length leaves) leaves index leaf H64 (le_n _) Hleaf)
    as (sibs & root' & n & Hb & Hl & Hsibs & Hv).
  assert (leaves <> []) as Hne by (by intros ->).
  destruct (merkle_root_reference leaves Hne) as (m & root'' & Hroot' & Hl').
  rewrite Hroot in Hroot'. injection Hroot' as <-. rewrite (pair_levels_unique _ _ _ _ _ Hl Hl') in Hv.
  unfold opening_build. assert (index < len leaves) as Hidx by (unfold len; lia).
  apply N.leb_gt in Hidx as Hleb. rewrite Hleb, Hb.
  eexists. split; [reflexivity|]. split; [done|]. split; [done|].
  unfold opening_verify. cbn [oindex ocount osiblings]. rewrite Hleb.
  assert (len leaves <> 0) as Hz by lia. apply N.eqb_neq in Hz as ->.
  assert ((64 <? length sibs)%nat = false) as -> by (apply Nat.ltb_ge; lia).
  unfold VERIFY_FUEL. rewrite Hv. cbn [orb]. by rewrite !bool_decide_true by done.
Qed.

End row_facts.

(* ------------------------------------------------------------------ *)
(** ** Soundness of openings *)

Section sound_openings.
Context `{Blake3Laws}.

Lemma next_row_sized nodes : Forall hash_sized nodes -> Forall hash_sized (next_row nodes).
Proof.
  induction nodes as [|x|x y nodes IH] using list_pair_ind; intros Hall; [done|done|].
  rewrite !Forall_cons in Hall. destruct_and?. constructor; [apply length_blake3_256|by apply IH].
Qed.

(** One level down: equal parents come from equal children or a collision. *)
Lemma parent_sound nodes position hash sibling xs ys :
  Forall hash_sized nodes -> hash_sized hash -> hash_sized sibling ->
  position < len nodes -> N.lxor position 1 < len nodes ->
  let input := if position mod 2 =? 0 then hash ++ sibling else sibling ++ hash in
  next_row nodes !! N.to_nat (position / 2) = Some (blake3_256 input) ->
  nodes !! N.to_nat position = Some hash
  \/ Collides (input :: xs)
       ((at_ nodes (N.to_nat (position / 2) * 2) ++ at_ nodes (N.to_nat (position / 2) * 2 + 1)) :: ys).
Proof.
  intros Hall Hh Hs Hp Hx input Heq. rewrite lookup_next_row in Heq by done.
  injection Heq as Heq. unfold pair_hash, blake3_256 in Heq. symmetry in Heq.
  eapply collides_here in Heq as [Heq|Hcol]; [left|right; exact Hcol].
  pose proof (lxor_1_lt _ _ Hp Hx) as Hlt.
  pose proof (lookup_at nodes (N.to_nat (position / 2) * 2) ltac:(unfold len in *; lia)) as Hl.
  pose proof (lookup_at nodes (N.to_nat (position / 2) * 2 + 1) ltac:(unfold len in *; lia)) as Hr.
  pose proof (Forall_lookup_1 _ _ _ _ Hall Hl) as Hl32.
  unfold input in Heq. destruct (N.eqb_spec (position mod 2) 0) as [Heven|Hodd];
    apply app_inj_1 in Heq as [-> ->]; try (unfold hash_sized in *; congruence).
  - replace (N.to_nat position) with (N.to_nat (position / 2) * 2)%nat by lia. done.
  - replace (N.to_nat position) with (N.to_nat (position / 2) * 2 + 1)%nat by lia. done.
Qed.

Lemma opening_sound fuel n nodes position hash sibs root rest :
  Forall hash_sized nodes -> Forall hash_sized sibs -> hash_sized hash ->
  position < len nodes -> pair_levels n nodes = [root] ->
  opening_verify_loop fuel position (len nodes) hash sibs = Some (root, rest) ->
  nodes !! N.to_nat position = Some hash
  \/ Collides (opening_inputs fuel position (len nodes) hash sibs) (row_inputs fuel position nodes).
Proof.
  revert n nodes position hash sibs; induction fuel as [|fuel IH];
    intros n nodes position hash sibs Hall Hsibs Hh Hp Hn Hv; [done|].
  cbn [opening_verify_loop opening_inputs row_inputs] in *.
  destruct (N.ltb_spec 1 (len nodes)) as [Hmany|Hone].
  - destruct n as [|n].
    { unfold pair_levels in Hn. simpl in Hn. subst. unfold len in Hmany. simpl in Hmany. lia. }
    rewrite pair_levels_S, <- next_row_pair_up in Hn.
    pose proof (next_row_sized _ Hall) as Hall'. pose proof (len_next_row nodes) as Hrow.
    assert (position / 2 < len (next_row nodes)) as Hp' by (rewrite Hrow; unfold div_ceil; lia).
    destruct (N.ltb_spec (N.lxor position 1) (len nodes)) as [Hx|Hx].
    + destruct sibs as [|s sibs]; [done|]. apply Forall_cons in Hsibs as [Hs Hsibs].
      unfold pair_hash in Hv. rewrite <- if_distr_hash, <- Hrow in Hv. rewrite <- Hrow.
      apply (IH n) in Hv; [|done..|apply length_blake3_256|done|done].
      destruct Hv as [Hv|Hcol]; [|right; by apply collides_there].
      by apply (parent_sound nodes position hash s).
    + rewrite <- Hrow in Hv. rewrite <- Hrow. apply (IH n) in Hv; [|done..].
      by rewrite lookup_next_row_promoted in Hv.
  - injection Hv as -> ->. left.
    destruct nodes as [|x [|? ?]]; unfold len in *; simpl in *; try lia.
    rewrite pair_levels_single in Hn. injection Hn as ->. by replace (N.to_nat position) with 0%nat by lia.
Qed.

Context `{BorshLaws (bytes * N * Hash)}.

Lemma opening_verify_sound leaves root o leaf :
  Forall hash_sized leaves -> Forall hash_sized (osiblings o) -> hash_sized leaf ->
  merkle_root_from_hashes leaves = Some root ->
  opening_verify o leaf (counted_merkle_root (len leaves) root) = true ->
  (ocount o = len leaves /\ leaves !! N.to_nat (oindex o) = Some leaf)
  \/ Collides (opening_preimages o leaf) (batch_preimages leaves root (oindex o)).
Proof.
  intros Hleaves Hsibs Hleaf Hroot. unfold opening_verify, opening_preimages, batch_preimages.
  destruct (_ || _) eqn:Hshape; [done|].
  rewrite !orb_false_iff in Hshape. destruct Hshape as [[Hidx%N.leb_gt Hz%N.eqb_neq] _].
  destruct (opening_verify_loop _ _ _ _ _) as [[h rest]|] eqn:Hv; [|done].
  intros [_ Hcounted]%andb_true_iff. apply bool_decide_eq_true in Hcounted.
  unfold counted_merkle_root, commitment, blake3_256 in Hcounted.
  eapply collides_here in Hcounted as [Heq|Hcol]; [|right; exact Hcol].
  apply borsh_to_vec_inj in Heq. injection Heq as Hc Hh. rewrite Hc in Hv, Hidx |- *.
  assert (leaves <> []) as Hne by (intros ->; unfold len in *; simpl in *; lia).
  destruct (merkle_root_reference leaves Hne) as (n & root' & Hroot' & Hlevels).
  rewrite Hroot in Hroot'. injection Hroot' as <-. subst h.
  eapply opening_sound in Hv as [Hl|Hcol]; [by left| |done..|exact Hlevels].
  right. by apply collides_there.
Qed.

End sound_openings.

(* ------------------------------------------------------------------ *)
(** ** Batches and memberships *)

Section batch_facts.
Context `{Blake3} `{Borsh EvidenceStatement}.

Lemma duplicate_offence_NoDup seen statements :
  duplicate_offence seen statements = false ->
  NoDup (map offence_id statements) /\ forall s, s ∈ statements -> offence_id s ∉ seen.
Proof.
  revert seen; induction statements as [|s statements IH]; intros seen; cbn [duplicate_offence map].
  { split; [constructor|]. intros s Hs. by apply not_elem_of_nil in Hs. }
  intros [Hfresh%bool_decide_eq_false Hrest]%orb_false_iff. apply IH in Hrest as [Hnd Hout]. split.
  - constructor; [|done]. intros Hin. apply list_elem_of_fmap in Hin as (t & Heq & Ht).
    apply (Hout t Ht). rewrite <- Heq. apply list_elem_of_here.
  - intros t [->|Ht]%elem_of_cons; [done|]. specialize (Hout t Ht). set_solver.
Qed.

Lemma EvidenceBatch_new_Some statements key b :
  EvidenceBatch_new statements key = Some b ->
  statements <> [] /\ (length statements <= MAX_EVIDENCE_BATCH)%nat
  /\ NoDup (map offence_id statements)
  /\ fact_guest_vk_digest b = key /\ batch_count b = len statements
  /\ merkle_root_from_hashes (map commitment statements) = Some (batch_root b).
Proof.
  unfold EvidenceBatch_new. destruct (_ || _) eqn:Hbounds; [done|].
  apply orb_false_iff in Hbounds as [Hne%bool_decide_eq_false Hmax%Nat.ltb_ge].
  destruct (duplicate_offence [] statements) eqn:Hdup; [done|].
  apply duplicate_offence_NoDup in Hdup as [Hnd _]. unfold try_from.
  intros (count & Hcount & Hb)%bind_Some. destruct (_ <=? _); [|done]. injection Hcount as <-.
  apply bind_Some in Hb as (root & Hroot & [= <-]). by split_and!.
Qed.

Lemma len_map {A B} (f : A -> B) l : len (map f l) = len l.
Proof. unfold len. by rewrite length_map. Qed.

End batch_facts.

(* ------------------------------------------------------------------ *)
(** ** A concrete batch for the witnesses *)

#[export] Instance EvidenceContext_codec : Codec EvidenceContext.
Proof.
  refine (via_codec
    (fun c => (ctx_chunk_id c, ctx_chunk_hash c, end_height c, validators_root c, ctx_seed c,
               source_block_guest_vk_digest c, source_runtime_code_hash c))
    (fun '(a, b, c, d, e, f, g) =>
       {| ctx_chunk_id := a; ctx_chunk_hash := b; end_height := c; validators_root := d;
          ctx_seed := e; source_block_guest_vk_digest := f; source_runtime_code_hash := g |}) _).
  by intros [].
Defined.

#[export] Instance SanctionKind_codec : Codec SanctionKind.
Proof.
  refine (via_codec (fun k => match k with Slash => true | Inactivity => false end)
    (fun b : bool => if b then Slash else Inactivity) _). by intros [].
Defined.

#[export] Instance EvidenceStatement_codec : Codec EvidenceStatement.
Proof.
  refine (via_codec
    (fun s => (st_chain_id s, st_chain_spec_hash s, st_block_guest_vk_digest s, context s,
               offender s, kind s, offence_id s, facts_commitment s, reporter s))
    (fun '(a, b, c, d, e, f, g, h, i) =>
       {| st_chain_id := a; st_chain_spec_hash := b; st_block_guest_vk_digest := c; context := d;
          offender := e; kind := f; offence_id := g; facts_commitment := h; reporter := i |}) _).
  by intros [].
Defined.

Definition sample_context : EvidenceContext :=
  {| ctx_chunk_id := 0; ctx_chunk_hash := ZERO_HASH; end_height := 127; validators_root := ZERO_HASH;
     ctx_seed := ZERO_HASH; source_block_guest_vk_digest := []; source_runtime_code_hash := ZERO_HASH |}.

Definition sample_statement (id : N) : EvidenceStatement :=
  {| st_chain_id := 7; st_chain_spec_hash := ZERO_HASH; st_block_guest_vk_digest := [];
     context := sample_context;
     offender := {| pubkey := []; withdrawal_credentials := ZERO_HASH; effective_stake := 1;
                    slashed := false; activation_epoch := 0; exit_epoch := 9; last_active_chunk := 0 |};
     kind := Inactivity; offence_id := [id]; facts_commitment := ZERO_HASH; reporter := None |}.

(* ------------------------------------------------------------------ *)
(** ** Properties *)

(** Every statement of a batch has a membership that binds it: building
    succeeds for each index of the batch, within the opening's 64 siblings, and
    the result passes [binds] for that statement and the batch's fact program. *)
Theorem evidence_membership_complete `{Blake3} `{Borsh (bytes * N * Hash)}
    `{Borsh EvidenceStatement} (statements : list EvidenceStatement) (key : Digest)
    (b : EvidenceBatch) (index : N) (s : EvidenceStatement) :
  EvidenceBatch_new statements key = Some b -> statements !! N.to_nat index = Some s ->
  exists m, EvidenceMembership_build statements index key = Some m /\ batch m = b
    /\ oindex (opening m) = index /\ EvidenceMembership_binds m s key = true.
Proof.
  intros Hb Hs. pose proof (EvidenceBatch_new_Some _ _ _ Hb) as (Hne & Hmax & _ & Hkey & Hcount & Hroot).
  assert (len statements <= 16) as Hlen by (unfold len, MAX_EVIDENCE_BATCH in *; lia).
  assert (0 < len statements) as Hpos by (apply lookup_lt_Some in Hs; unfold len; lia).
  destruct (opening_build_verifies (map commitment statements) index (commitment s) (batch_root b))
    as (o & Ho & Hi & Hc & Hv).
  { rewrite len_map. unfold U64_MAX. lia. }
  { rewrite list_lookup_fmap, Hs. done. }
  { done. }
  rewrite len_map in Hc, Hv. exists {| batch := b; opening := o |}.
  split; [unfold EvidenceMembership_build; by rewrite Hb; cbn [mbind option_bind]; rewrite Ho|].
  split; [done|]. split; [done|]. unfold EvidenceMembership_binds. cbn [batch opening].
  rewrite Hkey, Hcount, Hc, Hv, N.eqb_refl, bool_decide_true by done.
  apply N.ltb_lt in Hpos as ->. apply N.leb_le in Hlen.
  change (N.of_nat MAX_EVIDENCE_BATCH) with 16. by rewrite Hlen.
Qed.

Lemma evidence_membership_complete_witness :
  exists m, @EvidenceMembership_build pad32 codec_borsh
    [sample_statement 1; sample_statement 2] 1 [9] = Some m
    /\ @EvidenceMembership_binds pad32 codec_borsh codec_borsh m (sample_statement 2) [9] = true.
Proof.
  destruct (@evidence_membership_complete pad32 codec_borsh codec_borsh
    [sample_statement 1; sample_statement 2] [9]
    (@Build_EvidenceBatch [9] 2 (default [] (@merkle_root_from_hashes pad32
       (map (@commitment pad32 _ codec_borsh) [sample_statement 1; sample_statement 2]))))
    1 (sample_statement 2)) as (m & Hm & _ & _ & Hb).
  - vm_compute. reflexivity.
  - reflexivity.
  - exists m. split; [exact Hm|exact Hb].
Defined.

(** C34: a membership binds only statements of its batch: when [binds] accepts a
    statement for a batch built from a list of statements, the list holds that
    statement at the opened index, or the accepted data exhibits a BLAKE3
    collision with the batch; and the batch never holds one offence twice. *)
Theorem evidence_membership_sound `{Blake3Laws} `{BorshLaws (bytes * N * Hash)}
    `{BorshLaws EvidenceStatement} (statements : list EvidenceStatement) (key key' : Digest)
    (m : EvidenceMembership) (s : EvidenceStatement) :
  EvidenceBatch_new statements key = Some (batch m) ->
  Forall hash_sized (osiblings (opening m)) ->
  EvidenceMembership_binds m s key' = true ->
  NoDup (map offence_id statements) /\ key = key'
  /\ (statements !! N.to_nat (oindex (opening m)) = Some s
      \/ Collides (membership_preimages m s)
           (statements_preimages statements (batch m) (oindex (opening m)))).
Proof.
  intros Hb Hsibs Hbinds.
  pose proof (EvidenceBatch_new_Some _ _ _ Hb) as (_ & _ & Hnd & Hkey & Hcount & Hroot).
  unfold EvidenceMembership_binds in Hbinds. rewrite !andb_true_iff in Hbinds.
  destruct Hbinds as [[[[Hk%bool_decide_eq_true _] _] Hc%N.eqb_eq] Hv].
  split; [done|]. split; [congruence|].
  rewrite Hc, Hcount, <- (len_map commitment) in Hv.
  apply opening_verify_sound in Hv; [|apply Forall_map, Forall_forall; intros; apply length_blake3_256
    |done|apply length_blake3_256|done].
  unfold membership_preimages, statements_preimages.
  destruct Hv as [[_ Hv]|Hcol]; [|right; by apply collides_there].
  rewrite list_lookup_fmap in Hv.
  destruct (statements !! N.to_nat (oindex (opening m))) as [t|]; [|done].
  injection Hv as Hv. unfold commitment, blake3_256 in Hv. symmetry in Hv.
  eapply collides_here in Hv as [Heq%borsh_to_vec_inj|Hcol]; [by left; subst|right; exact Hcol].
Qed.

Lemma evidence_membership_sound_witness :
  exists m, @EvidenceMembership_build pad32 codec_borsh [sample_statement 1] 0 [9] = Some m
    /\ NoDup (map offence_id [sample_statement 1]).
Proof.
  exists {| batch := {| fact_guest_vk_digest := [9]; batch_count := 1;
                        batch_root := @commitment pad32 _ codec_borsh (sample_statement 1) |};
            opening := {| oindex := 0; ocount := 1; osiblings := [] |} |}.
  split; [vm_compute; reflexivity|].
  eapply (@evidence_membership_sound pad32 pad32_laws codec_borsh codec_borsh_laws
    codec_borsh codec_borsh_laws [sample_statement 1] [9] [9]
    {| batch := {| fact_guest_vk_digest := [9]; batch_count := 1;
                   batch_root := @commitment pad32 _ codec_borsh (sample_statement 1) |};
       opening := {| oindex := 0; ocount := 1; osiblings := [] |} |} (sample_statement 1)).
  - vm_compute. reflexivity.
  - constructor.
  - vm_compute. reflexivity.
Defined.

(** C35: an accepted evidence submission cites finalized history: against an
    anchor whose root is the reference root of the finalized contexts, the
    statement's context is the one finalized at its chunk index, in the past of
    the current block and, for a liveness claim, among the last eight chunks;
    otherwise the submission exhibits a BLAKE3 collision. *)
Theorem evidence_submission_sound `{Blake3Laws} `{Borsh EvidenceContext}
    (contexts : list Hash) (s : EvidenceSubmission) (chain height : N) (anchor : EvidenceAnchor) :
  len contexts <= U64_MAX -> an_chunk_id anchor <= U64_MAX ->
  history_root_ anchor = reference_root contexts ->
  Forall hash_sized (siblings (history s)) ->
  EvidenceSubmission_binds s chain height anchor = true ->
  let ctx := context (statement s) in
  (leaves_at contexts (ctx_chunk_id ctx) = Some (commitment ctx)
   /\ len contexts = an_chunk_id anchor /\ ctx_chunk_id ctx < an_chunk_id anchor
   /\ end_height ctx < height /\ st_chain_id (statement s) = chain
   /\ (kind (statement s) = Inactivity -> an_chunk_id anchor <= ctx_chunk_id ctx + 8))
  \/ Collides (path_preimages (history s) (commitment ctx))
       (tree_preimages contexts (ctx_chunk_id ctx)).
Proof.
  intros Hlen Han Hroot Hsibs Hbinds ctx. unfold EvidenceSubmission_binds in Hbinds. fold ctx in Hbinds.
  rewrite Hroot, !andb_true_iff, !N.eqb_eq, !N.ltb_lt in Hbinds.
  destruct Hbinds as [[[[[[[Hchain _] _] Hi] Hc] Hwin] Hv] Hend].
  apply path_verify_sound in Hv; [|done|by rewrite Hc|done]. rewrite Hi in Hv.
  destruct Hv as [[Hcount Hleaf]|Hcol]; [left|by right].
  assert (ctx_chunk_id ctx < len contexts) by (apply lookup_lt_Some in Hleaf; unfold len; lia).
  split_and!; try done; try lia. intros Hkind. rewrite Hkind in Hwin.
  unfold is_recent_history_index, is_history_index_within, saturating_sub in Hwin.
  rewrite andb_true_iff, N.leb_le in Hwin. unfold HISTORY_RETENTION_CHUNKS in Hwin. lia.
Qed.

Lemma evidence_submission_sound_witness :
  let root := @commitment pad32 _ codec_borsh sample_context in
  exists p, @path_build pad32 [root] 0 = Some p
  /\ (leaves_at [root] 0 = Some root
      \/ @Collides pad32 (@path_preimages pad32 p root) (@tree_preimages pad32 [root] 0)).
Proof.
  intros root. destruct (@path_build_spec pad32 [root] 0) as (p & Hp & Hop);
    [apply Nat.lt_0_1|by vm_compute|].
  exists p. split; [exact Hp|].
  assert (Forall hash_sized (siblings p)) as Hsized.
  { destruct Hop as (_ & _ & ->). apply Forall_map, Forall_forall.
    intros l _. apply (@length_subtree pad32 pad32_laws). }
  pose proof (@opening_verifies pad32 [root] 0 root p ltac:(by vm_compute) eq_refl Hop) as Hv.
  destruct (@evidence_submission_sound pad32 pad32_laws codec_borsh [root]
    {| statement := sample_statement 1; history := p |} 7 200
    {| an_fact_guest_vk_digest := []; an_chain_spec_hash := ZERO_HASH; an_chunk_id := 1;
       history_root_ := @reference_root pad32 [root]; an_block_guest_vk_digest := [];
       evidence_guest_vk_digest := []; an_unbonding_delay_blocks := 9; an_chunk_size := 8 |})
    as [Hok|Hcol]; [by vm_compute|cbn [an_chunk_id]; by vm_compute|cbn [history_root_]; reflexivity|exact Hsized| | |].
  - unfold EvidenceSubmission_binds. cbn -[path_verify commitment reference_root].
    destruct Hop as (-> & -> & _). fold root. rewrite Hv. reflexivity.
  - left. apply Hok.
  - right. exact Hcol.
Defined.
