(* ===== verification/Vrf.v ===== *)
(** * crates/vrf: proposer lottery

    The VRF message and seed fold ([eval.rs], [seed.rs]) and the stake-weighted
    eligibility threshold ([threshold.rs]), which compares 384-bit products held in
    64-bit limbs.  Machine operations that could overflow, index out of range or
    fail a conversion return [None]; the theorems show that none does. *)

From S2P Require Import Prelude External Primitives.

(** ** Message and seed *)

Definition vrf_message (d : ConsensusDomain) (finalized_seed : bytes) (slot : N) : bytes :=
  signing_message d DOMAIN_VRF (finalized_seed ++ to_le_bytes 8 slot).

Definition fold_seed `{Sha256} (prev_seed : bytes) (vrf_proofs : list bytes) : bytes :=
  sha256_digest (foldl app prev_seed vrf_proofs).

(** ** Limb arithmetic *)

Definition MASK_LO_64 : N := 2 ^ 64 - 1.

(** [u128] operations of the source, [None] on overflow. *)
Abbreviation add128 := (checked_add U128_MAX).
Abbreviation mul128 := (checked_mul U128_MAX).

Definition low_u64 (value : N) : option N := try_from U64_MAX (N.land value MASK_LO_64).

Definition wide_mul_u128_u64 (a b : N) : option (N * N) :=
  let a_lo := N.land a MASK_LO_64 in
  let a_hi := N.shiftr a 64 in
  prod0 ← mul128 a_lo b;
  prod1 ← mul128 a_hi b;
  mid ← add128 (N.land prod1 MASK_LO_64) (N.shiftr prod0 64);
  let result_lo := N.lor (N.shiftl (N.land mid MASK_LO_64) 64) (N.land prod0 MASK_LO_64) in
  result_hi_u128 ← add128 (N.shiftr prod1 64) (N.shiftr mid 64);
  result_hi ← try_from U64_MAX result_hi_u128;
  Some (result_lo, result_hi).

Definition is_max_output (output : bytes) : bool := forallb (fun byte => byte =? 255) output.

(** [output.rchunks_exact(8)] read as big-endian words, the last chunk first. *)
Fixpoint output_limbs (n : nat) (output : bytes) : list N :=
  match n with
  | O => []
  | S n => from_le_bytes (reverse (drop (8 * n) output)) :: output_limbs n (take (8 * n) output)
  end.

(** The carry loop: add [carry] to the limbs, stopping once it is zero. *)
Fixpoint add_carry (limbs : list N) (carry : N) : list N * N :=
  match limbs with
  | [] => ([], carry)
  | limb :: limbs =>
      let sum := (limb + carry) mod 2 ^ 64 in
      let carry := if U64_MAX <? limb + carry then 1 else 0 in
      if carry =? 0 then (sum :: limbs, 0)
      else let '(rest, carry) := add_carry limbs carry in (sum :: rest, carry)
  end.

Definition u256_plus_one_limbs (output : bytes) : list N :=
  let '(limbs, carry) := add_carry (output_limbs 4 output) 1 in limbs ++ [carry].

Definition u128_to_limbs (value : N) : list N :=
  let b := to_le_bytes 16 value in [from_le_bytes (take 8 b); from_le_bytes (drop 8 b)].

(** [out[k] += x] in [u128], keeping the low word and returning the high part. *)
Definition accumulate (out : list N) (k : nat) (x : N) : option (list N * N) :=
  limb ← out !! k;
  total ← add128 limb x;
  low ← low_u64 total;
  Some (<[k := low]> out, N.shiftr total 64).

(** The inner loop over [b] from limb [k] on. *)
Fixpoint mul_row (out : list N) (k : nat) (a_limb : N) (b : list N) (carry : N) : option (list N * N) :=
  match b with
  | [] => Some (out, carry)
  | b_limb :: b =>
      product ← mul128 a_limb b_limb;
      x ← add128 product carry;
      '(out, carry) ← accumulate out k x;
      mul_row out (S k) a_limb b carry
  end.

(** [while carry != 0]: at most [n] limbs are left from [k] on. *)
Fixpoint propagate (n : nat) (out : list N) (k : nat) (carry : N) : option (list N) :=
  if carry =? 0 then Some out
  else match n with
       | O => None
       | S n => '(out, carry) ← accumulate out k carry; propagate n out (S k) carry
       end.

(** The outer loop over [a] from limb [i] on. *)
Fixpoint mul_rows (out : list N) (i : nat) (a b : list N) : option (list N) :=
  match a with
  | [] => Some out
  | a_limb :: a =>
      if a_limb =? 0 then mul_rows out (S i) a b
      else
        '(out, carry) ← mul_row out i a_limb b 0;
        let k := (i + length b)%nat in
        out ← propagate (length out - k) out k carry;
        mul_rows out (S i) a b
  end.

Definition mul_limbs_to_6 (a b : list N) : option (list N) := mul_rows (replicate 6 0) 0 a b.

Definition max_u256_times_u128 (value : N) : option (list N) :=
  mul_limbs_to_6 (replicate 4 U64_MAX) (u128_to_limbs value).

(** The comparison loop, from the highest limb down. *)
Fixpoint limbs_cmp_rev (a b : list N) : comparison :=
  match a, b with
  | x :: a, y :: b => match x ?= y with Eq => limbs_cmp_rev a b | c => c end
  | _, _ => Eq
  end.
Definition limbs_le_cmp (a b : list N) : comparison := limbs_cmp_rev (reverse a) (reverse b).

Definition is_eligible (output : bytes) (stake total_stake expected : N) : option bool :=
  if (stake =? 0) || (total_stake =? 0) then Some false
  else
    '(numerator_lo, numerator_hi) ← wide_mul_u128_u64 expected stake;
    let denominator := N.shiftl total_stake 64 in
    if negb (numerator_hi =? 0) || (denominator <=? numerator_lo) then Some (negb (is_max_output output))
    else if numerator_lo =? 0 then Some false
    else
      lhs ← mul_limbs_to_6 (u256_plus_one_limbs output) (u128_to_limbs denominator);
      rhs ← max_u256_times_u128 numerator_lo;
      Some match limbs_le_cmp lhs rhs with Gt => false | _ => true end.

(* ------------------------------------------------------------------ *)
(** ** Reference *)

Definition U256_MAX : N := 2 ^ 256 - 1.

(** [U256(output)], big-endian. *)
Definition output_value (output : bytes) : N := from_le_bytes (reverse output).

(** [floor((2^256 - 1) * E * stake / total_stake)] with [E = expected / 2^64],
    saturating at probability one. *)
Definition threshold (stake total_stake expected : N) : N :=
  N.min U256_MAX (U256_MAX * (expected * stake) / (total_stake * 2 ^ 64)).

Definition eligible_spec (output : bytes) (stake total_stake expected : N) : bool :=
  negb (stake =? 0) && negb (total_stake =? 0) && (output_value output <? threshold stake total_stake expected).

(** The number a little-endian limb vector denotes. *)
Fixpoint value (limbs : list N) : N :=
  match limbs with [] => 0 | x :: l => x + 2 ^ 64 * value l end.

Definition limbs_ok (limbs : list N) : Prop := Forall (fun x => x < 2 ^ 64) limbs.

(* ------------------------------------------------------------------ *)
(** ** Values of limb vectors *)

(** The weight of limb [n]. *)
Definition weight (n : nat) : N := 2 ^ (64 * N.of_nat n).

Lemma weight_0 : weight 0 = 1.
Proof. done. Qed.

Lemma weight_S n : weight (S n) = 2 ^ 64 * weight n.
Proof. unfold weight. rewrite <- N.pow_add_r. f_equal. lia. Qed.

Lemma weight_pos n : 0 < weight n.
Proof. unfold weight. apply N.neq_0_lt_0, N.pow_nonzero. done. Qed.

Lemma value_lt l : limbs_ok l -> value l < weight (length l).
Proof.
  induction 1 as [|x l Hx _ IH]; [done|]. cbn [value length]. rewrite weight_S. nia.
Qed.

Lemma value_snoc l x : value (l ++ [x]) = value l + weight (length l) * x.
Proof.
  induction l as [|y l IH]; cbn [value app length]; [rewrite weight_0; lia|]. rewrite IH, weight_S. lia.
Qed.

Lemma value_update l k x old :
  l !! k = Some old -> value (<[k := x]> l) + weight k * old = value l + weight k * x.
Proof.
  revert k. induction l as [|y l IH]; intros [|k] Hk; try done.
  - injection Hk as ->. cbn [value insert list_insert]. rewrite weight_0. lia.
  - change (l !! k = Some old) in Hk. specialize (IH k Hk).
    change (<[S k := x]> (y :: l)) with (y :: <[k := x]> l). cbn [value]. rewrite weight_S. lia.
Qed.

Lemma value_replicate n : value (replicate n 0) = 0.
Proof. induction n as [|n IH]; [done|]. cbn [replicate value]. rewrite IH. lia. Qed.

Lemma value_max n : value (replicate n U64_MAX) = weight n - 1.
Proof.
  induction n as [|n IH]; [done|]. cbn [replicate value]. rewrite IH, weight_S.
  pose proof (weight_pos n). unfold U64_MAX. nia.
Qed.

(** Comparing limbs from the top compares the values. *)
Lemma limbs_le_cmp_value a b :
  length a = length b -> limbs_ok a -> limbs_ok b -> limbs_le_cmp a b = (value a ?= value b).
Proof.
  unfold limbs_le_cmp. revert b. induction a as [|x a IH] using rev_ind; intros b Hlen Ha Hb.
  - by destruct b.
  - destruct b as [|y b _] using rev_ind; [rewrite length_app in Hlen; cbn in Hlen; lia|].
    rewrite !length_app in Hlen. cbn in Hlen. assert (length a = length b) as Hl by lia.
    apply Forall_app in Ha as [Ha Hx]. apply Forall_app in Hb as [Hb Hy]. apply Forall_singleton in Hx, Hy.
    rewrite !reverse_snoc, !value_snoc, Hl. cbn [limbs_cmp_rev]. rewrite (IH b Hl Ha Hb).
    pose proof (value_lt a Ha) as Hva. pose proof (value_lt b Hb) as Hvb. rewrite Hl in Hva.
    destruct (N.compare_spec x y) as [->|Hlt|Hgt].
    + destruct (N.compare_spec (value a) (value b)) as [->|?|?]; symmetry;
        [apply N.compare_refl|apply N.compare_lt_iff|apply N.compare_gt_iff]; lia.
    + symmetry. apply N.compare_lt_iff. nia.
    + symmetry. apply N.compare_gt_iff. nia.
Qed.

(* ------------------------------------------------------------------ *)
(** ** Multiplication *)

Lemma low_u64_mod x : low_u64 x = Some (x mod 2 ^ 64).
Proof.
  unfold low_u64, MASK_LO_64, try_from. rewrite <- N.ones_equiv || idtac.
  change (2 ^ 64 - 1) with (N.ones 64). rewrite N.land_ones.
  destruct (x mod 2 ^ 64 <=? U64_MAX) eqn:Hle; [done|]. apply N.leb_gt in Hle. unfold U64_MAX in Hle.
  pose proof (N.mod_lt x (2 ^ 64) ltac:(done)). lia.
Qed.

(** One accumulation: the value grows by [x] at limb [k]; the excess is the carry. *)
Lemma accumulate_ok out k x :
  limbs_ok out -> (k < length out)%nat -> x <= U128_MAX - U64_MAX ->
  exists out' carry, accumulate out k x = Some (out', carry) /\ limbs_ok out' /\ length out' = length out
    /\ value out' + weight (S k) * carry = value out + weight k * x /\ 2 ^ 64 * carry <= U64_MAX + x.
Proof.
  intros Hok Hk Hx. destruct (lookup_lt_is_Some_2 out k Hk) as [limb Hl]. unfold accumulate. rewrite Hl. cbn [mbind option_bind].
  assert (limb < 2 ^ 64) as Hlimb by (by apply (Forall_lookup_1 _ _ _ _ Hok Hl)).
  assert (add128 limb x = Some (limb + x)) as -> by (apply checked_add_Some; split; [done|unfold U128_MAX, U64_MAX in *; lia]).
  cbn [mbind option_bind]. rewrite low_u64_mod. cbn [mbind option_bind]. eexists _, _. split; [done|].
  rewrite N.shiftr_div_pow2. pose proof (N.div_mod (limb + x) (2 ^ 64) ltac:(done)) as Hdm.
  pose proof (N.mod_lt (limb + x) (2 ^ 64) ltac:(done)) as Hml. split_and!.
  - by apply Forall_insert.
  - by rewrite length_insert.
  - pose proof (value_update out k ((limb + x) mod 2 ^ 64) limb Hl) as Hv. rewrite weight_S. nia.
  - unfold U64_MAX. lia.
Qed.

Lemma mul_row_ok b : forall out k a_limb carry,
  limbs_ok out -> limbs_ok b -> (k + length b <= length out)%nat -> a_limb < 2 ^ 64 -> carry < 2 ^ 64 ->
  exists out' carry', mul_row out k a_limb b carry = Some (out', carry') /\ limbs_ok out'
    /\ length out' = length out /\ carry' < 2 ^ 64
    /\ value out' + weight (k + length b) * carry' = value out + weight k * (a_limb * value b + carry).
Proof.
  induction b as [|b_limb b IH]; intros out k a_limb carry Hout Hb Hk Ha Hc.
  - exists out, carry. rewrite Nat.add_0_r. cbn [mul_row value]. split_and!; try done. lia.
  - apply Forall_cons in Hb as [Hbl Hb]. cbn [length] in Hk. cbn [mul_row].
    assert (a_limb * b_limb <= (2 ^ 64 - 1) * (2 ^ 64 - 1)) as Hp by (apply N.mul_le_mono; lia).
    assert (mul128 a_limb b_limb = Some (a_limb * b_limb)) as ->
      by (unfold checked_mul; rewrite (proj2 (N.leb_le _ _)); [done|unfold U128_MAX; lia]).
    cbn [mbind option_bind].
    assert (add128 (a_limb * b_limb) carry = Some (a_limb * b_limb + carry)) as ->
      by (apply checked_add_Some; split; [done|unfold U128_MAX; lia]).
    cbn [mbind option_bind].
    destruct (accumulate_ok out k (a_limb * b_limb + carry) Hout ltac:(lia)) as (out1 & c1 & -> & Ho1 & Hl1 & Hv1 & Hc1);
      [unfold U128_MAX, U64_MAX; lia|]. cbn [mbind option_bind].
    assert (c1 < 2 ^ 64) as Hc1' by (unfold U64_MAX in Hc1; lia).
    destruct (IH out1 (S k) a_limb c1 Ho1 Hb ltac:(lia) Ha Hc1') as (out2 & c2 & -> & Ho2 & Hl2 & Hc2 & Hv2).
    exists out2, c2. split_and!; try done; [lia|]. replace (k + length (b_limb :: b))%nat with (S k + length b)%nat by (cbn; lia).
    rewrite Hv2. cbn [value]. rewrite weight_S in *. nia.
Qed.

(** The carry is absorbed as long as the whole fits the vector. *)
Lemma propagate_ok n : forall out k carry,
  limbs_ok out -> length out = (k + n)%nat -> carry < 2 ^ 64 ->
  value out + weight k * carry < weight (length out) ->
  exists out', propagate n out k carry = Some out' /\ limbs_ok out' /\ length out' = length out
    /\ value out' = value out + weight k * carry.
Proof.
  induction n as [|n IH]; intros out k carry Hout Hlen Hc Hfit; cbn [propagate]; destruct (carry =? 0) eqn:Hz.
  - apply N.eqb_eq in Hz as ->. exists out. split_and!; try done. lia.
  - apply N.eqb_neq in Hz. rewrite Hlen, Nat.add_0_r in Hfit. pose proof (weight_pos k). nia.
  - apply N.eqb_eq in Hz as ->. exists out. split_and!; try done. lia.
  - destruct (accumulate_ok out k carry Hout ltac:(lia)) as (out1 & c1 & -> & Ho1 & Hl1 & Hv1 & Hc1);
      [unfold U128_MAX, U64_MAX; lia|]. cbn [mbind option_bind].
    destruct (IH out1 (S k) c1 Ho1 ltac:(lia)) as (out2 & -> & Ho2 & Hl2 & Hv2); [unfold U64_MAX in Hc1; lia|by rewrite Hl1, Hv1|].
    exists out2. split_and!; try done; lia.
Qed.

Lemma mul_rows_ok b a : forall out i,
  limbs_ok out -> limbs_ok a -> limbs_ok b -> (i + length a + length b <= S (length out))%nat ->
  (a <> [] -> i + length b <= length out)%nat ->
  value out + weight i * (value a * value b) < weight (length out) ->
  exists out', mul_rows out i a b = Some out' /\ limbs_ok out' /\ length out' = length out
    /\ value out' = value out + weight i * (value a * value b).
Proof.
  induction a as [|a_limb a IH]; intros out i Hout Ha Hb Hlen Hfirst Hfit.
  - exists out. cbn [mul_rows value]. split_and!; try done. lia.
  - apply Forall_cons in Ha as [Hal Ha]. cbn [value length] in *. cbn [mul_rows].
    assert (a <> [] -> S i + length b <= length out)%nat as Hnext by (destruct a; [done|cbn in Hlen; lia]).
    assert (weight (S i) * (value a * value b) + weight i * (a_limb * value b)
            = weight i * ((a_limb + 2 ^ 64 * value a) * value b)) as Hsplit by (rewrite weight_S; lia).
    destruct (a_limb =? 0) eqn:Hz.
    + apply N.eqb_eq in Hz as ->. destruct (IH out (S i) Hout Ha Hb ltac:(lia) Hnext ltac:(lia)) as (out' & -> & ? & ? & Hv).
      exists out'. split_and!; try done. lia.
    + specialize (Hfirst ltac:(done)).
      destruct (mul_row_ok b out i a_limb 0 Hout Hb Hfirst Hal ltac:(done)) as (out1 & c1 & -> & Ho1 & Hl1 & Hc1 & Hv1).
      cbn [mbind option_bind]. rewrite N.add_0_r in Hv1.
      destruct (propagate_ok (length out1 - (i + length b)) out1 (i + length b) c1 Ho1 ltac:(lia) Hc1 ltac:(rewrite Hl1; lia))
        as (out2 & -> & Ho2 & Hl2 & Hv2). cbn [mbind option_bind].
      destruct (IH out2 (S i) Ho2 Ha Hb) as (out3 & -> & ? & ? & Hv3); [lia|rewrite Hl2, Hl1; done|rewrite Hl2, Hl1; lia|].
      exists out3. split_and!; try done; [lia|]. rewrite Hv3, Hv2, Hv1. lia.
Qed.

Lemma mul_limbs_to_6_ok a b :
  limbs_ok a -> limbs_ok b -> (length a <= 5)%nat -> length b = 2%nat -> value a * value b < 2 ^ 384 ->
  exists out, mul_limbs_to_6 a b = Some out /\ limbs_ok out /\ length out = 6%nat /\ value out = value a * value b.
Proof.
  intros Ha Hb Hla Hlb Hfit. unfold mul_limbs_to_6.
  destruct (mul_rows_ok b a (replicate 6 0) 0) as (out & -> & Ho & Hl & Hv); try done.
  - by repeat constructor.
  - rewrite length_replicate. lia.
  - rewrite length_replicate. lia.
  - rewrite value_replicate, weight_0, length_replicate. change (weight 6) with (2 ^ 384). lia.
  - exists out. rewrite Hv, value_replicate, weight_0. split_and!; try done. lia.
Qed.

(* ------------------------------------------------------------------ *)
(** ** Conversions *)

Lemma lor_shiftl x y n : y < 2 ^ n -> N.lor (N.shiftl x n) y = x * 2 ^ n + y.
Proof.
  intros Hy. rewrite <- N.lxor_lor, <- N.add_nocarry_lxor; [by rewrite N.shiftl_mul_pow2|..];
    apply N.bits_inj; intros i; rewrite N.land_spec, N.bits_0;
    (destruct (N.lt_ge_cases i n) as [Hi|Hi];
     [by rewrite N.shiftl_spec_low
     |rewrite <- (N.mod_small y (2 ^ n)) by done; rewrite N.mod_pow2_bits_high by done; apply andb_false_r]).
Qed.

(** A word split, with quotient and remainder as variables. *)
Lemma split64 x : exists q r, x = 2 ^ 64 * q + r /\ r < 2 ^ 64 /\ N.shiftr x 64 = q /\ N.land x (N.ones 64) = r.
Proof.
  exists (x / 2 ^ 64), (x mod 2 ^ 64). rewrite N.land_ones, N.shiftr_div_pow2.
  split; [by apply N.div_mod|]. split; [by apply N.mod_lt|done].
Qed.

Lemma word_product x b : x < 2 ^ 64 -> b <= U64_MAX -> x * b <= (2 ^ 64 - 1) * (2 ^ 64 - 1).
Proof. intros Hx Hb. apply N.mul_le_mono; unfold U64_MAX in *; lia. Qed.

Lemma wide_mul_ok a b :
  a <= U128_MAX -> b <= U64_MAX ->
  exists lo hi, wide_mul_u128_u64 a b = Some (lo, hi) /\ lo < 2 ^ 128 /\ lo + 2 ^ 128 * hi = a * b.
Proof.
  intros Ha Hb. unfold wide_mul_u128_u64, MASK_LO_64. change (2 ^ 64 - 1) with (N.ones 64).
  destruct (split64 a) as (hi & lo & Ea & Hlo & -> & ->).
  assert (hi < 2 ^ 64) as Hhi by (unfold U128_MAX in Ha; lia).
  pose proof (word_product lo b Hlo Hb) as H0. pose proof (word_product hi b Hhi Hb) as H1.
  assert (a * b = 2 ^ 64 * (hi * b) + lo * b) as -> by (rewrite Ea; lia).
  unfold checked_mul. rewrite !(proj2 (N.leb_le _ _)) by (unfold U128_MAX; lia). cbn [mbind option_bind].
  generalize dependent (lo * b). intros p0 H0. generalize dependent (hi * b). intros p1 H1. clear Ha Hb Ea Hlo Hhi.
  destruct (split64 p0) as (q0 & r0 & E0 & Hr0 & -> & ->). destruct (split64 p1) as (q1 & r1 & E1 & Hr1 & -> & ->).
  assert (add128 r1 q0 = Some (r1 + q0)) as -> by (apply checked_add_Some; split; [done|unfold U128_MAX; lia]).
  cbn [mbind option_bind]. destruct (split64 (r1 + q0)) as (qm & rm & Em & Hrm & -> & ->).
  assert (add128 q1 qm = Some (q1 + qm)) as -> by (apply checked_add_Some; split; [done|unfold U128_MAX; lia]).
  cbn [mbind option_bind]. unfold try_from. rewrite (proj2 (N.leb_le _ _)) by (unfold U64_MAX; lia).
  cbn [mbind option_bind]. eexists _, _. split; [done|]. rewrite lor_shiftl by done. split; lia.
Qed.

Lemma from_le_bytes_app l1 l2 : from_le_bytes (l1 ++ l2) = from_le_bytes l1 + 256 ^ len l1 * from_le_bytes l2.
Proof.
  induction l1 as [|x l1 IH]; cbn [from_le_bytes app]; [unfold len; cbn; lia|].
  rewrite IH, len_cons, N.pow_add_r. lia.
Qed.

Lemma from_le_bytes_lt l : Forall (fun x => x <= U8_MAX) l -> from_le_bytes l < 256 ^ len l.
Proof.
  induction 1 as [|x l Hx _ IH]; [done|]. cbn [from_le_bytes]. rewrite len_cons, N.pow_add_r. unfold U8_MAX in Hx. lia.
Qed.

Lemma output_limbs_ok n output :
  len output = 8 * N.of_nat n -> Forall (fun x => x <= U8_MAX) output ->
  value (output_limbs n output) = output_value output /\ limbs_ok (output_limbs n output)
  /\ length (output_limbs n output) = n.
Proof.
  unfold output_value. revert output. induction n as [|n IH]; intros output Hlen Hok.
  - destruct output; [|unfold len in Hlen; cbn in Hlen; lia]. by repeat constructor.
  - assert (length output = 8 * S n)%nat as Hl by (unfold len in Hlen; lia).
    assert (Forall (fun x => x <= U8_MAX) (take (8 * n) output)) as Ht by (by apply Forall_take).
    assert (Forall (fun x => x <= U8_MAX) (drop (8 * n) output)) as Hd by (by apply Forall_drop).
    destruct (IH (take (8 * n) output)) as (Hv & Hlo & Hll); [|done|].
    { unfold len. rewrite length_take. lia. }
    cbn [output_limbs value length]. rewrite Hv. split_and!.
    + transitivity (from_le_bytes (reverse (take (8 * n) output ++ drop (8 * n) output))); [|by rewrite take_drop].
      rewrite reverse_app, from_le_bytes_app.
      unfold len. rewrite length_reverse, length_drop. replace (length output - 8 * n)%nat with 8%nat by lia. done.
    + constructor; [|done]. apply (N.lt_le_trans _ (256 ^ len (reverse (drop (8 * n) output)))).
      * by apply from_le_bytes_lt, Forall_reverse.
      * unfold len. rewrite length_reverse, length_drop. replace (length output - 8 * n)%nat with 8%nat by lia. done.
    + by rewrite Hll.
Qed.

Lemma add_carry_ok l : forall c limbs c',
  limbs_ok l -> c <= 1 -> add_carry l c = (limbs, c') ->
  limbs_ok limbs /\ length limbs = length l /\ c' <= 1 /\ value limbs + weight (length l) * c' = value l + c.
Proof.
  induction l as [|x l IH]; intros c limbs c' Hok Hc Heq; cbn [add_carry] in Heq.
  - injection Heq as <- <-. cbn [length value]. rewrite weight_0. split_and!; try done. lia.
  - apply Forall_cons in Hok as [Hx Hok]. destruct (U64_MAX <? x + c) eqn:Hover.
    + apply N.ltb_lt in Hover. unfold U64_MAX in Hover. cbn [N.eqb] in Heq.
      destruct (add_carry l 1) as [rest c1] eqn:Hr. injection Heq as <- <-.
      destruct (IH 1 rest c1 Hok ltac:(done) Hr) as (Hro & Hrl & Hc1 & Hrv). cbn [value length].
      assert ((x + c) mod 2 ^ 64 = 0) as Hz by (assert (x + c = 2 ^ 64) as -> by lia; done).
      rewrite Hz. split_and!; try done; [by constructor|by rewrite Hrl|]. rewrite weight_S. lia.
    + apply N.ltb_ge in Hover. unfold U64_MAX in Hover. cbn [N.eqb] in Heq. injection Heq as <- <-.
      rewrite N.mod_small by lia. cbn [value length]. split_and!; try done; [constructor; [lia|done]|lia].
Qed.

Lemma u256_plus_one_ok output :
  len output = 32 -> Forall (fun x => x <= U8_MAX) output ->
  limbs_ok (u256_plus_one_limbs output) /\ length (u256_plus_one_limbs output) = 5%nat
  /\ value (u256_plus_one_limbs output) = output_value output + 1.
Proof.
  intros Hlen Hok. destruct (output_limbs_ok 4 output) as (Hv & Hlo & Hll); [done..|]. unfold u256_plus_one_limbs.
  destruct (add_carry (output_limbs 4 output) 1) as [limbs c] eqn:Hc.
  destruct (add_carry_ok _ _ _ _ Hlo ltac:(done) Hc) as (Hl & Hlen' & Hc1 & Hval). split_and!.
  - apply Forall_app. split; [done|]. apply Forall_singleton. lia.
  - rewrite length_app, Hlen', Hll. done.
  - rewrite value_snoc, Hlen'. lia.
Qed.

Lemma u128_to_limbs_ok v :
  v <= U128_MAX -> limbs_ok (u128_to_limbs v) /\ length (u128_to_limbs v) = 2%nat /\ value (u128_to_limbs v) = v.
Proof.
  intros Hv. unfold u128_to_limbs. set (b := to_le_bytes 16 v).
  assert (from_le_bytes b = v) as Hb by (apply from_to_le_bytes; unfold U128_MAX in Hv; cbn; lia).
  assert (length b = 16%nat) as Hl by apply length_to_le_bytes.
  assert (Forall (fun x => x <= U8_MAX) b) as Hbytes by apply to_le_bytes_bound.
  rewrite <- (take_drop 8 b), from_le_bytes_app in Hb. unfold len in Hb. rewrite length_take, Hl in Hb.
  assert (forall l, length l = 8%nat -> Forall (fun x => x <= U8_MAX) l -> from_le_bytes l < 2 ^ 64) as Hlt.
  { intros l Hll Hlb. pose proof (from_le_bytes_lt l Hlb) as Hx. unfold len in Hx. by rewrite Hll in Hx. }
  split_and!; [|done|].
  - repeat constructor; apply Hlt; [rewrite length_take; lia|by apply Forall_take|rewrite length_drop; lia|by apply Forall_drop].
  - cbn [value]. rewrite N.mul_0_r, N.add_0_r. exact Hb.
Qed.

(** The all-ones output is the greatest. *)
Lemma all_ones_max l :
  Forall (fun x => x <= U8_MAX) l -> forallb (fun b => b =? 255) l = true <-> from_le_bytes l = 256 ^ len l - 1.
Proof.
  induction 1 as [|x l Hx Hl IH]; [done|]. pose proof (from_le_bytes_lt l Hl) as Hlt.
  cbn [forallb from_le_bytes]. rewrite andb_true_iff, N.eqb_eq, IH, len_cons, N.pow_add_r. unfold U8_MAX in Hx. lia.
Qed.

Lemma is_max_output_spec output :
  len output = 32 -> Forall (fun x => x <= U8_MAX) output ->
  is_max_output output = (output_value output =? U256_MAX).
Proof.
  intros Hlen Hok. apply eq_true_iff_eq. unfold is_max_output, output_value. rewrite N.eqb_eq.
  assert (forallb (fun b => b =? 255) output = forallb (fun b => b =? 255) (reverse output)) as ->.
  { apply eq_true_iff_eq. rewrite !forallb_forall. split; intros Hall x Hx; apply Hall;
      revert Hx; rewrite <- !list_elem_of_In; by rewrite elem_of_reverse. }
  rewrite all_ones_max by (by apply Forall_reverse). unfold len in *. by rewrite length_reverse, Hlen.
Qed.

Lemma output_value_le output :
  len output = 32 -> Forall (fun x => x <= U8_MAX) output -> output_value output <= U256_MAX.
Proof.
  intros Hlen Hok. pose proof (from_le_bytes_lt (reverse output) ltac:(by apply Forall_reverse)) as Hlt.
  unfold len in *. rewrite length_reverse, Hlen in Hlt. unfold output_value, U256_MAX.
  change (256 ^ 32) with (2 ^ 256) in Hlt. lia.
Qed.

(** The comparison of products is the comparison with the quotient. *)
Lemma product_threshold v d m :
  0 < d -> match ((v + 1) * d ?= m) with Gt => false | _ => true end = (v <? m / d).
Proof.
  intros Hd. assert ((v + 1) * d <= m <-> v < m / d) as Hiff.
  { split; intros Hle.
    - apply N.lt_le_trans with (v + 1); [lia|]. apply N.div_le_lower_bound; lia.
    - etransitivity; [apply (N.mul_le_mono_r _ (m / d)); lia|]. rewrite N.mul_comm. by apply N.Div0.mul_div_le. }
  apply eq_true_iff_eq. rewrite N.ltb_lt, <- Hiff. destruct (N.compare_spec ((v + 1) * d) m); split; (done || lia).
Qed.

Lemma is_eligible_exact output stake total expected :
  len output = 32 -> Forall (fun x => x <= U8_MAX) output ->
  stake <= U64_MAX -> total <= U64_MAX -> expected <= U128_MAX ->
  is_eligible output stake total expected = Some (eligible_spec output stake total expected).
Proof.
  intros Hlen Hok Hs Ht He. unfold is_eligible, eligible_spec.
  destruct (stake =? 0) eqn:Hs0; [done|]. destruct (total =? 0) eqn:Ht0; [done|]. cbn [orb negb andb].
  apply N.eqb_neq in Hs0, Ht0.
  destruct (wide_mul_ok expected stake He Hs) as (lo & hi & -> & Hlo & Hn). cbn [mbind option_bind].
  rewrite N.shiftl_mul_pow2. unfold threshold. rewrite <- Hn. pose proof (output_value_le _ Hlen Hok) as Hov.
  set (D := total * 2 ^ 64). assert (0 < D < 2 ^ 128) as HD by (unfold D, U64_MAX in *; lia).
  destruct (negb (hi =? 0) || (D <=? lo)) eqn:Hbig.
  - assert (D <= lo + 2 ^ 128 * hi) as Hge.
    { apply orb_true_iff in Hbig as [Hh|Hl]; [apply negb_true_iff, N.eqb_neq in Hh; lia|apply N.leb_le in Hl; lia]. }
    rewrite N.min_l by (apply N.div_le_lower_bound; [lia|nia]). rewrite is_max_output_spec by done.
    f_equal. destruct (N.eqb_spec (output_value output) U256_MAX) as [->|Hne]; cbn [negb]; symmetry;
      [apply N.ltb_irrefl|apply N.ltb_lt; lia].
  - apply orb_false_iff in Hbig as [Hh Hl]. apply negb_false_iff, N.eqb_eq in Hh as ->. apply N.leb_gt in Hl.
    rewrite N.mul_0_r, N.add_0_r. destruct (lo =? 0) eqn:Hz.
    { apply N.eqb_eq in Hz as ->. rewrite N.mul_0_r. by destruct (output_value output). }
    destruct (u256_plus_one_ok output Hlen Hok) as (Hu & Hul & Huv).
    destruct (u128_to_limbs_ok D ltac:(unfold U128_MAX; lia)) as (Hd & Hdl & Hdv).
    destruct (u128_to_limbs_ok lo ltac:(unfold U128_MAX; lia)) as (Hlok & Hll & Hlv).
    assert (output_value output + 1 <= 2 ^ 256) as Hov1 by (unfold U256_MAX in Hov; lia).
    destruct (mul_limbs_to_6_ok _ _ Hu Hd) as (lhs & -> & Hlo1 & Hll1 & Hlv1); [lia|done| |].
    { rewrite Huv, Hdv. apply (N.le_lt_trans _ (2 ^ 256 * D)); [by apply N.mul_le_mono_r|lia]. }
    cbn [mbind option_bind]. unfold max_u256_times_u128.
    destruct (mul_limbs_to_6_ok (replicate 4 U64_MAX) (u128_to_limbs lo)) as (rhs & -> & Hro & Hrl & Hrv);
      [by repeat constructor|done|by cbn; lia|done| |].
    { rewrite Hlv, value_max. change (weight 4) with (2 ^ 256). lia. }
    cbn [mbind option_bind]. f_equal. rewrite limbs_le_cmp_value by (done || congruence).
    rewrite Hlv1, Hrv, Huv, Hdv, Hlv, value_max. change (weight 4 - 1) with U256_MAX.
    rewrite N.min_r by (apply N.Div0.div_le_upper_bound; nia).
    apply product_threshold. lia.
Qed.

(* ------------------------------------------------------------------ *)
(** ** Properties *)

(** C39: the allocation-free lottery check is exact: for every 32-byte output and
    machine-width stake, total and expectation it neither overflows nor indexes out
    of range, and accepts exactly the outputs below
    [min (2^256 - 1) (floor ((2^256 - 1) * E * stake / total))], none when a stake
    is zero; and a validator that is eligible stays eligible with more stake. *)
Theorem eligibility_threshold_exact (output : bytes) (stake stake' total expected : N) :
  len output = 32 -> Forall (fun x => x <= U8_MAX) output ->
  stake <= stake' -> stake' <= U64_MAX -> total <= U64_MAX -> expected <= U128_MAX ->
  is_eligible output stake total expected = Some (eligible_spec output stake total expected)
  /\ (is_eligible output stake total expected = Some true -> is_eligible output stake' total expected = Some true).
Proof.
  intros Hlen Hok Hmore Hs Ht He. rewrite !is_eligible_exact by (done || lia). split; [done|].
  unfold eligible_spec. intros [= Hel]. f_equal. bool_prop in Hel. destruct Hel as [[Hs0 Ht0] Hlt].
  bool_prop. split_and!; [lia|done|]. eapply N.lt_le_trans; [exact Hlt|]. unfold threshold.
  apply N.min_le_compat_l, N.Div0.div_le_mono. nia.
Qed.

Lemma eligibility_threshold_exact_witness :
  is_eligible (replicate 32 127) 50 100 (2 ^ 64) = Some true
  /\ is_eligible (replicate 32 127) 60 100 (2 ^ 64) = Some true.
Proof.
  destruct (eligibility_threshold_exact (replicate 32 127) 50 60 100 (2 ^ 64)) as [Hexact Hmono].
  - reflexivity.
  - apply Forall_forall. intros x Hx. apply elem_of_replicate in Hx as [-> _]. vm_compute. discriminate.
  - vm_compute. discriminate.
  - vm_compute. discriminate.
  - vm_compute. discriminate.
  - vm_compute. discriminate.
  - assert (is_eligible (replicate 32 127) 50 100 (2 ^ 64) = Some true) as Htrue
      by (rewrite Hexact; vm_compute; reflexivity).
    split; [exact Htrue|exact (Hmono Htrue)].
Defined.
