(* ===== verification/Votes.v ===== *)
(** * crates/consensus-types: votes, certificates, leaders

    The data of chunk finality ([lib.rs], [bft.rs]), its signing messages, exact
    signer coverage of an aggregate, and the round-robin leader.  Borsh
    encodings are the parameters collected in [ConsensusCodec]. *)

From S2P Require Import Prelude External Primitives.

(** ** Data *)

Inductive FinalityVotePhase := Prevote | Precommit.

Record Chunk := {
  ck_chunk_id : N;
  ck_start_height : N;
  ck_end_height : N;
  ck_start_state_root : Hash;
  ck_end_state_root : Hash;
  ck_start_block_hash : Hash;
  ck_end_block_hash : Hash;
  ck_block_hash_root : Hash;
  ck_block_proof_root : Hash;
  ck_vrf_proof_root : Hash;
  ck_active_validator_set_root : Hash;
  ck_next_validator_set_root : Hash;
  ck_da_root : Hash;
}.

Record FinalityVoteData := {
  v_chunk_id : N;
  v_round : N;
  v_chunk_hash : Hash;
  v_phase : FinalityVotePhase;
}.

Record AggregatedVote := { av_bits : BitVec.t; av_signature : BlsSignature }.

Record QuorumCertificate := { qc_data : FinalityVoteData; qc_aggregate : AggregatedVote }.

Record VoteAttestation := {
  va_vote_signature : BlsSignature;
  va_validator_index : N;
  va_vote : FinalityVoteData;
  va_proof_hashes : list Hash;
  va_unlock_quorum : option QuorumCertificate;
  va_signature : BlsSignature;
}.

Record FinalityVote := {
  fv_bits : BitVec.t;
  fv_data : FinalityVoteData;
  fv_signature : BlsSignature;
  fv_attestations : list VoteAttestation;
}.

Record IndexedVote := { iv_data : FinalityVoteData; iv_signature : BlsSignature }.

Record NilVoteData := { nd_chunk_id : N; nd_round : N; nd_phase : FinalityVotePhase }.

Record NilVoteAttestation := {
  na_validator_index : N;
  na_vote : NilVoteData;
  na_vote_signature : BlsSignature;
  na_signature : BlsSignature;
}.

Record NilVote := {
  nv_data : NilVoteData;
  nv_bits : BitVec.t;
  nv_signature : BlsSignature;
  nv_attestations : list NilVoteAttestation;
}.

Record IndexedNilVote := { inv_data : NilVoteData; inv_signature : BlsSignature }.

Record RoundChange := {
  rc_chunk_id : N;
  rc_round : N;
  rc_validator_index : N;
  rc_highest_quorum : option QuorumCertificate;
  rc_signature : BlsSignature;
}.

Record RoundChangeCertificate := {
  rcc_chunk_id : N;
  rcc_round : N;
  rcc_reports : list RoundChange;
}.

Record BftProposal := {
  bp_chunk : Chunk;
  bp_round : N;
  bp_proposer_index : N;
  bp_valid_quorum : option QuorumCertificate;
  bp_round_change_certificate : option RoundChangeCertificate;
  bp_signature : BlsSignature;
}.

Record FinalityCert := {
  fc_proposal : BftProposal;
  fc_prevote_attestations : list VoteAttestation;
  fc_precommit_attestations : list VoteAttestation;
  fc_chunk_id : N;
  fc_round : N;
  fc_chunk_hash : Hash;
  fc_prevote : AggregatedVote;
  fc_precommit : AggregatedVote;
  fc_active_validator_set_root : Hash;
}.

#[export] Instance FinalityVotePhase_eq_dec : EqDecision FinalityVotePhase.
Proof. solve_decision. Defined.
#[export] Instance Chunk_eq_dec : EqDecision Chunk.
Proof. solve_decision. Defined.
#[export] Instance FinalityVoteData_eq_dec : EqDecision FinalityVoteData.
Proof. solve_decision. Defined.
#[export] Instance AggregatedVote_eq_dec : EqDecision AggregatedVote.
Proof. solve_decision. Defined.
#[export] Instance QuorumCertificate_eq_dec : EqDecision QuorumCertificate.
Proof. solve_decision. Defined.
#[export] Instance NilVoteData_eq_dec : EqDecision NilVoteData.
Proof. solve_decision. Defined.
#[export] Instance RoundChange_eq_dec : EqDecision RoundChange.
Proof. solve_decision. Defined.
#[export] Instance RoundChangeCertificate_eq_dec : EqDecision RoundChangeCertificate.
Proof. solve_decision. Defined.
#[export] Instance BftProposal_eq_dec : EqDecision BftProposal.
Proof. solve_decision. Defined.

(** ** Encodings *)

(** The Borsh encodings of everything consensus signs or hashes. *)
Class ConsensusCodec := {
  #[global] codec_vote :: Borsh FinalityVoteData;
  #[global] codec_attestation ::
    Borsh (N * FinalityVoteData * BlsSignature * list Hash * option QuorumCertificate);
  #[global] codec_nil :: Borsh NilVoteData;
  #[global] codec_nil_attestation :: Borsh (N * NilVoteData * BlsSignature);
  #[global] codec_round_change :: Borsh (N * N * N * option QuorumCertificate);
  #[global] codec_proposal ::
    Borsh (Chunk * N * N * option QuorumCertificate * option RoundChangeCertificate);
  #[global] codec_chunk :: Borsh Chunk;
  #[global] codec_validators :: Borsh (list Validator);
}.

(** Decoding inverts encoding, for each of them. *)
Class ConsensusCodecLaws `{ConsensusCodec} : Prop := {
  #[global] codec_vote_laws :: BorshLaws FinalityVoteData;
  #[global] codec_attestation_laws ::
    BorshLaws (N * FinalityVoteData * BlsSignature * list Hash * option QuorumCertificate);
  #[global] codec_nil_laws :: BorshLaws NilVoteData;
  #[global] codec_nil_attestation_laws :: BorshLaws (N * NilVoteData * BlsSignature);
  #[global] codec_round_change_laws :: BorshLaws (N * N * N * option QuorumCertificate);
  #[global] codec_proposal_laws ::
    BorshLaws (Chunk * N * N * option QuorumCertificate * option RoundChangeCertificate);
  #[global] codec_chunk_laws :: BorshLaws Chunk;
  #[global] codec_validators_laws :: BorshLaws (list Validator);
}.

Section votes.
Context `{Blake3} `{ConsensusCodec}.

Definition Chunk_hash (c : Chunk) : Hash := blake3_256 (borsh_to_vec c).

Definition phase_tag (p : FinalityVotePhase) : DomainTag :=
  match p with Prevote => DOMAIN_PREVOTE | Precommit => DOMAIN_PRECOMMIT end.

Definition vote_message (d : ConsensusDomain) (v : FinalityVoteData) : bytes :=
  signing_message_borsh d (phase_tag (v_phase v)) v.

Definition attestation_message (d : ConsensusDomain) (a : VoteAttestation) : bytes :=
  signing_message_borsh d DOMAIN_VOTE_ATTESTATION
    (va_validator_index a, va_vote a, va_vote_signature a, va_proof_hashes a, va_unlock_quorum a).

Definition nil_message (d : ConsensusDomain) (v : NilVoteData) : bytes :=
  signing_message_borsh d DOMAIN_BFT_NIL v.

Definition nil_attestation_message (d : ConsensusDomain) (a : NilVoteAttestation) : bytes :=
  signing_message_borsh d DOMAIN_BFT_NIL_ATTESTATION
    (na_validator_index a, na_vote a, na_vote_signature a).

Definition round_change_message (d : ConsensusDomain) (r : RoundChange) : bytes :=
  signing_message_borsh d DOMAIN_BFT_ROUND_CHANGE
    (rc_chunk_id r, rc_round r, rc_validator_index r, rc_highest_quorum r).

Definition proposal_message (d : ConsensusDomain) (p : BftProposal) : bytes :=
  signing_message_borsh d DOMAIN_BFT_PROPOSAL
    (bp_chunk p, bp_round p, bp_proposer_index p, bp_valid_quorum p, bp_round_change_certificate p).

(** ** Signer coverage *)

(** The body of the claim loop of [attestation_coverage_valid]. *)
Fixpoint coverage_loop (vote : FinalityVoteData) (bits : BitVec.t) (block_count : N)
    (seen : list N) (claims : list VoteAttestation) : option (list N) :=
  match claims with
  | [] => Some seen
  | claim :: claims =>
      if negb (bool_decide (va_vote claim = vote))
         || negb (bool_decide (BitVec.get bits (va_validator_index claim) = Some true))
         || bool_decide (va_validator_index claim ∈ seen)
         || match v_phase vote with
            | Prevote => negb (bool_decide (va_proof_hashes claim = []))
            | Precommit => negb (bool_decide (try_from U64_MAX (len (va_proof_hashes claim)) = Some block_count))
            end
      then None
      else coverage_loop vote bits block_count (va_validator_index claim :: seen) claims
  end.

(** The indices below [bit_len] whose bit is set, as the counting filter enumerates them. *)
Definition set_bits (bits : BitVec.t) : list N :=
  filter (fun i => BitVec.get bits i = Some true) (range (BitVec.bit_len bits)).

Definition attestation_coverage_valid (vote : FinalityVoteData) (bits : BitVec.t)
    (claims : list VoteAttestation) (block_count : N) : bool :=
  if (block_count =? 0) || bool_decide (claims = []) then false
  else
    match coverage_loop vote bits block_count [] claims with
    | None => false
    | Some seen => (length (set_bits bits) =? length seen)%nat
    end.

Definition indexed_vote (a : VoteAttestation) : IndexedVote :=
  {| iv_data := va_vote a; iv_signature := va_vote_signature a |}.

Definition cert_vote_data (c : FinalityCert) (phase : FinalityVotePhase) : FinalityVoteData :=
  {| v_chunk_id := fc_chunk_id c; v_round := fc_round c; v_chunk_hash := fc_chunk_hash c;
     v_phase := phase |}.

Definition cert_vote (c : FinalityCert) (phase : FinalityVotePhase) : FinalityVote :=
  let '(aggregate, attestations) :=
    match phase with
    | Prevote => (fc_prevote c, fc_prevote_attestations c)
    | Precommit => (fc_precommit c, fc_precommit_attestations c)
    end in
  {| fv_data := cert_vote_data c phase; fv_bits := av_bits aggregate;
     fv_signature := av_signature aggregate; fv_attestations := attestations |}.

(** ** Highest carried quorum *)

(** The key of [max_by_key]: [(round, chunk_hash)], lexicographic. *)
Definition qc_cmp (a b : QuorumCertificate) : comparison :=
  then_with (v_round (qc_data a) ?= v_round (qc_data b))
    (bytes_cmp (v_chunk_hash (qc_data a)) (v_chunk_hash (qc_data b))).

(** [Iterator::max_by_key]: of equal keys the last one wins. *)
Definition max_step (best : option QuorumCertificate) (q : QuorumCertificate) :
    option QuorumCertificate :=
  match best with
  | None => Some q
  | Some b => match qc_cmp q b with Lt => Some b | _ => Some q end
  end.

Definition highest_quorum (c : RoundChangeCertificate) : option QuorumCertificate :=
  foldl max_step None (omap rc_highest_quorum (rcc_reports c)).

(** ** Leaders *)

Definition eligible (v : Validator) : bool := negb (slashed v) && (0 <? effective_stake v).

(** The eligible indices in order; [None] when one does not fit a [u32]. *)
Fixpoint eligible_indices (index : N) (validators : list Validator) : option (list N) :=
  match validators with
  | [] => Some []
  | v :: validators =>
      if eligible v then
        i ← try_from U32_MAX index;
        rest ← eligible_indices (index + 1) validators;
        Some (i :: rest)
      else eligible_indices (index + 1) validators
  end.

Definition leader_offset (chain_id chunk_id : N) (root : Hash) : N :=
  let leader_input := DOMAIN_BFT_PROPOSAL ++ to_le_bytes 8 chain_id ++ to_le_bytes 8 chunk_id ++ root in
  from_le_bytes (take 8 (blake3_256 leader_input)).

Definition bft_leader_with_root (chain_id chunk_id round : N) (validators : list Validator)
    (root : Hash) : option N :=
  eligible ← eligible_indices 0 validators;
  count ← try_from U64_MAX (len eligible);
  if count =? 0 then None
  else
    let offset := leader_offset chain_id chunk_id root mod count in
    let index := (offset + round) mod count in
    eligible !! N.to_nat index.

Definition bft_leader (chain_id chunk_id round : N) (validators : list Validator) : option N :=
  bft_leader_with_root chain_id chunk_id round validators (blake3_256 (borsh_to_vec validators)).

End votes.

(* ------------------------------------------------------------------ *)
(** ** Coverage is exact *)

(** What each claim of a covered aggregate satisfies. *)
Definition claim_ok (vote : FinalityVoteData) (bits : BitVec.t) (block_count : N)
    (claim : VoteAttestation) : Prop :=
  va_vote claim = vote /\ BitVec.get bits (va_validator_index claim) = Some true
  /\ match v_phase vote with
     | Prevote => va_proof_hashes claim = []
     | Precommit => len (va_proof_hashes claim) = block_count
     end.

Lemma coverage_loop_Some vote bits bc seen claims seen' :
  coverage_loop vote bits bc seen claims = Some seen' ->
  seen' = reverse (map va_validator_index claims) ++ seen
  /\ Forall (claim_ok vote bits bc) claims
  /\ NoDup (map va_validator_index claims)
  /\ forall c, c ∈ claims -> va_validator_index c ∉ seen.
Proof.
  revert seen; induction claims as [|c claims IH]; intros seen; cbn [coverage_loop].
  { intros [= <-]. split_and!; try constructor. intros c Hc. by apply not_elem_of_nil in Hc. }
  destruct (_ || _) eqn:Hbad; [done|]. intros Hrest. apply IH in Hrest as (-> & Hall & Hnd & Hfresh).
  rewrite !orb_false_iff, !negb_false_iff, !bool_decide_eq_true, bool_decide_eq_false in Hbad.
  destruct Hbad as [[[Hvote Hbit] Hseen] Hproofs]. cbn [map]. rewrite reverse_cons, <- app_assoc.
  split; [done|]. split_and!.
  - constructor; [|done]. split; [done|]. split; [done|].
    destruct (v_phase vote); apply negb_false_iff, bool_decide_eq_true in Hproofs; [done|].
    by apply try_from_Some in Hproofs as [-> _].
  - constructor; [|done]. intros (d & Heq & Hd)%list_elem_of_fmap.
    apply (Hfresh d Hd). rewrite <- Heq. apply list_elem_of_here.
  - intros d [->|Hd]%elem_of_cons; [done|]. specialize (Hfresh d Hd). set_solver.
Qed.

Lemma elem_of_set_bits bits i : i ∈ set_bits bits <-> BitVec.get bits i = Some true.
Proof.
  unfold set_bits. rewrite list_elem_of_filter, elem_of_range. split; [by intros [? _]|].
  intros Hi. split; [done|]. unfold BitVec.get in Hi.
  destruct (N.leb_spec (BitVec.bit_len bits) i); [done|lia].
Qed.

Lemma NoDup_set_bits bits : NoDup (set_bits bits).
Proof. apply NoDup_filter, NoDup_range. Qed.

(** Two duplicate-free lists, one inside the other and as long, are permutations. *)
Lemma NoDup_cover {A} (l k : list A) :
  NoDup l -> (forall x, x ∈ l -> x ∈ k) -> length k = length l -> l ≡ₚ k.
Proof.
  intros Hnd Hsub Hlen. apply submseteq_length_Permutation; [by apply NoDup_submseteq|lia].
Qed.

Lemma coverage_exact vote bits claims bc :
  attestation_coverage_valid vote bits claims bc = true ->
  claims <> [] /\ Forall (claim_ok vote bits bc) claims
  /\ map va_validator_index claims ≡ₚ set_bits bits.
Proof.
  unfold attestation_coverage_valid. destruct (_ || _) eqn:Hne; [done|].
  apply orb_false_iff in Hne as [_ Hne%bool_decide_eq_false].
  destruct (coverage_loop _ _ _ _ _) as [seen|] eqn:Hloop; [|done]. intros Hlen%Nat.eqb_eq.
  apply coverage_loop_Some in Hloop as (-> & Hall & Hnd & _).
  rewrite app_nil_r, length_reverse in Hlen. split; [done|]. split; [done|].
  apply NoDup_cover; [done| |done]. intros i (c & -> & Hc)%list_elem_of_fmap.
  apply elem_of_set_bits. rewrite Forall_forall in Hall. by destruct (Hall c Hc) as (_ & ? & _).
Qed.

Lemma coverage_positive vote bits claims bc : attestation_coverage_valid vote bits claims bc = true -> bc <> 0.
Proof. unfold attestation_coverage_valid. by destruct (N.eqb_spec bc 0). Qed.

(** The loop accepts fresh claims that fit the vote. *)
Lemma coverage_loop_accepts vote bits bc seen claims : bc <= U64_MAX ->
  Forall (claim_ok vote bits bc) claims -> NoDup (map va_validator_index claims) ->
  (forall c, c ∈ claims -> va_validator_index c ∉ seen) ->
  coverage_loop vote bits bc seen claims = Some (reverse (map va_validator_index claims) ++ seen).
Proof.
  intros Hbc Hall. revert seen. induction Hall as [|c claims (Hv & Hb & Hp) Hall IH]; intros seen Hnd Hfresh; [done|].
  cbn [map] in *. apply NoDup_cons in Hnd as [Hc Hnd]. cbn [coverage_loop].
  rewrite (bool_decide_true _ Hv), (bool_decide_true _ Hb), bool_decide_false by (apply Hfresh; by left). cbn [negb orb].
  assert (match v_phase vote with
          | Prevote => negb (bool_decide (va_proof_hashes c = []))
          | Precommit => negb (bool_decide (try_from U64_MAX (len (va_proof_hashes c)) = Some bc))
          end = false) as ->.
  { destruct (v_phase vote); apply negb_false_iff, bool_decide_eq_true; [done|]. apply try_from_Some. by rewrite Hp. }
  rewrite IH; [by rewrite reverse_cons, <- app_assoc|done|]. intros c' Hc' [Heq|Hin]%elem_of_cons.
  - apply Hc. rewrite <- Heq. by apply list_elem_of_fmap_2.
  - by apply (Hfresh c'); [right|].
Qed.

Lemma coverage_accepts vote bits claims bc : bc <= U64_MAX -> bc <> 0 -> claims <> [] ->
  Forall (claim_ok vote bits bc) claims -> NoDup (map va_validator_index claims) ->
  (forall i, BitVec.get bits i = Some true <-> exists c, c ∈ claims /\ va_validator_index c = i) ->
  attestation_coverage_valid vote bits claims bc = true.
Proof.
  intros Hbc Hpos Hne Hall Hnd Hbits. unfold attestation_coverage_valid.
  rewrite (proj2 (N.eqb_neq bc 0) Hpos), bool_decide_false by done. cbn [orb].
  rewrite coverage_loop_accepts by (done || by intros c _ ?%not_elem_of_nil). apply Nat.eqb_eq.
  rewrite app_nil_r, length_reverse. apply Permutation_length, NoDup_Permutation; [apply NoDup_set_bits|done|].
  intros i. rewrite elem_of_set_bits, Hbits, list_elem_of_fmap. naive_solver.
Qed.

(* ------------------------------------------------------------------ *)
(** ** The highest quorum *)

Lemma qc_cmp_antisym a b : qc_cmp b a = CompOpp (qc_cmp a b).
Proof.
  unfold qc_cmp. rewrite then_with_antisym, <- N.compare_antisym, <- bytes_cmp_antisym. done.
Qed.

Lemma qc_cmp_refl a : qc_cmp a a = Eq.
Proof. unfold qc_cmp. by rewrite N.compare_refl, bytes_cmp_refl. Qed.

Lemma qc_cmp_le_trans a b c : qc_cmp a b <> Gt -> qc_cmp b c <> Gt -> qc_cmp a c <> Gt.
Proof.
  unfold qc_cmp. intros Hab Hbc.
  destruct (N.compare_spec (v_round (qc_data a)) (v_round (qc_data b))),
    (N.compare_spec (v_round (qc_data b)) (v_round (qc_data c))),
    (N.compare_spec (v_round (qc_data a)) (v_round (qc_data c))); simpl in *; try done; try lia.
  destruct (bytes_cmp (v_chunk_hash (qc_data a)) (v_chunk_hash (qc_data b))) eqn:E1; [| |done].
  - apply bytes_cmp_eq in E1 as ->. done.
  - destruct (bytes_cmp (v_chunk_hash (qc_data b)) (v_chunk_hash (qc_data c))) eqn:E2; [| |done].
    + apply bytes_cmp_eq in E2 as <-. by rewrite E1.
    + by rewrite (bytes_cmp_trans Lt _ _ _ E1 E2).
Qed.

Lemma max_step_Some best x :
  exists m, max_step best x = Some m /\ (m = x \/ best = Some m)
    /\ qc_cmp x m <> Gt /\ forall b, best = Some b -> qc_cmp b m <> Gt.
Proof.
  destruct best as [b|]; simpl.
  - pose proof (qc_cmp_antisym x b) as Hanti. pose proof (qc_cmp_refl x). pose proof (qc_cmp_refl b).
    destruct (qc_cmp x b) eqn:Hxb; simpl in Hanti;
      eexists; (split; [reflexivity|]); split_and!;
      try (by left); try (by right); try congruence; intros ? [= <-]; congruence.
  - exists x. split_and!; [done|by left|by rewrite qc_cmp_refl|done].
Qed.

Lemma max_step_spec l best :
  match foldl max_step best l with
  | None => best = None /\ l = []
  | Some q => (best = Some q \/ q ∈ l)
      /\ (forall b, best = Some b -> qc_cmp b q <> Gt) /\ (forall x, x ∈ l -> qc_cmp x q <> Gt)
  end.
Proof.
  revert best; induction l as [|x l IH]; intros best; cbn [foldl].
  { destruct best as [b|]; [|done]. split; [by left|]. split.
    - intros ? [= <-]. by rewrite qc_cmp_refl.
    - intros x Hx. by apply not_elem_of_nil in Hx. }
  destruct (max_step_Some best x) as (m & Hm & Hor & Hx & Hb). specialize (IH (max_step best x)).
  rewrite Hm in *. destruct (foldl _ _ _) as [q|]; [|by destruct IH].
  destruct IH as (Hin & Hbest & Hl). specialize (Hbest m eq_refl). split_and!.
  - destruct Hin as [[= ->]|?]; [|right; by apply list_elem_of_further].
    destruct Hor as [->|?]; [right; apply list_elem_of_here|by left].
  - intros b ->. apply (qc_cmp_le_trans _ m); [by apply Hb|done].
  - intros y [->|Hy]%elem_of_cons; [by apply (qc_cmp_le_trans _ m)|by apply Hl].
Qed.

Lemma highest_quorum_max c q :
  highest_quorum c = Some q ->
  (exists r, r ∈ rcc_reports c /\ rc_highest_quorum r = Some q)
  /\ forall r q', r ∈ rcc_reports c -> rc_highest_quorum r = Some q' -> qc_cmp q' q <> Gt.
Proof.
  unfold highest_quorum. intros Hq.
  pose proof (max_step_spec (omap rc_highest_quorum (rcc_reports c)) None) as Hspec.
  rewrite Hq in Hspec. destruct Hspec as ([?|Hin] & _ & Hmax); [done|]. split.
  - apply list_elem_of_omap in Hin as (r & ? & ?). eauto.
  - intros r q' Hr Hq'. apply Hmax, list_elem_of_omap. eauto.
Qed.

Lemma highest_quorum_None c :
  highest_quorum c = None -> forall r, r ∈ rcc_reports c -> rc_highest_quorum r = None.
Proof.
  unfold highest_quorum. intros Hq r Hr.
  pose proof (max_step_spec (omap rc_highest_quorum (rcc_reports c)) None) as Hspec.
  rewrite Hq in Hspec. destruct Hspec as [_ Hnil].
  destruct (rc_highest_quorum r) as [q|] eqn:Hrq; [|done].
  assert (q ∈ omap rc_highest_quorum (rcc_reports c)) as Hin by (apply list_elem_of_omap; eauto).
  rewrite Hnil in Hin. by apply not_elem_of_nil in Hin.
Qed.

(* ------------------------------------------------------------------ *)
(** ** Leaders *)

Lemma eligible_indices_spec index vs l :
  eligible_indices index vs = Some l ->
  NoDup l /\ (forall i, i ∈ l <-> exists v, index <= i /\ vs !! N.to_nat (i - index) = Some v
                                /\ eligible v = true).
Proof.
  revert index l; induction vs as [|v vs IH]; intros index l; cbn [eligible_indices].
  { intros [= <-]. split; [constructor|]. intros i. split; [intros Hi; by apply not_elem_of_nil in Hi|].
    intros (w & _ & Hw & _). by rewrite lookup_nil in Hw. }
  assert (forall i w, (index <= i /\ (v :: vs) !! N.to_nat (i - index) = Some w /\ eligible w = true)
    <-> (i = index /\ w = v /\ eligible v = true)
        \/ (index + 1 <= i /\ vs !! N.to_nat (i - (index + 1)) = Some w /\ eligible w = true)) as Hcons.
  { intros i w. destruct (decide (i <= index)).
    - split; [intros (? & Hw & ?)|intros [(-> & -> & ?)|(? & _)]; [|lia]].
      + replace (N.to_nat (i - index)) with 0%nat in Hw by lia. injection Hw as ->.
        left. split; [lia|done].
      + by rewrite N.sub_diag.
    - replace (N.to_nat (i - index)) with (S (N.to_nat (i - (index + 1)))) by lia. simpl.
      split; [intros (? & ? & ?)|intros [(? & _)|(? & ? & ?)]]; [right|lia|]; split_and!; done || lia. }
  destruct (eligible v) eqn:Hv.
  - intros (i & [-> _]%try_from_Some & Hrest)%bind_Some.
    apply bind_Some in Hrest as (rest & Hrest & [= <-]). apply IH in Hrest as [Hnd Hiff]. split.
    + constructor; [|done]. intros (w & ? & _)%Hiff. lia.
    + intros i. rewrite elem_of_cons, Hiff. setoid_rewrite Hcons. naive_solver.
  - intros Hrest%IH. destruct Hrest as [Hnd Hiff]. split; [done|].
    intros i. rewrite Hiff. setoid_rewrite Hcons. naive_solver.
Qed.

(** Any [n] consecutive numbers hit every residue modulo [n] exactly once. *)
Lemma residue_once n start r :
  r < n -> exists! k, k < n /\ (start + k) mod n = r.
Proof.
  intros Hr. assert (n <> 0) as Hn by lia.
  exists ((r + (n - start mod n)) mod n). split.
  - split; [by apply N.mod_lt|]. rewrite N.Div0.add_mod_idemp_r.
    pose proof (N.mod_lt start n Hn). pose proof (N.div_mod start n Hn).
    replace (start + (r + (n - start mod n))) with (r + (start / n + 1) * n) by nia.
    by rewrite N.Div0.mod_add, N.mod_small.
  - intros k [Hk Heq]. subst r.
    pose proof (N.mod_lt start n Hn) as Hs. pose proof (N.mod_lt (start + k) n Hn) as Hsk.
    pose proof (N.Div0.add_mod_idemp_l start k n) as Hidem. set (s := start mod n) in *.
    rewrite <- Hidem.
    destruct (decide (s + k < n)) as [Hlt|Hge].
    + rewrite (N.mod_small (s + k)) by done.
      replace (s + k + (n - s)) with (k + 1 * n) by lia. by rewrite N.Div0.mod_add, N.mod_small.
    + assert ((s + k) mod n = s + k - n) as ->
        by (symmetry; apply (N.mod_unique _ _ 1); lia).
      replace (s + k - n + (n - s)) with k by lia. by apply N.mod_small.
Qed.

Lemma eligible_indices_total index vs :
  index + len vs <= U32_MAX + 1 ->
  exists l, eligible_indices index vs = Some l
    /\ length l = length (filter (fun v => eligible v = true) vs).
Proof.
  revert index; induction vs as [|v vs IH]; intros index Hle; cbn [eligible_indices].
  { by exists []. }
  rewrite len_cons in Hle. destruct (IH (index + 1)) as (l & Hl & Hlen); [lia|].
  rewrite filter_cons. destruct (eligible v).
  - exists (index :: l). rewrite decide_True by done. simpl. rewrite Hl, Hlen.
    rewrite (proj2 (try_from_Some U32_MAX index index)); [done|]. split; [done|lia].
  - exists l. by rewrite decide_False by done.
Qed.

(** The number of validators a cycle of rounds rotates through. *)
Definition cycle_length (validators : list Validator) : N :=
  len (filter (fun v => eligible v = true) validators).

Section leader_facts.
Context `{Blake3}.

Lemma bft_leader_lookup chain chunk round vs root l :
  eligible_indices 0 vs = Some l -> l <> [] -> len l <= U64_MAX ->
  bft_leader_with_root chain chunk round vs root
  = l !! N.to_nat ((leader_offset chain chunk root + round) mod len l).
Proof.
  intros Hl Hne Hlen. unfold bft_leader_with_root. rewrite Hl. cbn [mbind option_bind].
  rewrite (proj2 (try_from_Some U64_MAX (len l) (len l))) by done. cbn [mbind option_bind].
  assert (len l <> 0) as Hz by (destruct l; [done|rewrite len_cons; lia]).
  apply N.eqb_neq in Hz as ->. by rewrite N.Div0.add_mod_idemp_l.
Qed.

Lemma bft_leader_cycle chain chunk start vs root i v :
  len vs <= U32_MAX + 1 -> vs !! N.to_nat i = Some v -> eligible v = true ->
  exists! k, k < cycle_length vs
    /\ bft_leader_with_root chain chunk (start + k) vs root = Some i.
Proof.
  intros Hlen Hv Hel. destruct (eligible_indices_total 0 vs) as (l & Hl & Hcount); [lia|].
  pose proof (eligible_indices_spec _ _ _ Hl) as [Hnd Hiff].
  assert (i ∈ l) as Hi by (apply Hiff; exists v; rewrite N.sub_0_r; split_and!; done || lia).
  apply list_elem_of_lookup in Hi as [p Hp]. pose proof (lookup_lt_Some _ _ _ Hp) as Hplt.
  assert (cycle_length vs = len l) as -> by (unfold cycle_length, len; by rewrite Hcount).
  assert (l <> []) as Hne by (by intros ->).
  assert (len l <= U64_MAX) as Hl64.
  { unfold len in *. rewrite Hcount. pose proof (length_filter (fun v => eligible v = true) vs).
    unfold U32_MAX, U64_MAX in *. lia. }
  destruct (residue_once (len l) (leader_offset chain chunk root + start) (N.of_nat p))
    as (k & [Hk Hmod] & Huniq); [unfold len; lia|].
  exists k. split.
  - split; [done|]. rewrite (bft_leader_lookup _ _ _ _ _ l) by done.
    by rewrite N.add_assoc, Hmod, Nat2N.id.
  - intros k' [Hk' Hlead]. apply Huniq. split; [done|].
    rewrite (bft_leader_lookup _ _ _ _ _ l), N.add_assoc in Hlead by done.
    pose proof (NoDup_lookup _ _ _ _ Hnd Hlead Hp) as Hpos. lia.
Qed.

Lemma bft_leader_eligible chain chunk round vs root i :
  bft_leader_with_root chain chunk round vs root = Some i ->
  exists v, vs !! N.to_nat i = Some v /\ eligible v = true.
Proof.
  intros (l & Hl & Hrest)%bind_Some. apply bind_Some in Hrest as (count & _ & Hrest).
  destruct (count =? 0); [done|]. apply list_elem_of_lookup_2 in Hrest.
  apply (proj2 (eligible_indices_spec _ _ _ Hl)) in Hrest as (v & _ & Hv & Hel).
  rewrite N.sub_0_r in Hv. eauto.
Qed.

End leader_facts.

(* ------------------------------------------------------------------ *)
(** ** Concrete codecs, for witnesses *)

#[export] Instance FinalityVotePhase_codec : Codec FinalityVotePhase.
Proof.
  refine (via_codec (fun p => match p with Prevote => true | Precommit => false end)
    (fun b : bool => if b then Prevote else Precommit) _). by intros [].
Defined.

#[export] Instance BitVec_t_codec : Codec BitVec.t.
Proof.
  refine (via_codec (fun r => (BitVec.bit_len r, BitVec.vec r))
    (fun '(x0, x1) => {| BitVec.bit_len := x0; BitVec.vec := x1 |}) _).
  by intros [].
Defined.

#[export] Instance FinalityVoteData_codec : Codec FinalityVoteData.
Proof.
  refine (via_codec (fun r => (v_chunk_id r, v_round r, v_chunk_hash r, v_phase r))
    (fun '(x0, x1, x2, x3) => {| v_chunk_id := x0; v_round := x1; v_chunk_hash := x2; v_phase := x3 |}) _).
  by intros [].
Defined.

#[export] Instance AggregatedVote_codec : Codec AggregatedVote.
Proof.
  refine (via_codec (fun r => (av_bits r, av_signature r))
    (fun '(x0, x1) => {| av_bits := x0; av_signature := x1 |}) _).
  by intros [].
Defined.

#[export] Instance QuorumCertificate_codec : Codec QuorumCertificate.
Proof.
  refine (via_codec (fun r => (qc_data r, qc_aggregate r))
    (fun '(x0, x1) => {| qc_data := x0; qc_aggregate := x1 |}) _).
  by intros [].
Defined.

#[export] Instance NilVoteData_codec : Codec NilVoteData.
Proof.
  refine (via_codec (fun r => (nd_chunk_id r, nd_round r, nd_phase r))
    (fun '(x0, x1, x2) => {| nd_chunk_id := x0; nd_round := x1; nd_phase := x2 |}) _).
  by intros [].
Defined.

#[export] Instance RoundChange_codec : Codec RoundChange.
Proof.
  refine (via_codec (fun r => (rc_chunk_id r, rc_round r, rc_validator_index r, rc_highest_quorum r, rc_signature r))
    (fun '(x0, x1, x2, x3, x4) => {| rc_chunk_id := x0; rc_round := x1; rc_validator_index := x2; rc_highest_quorum := x3; rc_signature := x4 |}) _).
  by intros [].
Defined.

#[export] Instance RoundChangeCertificate_codec : Codec RoundChangeCertificate.
Proof.
  refine (via_codec (fun r => (rcc_chunk_id r, rcc_round r, rcc_reports r))
    (fun '(x0, x1, x2) => {| rcc_chunk_id := x0; rcc_round := x1; rcc_reports := x2 |}) _).
  by intros [].
Defined.

#[export] Instance Chunk_codec : Codec Chunk.
Proof.
  refine (via_codec (fun r => (ck_chunk_id r, ck_start_height r, ck_end_height r, ck_start_state_root r, ck_end_state_root r, ck_start_block_hash r, ck_end_block_hash r, ck_block_hash_root r, ck_block_proof_root r, ck_vrf_proof_root r, ck_active_validator_set_root r, ck_next_validator_set_root r, ck_da_root r))
    (fun '(x0, x1, x2, x3, x4, x5, x6, x7, x8, x9, x10, x11, x12) => {| ck_chunk_id := x0; ck_start_height := x1; ck_end_height := x2; ck_start_state_root := x3; ck_end_state_root := x4; ck_start_block_hash := x5; ck_end_block_hash := x6; ck_block_hash_root := x7; ck_block_proof_root := x8; ck_vrf_proof_root := x9; ck_active_validator_set_root := x10; ck_next_validator_set_root := x11; ck_da_root := x12 |}) _).
  by intros [].
Defined.

Definition sample_codec : ConsensusCodec := {|
  codec_vote := codec_borsh; codec_attestation := codec_borsh; codec_nil := codec_borsh;
  codec_nil_attestation := codec_borsh; codec_round_change := codec_borsh;
  codec_proposal := codec_borsh; codec_chunk := codec_borsh; codec_validators := codec_borsh;
|}.

Lemma sample_codec_laws : @ConsensusCodecLaws sample_codec.
Proof. split; apply codec_borsh_laws. Qed.

(* ------------------------------------------------------------------ *)
(** ** Properties *)

(** C37: coverage is exact: for a [u64] number of blocks the check accepts exactly
    when that number is positive, there is a claim, every claim is for this vote with the
    proof hashes of its phase (none for a prevote, one per block for a precommit), no
    two claims name one signer, and the claims and the set bits of the aggregate name
    the same signers, in whatever order. *)
Theorem attestation_coverage_exact (vote : FinalityVoteData) (bits : BitVec.t)
    (claims : list VoteAttestation) (block_count : N) :
  block_count <= U64_MAX ->
  attestation_coverage_valid vote bits claims block_count = true
  <-> block_count <> 0 /\ claims <> []
      /\ (forall c, c ∈ claims -> va_vote c = vote
            /\ match v_phase vote with
               | Prevote => va_proof_hashes c = []
               | Precommit => len (va_proof_hashes c) = block_count
               end)
      /\ NoDup (map va_validator_index claims)
      /\ forall i, BitVec.get bits i = Some true <-> exists c, c ∈ claims /\ va_validator_index c = i.
Proof.
  intros Hbc. split.
  - intros Hcov. pose proof (coverage_positive _ _ _ _ Hcov) as Hpos. destruct (coverage_exact _ _ _ _ Hcov) as (Hne & Hall & Hperm).
    rewrite Forall_forall in Hall. split_and!; [done..| | |].
    + intros c Hc. by destruct (Hall c Hc) as (? & _ & ?).
    + rewrite Hperm. apply NoDup_set_bits.
    + intros i. rewrite <- elem_of_set_bits, <- Hperm, list_elem_of_fmap. naive_solver.
  - intros (Hpos & Hne & Hall & Hnd & Hbits). apply coverage_accepts; [done..| |done|done].
    apply Forall_forall. intros c Hc. destruct (Hall c Hc) as [Hv Hp]. split; [done|]. split; [|done]. apply Hbits. by exists c.
Qed.

Lemma attestation_coverage_exact_witness :
  let vote := {| v_chunk_id := 0; v_round := 0; v_chunk_hash := ZERO_HASH; v_phase := Prevote |} in
  let claim i := {| va_vote_signature := []; va_validator_index := i; va_vote := vote;
                    va_proof_hashes := []; va_unlock_quorum := None; va_signature := [] |} in
  NoDup (map va_validator_index [claim 2; claim 0])
  /\ attestation_coverage_valid vote (BitVec.mk 3 [5]) [claim 0; claim 0] 128 = false.
Proof.
  intros vote claim. split.
  - assert (128 <= U64_MAX) as Hbc by (by vm_compute).
    apply (attestation_coverage_exact vote (BitVec.mk 3 [5]) [claim 2; claim 0] 128 Hbc). reflexivity.
  - reflexivity.
Defined.

(** Leadership is fair: with at most [2^32] validators, in every run of as
    many rounds as there are eligible validators each eligible validator leads
    exactly once, and nobody else ever leads. *)
Theorem bft_leader_fair `{Blake3} (chain chunk start : N) (vs : list Validator) (root : Hash) :
  len vs <= U32_MAX + 1 ->
  (forall i v, vs !! N.to_nat i = Some v -> eligible v = true ->
     exists! k, k < cycle_length vs
       /\ bft_leader_with_root chain chunk (start + k) vs root = Some i)
  /\ forall round i, bft_leader_with_root chain chunk round vs root = Some i ->
       exists v, vs !! N.to_nat i = Some v /\ slashed v = false /\ 0 < effective_stake v.
Proof.
  intros Hlen. split; [intros i v Hv Hel; by eapply bft_leader_cycle|].
  intros round i (v & Hv & Hel)%bft_leader_eligible. exists v. unfold eligible in Hel.
  rewrite andb_true_iff, negb_true_iff, N.ltb_lt in Hel. naive_solver.
Qed.

Lemma bft_leader_fair_witness :
  let v s := {| pubkey := []; withdrawal_credentials := []; effective_stake := s; slashed := false;
                activation_epoch := 0; exit_epoch := 9; last_active_chunk := 0 |} in
  exists! k, k < 2 /\ @bft_leader_with_root pad32 7 0 (5 + k) [v 3; v 0; v 4] ZERO_HASH = Some 2.
Proof.
  intros v. destruct (@bft_leader_fair pad32 7 0 5 [v 3; v 0; v 4] ZERO_HASH) as [Hfair _];
    [by vm_compute|].
  exact (Hfair 2 (v 4) eq_refl eq_refl).
Defined.
