(* ===== verification/Finality.v ===== *)
(** * crates/prover-chunk: certificate and evidence verification

    The checks the chunk guest and the engine share ([finality.rs],
    [slashing.rs], [bft.rs]): weighted quorums, vote envelopes, proposals,
    round-change certificates, finality certificates and the objective offences.
    The signature verifier is an interface ([bls.rs], trait [Verifier]); the cache of
    already verified quorums is threaded as explicit state. *)

From S2P Require Import Prelude External Primitives Votes.

(** The [Verifier] trait: a signature and a same-message aggregate verdict.  The
    caching implementations return the earlier verdict of a repeated request,
    so a verdict is a function of the request. *)
Class Verifier := {
  verifier_verify : BlsPublicKey -> bytes -> BlsSignature -> bool;
  verifier_aggregate : list BlsPublicKey -> bytes -> BlsSignature -> bool;
}.

Inductive FinalityError := FinTarget | FinMembership | FinQuorum | FinSignature.
Inductive EvidenceError := EvBinding | EvSignature | EvQuorum | EvHonestUnlock.

Record LockEvidence := { locked_prevote_quorum : QuorumCertificate; attestation : VoteAttestation }.

(** A quorum fraction [(numerator, denominator)]. *)
Abbreviation Fraction := (N * N)%type (only parsing).

(** [VerifiedQuorums]: the quorums verified so far under one fraction. *)
Record VerifiedQuorums := { vq_fraction : Fraction; vq_verified : list QuorumCertificate }.

Definition VerifiedQuorums_new (fraction : Fraction) : VerifiedQuorums :=
  {| vq_fraction := fraction; vq_verified := [] |}.

Definition is_active (v : Validator) : bool := negb (slashed v) && (0 <? effective_stake v).

Definition active_stake_total (validators : list Validator) : option N :=
  let total := sum_by effective_stake (filter (fun v => slashed v = false) validators) in
  total ← try_from U64_MAX total;
  if 0 <? total then Some total else None.

(** The loop of [signers] from [index] on, with the keys and stake so far. *)
Fixpoint signers_loop (index : N) (validators : list Validator) (bits : BitVec.t)
    (keys : list BlsPublicKey) (stake : N) : option (list BlsPublicKey * N) :=
  match validators with
  | [] => Some (keys, stake)
  | v :: validators =>
      i ← try_from U32_MAX index;
      if bool_decide (BitVec.get bits i = Some true) then
        if negb (is_active v) then None
        else signers_loop (index + 1) validators bits (keys ++ [pubkey v]) (stake + effective_stake v)
      else signers_loop (index + 1) validators bits keys stake
  end.

Definition signers (validators : list Validator) (bits : BitVec.t) :
    option (list BlsPublicKey * N) := signers_loop 0 validators bits [] 0.

Definition prevote_fraction (p : ConsensusParams) : Fraction :=
  (bft_prevote_quorum_numerator p, bft_prevote_quorum_denominator p).
Definition precommit_fraction (p : ConsensusParams) : Fraction :=
  (bft_precommit_quorum_numerator p, bft_precommit_quorum_denominator p).

Section verification.
Context `{Blake3} `{ConsensusCodec} `{Verifier}.

(** [commitment] at the validator list: the canonical set root. *)
Definition validators_commitment (validators : list Validator) : Hash :=
  blake3_256 (borsh_to_vec validators).

(** ** Signed statements *)

Definition verify_indexed_vote_using (domain : ConsensusDomain) (validators : list Validator)
    (index : N) (vote : IndexedVote) : result EvidenceError unit :=
  key ← ok_or (validators !! N.to_nat index) EvBinding;
  ensure (verifier_verify (pubkey key) (vote_message domain (iv_data vote)) (iv_signature vote))
    EvSignature.

Definition verify_attestation_with (domain : ConsensusDomain) (validators : list Validator)
    (index : N) (vote : FinalityVoteData) (message : bytes) (a : VoteAttestation) :
    result EvidenceError unit :=
  _ ← ensure ((va_validator_index a =? index) && bool_decide (va_vote a = vote)) EvBinding;
  key ← ok_or (validators !! N.to_nat index) EvBinding;
  _ ← ensure (verifier_verify (pubkey key) message (va_vote_signature a)) EvSignature;
  ensure (verifier_verify (pubkey key) (attestation_message domain a) (va_signature a)) EvSignature.

Definition verify_attestation_using (domain : ConsensusDomain) (validators : list Validator)
    (index : N) (vote : FinalityVoteData) (a : VoteAttestation) : result EvidenceError unit :=
  verify_attestation_with domain validators index vote (vote_message domain vote) a.

(** ** Quorum certificates *)

Definition verify_quorum_using (domain : ConsensusDomain) (validators : list Validator)
    (quorum : QuorumCertificate) (fraction : Fraction) : result EvidenceError unit :=
  let '(numerator, denominator) := fraction in
  _ ← ensure (bool_decide (v_phase (qc_data quorum) = Prevote)
              && quorum_fraction_valid numerator denominator
              && (BitVec.bit_len (av_bits (qc_aggregate quorum)) =? len validators)) EvQuorum;
  '(keys, signed) ← ok_or (signers validators (av_bits (qc_aggregate quorum))) EvQuorum;
  signed ← ok_or (try_from U64_MAX signed) EvQuorum;
  total ← ok_or (active_stake_total validators) EvQuorum;
  _ ← ensure (quorum_reached signed total numerator denominator) EvQuorum;
  ensure (verifier_aggregate keys (vote_message domain (qc_data quorum))
            (av_signature (qc_aggregate quorum))) EvSignature.

(** Verification through the cache, which the result carries on. *)
Definition verify_quorum_with (domain : ConsensusDomain) (validators : list Validator)
    (quorum : QuorumCertificate) (fraction : Fraction) (quorums : VerifiedQuorums) :
    result EvidenceError VerifiedQuorums :=
  let cached := bool_decide (vq_fraction quorums = fraction) in
  if cached && bool_decide (quorum ∈ vq_verified quorums) then Ok quorums
  else
    _ ← verify_quorum_using domain validators quorum fraction;
    Ok (if cached then {| vq_fraction := vq_fraction quorums;
                          vq_verified := vq_verified quorums ++ [quorum] |}
        else quorums).

Definition verify_unlock_with (domain : ConsensusDomain) (validators : list Validator)
    (vote : FinalityVoteData) (unlock : QuorumCertificate) (quorum : Fraction)
    (quorums : VerifiedQuorums) : result EvidenceError VerifiedQuorums :=
  _ ← ensure ((v_chunk_id (qc_data unlock) =? v_chunk_id vote)
              && bool_decide (v_chunk_hash (qc_data unlock) = v_chunk_hash vote)
              && negb match v_phase vote with
                      | Prevote => v_round vote <=? v_round (qc_data unlock)
                      | Precommit => v_round vote <? v_round (qc_data unlock)
                      end) EvBinding;
  verify_quorum_with domain validators unlock quorum quorums.

Definition verify_unlock_using (domain : ConsensusDomain) (validators : list Validator)
    (vote : FinalityVoteData) (unlock : QuorumCertificate) (quorum : Fraction) :
    result EvidenceError unit :=
  _ ← verify_unlock_with domain validators vote unlock quorum (VerifiedQuorums_new quorum);
  Ok tt.

(** ** Objective offences *)

Definition verify_conflicting_nil_vote_using (domain : ConsensusDomain) (validators : list Validator)
    (index : N) (value : IndexedVote) (nil_ : IndexedNilVote) : result EvidenceError unit :=
  _ ← ensure ((v_chunk_id (iv_data value) =? nd_chunk_id (inv_data nil_))
              && (v_round (iv_data value) =? nd_round (inv_data nil_))
              && bool_decide (v_phase (iv_data value) = nd_phase (inv_data nil_))) EvBinding;
  validator ← ok_or (validators !! N.to_nat index) EvBinding;
  _ ← ensure (is_active validator) EvBinding;
  _ ← verify_indexed_vote_using domain validators index value;
  ensure (verifier_verify (pubkey validator) (nil_message domain (inv_data nil_)) (inv_signature nil_))
    EvSignature.

Definition verify_double_bft_proposal_with_root (domain : ConsensusDomain)
    (validators : list Validator) (root : Hash) (index : N) (first second : BftProposal) :
    result EvidenceError unit :=
  _ ← ensure ((ck_chunk_id (bp_chunk first) =? ck_chunk_id (bp_chunk second))
              && (bp_round first =? bp_round second)
              && (bp_proposer_index first =? index) && (bp_proposer_index second =? index)
              && negb (bool_decide (Chunk_hash (bp_chunk first) = Chunk_hash (bp_chunk second)))
              && bool_decide (bft_leader_with_root (chain_id domain) (ck_chunk_id (bp_chunk first))
                                (bp_round first) validators root = Some index)
              && bool_decide (ck_active_validator_set_root (bp_chunk first) = root)
              && bool_decide (ck_active_validator_set_root (bp_chunk second) = root)) EvBinding;
  validator ← ok_or (validators !! N.to_nat index) EvBinding;
  ensure (verifier_verify (pubkey validator) (proposal_message domain first) (bp_signature first)
          && verifier_verify (pubkey validator) (proposal_message domain second) (bp_signature second))
    EvSignature.

Definition verify_lock_violation_using (domain : ConsensusDomain) (validators : list Validator)
    (index : N) (first later : IndexedVote) (evidence : LockEvidence) (quorum : Fraction) :
    result EvidenceError unit :=
  _ ← ensure (bool_decide (v_phase (iv_data first) = Precommit)
              && (v_chunk_id (iv_data first) =? v_chunk_id (iv_data later))
              && (v_round (iv_data first) <? v_round (iv_data later))
              && negb (bool_decide (v_chunk_hash (iv_data first) = v_chunk_hash (iv_data later))))
        EvBinding;
  _ ← verify_indexed_vote_using domain validators index first;
  _ ← verify_indexed_vote_using domain validators index later;
  _ ← verify_attestation_using domain validators index (iv_data later) (attestation evidence);
  let locked := locked_prevote_quorum evidence in
  _ ← ensure ((v_chunk_id (qc_data locked) =? v_chunk_id (iv_data first))
              && (v_round (qc_data locked) =? v_round (iv_data first))
              && bool_decide (v_chunk_hash (qc_data locked) = v_chunk_hash (iv_data first))) EvBinding;
  _ ← verify_quorum_using domain validators locked quorum;
  ensure (negb match va_unlock_quorum (attestation evidence) with
               | Some unlock =>
                   (v_round (iv_data first) <? v_round (qc_data unlock))
                   && is_ok (verify_unlock_using domain validators (iv_data later) unlock quorum)
               | None => false
               end) EvHonestUnlock.

Definition da_publication_message (domain : ConsensusDomain) (header_hash bundle_hash : Hash) : bytes :=
  signing_message domain DOMAIN_DA_PUBLICATION (header_hash ++ bundle_hash).

(** ** Round changes and proposals *)

Definition verify_round_change_with (domain : ConsensusDomain) (validators : list Validator)
    (report : RoundChange) (fraction : Fraction) (quorums : VerifiedQuorums) :
    result FinalityError VerifiedQuorums :=
  validator ← ok_or (validators !! N.to_nat (rc_validator_index report)) FinMembership;
  _ ← ensure (is_active validator) FinMembership;
  _ ← ensure (negb (rc_round report =? 0)) FinTarget;
  _ ← ensure (verifier_verify (pubkey validator) (round_change_message domain report)
                (rc_signature report)) FinSignature;
  match rc_highest_quorum report with
  | None => Ok quorums
  | Some quorum =>
      _ ← ensure ((v_chunk_id (qc_data quorum) =? rc_chunk_id report)
                  && (v_round (qc_data quorum) <? rc_round report)) FinTarget;
      map_err (fun _ => FinQuorum) (verify_quorum_with domain validators quorum fraction quorums)
  end.

(** The loop state: signers seen, accumulated stake, cache. *)
Definition round_report_step (domain : ConsensusDomain) (validators : list Validator)
    (certificate : RoundChangeCertificate) (fraction : Fraction)
    (st : list N * N * VerifiedQuorums) (report : RoundChange) :
    result FinalityError (list N * N * VerifiedQuorums) :=
  let '(seen, stake, quorums) := st in
  _ ← ensure ((rc_chunk_id report =? rcc_chunk_id certificate)
              && (rc_round report =? rcc_round certificate)
              && negb (bool_decide (rc_validator_index report ∈ seen))) FinTarget;
  quorums ← verify_round_change_with domain validators report fraction quorums;
  (* [validators[index]] was found by the verification above *)
  let validator_stake := default 0 (effective_stake <$> validators !! N.to_nat (rc_validator_index report)) in
  stake ← ok_or (checked_add U64_MAX stake validator_stake) FinMembership;
  Ok (rc_validator_index report :: seen, stake, quorums).

Definition verify_round_change_certificate_with (domain : ConsensusDomain)
    (validators : list Validator) (certificate : RoundChangeCertificate) (fraction : Fraction)
    (quorums : VerifiedQuorums) : result FinalityError VerifiedQuorums :=
  let '(numerator, denominator) := fraction in
  _ ← ensure (negb (bool_decide (rcc_reports certificate = []))
              && (length (rcc_reports certificate) <=? length validators)%nat
              && quorum_fraction_valid numerator denominator) FinMembership;
  total ← ok_or (active_stake_total validators) FinMembership;
  '(_, stake, quorums) ← try_fold (round_report_step domain validators certificate fraction)
                            ([], 0, quorums) (rcc_reports certificate);
  _ ← ensure (quorum_reached stake total numerator denominator) FinQuorum;
  Ok quorums.

(** [certificate.highest_quorum().is_some_and(..)]: the proposal ignores the
    highest certified quorum. *)
Definition ignores_highest (certificate : RoundChangeCertificate)
    (valid_quorum : option QuorumCertificate) : bool :=
  match highest_quorum certificate with
  | None => false
  | Some highest =>
      match valid_quorum with
      | None => true
      | Some valid =>
          (v_round (qc_data valid) <? v_round (qc_data highest))
          || ((v_round (qc_data valid) =? v_round (qc_data highest))
              && negb (bool_decide (v_chunk_hash (qc_data valid) = v_chunk_hash (qc_data highest))))
      end
  end.

Definition verify_proposal_with (domain : ConsensusDomain) (validators : list Validator)
    (root : Hash) (proposal : BftProposal) (fraction : Fraction) (quorums : VerifiedQuorums) :
    result FinalityError VerifiedQuorums :=
  _ ← ensure (bool_decide (bft_leader_with_root (chain_id domain) (ck_chunk_id (bp_chunk proposal))
                             (bp_round proposal) validators root = Some (bp_proposer_index proposal))
              && bool_decide (ck_active_validator_set_root (bp_chunk proposal) = root)) FinTarget;
  validator ← ok_or (validators !! N.to_nat (bp_proposer_index proposal)) FinMembership;
  _ ← ensure (verifier_verify (pubkey validator) (proposal_message domain proposal)
                (bp_signature proposal)) FinSignature;
  quorums ←
    match bp_round proposal =? 0, bp_round_change_certificate proposal with
    | true, None => Ok quorums
    | true, Some _ | false, None => Err FinTarget
    | false, Some certificate =>
        _ ← ensure ((rcc_chunk_id certificate =? ck_chunk_id (bp_chunk proposal))
                    && (rcc_round certificate =? bp_round proposal)) FinTarget;
        quorums ← verify_round_change_certificate_with domain validators certificate fraction quorums;
        _ ← ensure (negb (ignores_highest certificate (bp_valid_quorum proposal))) FinTarget;
        Ok quorums
    end;
  match bp_valid_quorum proposal with
  | None => Ok quorums
  | Some quorum =>
      _ ← ensure ((v_chunk_id (qc_data quorum) =? ck_chunk_id (bp_chunk proposal))
                  && bool_decide (v_chunk_hash (qc_data quorum) = Chunk_hash (bp_chunk proposal))
                  && (v_round (qc_data quorum) <? bp_round proposal)) FinTarget;
      map_err (fun _ => FinQuorum) (verify_quorum_with domain validators quorum fraction quorums)
  end.

(** ** Nil votes *)

Definition nil_claim_step (domain : ConsensusDomain) (validators : list Validator) (vote : NilVote)
    (seen : list N) (claim : NilVoteAttestation) : result FinalityError (list N) :=
  _ ← ensure (bool_decide (na_vote claim = nv_data vote)
              && negb (bool_decide (na_validator_index claim ∈ seen))
              && bool_decide (BitVec.get (nv_bits vote) (na_validator_index claim) = Some true))
        FinMembership;
  validator ← ok_or (validators !! N.to_nat (na_validator_index claim)) FinMembership;
  _ ← ensure (verifier_verify (pubkey validator) (nil_message domain (nv_data vote)) (na_vote_signature claim)
              && verifier_verify (pubkey validator) (nil_attestation_message domain claim)
                   (na_signature claim)) FinSignature;
  Ok (na_validator_index claim :: seen).

Definition verify_nil_vote_using (domain : ConsensusDomain) (validators : list Validator)
    (vote : NilVote) : result FinalityError unit :=
  _ ← ensure (BitVec.bit_len (nv_bits vote) =? len validators) FinMembership;
  '(keys, _) ← ok_or (signers validators (nv_bits vote)) FinMembership;
  seen ← try_fold (nil_claim_step domain validators vote) [] (nv_attestations vote);
  _ ← ensure (negb (bool_decide (keys = [])) && (length seen =? length keys)%nat) FinMembership;
  ensure (verifier_aggregate keys (nil_message domain (nv_data vote)) (nv_signature vote)) FinSignature.

(** ** Votes and finality certificates *)

Definition verify_claim_signatures_with (domain : ConsensusDomain) (validators : list Validator)
    (data : FinalityVoteData) (message : bytes) (claims : list VoteAttestation) :
    result FinalityError unit :=
  try_fold (fun _ claim =>
    map_err (fun _ => FinSignature)
      (verify_attestation_with domain validators (va_validator_index claim) data message claim))
    tt claims.

Definition verify_unlock_claims_with (domain : ConsensusDomain) (validators : list Validator)
    (data : FinalityVoteData) (claims : list VoteAttestation) (params : ConsensusParams)
    (quorums : VerifiedQuorums) : result FinalityError VerifiedQuorums :=
  try_fold (fun quorums claim =>
    match va_unlock_quorum claim with
    | None => Ok quorums
    | Some unlock =>
        map_err (fun _ => FinTarget)
          (verify_unlock_with domain validators data unlock (prevote_fraction params) quorums)
    end) quorums claims.

Definition verify_vote_signatures_using (domain : ConsensusDomain) (validators : list Validator)
    (vote : FinalityVote) (params : ConsensusParams) : result FinalityError unit :=
  _ ← ensure (attestation_coverage_valid (fv_data vote) (fv_bits vote) (fv_attestations vote)
                (chunk_size params)
              && (BitVec.bit_len (fv_bits vote) =? len validators)) FinMembership;
  '(keys, _) ← ok_or (signers validators (fv_bits vote)) FinMembership;
  let message := vote_message domain (fv_data vote) in
  _ ← ensure (negb (bool_decide (keys = []))
              && verifier_aggregate keys message (fv_signature vote)) FinSignature;
  verify_claim_signatures_with domain validators (fv_data vote) message (fv_attestations vote).

Definition verify_vote_using (domain : ConsensusDomain) (validators : list Validator)
    (vote : FinalityVote) (params : ConsensusParams) : result FinalityError unit :=
  _ ← verify_vote_signatures_using domain validators vote params;
  _ ← verify_unlock_claims_with domain validators (fv_data vote) (fv_attestations vote) params
        (VerifiedQuorums_new (prevote_fraction params));
  Ok tt.

Definition verify_phase_with (validators : list Validator) (vote : AggregatedVote) (message : bytes)
    (total : N) (fraction : Fraction) : result FinalityError unit :=
  let '(numerator, denominator) := fraction in
  _ ← ensure (quorum_fraction_valid numerator denominator
              && (BitVec.bit_len (av_bits vote) =? len validators)) FinMembership;
  '(keys, stake) ← ok_or (signers validators (av_bits vote)) FinMembership;
  stake ← ok_or (try_from U64_MAX stake) FinMembership;
  _ ← ensure (quorum_reached stake total numerator denominator) FinQuorum;
  ensure (verifier_aggregate keys message (av_signature vote)) FinSignature.

(** One iteration of the loop over the two phases. *)
Definition verify_finality_phase (domain : ConsensusDomain) (params : ConsensusParams)
    (validators : list Validator) (certificate : FinalityCert) (total : N)
    (quorums : VerifiedQuorums)
    (entry : FinalityVotePhase * Fraction * AggregatedVote * list VoteAttestation) :
    result FinalityError VerifiedQuorums :=
  let '(phase, fraction, vote, claims) := entry in
  let data := cert_vote_data certificate phase in
  _ ← ensure (attestation_coverage_valid data (av_bits vote) claims (chunk_size params)) FinMembership;
  let message := vote_message domain data in
  _ ← verify_claim_signatures_with domain validators data message claims;
  quorums ← verify_unlock_claims_with domain validators data claims params quorums;
  _ ← verify_phase_with validators vote message total fraction;
  Ok quorums.

Definition verify_finality_with_root (domain : ConsensusDomain) (params : ConsensusParams)
    (validators : list Validator) (root : Hash) (chunk : Chunk) (certificate : FinalityCert) :
    result FinalityError unit :=
  _ ← ensure ((fc_chunk_id certificate =? ck_chunk_id chunk)
              && bool_decide (fc_chunk_hash certificate = Chunk_hash chunk)
              && bool_decide (fc_active_validator_set_root certificate = root)
              && bool_decide (ck_active_validator_set_root chunk = root)
              && bool_decide (bp_chunk (fc_proposal certificate) = chunk)
              && (bp_round (fc_proposal certificate) =? fc_round certificate)) FinTarget;
  quorums ← verify_proposal_with domain validators root (fc_proposal certificate)
              (prevote_fraction params) (VerifiedQuorums_new (prevote_fraction params));
  total ← ok_or (active_stake_total validators) FinMembership;
  _ ← try_fold (verify_finality_phase domain params validators certificate total) quorums
        [(Prevote, prevote_fraction params, fc_prevote certificate, fc_prevote_attestations certificate);
         (Precommit, precommit_fraction params, fc_precommit certificate,
          fc_precommit_attestations certificate)];
  Ok tt.

Definition verify_finality_using (domain : ConsensusDomain) (params : ConsensusParams)
    (validators : list Validator) (chunk : Chunk) (certificate : FinalityCert) :
    result FinalityError unit :=
  verify_finality_with_root domain params validators (validators_commitment validators) chunk certificate.

End verification.

(* ------------------------------------------------------------------ *)
(** ** Stake of index sets *)

(** The stake of the validator at an index. *)
Definition stake_at (vs : list Validator) (i : N) : N :=
  default 0 (effective_stake <$> vs !! N.to_nat i).

(** The weight that counts towards the total. *)
Definition weight_at (vs : list Validator) (i : N) : N :=
  match vs !! N.to_nat i with
  | Some v => if slashed v then 0 else effective_stake v
  | None => 0
  end.

Definition active_at (vs : list Validator) (i : N) : Prop :=
  exists v, vs !! N.to_nat i = Some v /\ is_active v = true.

Lemma weight_at_active vs i : active_at vs i -> weight_at vs i = stake_at vs i.
Proof.
  intros (v & Hv & Ha). unfold weight_at, stake_at. rewrite Hv. simpl.
  unfold is_active in Ha. rewrite andb_true_iff, negb_true_iff in Ha. by destruct Ha as [-> _].
Qed.

Lemma range_cons n : range (n + 1) = 0 :: map (N.add 1) (range n).
Proof.
  unfold range. replace (N.to_nat (n + 1)) with (S (N.to_nat n)) by lia.
  cbn [seq map]. f_equal. rewrite <- seq_shift, !map_map. apply map_ext. intros. lia.
Qed.

Lemma sum_by_map {A B} (w : B -> N) (f : A -> B) l : sum_by w (map f l) = sum_by (fun x => w (f x)) l.
Proof. induction l; simpl; congruence. Qed.

Lemma weight_total vs :
  sum_by (weight_at vs) (range (len vs))
  = sum_by effective_stake (filter (fun v => slashed v = false) vs).
Proof.
  induction vs as [|v vs IH]; [done|]. rewrite len_cons, N.add_comm, range_cons, sum_by_cons, sum_by_map.
  rewrite (sum_by_ext _ (weight_at vs)).
  - rewrite IH. rewrite filter_cons. unfold weight_at at 1. simpl.
    destruct (slashed v); [rewrite decide_False by done|rewrite decide_True by done]; simpl; lia.
  - intros i _. unfold weight_at. replace (N.to_nat (1 + i)) with (S (N.to_nat i)) by lia. done.
Qed.

Lemma active_stake_total_Some vs total :
  active_stake_total vs = Some total ->
  total = sum_by (weight_at vs) (range (len vs)) /\ 0 < total <= U64_MAX.
Proof.
  unfold active_stake_total. rewrite <- weight_total.
  intros (t & [-> Hle]%try_from_Some & Ht)%bind_Some.
  destruct (N.ltb_spec 0 (sum_by (weight_at vs) (range (len vs)))); [|done]. by injection Ht as <-.
Qed.

(** The indices of [vs] whose bit is set, counted from [index]. *)
Lemma signers_loop_Some index vs bits keys stake keys' stake' :
  signers_loop index vs bits keys stake = Some (keys', stake') ->
  let marked := filter (fun i => BitVec.get bits (index + i) = Some true) (range (len vs)) in
  stake' = stake + sum_by (stake_at vs) marked
  /\ (forall i, i ∈ marked -> active_at vs i)
  /\ length keys' = (length keys + length marked)%nat.
Proof.
  revert index keys stake; induction vs as [|v vs IH]; intros index keys stake; cbn [signers_loop].
  { intros [= <- <-]. simpl. split_and!; [lia| |lia]. intros i Hi. by apply not_elem_of_nil in Hi. }
  intros (i & [-> _]%try_from_Some & Hrest)%bind_Some. cbv zeta.
  rewrite len_cons, (N.add_comm 1), range_cons, filter_cons, N.add_0_r.
  assert (forall l, filter (fun i => BitVec.get bits (index + i) = Some true) (map (N.add 1) l)
    = map (N.add 1) (filter (fun i => BitVec.get bits (index + 1 + i) = Some true) l)) as Hshift.
  { induction l as [|x l IHl]; [done|]. cbn [map]. rewrite !filter_cons, IHl, N.add_assoc.
    by destruct (decide _). }
  rewrite Hshift.
  assert (forall l, sum_by (stake_at (v :: vs)) (map (N.add 1) l) = sum_by (stake_at vs) l) as Hsum.
  { intros l. rewrite sum_by_map. apply sum_by_ext. intros j _. unfold stake_at.
    by replace (N.to_nat (1 + j)) with (S (N.to_nat j)) by lia. }
  assert (forall l, (forall j, j ∈ l -> active_at vs j) -> forall j, j ∈ map (N.add 1) l -> active_at (v :: vs) j)
    as Hact.
  { intros l Hl j (k & -> & Hk)%list_elem_of_fmap. destruct (Hl k Hk) as (w & Hw & ?).
    exists w. by replace (N.to_nat (1 + k)) with (S (N.to_nat k)) by lia. }
  case_bool_decide as Hbit; [|rewrite decide_False by done].
  - rewrite decide_True by done. destruct (is_active v) eqn:Hv; [|done].
    apply IH in Hrest as (-> & Ha & ->). rewrite sum_by_cons, Hsum, length_app. split_and!.
    + change (stake_at (v :: vs) 0) with (effective_stake v). lia.
    + intros j [->|Hj]%elem_of_cons; [by exists v|by eapply Hact].
    + cbn [length]. rewrite length_map. lia.
  - apply IH in Hrest as (-> & Ha & ->). rewrite Hsum, length_map. split_and!; [done| |done].
    by apply Hact.
Qed.

Lemma signers_Some vs bits keys stake :
  BitVec.bit_len bits = len vs -> signers vs bits = Some (keys, stake) ->
  stake = sum_by (stake_at vs) (set_bits bits) /\ (forall i, i ∈ set_bits bits -> active_at vs i)
  /\ length keys = length (set_bits bits).
Proof. intros Hlen Hs. apply signers_loop_Some in Hs. unfold set_bits. rewrite Hlen. apply Hs. Qed.

Lemma active_at_lt vs i : active_at vs i -> i < len vs.
Proof. intros (v & Hv & _). apply lookup_lt_Some in Hv. unfold len. lia. Qed.

(** ** Quorums *)

(** A set of active validators whose stake reaches a valid fraction of the total. *)
Record quorum_of (vs : list Validator) (fraction : N * N) (s : list N) : Prop := {
  quorum_nodup : NoDup s;
  quorum_active : forall i, i ∈ s -> active_at vs i;
  quorum_total : exists total, active_stake_total vs = Some total
    /\ quorum_reached (sum_by (stake_at vs) s) total fraction.1 fraction.2 = true;
  quorum_fraction : quorum_fraction_valid fraction.1 fraction.2 = true;
}.

(** Any two quorums of one validator set share validators with at least a third
    of the active stake. *)
Lemma quorums_intersect vs f1 f2 s1 s2 total :
  quorum_of vs f1 s1 -> quorum_of vs f2 s2 -> active_stake_total vs = Some total ->
  total <= 3 * sum_by (stake_at vs) (filter (fun i => i ∈ s2) s1).
Proof.
  intros [Hn1 Ha1 (t1 & Ht1 & Hr1) Hf1] [Hn2 Ha2 (t2 & Ht2 & Hr2) Hf2] Ht.
  rewrite Ht in Ht1, Ht2. injection Ht1 as <-. injection Ht2 as <-.
  eapply (quorum_overlap _ _ _ _ _ _ _ _ Hf1 Hf2 Hr1 Hr2).
  apply active_stake_total_Some in Ht as [-> _].
  rewrite (sum_by_ext (stake_at vs) (weight_at vs) s1) by (intros; by rewrite weight_at_active by auto).
  rewrite (sum_by_ext (stake_at vs) (weight_at vs) s2) by (intros; by rewrite weight_at_active by auto).
  rewrite (sum_by_ext (stake_at vs) (weight_at vs) (filter _ _)).
  - apply sum_by_overlap; try done; intros i Hi; apply elem_of_range, active_at_lt; auto.
  - intros i Hi. apply list_elem_of_filter in Hi as [_ Hi]. by rewrite weight_at_active by auto.
Qed.

(* ------------------------------------------------------------------ *)
(** ** What the checks establish *)

Section soundness.
Context `{Blake3} `{ConsensusCodec} `{Verifier}.

Definition qc_signers (q : QuorumCertificate) : list N := set_bits (av_bits (qc_aggregate q)).

Lemma verify_quorum_using_Ok d vs q f :
  verify_quorum_using d vs q f = Ok tt ->
  v_phase (qc_data q) = Prevote /\ quorum_of vs f (qc_signers q)
  /\ exists keys stake, signers vs (av_bits (qc_aggregate q)) = Some (keys, stake)
     /\ verifier_aggregate keys (vote_message d (qc_data q)) (av_signature (qc_aggregate q)) = true.
Proof.
  unfold verify_quorum_using. destruct f as [n m]. intros Hv.
  apply bind_unit_Ok in Hv as [Hg Hv]. rewrite ensure_Ok, !andb_true_iff, bool_decide_eq_true, N.eqb_eq in Hg.
  destruct Hg as [[Hphase Hfrac] Hlen].
  apply bind_Ok in Hv as ([keys stake] & Hs & Hv). apply bind_Ok in Hv as (signed & Ht & Hv).
  apply bind_Ok in Hv as (total & Htot & Hv). apply bind_unit_Ok in Hv as [Hq Hv].
  rewrite ensure_Ok in Hq, Hv. unfold ok_or in Hs, Ht, Htot.
  destruct (signers vs _) as [[k s]|] eqn:Hsig; [|done]. injection Hs as -> ->.
  destruct (try_from _ _) as [s|] eqn:Hts; [|done]. injection Ht as ->. apply try_from_Some in Hts as [-> _].
  destruct (active_stake_total vs) as [t|] eqn:Hact; [|done]. injection Htot as ->.
  pose proof (signers_Some _ _ _ _ Hlen Hsig) as (-> & Hactive & _).
  split; [done|]. split; [|eauto]. split; [apply NoDup_set_bits|done|eauto|done].
Qed.

(** Every cached quorum has passed the full check. *)
Definition cache_ok (d : ConsensusDomain) (vs : list Validator) (c : VerifiedQuorums) : Prop :=
  forall q, q ∈ vq_verified c -> verify_quorum_using d vs q (vq_fraction c) = Ok tt.

Lemma cache_ok_new d vs f : cache_ok d vs (VerifiedQuorums_new f).
Proof. intros q Hq. by apply not_elem_of_nil in Hq. Qed.

(** The cache is transparent: the verdict is the uncached one, and stays so. *)
Lemma verify_quorum_with_transparent d vs q f c :
  cache_ok d vs c ->
  match verify_quorum_with d vs q f c with
  | Ok c' => verify_quorum_using d vs q f = Ok tt /\ cache_ok d vs c' /\ vq_fraction c' = vq_fraction c
  | Err e => verify_quorum_using d vs q f = Err e
  end.
Proof.
  intros Hc. unfold verify_quorum_with.
  destruct (bool_decide (vq_fraction c = f)) eqn:Hf; simpl.
  - apply bool_decide_eq_true in Hf as <-. case_bool_decide as Hin; [by split; [apply Hc|]|].
    destruct (verify_quorum_using d vs q _) as [[]|e] eqn:Hq; simpl; [|done]. split_and!; try done.
    intros q'. simpl. rewrite elem_of_app, elem_of_cons. intros [?|[->|Hnil]]; [by apply Hc|done|].
    by apply not_elem_of_nil in Hnil.
  - destruct (verify_quorum_using d vs q f) as [[]|e]; simpl; [|done]. done.
Qed.

(** [c'] results from [c] by checking more quorums. *)
Lemma verify_quorum_with_Ok d vs q f c c' :
  cache_ok d vs c -> verify_quorum_with d vs q f c = Ok c' ->
  verify_quorum_using d vs q f = Ok tt /\ cache_ok d vs c'.
Proof.
  intros Hc Hq. pose proof (verify_quorum_with_transparent d vs q f c Hc) as Ht.
  rewrite Hq in Ht. naive_solver.
Qed.

(** An unlock justifies a vote: a verified prevote quorum for the same target,
    from an earlier round (or the same round, for a precommit). *)
Definition unlock_justifies (d : ConsensusDomain) (vs : list Validator) (f : N * N)
    (vote : FinalityVoteData) (u : QuorumCertificate) : Prop :=
  v_chunk_id (qc_data u) = v_chunk_id vote /\ v_chunk_hash (qc_data u) = v_chunk_hash vote
  /\ match v_phase vote with
     | Prevote => v_round (qc_data u) < v_round vote
     | Precommit => v_round (qc_data u) <= v_round vote
     end
  /\ verify_quorum_using d vs u f = Ok tt.

Lemma verify_unlock_with_Ok d vs vote u f c c' :
  cache_ok d vs c -> verify_unlock_with d vs vote u f c = Ok c' ->
  unlock_justifies d vs f vote u /\ cache_ok d vs c'.
Proof.
  intros Hc Hu. apply bind_unit_Ok in Hu as [Hg Hu]. rewrite ensure_Ok, !andb_true_iff in Hg.
  destruct Hg as [[Hid%N.eqb_eq Hhash%bool_decide_eq_true] Hround].
  apply verify_quorum_with_Ok in Hu as [Hq Hc']; [|done]. split; [|done]. split_and!; try done.
  destruct (v_phase vote); [apply negb_leb_true in Hround|apply negb_ltb_true in Hround]; lia.
Qed.

Lemma verify_unlock_using_Ok d vs vote u f :
  verify_unlock_using d vs vote u f = Ok tt <-> unlock_justifies d vs f vote u.
Proof.
  unfold verify_unlock_using. split.
  - intros (c & Hc & _)%bind_Ok. apply verify_unlock_with_Ok in Hc; [apply Hc|apply cache_ok_new].
  - intros (Hid & Hhash & Hround & Hq). apply bind_Ok.
    unfold verify_unlock_with. rewrite Hid, Hhash, N.eqb_refl, bool_decide_true by done.
    assert (negb match v_phase vote with
                 | Prevote => v_round vote <=? v_round (qc_data u)
                 | Precommit => v_round vote <? v_round (qc_data u) end = true) as ->
      by (destruct (v_phase vote); [by apply negb_leb_true|by apply negb_ltb_true]).
    unfold verify_quorum_with. cbn [VerifiedQuorums_new vq_fraction vq_verified].
    rewrite (bool_decide_false (u ∈ [])) by (apply not_elem_of_nil). rewrite andb_false_r. simpl.
    rewrite Hq. simpl. eauto.
Qed.

(** A claim whose vote and attestation signatures both verify under the key of
    its validator. *)
Definition claim_signed (d : ConsensusDomain) (vs : list Validator) (vote : FinalityVoteData)
    (c : VoteAttestation) : Prop :=
  va_vote c = vote /\ exists v, vs !! N.to_nat (va_validator_index c) = Some v
    /\ verifier_verify (pubkey v) (vote_message d vote) (va_vote_signature c) = true
    /\ verifier_verify (pubkey v) (attestation_message d c) (va_signature c) = true.

Lemma verify_attestation_with_Ok d vs i vote c :
  verify_attestation_with d vs i vote (vote_message d vote) c = Ok tt <->
  va_validator_index c = i /\ claim_signed d vs vote c.
Proof.
  unfold verify_attestation_with, claim_signed. rewrite bind_unit_Ok, ensure_Ok, andb_true_iff.
  rewrite N.eqb_eq, bool_decide_eq_true, bind_Ok. split.
  - intros [[<- ->] (v & Hv & Hs)]. apply bind_unit_Ok in Hs as [Hs1 Hs2]. rewrite ensure_Ok in Hs1, Hs2.
    split; [done|]. split; [done|]. exists v. unfold ok_or in Hv.
    destruct (vs !! _); [|done]. by injection Hv as ->.
  - intros [<- (-> & v & Hv & Hs1 & Hs2)]. split; [done|]. exists v. rewrite Hv.
    split; [done|]. by rewrite Hs1, Hs2.
Qed.

Lemma verify_claim_signatures_with_Ok d vs vote claims :
  verify_claim_signatures_with d vs vote (vote_message d vote) claims = Ok tt ->
  Forall (claim_signed d vs vote) claims.
Proof.
  induction claims as [|c claims IH]; cbn [verify_claim_signatures_with try_fold]; [constructor|].
  unfold verify_claim_signatures_with. cbn [try_fold]. unfold map_err at 1.
  destruct (verify_attestation_with _ _ _ _ _ _) as [[]|] eqn:Hc; [|done]. intros Hrest.
  apply verify_attestation_with_Ok in Hc as [_ Hc]. constructor; [done|]. by apply IH.
Qed.

Lemma verify_unlock_claims_with_Ok d vs vote claims params c c' :
  cache_ok d vs c -> verify_unlock_claims_with d vs vote claims params c = Ok c' ->
  cache_ok d vs c' /\ forall a u, a ∈ claims -> va_unlock_quorum a = Some u ->
    unlock_justifies d vs (prevote_fraction params) vote u.
Proof.
  revert c; induction claims as [|a claims IH]; intros c Hc; unfold verify_unlock_claims_with; cbn [try_fold].
  { intros [= <-]. split; [done|]. intros ? ? Ha. by apply not_elem_of_nil in Ha. }
  destruct (va_unlock_quorum a) as [u|] eqn:Hu.
  - unfold map_err at 1. destruct (verify_unlock_with _ _ _ _ _ _) as [c1|] eqn:Hw; [|done]. intros Hrest.
    apply verify_unlock_with_Ok in Hw as [Hj Hc1]; [|done]. apply IH in Hrest as [Hc' Hall]; [|done].
    split; [done|]. intros b w [->|Hb]%elem_of_cons Hbw; [|by eapply Hall].
    rewrite Hu in Hbw. by injection Hbw as <-.
  - intros Hrest. apply IH in Hrest as [Hc' Hall]; [|done]. split; [done|].
    intros b w [->|Hb]%elem_of_cons Hbw; [|by eapply Hall]. by rewrite Hu in Hbw.
Qed.

End soundness.

(* ------------------------------------------------------------------ *)
(** ** Proposals and certificates *)

Section certificates.
Context `{Blake3} `{ConsensusCodec} `{Verifier}.

Lemma verify_round_change_with_Ok d vs r f c c' :
  cache_ok d vs c -> verify_round_change_with d vs r f c = Ok c' ->
  cache_ok d vs c' /\ active_at vs (rc_validator_index r) /\ rc_round r <> 0
  /\ forall q, rc_highest_quorum r = Some q ->
       v_round (qc_data q) < rc_round r /\ verify_quorum_using d vs q f = Ok tt.
Proof.
  intros Hc Hv. unfold verify_round_change_with, ok_or in Hv.
  destruct (vs !! N.to_nat (rc_validator_index r)) as [v|] eqn:Hlook; [|done]. cbn [mbind result_bind] in Hv.
  apply bind_unit_Ok in Hv as [Ha Hv]. apply bind_unit_Ok in Hv as [Hz Hv].
  apply bind_unit_Ok in Hv as [_ Hv]. rewrite ensure_Ok in Ha, Hz. apply negb_eqb_true in Hz.
  destruct (rc_highest_quorum r) as [q|].
  - apply bind_unit_Ok in Hv as [Hg Hv]. rewrite ensure_Ok, andb_true_iff, N.ltb_lt in Hg.
    unfold map_err in Hv. destruct (verify_quorum_with _ _ _ _ _) eqn:Hq; [|done]. injection Hv as ->.
    apply verify_quorum_with_Ok in Hq as [Hq Hc']; [|done]. split_and!; try done; [by exists v|].
    intros ? [= <-]. by destruct Hg.
  - injection Hv as <-. split_and!; try done. by exists v.
Qed.

(** The certified state after the loop over the reports [done_]. *)
Definition reports_ok (d : ConsensusDomain) (vs : list Validator) (f : N * N)
    (cert : RoundChangeCertificate) (done_ : list RoundChange) (st : list N * N * VerifiedQuorums) : Prop :=
  let '(seen, stake, c) := st in
  cache_ok d vs c /\ seen = reverse (map rc_validator_index done_) /\ NoDup seen
  /\ stake = sum_by (stake_at vs) seen /\ (forall i, i ∈ seen -> active_at vs i)
  /\ forall r q, r ∈ done_ -> rc_highest_quorum r = Some q ->
       v_round (qc_data q) < rcc_round cert /\ verify_quorum_using d vs q f = Ok tt.

Lemma round_report_step_Ok d vs cert f done_ st r st' :
  reports_ok d vs f cert done_ st -> round_report_step d vs cert f st r = Ok st' ->
  reports_ok d vs f cert (done_ ++ [r]) st'.
Proof.
  destruct st as [[seen stake] c]. intros (Hc & -> & Hnd & -> & Hact & Hqs) Hstep.
  unfold round_report_step in Hstep. apply bind_unit_Ok in Hstep as [Hg Hstep].
  rewrite ensure_Ok, !andb_true_iff, N.eqb_eq, N.eqb_eq, negb_bool_decide_true in Hg.
  destruct Hg as [[_ Hround] Hfresh]. apply bind_Ok in Hstep as (c1 & Hc1 & Hstep).
  apply verify_round_change_with_Ok in Hc1 as (Hc1 & Ha & _ & Hq); [|done].
  apply bind_Ok in Hstep as (stake' & Hadd & [= <-]). unfold ok_or in Hadd.
  destruct (checked_add _ _ _) eqn:Hca; [|done]. injection Hadd as ->. apply checked_add_Some in Hca as [-> _].
  unfold reports_ok. rewrite map_app, reverse_app. split_and!; try done.
  - by constructor.
  - rewrite sum_by_cons. unfold stake_at at 2. lia.
  - intros i [->|Hi]%elem_of_cons; [done|by apply Hact].
  - intros r' q [Hr'|Hr']%elem_of_app Hrq; [by eapply Hqs|].
    apply list_elem_of_singleton in Hr' as ->. rewrite <- Hround. by apply Hq.
Qed.

Lemma verify_round_change_certificate_Ok d vs cert f c c' :
  cache_ok d vs c -> verify_round_change_certificate_with d vs cert f c = Ok c' ->
  cache_ok d vs c' /\ quorum_of vs f (map rc_validator_index (rcc_reports cert))
  /\ forall r q, r ∈ rcc_reports cert -> rc_highest_quorum r = Some q ->
       v_round (qc_data q) < rcc_round cert /\ verify_quorum_using d vs q f = Ok tt.
Proof.
  intros Hc Hv. unfold verify_round_change_certificate_with in Hv. destruct f as [n m].
  apply bind_unit_Ok in Hv as [Hg Hv]. rewrite ensure_Ok, !andb_true_iff in Hg. destruct Hg as [_ Hf].
  apply bind_Ok in Hv as (total & Ht & Hv). apply bind_Ok in Hv as ([[seen stake] c1] & Hfold & Hv).
  apply bind_unit_Ok in Hv as [Hq [= <-]]. rewrite ensure_Ok in Hq.
  unfold ok_or in Ht. destruct (active_stake_total vs) as [t|] eqn:Hact; [|done]. injection Ht as ->.
  apply (try_fold_invariant _ (reports_ok d vs (n, m) cert)) in Hfold.
  - destruct Hfold as (Hc1 & -> & Hnd & -> & Ha & Hqs). split; [done|]. split; [|done].
    assert (reverse (map rc_validator_index (rcc_reports cert)) ≡ₚ map rc_validator_index (rcc_reports cert))
      as Hperm by apply reverse_Permutation.
    split; [by rewrite <- Hperm| |exists total; split; [done|]; by rewrite <- Hperm|done].
    intros i Hi. apply Ha. by rewrite Hperm.
  - unfold reports_ok. split_and!; try done; [apply NoDup_nil_2|..]; intros ? *; set_solver.
  - intros. by eapply round_report_step_Ok.
Qed.

(** What an accepted proposal carries into the round. *)
Definition proposal_ok (d : ConsensusDomain) (vs : list Validator) (root : Hash) (f : N * N)
    (p : BftProposal) : Prop :=
  bft_leader_with_root (chain_id d) (ck_chunk_id (bp_chunk p)) (bp_round p) vs root = Some (bp_proposer_index p)
  /\ (forall q, bp_valid_quorum p = Some q ->
        v_chunk_hash (qc_data q) = Chunk_hash (bp_chunk p) /\ v_round (qc_data q) < bp_round p
        /\ verify_quorum_using d vs q f = Ok tt)
  /\ (bp_round p <> 0 -> exists cert, bp_round_change_certificate p = Some cert
        /\ rcc_round cert = bp_round p /\ rcc_chunk_id cert = ck_chunk_id (bp_chunk p)
        /\ quorum_of vs f (map rc_validator_index (rcc_reports cert))
        /\ forall r q, r ∈ rcc_reports cert -> rc_highest_quorum r = Some q ->
             exists valid, bp_valid_quorum p = Some valid
               /\ (v_round (qc_data q) < v_round (qc_data valid)
                   \/ (v_round (qc_data q) = v_round (qc_data valid)
                       /\ bytes_cmp (v_chunk_hash (qc_data q)) (v_chunk_hash (qc_data valid)) <> Gt))).

Lemma ignores_highest_false cert vq :
  ignores_highest cert vq = false -> forall r q, r ∈ rcc_reports cert -> rc_highest_quorum r = Some q ->
  exists valid, vq = Some valid /\ (v_round (qc_data q) < v_round (qc_data valid)
    \/ (v_round (qc_data q) = v_round (qc_data valid)
        /\ bytes_cmp (v_chunk_hash (qc_data q)) (v_chunk_hash (qc_data valid)) <> Gt)).
Proof.
  unfold ignores_highest. destruct (highest_quorum cert) as [h|] eqn:Hh.
  - intros Hig r q Hr Hq. apply highest_quorum_max in Hh as [_ Hmax]. specialize (Hmax r q Hr Hq).
    destruct vq as [valid|]; [|done]. exists valid. split; [done|].
    rewrite orb_false_iff, N.ltb_ge in Hig. destruct Hig as [Hle Hsame].
    unfold qc_cmp in Hmax.
    destruct (N.compare_spec (v_round (qc_data q)) (v_round (qc_data h))); simpl in Hmax; [| |done]; [|left; lia].
    destruct (decide (v_round (qc_data valid) = v_round (qc_data h))) as [Heq|]; [|left; lia].
    right. split; [lia|]. rewrite Heq, N.eqb_refl in Hsame. apply negb_false_iff, bool_decide_eq_true in Hsame.
    by rewrite Hsame.
  - intros _ r q Hr Hq. by rewrite (highest_quorum_None _ Hh r Hr) in Hq.
Qed.

Lemma verify_proposal_with_Ok d vs root p f c c' :
  cache_ok d vs c -> verify_proposal_with d vs root p f c = Ok c' ->
  cache_ok d vs c' /\ proposal_ok d vs root f p.
Proof.
  intros Hc Hv. unfold verify_proposal_with in Hv. apply bind_unit_Ok in Hv as [Hg Hv].
  rewrite ensure_Ok, andb_true_iff, !bool_decide_eq_true in Hg. destruct Hg as [Hlead _].
  apply bind_Ok in Hv as (v & _ & Hv). apply bind_unit_Ok in Hv as [_ Hv].
  apply bind_Ok in Hv as (c1 & Hround & Hv).
  assert (cache_ok d vs c1 /\ (bp_round p <> 0 -> exists cert, bp_round_change_certificate p = Some cert
    /\ rcc_round cert = bp_round p /\ rcc_chunk_id cert = ck_chunk_id (bp_chunk p)
    /\ quorum_of vs f (map rc_validator_index (rcc_reports cert))
    /\ ignores_highest cert (bp_valid_quorum p) = false)) as [Hc1 Hentry].
  { destruct (N.eqb_spec (bp_round p) 0), (bp_round_change_certificate p) as [cert|]; try done.
    - injection Hround as <-. done.
    - apply bind_unit_Ok in Hround as [Hg Hround]. rewrite ensure_Ok, andb_true_iff, !N.eqb_eq in Hg.
      apply bind_Ok in Hround as (c2 & Hcert & Hround). apply bind_unit_Ok in Hround as [Hig [= <-]].
      rewrite ensure_Ok, negb_true_iff in Hig.
      apply verify_round_change_certificate_Ok in Hcert as (Hc2 & Hq & _); [|done].
      split; [done|]. intros _. exists cert. by destruct Hg. }
  assert (cache_ok d vs c' /\ forall q, bp_valid_quorum p = Some q ->
    v_chunk_hash (qc_data q) = Chunk_hash (bp_chunk p) /\ v_round (qc_data q) < bp_round p
    /\ verify_quorum_using d vs q f = Ok tt) as [Hc' Hvalid].
  { destruct (bp_valid_quorum p) as [q|]; [|by injection Hv as <-].
    apply bind_unit_Ok in Hv as [Hg Hv]. rewrite ensure_Ok, !andb_true_iff, bool_decide_eq_true, N.ltb_lt in Hg.
    unfold map_err in Hv. destruct (verify_quorum_with _ _ _ _ _) eqn:Hq; [|done]. injection Hv as ->.
    apply verify_quorum_with_Ok in Hq as [Hq Hc']; [|done]. split; [done|]. intros ? [= <-].
    by destruct Hg as [[_ ?] ?]. }
  split; [done|]. split; [done|]. split; [done|]. intros Hnz.
  destruct (Hentry Hnz) as (cert & Hcert & Hr & Hid & Hq & Hig). exists cert. split_and!; try done.
  by apply ignores_highest_false.
Qed.

End certificates.

(* ------------------------------------------------------------------ *)
(** ** Finality certificates *)

Section finality_facts.
Context `{Blake3} `{ConsensusCodec} `{Verifier}.

(** One phase of an accepted certificate. *)
Record phase_certified (d : ConsensusDomain) (params : ConsensusParams) (vs : list Validator)
    (data : FinalityVoteData) (f : N * N) (vote : AggregatedVote) (claims : list VoteAttestation) :
    Prop := {
  pc_quorum : quorum_of vs f (set_bits (av_bits vote));
  pc_cover : map va_validator_index claims ≡ₚ set_bits (av_bits vote);
  pc_signed : Forall (claim_signed d vs data) claims;
  pc_unlock : forall a u, a ∈ claims -> va_unlock_quorum a = Some u ->
    unlock_justifies d vs (prevote_fraction params) data u;
  pc_as_quorum : v_phase data = Prevote ->
    verify_quorum_using d vs {| qc_data := data; qc_aggregate := vote |} f = Ok tt;
}.

Lemma verify_phase_with_Ok d vs vote data total f :
  active_stake_total vs = Some total ->
  verify_phase_with vs vote (vote_message d data) total f = Ok tt ->
  quorum_of vs f (set_bits (av_bits vote))
  /\ (v_phase data = Prevote ->
      verify_quorum_using d vs {| qc_data := data; qc_aggregate := vote |} f = Ok tt).
Proof.
  intros Htotal Hv. unfold verify_phase_with in Hv. destruct f as [n m].
  apply bind_unit_Ok in Hv as [Hg Hv]. rewrite ensure_Ok, andb_true_iff, N.eqb_eq in Hg.
  destruct Hg as [Hf Hlen]. apply bind_Ok in Hv as ([keys stake] & Hs & Hv).
  apply bind_Ok in Hv as (stake' & Ht & Hv). apply bind_unit_Ok in Hv as [Hq Hv].
  rewrite ensure_Ok in Hq, Hv. unfold ok_or in Hs, Ht.
  destruct (signers vs (av_bits vote)) as [[k s]|] eqn:Hsig; [|done]. injection Hs as -> ->.
  destruct (try_from _ _) as [s|] eqn:Hts; [|done]. injection Ht as ->.
  pose proof (signers_Some _ _ _ _ Hlen Hsig) as (Hstake & Hact & _).
  pose proof (proj1 (try_from_Some _ _ _) Hts) as [-> _]. split.
  - split; [apply NoDup_set_bits|done| |done]. exists total. by rewrite <- Hstake.
  - intros Hphase. unfold verify_quorum_using. cbn [qc_data qc_aggregate].
    rewrite Hphase, bool_decide_true, Hf, Hlen, N.eqb_refl, Hsig by done. cbn.
    rewrite Hts, Htotal. cbn. by rewrite Hq, Hv.
Qed.

Lemma verify_finality_phase_Ok d params vs cert total c phase f vote claims c' :
  active_stake_total vs = Some total -> cache_ok d vs c ->
  verify_finality_phase d params vs cert total c (phase, f, vote, claims) = Ok c' ->
  cache_ok d vs c' /\ phase_certified d params vs (cert_vote_data cert phase) f vote claims.
Proof.
  intros Htotal Hc Hv. unfold verify_finality_phase in Hv. apply bind_unit_Ok in Hv as [Hcov Hv].
  apply bind_unit_Ok in Hv as [Hsigs Hv]. apply bind_Ok in Hv as (c1 & Hunlock & Hv).
  apply bind_unit_Ok in Hv as [Hphase [= <-]]. rewrite ensure_Ok in Hcov.
  apply verify_unlock_claims_with_Ok in Hunlock as [Hc1 Hunlock]; [|done].
  apply verify_claim_signatures_with_Ok in Hsigs.
  apply verify_phase_with_Ok in Hphase as [Hq Hqc]; [|done].
  apply coverage_exact in Hcov as (_ & _ & Hcover). split; [done|]. by split.
Qed.

(** Everything an accepted certificate establishes. *)
Record certified (d : ConsensusDomain) (params : ConsensusParams) (vs : list Validator)
    (chunk : Chunk) (cert : FinalityCert) : Prop := {
  cert_target : fc_chunk_id cert = ck_chunk_id chunk /\ fc_chunk_hash cert = Chunk_hash chunk;
  cert_set : fc_active_validator_set_root cert = validators_commitment vs
    /\ ck_active_validator_set_root chunk = validators_commitment vs;
  cert_proposal : bp_chunk (fc_proposal cert) = chunk /\ bp_round (fc_proposal cert) = fc_round cert
    /\ proposal_ok d vs (validators_commitment vs) (prevote_fraction params) (fc_proposal cert);
  cert_total : exists total, active_stake_total vs = Some total;
  cert_prevote : phase_certified d params vs (cert_vote_data cert Prevote) (prevote_fraction params)
    (fc_prevote cert) (fc_prevote_attestations cert);
  cert_precommit : phase_certified d params vs (cert_vote_data cert Precommit)
    (precommit_fraction params) (fc_precommit cert) (fc_precommit_attestations cert);
}.

Lemma verify_finality_using_Ok d params vs chunk cert :
  verify_finality_using d params vs chunk cert = Ok tt -> certified d params vs chunk cert.
Proof.
  unfold verify_finality_using, verify_finality_with_root. intros Hv.
  apply bind_unit_Ok in Hv as [Hg Hv].
  rewrite ensure_Ok, !andb_true_iff, !bool_decide_eq_true, !N.eqb_eq in Hg. destruct_and?.
  apply bind_Ok in Hv as (c & Hprop & Hv). apply verify_proposal_with_Ok in Hprop as [Hc Hprop]; [|apply cache_ok_new].
  apply bind_Ok in Hv as (total & Ht & Hv). unfold ok_or in Ht.
  destruct (active_stake_total vs) as [t|] eqn:Htotal; [|done]. injection Ht as ->.
  apply bind_Ok in Hv as (c' & Hfold & _). cbn [try_fold] in Hfold.
  destruct (verify_finality_phase _ _ _ _ _ c _) as [c1|] eqn:Hp1; [|done].
  destruct (verify_finality_phase _ _ _ _ _ c1 _) as [c2|] eqn:Hp2; [|done].
  apply verify_finality_phase_Ok in Hp1 as [Hc1 Hp1]; [|done..].
  apply verify_finality_phase_Ok in Hp2 as [_ Hp2]; [|done..]. split; try done. by exists total.
Qed.

(** The claim of a certified signer. *)
Lemma certified_claim d params vs data f vote claims i :
  phase_certified d params vs data f vote claims -> i ∈ set_bits (av_bits vote) ->
  exists a, a ∈ claims /\ va_validator_index a = i /\ claim_signed d vs data a.
Proof.
  intros [_ Hcover Hsigned _ _] Hi. rewrite <- Hcover in Hi.
  apply list_elem_of_fmap in Hi as (a & -> & Ha). exists a. split; [done|]. split; [done|].
  by apply (proj1 (Forall_forall _ _) Hsigned).
Qed.

(** A vote signature of the validator at [i] that verifies. *)
Definition voted (d : ConsensusDomain) (vs : list Validator) (i : N) (data : FinalityVoteData) : Prop :=
  exists v s, vs !! N.to_nat i = Some v /\ verifier_verify (pubkey v) (vote_message d data) s = true.

Lemma claim_voted d vs data a : claim_signed d vs data a -> voted d vs (va_validator_index a) data.
Proof. intros (_ & v & Hv & Hs & _). by exists v, (va_vote_signature a). Qed.

(** Validators holding at least a third of the active stake. *)
Definition a_third_of (vs : list Validator) (s : list N) : Prop :=
  NoDup s /\ exists total, active_stake_total vs = Some total /\ 0 < total
    /\ total <= 3 * sum_by (stake_at vs) s.

Lemma certified_intersection d p1 p2 vs data1 data2 f1 f2 vote1 vote2 claims1 claims2 total :
  active_stake_total vs = Some total ->
  phase_certified d p1 vs data1 f1 vote1 claims1 -> phase_certified d p2 vs data2 f2 vote2 claims2 ->
  let both := filter (fun i => i ∈ set_bits (av_bits vote2)) (set_bits (av_bits vote1)) in
  a_third_of vs both
  /\ forall i, i ∈ both ->
       (exists a1, a1 ∈ claims1 /\ va_validator_index a1 = i /\ claim_signed d vs data1 a1)
       /\ (exists a2, a2 ∈ claims2 /\ va_validator_index a2 = i /\ claim_signed d vs data2 a2).
Proof.
  intros Htotal Hc1 Hc2 both. split.
  - split; [apply NoDup_filter, NoDup_set_bits|]. exists total. split; [done|].
    split; [by apply active_stake_total_Some in Htotal as [_ [? _]]|].
    eapply quorums_intersect; [apply Hc1|apply Hc2|done].
  - intros i [Hi2 Hi1]%list_elem_of_filter. split; by eapply certified_claim.
Qed.

(** The evidence a certified prevote quorum and a later claim give against the
    signer of an earlier precommit. *)
Definition lock_evidence (cert : FinalityCert) (a : VoteAttestation) : LockEvidence :=
  {| locked_prevote_quorum := {| qc_data := cert_vote_data cert Prevote; qc_aggregate := fc_prevote cert |};
     attestation := a |}.

Lemma lock_violation_convicts d params vs ch1 ch2 c1 c2 a1 a2 :
  certified d params vs ch1 c1 -> certified d params vs ch2 c2 ->
  fc_chunk_id c1 = fc_chunk_id c2 -> fc_round c1 < fc_round c2 -> fc_chunk_hash c1 <> fc_chunk_hash c2 ->
  claim_signed d vs (cert_vote_data c1 Precommit) a1 ->
  claim_signed d vs (cert_vote_data c2 Prevote) a2 ->
  va_validator_index a1 = va_validator_index a2 ->
  (forall u, va_unlock_quorum a2 = Some u -> v_round (qc_data u) <= fc_round c1) ->
  verify_lock_violation_using d vs (va_validator_index a2) (indexed_vote a1) (indexed_vote a2)
    (lock_evidence c1 a2) (prevote_fraction params) = Ok tt.
Proof.
  intros Hcert1 Hcert2 Hid Hround Hhash Hc1 Hc2 Hidx Hunlock.
  pose proof Hc1 as [Hv1 _]. pose proof Hc2 as [Hv2 _].
  assert (forall a vt, claim_signed d vs vt a -> va_validator_index a = va_validator_index a2 ->
    verify_indexed_vote_using d vs (va_validator_index a2) (indexed_vote a) = Ok tt) as Hiv.
  { intros a vt (<- & w & Hw & Hs & _) <-. unfold verify_indexed_vote_using. rewrite Hw. simpl.
    by rewrite Hs. }
  unfold verify_lock_violation_using. rewrite !bind_unit_Ok, !ensure_Ok.
  cbn [indexed_vote iv_data lock_evidence attestation locked_prevote_quorum qc_data].
  rewrite Hv1, Hv2. cbn [cert_vote_data v_phase v_chunk_id v_round v_chunk_hash]. split_and!.
  - bool_prop. done.
  - by eapply Hiv.
  - by eapply Hiv.
  - by apply verify_attestation_with_Ok.
  - bool_prop. done.
  - by apply (pc_as_quorum _ _ _ _ _ _ _ (cert_prevote _ _ _ _ _ Hcert1)).
  - destruct (va_unlock_quorum a2) as [u|]; [|done]. specialize (Hunlock u eq_refl).
    apply N.ltb_ge in Hunlock as ->. done.
Qed.

End finality_facts.

(* ------------------------------------------------------------------ *)
(** ** A concrete certificate, for witnesses *)

(** A verifier that accepts everything: all keys signed all messages. *)
Definition sample_verifier : Verifier :=
  {| verifier_verify _ _ _ := true; verifier_aggregate _ _ _ := true |}.

Definition sample_validator (stake : N) : Validator :=
  {| pubkey := [stake]; withdrawal_credentials := ZERO_HASH; effective_stake := stake; slashed := false;
     activation_epoch := 0; exit_epoch := U64_MAX; last_active_chunk := 0 |}.

Definition sample_set : list Validator := [sample_validator 1].
Definition sample_root : Hash := @validators_commitment pad32 sample_codec sample_set.

(** A chunk distinguished by one byte of its first state root. *)
Definition sample_chunk (b : N) : Chunk :=
  {| ck_chunk_id := 0; ck_start_height := 1; ck_end_height := 128; ck_start_state_root := [b];
     ck_end_state_root := []; ck_start_block_hash := []; ck_end_block_hash := [];
     ck_block_hash_root := []; ck_block_proof_root := []; ck_vrf_proof_root := [];
     ck_active_validator_set_root := sample_root; ck_next_validator_set_root := sample_root;
     ck_da_root := [] |}.

Definition sample_data (b round : N) (phase : FinalityVotePhase) : FinalityVoteData :=
  {| v_chunk_id := 0; v_round := round; v_chunk_hash := @Chunk_hash pad32 sample_codec (sample_chunk b);
     v_phase := phase |}.

Definition sample_claim (b round : N) (phase : FinalityVotePhase) : VoteAttestation :=
  {| va_vote_signature := []; va_validator_index := 0; va_vote := sample_data b round phase;
     va_proof_hashes := match phase with Prevote => [] | Precommit => replicate 128 ZERO_HASH end;
     va_unlock_quorum := None; va_signature := [] |}.

Definition sample_aggregate : AggregatedVote := {| av_bits := BitVec.mk 1 [1]; av_signature := [] |}.

Definition sample_cert (b round : N) : FinalityCert :=
  {| fc_proposal :=
       {| bp_chunk := sample_chunk b; bp_round := round; bp_proposer_index := 0; bp_valid_quorum := None;
          bp_round_change_certificate :=
            if round =? 0 then None
            else Some {| rcc_chunk_id := 0; rcc_round := round;
                         rcc_reports := [{| rc_chunk_id := 0; rc_round := round; rc_validator_index := 0;
                                            rc_highest_quorum := None; rc_signature := [] |}] |};
          bp_signature := [] |};
     fc_prevote_attestations := [sample_claim b round Prevote];
     fc_precommit_attestations := [sample_claim b round Precommit];
     fc_chunk_id := 0; fc_round := round;
     fc_chunk_hash := @Chunk_hash pad32 sample_codec (sample_chunk b);
     fc_prevote := sample_aggregate; fc_precommit := sample_aggregate;
     fc_active_validator_set_root := sample_root |}.

Definition sample_domain : ConsensusDomain := {| chain_id := 7; chain_spec_hash := ZERO_HASH |}.

(* ------------------------------------------------------------------ *)
(** ** Properties *)

(** C2: an accepted finality certificate is sound: it is for the given chunk and
    validator set, its proposal comes from the designated leader and respects
    the highest quorum of its round-change certificate, and in both phases the
    marked signers are active, reach the phase's quorum of the active stake, and
    are exactly the claimed ones, each with an individually verified vote and
    attestation signature and a verified quorum behind every declared unlock. *)
Theorem finality_certificate_sound `{Blake3} `{ConsensusCodec} `{Verifier} (d : ConsensusDomain)
    (params : ConsensusParams) (vs : list Validator) (chunk : Chunk) (cert : FinalityCert) :
  verify_finality_using d params vs chunk cert = Ok tt -> certified d params vs chunk cert.
Proof. apply verify_finality_using_Ok. Qed.

Lemma finality_certificate_sound_witness :
  @certified pad32 sample_codec sample_verifier sample_domain ConsensusParams_default sample_set
    (sample_chunk 1) (sample_cert 1 1).
Proof.
  apply (@finality_certificate_sound pad32 sample_codec sample_verifier). vm_compute. reflexivity.
Defined.

(** C7: conflicting certificates of one round are accountable: if two different
    chunks are certified for the same chunk id and round by one validator set,
    then validators holding at least a third of the active stake each signed
    both conflicting prevotes, and likewise (for a possibly different group) both
    conflicting precommits, with signatures that verify under their keys. *)
Theorem same_round_accountability `{Blake3} `{ConsensusCodec} `{Verifier} (d : ConsensusDomain)
    (params : ConsensusParams) (vs : list Validator) (ch1 ch2 : Chunk) (c1 c2 : FinalityCert) :
  verify_finality_using d params vs ch1 c1 = Ok tt ->
  verify_finality_using d params vs ch2 c2 = Ok tt ->
  fc_chunk_id c1 = fc_chunk_id c2 -> fc_round c1 = fc_round c2 ->
  fc_chunk_hash c1 <> fc_chunk_hash c2 ->
  forall phase, exists culprits, a_third_of vs culprits
    /\ forall i, i ∈ culprits ->
         voted d vs i (cert_vote_data c1 phase) /\ voted d vs i (cert_vote_data c2 phase)
         /\ cert_vote_data c1 phase <> cert_vote_data c2 phase.
Proof.
  intros HC1%verify_finality_using_Ok HC2%verify_finality_using_Ok Hid Hround Hhash phase.
  destruct (cert_total _ _ _ _ _ HC1) as [total Htotal].
  assert (cert_vote_data c1 phase <> cert_vote_data c2 phase) as Hne by (intros Heq; by injection Heq).
  destruct phase.
  - destruct (certified_intersection _ _ _ _ _ _ _ _ _ _ _ _ _ Htotal (cert_prevote _ _ _ _ _ HC1)
      (cert_prevote _ _ _ _ _ HC2)) as [Hthird Hboth].
    eexists. split; [exact Hthird|]. intros i Hi. destruct (Hboth i Hi) as [(a1 & _ & <- & Ha1) (a2 & _ & Heq & Ha2)].
    split_and!; [by apply claim_voted|rewrite <- Heq; by apply claim_voted|done].
  - destruct (certified_intersection _ _ _ _ _ _ _ _ _ _ _ _ _ Htotal (cert_precommit _ _ _ _ _ HC1)
      (cert_precommit _ _ _ _ _ HC2)) as [Hthird Hboth].
    eexists. split; [exact Hthird|]. intros i Hi. destruct (Hboth i Hi) as [(a1 & _ & <- & Ha1) (a2 & _ & Heq & Ha2)].
    split_and!; [by apply claim_voted|rewrite <- Heq; by apply claim_voted|done].
Qed.

Lemma same_round_accountability_witness :
  exists culprits, a_third_of sample_set culprits.
Proof.
  destruct (@same_round_accountability pad32 sample_codec sample_verifier sample_domain
    ConsensusParams_default sample_set (sample_chunk 1) (sample_chunk 2) (sample_cert 1 0) (sample_cert 2 0))
    with (phase := Precommit) as (culprits & Hthird & _).
  - vm_compute. reflexivity.
  - vm_compute. reflexivity.
  - reflexivity.
  - reflexivity.
  - vm_compute. discriminate.
  - exists culprits. exact Hthird.
Defined.

(** C8: conflicting certificates of different rounds are accountable: if a chunk
    is certified in one round and a conflicting chunk in a later round, then
    either validators holding at least a third of the active stake are all
    convicted by the lock-violation check, with evidence assembled from the two
    certificates alone, or the later certificate carries a verified prevote
    quorum for the conflicting chunk from a round strictly in between. *)
Theorem cross_round_accountability `{Blake3} `{ConsensusCodec} `{Verifier} (d : ConsensusDomain)
    (params : ConsensusParams) (vs : list Validator) (ch1 ch2 : Chunk) (c1 c2 : FinalityCert) :
  verify_finality_using d params vs ch1 c1 = Ok tt ->
  verify_finality_using d params vs ch2 c2 = Ok tt ->
  fc_chunk_id c1 = fc_chunk_id c2 -> fc_round c1 < fc_round c2 ->
  fc_chunk_hash c1 <> fc_chunk_hash c2 ->
  (exists culprits, a_third_of vs culprits
     /\ forall i, i ∈ culprits -> exists a1 a2,
          a1 ∈ fc_precommit_attestations c1 /\ a2 ∈ fc_prevote_attestations c2
          /\ verify_lock_violation_using d vs i (indexed_vote a1) (indexed_vote a2)
               (lock_evidence c1 a2) (prevote_fraction params) = Ok tt)
  \/ (exists u, verify_quorum_using d vs u (prevote_fraction params) = Ok tt
        /\ v_chunk_id (qc_data u) = fc_chunk_id c2 /\ v_chunk_hash (qc_data u) = fc_chunk_hash c2
        /\ fc_round c1 < v_round (qc_data u) < fc_round c2).
Proof.
  intros HC1%verify_finality_using_Ok HC2%verify_finality_using_Ok Hid Hround Hhash.
  destruct (cert_total _ _ _ _ _ HC1) as [total Htotal].
  destruct (certified_intersection _ _ _ _ _ _ _ _ _ _ _ _ _ Htotal (cert_precommit _ _ _ _ _ HC1)
    (cert_prevote _ _ _ _ _ HC2)) as [Hthird Hboth].
  set (late a := match va_unlock_quorum a with
                 | Some u => fc_round c1 < v_round (qc_data u) | None => False end).
  assert (forall a, Decision (late a)) by (intros a; unfold late; destruct (va_unlock_quorum a); apply _).
  destruct (decide (Exists late (fc_prevote_attestations c2))) as [Hex|Hno].
  - right. apply Exists_exists in Hex as (a & Ha & Hlate). unfold late in Hlate.
    destruct (va_unlock_quorum a) as [u|] eqn:Hu; [|done]. exists u.
    destruct (pc_unlock _ _ _ _ _ _ _ (cert_prevote _ _ _ _ _ HC2) a u Ha Hu) as (? & ? & Hr & ?).
    split_and!; done.
  - left. eexists. split; [exact Hthird|]. intros i Hi.
    destruct (Hboth i Hi) as [(a1 & Ha1 & Hi1 & Hs1) (a2 & Ha2 & <- & Hs2)]. exists a1, a2.
    split; [done|]. split; [done|].
    apply (lock_violation_convicts d params vs ch1 ch2 c1 c2); try done.
    intros u Hu. apply N.le_ngt. intros Hlt. apply Hno, Exists_exists. exists a2. split; [done|].
    unfold late. by rewrite Hu.
Qed.

Lemma cross_round_accountability_witness :
  (exists culprits, a_third_of sample_set culprits)
  \/ exists u, @verify_quorum_using sample_codec sample_verifier sample_domain sample_set u (2, 3) = Ok tt.
Proof.
  destruct (@cross_round_accountability pad32 sample_codec sample_verifier sample_domain
    ConsensusParams_default sample_set (sample_chunk 1) (sample_chunk 2) (sample_cert 1 0) (sample_cert 2 1))
    as [(culprits & Hthird & _)|(u & Hu & _)].
  - vm_compute. reflexivity.
  - vm_compute. reflexivity.
  - reflexivity.
  - reflexivity.
  - vm_compute. discriminate.
  - left. exists culprits. exact Hthird.
  - right. exists u. exact Hu.
Defined.

(** C36: the quorum cache is transparent: starting from a cache of verified
    quorums, the cached check gives exactly the verdict of the full check and
    leaves a cache of verified quorums. *)
Theorem quorum_cache_transparent `{ConsensusCodec} `{Verifier} (d : ConsensusDomain)
    (vs : list Validator) (q : QuorumCertificate) (f : N * N) (c : VerifiedQuorums) :
  (forall q', q' ∈ vq_verified c -> verify_quorum_using d vs q' (vq_fraction c) = Ok tt) ->
  match verify_quorum_with d vs q f c with
  | Ok c' => verify_quorum_using d vs q f = Ok tt
      /\ forall q', q' ∈ vq_verified c' -> verify_quorum_using d vs q' (vq_fraction c') = Ok tt
  | Err e => verify_quorum_using d vs q f = Err e
  end.
Proof.
  intros Hc. pose proof (verify_quorum_with_transparent d vs q f c Hc) as Ht.
  destruct (verify_quorum_with d vs q f c); naive_solver.
Qed.

Lemma quorum_cache_transparent_witness :
  let q := {| qc_data := sample_data 1 0 Prevote; qc_aggregate := sample_aggregate |} in
  @verify_quorum_using sample_codec sample_verifier sample_domain sample_set q (2, 3) = Ok tt.
Proof.
  intros q.
  pose proof (@quorum_cache_transparent sample_codec sample_verifier sample_domain sample_set q
    (2, 3) (VerifiedQuorums_new (2, 3)) (fun q' Hq' => False_ind _ (not_elem_of_nil q' Hq'))) as Ht.
  assert (@verify_quorum_with sample_codec sample_verifier sample_domain sample_set q (2, 3)
    (VerifiedQuorums_new (2, 3)) = Ok {| vq_fraction := (2, 3); vq_verified := [q] |}) as Hq
    by (vm_compute; reflexivity).
  rewrite Hq in Ht. exact (proj1 Ht).
Defined.
