(* ===== verification/Records.v ===== *)
(** * crates/prover-chunk/src/history.rs: authenticated historical records

    A consensus witness carries the frontier of the finalized history and the few
    records the chunk reads, each opened against the incoming history root.  The
    theorems show that a record read from an authenticated witness is the finalized
    one (or exhibits a collision), and that witnesses built from the archive
    authenticate and serve every requested record. *)

From S2P Require Import Prelude External Primitives History Evidence Votes Finality.

(** ** Data *)

Record HistoricalChunk := {
  hc_chunk : Chunk;
  hc_validators : list Validator;
  hc_seed : Hash;
  hc_block_guest_vk_digest : Digest;
  hc_runtime_code_hash : Hash;
  hc_finality : FinalityCert;
}.

Record HistoricalOpening := { ho_record : HistoricalChunk; ho_path : HistoryPath }.

Record HistoryWitness := { hw_frontier : HistoryFrontier; hw_records : list HistoricalOpening }.

Inductive HistoryError := HistAnchor | HistEvidence | HistTransaction | HistProgram | HistUnsupported.

Definition MAX_HISTORY_READS : nat := 8.
Definition MAX_HISTORY_RECORD_BYTES : N := 8 * 1024 * 1024.

(** The Borsh encodings of a historical context and of a whole record. *)
Class RecordCodec := {
  #[global] codec_context :: Borsh EvidenceContext;
  #[global] codec_record :: Borsh HistoricalChunk;
}.

Class RecordCodecLaws `{RecordCodec} : Prop := {
  #[global] codec_context_laws :: BorshLaws EvidenceContext;
}.

(** ** Standard library: searching a sorted slice *)

(** [windows(2).any(|pair| pair[0] >= pair[1])], negated. *)
Fixpoint strictly_increasing (l : list N) : bool :=
  match l with
  | a :: ((b :: _) as rest) => (a <? b) && strictly_increasing rest
  | _ => true
  end.

(** The halving loop of [slice::binary_search_by_key]; [None] when the fuel runs out. *)
Fixpoint binary_search_loop (fuel : nat) (keys : list N) (target : N) (base size : nat) : option nat :=
  match fuel with
  | O => None
  | S fuel =>
      if (1 <? size)%nat then
        let half := (size / 2)%nat in
        let mid := (base + half)%nat in
        let base := match default 0 (keys !! mid) ?= target with Gt => base | _ => mid end in
        binary_search_loop fuel keys target base (size - half)
      else Some base
  end.

Definition binary_search_by_key (keys : list N) (target : N) : option nat :=
  base ← binary_search_loop (S (length keys)) keys target 0 (length keys);
  if bool_decide (keys !! base = Some target) then Some base else None.

(** ** Operations *)

Section records.
Context `{Blake3} `{ConsensusCodec} `{RecordCodec}.

Definition record_context (r : HistoricalChunk) : EvidenceContext := {|
  ctx_chunk_id := ck_chunk_id (hc_chunk r);
  ctx_chunk_hash := Chunk_hash (hc_chunk r);
  end_height := ck_end_height (hc_chunk r);
  validators_root := commitment (hc_validators r);
  ctx_seed := hc_seed r;
  source_block_guest_vk_digest := hc_block_guest_vk_digest r;
  source_runtime_code_hash := hc_runtime_code_hash r;
|}.

Definition context_leaves (chunks : list HistoricalChunk) : list Hash :=
  map (fun record => commitment (record_context record)) chunks.

Definition history_commitment (chunks : list HistoricalChunk) : option Hash :=
  history_root (context_leaves chunks).

(** One iteration of the loop of [authenticate], on the remaining byte budget. *)
Definition authenticate_step (chunk_id : N) (root : Hash) (budget : N) (o : HistoricalOpening) :
    result HistoryError N :=
  let record := ho_record o in
  let context := record_context record in
  let size := len (borsh_to_vec record) in
  budget ← ok_or (checked_sub budget size) HistAnchor;
  _ ← ensure (is_recent_history_index (ck_chunk_id (hc_chunk record)) chunk_id
              && (pindex (ho_path o) =? ck_chunk_id (hc_chunk record))
              && (pcount (ho_path o) =? chunk_id)
              && path_verify (ho_path o) (commitment context) root
              && bool_decide (ck_active_validator_set_root (hc_chunk record) = validators_root context)
              && bool_decide (fc_chunk_hash (hc_finality record) = ctx_chunk_hash context)
              && (fc_chunk_id (hc_finality record) =? ck_chunk_id (hc_chunk record))) HistAnchor;
  Ok budget.

Definition record_ids (w : HistoryWitness) : list N :=
  map (fun o => ck_chunk_id (hc_chunk (ho_record o))) (hw_records w).

Definition authenticate (w : HistoryWitness) (chunk_id : N) (root : Hash) : result HistoryError unit :=
  _ ← ensure ((fcount (hw_frontier w) =? chunk_id)
              && bool_decide (frontier_root (hw_frontier w) = Some root)
              && (length (hw_records w) <=? MAX_HISTORY_READS)%nat
              && strictly_increasing (record_ids w)) HistAnchor;
  _ ← try_fold (authenticate_step chunk_id root) MAX_HISTORY_RECORD_BYTES (hw_records w);
  Ok tt.

(** The opening of one requested record. *)
Definition open_record (chunks : list HistoricalChunk) (leaves : list Hash) (id : N) :
    option HistoricalOpening :=
  let index := N.to_nat id in
  record ← chunks !! index;
  if negb (ck_chunk_id (hc_chunk record) =? id) then None
  else
    path ← path_build leaves index;
    Some {| ho_record := record; ho_path := path |}.

Definition from_history (chunks : list HistoricalChunk) (requested : list N) : option HistoryWitness :=
  count ← try_from U64_MAX (len chunks);
  if (MAX_HISTORY_READS <? length requested)%nat || negb (strictly_increasing requested)
     || existsb (fun id => negb (is_recent_history_index id count)) requested
  then None
  else
    let leaves := context_leaves chunks in
    frontier ← from_leaves leaves;
    records ← mapM (open_record chunks leaves) requested;
    Some {| hw_frontier := frontier; hw_records := records |}.

Definition record (w : HistoryWitness) (chunk_id : N) : result HistoryError HistoricalChunk :=
  _ ← ensure (is_recent_history_index chunk_id (fcount (hw_frontier w))) HistAnchor;
  ok_or (index ← binary_search_by_key (record_ids w) chunk_id;
         opening ← hw_records w !! index;
         Some (ho_record opening)) HistAnchor.

(** What finalization guarantees of an archived record at its position. *)
Definition archived (id : nat) (r : HistoricalChunk) : Prop :=
  ck_chunk_id (hc_chunk r) = N.of_nat id
  /\ ck_active_validator_set_root (hc_chunk r) = commitment (hc_validators r)
  /\ fc_chunk_hash (hc_finality r) = Chunk_hash (hc_chunk r)
  /\ fc_chunk_id (hc_finality r) = ck_chunk_id (hc_chunk r).

(** The encoded size of the archived record at [id]. *)
Definition record_bytes (chunks : list HistoricalChunk) (id : N) : N :=
  match chunks !! N.to_nat id with Some r => len (borsh_to_vec r) | None => 0 end.

(** Equal records, up to the certificate the history does not commit to. *)
Definition same_record (a b : HistoricalChunk) : Prop :=
  hc_chunk a = hc_chunk b /\ hc_validators a = hc_validators b /\ hc_seed a = hc_seed b
  /\ hc_block_guest_vk_digest a = hc_block_guest_vk_digest b
  /\ hc_runtime_code_hash a = hc_runtime_code_hash b.

(** Everything reading one opened record hashes, the record's own inputs last. *)
Definition record_preimages (r : HistoricalChunk) : list bytes :=
  [borsh_to_vec (record_context r); borsh_to_vec (hc_chunk r); borsh_to_vec (hc_validators r)].

End records.

(* ------------------------------------------------------------------ *)
(** ** Searching *)

Lemma strictly_increasing_cons a l :
  strictly_increasing (a :: l) = true <-> strictly_increasing l = true /\ Forall (fun b => a < b) l.
Proof.
  revert a; induction l as [|b l IH]; intros a; [by cbn|]. change (strictly_increasing (a :: b :: l)) with
    ((a <? b) && strictly_increasing (b :: l)). rewrite andb_true_iff, N.ltb_lt, IH, Forall_cons. split.
  - intros (Hab & Hl & Hb). split_and!; try done. eapply Forall_impl; [exact Hb|]. cbn. lia.
  - tauto.
Qed.

Lemma increasing_lookup l i j a b :
  strictly_increasing l = true -> l !! i = Some a -> l !! j = Some b -> (i < j)%nat -> a < b.
Proof.
  revert i j; induction l as [|x l IH]; intros i j; [by rewrite lookup_nil|].
  rewrite strictly_increasing_cons. intros [Hl Hx] Hi Hj Hij. destruct j as [|j]; [lia|].
  destruct i as [|i]; [|eapply (IH i j); try done; lia]. injection Hi as <-.
  rewrite Forall_forall in Hx. apply Hx. by eapply list_elem_of_lookup_2.
Qed.

Lemma binary_search_loop_spec fuel keys target : strictly_increasing keys = true -> forall base size,
  (1 <= size <= fuel)%nat -> (base + size <= length keys)%nat ->
  exists b, binary_search_loop fuel keys target base size = Some b
    /\ forall i, keys !! i = Some target -> (base <= i < base + size)%nat -> b = i.
Proof.
  intros Hinc. induction fuel as [|fuel IH]; intros base size Hsize Hlen; [lia|]. cbn [binary_search_loop].
  destruct (Nat.ltb_spec 1 size).
  2: { exists base. split; [done|]. intros i _ ?. lia. }
  assert (2 * (size / 2) <= size /\ size <= 2 * (size / 2) + 1)%nat as Hhalf.
  { pose proof (Nat.div_mod_eq size 2). pose proof (Nat.mod_upper_bound size 2). lia. }
  revert Hhalf.
  generalize (size / 2)%nat. intros half Hhalf.
  destruct (lookup_lt_is_Some_2 keys (base + half)) as [key Hkey]; [lia|]. rewrite Hkey. change (default 0 (Some key)) with key.
  destruct (N.compare_spec key target) as [->|Hlt|Hgt].
  - destruct (IH (base + half)%nat (size - half)%nat) as (b & Hb & Hfind); [lia..|]. exists b. split; [done|].
    intros i Hi Hin. destruct (decide (i < base + half)%nat); [|apply Hfind; [done|lia]].
    pose proof (increasing_lookup _ _ _ _ _ Hinc Hi Hkey). lia.
  - destruct (IH (base + half)%nat (size - half)%nat) as (b & Hb & Hfind); [lia..|]. exists b. split; [done|].
    intros i Hi Hin. destruct (decide (i < base + half)%nat); [|apply Hfind; [done|lia]].
    pose proof (increasing_lookup _ _ _ _ _ Hinc Hi Hkey). lia.
  - destruct (IH base (size - half)%nat) as (b & Hb & Hfind); [lia..|]. exists b. split; [done|].
    intros i Hi Hin. destruct (decide (i < base + half)%nat); [apply Hfind; [done|lia]|].
    destruct (decide (i = base + half)%nat) as [->|]; [simplify_eq; lia|].
    pose proof (increasing_lookup _ _ _ _ _ Hinc Hkey Hi). lia.
Qed.

(** The search finds exactly the position of the key. *)
Lemma binary_search_spec keys target i : strictly_increasing keys = true ->
  binary_search_by_key keys target = Some i <-> keys !! i = Some target.
Proof.
  intros Hinc. unfold binary_search_by_key. destruct keys as [|k keys]; [by rewrite lookup_nil|].
  destruct (binary_search_loop_spec (S (length (k :: keys))) (k :: keys) target Hinc 0 (length (k :: keys)))
    as (b & -> & Hfind); [cbn; lia..|]. cbn [mbind option_bind]. split.
  - case_bool_decide; [|done]. by intros [= <-].
  - intros Hi. assert (b = i) as ->; [apply Hfind; [done|]|by rewrite bool_decide_true].
    apply lookup_lt_Some in Hi. lia.
Qed.

(* ------------------------------------------------------------------ *)
(** ** Authenticated reads *)

Section facts.
Context `{Blake3} `{ConsensusCodec} `{RecordCodec}.

Lemma is_recent_lt index count : is_recent_history_index index count = true -> index < count.
Proof. unfold is_recent_history_index, is_history_index_within. rewrite andb_true_iff, N.ltb_lt. tauto. Qed.

Lemma authenticate_step_Ok k root budget o budget' :
  authenticate_step k root budget o = Ok budget' ->
  pindex (ho_path o) = ck_chunk_id (hc_chunk (ho_record o)) /\ pcount (ho_path o) = k
  /\ path_verify (ho_path o) (commitment (record_context (ho_record o))) root = true
  /\ ck_active_validator_set_root (hc_chunk (ho_record o)) = commitment (hc_validators (ho_record o)).
Proof.
  unfold authenticate_step. intros (b & _ & (? & Hok & _)%bind_Ok)%bind_Ok.
  apply ensure_Ok in Hok. rewrite !andb_true_iff, !N.eqb_eq, !bool_decide_eq_true in Hok. naive_solver.
Qed.

Lemma authenticate_steps k root budget os budget' o :
  try_fold (authenticate_step k root) budget os = Ok budget' -> o ∈ os ->
  exists b b', authenticate_step k root b o = Ok b'.
Proof.
  revert budget; induction os as [|x os IH]; intros budget; [by intros _ ?%not_elem_of_nil|].
  cbn [try_fold]. intros (b & Hx & Hrest)%bind_Ok [->|Ho]%elem_of_cons; eauto.
Qed.

Lemma record_Ok w id r : record w id = Ok r -> exists o, o ∈ hw_records w /\ ho_record o = r
  /\ id < fcount (hw_frontier w) /\ (strictly_increasing (record_ids w) = true -> ck_chunk_id (hc_chunk r) = id).
Proof.
  unfold record. intros (? & Hrec%ensure_Ok & Hfind)%bind_Ok. apply is_recent_lt in Hrec.
  destruct (binary_search_by_key (record_ids w) id) as [i|] eqn:Hi; cbn in Hfind; [|done].
  destruct (hw_records w !! i) as [o|] eqn:Ho; cbn in Hfind; [|done]. injection Hfind as <-.
  exists o. split; [by eapply list_elem_of_lookup_2|]. split_and!; try done. intros Hinc.
  apply binary_search_spec in Hi; [|done]. unfold record_ids in Hi. rewrite list_lookup_fmap, Ho in Hi. by injection Hi.
Qed.

Lemma record_found w id o : strictly_increasing (record_ids w) = true -> o ∈ hw_records w ->
  ck_chunk_id (hc_chunk (ho_record o)) = id -> is_recent_history_index id (fcount (hw_frontier w)) = true ->
  record w id = Ok (ho_record o).
Proof.
  intros Hinc [i Hi]%list_elem_of_lookup Hid Hrec. unfold record.
  assert (binary_search_by_key (record_ids w) id = Some i) as ->; [|rewrite Hrec; cbn; by rewrite Hi].
  apply binary_search_spec; [done|]. unfold record_ids. rewrite list_lookup_fmap, Hi. cbn. by rewrite Hid.
Qed.

Lemma commitment_inj {A} `{BorshLaws A} (x y : A) xs ys : commitment x = commitment y ->
  x = y \/ Collides (borsh_to_vec x :: xs) (borsh_to_vec y :: ys).
Proof.
  unfold commitment, blake3_256. intros [Heq|?]%(collides_here _ _ xs ys); [left; by apply borsh_to_vec_inj|by right].
Qed.

(** A context binds the record it was taken from. *)
Lemma record_context_binds `{!ConsensusCodecLaws} `{!RecordCodecLaws} a b :
  commitment (record_context a) = commitment (record_context b) ->
  same_record a b \/ Collides (record_preimages a) (record_preimages b).
Proof.
  unfold record_preimages. intros Hctx.
  eapply commitment_inj in Hctx as [Heq|Hcol]; [|by right].
  injection Heq as _ Hchunk _ Hvals Hseed Hvk Hcode. change (commitment (hc_chunk a) = commitment (hc_chunk b)) in Hchunk.
  eapply commitment_inj in Hchunk as [Hchunk|Hcol]; [|right; by apply collides_there].
  eapply commitment_inj in Hvals as [Hvals|Hcol]; [|right; by do 2 apply collides_there].
  left. by split_and!.
Qed.

Lemma history_commitment_root chunks root : len chunks <= U64_MAX ->
  history_commitment chunks = Some root <-> root = reference_root (context_leaves chunks).
Proof.
  intros Hlen. unfold history_commitment, history_root.
  assert (len (context_leaves chunks) = len chunks) as Hl by (unfold len, context_leaves; by rewrite length_map).
  destruct (from_leaves_spec (context_leaves chunks)) as (f & -> & Hf); [by rewrite Hl|]. cbn [mbind option_bind].
  rewrite (frontier_root_spec (context_leaves chunks) f) by (by rewrite ?Hl). naive_solver.
Qed.

Lemma lookup_context_leaves chunks id :
  leaves_at (context_leaves chunks) id
  = (fun h => commitment (record_context h)) <$> (chunks !! N.to_nat id).
Proof. unfold leaves_at, context_leaves. by rewrite list_lookup_fmap. Qed.

(** The opening of an archived record passes its step. *)
Lemma open_record_spec chunks id r : len chunks <= U64_MAX -> chunks !! N.to_nat id = Some r ->
  archived (N.to_nat id) r -> is_recent_history_index id (len chunks) = true ->
  exists o, open_record chunks (context_leaves chunks) id = Some o /\ ho_record o = r
    /\ opening_of (context_leaves chunks) id (ho_path o)
    /\ forall budget, len (borsh_to_vec r) <= budget ->
       authenticate_step (len chunks) (reference_root (context_leaves chunks)) budget o
       = Ok (budget - len (borsh_to_vec r)).
Proof.
  intros Hlen Hr (Hid & Hroot & Hhash & Hcid) Hrec. rewrite N2Nat.id in Hid. unfold open_record. rewrite Hr. cbn [mbind option_bind].
  rewrite Hid, N.eqb_refl. cbn [negb].
  assert (length (context_leaves chunks) = length chunks) as Hl by apply length_map.
  destruct (path_build_spec (context_leaves chunks) (N.to_nat id)) as (p & -> & Hp).
  { rewrite Hl. by eapply lookup_lt_Some. } { unfold len. by rewrite Hl. }
  cbn [mbind option_bind]. rewrite N2Nat.id in Hp. eexists. split; [done|]. split; [done|]. split; [done|].
  intros budget Hb. unfold authenticate_step. cbn [ho_record ho_path].
  assert (checked_sub budget (len (borsh_to_vec r)) = Some (budget - len (borsh_to_vec r))) as ->
    by (by apply checked_sub_Some).
  assert (path_verify p (commitment (record_context r)) (reference_root (context_leaves chunks)) = true) as ->.
  { apply (opening_verifies _ id); [unfold len; by rewrite Hl| |done]. by rewrite lookup_context_leaves, Hr. }
  destruct Hp as (-> & -> & _). unfold len at 2 3. rewrite Hl. cbn [record_context ctx_chunk_hash validators_root].
  rewrite Hid, Hrec, !N.eqb_refl, !bool_decide_true by done. rewrite Hcid, Hid, N.eqb_refl. done.
Qed.

Lemma opened_records chunks requested : len chunks <= U64_MAX ->
  Forall (fun id => is_recent_history_index id (len chunks) = true) requested ->
  (forall i r, chunks !! i = Some r -> archived i r) ->
  exists os, mapM (open_record chunks (context_leaves chunks)) requested = Some os
    /\ map (fun o => ck_chunk_id (hc_chunk (ho_record o))) os = requested
    /\ Forall (fun o => exists id, id ∈ requested /\ chunks !! N.to_nat id = Some (ho_record o)
                            /\ opening_of (context_leaves chunks) id (ho_path o)) os
    /\ forall budget, sum_by (record_bytes chunks) requested <= budget -> exists left_,
       try_fold (authenticate_step (len chunks) (reference_root (context_leaves chunks))) budget os = Ok left_.
Proof.
  intros Hlen Hrec Harch. induction Hrec as [|id requested Hid Hrec (os & Hos & Hids & Hin & Hfold)].
  { exists []. split_and!; try done. intros budget _. by exists budget. }
  apply is_recent_lt in Hid as Hlt.
  destruct (lookup_lt_is_Some_2 chunks (N.to_nat id)) as [r Hr]; [unfold len in Hlt; lia|].
  destruct (open_record_spec chunks id r) as (o & Ho & <- & Hop & Hstep); try done; [by apply Harch|].
  exists (o :: os). cbn [mapM]. rewrite Ho. cbn [mbind option_bind]. rewrite Hos. split; [done|]. split_and!.
  - cbn [map]. rewrite Hids. destruct (Harch _ _ Hr) as [Hcid _]. by rewrite Hcid, N2Nat.id.
  - constructor; [exists id; split; [left|by split]|]. eapply Forall_impl; [exact Hin|]. intros o' (id' & Hid' & Hl).
    exists id'. by split; [right|].
  - intros budget. rewrite sum_by_cons. unfold record_bytes at 1. rewrite Hr. intros Hb. cbn [try_fold].
    rewrite Hstep by lia. apply Hfold. lia.
Qed.

Lemma witness_complete chunks requested :
  len chunks <= U64_MAX -> (length requested <= MAX_HISTORY_READS)%nat ->
  strictly_increasing requested = true ->
  Forall (fun id => is_recent_history_index id (len chunks) = true) requested ->
  (forall i r, chunks !! i = Some r -> archived i r) ->
  sum_by (record_bytes chunks) requested <= MAX_HISTORY_RECORD_BYTES ->
  exists w root, from_history chunks requested = Some w /\ history_commitment chunks = Some root
    /\ authenticate w (len chunks) root = Ok tt
    /\ Forall (fun o => exists id, opening_of (context_leaves chunks) id (ho_path o)) (hw_records w)
    /\ forall id, id ∈ requested -> exists r, chunks !! N.to_nat id = Some r /\ record w id = Ok r.
Proof.
  intros Hlen Hcount Hinc Hrec Harch Hbytes.
  destruct (opened_records chunks requested Hlen Hrec Harch) as (os & Hos & Hids & Hin & Hfold).
  destruct (from_leaves_spec (context_leaves chunks)) as (f & Hf & Hof); [unfold len, context_leaves; by rewrite length_map|].
  assert (fcount f = len chunks) as Hfc by (destruct Hof as [-> _]; unfold len, context_leaves; by rewrite length_map).
  exists {| hw_frontier := f; hw_records := os |}, (reference_root (context_leaves chunks)). split_and!.
  - unfold from_history, try_from. rewrite (proj2 (N.leb_le _ _) Hlen). cbn [mbind option_bind].
    rewrite (proj2 (Nat.ltb_ge _ _) Hcount), Hinc. cbn [negb orb].
    assert (existsb (fun id => negb (is_recent_history_index id (len chunks))) requested = false) as ->.
    { clear -Hrec. induction Hrec as [|id l Hid _ IH]; [done|]. cbn. by rewrite Hid. }
    rewrite Hf. cbn [mbind option_bind]. by rewrite Hos.
  - by apply history_commitment_root.
  - unfold authenticate, record_ids. cbn [hw_frontier hw_records]. rewrite Hfc, N.eqb_refl, Hids, Hinc.
    rewrite (frontier_root_spec (context_leaves chunks) f) by (done || (unfold len, context_leaves; by rewrite length_map)).
    rewrite bool_decide_true by done. rewrite <- Hids, length_map in Hcount. rewrite (proj2 (Nat.leb_le _ _) Hcount).
    destruct (Hfold MAX_HISTORY_RECORD_BYTES) as [left_ Hleft]; [done|cbn; by rewrite Hleft].
  - eapply Forall_impl; [exact Hin|]. naive_solver.
  - intros id Hid. rewrite <- Hids in Hid. apply list_elem_of_fmap in Hid as (o & -> & Ho).
    rewrite Forall_forall in Hin. destruct (Hin o Ho) as (id & Hid & Hl & _). exists (ho_record o).
    destruct (Harch _ _ Hl) as [Hcid _]. rewrite N2Nat.id in Hcid. rewrite Hcid. split; [done|].
    apply record_found; try done; cbn [hw_frontier hw_records].
    + unfold record_ids. cbn [hw_records]. by rewrite Hids.
    + rewrite Hfc. rewrite Forall_forall in Hrec. by apply Hrec.
Qed.

End facts.

(** An archive of one finalized chunk, for witnesses; the size of a record is the
    only use of its encoding. *)
Definition sample_record_codec : RecordCodec :=
  {| codec_context := codec_borsh;
     codec_record := {| borsh_to_vec _ := []; borsh_from_slice _ := None |} |}.

Definition sample_record : HistoricalChunk :=
  {| hc_chunk := sample_chunk 1; hc_validators := sample_set; hc_seed := ZERO_HASH;
     hc_block_guest_vk_digest := []; hc_runtime_code_hash := ZERO_HASH; hc_finality := sample_cert 1 0 |}.

Lemma sample_record_codec_laws : @RecordCodecLaws sample_record_codec.
Proof. split. apply codec_borsh_laws. Qed.

Lemma sample_archive i r : [sample_record] !! i = Some r -> @archived pad32 sample_codec i r.
Proof. destruct i; [|done]. intros [= <-]. repeat split. Qed.

(* ------------------------------------------------------------------ *)
(** ** Properties *)

(** C29: reading history is sound: a record looked up in a witness that
    authenticates against the commitment of the finalized chunks is the finalized
    record at that very chunk id, up to the certificate the commitment leaves out
    (the same chunk, validator set, seed and programs); otherwise the opening or
    the record exhibits a BLAKE3 collision. *)
Theorem authenticated_record_sound `{Blake3Laws} `{ConsensusCodecLaws} `{RecordCodecLaws}
    (chunks : list HistoricalChunk) (w : HistoryWitness) (chunk_id id : N) (root : Hash) (r : HistoricalChunk) :
  len chunks <= U64_MAX -> chunk_id <= U64_MAX ->
  Forall (fun o => Forall hash_sized (siblings (ho_path o))) (hw_records w) ->
  history_commitment chunks = Some root -> authenticate w chunk_id root = Ok tt -> record w id = Ok r ->
  (exists h, chunks !! N.to_nat id = Some h /\ same_record r h /\ ck_chunk_id (hc_chunk r) = id
     /\ chunk_id = len chunks)
  \/ (exists o, o ∈ hw_records w /\ Collides (path_preimages (ho_path o) (commitment (record_context (ho_record o))))
                                    (tree_preimages (context_leaves chunks) id))
  \/ (exists h, chunks !! N.to_nat id = Some h /\ Collides (record_preimages r) (record_preimages h)).
Proof.
  intros Hlen Hk Hsized Hroot Hauth Hrec. apply history_commitment_root in Hroot as ->; [|done].
  unfold authenticate in Hauth. apply bind_Ok in Hauth as (? & Hpre & Hfold). apply bind_Ok in Hfold as (? & Hfold & _).
  apply ensure_Ok in Hpre. rewrite !andb_true_iff in Hpre. destruct Hpre as [_ Hinc].
  apply record_Ok in Hrec as (o & Ho & <- & _ & Hid). specialize (Hid Hinc).
  destruct (authenticate_steps _ _ _ _ _ _ Hfold Ho) as (b & b' & (Hi & Hc & Hv & _)%authenticate_step_Ok).
  rewrite Forall_forall in Hsized.
  apply path_verify_sound in Hv; [|unfold len, context_leaves; by rewrite length_map|by rewrite Hc|by apply Hsized].
  rewrite Hi, Hid, lookup_context_leaves in Hv. destruct Hv as [[Hcount Hleaf]|Hcol]; [|right; left; by exists o].
  destruct (chunks !! N.to_nat id) as [h|] eqn:Hh; [|done]. injection Hleaf as Hleaf.
  symmetry in Hleaf. apply record_context_binds in Hleaf as [Hsame|Hcol]; [left|right; right; by exists h].
  exists h. split_and!; try done. rewrite <- Hc, Hcount. unfold len, context_leaves. by rewrite length_map.
Qed.


Lemma authenticated_record_sound_witness :
  exists w root,
    @history_commitment pad32 sample_codec sample_record_codec [sample_record] = Some root
    /\ @authenticate pad32 sample_codec sample_record_codec w 1 root = Ok tt
    /\ record w 0 = Ok sample_record /\ ((exists h, [sample_record] !! 0%nat = Some h /\ same_record sample_record h)
        \/ (exists xs ys, @Collides pad32 xs ys)).
Proof.
  destruct (@witness_complete pad32 sample_codec sample_record_codec [sample_record] [0])
    as (w & root & _ & Hroot & Hauth & Hop & Hserve);
    [by vm_compute|apply Nat.leb_le; reflexivity|reflexivity|by repeat constructor|exact sample_archive|by vm_compute|].
  exists w, root. destruct (Hserve 0) as (r & [= <-] & Hrec); [left|]. split; [exact Hroot|].
  split; [exact Hauth|]. split; [exact Hrec|].
  destruct (@authenticated_record_sound pad32 pad32_laws sample_codec sample_codec_laws sample_record_codec
    sample_record_codec_laws [sample_record] w 1 0 root sample_record) as [(h & Hh & Hs & _)|[(o & _ & Hc)|(h & _ & Hc)]].
  - by vm_compute.
  - by vm_compute.
  - eapply Forall_impl; [exact Hop|]. cbn. intros o (id & _ & _ & ->). apply Forall_map, Forall_forall.
    intros l _. apply (@length_subtree pad32 pad32_laws).
  - exact Hroot.
  - exact Hauth.
  - exact Hrec.
  - left. by exists h.
  - right. eexists _, _. exact Hc.
  - right. eexists _, _. exact Hc.
Defined.

(** C30: archives serve every read: for any increasing list of at most eight
    recent chunk ids whose records fit the byte budget, the witness built from an
    archive of finalized records exists, authenticates against the archive's
    commitment, and answers each requested id with the archived record. *)
Theorem history_witness_complete `{Blake3} `{ConsensusCodec} `{RecordCodec}
    (chunks : list HistoricalChunk) (requested : list N) :
  len chunks <= U64_MAX -> (length requested <= MAX_HISTORY_READS)%nat ->
  strictly_increasing requested = true ->
  Forall (fun id => is_recent_history_index id (len chunks) = true) requested ->
  (forall i r, chunks !! i = Some r -> archived i r) ->
  sum_by (record_bytes chunks) requested <= MAX_HISTORY_RECORD_BYTES ->
  exists w root, from_history chunks requested = Some w /\ history_commitment chunks = Some root
    /\ authenticate w (len chunks) root = Ok tt
    /\ forall id, id ∈ requested -> exists r, chunks !! N.to_nat id = Some r /\ record w id = Ok r.
Proof.
  intros Hlen Hcount Hinc Hrec Harch Hbytes.
  destruct (witness_complete chunks requested) as (w & root & Hw & Hroot & Hauth & _ & Hserve); try done.
  by exists w, root.
Qed.

Lemma history_witness_complete_witness :
  exists w root, @from_history pad32 sample_codec sample_record_codec [sample_record] [0] = Some w
    /\ @history_commitment pad32 sample_codec sample_record_codec [sample_record] = Some root
    /\ @authenticate pad32 sample_codec sample_record_codec w 1 root = Ok tt
    /\ forall id, id ∈ [0] -> exists r, [sample_record] !! N.to_nat id = Some r /\ record w id = Ok r.
Proof.
  apply (@history_witness_complete pad32 sample_codec sample_record_codec [sample_record] [0]).
  - by vm_compute.
  - apply Nat.leb_le. reflexivity.
  - reflexivity.
  - by repeat constructor.
  - exact sample_archive.
  - by vm_compute.
Defined.
