(* ===== verification/Blocks.v ===== *)
(** * Headers, bodies and proposer checks

    Block headers, bodies, program pieces and proof envelopes
    (crates/consensus-types/src/lib.rs), the proposer signature and lottery check
    (crates/prover-chunk/src/proposer.rs), the data-availability commitment of a
    body (consensus.rs) and the compact body of the chunk guest (body.rs). *)

From S2P Require Import Prelude External Primitives History Evidence Vrf Votes Finality Records.

(** ** Data *)

Record Header := {
  h_height : N;
  h_slot : N;
  h_parent_hash : Hash;
  h_proposer_index : N;
  h_vrf_proof : BlsSignature;
  h_state_root : Hash;
  h_transactions_root : Hash;
  h_votes_root : Hash;
  h_da_root : Hash;
  h_runtime_extra : Hash;
  h_receipts_root : Hash;
  h_gas_used : N;
  h_gas_limit : N;
  h_timestamp : N;
  h_signature : BlsSignature;
}.

(** [HeaderHashPayload]: the header without its signature. *)
Record HeaderHashPayload := {
  hp_height : N;
  hp_slot : N;
  hp_parent_hash : Hash;
  hp_proposer_index : N;
  hp_vrf_proof : BlsSignature;
  hp_state_root : Hash;
  hp_transactions_root : Hash;
  hp_votes_root : Hash;
  hp_da_root : Hash;
  hp_runtime_extra : Hash;
  hp_receipts_root : Hash;
  hp_gas_used : N;
  hp_gas_limit : N;
  hp_timestamp : N;
}.

Record ProgramPiece := {
  pp_root : Hash;
  pp_total_len : N;
  pp_offset : N;
  pp_bytes : bytes;
  pp_opening : MerkleOpening;
}.

Record Body := {
  transactions : list bytes;
  finality_votes : list FinalityVote;
  evidence_proofs : list EvidenceArtifact;
  programs : list ProgramPiece;
}.

Record BlockProofPublicInputs := {
  pi_chain_id : N;
  pi_height : N;
  pi_parent_block_hash : Hash;
  pi_block_hash : Hash;
  pi_state_root_before : Hash;
  pi_state_root_after : Hash;
  pi_transactions_root : Hash;
  pi_receipt_root : Hash;
  pi_da_root : Hash;
  pi_vm_code_hash : Hash;
  pi_block_program : Digest;
  pi_gas_used : N;
  pi_gas_limit : N;
  pi_proposer_address : Hash;
  pi_runtime_extra : Hash;
}.

Record BlockProof := {
  bpr_height : N;
  bpr_block_hash : Hash;
  bpr_public_inputs : BlockProofPublicInputs;
  bpr_proof_bytes : bytes;
}.

Definition MAX_PROGRAM_PIECE_BYTES : N := 512 * 1024.
Definition MAX_PROGRAM_PIECES_PER_BLOCK : nat := 2.
Definition MAX_PROGRAM_BYTES : N := 16 * 1024 * 1024.

#[export] Instance VoteAttestation_eq_dec : EqDecision VoteAttestation.
Proof. solve_decision. Defined.
#[export] Instance FinalityVote_eq_dec : EqDecision FinalityVote.
Proof. solve_decision. Defined.
#[export] Instance MerkleOpening_eq_dec : EqDecision MerkleOpening.
Proof. solve_decision. Defined.
#[export] Instance ProgramPiece_eq_dec : EqDecision ProgramPiece.
Proof. solve_decision. Defined.

(** The Borsh encodings of headers, body lanes and proof envelopes. *)
Class BlockCodec := {
  #[global] codec_header :: Borsh HeaderHashPayload;
  #[global] codec_body :: Borsh Body;
  #[global] codec_transaction :: Borsh bytes;
  #[global] codec_finality_vote :: Borsh FinalityVote;
  #[global] codec_piece :: Borsh ProgramPiece;
  #[global] codec_block_proof :: Borsh BlockProof;
  #[global] codec_counted :: Borsh (bytes * N * Hash);
}.

(** [b"neutrino-program-artifact"]. *)
Definition PROGRAM_ARTIFACT_TAG : bytes :=
  [110; 101; 117; 116; 114; 105; 110; 111; 45; 112; 114; 111; 103; 114; 97; 109; 45;
   97; 114; 116; 105; 102; 97; 99; 116].

(** ** Headers *)

Definition header_payload (h : Header) : HeaderHashPayload := {|
  hp_height := h_height h; hp_slot := h_slot h; hp_parent_hash := h_parent_hash h;
  hp_proposer_index := h_proposer_index h; hp_vrf_proof := h_vrf_proof h;
  hp_state_root := h_state_root h; hp_transactions_root := h_transactions_root h;
  hp_votes_root := h_votes_root h; hp_da_root := h_da_root h; hp_runtime_extra := h_runtime_extra h;
  hp_receipts_root := h_receipts_root h; hp_gas_used := h_gas_used h; hp_gas_limit := h_gas_limit h;
  hp_timestamp := h_timestamp h;
|}.

(** [same_consensus_content]: the header-committed lanes agree. *)
Definition same_consensus_content (a b : Body) : bool :=
  bool_decide (transactions a = transactions b) && bool_decide (finality_votes a = finality_votes b)
  && bool_decide (programs a = programs b).

Definition program_piece_count (total_len : N) : N := div_ceil total_len MAX_PROGRAM_PIECE_BYTES.

Definition piece_is_well_formed (p : ProgramPiece) : bool :=
  let piece := MAX_PROGRAM_PIECE_BYTES in
  let expected_len := N.min (saturating_sub (pp_total_len p) (pp_offset p)) piece in
  (0 <? pp_total_len p) && (pp_total_len p <=? MAX_PROGRAM_BYTES)
  && (pp_offset p mod piece =? 0) && (pp_offset p <? pp_total_len p)
  && (len (pp_bytes p) =? expected_len)
  && (ocount (pp_opening p) =? program_piece_count (pp_total_len p))
  && (oindex (pp_opening p) =? pp_offset p / piece)
  && (length (osiblings (pp_opening p)) <=? 64)%nat.

Section blocks.
Context `{Blake3} `{BlockCodec}.

Definition Header_hash (h : Header) : Hash := blake3_256 (borsh_to_vec (header_payload h)).

Definition program_content_hash (total_len : N) (root : Hash) : Hash :=
  commitment (PROGRAM_ARTIFACT_TAG, total_len, root).

Definition piece_content_hash (p : ProgramPiece) : Hash :=
  program_content_hash (pp_total_len p) (pp_root p).

Definition piece_authenticates (p : ProgramPiece) : bool :=
  piece_is_well_formed p
  && opening_verify (pp_opening p) (blake3_256 (pp_bytes p))
       (counted_merkle_root (ocount (pp_opening p)) (pp_root p)).

Definition programs_well_formed (b : Body) : bool :=
  (length (programs b) <=? MAX_PROGRAM_PIECES_PER_BLOCK)%nat && forallb piece_authenticates (programs b).

(** ** Data availability *)

(** The [expect] on the lane length panics, as [None]; lanes read from a Borsh
    encoding have a [u32] length. *)
Definition lane_root `{Borsh A} (lane : list A) : option (N * Hash) :=
  count ← try_from U32_MAX (len lane);
  root ← merkle_root_from_hashes (map commitment lane);
  Some (count, root).

Definition body_da_root (body : Body) : option Hash :=
  transactions ← lane_root (transactions body);
  votes ← lane_root (finality_votes body);
  programs ← lane_root (programs body);
  da_root_from_lane_roots (transactions, votes, programs).

End blocks.

(** ** The compact body of the chunk guest *)

Record ConsensusBody := { cb_finality_votes : list FinalityVote; cb_program_leaves : list Hash }.

Record TransactionSummary := { transaction_count : N }.

(** What the model needs of [ConsensusError] here. *)
Inductive ConsensusError := ConsensusHeader.

Section compact.
Context `{Blake3} `{BlockCodec}.
(** [borsh::from_slice::<Transaction>] succeeds. *)
Variable transaction_decodes : bytes -> bool.

Definition ConsensusBody_from_body (body : Body) : result HistoryError ConsensusBody :=
  _ ← ensure (forallb transaction_decodes (transactions body)) HistTransaction;
  _ ← ensure (programs_well_formed body) HistProgram;
  Ok {| cb_finality_votes := finality_votes body; cb_program_leaves := map commitment (programs body) |}.

Definition ConsensusBody_validate (b : ConsensusBody) (header : Header) (summary : TransactionSummary) :
    result ConsensusError unit :=
  votes ← ok_or (merkle_root_from_hashes (map commitment (cb_finality_votes b))) ConsensusHeader;
  _ ← ensure (length (cb_program_leaves b) <=? MAX_PROGRAM_PIECES_PER_BLOCK)%nat ConsensusHeader;
  vote_count ← ok_or (try_from U32_MAX (len (cb_finality_votes b))) ConsensusHeader;
  program_count ← ok_or (try_from U32_MAX (len (cb_program_leaves b))) ConsensusHeader;
  program_root ← ok_or (merkle_root_of_hashes (cb_program_leaves b)) ConsensusHeader;
  da ← ok_or (da_root_from_lane_roots
                ((transaction_count summary, h_transactions_root header), (vote_count, votes),
                 (program_count, program_root))) ConsensusHeader;
  ensure (bool_decide (h_votes_root header = votes) && bool_decide (h_da_root header = da)) ConsensusHeader.

End compact.

(** ** Proposers *)

Inductive ProposerError := ProposerValidator | ProposerSignature | ProposerVrf | ProposerIneligible.

Record Proposers := {
  pr_validators : list Validator;
  pr_total : option N;
  pr_seed : Hash;
  pr_expected : N;
}.

Definition Proposers_new (validators : list Validator) (seed : Hash) (expected : N) : Proposers :=
  {| pr_validators := validators; pr_total := active_stake_total validators; pr_seed := seed;
     pr_expected := expected |}.

(** [validators.get(index).filter(is_active)]. *)
Definition active_get (validators : list Validator) (index : N) : option Validator :=
  v ← validators !! N.to_nat index;
  if is_active v then Some v else None.

Section proposers.
Context `{Verifier} `{Sha256}.

Definition verify_header_signature_with (header : Header) (header_hash : Hash) (domain : ConsensusDomain)
    (validators : list Validator) : result ProposerError unit :=
  validator ← ok_or (active_get validators (h_proposer_index header)) ProposerValidator;
  let message := signing_message domain DOMAIN_PROPOSER_SIG header_hash in
  ensure (verifier_verify (pubkey validator) message (h_signature header)) ProposerSignature.

(** [is_eligible] never panics ([Vrf.is_eligible_exact]). *)
Definition verify_proposer_with (header : Header) (header_hash : Hash) (domain : ConsensusDomain)
    (proposers : Proposers) : result ProposerError unit :=
  let validators := pr_validators proposers in
  _ ← verify_header_signature_with header header_hash domain validators;
  validator ← ok_or (active_get validators (h_proposer_index header)) ProposerValidator;
  total ← ok_or (pr_total proposers) ProposerValidator;
  let message := vrf_message domain (pr_seed proposers) (h_slot header) in
  _ ← ensure (verifier_verify (pubkey validator) message (h_vrf_proof header)) ProposerVrf;
  let output := sha256_digest (h_vrf_proof header) in
  ensure (default false (is_eligible output (effective_stake validator) total (pr_expected proposers)))
    ProposerIneligible.

End proposers.

(* ------------------------------------------------------------------ *)
(** ** A concrete codec and body, for witnesses *)

#[export] Instance HeaderHashPayload_codec : Codec HeaderHashPayload.
Proof.
  refine (via_codec
    (fun h => (hp_height h, hp_slot h, hp_parent_hash h, hp_proposer_index h, hp_vrf_proof h, hp_state_root h,
               hp_transactions_root h, hp_votes_root h, hp_da_root h, hp_runtime_extra h, hp_receipts_root h,
               hp_gas_used h, hp_gas_limit h, hp_timestamp h))
    (fun '(a, b, c, d, e, f, g, h, i, j, k, l, m, n) =>
       {| hp_height := a; hp_slot := b; hp_parent_hash := c; hp_proposer_index := d; hp_vrf_proof := e;
          hp_state_root := f; hp_transactions_root := g; hp_votes_root := h; hp_da_root := i;
          hp_runtime_extra := j; hp_receipts_root := k; hp_gas_used := l; hp_gas_limit := m;
          hp_timestamp := n |}) _).
  by intros [].
Defined.

Definition sample_block_codec : BlockCodec := {|
  codec_header := codec_borsh;
  codec_body := {| borsh_to_vec _ := []; borsh_from_slice _ := None |};
  codec_transaction := codec_borsh;
  codec_finality_vote := {| borsh_to_vec v := enc (fv_signature v); borsh_from_slice _ := None |};
  codec_piece := {| borsh_to_vec p := enc (pp_root p); borsh_from_slice _ := None |};
  codec_block_proof := {| borsh_to_vec p := enc (bpr_proof_bytes p); borsh_from_slice _ := None |};
  codec_counted := codec_borsh;
|}.

Definition sample_body : Body :=
  {| transactions := [[1; 2]; [3]]; finality_votes := []; evidence_proofs := []; programs := [] |}.

(** A header committing to [sample_body] with the given availability root. *)
Definition sample_header (da : Hash) : Header :=
  {| h_height := 1; h_slot := 5; h_parent_hash := ZERO_HASH; h_proposer_index := 0; h_vrf_proof := [];
     h_state_root := ZERO_HASH;
     h_transactions_root :=
       default [] (snd <$> @lane_root pad32 _ (@codec_transaction sample_block_codec) (transactions sample_body));
     h_votes_root := ZERO_HASH; h_da_root := da; h_runtime_extra := ZERO_HASH;
     h_receipts_root := ZERO_HASH; h_gas_used := 0; h_gas_limit := 0; h_timestamp := 0; h_signature := [] |}.

(* ------------------------------------------------------------------ *)
(** ** Properties *)

(** C40: the compact body the chunk guest validates stands for the whole body: for
    a body whose lanes fit their counters, given the transaction root and count
    the block proof binds, validating the compact form accepts exactly the headers
    that commit to the votes and to the full data-availability root of the body. *)
Theorem compact_body_exact `{Blake3} `{BlockCodec} (transaction_decodes : bytes -> bool) (body : Body)
    (compact : ConsensusBody) (header : Header) (summary : TransactionSummary) :
  ConsensusBody_from_body transaction_decodes body = Ok compact ->
  lane_root (transactions body) = Some (transaction_count summary, h_transactions_root header) ->
  len (finality_votes body) <= U32_MAX ->
  ConsensusBody_validate compact header summary = Ok tt
  <-> body_da_root body = Some (h_da_root header)
      /\ merkle_root_from_hashes (map commitment (finality_votes body)) = Some (h_votes_root header).
Proof.
  unfold ConsensusBody_from_body. intros (? & _ & (? & Hprog & [= <-])%bind_Ok)%bind_Ok Htx Hvotes.
  apply ensure_Ok in Hprog. unfold programs_well_formed in Hprog. rewrite andb_true_iff in Hprog.
  destruct Hprog as [Hcount _]. apply Nat.leb_le in Hcount as Hle.
  assert (len (programs body) <= U32_MAX) as Hprogs.
  { unfold len. transitivity 2; [|by vm_compute]. unfold MAX_PROGRAM_PIECES_PER_BLOCK in Hle. lia. }
  unfold ConsensusBody_validate, body_da_root. cbn [cb_finality_votes cb_program_leaves]. rewrite Htx.
  unfold lane_root, try_from, merkle_root_of_hashes. rewrite length_map, Hcount.
  replace (len (map commitment (programs body))) with (len (programs body)) by (unfold len; by rewrite length_map).
  rewrite (proj2 (N.leb_le _ _) Hvotes), (proj2 (N.leb_le _ _) Hprogs).
  destruct (merkle_root_from_hashes_total (map commitment (finality_votes body))) as [vr ->].
  destruct (merkle_root_from_hashes_total (map commitment (programs body))) as [pr ->]. cbn -[da_root_from_lane_roots].
  destruct (da_root_from_lane_roots _) as [da|]; cbn; [|naive_solver].
  rewrite ensure_Ok, andb_true_iff, !bool_decide_eq_true. naive_solver.
Qed.

Lemma compact_body_exact_witness :
  let header := sample_header (default [] (@body_da_root pad32 sample_block_codec sample_body)) in
  @ConsensusBody_validate pad32 sample_block_codec {| cb_finality_votes := []; cb_program_leaves := [] |}
    header {| transaction_count := 2 |} = Ok tt.
Proof.
  intros header. apply (@compact_body_exact pad32 sample_block_codec (fun _ => true) sample_body
    {| cb_finality_votes := []; cb_program_leaves := [] |} header {| transaction_count := 2 |}).
  - reflexivity.
  - vm_compute. reflexivity.
  - by vm_compute.
  - split; vm_compute; reflexivity.
Defined.
