(* ===== verification/Signing.v ===== *)
(** * crates/consensus-engine/src/signing.rs: the durable signing journal

    Every consensus signature of a validator is reserved in a journal before the
    secret key is used.  The journal is a database column whose keys are
    [JournalKey]s ([key_bytes] gives the bytes the database sees) and whose
    values are the reserved intents and watermarks; each operation checks the
    journal, writes one atomic batch and only then signs.

    Publishing a finished signature to the availability store is the interface
    [ArtifactStore]: it never touches the journal.  Database failures are not
    modelled. *)

From S2P Require Import Prelude External Primitives Votes Finality.

(* ------------------------------------------------------------------ *)
(** ** Data *)

Inductive SigningViolation := Conflict | Regression | FinalizedChunk | KeyNotActive.

(** [EngineError]: a refusal, or a journal entry that is not what it must be. *)
Inductive SigningError :=
  | Signing (v : SigningViolation)
  | Corrupt
  | Codec
  | Publication.

Record VoteIntent := {
  vi_data : FinalityVoteData;
  vi_validator_index : N;
  vi_proof_hashes : list Hash;
  vi_unlock_quorum : option QuorumCertificate;
}.

Record VoteWatermark := {
  vw_spec : Hash;
  vw_identity : BlsPublicKey;
  vw_chunk_id : N;
  vw_round : N;
  vw_prevote : option VoteIntent;
  vw_precommit : option VoteIntent;
  vw_locked : option QuorumCertificate;
}.

Record ProposalWatermark := {
  pw_spec : Hash;
  pw_identity : BlsPublicKey;
  pw_slot : N;
  pw_hash : Hash;
}.

Record NilIntent := {
  ni_spec : Hash;
  ni_identity : BlsPublicKey;
  ni_data : NilVoteData;
  ni_validator_index : N;
}.

Record MessageIntent := { mi_spec : Hash; mi_identity : BlsPublicKey; mi_message : bytes }.

Record MessageWatermark := {
  mw_spec : Hash;
  mw_identity : BlsPublicKey;
  mw_chunk_id : N;
  mw_round : N;
}.

(** The two message kinds reserved by their exact bytes. *)
Inductive MessageKind := ProposalMessage | RoundChangeMessage.

Inductive JournalKey :=
  | VoteKey (identity : BlsPublicKey) (chunk_id : N)
  | ProposalKey (identity : BlsPublicKey)
  | IntentKey (identity : BlsPublicKey) (chunk_id round : N) (phase : FinalityVotePhase)
  | NilKey (identity : BlsPublicKey) (chunk_id round : N) (phase : FinalityVotePhase)
  | RoundMessageKey (kind : MessageKind) (identity : BlsPublicKey) (chunk_id round : N)
  | MessageWatermarkKey (kind : MessageKind) (identity : BlsPublicKey) (chunk_id : N).

Inductive JournalValue :=
  | VWatermark (w : VoteWatermark)
  | VProposal (w : ProposalWatermark)
  | VIntent (i : VoteIntent)
  | VNil (i : NilIntent)
  | VMessage (i : MessageIntent)
  | VMessageWatermark (w : MessageWatermark).

#[export] Instance VoteIntent_eq_dec : EqDecision VoteIntent.
Proof. solve_decision. Defined.
#[export] Instance NilIntent_eq_dec : EqDecision NilIntent.
Proof. solve_decision. Defined.
#[export] Instance MessageIntent_eq_dec : EqDecision MessageIntent.
Proof. solve_decision. Defined.
#[export] Instance VoteWatermark_eq_dec : EqDecision VoteWatermark.
Proof. solve_decision. Defined.
#[export] Instance ProposalWatermark_eq_dec : EqDecision ProposalWatermark.
Proof. solve_decision. Defined.
#[export] Instance MessageWatermark_eq_dec : EqDecision MessageWatermark.
Proof. solve_decision. Defined.
#[export] Instance JournalValue_eq_dec : EqDecision JournalValue.
Proof. solve_decision. Defined.
#[export] Instance MessageKind_eq_dec : EqDecision MessageKind.
Proof. solve_decision. Defined.
#[export] Instance JournalKey_eq_dec : EqDecision JournalKey.
Proof. solve_decision. Defined.

(** [FinalityVotePhase] and [MessageKind] as bits, for the key encodings. *)
Definition is_precommit (p : FinalityVotePhase) : bool :=
  match p with Prevote => false | Precommit => true end.
Definition is_round_change (k : MessageKind) : bool :=
  match k with ProposalMessage => false | RoundChangeMessage => true end.

#[export, refine] Instance JournalKey_countable : Countable JournalKey :=
  inj_countable'
    (fun k => match k with
      | VoteKey i c => inl (inl (inl (i, c)))
      | ProposalKey i => inl (inl (inr i))
      | IntentKey i c r p => inl (inr (inl (i, c, r, is_precommit p)))
      | NilKey i c r p => inl (inr (inr (i, c, r, is_precommit p)))
      | RoundMessageKey m i c r => inr (inl (is_round_change m, i, c, r))
      | MessageWatermarkKey m i c => inr (inr (is_round_change m, i, c))
      end)
    (fun s => match s with
      | inl (inl (inl (i, c))) => VoteKey i c
      | inl (inl (inr i)) => ProposalKey i
      | inl (inr (inl (i, c, r, p))) => IntentKey i c r (if p then Precommit else Prevote : FinalityVotePhase)
      | inl (inr (inr (i, c, r, p))) => NilKey i c r (if p then Precommit else Prevote : FinalityVotePhase)
      | inr (inl (m, i, c, r)) => RoundMessageKey (if m then RoundChangeMessage else ProposalMessage : MessageKind) i c r
      | inr (inr (m, i, c)) => MessageWatermarkKey (if m then RoundChangeMessage else ProposalMessage : MessageKind) i c
      end) _.
Proof. by intros [| |? ? ? []|? ? ? []|[] ? ? ?|[] ? ?]. Defined.

(* ------------------------------------------------------------------ *)
(** ** Database keys *)

Definition VOTE_WATERMARK_TAG : N := 0.
Definition PROPOSER_WATERMARK_TAG : N := 1.
Definition VOTE_INTENT_TAG : N := 2.
Definition NIL_INTENT_TAG : N := 3.
Definition PROPOSAL_MESSAGE_TAG : N := 4.
Definition ROUND_CHANGE_MESSAGE_TAG : N := 5.
Definition MESSAGE_WATERMARK_OFFSET : N := 2.
Definition LAST_CHUNK_TAG : N := ROUND_CHANGE_MESSAGE_TAG + MESSAGE_WATERMARK_OFFSET.
Definition IDENTITY_KEY_LEN : nat := 49.
Definition CHUNK_KEY_LEN : nat := 57.
Definition CHAIN_ID_OFFSET : nat := 16.
Definition SPEC_HASH_OFFSET : nat := 24.
Definition DOMAIN_PREFIX_LEN : nat := 56.

(** [key[0] = tag]. *)
Definition retag (tag : N) (key : bytes) : bytes := <[0%nat := tag]> key.

Definition vote_key (identity : BlsPublicKey) (chunk_id : N) : bytes :=
  [VOTE_WATERMARK_TAG] ++ identity ++ to_be_bytes 8 chunk_id.

Definition proposal_key (identity : BlsPublicKey) : bytes := [PROPOSER_WATERMARK_TAG] ++ identity.

Definition intent_key (identity : BlsPublicKey) (chunk_id round : N) (phase : FinalityVotePhase) : bytes :=
  retag VOTE_INTENT_TAG (vote_key identity chunk_id) ++ to_be_bytes 4 round
    ++ [if is_precommit phase then 1 else 0].

Definition nil_key (identity : BlsPublicKey) (chunk_id round : N) (phase : FinalityVotePhase) : bytes :=
  retag NIL_INTENT_TAG (vote_key identity chunk_id) ++ to_be_bytes 4 round
    ++ [if is_precommit phase then 1 else 0].

Definition message_tag (k : MessageKind) : N :=
  match k with ProposalMessage => PROPOSAL_MESSAGE_TAG | RoundChangeMessage => ROUND_CHANGE_MESSAGE_TAG end.

Definition round_message_key (tag : N) (identity : BlsPublicKey) (chunk_id round : N) : bytes :=
  retag tag (vote_key identity chunk_id) ++ to_be_bytes 4 round.

Definition message_watermark_key (tag : N) (identity : BlsPublicKey) (chunk_id : N) : bytes :=
  retag (tag + MESSAGE_WATERMARK_OFFSET) (vote_key identity chunk_id).

(** The database key of a journal position. *)
Definition key_bytes (k : JournalKey) : bytes :=
  match k with
  | VoteKey i c => vote_key i c
  | ProposalKey i => proposal_key i
  | IntentKey i c r p => intent_key i c r p
  | NilKey i c r p => nil_key i c r p
  | RoundMessageKey m i c r => round_message_key (message_tag m) i c r
  | MessageWatermarkKey m i c => message_watermark_key (message_tag m) i c
  end.

(** What [expired_signing_entries] reads off a database key: [Ok None] for a
    proposer watermark, which never expires, and the chunk id otherwise. *)
Definition key_chunk (key : bytes) : result SigningError (option N) :=
  if bool_decide (head key = Some PROPOSER_WATERMARK_TAG) then Ok None
  else if (len key <? N.of_nat CHUNK_KEY_LEN)
          || negb match head key with
                  | Some tag => (tag =? VOTE_WATERMARK_TAG)
                                || ((VOTE_INTENT_TAG <=? tag) && (tag <=? LAST_CHUNK_TAG))
                  | None => false
                  end
       then Err Corrupt
  else Ok (Some (from_le_bytes (reverse (take 8 (drop IDENTITY_KEY_LEN key))))).

(* ------------------------------------------------------------------ *)
(** ** The engine's signing state *)

(** [ProposerKey]: a signing key with its position in the active set. *)
Record ProposerKey := {
  public_key_bytes : BlsPublicKey;
  validator_index : N;
  sign_raw : bytes -> BlsSignature;
}.

(** The artifacts local signing publishes. *)
Inductive SignedArtifact :=
  | ArtifactVote (v : FinalityVote)
  | ArtifactNilVote (v : NilVote)
  | ArtifactProposal (p : BftProposal)
  | ArtifactRoundChange (r : RoundChange).

(** [retain_signed_artifact]: a store outside the journal, which may refuse. *)
Class ArtifactStore := {
  artifacts : Type;
  retain_signed_artifact : SignedArtifact -> artifacts -> artifacts * bool;
}.

(** A signature issued under [identity]; for votes with the whole intent. *)
Inductive Signed :=
  | SignedVote (identity : BlsPublicKey) (intent : VoteIntent)
  | SignedNil (identity : BlsPublicKey) (data : NilVoteData)
  | SignedMessage (identity : BlsPublicKey) (kind : MessageKind) (chunk_id round : N) (message : bytes)
  | SignedHeader (identity : BlsPublicKey) (slot : N) (hash : Hash).

(** [Batch]: [None] deletes, [Some] puts; later entries win. *)
Abbreviation Batch := (list (JournalKey * option JournalValue)).

Section signing.
Context `{Blake3} `{ConsensusCodec} `{Verifier} `{ArtifactStore}.

(** What signing uses of [Engine]: the domain (chain id and chain-spec hash) and
    parameters of the chain specification, the active validator set, the stored and
    the in-memory finality position, the journal column, the published artifacts. *)
Record SigningEngine := {
  sg_domain : ConsensusDomain;
  sg_params : ConsensusParams;
  sg_validators : list Validator;
  sg_latest_finalized : option N;
  sg_finalized_next : N;
  sg_journal : gmap JournalKey JournalValue;
  sg_artifacts : artifacts;
}.

Definition chain_spec_hash_of (e : SigningEngine) : Hash := chain_spec_hash (sg_domain e).

Definition apply_op (j : gmap JournalKey JournalValue) (op : JournalKey * option JournalValue) :
    gmap JournalKey JournalValue :=
  match op.2 with Some v => <[op.1 := v]> j | None => delete op.1 j end.

(** The durable atomic write. *)
Definition write_batch (e : SigningEngine) (batch : Batch) : SigningEngine :=
  {| sg_domain := sg_domain e; sg_params := sg_params e; sg_validators := sg_validators e;
     sg_latest_finalized := sg_latest_finalized e; sg_finalized_next := sg_finalized_next e;
     sg_journal := foldl apply_op (sg_journal e) batch; sg_artifacts := sg_artifacts e |}.

Definition with_artifacts (e : SigningEngine) (s : artifacts) : SigningEngine :=
  {| sg_domain := sg_domain e; sg_params := sg_params e; sg_validators := sg_validators e;
     sg_latest_finalized := sg_latest_finalized e; sg_finalized_next := sg_finalized_next e;
     sg_journal := sg_journal e; sg_artifacts := s |}.

(** The state after an operation, what it signed, and its result. *)
Abbreviation outcome A := (SigningEngine * list Signed * result SigningError A)%type.

Definition retain {A} (e : SigningEngine) (signed : list Signed) (a : SignedArtifact) (x : A) : outcome A :=
  let '(s, kept) := retain_signed_artifact a (sg_artifacts e) in
  (with_artifacts e s, signed, if kept then Ok x else Err Publication).

(** ** Reading the journal *)

Definition get_intent (e : SigningEngine) (k : JournalKey) : result SigningError (option VoteIntent) :=
  match sg_journal e !! k with
  | None => Ok None | Some (VIntent i) => Ok (Some i) | Some _ => Err Codec
  end.

Definition get_watermark (e : SigningEngine) (k : JournalKey) : result SigningError (option VoteWatermark) :=
  match sg_journal e !! k with
  | None => Ok None | Some (VWatermark w) => Ok (Some w) | Some _ => Err Codec
  end.

Definition get_nil (e : SigningEngine) (k : JournalKey) : result SigningError (option NilIntent) :=
  match sg_journal e !! k with
  | None => Ok None | Some (VNil i) => Ok (Some i) | Some _ => Err Codec
  end.

Definition get_message (e : SigningEngine) (k : JournalKey) : result SigningError (option MessageIntent) :=
  match sg_journal e !! k with
  | None => Ok None | Some (VMessage i) => Ok (Some i) | Some _ => Err Codec
  end.

Definition get_message_watermark (e : SigningEngine) (k : JournalKey) :
    result SigningError (option MessageWatermark) :=
  match sg_journal e !! k with
  | None => Ok None | Some (VMessageWatermark w) => Ok (Some w) | Some _ => Err Codec
  end.

Definition get_proposal (e : SigningEngine) (k : JournalKey) :
    result SigningError (option ProposalWatermark) :=
  match sg_journal e !! k with
  | None => Ok None | Some (VProposal w) => Ok (Some w) | Some _ => Err Codec
  end.

(** ** Vote watermarks *)

Definition verify_bft_unlock_quorum (e : SigningEngine) (vote : FinalityVoteData)
    (quorum : QuorumCertificate) : result EvidenceError unit :=
  verify_unlock_using (sg_domain e) (sg_validators e) vote quorum (prevote_fraction (sg_params e)).

Definition advance (w : VoteWatermark) (round : N) : result SigningViolation VoteWatermark :=
  if round <? vw_round w then Err Regression
  else if vw_round w <? round then
    Ok {| vw_spec := vw_spec w; vw_identity := vw_identity w; vw_chunk_id := vw_chunk_id w;
          vw_round := round; vw_prevote := None; vw_precommit := None; vw_locked := vw_locked w |}
  else Ok w.

Definition watermark_entry (w : VoteWatermark) (phase : FinalityVotePhase) : option VoteIntent :=
  match phase with Prevote => vw_prevote w | Precommit => vw_precommit w end.

(** One iteration of the phase loop of [validate_vote_watermark]. *)
Definition validate_entry (e : SigningEngine) (w : VoteWatermark) (phase : FinalityVotePhase) :
    result SigningError unit :=
  match watermark_entry w phase with
  | None => Ok tt
  | Some intent =>
      _ ← ensure ((v_chunk_id (vi_data intent) =? vw_chunk_id w)
                  && (v_round (vi_data intent) =? vw_round w)
                  && bool_decide (v_phase (vi_data intent) = phase)) Corrupt;
      let data := vi_data intent in
      saved ← get_intent e (IntentKey (vw_identity w) (v_chunk_id data) (v_round data) (v_phase data));
      saved ← ok_or saved Corrupt;
      ensure (bool_decide (saved = intent)) Corrupt
  end.

(** The lock check of [validate_vote_watermark]. *)
Definition validate_lock (e : SigningEngine) (w : VoteWatermark) : result SigningError unit :=
  match vw_locked w with
  | None => Ok tt
  | Some lock =>
      let precommit := {| v_chunk_id := v_chunk_id (qc_data lock); v_round := v_round (qc_data lock);
                          v_chunk_hash := v_chunk_hash (qc_data lock); v_phase := Precommit |} in
      saved ← get_intent e (IntentKey (vw_identity w) (v_chunk_id precommit) (v_round precommit) Precommit);
      intent ← ok_or saved Corrupt;
      ensure (bool_decide (vi_data intent = precommit)
              && bool_decide (vi_unlock_quorum intent = Some lock)
              && (v_round (qc_data lock) <=? vw_round w)
              && is_ok (verify_bft_unlock_quorum e precommit lock)) Corrupt
  end.

Definition validate_vote_watermark (e : SigningEngine) (w : VoteWatermark) : result SigningError unit :=
  _ ← ensure (bool_decide (vw_spec w = chain_spec_hash_of e)) Corrupt;
  _ ← validate_entry e w Prevote;
  _ ← validate_entry e w Precommit;
  _ ← validate_lock e w;
  match vw_precommit w with
  | Some intent => ensure (bool_decide (vi_unlock_quorum intent = vw_locked w)) Corrupt
  | None => Ok tt
  end.

Definition read_vote_watermark (e : SigningEngine) (identity : BlsPublicKey) (chunk_id : N)
    (bind_spec : bool) : result SigningError (option VoteWatermark) :=
  saved ← get_watermark e (VoteKey identity chunk_id);
  match saved with
  | None => Ok None
  | Some w =>
      _ ← ensure (negb (bind_spec && negb (bool_decide (vw_spec w = chain_spec_hash_of e)))
                  && bool_decide (vw_identity w = identity) && (vw_chunk_id w =? chunk_id)) Corrupt;
      _ ← validate_vote_watermark e w;
      Ok (Some w)
  end.

Definition validate_signing_key (e : SigningEngine) (voter : ProposerKey) : result SigningError unit :=
  match sg_validators e !! N.to_nat (validator_index voter) with
  | Some v => ensure (bool_decide (pubkey v = public_key_bytes voter) && negb (slashed v)
                      && (0 <? effective_stake v)) (Signing KeyNotActive)
  | None => Err (Signing KeyNotActive)
  end.

Definition signing_finalized_floor (e : SigningEngine) : result SigningError N :=
  persisted ← match sg_latest_finalized e with
              | None => Ok 0
              | Some id => ok_or (checked_add U64_MAX id 1) Corrupt
              end;
  Ok (N.max persisted (sg_finalized_next e)).

Definition ensure_signable (e : SigningEngine) (voter : ProposerKey) (chunk_id : N) :
    result SigningError unit :=
  _ ← validate_signing_key e voter;
  floor ← signing_finalized_floor e;
  ensure (negb (chunk_id <? floor)) (Signing FinalizedChunk).

Definition new_watermark (e : SigningEngine) (identity : BlsPublicKey) (chunk_id round : N) : VoteWatermark :=
  {| vw_spec := chain_spec_hash_of e; vw_identity := identity; vw_chunk_id := chunk_id;
     vw_round := round; vw_prevote := None; vw_precommit := None; vw_locked := None |}.

Definition load_vote_watermark (e : SigningEngine) (voter : ProposerKey) (chunk_id round : N) :
    result SigningError VoteWatermark :=
  let identity := public_key_bytes voter in
  saved ← read_vote_watermark e identity chunk_id false;
  Ok (default (new_watermark e identity chunk_id round) saved).

(** ** Votes *)

(** The deletions of [compact_round_intents]: the positions of [old_round] that the
    move to [new_round] makes unsignable, but for the precommit behind the lock. *)
Definition compact_round_intents (identity : BlsPublicKey) (chunk_id old_round new_round : N)
    (lock : option QuorumCertificate) : Batch :=
  if new_round <=? old_round then []
  else
    let keeps := match lock with Some l => v_round (qc_data l) =? old_round | None => false end in
    [(IntentKey identity chunk_id old_round Prevote, None);
     (NilKey identity chunk_id old_round Prevote, None)]
    ++ (if keeps then [] else [(IntentKey identity chunk_id old_round Precommit, None)])
    ++ [(NilKey identity chunk_id old_round Precommit, None);
        (RoundMessageKey ProposalMessage identity chunk_id old_round, None);
        (RoundMessageKey RoundChangeMessage identity chunk_id old_round, None)]
    ++ match checked_add U32_MAX old_round 1 with
       | Some reported =>
           if reported <? new_round
           then [(RoundMessageKey RoundChangeMessage identity chunk_id reported, None)] else []
       | None => []
       end.

Definition validate_vote_unlock (e : SigningEngine) (intent : VoteIntent)
    (locked : option QuorumCertificate) : result SigningError unit :=
  let data := vi_data intent in
  _ ← ensure (negb (bool_decide (v_phase data = Prevote)
                    && negb (bool_decide (vi_proof_hashes intent = [])))) (Signing Conflict);
  _ ← match vi_unlock_quorum intent with
      | Some unlock => ensure (is_ok (verify_bft_unlock_quorum e data unlock)) (Signing Conflict)
      | None => Ok tt
      end;
  _ ← match locked with
      | Some lock =>
          ensure (negb (negb (bool_decide (v_chunk_hash data = v_chunk_hash (qc_data lock)))
                        && match vi_unlock_quorum intent with
                           | Some unlock => v_round (qc_data unlock) <=? v_round (qc_data lock)
                           | None => true
                           end)) (Signing Conflict)
      | None => Ok tt
      end;
  ensure (negb (bool_decide (v_phase data = Precommit)
                && match vi_unlock_quorum intent with
                   | Some unlock => negb (v_round (qc_data unlock) =? v_round data)
                   | None => true
                   end)) (Signing Conflict).

(** The watermark with [intent] entered, and locked by a precommit. *)
Definition enter_intent (w : VoteWatermark) (intent : VoteIntent) : VoteWatermark :=
  match v_phase (vi_data intent) with
  | Prevote =>
      {| vw_spec := vw_spec w; vw_identity := vw_identity w; vw_chunk_id := vw_chunk_id w;
         vw_round := vw_round w; vw_prevote := Some intent; vw_precommit := vw_precommit w;
         vw_locked := vw_locked w |}
  | Precommit =>
      {| vw_spec := vw_spec w; vw_identity := vw_identity w; vw_chunk_id := vw_chunk_id w;
         vw_round := vw_round w; vw_prevote := vw_prevote w; vw_precommit := Some intent;
         vw_locked := vi_unlock_quorum intent |}
  end.

(** [sign_vote_durable] up to the write: the checks, and the batch. *)
Definition reserve_vote (e : SigningEngine) (voter : ProposerKey) (intent : VoteIntent) :
    result SigningError Batch :=
  let data := vi_data intent in
  let identity := public_key_bytes voter in
  _ ← ensure_signable e voter (v_chunk_id data);
  _ ← ensure (bool_decide (sg_journal e !! NilKey identity (v_chunk_id data) (v_round data) (v_phase data) = None))
        (Signing Conflict);
  prior ← load_vote_watermark e voter (v_chunk_id data) (v_round data);
  _ ← validate_vote_unlock e intent (vw_locked prior);
  w ← map_err Signing (advance prior (v_round data));
  _ ← match watermark_entry w (v_phase data) with
      | Some i => ensure (bool_decide (i = intent)) (Signing Conflict)
      | None => Ok tt
      end;
  let superseded :=
    match v_phase data, vw_locked prior with
    | Precommit, Some lock =>
        if v_round (qc_data lock) <? v_round data
        then [(IntentKey identity (v_chunk_id (qc_data lock)) (v_round (qc_data lock)) Precommit, None)]
        else []
    | _, _ => []
    end in
  Ok (compact_round_intents identity (v_chunk_id data) (vw_round prior) (v_round data) (vw_locked prior)
      ++ superseded
      ++ [(VoteKey identity (v_chunk_id data), Some (VWatermark (enter_intent w intent)));
          (IntentKey identity (v_chunk_id data) (v_round data) (v_phase data), Some (VIntent intent))]).

Definition single_signer_bits (n : N) (signer : N) : BitVec.t :=
  foldl (fun bits index => BitVec.push bits (index =? signer)) (BitVec.mk 0 []) (range n).

Definition sign_finality_vote (voter : ProposerKey) (d : ConsensusDomain) (data : FinalityVoteData) :
    BlsSignature := sign_raw voter (vote_message d data).

Definition attest_vote (voter : ProposerKey) (d : ConsensusDomain) (vote : FinalityVoteData)
    (proof_hashes : list Hash) (unlock_quorum : option QuorumCertificate) : VoteAttestation :=
  let unsigned sig := {| va_validator_index := validator_index voter;
                         va_vote_signature := sign_finality_vote voter d vote; va_vote := vote;
                         va_proof_hashes := proof_hashes; va_unlock_quorum := unlock_quorum;
                         va_signature := sig |} in
  unsigned (sign_raw voter (attestation_message d (unsigned (replicate 96 0)))).

Definition sign_reserved_value_vote (e : SigningEngine) (voter : ProposerKey) (intent : VoteIntent) :
    FinalityVote :=
  let data := vi_data intent in
  {| fv_bits := single_signer_bits (len (sg_validators e)) (validator_index voter);
     fv_signature := sign_finality_vote voter (sg_domain e) data; fv_data := data;
     fv_attestations := [attest_vote voter (sg_domain e) data (vi_proof_hashes intent)
                           (vi_unlock_quorum intent)] |}.

Definition sign_vote_durable (e : SigningEngine) (voter : ProposerKey) (data : FinalityVoteData)
    (proof_hashes : list Hash) (unlock_quorum : option QuorumCertificate) : outcome FinalityVote :=
  let intent := {| vi_data := data; vi_validator_index := validator_index voter;
                   vi_proof_hashes := proof_hashes; vi_unlock_quorum := unlock_quorum |} in
  match reserve_vote e voter intent with
  | Err err => (e, [], Err err)
  | Ok batch =>
      let e := write_batch e batch in
      let vote := sign_reserved_value_vote e voter intent in
      retain e [SignedVote (public_key_bytes voter) intent] (ArtifactVote vote) vote
  end.

(** ** Nil votes *)

Definition nil_intent (e : SigningEngine) (voter : ProposerKey) (data : NilVoteData) : NilIntent :=
  {| ni_spec := chain_spec_hash_of e; ni_identity := public_key_bytes voter; ni_data := data;
     ni_validator_index := validator_index voter |}.

(** [sign_nil_vote_durable] up to the write. *)
Definition reserve_nil (e : SigningEngine) (voter : ProposerKey) (data : NilVoteData) :
    result SigningError Batch :=
  let identity := public_key_bytes voter in
  let nil_key := NilKey identity (nd_chunk_id data) (nd_round data) (nd_phase data) in
  _ ← ensure_signable e voter (nd_chunk_id data);
  _ ← ensure (bool_decide (sg_journal e !! IntentKey identity (nd_chunk_id data) (nd_round data) (nd_phase data) = None))
        (Signing Conflict);
  prior ← load_vote_watermark e voter (nd_chunk_id data) (nd_round data);
  w ← map_err Signing (advance prior (nd_round data));
  _ ← match sg_journal e !! nil_key with
      | Some i => ensure (bool_decide (i = VNil (nil_intent e voter data))) (Signing Conflict)
      | None => Ok tt
      end;
  Ok (compact_round_intents identity (nd_chunk_id data) (vw_round prior) (nd_round data) (vw_locked w)
      ++ [(VoteKey identity (nd_chunk_id data), Some (VWatermark w));
          (nil_key, Some (VNil (nil_intent e voter data)))]).

Definition sign_nil (e : SigningEngine) (voter : ProposerKey) (data : NilVoteData) : NilVote :=
  let d := sg_domain e in
  let signature := sign_raw voter (nil_message d data) in
  let unsigned sig := {| na_validator_index := validator_index voter; na_vote := data;
                         na_vote_signature := signature; na_signature := sig |} in
  {| nv_data := data; nv_bits := single_signer_bits (len (sg_validators e)) (validator_index voter);
     nv_signature := signature;
     nv_attestations := [unsigned (sign_raw voter (nil_attestation_message d (unsigned (replicate 96 0))))] |}.

Definition sign_nil_vote_durable (e : SigningEngine) (voter : ProposerKey) (data : NilVoteData) :
    outcome NilVote :=
  match reserve_nil e voter data with
  | Err err => (e, [], Err err)
  | Ok batch =>
      let e := write_batch e batch in
      let vote := sign_nil e voter data in
      retain e [SignedNil (public_key_bytes voter) data] (ArtifactNilVote vote) vote
  end.

(** ** Proposals and round-change reports *)

Definition signing_round_for (e : SigningEngine) (identity : BlsPublicKey) (chunk_id : N) :
    result SigningError (option N) :=
  saved ← read_vote_watermark e identity chunk_id true;
  Ok (option_map vw_round saved).

Definition compact_message_intents (e : SigningEngine) (kind : MessageKind) (identity : BlsPublicKey)
    (chunk_id round : N) : result SigningError Batch :=
  let key := MessageWatermarkKey kind identity chunk_id in
  saved ← get_message_watermark e key;
  deletions ← match saved with
              | None => Ok []
              | Some prior =>
                  _ ← ensure (bool_decide (mw_spec prior = chain_spec_hash_of e)
                              && bool_decide (mw_identity prior = identity)
                              && (mw_chunk_id prior =? chunk_id)) Corrupt;
                  _ ← ensure (negb (round <? mw_round prior)) (Signing Regression);
                  Ok (if mw_round prior <? round
                      then [(RoundMessageKey kind identity chunk_id (mw_round prior), None)] else [])
              end;
  Ok (deletions
      ++ [(key, Some (VMessageWatermark {| mw_spec := chain_spec_hash_of e; mw_identity := identity;
                                            mw_chunk_id := chunk_id; mw_round := round |}))]).

(** [reserve_round_message] up to the write. *)
Definition reserve_message (e : SigningEngine) (voter : ProposerKey) (kind : MessageKind)
    (chunk_id round : N) (message : bytes) : result SigningError Batch :=
  let identity := public_key_bytes voter in
  let key := RoundMessageKey kind identity chunk_id round in
  let intent := {| mi_spec := chain_spec_hash_of e; mi_identity := identity; mi_message := message |} in
  _ ← ensure_signable e voter chunk_id;
  signed_round ← signing_round_for e identity chunk_id;
  _ ← match signed_round with
      | Some signed_round => ensure (negb (round <? signed_round)) (Signing Regression)
      | None => Ok tt
      end;
  _ ← match sg_journal e !! key with
      | Some prior => ensure (bool_decide (prior = VMessage intent)) (Signing Conflict)
      | None => Ok tt
      end;
  batch ← compact_message_intents e kind identity chunk_id round;
  Ok (batch ++ [(key, Some (VMessage intent))]).

Definition reserve_round_message (e : SigningEngine) (voter : ProposerKey) (kind : MessageKind)
    (chunk_id round : N) (message : bytes) : outcome BlsSignature :=
  match reserve_message e voter kind chunk_id round message with
  | Err err => (e, [], Err err)
  | Ok batch => (write_batch e batch,
                 [SignedMessage (public_key_bytes voter) kind chunk_id round message],
                 Ok (sign_raw voter message))
  end.

Definition sign_bft_proposal_durable (e : SigningEngine) (voter : ProposerKey) (p : BftProposal) :
    outcome BftProposal :=
  let '(e, signed, r) := reserve_round_message e voter ProposalMessage (ck_chunk_id (bp_chunk p))
                           (bp_round p) (proposal_message (sg_domain e) p) in
  match r with
  | Err err => (e, signed, Err err)
  | Ok signature =>
      let p := {| bp_chunk := bp_chunk p; bp_round := bp_round p; bp_proposer_index := bp_proposer_index p;
                  bp_valid_quorum := bp_valid_quorum p;
                  bp_round_change_certificate := bp_round_change_certificate p;
                  bp_signature := signature |} in
      retain e signed (ArtifactProposal p) p
  end.

Definition sign_round_change_durable (e : SigningEngine) (voter : ProposerKey) (r : RoundChange) :
    outcome RoundChange :=
  let '(e, signed, res) := reserve_round_message e voter RoundChangeMessage (rc_chunk_id r) (rc_round r)
                             (round_change_message (sg_domain e) r) in
  match res with
  | Err err => (e, signed, Err err)
  | Ok signature =>
      let r := {| rc_chunk_id := rc_chunk_id r; rc_round := rc_round r;
                  rc_validator_index := rc_validator_index r; rc_highest_quorum := rc_highest_quorum r;
                  rc_signature := signature |} in
      retain e signed (ArtifactRoundChange r) r
  end.

(** ** Block headers *)

(** [sign_proposal_durable] up to the write. *)
Definition reserve_header (e : SigningEngine) (voter : ProposerKey) (slot : N) (hash : Hash) :
    result SigningError Batch :=
  let key := ProposalKey (public_key_bytes voter) in
  _ ← validate_signing_key e voter;
  saved ← get_proposal e key;
  _ ← match saved with
      | None => Ok tt
      | Some prior =>
          _ ← ensure (bool_decide (pw_spec prior = chain_spec_hash_of e)
                      && bool_decide (pw_identity prior = public_key_bytes voter)) Corrupt;
          _ ← ensure (negb (slot <? pw_slot prior)) (Signing Regression);
          ensure (negb ((slot =? pw_slot prior) && negb (bool_decide (hash = pw_hash prior))))
            (Signing Conflict)
      end;
  Ok [(key, Some (VProposal {| pw_spec := chain_spec_hash_of e; pw_identity := public_key_bytes voter;
                               pw_slot := slot; pw_hash := hash |}))].

Definition sign_proposal_durable (e : SigningEngine) (voter : ProposerKey) (slot : N) (hash : Hash) :
    outcome BlsSignature :=
  match reserve_header e voter slot hash with
  | Err err => (e, [], Err err)
  | Ok batch => (write_batch e batch, [SignedHeader (public_key_bytes voter) slot hash],
                 Ok (sign_raw voter (signing_message (sg_domain e) DOMAIN_PROPOSER_SIG hash)))
  end.

(** ** Recovery after an interruption *)

Record SigningProgress := {
  sp_round : N;
  sp_prevoted : bool;
  sp_precommitted : bool;
  sp_locked : option QuorumCertificate;
  sp_intents : list (option VoteIntent);
}.

Definition reserved_nil_intent (e : SigningEngine) (voter : ProposerKey) (chunk_id round : N)
    (phase : FinalityVotePhase) : result SigningError (option NilIntent) :=
  saved ← get_nil e (NilKey (public_key_bytes voter) chunk_id round phase);
  match saved with
  | None => Ok None
  | Some intent =>
      _ ← ensure (bool_decide (intent = nil_intent e voter {| nd_chunk_id := chunk_id; nd_round := round;
                                                             nd_phase := phase |})) Corrupt;
      Ok (Some intent)
  end.

Definition reserved_signing_progress (e : SigningEngine) (voter : ProposerKey) (chunk_id : N) :
    result SigningError (option SigningProgress) :=
  saved ← read_vote_watermark e (public_key_bytes voter) chunk_id false;
  match saved with
  | None => Ok None
  | Some w =>
      prevoted ← (if vw_prevote w then Ok true
                  else n ← reserved_nil_intent e voter chunk_id (vw_round w) Prevote;
                       Ok (bool_decide (is_Some n)));
      precommitted ← (if vw_precommit w then Ok true
                      else n ← reserved_nil_intent e voter chunk_id (vw_round w) Precommit;
                           Ok (bool_decide (is_Some n)));
      Ok (Some {| sp_round := vw_round w; sp_prevoted := prevoted; sp_precommitted := precommitted;
                  sp_locked := vw_locked w; sp_intents := [vw_prevote w; vw_precommit w] |})
  end.

(** The loop of [reserved_local_votes] over the present intents. *)
Fixpoint resign_votes (e : SigningEngine) (voter : ProposerKey) (intents : list VoteIntent)
    (signed : list Signed) (messages : list FinalityVote) : outcome (list FinalityVote) :=
  match intents with
  | [] => (e, signed, Ok messages)
  | i :: intents =>
      let '(e, s, r) := sign_vote_durable e voter (vi_data i) (vi_proof_hashes i) (vi_unlock_quorum i) in
      match r with
      | Err err => (e, signed ++ s, Err err)
      | Ok vote => resign_votes e voter intents (signed ++ s) (messages ++ [vote])
      end
  end.

Definition reserved_local_votes (e : SigningEngine) (voter : ProposerKey) (progress : SigningProgress) :
    outcome (list FinalityVote) := resign_votes e voter (omap id (sp_intents progress)) [] [].

(** The loop of [reserved_local_nil_votes] over the phases. *)
Fixpoint resign_nils (e : SigningEngine) (voter : ProposerKey) (chunk_id round : N)
    (phases : list FinalityVotePhase) (signed : list Signed) (recovered : list NilVote) :
    outcome (list NilVote) :=
  match phases with
  | [] => (e, signed, Ok recovered)
  | phase :: phases =>
      match reserved_nil_intent e voter chunk_id round phase with
      | Err err => (e, signed, Err err)
      | Ok None => resign_nils e voter chunk_id round phases signed recovered
      | Ok (Some intent) =>
          let '(e, s, r) := sign_nil_vote_durable e voter (ni_data intent) in
          match r with
          | Err err => (e, signed ++ s, Err err)
          | Ok vote => resign_nils e voter chunk_id round phases (signed ++ s) (recovered ++ [vote])
          end
      end
  end.

Definition reserved_local_nil_votes (e : SigningEngine) (voter : ProposerKey) (chunk_id round : N) :
    outcome (list NilVote) := resign_nils e voter chunk_id round [Prevote; Precommit] [] [].

Definition reserved_round_message (e : SigningEngine) (kind : MessageKind) (identity : BlsPublicKey)
    (chunk_id round : N) : result SigningError (option bytes) :=
  saved ← get_message e (RoundMessageKey kind identity chunk_id round);
  match saved with
  | None => Ok None
  | Some intent =>
      let message := mi_message intent in
      let slice from to_ := take (to_ - from) (drop from message) in
      _ ← ensure (bool_decide (mi_spec intent = chain_spec_hash_of e)
                  && bool_decide (mi_identity intent = identity)
                  && negb (len message <? N.of_nat DOMAIN_PREFIX_LEN)
                  && bool_decide (slice CHAIN_ID_OFFSET SPEC_HASH_OFFSET
                                  = to_le_bytes 8 (chain_id (sg_domain e)))
                  && bool_decide (slice SPEC_HASH_OFFSET DOMAIN_PREFIX_LEN = chain_spec_hash_of e)) Corrupt;
      Ok (Some message)
  end.

Definition reserved_bft_proposal (e : SigningEngine) (voter : ProposerKey) (chunk_id round : N) :
    outcome (option BftProposal) :=
  match reserved_round_message e ProposalMessage (public_key_bytes voter) chunk_id round with
  | Err err => (e, [], Err err)
  | Ok None => (e, [], Ok None)
  | Ok (Some message) =>
      match borsh_from_slice (drop DOMAIN_PREFIX_LEN message) with
      | None => (e, [], Err Codec)
      | Some (chunk, reserved_round, proposer_index, valid_quorum, certificate) =>
          let proposal := {| bp_chunk := chunk; bp_round := reserved_round;
                             bp_proposer_index := proposer_index; bp_valid_quorum := valid_quorum;
                             bp_round_change_certificate := certificate;
                             bp_signature := replicate 96 0 |} in
          if (ck_chunk_id chunk =? chunk_id) && (reserved_round =? round)
             && (proposer_index =? validator_index voter)
             && bool_decide (proposal_message (sg_domain e) proposal = message)
          then let '(e, signed, r) := sign_bft_proposal_durable e voter proposal in
               (e, signed, p ← r; Ok (Some p))
          else (e, [], Err Corrupt)
      end
  end.

Definition reserved_round_change (e : SigningEngine) (voter : ProposerKey) (chunk_id round : N) :
    outcome (option RoundChange) :=
  match reserved_round_message e RoundChangeMessage (public_key_bytes voter) chunk_id round with
  | Err err => (e, [], Err err)
  | Ok None => (e, [], Ok None)
  | Ok (Some message) =>
      match borsh_from_slice (drop DOMAIN_PREFIX_LEN message) with
      | None => (e, [], Err Codec)
      | Some (reserved_chunk, reserved_round, index, highest) =>
          let report := {| rc_chunk_id := reserved_chunk; rc_round := reserved_round;
                           rc_validator_index := index; rc_highest_quorum := highest;
                           rc_signature := replicate 96 0 |} in
          if (reserved_chunk =? chunk_id) && (reserved_round =? round)
             && (index =? validator_index voter)
             && bool_decide (round_change_message (sg_domain e) report = message)
          then let '(e, signed, r) := sign_round_change_durable e voter report in
               (e, signed, p ← r; Ok (Some p))
          else (e, [], Err Corrupt)
      end
  end.

(** ** Saved local messages *)

(** The signer loop of [extract_single_signer] (slashing.rs): [None] once a second
    set bit is met, otherwise the number of set bits and the last one. *)
Fixpoint single_signer_loop (bits : BitVec.t) (positions : list N) (count signer : N) : option (N * N) :=
  match positions with
  | [] => Some (count, signer)
  | position :: positions =>
      if default false (BitVec.get bits position) then
        if 1 <? count + 1 then None else single_signer_loop bits positions (count + 1) position
      else single_signer_loop bits positions count signer
  end.

Definition extract_single_signer (vote : FinalityVote) (active_set_len : N) : option (N * IndexedVote) :=
  n ← try_from U32_MAX active_set_len;
  if negb (BitVec.bit_len (fv_bits vote) =? n) then None
  else
    '(count, signer) ← single_signer_loop (fv_bits vote) (range n) 0 0;
    if negb (count =? 1) then None
    else Some (signer, {| iv_data := fv_data vote; iv_signature := fv_signature vote |}).

(** Whether the validator at [index] holds the key [identity]. *)
Definition holds_key (e : SigningEngine) (identity : BlsPublicKey) (index : N) : bool :=
  match sg_validators e !! N.to_nat index with
  | Some v => bool_decide (pubkey v = identity)
  | None => false
  end.

Definition verify_saved_local_vote (e : SigningEngine) (identity : BlsPublicKey) (vote : FinalityVote) :
    result SigningError unit :=
  '(index, _) ← ok_or (extract_single_signer vote (len (sg_validators e))) Corrupt;
  _ ← ensure (holds_key e identity index) Corrupt;
  match fv_attestations vote with
  | [claim] =>
      let data := fv_data vote in
      saved ← get_intent e (IntentKey identity (v_chunk_id data) (v_round data) (v_phase data));
      intent ← ok_or saved Corrupt;
      ensure (bool_decide (vi_data intent = data) && (vi_validator_index intent =? index)
              && bool_decide (vi_proof_hashes intent = va_proof_hashes claim)
              && bool_decide (vi_unlock_quorum intent = va_unlock_quorum claim)) Corrupt
  | _ => Err Corrupt
  end.

Definition verify_saved_nil_vote (e : SigningEngine) (identity : BlsPublicKey) (vote : NilVote) :
    result SigningError unit :=
  match nv_attestations vote with
  | [claim] =>
      _ ← ensure (holds_key e identity (na_validator_index claim)) Corrupt;
      let data := nv_data vote in
      saved ← get_nil e (NilKey identity (nd_chunk_id data) (nd_round data) (nd_phase data));
      intent ← ok_or saved Corrupt;
      ensure (bool_decide (ni_spec intent = chain_spec_hash_of e)
              && bool_decide (ni_identity intent = identity) && bool_decide (ni_data intent = data)
              && (ni_validator_index intent =? na_validator_index claim)) Corrupt
  | _ => Err Corrupt
  end.

Definition verify_saved_round_report (e : SigningEngine) (identity : BlsPublicKey) (report : RoundChange) :
    result SigningError unit :=
  reserved ← reserved_round_message e RoundChangeMessage identity (rc_chunk_id report) (rc_round report);
  ensure (bool_decide (reserved = Some (round_change_message (sg_domain e) report))) Corrupt.

(** ** Expiry *)

(** One iteration over the journal column. *)
Definition expire_step (floor : N) (batch : Batch) (entry : JournalKey * JournalValue) :
    result SigningError Batch :=
  chunk ← key_chunk (key_bytes entry.1);
  Ok match chunk with
     | Some id => if id <? floor then batch ++ [(entry.1, None)] else batch
     | None => batch
     end.

(** The journal part of [expired_signing_entries]. *)
Definition expired_signing_entries (e : SigningEngine) : result SigningError Batch :=
  floor ← signing_finalized_floor e;
  try_fold (expire_step floor) [] (map_to_list (sg_journal e)).

End signing.

(* ------------------------------------------------------------------ *)
(** ** What the operations check and write *)

Section checks.
Context `{Blake3} `{ConsensusCodec} `{Verifier} `{ArtifactStore}.

(** Values of the Rust types [[u8; 48]], [u64], [u32]. *)
Definition position_wf (identity : BlsPublicKey) (chunk_id round : N) : Prop :=
  length identity = 48%nat /\ chunk_id <= U64_MAX /\ round <= U32_MAX.

Definition key_wf (k : JournalKey) : Prop :=
  match k with
  | VoteKey i c | MessageWatermarkKey _ i c => position_wf i c 0
  | ProposalKey i => length i = 48%nat
  | IntentKey i c r _ | NilKey i c r _ | RoundMessageKey _ i c r => position_wf i c r
  end.

(** A chunk that finality has not yet closed to signing. *)
Definition open (e : SigningEngine) (chunk_id : N) : Prop :=
  exists floor, signing_finalized_floor e = Ok floor /\ floor <= chunk_id.

(** *** Batches *)

Lemma apply_batch_other (j : gmap JournalKey JournalValue) (b : Batch) k :
  k ∉ b.*1 -> foldl apply_op j b !! k = j !! k.
Proof.
  revert j. induction b as [|[k' [v|]] b IH]; intros j Hk; [done| |]; cbn in *;
    apply not_elem_of_cons in Hk as [Hne Hk]; rewrite IH by done; cbn; by rewrite ?lookup_insert_ne, ?lookup_delete_ne.
Qed.

(** A batch only deletes, or puts at the keys it names. *)
Lemma apply_batch_Some (j : gmap JournalKey JournalValue) (b : Batch) k v :
  foldl apply_op j b !! k = Some v -> j !! k = Some v \/ (k, Some v) ∈ b.
Proof.
  revert j. induction b as [|[k' [v'|]] b IH]; intros j Hk; [by left| |]; cbn in Hk;
    apply IH in Hk as [Hk|Hk]; try (right; by apply list_elem_of_further).
  - cbn in Hk. destruct (decide (k = k')) as [->|Hne].
    + rewrite lookup_insert_eq in Hk. injection Hk as <-. right. left.
    + rewrite lookup_insert_ne in Hk by done. by left.
  - cbn in Hk. apply lookup_delete_Some in Hk as [_ Hk]. by left.
Qed.

Lemma apply_batch_deletes (j : gmap JournalKey JournalValue) (b : Batch) k v :
  (forall op, op ∈ b -> op.2 = None) -> foldl apply_op j b !! k = Some v -> j !! k = Some v.
Proof.
  intros Hdel [Hk|Hk]%apply_batch_Some; [done|]. by specialize (Hdel _ Hk).
Qed.

(** A journal position that a move to [round] under [pk] and [k] may drop. *)
Definition dropped (pk : BlsPublicKey) (k round : N) (key : JournalKey) : Prop :=
  match key with
  | IntentKey _ _ _ _ => True
  | NilKey pk' k' r _ | RoundMessageKey _ pk' k' r => pk' = pk /\ k' = k /\ r < round
  | _ => False
  end.

Lemma compact_round_intents_dropped pk k old new lock op :
  op ∈ compact_round_intents pk k old new lock -> op.2 = None /\ dropped pk k new op.1.
Proof.
  revert op. apply Forall_forall. unfold compact_round_intents.
  destruct (new <=? old) eqn:Hle; [constructor|]. apply N.leb_gt in Hle.
  repeat (apply Forall_app; split).
  - by repeat constructor.
  - destruct lock as [l|]; [destruct (_ =? _)|]; by repeat constructor.
  - by repeat constructor.
  - destruct (checked_add _ _ _) as [r|]; [|constructor].
    destruct (r <? new) eqn:Hr; [|constructor]. apply N.ltb_lt in Hr. by repeat constructor.
Qed.

(** A batch that drops superseded positions, then moves the vote watermark to [w]
    and puts one intent of that round. *)
Definition vote_batch (b : Batch) (pk : BlsPublicKey) (k round : N) (w : VoteWatermark)
    (key : JournalKey) (value : JournalValue) : Prop :=
  exists drops, b = drops ++ [(VoteKey pk k, Some (VWatermark w)); (key, Some value)]
    /\ forall op, op ∈ drops -> op.2 = None /\ dropped pk k round op.1.

Lemma vote_batch_keys b pk k round w key value key' :
  vote_batch b pk k round w key value -> key' <> VoteKey pk k -> key' <> key ->
  ~ dropped pk k round key' -> forall j, foldl apply_op j b !! key' = j !! key'.
Proof.
  intros (drops & -> & Hdrops) H1' H2' Hdrop j. apply apply_batch_other.
  rewrite fmap_app, elem_of_app, !fmap_cons, !elem_of_cons. cbn. intros [Hin|[?|[?|Hnil]]]; try done.
  - apply list_elem_of_fmap in Hin as (op & -> & Hop). by apply Hdrops in Hop as [_ ?].
  - by apply not_elem_of_nil in Hnil.
Qed.

Lemma vote_batch_put b pk k round w key value j :
  vote_batch b pk k round w key value -> key <> VoteKey pk k ->
  foldl apply_op j b !! VoteKey pk k = Some (VWatermark w) /\ foldl apply_op j b !! key = Some value.
Proof.
  intros (drops & -> & _) Hne. rewrite foldl_app. cbn. split.
  - by rewrite lookup_insert_ne, lookup_insert_eq.
  - by rewrite lookup_insert_eq.
Qed.

Lemma vote_batch_Some b pk k round w key value j key' v :
  vote_batch b pk k round w key value -> foldl apply_op j b !! key' = Some v ->
  j !! key' = Some v \/ (key' = VoteKey pk k) \/ key' = key.
Proof.
  intros (drops & -> & Hdrops) [Hk|Hk]%apply_batch_Some; [by left|].
  rewrite elem_of_app, !elem_of_cons in Hk. destruct Hk as [Hk|[Hk|[Hk|Hk]]].
  - by apply Hdrops in Hk as [? _].
  - injection Hk as -> _. auto.
  - injection Hk as -> _. auto.
  - by apply not_elem_of_nil in Hk.
Qed.

(* ------------------------------------------------------------------ *)
(** *** What the checks establish *)

Lemma advance_Ok w r w' :
  advance w r = Ok w' -> vw_round w <= r /\ vw_round w' = r /\ vw_locked w' = vw_locked w
  /\ (forall p i, watermark_entry w' p = Some i -> vw_round w = r /\ w' = w)
  /\ (vw_round w = r -> w' = w) /\ vw_identity w' = vw_identity w /\ vw_chunk_id w' = vw_chunk_id w
  /\ vw_spec w' = vw_spec w.
Proof.
  unfold advance. destruct (r <? vw_round w) eqn:Hlt; [done|]. apply N.ltb_ge in Hlt.
  destruct (vw_round w <? r) eqn:Hgt; intros Hw; injection Hw as <-; cbn.
  - apply N.ltb_lt in Hgt. split_and!; try done; [by intros [] i|lia].
  - apply N.ltb_ge in Hgt. assert (vw_round w = r) by lia. split_and!; try done; lia.
Qed.

Lemma ensure_signable_Ok e voter k : ensure_signable e voter k = Ok tt -> open e k.
Proof.
  unfold ensure_signable. intros (u & _ & (f & Hf & Hk)%bind_Ok)%bind_Ok.
  apply ensure_Ok, negb_ltb_true in Hk. by exists f.
Qed.

(** The watermark an operation starts from: fresh, or the stored one. *)
Definition starts_from (e : SigningEngine) (pk : BlsPublicKey) (k r : N) (prior : VoteWatermark) : Prop :=
  sg_journal e !! VoteKey pk k = None /\ prior = new_watermark e pk k r
  \/ sg_journal e !! VoteKey pk k = Some (VWatermark prior) /\ vw_identity prior = pk /\ vw_chunk_id prior = k
     /\ validate_vote_watermark e prior = Ok tt.

Lemma load_vote_watermark_Ok e voter k r w :
  load_vote_watermark e voter k r = Ok w ->
  starts_from e (public_key_bytes voter) k r w.
Proof.
  unfold load_vote_watermark, read_vote_watermark, get_watermark.
  intros (saved & Hs & Hw)%bind_Ok. apply bind_Ok in Hs as (o & Ho & Hs).
  destruct (sg_journal e !! _) as [[]|] eqn:Hj; try discriminate; injection Ho as <-.
  - right. apply bind_unit_Ok in Hs as [Hg Hs]. apply bind_unit_Ok in Hs as [Hv Hs].
    injection Hs as <-. injection Hw as <-. rewrite ensure_Ok, !andb_true_iff, bool_decide_eq_true, N.eqb_eq in Hg. naive_solver.
  - left. injection Hs as <-. injection Hw as <-. done.
Qed.

(** The conclusions of [validate_vote_watermark] that signing relies on. *)
Lemma validate_vote_watermark_entry e w p i :
  validate_vote_watermark e w = Ok tt -> watermark_entry w p = Some i ->
  v_chunk_id (vi_data i) = vw_chunk_id w /\ v_round (vi_data i) = vw_round w /\ v_phase (vi_data i) = p
  /\ sg_journal e !! IntentKey (vw_identity w) (vw_chunk_id w) (vw_round w) p = Some (VIntent i).
Proof.
  unfold validate_vote_watermark. intros Hv Hi.
  apply bind_unit_Ok in Hv as [_ Hv]. apply bind_unit_Ok in Hv as [H1' Hv]. apply bind_unit_Ok in Hv as [H2' _].
  assert (validate_entry e w p = Ok tt) as He by (by destruct p). clear H1' H2'.
  unfold validate_entry in He. rewrite Hi in He. apply bind_unit_Ok in He as [Hg He].
  bool_prop in Hg. destruct Hg as [[Hc Hr] Hp].
  apply bind_Ok in He as (o & Ho & He). apply bind_Ok in He as (i' & Hi' & He).
  bool_prop in He. subst i'. unfold get_intent in Ho. unfold ok_or in Hi'.
  destruct (sg_journal e !! _) as [[]|] eqn:Hj; try discriminate; injection Ho as <-; [|done].
  injection Hi' as ->. by rewrite Hc, Hr, Hp in Hj.
Qed.

(** What [validate_vote_unlock] admits. *)
Lemma validate_vote_unlock_Ok e i locked :
  validate_vote_unlock e i locked = Ok tt ->
  (forall u, vi_unlock_quorum i = Some u ->
     unlock_justifies (sg_domain e) (sg_validators e) (prevote_fraction (sg_params e)) (vi_data i) u)
  /\ (forall lock, locked = Some lock -> v_chunk_hash (vi_data i) <> v_chunk_hash (qc_data lock) ->
       exists u, vi_unlock_quorum i = Some u /\ v_round (qc_data lock) < v_round (qc_data u))
  /\ (v_phase (vi_data i) = Precommit ->
       exists u, vi_unlock_quorum i = Some u /\ v_round (qc_data u) = v_round (vi_data i)).
Proof.
  unfold validate_vote_unlock. intros Hv. apply bind_unit_Ok in Hv as [_ Hv].
  apply bind_unit_Ok in Hv as [Hu Hv]. apply bind_unit_Ok in Hv as [Hl Hp]. split_and!.
  - intros u Hu'. rewrite Hu' in Hu. bool_prop in Hu. unfold verify_bft_unlock_quorum in Hu.
    destruct (verify_unlock_using _ _ _ _ _) as [[]|] eqn:Hj; [|done]. by apply verify_unlock_using_Ok.
  - intros lock -> Hne. rewrite (bool_decide_false _ Hne) in Hl. cbn [negb andb] in Hl.
    destruct (vi_unlock_quorum i) as [u|]; bool_prop in Hl; [|done]. eauto.
  - intros Hphase. rewrite (bool_decide_true _ Hphase) in Hp. cbn [negb andb] in Hp.
    destruct (vi_unlock_quorum i) as [u|]; bool_prop in Hp; [|done]. eauto.
Qed.

(** The state of the journal around a reserved vote. *)
Record vote_reserved (e : SigningEngine) (pk : BlsPublicKey) (i : VoteIntent) (b : Batch) : Prop := {
  rv_open : open e (v_chunk_id (vi_data i));
  rv_nil : sg_journal e !! NilKey pk (v_chunk_id (vi_data i)) (v_round (vi_data i)) (v_phase (vi_data i)) = None;
  rv_spec : exists prior w,
    starts_from e pk (v_chunk_id (vi_data i)) (v_round (vi_data i)) prior
    /\ validate_vote_unlock e i (vw_locked prior) = Ok tt
    /\ advance prior (v_round (vi_data i)) = Ok w
    /\ (forall i', watermark_entry w (v_phase (vi_data i)) = Some i' -> i' = i)
    /\ vote_batch b pk (v_chunk_id (vi_data i)) (v_round (vi_data i)) (enter_intent w i)
         (IntentKey pk (v_chunk_id (vi_data i)) (v_round (vi_data i)) (v_phase (vi_data i))) (VIntent i);
}.

Lemma reserve_vote_Ok e voter i b :
  reserve_vote e voter i = Ok b -> vote_reserved e (public_key_bytes voter) i b.
Proof.
  unfold reserve_vote. intros Hv.
  apply bind_unit_Ok in Hv as [Hopen Hv]. apply bind_unit_Ok in Hv as [Hnil Hv].
  apply bind_Ok in Hv as (prior & Hprior & Hv). apply bind_unit_Ok in Hv as [Hunlock Hv].
  apply bind_Ok in Hv as (w & Hw & Hv). apply bind_unit_Ok in Hv as [Hentry Hv].
  apply ensure_signable_Ok in Hopen. bool_prop in Hnil. apply load_vote_watermark_Ok in Hprior.
  unfold map_err in Hw. destruct (advance prior _) as [w'|] eqn:Hadv; [|done]. injection Hw as ->.
  split; [done..|]. exists prior, w. split; [done|]. split; [done|]. split; [done|]. split.
  - intros i' Hi'. rewrite Hi' in Hentry. by bool_prop in Hentry.
  - injection Hv as <-. rewrite app_assoc. eexists. split; [done|].
    intros op [Hop|Hop]%elem_of_app; [by eapply compact_round_intents_dropped|].
    destruct (v_phase (vi_data i)); [by apply not_elem_of_nil in Hop|].
    destruct (vw_locked prior); [|by apply not_elem_of_nil in Hop].
    destruct (_ <? _); [|by apply not_elem_of_nil in Hop]. by apply list_elem_of_singleton in Hop as ->.
Qed.

Record nil_reserved (e : SigningEngine) (pk : BlsPublicKey) (n : NilVoteData) (b : Batch) : Prop := {
  rn_open : open e (nd_chunk_id n);
  rn_value : sg_journal e !! IntentKey pk (nd_chunk_id n) (nd_round n) (nd_phase n) = None;
  rn_spec : exists prior w value,
    starts_from e pk (nd_chunk_id n) (nd_round n) prior
    /\ advance prior (nd_round n) = Ok w
    /\ vote_batch b pk (nd_chunk_id n) (nd_round n) w (NilKey pk (nd_chunk_id n) (nd_round n) (nd_phase n)) value;
}.

Lemma reserve_nil_Ok e voter n b :
  reserve_nil e voter n = Ok b -> nil_reserved e (public_key_bytes voter) n b.
Proof.
  unfold reserve_nil. intros Hv.
  apply bind_unit_Ok in Hv as [Hopen Hv]. apply bind_unit_Ok in Hv as [Hnil Hv].
  apply bind_Ok in Hv as (prior & Hprior & Hv). apply bind_Ok in Hv as (w & Hw & Hv).
  apply bind_unit_Ok in Hv as [_ Hv].
  apply ensure_signable_Ok in Hopen. bool_prop in Hnil. apply load_vote_watermark_Ok in Hprior.
  unfold map_err in Hw. destruct (advance prior _) as [w'|] eqn:Hadv; [|done]. injection Hw as ->.
  split; [done..|]. exists prior, w. eexists. split; [done|]. split; [done|].
  injection Hv as <-. eexists. split; [done|]. intros op. apply compact_round_intents_dropped.
Qed.

End checks.

(** *** Keys *)

(** The chunk a journal position belongs to; header positions have none. *)
Definition journal_chunk (k : JournalKey) : option N :=
  match k with
  | ProposalKey _ => None
  | VoteKey _ c | IntentKey _ c _ _ | NilKey _ c _ _ | RoundMessageKey _ _ c _ | MessageWatermarkKey _ _ c => Some c
  end.

Lemma key_chunk_prefix tag pk k rest :
  length pk = 48%nat -> k <= U64_MAX -> tag <> PROPOSER_WATERMARK_TAG -> tag <= LAST_CHUNK_TAG ->
  key_chunk (tag :: pk ++ to_be_bytes 8 k ++ rest) = Ok (Some k).
Proof.
  intros Hpk Hk Htag Hlast. unfold key_chunk. rewrite bool_decide_false by (cbn; congruence).
  assert (length (to_be_bytes 8 k) = 8%nat) as Hlen by (unfold to_be_bytes; rewrite length_reverse; apply length_to_le_bytes).
  replace (len _ <? _) with false
    by (symmetry; apply N.ltb_ge; unfold len, CHUNK_KEY_LEN; cbn [length]; rewrite !length_app, Hpk, Hlen; lia).
  cbn [head orb]. assert ((tag =? VOTE_WATERMARK_TAG) || ((VOTE_INTENT_TAG <=? tag) && (tag <=? LAST_CHUNK_TAG)) = true) as ->.
  { unfold VOTE_WATERMARK_TAG, PROPOSER_WATERMARK_TAG, VOTE_INTENT_TAG, LAST_CHUNK_TAG in *.
    destruct (tag =? 0) eqn:H0'; [done|]. apply N.eqb_neq in H0'. cbn [orb]. apply andb_true_iff.
    rewrite !N.leb_le. split; [lia|exact Hlast]. }
  cbn [negb]. unfold IDENTITY_KEY_LEN. rewrite skipn_cons, drop_app_length' by done.
  rewrite take_app_length' by done. unfold to_be_bytes. rewrite reverse_involutive, from_to_le_bytes; [done|].
  unfold U64_MAX in Hk. cbn. lia.
Qed.

Lemma vote_key_app pk c rest : vote_key pk c ++ rest = VOTE_WATERMARK_TAG :: pk ++ to_be_bytes 8 c ++ rest.
Proof. unfold vote_key. by rewrite <- !app_assoc. Qed.

Lemma retag_vote_key tag pk c rest : retag tag (vote_key pk c) ++ rest = tag :: pk ++ to_be_bytes 8 c ++ rest.
Proof. unfold retag, vote_key. change (<[0%nat:=tag]> ([?x] ++ ?l)) with (tag :: l). by rewrite <- app_comm_cons, <- app_assoc. Qed.

(** The chunk id parsed from a database key is that of its position. *)
Lemma key_chunk_bytes k : key_wf k -> key_chunk (key_bytes k) = Ok (journal_chunk k).
Proof.
  destruct k as [pk c|pk|pk c r p|pk c r p|kind pk c r|kind pk c]; cbn [key_wf key_bytes journal_chunk];
    [| done | | | |]; intros (Hpk & Hc & _).
  - rewrite <- (app_nil_r (vote_key pk c)), vote_key_app. by apply key_chunk_prefix.
  - unfold intent_key. rewrite retag_vote_key. by apply key_chunk_prefix.
  - unfold nil_key. rewrite retag_vote_key. by apply key_chunk_prefix.
  - unfold round_message_key. rewrite retag_vote_key. by apply key_chunk_prefix; destruct kind.
  - unfold message_watermark_key. rewrite <- (app_nil_r (retag _ _)), retag_vote_key.
    by apply key_chunk_prefix; destruct kind.
Qed.

(* ------------------------------------------------------------------ *)
(** ** Runs *)

(** The operations a validator performs over its life, in any order and number,
    with the signatures they issue in order.  A signature counts from its
    reservation on: a node stopped between the write and the signature has issued
    at most what the run records. *)
Section runs.
Context `{Blake3} `{ConsensusCodec} `{Verifier} `{ArtifactStore}.
Variables (d : ConsensusDomain) (params : ConsensusParams).
(** The validator set of each chunk: the engine votes for a chunk under its set. *)
Variable set_of : N -> list Validator.

(** Everything outside local signing: blocks finalize, sets rotate, peers publish
    artifacts; the finalized floor never falls. *)
Definition chain_advances (e e' : SigningEngine) : Prop :=
  sg_domain e' = sg_domain e /\ sg_params e' = sg_params e /\ sg_journal e' = sg_journal e
  /\ forall f', signing_finalized_floor e' = Ok f' ->
       exists f, signing_finalized_floor e = Ok f /\ f <= f'.

Inductive run : SigningEngine -> list Signed -> Prop :=
  | run_start e :
      sg_domain e = d -> sg_params e = params -> sg_journal e = ∅ -> run e []
  | run_vote e T voter data proofs unlock e' s r :
      run e T -> position_wf (public_key_bytes voter) (v_chunk_id data) (v_round data) ->
      sg_validators e = set_of (v_chunk_id data) ->
      sign_vote_durable e voter data proofs unlock = (e', s, r) -> run e' (T ++ s)
  | run_nil e T voter data e' s r :
      run e T -> position_wf (public_key_bytes voter) (nd_chunk_id data) (nd_round data) ->
      sg_validators e = set_of (nd_chunk_id data) ->
      sign_nil_vote_durable e voter data = (e', s, r) -> run e' (T ++ s)
  | run_proposal e T voter p e' s r :
      run e T -> position_wf (public_key_bytes voter) (ck_chunk_id (bp_chunk p)) (bp_round p) ->
      sign_bft_proposal_durable e voter p = (e', s, r) -> run e' (T ++ s)
  | run_report e T voter report e' s r :
      run e T -> position_wf (public_key_bytes voter) (rc_chunk_id report) (rc_round report) ->
      sign_round_change_durable e voter report = (e', s, r) -> run e' (T ++ s)
  | run_header e T voter slot hash e' s r :
      run e T -> length (public_key_bytes voter) = 48%nat ->
      sign_proposal_durable e voter slot hash = (e', s, r) -> run e' (T ++ s)
  | run_expire e T batch :
      run e T -> expired_signing_entries e = Ok batch -> run (write_batch e batch) T
  | run_chain e T e' : run e T -> chain_advances e e' -> run e' T.

Definition same_position (a b : FinalityVoteData) : Prop :=
  v_chunk_id a = v_chunk_id b /\ v_round a = v_round b /\ v_phase a = v_phase b.

Definition nil_position (a : FinalityVoteData) (n : NilVoteData) : Prop :=
  v_chunk_id a = nd_chunk_id n /\ v_round a = nd_round n /\ v_phase a = nd_phase n.

(** The prevote quorum justifying a vote for another value than one precommitted
    in round [r]: declared by the vote itself, or by a later precommit in [T] of
    the same validator. *)
Definition justified_switch (T : list Signed) (pk : BlsPublicKey) (r : N) (to_ : FinalityVoteData) : Prop :=
  exists i u, SignedVote pk i ∈ T /\ v_chunk_id (vi_data i) = v_chunk_id to_
    /\ vi_unlock_quorum i = Some u /\ v_chunk_hash (qc_data u) = v_chunk_hash to_ /\ r < v_round (qc_data u)
    /\ (vi_data i = to_ \/ v_phase (vi_data i) = Precommit).

(** What a reserved message of each kind says. *)
Definition message_shape (kind : MessageKind) (k r : N) (m : bytes) : Prop :=
  match kind with
  | ProposalMessage => exists p, m = proposal_message d p /\ ck_chunk_id (bp_chunk p) = k /\ bp_round p = r
  | RoundChangeMessage => exists c, m = round_change_message d c /\ rc_chunk_id c = k /\ rc_round c = r
  end.

(** What a run never violates. *)
Record trace_ok (T : list Signed) : Prop := {
  t_votes pk i1 i2 : SignedVote pk i1 ∈ T -> SignedVote pk i2 ∈ T ->
    same_position (vi_data i1) (vi_data i2) -> i1 = i2;
  t_nil pk i n : SignedVote pk i ∈ T -> SignedNil pk n ∈ T -> ~ nil_position (vi_data i) n;
  t_justified pk i u : SignedVote pk i ∈ T -> vi_unlock_quorum i = Some u ->
    unlock_justifies d (set_of (v_chunk_id (vi_data i))) (prevote_fraction params) (vi_data i) u;
  t_precommit pk i : SignedVote pk i ∈ T -> v_phase (vi_data i) = Precommit ->
    exists u, vi_unlock_quorum i = Some u /\ v_round (qc_data u) = v_round (vi_data i);
  t_rounds pre pk i post i1 : T = pre ++ SignedVote pk i :: post -> SignedVote pk i1 ∈ pre ->
    v_chunk_id (vi_data i1) = v_chunk_id (vi_data i) -> v_round (vi_data i1) <= v_round (vi_data i);
  t_lock pre pk i post i1 : T = pre ++ SignedVote pk i :: post -> SignedVote pk i1 ∈ pre ->
    v_chunk_id (vi_data i1) = v_chunk_id (vi_data i) -> v_phase (vi_data i1) = Precommit ->
    v_chunk_hash (vi_data i1) <> v_chunk_hash (vi_data i) ->
    justified_switch (pre ++ [SignedVote pk i]) pk (v_round (vi_data i1)) (vi_data i);
  t_messages pk kind k r m1 m2 : SignedMessage pk kind k r m1 ∈ T -> SignedMessage pk kind k r m2 ∈ T -> m1 = m2;
  t_shape pk kind k r m : SignedMessage pk kind k r m ∈ T -> message_shape kind k r m;
  t_headers pk slot h1 h2 : SignedHeader pk slot h1 ∈ T -> SignedHeader pk slot h2 ∈ T -> h1 = h2;
}.

(** The journal covers every signature of an open chunk. *)
Record vote_covered (w : VoteWatermark) (i : VoteIntent) : Prop := {
  cov_round : v_round (vi_data i) <= vw_round w;
  cov_entry : v_round (vi_data i) = vw_round w -> watermark_entry w (v_phase (vi_data i)) = Some i;
  cov_lock : v_phase (vi_data i) = Precommit -> exists lock, vw_locked w = Some lock
    /\ v_round (vi_data i) <= v_round (qc_data lock)
    /\ (v_chunk_hash (vi_data i) = v_chunk_hash (qc_data lock) \/ v_round (vi_data i) < v_round (qc_data lock));
}.

Record journal_covers (e : SigningEngine) (T : list Signed) : Prop := {
  cov_domain : sg_domain e = d;
  cov_params : sg_params e = params;
  cov_keys k v : sg_journal e !! k = Some v -> key_wf k;
  cov_vote pk i : SignedVote pk i ∈ T -> open e (v_chunk_id (vi_data i)) ->
    exists w, sg_journal e !! VoteKey pk (v_chunk_id (vi_data i)) = Some (VWatermark w) /\ vote_covered w i;
  cov_source pk k w lock : open e k -> sg_journal e !! VoteKey pk k = Some (VWatermark w) ->
    vw_locked w = Some lock ->
    exists i, SignedVote pk i ∈ T /\ v_chunk_id (vi_data i) = k /\ vi_unlock_quorum i = Some lock
      /\ v_phase (vi_data i) = Precommit;
  cov_nil pk n : SignedNil pk n ∈ T -> open e (nd_chunk_id n) ->
    exists w, sg_journal e !! VoteKey pk (nd_chunk_id n) = Some (VWatermark w) /\ nd_round n <= vw_round w
      /\ (nd_round n = vw_round w -> watermark_entry w (nd_phase n) = None
            /\ is_Some (sg_journal e !! NilKey pk (nd_chunk_id n) (nd_round n) (nd_phase n)));
  cov_message pk kind k r m : SignedMessage pk kind k r m ∈ T -> open e k ->
    exists mw, sg_journal e !! MessageWatermarkKey kind pk k = Some (VMessageWatermark mw) /\ r <= mw_round mw
      /\ (r = mw_round mw ->
            (exists mi, sg_journal e !! RoundMessageKey kind pk k r = Some (VMessage mi) /\ mi_message mi = m)
            \/ (exists w, sg_journal e !! VoteKey pk k = Some (VWatermark w) /\ r < vw_round w));
  cov_header pk slot h : SignedHeader pk slot h ∈ T ->
    exists p, sg_journal e !! ProposalKey pk = Some (VProposal p) /\ slot <= pw_slot p
      /\ (slot = pw_slot p -> h = pw_hash p);
}.

(* ------------------------------------------------------------------ *)
(** *** Votes preserve the invariants *)

Lemma elem_of_snoc {A} (x y : A) l : x ∈ l ++ [y] <-> x ∈ l \/ x = y.
Proof. by rewrite elem_of_app, list_elem_of_singleton. Qed.

Lemma snoc_split {A} (l pre post : list A) x y :
  l ++ [y] = pre ++ x :: post -> (post = [] /\ l = pre /\ y = x) \/ exists post', post = post' ++ [y] /\ l = pre ++ x :: post'.
Proof.
  destruct post as [|z post _] using rev_ind; intros Heq.
  - apply app_inj_tail in Heq as [-> ->]. by left.
  - right. rewrite app_comm_cons, app_assoc in Heq. apply app_inj_tail in Heq as [-> ->]. eauto.
Qed.

(** Moving to a later round keeps every earlier vote covered. *)
Lemma advance_covers prior r w i : advance prior r = Ok w -> vote_covered prior i -> vote_covered w i.
Proof.
  intros Hadv [Hr He Hl]. pose proof (advance_Ok _ _ _ Hadv) as (Hle & Hw & Hlock & _ & Hsame & _).
  split; [lia| |by rewrite Hlock]. intros Heq. rewrite Hsame by lia. apply He. lia.
Qed.

Section step.
Context (e : SigningEngine) (T : list Signed) (pk : BlsPublicKey) (k r : N) (prior w : VoteWatermark).
Hypotheses (Hcov : journal_covers e T) (Hok : trace_ok T) (Hopen : open e k).
Hypotheses (Hprior : starts_from e pk k r prior) (Hadv : advance prior r = Ok w).

Lemma prior_covers i : SignedVote pk i ∈ T -> v_chunk_id (vi_data i) = k -> vote_covered prior i.
Proof.
  intros Hi Hk. pose proof (cov_vote _ _ Hcov pk i Hi) as Hc. rewrite Hk in Hc.
  destruct (Hc Hopen) as (w0 & Hw0 & Hc0).
  destruct Hprior as [[Hn _]|[Hs _]]; [by rewrite Hn in Hw0|]. rewrite Hs in Hw0. by injection Hw0 as <-.
Qed.

Lemma prior_source lock : vw_locked prior = Some lock ->
  exists i, SignedVote pk i ∈ T /\ v_chunk_id (vi_data i) = k /\ vi_unlock_quorum i = Some lock
    /\ v_phase (vi_data i) = Precommit.
Proof.
  intros Hl. destruct Hprior as [[_ Heq]|[Hs _]]; [by rewrite Heq in Hl|]. by eapply (cov_source _ _ Hcov).
Qed.

(** A nil vote of the round reached is in the journal. *)
Lemma prior_nil n : SignedNil pk n ∈ T -> nd_chunk_id n = k -> nd_round n <= vw_round prior
  /\ (nd_round n = vw_round prior -> watermark_entry prior (nd_phase n) = None
        /\ is_Some (sg_journal e !! NilKey pk (nd_chunk_id n) (nd_round n) (nd_phase n))).
Proof.
  intros Hn Hk. pose proof (cov_nil _ _ Hcov pk n Hn) as Hc. rewrite Hk in Hc |- *.
  destruct (Hc Hopen) as (w0 & Hw0 & Hc0).
  destruct Hprior as [[Hn' _]|[Hs _]]; [by rewrite Hn' in Hw0|]. rewrite Hs in Hw0. by injection Hw0 as <-.
Qed.

(** The journal after a batch that moves the watermark to [w'] and puts one intent
    of round [r]. *)
Section batch.
Context (b : Batch) (w' : VoteWatermark) (p : FinalityVotePhase) (key : JournalKey) (value : JournalValue).
Hypotheses (Hbatch : vote_batch b pk k r w' key value) (Hround : vw_round w' = r) (Hwf : position_wf pk k r).
Hypothesis Hkey : key = IntentKey pk k r p \/ key = NilKey pk k r p.

Lemma batch_watermark : sg_journal (write_batch e b) !! VoteKey pk k = Some (VWatermark w').
Proof. apply (vote_batch_put b pk k r w' key value); [done|]. by destruct Hkey as [-> | ->]. Qed.

Lemma batch_other key' :
  match key' with
  | VoteKey pk' k' => (pk', k') <> (pk, k)
  | IntentKey _ _ _ _ => False
  | NilKey pk' k' r' p' => ~ (pk' = pk /\ k' = k /\ r' < r) /\ key <> NilKey pk' k' r' p'
  | RoundMessageKey _ pk' k' r' => ~ (pk' = pk /\ k' = k /\ r' < r)
  | _ => True
  end -> sg_journal (write_batch e b) !! key' = sg_journal e !! key'.
Proof.
  intros Hk. eapply vote_batch_keys; [exact Hbatch| | |]; destruct key'; cbn in *; try tauto; try done;
    destruct Hkey as [-> | ->]; try done; naive_solver.
Qed.

(** Message reservations survive, or their round is no longer signable. *)
Lemma batch_message pk' kind k' r' m :
  SignedMessage pk' kind k' r' m ∈ T -> open e k' ->
  exists mw, sg_journal (write_batch e b) !! MessageWatermarkKey kind pk' k' = Some (VMessageWatermark mw)
    /\ r' <= mw_round mw
    /\ (r' = mw_round mw ->
        (exists mi, sg_journal (write_batch e b) !! RoundMessageKey kind pk' k' r' = Some (VMessage mi) /\ mi_message mi = m)
        \/ (exists w, sg_journal (write_batch e b) !! VoteKey pk' k' = Some (VWatermark w) /\ r' < vw_round w)).
Proof.
  intros Hm Ho. destruct (cov_message _ _ Hcov _ _ _ _ _ Hm Ho) as (mw & Hmw & Hle & Heq).
  exists mw. rewrite batch_other by done. split; [done|]. split; [done|].
  intros Hr. destruct (Heq Hr) as [(mi & Hmi & Hmsg)|(w0 & Hw0 & Hlt)].
  - destruct (decide (pk' = pk /\ k' = k /\ r' < r)) as [(-> & -> & Hlt)|Hnd].
    + right. exists w'. split; [apply batch_watermark|lia].
    + left. exists mi. by rewrite batch_other.
  - right. destruct (decide ((pk', k') = (pk, k))) as [[= -> ->]|Hne].
    + exists w'. split; [apply batch_watermark|]. pose proof (advance_Ok _ _ _ Hadv) as (Hle' & _).
      destruct Hprior as [[Hn _]|[Hs _]]; [by rewrite Hn in Hw0|]. rewrite Hs in Hw0. injection Hw0 as <-. lia.
    + exists w0. by rewrite batch_other.
Qed.

Lemma batch_keys k0 v : sg_journal (write_batch e b) !! k0 = Some v -> key_wf k0.
Proof.
  intros Hv. destruct (vote_batch_Some _ _ _ _ _ _ _ _ _ _ Hbatch Hv) as [Hv'|[-> | ->]].
  - by eapply (cov_keys _ _ Hcov).
  - destruct Hwf as (? & ? & _). by split_and!.
  - by destruct Hkey as [-> | ->].
Qed.

(** Coverage after the step, from coverage of this key's votes in this chunk. *)
Lemma batch_covers s :
  (exists i, s = SignedVote pk i /\ v_chunk_id (vi_data i) = k)
    \/ (exists n, s = SignedNil pk n /\ nd_chunk_id n = k) ->
  (forall i, SignedVote pk i ∈ T ++ [s] -> v_chunk_id (vi_data i) = k -> vote_covered w' i) ->
  (forall lock, vw_locked w' = Some lock -> exists i, SignedVote pk i ∈ T ++ [s]
     /\ v_chunk_id (vi_data i) = k /\ vi_unlock_quorum i = Some lock /\ v_phase (vi_data i) = Precommit) ->
  (forall n, SignedNil pk n ∈ T ++ [s] -> nd_chunk_id n = k -> nd_round n <= r
     /\ (nd_round n = r -> watermark_entry w' (nd_phase n) = None
           /\ is_Some (sg_journal (write_batch e b) !! NilKey pk k r (nd_phase n)))) ->
  journal_covers (write_batch e b) (T ++ [s]).
Proof.
  intros Hs Hvotes Hlocks Hnils. split; [apply Hcov|apply Hcov|apply batch_keys|..].
  - intros pk' i Hi Ho. destruct (decide ((pk', v_chunk_id (vi_data i)) = (pk, k))) as [[= -> Hk]|Hne].
    + rewrite Hk. exists w'. split; [apply batch_watermark|by apply Hvotes].
    + rewrite batch_other by done. apply elem_of_snoc in Hi as [Hi|Hi]; [by apply (cov_vote _ _ Hcov)|].
      exfalso. destruct Hs as [(i' & -> & Hk)|(n & -> & _)]; [|done]. injection Hi as -> ->. by apply Hne; f_equal.
  - intros pk' k' w0 lock Ho Hw0 Hl. destruct (decide ((pk', k') = (pk, k))) as [[= -> ->]|Hne].
    + rewrite batch_watermark in Hw0. injection Hw0 as <-. by apply Hlocks.
    + rewrite batch_other in Hw0 by done.
      destruct (cov_source _ _ Hcov _ _ _ _ Ho Hw0 Hl) as (i & Hi & ?).
      exists i. split; [apply elem_of_snoc; by left|done].
  - intros pk' n Hn Ho. destruct (decide ((pk', nd_chunk_id n) = (pk, k))) as [[= -> Hk]|Hne].
    + destruct (Hnils n Hn Hk) as [Hle Hcur]. rewrite Hk. exists w'. split; [apply batch_watermark|].
      rewrite Hround. split; [done|]. intros Heq. rewrite Heq. by apply Hcur.
    + rewrite batch_other by done. apply elem_of_snoc in Hn as [Hn|Hn].
      * destruct (cov_nil _ _ Hcov _ _ Hn Ho) as (w0 & Hw0 & Hr & Hcur). exists w0.
        rewrite batch_other; [done|]. split; [naive_solver|]. destruct Hkey as [-> | ->]; naive_solver.
      * exfalso. destruct Hs as [(i' & -> & _)|(n' & -> & Hk)]; [done|]. injection Hn as -> ->. by apply Hne; f_equal.
  - intros pk' kind k' r' m [Hm|Hm]%elem_of_snoc Ho; [by apply batch_message|]. destruct Hs; naive_solver.
  - intros pk' slot h [Hh|Hh]%elem_of_snoc; [|destruct Hs; naive_solver].
    rewrite batch_other by done. by apply (cov_header _ _ Hcov).
Qed.
End batch.
End step.

(** A validator reserved under [pk] and [k] keeps the journal's coverage. *)
Lemma enter_covers T pk i prior w i' :
  trace_ok T -> vote_covered prior i' -> SignedVote pk i' ∈ T ->
  advance prior (v_round (vi_data i)) = Ok w ->
  (forall i0, watermark_entry w (v_phase (vi_data i)) = Some i0 -> i0 = i) ->
  (v_phase (vi_data i) = Precommit ->
     exists u, vi_unlock_quorum i = Some u /\ v_round (qc_data u) = v_round (vi_data i)
       /\ v_chunk_hash (qc_data u) = v_chunk_hash (vi_data i)) ->
  vote_covered (enter_intent w i) i'.
Proof.
  intros Hok Hc Hi' Hadv Huniq Hlock.
  pose proof (advance_Ok _ _ _ Hadv) as (Hle & Hw & _ & _ & Hsame & _).
  destruct (advance_covers _ _ _ i' Hadv Hc) as [Hr He Hl].
  assert (v_round (vi_data i') = vw_round w -> v_phase (vi_data i') = v_phase (vi_data i) -> i' = i) as Hsamei.
  { intros Hr' Hp. apply Huniq. rewrite <- Hp. by apply He. }
  unfold enter_intent. destruct (v_phase (vi_data i)) eqn:Hp; split; cbn; try done.
  - intros Hr'. destruct (v_phase (vi_data i')) eqn:Hp'; cbn; [|by apply He].
    by rewrite (Hsamei Hr').
  - intros Hr'. destruct (v_phase (vi_data i')) eqn:Hp'; cbn; [by apply He|].
    by rewrite (Hsamei Hr').
  - intros Hp'. destruct (Hlock eq_refl) as (u & Hu & Hround & Hhash). exists u. split; [done|].
    rewrite Hround, <- Hw. split; [done|]. destruct (decide (v_round (vi_data i') = vw_round w)) as [Heq|Hne].
    + left. rewrite Hhash. by rewrite (Hsamei Heq Hp').
    + right. lia.
Qed.

Lemma enter_covers_self i w :
  vw_round w = v_round (vi_data i) ->
  (v_phase (vi_data i) = Precommit ->
     exists u, vi_unlock_quorum i = Some u /\ v_round (qc_data u) = v_round (vi_data i)
       /\ v_chunk_hash (qc_data u) = v_chunk_hash (vi_data i)) ->
  vote_covered (enter_intent w i) i.
Proof.
  intros Hw Hlock. unfold enter_intent. destruct (v_phase (vi_data i)) eqn:Hp; split; cbn; rewrite ?Hp, ?Hw; try done.
  intros _. destruct (Hlock eq_refl) as (u & Hu & Hr & Hh). exists u. rewrite Hr, Hh. naive_solver.
Qed.

Lemma covers_vote e T pk i b :
  journal_covers e T -> trace_ok T ->
  position_wf pk (v_chunk_id (vi_data i)) (v_round (vi_data i)) -> vote_reserved e pk i b ->
  journal_covers (write_batch e b) (T ++ [SignedVote pk i]).
Proof.
  intros Hcov Hok Hwf [Hopen Hnil (prior & w & Hprior & Hunlock & Hadv & Huniq & Hbatch)].
  apply validate_vote_unlock_Ok in Hunlock as (Hjust & _ & Hpre).
  pose proof (advance_Ok _ _ _ Hadv) as (Hle & Hw & Hlocked & _ & Hsame & _).
  assert (vw_round (enter_intent w i) = v_round (vi_data i)) as Hround
    by (unfold enter_intent; by destruct (v_phase (vi_data i))).
  assert (v_phase (vi_data i) = Precommit -> exists u, vi_unlock_quorum i = Some u
    /\ v_round (qc_data u) = v_round (vi_data i) /\ v_chunk_hash (qc_data u) = v_chunk_hash (vi_data i)) as Hpre'.
  { intros Hp. destruct (Hpre Hp) as (u & Hu & Hr). exists u. split_and!; try done. apply (Hjust u Hu). }
  eapply batch_covers; try done; [by left|by left; eauto|..].
  - intros i' [Hi'|[= ->]]%elem_of_snoc Hk.
    + eapply enter_covers; try done. eapply (prior_covers e T); done.
    + by apply enter_covers_self.
  - intros lock Hl. unfold enter_intent in Hl. destruct (v_phase (vi_data i)) eqn:Hp; cbn in Hl.
    + rewrite Hlocked in Hl. edestruct (prior_source e T) as (i3 & Hi3 & ?); try done.
      exists i3. split; [apply elem_of_snoc; by left|done].
    + exists i. split; [apply elem_of_snoc; by right|done].
  - intros n [Hn|?]%elem_of_snoc Hk; [|done].
    destruct (prior_nil e T pk _ _ prior Hcov Hopen Hprior n Hn Hk) as [Hr Hcur]. split; [lia|].
    intros Heq. destruct (Hcur ltac:(lia)) as [Hentry Hsome]. rewrite Hk, Heq in Hsome. split.
    + unfold enter_intent. rewrite Hsame by lia.
      destruct (v_phase (vi_data i)) eqn:Hp, (nd_phase n) eqn:Hpn; cbn; try done;
        rewrite Hnil in Hsome; by apply is_Some_None in Hsome.
    + erewrite batch_other; try done; [by left|]. split; [lia|done].
Qed.

Lemma covers_nil e T pk n b :
  journal_covers e T -> position_wf pk (nd_chunk_id n) (nd_round n) -> nil_reserved e pk n b ->
  journal_covers (write_batch e b) (T ++ [SignedNil pk n]).
Proof.
  intros Hcov Hwf [Hopen Hvalue (prior & w & value & Hprior & Hadv & Hbatch)].
  pose proof (advance_Ok _ _ _ Hadv) as (Hle & Hw & Hlocked & Hnew & Hsame & _).
  eapply batch_covers; try done; [by right|by right; eauto|..].
  - intros i [Hi|?]%elem_of_snoc Hk; [|done]. eapply advance_covers; [done|]. eapply (prior_covers e T); done.
  - intros lock Hl. rewrite Hlocked in Hl. edestruct (prior_source e T) as (i3 & Hi3 & ?); try done.
    exists i3. split; [apply elem_of_snoc; by left|done].
  - intros n' [Hn|[= ->]]%elem_of_snoc Hk.
    + destruct (prior_nil e T pk _ _ prior Hcov Hopen Hprior n' Hn Hk) as [Hr Hcur]. split; [lia|].
      intros Heq. destruct (Hcur ltac:(lia)) as [Hentry Hsome]. rewrite Hsame by lia. split; [done|].
      rewrite Hk, Heq in Hsome. destruct (decide (nd_phase n' = nd_phase n)) as [->|Hne].
      * eexists. by eapply vote_batch_put.
      * erewrite batch_other; try done; [by right|]. split; [lia|congruence].
    + split; [lia|]. intros _. split; [|eexists; by eapply vote_batch_put].
      destruct (watermark_entry w (nd_phase n)) as [i|] eqn:Hi; [|done]. exfalso.
      destruct (Hnew _ _ Hi) as [Hr ->]. destruct Hprior as [[_ ->]|(Hs & Hid & Hk' & Hv)]; [by destruct (nd_phase n)|].
      destruct (validate_vote_watermark_entry _ _ _ _ Hv Hi) as (_ & _ & _ & Hint).
      by rewrite Hid, Hk', Hr, Hvalue in Hint.
Qed.

Lemma trace_vote e T pk i b :
  journal_covers e T -> trace_ok T -> sg_validators e = set_of (v_chunk_id (vi_data i)) ->
  vote_reserved e pk i b -> trace_ok (T ++ [SignedVote pk i]).
Proof.
  intros Hcov Hok Hset [Hopen Hnil (prior & w & Hprior & Hunlock & Hadv & Huniq & _)].
  apply validate_vote_unlock_Ok in Hunlock as (Hjust & Hlock & Hpre).
  pose proof (advance_Ok _ _ _ Hadv) as (Hle & Hw & _ & _ & Hsame & _).
  assert (forall i', SignedVote pk i' ∈ T -> v_chunk_id (vi_data i') = v_chunk_id (vi_data i) ->
    vote_covered prior i') as Hprev by (intros; by eapply (prior_covers e T)).
  assert (forall i', SignedVote pk i' ∈ T -> same_position (vi_data i') (vi_data i) -> i' = i) as Hone.
  { intros i' Hi' (Hk & Hr & Hp). pose proof (advance_covers _ _ _ i' Hadv (Hprev i' Hi' Hk)) as [_ He _].
    apply Huniq. rewrite <- Hp. apply He. by rewrite Hw. }
  split.
  - intros pk' i1 i2 [H1'|E1]%elem_of_snoc [H2'|E2]%elem_of_snoc Hpos.
    + by eapply (t_votes _ Hok).
    + injection E2 as -> ->. by apply Hone.
    + injection E1 as -> ->. symmetry. apply Hone; [done|]. destruct Hpos as (? & ? & ?). by split_and!.
    + congruence.
  - intros pk' i' n [Hi'|[= -> ->]]%elem_of_snoc [Hn|?]%elem_of_snoc; try done; [by apply (t_nil _ Hok pk')|].
    intros (Hk & Hr & Hp). edestruct (prior_nil e T) as [Hr' Hcur]; try done.
    destruct (Hcur ltac:(lia)) as [_ Hsome]. rewrite <- Hk, <- Hr, <- Hp, Hnil in Hsome. by apply is_Some_None in Hsome.
  - intros pk' i' u [Hi'|[= -> ->]]%elem_of_snoc Hu; [by apply (t_justified _ Hok pk')|].
    rewrite <- Hset, <- (cov_domain _ _ Hcov), <- (cov_params _ _ Hcov). by apply Hjust.
  - intros pk' i' [Hi'|[= -> ->]]%elem_of_snoc Hp; [by apply (t_precommit _ Hok pk')|by apply Hpre].
  - intros pre pk' i' post i1 [(-> & -> & [= -> ->])|(post' & -> & HT)]%snoc_split Hi1 Hk; [|by eapply (t_rounds _ Hok)].
    pose proof (cov_round _ _ (Hprev i1 Hi1 Hk)). lia.
  - intros pre pk' i' post i1 [(-> & -> & [= -> ->])|(post' & -> & HT)]%snoc_split Hi1 Hk Hp1 Hne; [|by eapply (t_lock _ Hok)].
    destruct (cov_lock _ _ (Hprev i1 Hi1 Hk) Hp1) as (lock & Hl & Hr & Hhash).
    destruct (decide (v_chunk_hash (vi_data i') = v_chunk_hash (qc_data lock))) as [Heq|Hdiff].
    + edestruct (prior_source e pre) as (i3 & Hi3 & Hk3 & Hu3 & Hp3); try done.
      exists i3, lock. split_and!; try done; [apply elem_of_snoc; by left|destruct Hhash; congruence|by right].
    + destruct (Hlock lock Hl Hdiff) as (u & Hu & Hlt). exists i', u. destruct (Hjust u Hu) as (_ & Hh & _).
      split_and!; try done; [apply elem_of_snoc; by right|lia|by left].
  - intros pk' kind k r m1 m2 [H1'|?]%elem_of_snoc [H2'|?]%elem_of_snoc; try done. by eapply (t_messages _ Hok).
  - intros pk' kind k r m [Hm|?]%elem_of_snoc; [by eapply (t_shape _ Hok)|done].
  - intros pk' slot h1 h2 [H1'|?]%elem_of_snoc [H2'|?]%elem_of_snoc; try done. by eapply (t_headers _ Hok).
Qed.

(** Appending anything but a vote keeps what concerns votes alone. *)
Lemma trace_other T s :
  trace_ok T -> (forall pk i, s <> SignedVote pk i) ->
  (forall pk i n, s = SignedNil pk n -> SignedVote pk i ∈ T -> ~ nil_position (vi_data i) n) ->
  (forall pk kind k r m m', s = SignedMessage pk kind k r m -> SignedMessage pk kind k r m' ∈ T -> m = m') ->
  (forall pk kind k r m, s = SignedMessage pk kind k r m -> message_shape kind k r m) ->
  (forall pk slot h h', s = SignedHeader pk slot h -> SignedHeader pk slot h' ∈ T -> h = h') ->
  trace_ok (T ++ [s]).
Proof.
  intros Hok Hvote Hnil Hmsg Hshape Hhead. split.
  - intros pk i1 i2 [H1'|?]%elem_of_snoc [H2'|?]%elem_of_snoc; [by apply (t_votes _ Hok pk)|naive_solver..].
  - intros pk i n [Hi|?]%elem_of_snoc [Hn|?]%elem_of_snoc; [by apply (t_nil _ Hok pk)|naive_solver..].
  - intros pk i u [Hi|?]%elem_of_snoc; [by apply (t_justified _ Hok pk)|naive_solver].
  - intros pk i [Hi|?]%elem_of_snoc; [by apply (t_precommit _ Hok pk)|naive_solver].
  - intros pre pk i post i1 [(_ & _ & ?)|(post' & _ & HT)]%snoc_split; [naive_solver|by eapply (t_rounds _ Hok)].
  - intros pre pk i post i1 [(_ & _ & ?)|(post' & _ & HT)]%snoc_split; [naive_solver|by eapply (t_lock _ Hok)].
  - intros pk kind k r m1 m2 [H1'|H1']%elem_of_snoc [H2'|H2']%elem_of_snoc;
      [by eapply (t_messages _ Hok)|symmetry; by eapply Hmsg|by eapply Hmsg|congruence].
  - intros pk kind k r m [Hm|Hm]%elem_of_snoc; [by eapply (t_shape _ Hok)|by eapply Hshape].
  - intros pk slot h1 h2 [H1'|H1']%elem_of_snoc [H2'|H2']%elem_of_snoc;
      [by eapply (t_headers _ Hok)|symmetry; by eapply Hhead|by eapply Hhead|congruence].
Qed.

Lemma trace_nil e T pk n b :
  journal_covers e T -> trace_ok T -> nil_reserved e pk n b -> trace_ok (T ++ [SignedNil pk n]).
Proof.
  intros Hcov Hok [Hopen Hvalue (prior & w & value & Hprior & Hadv & _)].
  pose proof (advance_Ok _ _ _ Hadv) as (Hle & Hw & _ & _ & Hsame & _).
  apply trace_other; try done. intros pk' i n' [= <- <-] Hi (Hk & Hr & Hp).
  assert (vote_covered prior i) as [Hcr He _] by (by eapply (prior_covers e T)).
  rewrite Hr, Hp in *. specialize (He ltac:(lia)).
  destruct Hprior as [[_ ->]|(Hs & Hid & Hk' & Hv)]; [by destruct (nd_phase n)|].
  destruct (validate_vote_watermark_entry _ _ _ _ Hv He) as (_ & _ & _ & Hint).
  by rewrite Hid, Hk', (ltac:(lia) : vw_round prior = nd_round n), Hvalue in Hint.
Qed.

(* ------------------------------------------------------------------ *)
(** *** Messages, headers, expiry *)

(** The journal around a reserved message. *)
Record message_reserved (e : SigningEngine) (pk : BlsPublicKey) (kind : MessageKind) (k r : N)
    (m : bytes) (b : Batch) : Prop := {
  rm_open : open e k;
  rm_round w : sg_journal e !! VoteKey pk k = Some (VWatermark w) -> vw_round w <= r;
  rm_prior mi : sg_journal e !! RoundMessageKey kind pk k r = Some (VMessage mi) -> mi_message mi = m;
  rm_watermark mw : sg_journal e !! MessageWatermarkKey kind pk k = Some (VMessageWatermark mw) -> mw_round mw <= r;
  rm_batch : exists drops mw mi,
    b = drops ++ [(MessageWatermarkKey kind pk k, Some (VMessageWatermark mw)); (RoundMessageKey kind pk k r, Some (VMessage mi))]
    /\ mw_round mw = r /\ mi_message mi = m
    /\ forall op, op ∈ drops -> exists r', op = (RoundMessageKey kind pk k r', None) /\ r' < r;
}.

Lemma reserve_message_Ok e voter kind k r m b :
  reserve_message e voter kind k r m = Ok b -> message_reserved e (public_key_bytes voter) kind k r m b.
Proof.
  unfold reserve_message. intros Hv. apply bind_unit_Ok in Hv as [Hopen Hv].
  apply bind_Ok in Hv as (sr & Hsr & Hv). apply bind_unit_Ok in Hv as [Hround Hv].
  apply bind_unit_Ok in Hv as [Hprior Hv]. apply bind_Ok in Hv as (b0 & Hb0 & Hv). injection Hv as <-.
  apply ensure_signable_Ok in Hopen. unfold compact_message_intents in Hb0.
  apply bind_Ok in Hb0 as (saved & Hsaved & Hb0). apply bind_Ok in Hb0 as (dels & Hdels & Hb0). injection Hb0 as <-.
  assert (forall mw, saved = Some mw -> mw_round mw <= r /\ dels = (if mw_round mw <? r
    then [(RoundMessageKey kind (public_key_bytes voter) k (mw_round mw), None)] else [])) as Hmw.
  { intros mw ->. apply bind_unit_Ok in Hdels as [_ Hdels]. apply bind_unit_Ok in Hdels as [Hr Hdels].
    bool_prop in Hr. injection Hdels as <-. done. }
  split; [done|..].
  - intros w Hw. unfold signing_round_for, read_vote_watermark, get_watermark in Hsr. rewrite Hw in Hsr. cbn in Hsr.
    apply bind_Ok in Hsr as (o & Ho & Hsr). apply bind_unit_Ok in Ho as [_ Ho].
    apply bind_unit_Ok in Ho as [_ Ho]. injection Ho as <-. injection Hsr as <-. by bool_prop in Hround.
  - intros mi Hmi. rewrite Hmi in Hprior. bool_prop in Hprior. by injection Hprior as ->.
  - intros mw Hmw'. unfold get_message_watermark in Hsaved. rewrite Hmw' in Hsaved. injection Hsaved as <-.
    by apply Hmw.
  - exists dels. eexists _, _. rewrite <- app_assoc. split; [done|]. split; [done|]. split; [done|].
    intros op Hop. destruct saved as [mw|]; [|injection Hdels as <-; by apply not_elem_of_nil in Hop].
    destruct (Hmw mw eq_refl) as [_ ->]. destruct (mw_round mw <? r) eqn:Hlt; [|by apply not_elem_of_nil in Hop].
    apply list_elem_of_singleton in Hop as ->. apply N.ltb_lt in Hlt. eauto.
Qed.

(** Keys a message batch leaves alone, and what it puts. *)
Lemma message_batch_other e pk kind k r m b :
  message_reserved e pk kind k r m b -> forall key,
  match key with
  | RoundMessageKey kind' pk' k' r' => ~ (kind' = kind /\ pk' = pk /\ k' = k /\ r' <= r)
  | MessageWatermarkKey kind' pk' k' => ~ (kind' = kind /\ pk' = pk /\ k' = k)
  | _ => True
  end -> sg_journal (write_batch e b) !! key = sg_journal e !! key.
Proof.
  intros [_ _ _ _ (drops & mw & mi & -> & _ & _ & Hdrops)] key Hk. apply apply_batch_other.
  rewrite fmap_app, elem_of_app, !fmap_cons, !elem_of_cons. cbn. intros [Hin|[->|[->|Hnil]]].
  - apply list_elem_of_fmap in Hin as (op & -> & (r' & -> & Hr')%Hdrops). cbn in Hk. apply Hk. split_and!; (done || lia).
  - by apply Hk.
  - by apply Hk.
  - by apply not_elem_of_nil in Hnil.
Qed.

Lemma message_batch_put e pk kind k r m b :
  message_reserved e pk kind k r m b -> exists mw mi,
  sg_journal (write_batch e b) !! MessageWatermarkKey kind pk k = Some (VMessageWatermark mw) /\ mw_round mw = r
  /\ sg_journal (write_batch e b) !! RoundMessageKey kind pk k r = Some (VMessage mi) /\ mi_message mi = m.
Proof.
  intros [_ _ _ _ (drops & mw & mi & -> & Hr & Hm & _)]. exists mw, mi. cbn. rewrite foldl_app. cbn.
  by rewrite lookup_insert_ne, !lookup_insert_eq.
Qed.

Lemma message_batch_keys e pk kind k r m b :
  message_reserved e pk kind k r m b -> position_wf pk k r ->
  (forall key v, sg_journal e !! key = Some v -> key_wf key) ->
  forall key v, sg_journal (write_batch e b) !! key = Some v -> key_wf key.
Proof.
  intros [_ _ _ _ (drops & mw & mi & -> & _ & _ & Hdrops)] Hwf Hkeys key v [Hv|Hv]%apply_batch_Some; [by eapply Hkeys|].
  rewrite elem_of_app, !elem_of_cons in Hv. destruct Hv as [(r' & [=] & _)%Hdrops|[[= -> _]|[[= -> _]|Hnil]]].
  - destruct Hwf as (? & ? & _). by split_and!.
  - done.
  - by apply not_elem_of_nil in Hnil.
Qed.

(** An earlier message of this kind and round is the one being signed again. *)
Lemma message_reserved_same e T pk kind k r m b m' :
  journal_covers e T -> message_reserved e pk kind k r m b -> SignedMessage pk kind k r m' ∈ T -> m = m'.
Proof.
  intros Hcov [Hopen Hround Hprior Hmw _] Hm'.
  destruct (cov_message _ _ Hcov _ _ _ _ _ Hm' Hopen) as (mw & Hw & Hle & Hcur). specialize (Hmw _ Hw).
  destruct (Hcur ltac:(lia)) as [(mi & Hmi & <-)|(w & Hw' & Hlt)]; [symmetry; by apply Hprior|].
  specialize (Hround _ Hw'). lia.
Qed.

Lemma covers_message e T pk kind k r m b :
  journal_covers e T -> position_wf pk k r -> message_reserved e pk kind k r m b ->
  journal_covers (write_batch e b) (T ++ [SignedMessage pk kind k r m]).
Proof.
  intros Hcov Hwf Hres. pose proof (message_batch_other _ _ _ _ _ _ _ Hres) as Hother.
  destruct (message_batch_put _ _ _ _ _ _ _ Hres) as (mw & mi & Hmw & Hround & Hmi & Hm).
  assert (forall mw', sg_journal e !! MessageWatermarkKey kind pk k = Some (VMessageWatermark mw') -> mw_round mw' <= r)
    as Hle by apply Hres.
  split; [apply Hcov|apply Hcov|eapply message_batch_keys; try done; apply Hcov|..].
  - intros pk' i [Hi|?]%elem_of_snoc Ho; [|done]. rewrite Hother by done. by apply (cov_vote _ _ Hcov).
  - intros pk' k' w lock Ho Hw Hl. rewrite Hother in Hw by done.
    destruct (cov_source _ _ Hcov _ _ _ _ Ho Hw Hl) as (i & Hi & ?). exists i. split; [apply elem_of_snoc; by left|done].
  - intros pk' n [Hn|?]%elem_of_snoc Ho; [|done]. rewrite !Hother by done. by apply (cov_nil _ _ Hcov).
  - intros pk' kind' k' r' m' Hm' Ho.
    destruct (decide (kind' = kind /\ pk' = pk /\ k' = k)) as [(-> & -> & ->)|Hne].
    + exists mw. split; [done|]. apply elem_of_snoc in Hm' as [Hm'|[= -> ->]].
      * destruct (cov_message _ _ Hcov _ _ _ _ _ Hm' Ho) as (mw' & Hmw' & Hle' & _).
        specialize (Hle _ Hmw'). split; [lia|]. intros Heq. left. exists mi. rewrite Heq, Hround in *.
        split; [done|]. rewrite Hm. by eapply message_reserved_same.
      * split; [lia|]. intros _. left. eauto.
    + rewrite !Hother by naive_solver. apply elem_of_snoc in Hm' as [Hm'|?]; [by apply (cov_message _ _ Hcov)|naive_solver].
  - intros pk' slot h [Hh|?]%elem_of_snoc; [|done]. rewrite Hother by done. by apply (cov_header _ _ Hcov).
Qed.

Lemma trace_message e T pk kind k r m b :
  journal_covers e T -> trace_ok T -> message_shape kind k r m -> message_reserved e pk kind k r m b ->
  trace_ok (T ++ [SignedMessage pk kind k r m]).
Proof.
  intros Hcov Hok Hshape Hres. apply trace_other; try done.
  - intros pk' kind' k' r' m1 m' [= <- <- <- <- <-] Hm'. by eapply message_reserved_same.
  - by intros pk' kind' k' r' m1 [= <- <- <- <- <-].
Qed.

(** The journal around a reserved header. *)
Lemma reserve_header_Ok e voter slot h b :
  reserve_header e voter slot h = Ok b ->
  exists p, b = [(ProposalKey (public_key_bytes voter), Some (VProposal p))] /\ pw_slot p = slot /\ pw_hash p = h
  /\ forall prior, sg_journal e !! ProposalKey (public_key_bytes voter) = Some (VProposal prior) ->
       pw_slot prior <= slot /\ (pw_slot prior = slot -> pw_hash prior = h).
Proof.
  unfold reserve_header. intros Hv. apply bind_unit_Ok in Hv as [_ Hv].
  apply bind_Ok in Hv as (saved & Hsaved & Hv). apply bind_unit_Ok in Hv as [Hs Hv]. injection Hv as <-.
  eexists. split; [done|]. split; [done|]. split; [done|]. intros prior Hp. unfold get_proposal in Hsaved.
  rewrite Hp in Hsaved. injection Hsaved as <-. apply bind_unit_Ok in Hs as [_ Hs].
  apply bind_unit_Ok in Hs as [Hle Hs]. bool_prop in Hle. split; [done|]. intros <-.
  rewrite N.eqb_refl in Hs. cbn [andb] in Hs. by bool_prop in Hs.
Qed.

Lemma covers_header e T voter slot h b :
  journal_covers e T -> length (public_key_bytes voter) = 48%nat -> reserve_header e voter slot h = Ok b ->
  journal_covers (write_batch e b) (T ++ [SignedHeader (public_key_bytes voter) slot h]).
Proof.
  intros Hcov Hwf (p & -> & Hslot & Hhash & Hprior)%reserve_header_Ok. split; [apply Hcov|apply Hcov|..].
  - intros key v Hv. cbn in Hv. apply lookup_insert_Some in Hv as [[<- _]|[_ Hv]]; [done|by eapply (cov_keys _ _ Hcov)].
  - intros pk' i [Hi|?]%elem_of_snoc Ho; [|done]. cbn. rewrite lookup_insert_ne by done. by apply (cov_vote _ _ Hcov).
  - intros pk' k' w lock Ho Hw Hl. cbn in Hw. rewrite lookup_insert_ne in Hw by done.
    destruct (cov_source _ _ Hcov _ _ _ _ Ho Hw Hl) as (i & Hi & ?). exists i. split; [apply elem_of_snoc; by left|done].
  - intros pk' n [Hn|?]%elem_of_snoc Ho; [|done]. cbn. rewrite !lookup_insert_ne by done. by apply (cov_nil _ _ Hcov).
  - intros pk' kind' k' r' m' [Hm'|?]%elem_of_snoc Ho; [|done]. cbn. rewrite !lookup_insert_ne by done.
    by apply (cov_message _ _ Hcov).
  - intros pk' slot' h' Hh. cbn. destruct (decide (pk' = public_key_bytes voter)) as [->|Hne].
    + exists p. rewrite lookup_insert_eq. split; [done|]. apply elem_of_snoc in Hh as [Hh|[= -> ->]]; [|by rewrite Hslot].
      destruct (cov_header _ _ Hcov _ _ _ Hh) as (p' & Hp' & Hle & Heq). destruct (Hprior _ Hp') as [Hle' Heq'].
      rewrite Hslot, Hhash. split; [lia|]. intros ->. rewrite Heq by lia. apply Heq'. lia.
    + rewrite lookup_insert_ne by congruence. apply elem_of_snoc in Hh as [Hh|[= -> _]]; [|done].
      by apply (cov_header _ _ Hcov).
Qed.

Lemma trace_header e T voter slot h b :
  journal_covers e T -> trace_ok T -> reserve_header e voter slot h = Ok b ->
  trace_ok (T ++ [SignedHeader (public_key_bytes voter) slot h]).
Proof.
  intros Hcov Hok (p & -> & _ & _ & Hprior)%reserve_header_Ok. apply trace_other; try done.
  intros pk' slot' h1 h' [= <- <- <-] Hh. destruct (cov_header _ _ Hcov _ _ _ Hh) as (p' & Hp' & Hle & Heq).
  destruct (Hprior _ Hp') as [Hle' Heq']. rewrite Heq, Heq' by lia. done.
Qed.

(** Expiry deletes only positions of closed chunks. *)
Lemma expired_signing_entries_Ok e b :
  (forall k v, sg_journal e !! k = Some v -> key_wf k) -> expired_signing_entries e = Ok b ->
  forall op, op ∈ b -> op.2 = None /\ exists c floor, journal_chunk op.1 = Some c
    /\ signing_finalized_floor e = Ok floor /\ c < floor.
Proof.
  intros Hkeys (floor & Hfloor & Hb)%bind_Ok.
  set (P := fun b : Batch => forall op, op ∈ b -> op.2 = None /\ exists c floor, journal_chunk op.1 = Some c
    /\ signing_finalized_floor e = Ok floor /\ c < floor). change (P b).
  assert (Forall (fun kv => key_wf kv.1) (map_to_list (sg_journal e))) as Hwf.
  { apply Forall_forall. intros [k v] Hkv. apply elem_of_map_to_list in Hkv. by eapply Hkeys. }
  assert (P []) as Hnil by (intros op Hop; by apply not_elem_of_nil in Hop).
  revert Hwf Hb Hnil. generalize (@nil (JournalKey * option JournalValue)). induction (map_to_list (sg_journal e)) as [|[k v] l IH];
    intros acc Hwf Hb Hacc; [by injection Hb as <-|]. apply Forall_cons in Hwf as [Hk Hwf].
  cbn [try_fold] in Hb. unfold expire_step at 1 in Hb. cbn [fst] in Hb.
  rewrite key_chunk_bytes in Hb by done. eapply IH; [done|exact Hb|].
  destruct (journal_chunk k) as [c|] eqn:Hc; [|done]. destruct (c <? floor) eqn:Hlt; [|done].
  intros op [Hop|Hop]%elem_of_snoc; [by apply Hacc|]. subst op. apply N.ltb_lt in Hlt. naive_solver.
Qed.

Lemma covers_expire e T b :
  journal_covers e T -> expired_signing_entries e = Ok b -> journal_covers (write_batch e b) T.
Proof.
  intros Hcov Hb. pose proof (expired_signing_entries_Ok _ _ (cov_keys _ _ Hcov) Hb) as Hdel.
  assert (forall k, open e k -> forall key, journal_chunk key = Some k ->
    sg_journal (write_batch e b) !! key = sg_journal e !! key) as Hsame.
  { intros k (floor & Hf & Hle) key Hk. apply apply_batch_other. intros (op & -> & Hop)%list_elem_of_fmap.
    destruct (Hdel op Hop) as (_ & c & f & Hc & Hf' & Hlt). rewrite Hk in Hc. rewrite Hf in Hf'.
    injection Hc as ->. injection Hf' as ->. lia. }
  split; [apply Hcov|apply Hcov|..].
  - intros key v Hv. apply apply_batch_deletes in Hv; [by eapply (cov_keys _ _ Hcov)|]. intros op Hop. by apply Hdel.
  - intros pk i Hi Ho. erewrite Hsame by done. by apply (cov_vote _ _ Hcov).
  - intros pk k w lock Ho Hw. erewrite Hsame in Hw by done. by apply (cov_source _ _ Hcov).
  - intros pk n Hn Ho. erewrite !Hsame by done. by apply (cov_nil _ _ Hcov).
  - intros pk kind k r m Hm Ho. erewrite !Hsame by done. by apply (cov_message _ _ Hcov).
  - intros pk slot h Hh. cbn. rewrite apply_batch_other; [by apply (cov_header _ _ Hcov)|].
    intros (op & Hk & Hop)%list_elem_of_fmap. destruct (Hdel op Hop) as (_ & c & f & Hc & _). by rewrite <- Hk in Hc.
Qed.

(** Coverage only depends on the journal, the context and which chunks are open. *)
Lemma covers_frame e e' T :
  sg_domain e' = sg_domain e -> sg_params e' = sg_params e -> sg_journal e' = sg_journal e ->
  (forall k, open e' k -> open e k) -> journal_covers e T -> journal_covers e' T.
Proof.
  intros Hd Hp Hj Ho Hcov. split; rewrite ?Hd, ?Hp, ?Hj; try apply Hcov.
  - intros pk i Hi Hk%Ho. by apply (cov_vote _ _ Hcov).
  - intros pk k w lock Hk%Ho. by apply (cov_source _ _ Hcov).
  - intros pk n Hn Hk%Ho. by apply (cov_nil _ _ Hcov).
  - intros pk kind k r m Hm Hk%Ho. by apply (cov_message _ _ Hcov).
Qed.

(** Publishing leaves the journal's coverage as it is. *)
Lemma covers_retain {A} e T s a (x : A) e' s' r :
  retain e s a x = (e', s', r) -> journal_covers e T -> s' = s /\ journal_covers e' T.
Proof.
  unfold retain. destruct (retain_signed_artifact _ _) as [st kept]. intros [= <- <- _] Hcov.
  split; [done|]. by apply (covers_frame e).
Qed.

Theorem run_safe e T : run e T -> journal_covers e T /\ trace_ok T.
Proof.
  induction 1 as [e Hd Hp Hj|e T voter data proofs unlock e' s r _ [Hcov Hok] Hwf Hset Hop
    |e T voter data e' s r _ [Hcov Hok] Hwf Hset Hop|e T voter p e' s r _ [Hcov Hok] Hwf Hop
    |e T voter report e' s r _ [Hcov Hok] Hwf Hop|e T voter slot h e' s r _ [Hcov Hok] Hwf Hop
    |e T b _ [Hcov Hok] Hb|e T e' _ [Hcov Hok] (Hd & Hp & Hj & Hfloor)].
  - split; split; try done; rewrite ?Hj; try set_solver; intros; try set_solver.
    all: destruct pre; discriminate.
  - unfold sign_vote_durable in Hop. destruct (reserve_vote _ _ _) as [b|err] eqn:Hb;
      [|injection Hop as <- <- _; by rewrite app_nil_r].
    apply reserve_vote_Ok in Hb. pose proof (fun Hs => trace_vote _ _ _ _ _ Hcov Hok Hs Hb) as Hok'.
    pose proof (fun Hw => covers_vote _ _ _ _ _ Hcov Hok Hw Hb) as Hcov'.
    destruct (covers_retain _ _ _ _ _ _ _ _ Hop (Hcov' Hwf)) as [-> ?]. split; [done|by apply Hok'].
  - unfold sign_nil_vote_durable in Hop. destruct (reserve_nil _ _ _) as [b|err] eqn:Hb;
      [|injection Hop as <- <- _; by rewrite app_nil_r].
    apply reserve_nil_Ok in Hb. pose proof (trace_nil _ _ _ _ _ Hcov Hok Hb) as Hok'.
    by destruct (covers_retain _ _ _ _ _ _ _ _ Hop (covers_nil _ _ _ _ _ Hcov Hwf Hb)) as [-> ?].
  - unfold sign_bft_proposal_durable, reserve_round_message in Hop. destruct (reserve_message _ _ _ _ _ _) as [b|err] eqn:Hb;
      [|injection Hop as <- <- _; by rewrite app_nil_r].
    apply reserve_message_Ok in Hb. rewrite (cov_domain _ _ Hcov) in *.
    pose proof (fun Hs => trace_message _ _ _ _ _ _ _ _ Hcov Hok Hs Hb) as Hok'.
    destruct (covers_retain _ _ _ _ _ _ _ _ Hop (covers_message _ _ _ _ _ _ _ _ Hcov Hwf Hb)) as [-> ?].
    split; [done|]. apply Hok'. by eexists.
  - unfold sign_round_change_durable, reserve_round_message in Hop. destruct (reserve_message _ _ _ _ _ _) as [b|err] eqn:Hb;
      [|injection Hop as <- <- _; by rewrite app_nil_r].
    apply reserve_message_Ok in Hb. rewrite (cov_domain _ _ Hcov) in *.
    pose proof (fun Hs => trace_message _ _ _ _ _ _ _ _ Hcov Hok Hs Hb) as Hok'.
    destruct (covers_retain _ _ _ _ _ _ _ _ Hop (covers_message _ _ _ _ _ _ _ _ Hcov Hwf Hb)) as [-> ?].
    split; [done|]. apply Hok'. by eexists.
  - unfold sign_proposal_durable in Hop. destruct (reserve_header _ _ _ _) as [b|err] eqn:Hb;
      injection Hop as <- <- _; [|by rewrite app_nil_r].
    split; [by apply covers_header|by eapply trace_header].
  - split; [by apply covers_expire|done].
  - split; [|done]. apply (covers_frame e); try done. intros k (f' & Hf' & Hle).
    destruct (Hfloor f' Hf') as (f & Hf & Hff). exists f. split; [done|lia].
Qed.

End runs.

(* ------------------------------------------------------------------ *)
(** ** Reservations can be repeated *)

Section repeat.
Context `{Blake3} `{ConsensusCodec} `{Verifier} `{ArtifactStore}.

(** Compaction drops value intents of the round left behind only, and never the
    precommit behind the lock. *)
Lemma compact_intents pk k old new lock pk' k' r p :
  (IntentKey pk' k' r p, None) ∈ compact_round_intents pk k old new lock ->
  r = old /\ old < new /\ (p = Precommit -> forall l, lock = Some l -> v_round (qc_data l) <> old).
Proof.
  set (P := fun op : JournalKey * option JournalValue => op = (IntentKey pk' k' r p, None) ->
    r = old /\ old < new /\ (p = Precommit -> forall l, lock = Some l -> v_round (qc_data l) <> old)).
  enough (Forall P (compact_round_intents pk k old new lock)) as HP by
    (intros Hin; by apply (proj1 (Forall_forall _ _) HP) in Hin; apply Hin).
  unfold compact_round_intents. destruct (new <=? old) eqn:Hle; [constructor|]. apply N.leb_gt in Hle.
  repeat (apply Forall_app; split).
  - repeat apply Forall_cons_2; [|done|constructor]. intros [= <- <- <- <-]. naive_solver.
  - destruct lock as [l|]; [destruct (_ =? _) eqn:Hl|]; [constructor|apply Forall_cons_2; [|constructor]..];
      intros [= <- <- <- <-]; [apply N.eqb_neq in Hl|]; naive_solver.
  - by repeat apply Forall_cons_2.
  - destruct (checked_add _ _ _) as [r'|]; [|constructor].
    destruct (r' <? new); [by apply Forall_cons_2|constructor].
Qed.

(** The intents a vote reservation keeps: those of its own round, and the
    precommit behind a lock it does not replace. *)
Lemma reserve_vote_intents e voter i b prior :
  reserve_vote e voter i = Ok b ->
  load_vote_watermark e voter (v_chunk_id (vi_data i)) (v_round (vi_data i)) = Ok prior ->
  forall k r p, (k, r, p) <> (v_chunk_id (vi_data i), v_round (vi_data i), v_phase (vi_data i)) ->
  vw_round prior <= v_round (vi_data i) ->
  r = v_round (vi_data i)
  \/ (v_phase (vi_data i) = Prevote /\ p = Precommit /\ exists l, vw_locked prior = Some l /\ v_round (qc_data l) = r) ->
  sg_journal (write_batch e b) !! IntentKey (public_key_bytes voter) k r p
  = sg_journal e !! IntentKey (public_key_bytes voter) k r p.
Proof.
  unfold reserve_vote. intros Hv Hprior k r p Hne Hle Hkeep.
  apply bind_unit_Ok in Hv as [_ Hv]. apply bind_unit_Ok in Hv as [_ Hv]. rewrite Hprior in Hv. cbn [mbind result_bind] in Hv.
  apply bind_unit_Ok in Hv as [_ Hv]. apply bind_Ok in Hv as (w & _ & Hv). apply bind_unit_Ok in Hv as [_ Hv].
  injection Hv as <-. apply apply_batch_other. rewrite !fmap_app, !elem_of_app, !fmap_cons, !elem_of_cons. cbn.
  intros [Hin|[Hin|[?|[?|Hnil]]]]; try done; [| |naive_solver|by apply not_elem_of_nil in Hnil].
  - apply list_elem_of_fmap in Hin as ([key o] & Hkey & Hop). cbn in Hkey. subst key.
    pose proof (compact_round_intents_dropped _ _ _ _ _ _ Hop) as [Ho _]. cbn in Ho. subst o.
    apply compact_intents in Hop as (-> & Hlt & Hl). destruct Hkeep as [?|(_ & -> & l & Hlock & Hr)]; [lia|].
    by apply (Hl eq_refl l).
  - apply list_elem_of_fmap in Hin as ([key o] & Hkey & Hop). cbn in Hkey. subst key.
    destruct (v_phase (vi_data i)) eqn:Hp; [by apply not_elem_of_nil in Hop|].
    destruct (vw_locked prior) as [l|]; [|by apply not_elem_of_nil in Hop].
    destruct (_ <? _) eqn:Hlt; [|by apply not_elem_of_nil in Hop].
    apply list_elem_of_singleton in Hop as [= _ -> _ _]. apply N.ltb_lt in Hlt.
    destruct Hkeep as [?|(? & _)]; [lia|done].
Qed.

(** The converse of [validate_vote_watermark_entry]. *)
Lemma validate_entry_Ok e w p :
  (forall i, watermark_entry w p = Some i ->
     v_chunk_id (vi_data i) = vw_chunk_id w /\ v_round (vi_data i) = vw_round w /\ v_phase (vi_data i) = p
     /\ sg_journal e !! IntentKey (vw_identity w) (vw_chunk_id w) (vw_round w) p = Some (VIntent i)) ->
  validate_entry e w p = Ok tt.
Proof.
  intros Hi. unfold validate_entry. destruct (watermark_entry w p) as [i|]; [|done].
  destruct (Hi i eq_refl) as (Hc & Hr & Hp & Hj). rewrite Hc, Hr, Hp, !N.eqb_refl, bool_decide_true by done.
  cbn [andb]. unfold get_intent. rewrite Hj. cbn. by rewrite bool_decide_true.
Qed.

Lemma load_stored e voter k r w :
  sg_journal e !! VoteKey (public_key_bytes voter) k = Some (VWatermark w) ->
  vw_identity w = public_key_bytes voter -> vw_chunk_id w = k -> validate_vote_watermark e w = Ok tt ->
  load_vote_watermark e voter k r = Ok w.
Proof.
  intros Hj Hid Hk Hv. unfold load_vote_watermark, read_vote_watermark, get_watermark. rewrite Hj.
  cbn [mbind result_bind]. rewrite (bool_decide_true _ Hid), (proj2 (N.eqb_eq _ _) Hk).
  cbn [andb negb ensure mbind result_bind]. by rewrite Hv.
Qed.

Lemma starts_from_unique e pk k r w1 w2 : starts_from e pk k r w1 -> starts_from e pk k r w2 -> w1 = w2.
Proof. intros [[Hn1 ->]|[Hj1 _]] [[Hn2 ->]|[Hj2 _]]; congruence. Qed.

Lemma starts_from_spec e pk k r w :
  starts_from e pk k r w -> vw_spec w = chain_spec_hash_of e /\ vw_identity w = pk /\ vw_chunk_id w = k.
Proof.
  intros [[_ ->]|(_ & Hid & Hk & Hv)]; [done|]. unfold validate_vote_watermark in Hv.
  apply bind_unit_Ok in Hv as [Hs _]. by bool_prop in Hs.
Qed.

(** [reserve_vote] as its successful checks. *)
Lemma reserve_vote_inv e voter i b :
  reserve_vote e voter i = Ok b -> exists prior w,
  ensure_signable e voter (v_chunk_id (vi_data i)) = Ok tt
  /\ load_vote_watermark e voter (v_chunk_id (vi_data i)) (v_round (vi_data i)) = Ok prior
  /\ advance prior (v_round (vi_data i)) = Ok w.
Proof.
  unfold reserve_vote. intros Hv. apply bind_unit_Ok in Hv as [Hs Hv]. apply bind_unit_Ok in Hv as [_ Hv].
  apply bind_Ok in Hv as (prior & Hprior & Hv). apply bind_unit_Ok in Hv as [_ Hv].
  apply bind_Ok in Hv as (w & Hw & _). unfold map_err in Hw.
  destruct (advance prior _) as [w'|] eqn:Hadv; [|done]. injection Hw as ->. eauto.
Qed.

Section reserved.
Context (e : SigningEngine) (voter : ProposerKey) (i : VoteIntent) (b : Batch) (prior w : VoteWatermark).
Let pk := public_key_bytes voter.
Let k := v_chunk_id (vi_data i).
Let r := v_round (vi_data i).
Hypothesis Hres : reserve_vote e voter i = Ok b.
Hypothesis Hload : load_vote_watermark e voter k r = Ok prior.
Hypothesis Hadv : advance prior r = Ok w.
Hypothesis Hunlock : validate_vote_unlock e i (vw_locked prior) = Ok tt.
Hypothesis Hbatch : vote_batch b pk k r (enter_intent w i) (IntentKey pk k r (v_phase (vi_data i))) (VIntent i).

Lemma reserved_intent :
  sg_journal (write_batch e b) !! IntentKey pk k r (v_phase (vi_data i)) = Some (VIntent i).
Proof. by apply (vote_batch_put b pk k r (enter_intent w i) _ (VIntent i) (sg_journal e)). Qed.

(** The entered watermark, field by field. *)
Lemma entered_fields :
  vw_spec (enter_intent w i) = chain_spec_hash_of e /\ vw_identity (enter_intent w i) = pk
  /\ vw_chunk_id (enter_intent w i) = k /\ vw_round (enter_intent w i) = r.
Proof.
  apply load_vote_watermark_Ok, starts_from_spec in Hload as (Hs & Hi & Hk).
  pose proof (advance_Ok _ _ _ Hadv) as (_ & Hr & _ & _ & _ & Hi' & Hk' & Hs').
  unfold enter_intent. destruct (v_phase (vi_data i)); cbn; by rewrite Hs', Hi', Hk', Hr.
Qed.

Lemma entered_entries p : validate_entry (write_batch e b) (enter_intent w i) p = Ok tt.
Proof.
  destruct entered_fields as (_ & Hid & Hk & Hr). apply validate_entry_Ok. rewrite Hid, Hk, Hr. intros i0 Hi0.
  destruct (decide (p = v_phase (vi_data i))) as [->|Hne].
  - assert (i0 = i) as -> by (unfold enter_intent in Hi0; destruct (v_phase (vi_data i)); by injection Hi0 as <-).
    split_and!; try done. apply reserved_intent.
  - assert (watermark_entry w p = Some i0) as Hw0
      by (unfold enter_intent in Hi0; by destruct (v_phase (vi_data i)) eqn:?, p).
    pose proof (advance_Ok _ _ _ Hadv) as (Hle & _ & _ & Hnew & _). destruct (Hnew _ _ Hw0) as [Hround Heq].
    rewrite Heq in Hw0. pose proof (load_vote_watermark_Ok _ _ _ _ _ Hload) as [[_ Hp]|(_ & Hid' & Hk' & Hv)].
    { rewrite Hp in Hw0. by destruct p. }
    destruct (validate_vote_watermark_entry _ _ _ _ Hv Hw0) as (? & ? & ? & Hj).
    rewrite (reserve_vote_intents _ _ _ _ _ Hres Hload); [|congruence|done|by left].
    rewrite Hid', Hk', Hround in Hj. split_and!; congruence.
Qed.

(** A vote for the value of the lock keeps the lock; a precommit sets its own. *)
Lemma entered_lock : validate_lock (write_batch e b) (enter_intent w i) = Ok tt.
Proof.
  destruct entered_fields as (_ & Hid & Hk & Hr). unfold validate_lock. rewrite Hid, Hr.
  pose proof (advance_Ok _ _ _ Hadv) as (Hle & _ & Hlocked & _). pose proof reserved_intent as Hri.
  destruct (v_phase (vi_data i)) eqn:Hp; unfold enter_intent; rewrite Hp; cbn [vw_locked].
  - rewrite Hlocked. destruct (vw_locked prior) as [l|] eqn:Hl; [|done].
    pose proof (load_vote_watermark_Ok _ _ _ _ _ Hload) as [[_ Hpr]|(_ & Hid' & Hk' & Hv)]; [by rewrite Hpr in Hl|].
    unfold validate_vote_watermark in Hv. apply bind_unit_Ok in Hv as [_ Hv]. apply bind_unit_Ok in Hv as [_ Hv].
    apply bind_unit_Ok in Hv as [_ Hv]. apply bind_unit_Ok in Hv as [Hv _].
    unfold validate_lock in Hv. rewrite Hl, Hid' in Hv. unfold get_intent in Hv |- *. cbn [v_chunk_id v_round] in Hv |- *.
    rewrite (reserve_vote_intents _ _ _ _ _ Hres Hload); [|congruence|done|right; by eauto].
    destruct (sg_journal e !! _) as [[]|]; try done. cbn in Hv |- *. bool_prop in Hv. destruct Hv as [[[H1' H2'] H3'] H4'].
    rewrite !bool_decide_true by done. cbn [andb]. unfold verify_bft_unlock_quorum in *. cbn. rewrite H4', andb_true_r.
    by replace (_ <=? _) with true by (symmetry; apply N.leb_le; lia).
  - apply validate_vote_unlock_Ok in Hunlock as (Hjust & _ & Hpre). destruct (Hpre Hp) as (u & Hu & Hur). rewrite Hu.
    pose proof (Hjust u Hu) as Hj. pose proof Hj as (Hc & Hh & _). cbn [v_chunk_id v_round]. unfold get_intent.
    rewrite Hc, Hur. fold k r. rewrite Hri. cbn.
    rewrite Hh. assert ({| v_chunk_id := k; v_round := r; v_chunk_hash := v_chunk_hash (vi_data i); v_phase := Precommit |}
      = vi_data i) as -> by (unfold k, r; destruct (vi_data i); cbn in *; by subst).
    rewrite !bool_decide_true by done. unfold verify_bft_unlock_quorum. cbn. apply verify_unlock_using_Ok in Hj. rewrite Hj.
    by replace (_ <=? _) with true by (symmetry; apply N.leb_le; lia).
Qed.

(** The written watermark passes the validation of the next read. *)
Lemma entered_valid : validate_vote_watermark (write_batch e b) (enter_intent w i) = Ok tt.
Proof.
  unfold validate_vote_watermark. destruct entered_fields as (-> & _). rewrite bool_decide_true by done. cbn [ensure].
  rewrite !bind_unit_Ok. split; [done|]. split; [apply entered_entries|]. split; [apply entered_entries|].
  split; [apply entered_lock|]. unfold enter_intent. destruct (v_phase (vi_data i)) eqn:Hp; cbn; [|by rewrite bool_decide_true].
  destruct (vw_precommit w) as [i0|] eqn:Hi0; [|done]. pose proof (advance_Ok _ _ _ Hadv) as (_ & _ & Hlocked & Hnew & _).
  destruct (Hnew Precommit i0 Hi0) as [_ Heq]. rewrite Heq in Hi0 |- *.
  pose proof (load_vote_watermark_Ok _ _ _ _ _ Hload) as [[_ Hpr]|(_ & _ & _ & Hv)]; [by rewrite Hpr in Hi0|].
  unfold validate_vote_watermark in Hv. do 4 apply bind_unit_Ok in Hv as [_ Hv]. by rewrite Hi0 in Hv.
Qed.

End reserved.

Lemma enter_intent_idempotent w i :
  watermark_entry w (v_phase (vi_data i)) = Some i ->
  (v_phase (vi_data i) = Precommit -> vw_locked w = vi_unlock_quorum i) -> enter_intent w i = w.
Proof.
  intros Hi Hl. unfold enter_intent. destruct w, (v_phase (vi_data i)); cbn in *; [by rewrite Hi|].
  by rewrite Hi, (Hl eq_refl).
Qed.

(** The lock set by an intent admits that intent again. *)
Lemma validate_vote_unlock_again e i locked w :
  validate_vote_unlock e i locked = Ok tt -> vw_locked w = locked ->
  validate_vote_unlock e i (vw_locked (enter_intent w i)) = Ok tt.
Proof.
  intros Hv Hw. unfold enter_intent. destruct (v_phase (vi_data i)) eqn:Hp; cbn; [by rewrite Hw|].
  pose proof (validate_vote_unlock_Ok _ _ _ Hv) as (Hjust & _ & Hpre). destruct (Hpre Hp) as (u & Hu & _).
  destruct (Hjust u Hu) as (_ & Hh & _). unfold validate_vote_unlock in Hv |- *.
  apply bind_unit_Ok in Hv as [Hv1 Hv]. apply bind_unit_Ok in Hv as [Hv2 Hv]. apply bind_unit_Ok in Hv as [_ Hv3].
  rewrite !bind_unit_Ok. split; [done|]. split; [done|]. split; [|done]. rewrite Hu.
  by rewrite (bool_decide_true (_ = v_chunk_hash (qc_data u))).
Qed.

(** A reservation already in the journal is accepted and rewrites what is there. *)
Lemma reserve_vote_stable e voter i w :
  let pk := public_key_bytes voter in
  let data := vi_data i in
  ensure_signable e voter (v_chunk_id data) = Ok tt ->
  sg_journal e !! NilKey pk (v_chunk_id data) (v_round data) (v_phase data) = None ->
  load_vote_watermark e voter (v_chunk_id data) (v_round data) = Ok w ->
  sg_journal e !! VoteKey pk (v_chunk_id data) = Some (VWatermark w) ->
  sg_journal e !! IntentKey pk (v_chunk_id data) (v_round data) (v_phase data) = Some (VIntent i) ->
  validate_vote_unlock e i (vw_locked w) = Ok tt -> vw_round w = v_round data ->
  watermark_entry w (v_phase data) = Some i -> (v_phase data = Precommit -> vw_locked w = vi_unlock_quorum i) ->
  exists b, reserve_vote e voter i = Ok b /\ foldl apply_op (sg_journal e) b = sg_journal e.
Proof.
  cbn zeta. intros Hs Hnil Hload Hw Hi Hunlock Hr Hentry Hlocked. unfold reserve_vote.
  assert (advance w (v_round (vi_data i)) = Ok w) as Hadv by (unfold advance; by rewrite Hr, N.ltb_irrefl).
  rewrite Hs, Hnil, Hload. cbn [mbind result_bind]. rewrite bool_decide_true by done. cbn [ensure mbind result_bind].
  rewrite Hunlock, Hadv. cbn [map_err mbind result_bind]. rewrite Hentry, bool_decide_true by done.
  cbn [ensure mbind result_bind]. rewrite enter_intent_idempotent, Hr by done. eexists. split; [done|].
  unfold compact_round_intents. rewrite N.leb_refl, app_nil_l. rewrite foldl_app.
  assert (match v_phase (vi_data i), vw_locked w with
    | Precommit, Some lock => if v_round (qc_data lock) <? v_round (vi_data i)
        then [(IntentKey (public_key_bytes voter) (v_chunk_id (qc_data lock)) (v_round (qc_data lock)) Precommit, @None JournalValue)] else []
    | _, _ => [] end = []) as ->.
  { destruct (v_phase (vi_data i)) eqn:Hp; [done|]. rewrite Hlocked by done.
    apply validate_vote_unlock_Ok in Hunlock as (_ & _ & Hpre). destruct (Hpre Hp) as (u & -> & ->). by rewrite N.ltb_irrefl. }
  cbn [foldl apply_op fst snd]. by rewrite !insert_id by (rewrite ?insert_id; done).
Qed.

(** Reserving the same intent again succeeds and changes nothing. *)
Lemma reserve_vote_again e voter i b :
  reserve_vote e voter i = Ok b ->
  exists b', reserve_vote (write_batch e b) voter i = Ok b'
    /\ foldl apply_op (sg_journal (write_batch e b)) b' = sg_journal (write_batch e b).
Proof.
  intros Hres. destruct (reserve_vote_inv _ _ _ _ Hres) as (prior & w & Hs & Hload & Hadv).
  pose proof Hres as [Hopen Hnil (prior' & w' & Hprior & Hunlock & Hadv' & Huniq & Hbatch)]%reserve_vote_Ok.
  assert (prior' = prior) as -> by (by eapply starts_from_unique, load_vote_watermark_Ok).
  assert (w' = w) as -> by congruence. clear Hadv' Hprior.
  pose proof (vote_batch_put _ _ _ _ _ _ _ (sg_journal e) Hbatch ltac:(done)) as [Hw1 Hi1].
  edestruct entered_fields as (Hspec & Hid & Hk & Hr); try done.
  apply (reserve_vote_stable (write_batch e b) voter i (enter_intent w i)); try done.
  - cbn. erewrite vote_batch_keys; [exact Hnil|done|done|done|cbn; lia].
  - apply load_stored; try done. by apply (entered_valid e voter i b prior w).
  - change (validate_vote_unlock e i (vw_locked (enter_intent w i)) = Ok tt).
    eapply validate_vote_unlock_again; [exact Hunlock|]. by apply advance_Ok in Hadv as (_ & _ & ? & _).
  - unfold enter_intent. by destruct (v_phase (vi_data i)).
  - intros Hp. unfold enter_intent. by rewrite Hp.
Qed.

End repeat.

(* ------------------------------------------------------------------ *)
(** ** Database keys are distinct *)

Definition key_tag (k : JournalKey) : N :=
  match k with
  | VoteKey _ _ => VOTE_WATERMARK_TAG
  | ProposalKey _ => PROPOSER_WATERMARK_TAG
  | IntentKey _ _ _ _ => VOTE_INTENT_TAG
  | NilKey _ _ _ _ => NIL_INTENT_TAG
  | RoundMessageKey m _ _ _ => message_tag m
  | MessageWatermarkKey m _ _ => message_tag m + MESSAGE_WATERMARK_OFFSET
  end.

Definition key_identity (k : JournalKey) : BlsPublicKey :=
  match k with
  | VoteKey i _ | ProposalKey i | IntentKey i _ _ _ | NilKey i _ _ _ | RoundMessageKey _ i _ _
  | MessageWatermarkKey _ i _ => i
  end.

Definition key_tail (k : JournalKey) : bytes :=
  match k with
  | VoteKey _ c | MessageWatermarkKey _ _ c => to_be_bytes 8 c
  | ProposalKey _ => []
  | IntentKey _ c r p | NilKey _ c r p => to_be_bytes 8 c ++ to_be_bytes 4 r ++ [if is_precommit p then 1 else 0]
  | RoundMessageKey _ _ c r => to_be_bytes 8 c ++ to_be_bytes 4 r
  end.

Lemma key_bytes_shape k : key_bytes k = key_tag k :: key_identity k ++ key_tail k.
Proof.
  destruct k as [pk c|pk|pk c r p|pk c r p|kind pk c r|kind pk c]; cbn [key_bytes key_tag key_identity key_tail].
  - done.
  - by rewrite app_nil_r.
  - unfold intent_key. by rewrite retag_vote_key.
  - unfold nil_key. by rewrite retag_vote_key.
  - unfold round_message_key. by rewrite retag_vote_key.
  - unfold message_watermark_key. by rewrite <- (app_nil_r (retag _ _)), retag_vote_key, app_nil_r.
Qed.

Lemma length_to_be_bytes n x : length (to_be_bytes n x) = n.
Proof. unfold to_be_bytes. by rewrite length_reverse, length_to_le_bytes. Qed.

Lemma to_be_bytes_inj n x y :
  x < 256 ^ N.of_nat n -> y < 256 ^ N.of_nat n -> to_be_bytes n x = to_be_bytes n y -> x = y.
Proof. intros Hx Hy Heq%(inj reverse). by eapply to_le_bytes_inj. Qed.

Lemma be_app_inj n x y l1 l2 :
  x < 256 ^ N.of_nat n -> y < 256 ^ N.of_nat n -> to_be_bytes n x ++ l1 = to_be_bytes n y ++ l2 -> x = y /\ l1 = l2.
Proof.
  intros Hx Hy Heq. apply app_inj_1 in Heq as [Heq ?]; [|by rewrite !length_to_be_bytes].
  split; [by eapply to_be_bytes_inj|done].
Qed.

Lemma key_bytes_inj k1 k2 : key_wf k1 -> key_wf k2 -> key_bytes k1 = key_bytes k2 -> k1 = k2.
Proof.
  assert (forall c, c <= U64_MAX -> c < 256 ^ N.of_nat 8) as H64 by (unfold U64_MAX; cbn; lia).
  assert (forall c, c <= U32_MAX -> c < 256 ^ N.of_nat 4) as H32 by (unfold U32_MAX; cbn; lia).
  intros Hw1 Hw2. rewrite !key_bytes_shape. intros [= Htag Heq].
  assert (length (key_identity k1) = 48%nat /\ length (key_identity k2) = 48%nat) as [Hl1 Hl2]
    by (destruct k1, k2; cbn in *; unfold position_wf in *; naive_solver).
  apply app_inj_1 in Heq as [Hid Htail]; [|congruence].
  destruct k1 as [pk1 c1|pk1|pk1 c1 r1 p1|pk1 c1 r1 p1|m1 pk1 c1 r1|m1 pk1 c1],
    k2 as [pk2 c2|pk2|pk2 c2 r2 p2|pk2 c2 r2 p2|m2 pk2 c2 r2|m2 pk2 c2];
    try destruct m1; try destruct m2; try discriminate Htag; cbn [key_identity key_tail key_wf] in *; subst;
    unfold position_wf in *; destruct_and?; f_equal;
    try (by eapply to_be_bytes_inj; eauto);
    apply be_app_inj in Htail as [-> Htail]; eauto;
    try (by eapply to_be_bytes_inj; eauto);
    apply be_app_inj in Htail as [-> Htail]; eauto; by destruct p1, p2.
Qed.

(* ------------------------------------------------------------------ *)
(** ** A concrete run, for witnesses *)

#[local] Instance sample_store : ArtifactStore :=
  {| artifacts := unit; retain_signed_artifact _ s := (s, true) |}.

Definition sample_key : ProposerKey :=
  {| public_key_bytes := replicate 48 7; validator_index := 0; sign_raw m := m |}.

Definition sample_signers : list Validator :=
  [{| pubkey := replicate 48 7; withdrawal_credentials := ZERO_HASH; effective_stake := 1; slashed := false;
      activation_epoch := 0; exit_epoch := U64_MAX; last_active_chunk := 0 |}].

Definition sample_engine : SigningEngine :=
  {| sg_domain := sample_domain; sg_params := ConsensusParams_default; sg_validators := sample_signers;
     sg_latest_finalized := None; sg_finalized_next := 0; sg_journal := ∅; sg_artifacts := tt |}.

Definition sample_quorum (b round : N) : QuorumCertificate :=
  {| qc_data := sample_data b round Prevote; qc_aggregate := sample_aggregate |}.

(** Prevote and precommit chunk 1 in round 0, then precommit chunk 2 in round 1. *)
Definition sample_votes : list (FinalityVoteData * list Hash * option QuorumCertificate) :=
  [(sample_data 1 0 Prevote, [], None); (sample_data 1 0 Precommit, [], Some (sample_quorum 1 0));
   (sample_data 2 1 Precommit, [], Some (sample_quorum 2 1))].

Definition sample_signed (v : FinalityVoteData * list Hash * option QuorumCertificate) : Signed :=
  SignedVote (public_key_bytes sample_key)
    {| vi_data := v.1.1; vi_validator_index := 0; vi_proof_hashes := v.1.2; vi_unlock_quorum := v.2 |}.

(** Signing a list of votes in order. *)
Fixpoint sign_all `{ConsensusCodec} `{Verifier} `{ArtifactStore} (e : SigningEngine) (voter : ProposerKey)
    (votes : list (FinalityVoteData * list Hash * option QuorumCertificate)) : SigningEngine * list Signed :=
  match votes with
  | [] => (e, [])
  | (data, proofs, unlock) :: votes =>
      let '(e, s, _) := sign_vote_durable e voter data proofs unlock in
      let '(e, s') := sign_all e voter votes in (e, s ++ s')
  end.

Lemma sign_all_run `{ConsensusCodec} `{Verifier} `{ArtifactStore} d params set_of voter votes e T :
  run d params set_of e T -> length (public_key_bytes voter) = 48%nat ->
  (forall k, sg_validators e = set_of k) ->
  Forall (fun v => v_chunk_id v.1.1 <= U64_MAX /\ v_round v.1.1 <= U32_MAX) votes ->
  run d params set_of (sign_all e voter votes).1 (T ++ (sign_all e voter votes).2).
Proof.
  intros Hrun Hpk. revert e T Hrun. induction votes as [|[[data proofs] unlock] votes IH]; intros e T Hrun Hset Hwf; cbn.
  { by rewrite app_nil_r. }
  apply Forall_cons in Hwf as [[Hk Hr] Hwf].
  destruct (sign_vote_durable e voter data proofs unlock) as [[e' s] r] eqn:Hv.
  assert (run d params set_of e' (T ++ s)) as Hrun' by (eapply run_vote; try done).
  assert (sg_validators e' = sg_validators e) as Hvs.
  { unfold sign_vote_durable, retain in Hv. destruct (reserve_vote _ _ _); [|by injection Hv as <- _ _].
    destruct (retain_signed_artifact _ _). by injection Hv as <- _ _. }
  specialize (IH e' (T ++ s) Hrun' ltac:(by rewrite Hvs) Hwf).
  destruct (sign_all e' voter votes) as [e'' s']. cbn in *. by rewrite app_assoc.
Qed.

Lemma sample_run :
  @run sample_codec sample_verifier sample_store sample_domain ConsensusParams_default (fun _ => sample_signers)
    (@sign_all sample_codec sample_verifier sample_store sample_engine sample_key sample_votes).1
    (map sample_signed sample_votes).
Proof.
  assert ((@sign_all sample_codec sample_verifier sample_store sample_engine sample_key sample_votes).2
    = map sample_signed sample_votes) as <- by (vm_compute; reflexivity).
  apply (sign_all_run sample_domain ConsensusParams_default (fun _ => sample_signers) sample_key sample_votes sample_engine []).
  - by apply run_start.
  - done.
  - done.
  - by repeat constructor.
Qed.

(** The quorum behind a vote for another value than one precommitted before. *)
Lemma switch_bounds `{ConsensusCodec} `{Verifier} `{ArtifactStore} d params set_of T pre post pk i i1 :
  trace_ok d params set_of T -> T = pre ++ SignedVote pk i :: post -> SignedVote pk i1 ∈ pre ->
  v_chunk_id (vi_data i1) = v_chunk_id (vi_data i) -> v_phase (vi_data i1) = Precommit ->
  v_chunk_hash (vi_data i1) <> v_chunk_hash (vi_data i) ->
  exists u, verify_quorum_using d (set_of (v_chunk_id (vi_data i))) u (prevote_fraction params) = Ok tt
    /\ v_chunk_id (qc_data u) = v_chunk_id (vi_data i) /\ v_chunk_hash (qc_data u) = v_chunk_hash (vi_data i)
    /\ v_round (vi_data i1) < v_round (qc_data u) <= v_round (vi_data i)
    /\ ((vi_unlock_quorum i = Some u /\ (v_phase (vi_data i) = Prevote -> v_round (qc_data u) < v_round (vi_data i)))
        \/ exists i', SignedVote pk i' ∈ pre /\ v_phase (vi_data i') = Precommit /\ vi_unlock_quorum i' = Some u
             /\ v_chunk_id (vi_data i') = v_chunk_id (vi_data i) /\ v_chunk_hash (vi_data i') = v_chunk_hash (vi_data i)
             /\ v_round (qc_data u) = v_round (vi_data i')).
Proof.
  intros Hok HT Hi1 Hk Hp1 Hne. assert (SignedVote pk i ∈ T) as Hi by (rewrite HT; set_solver).
  destruct (t_lock _ _ _ _ Hok _ _ _ _ _ HT Hi1 Hk Hp1 Hne) as (i' & u & Hi' & Hk' & Hu & Hh & Hr & Hwho).
  assert (SignedVote pk i' ∈ T) as HiT
    by (rewrite HT; apply elem_of_app in Hi' as [?| ->%list_elem_of_singleton]; set_solver).
  destruct (t_justified _ _ _ _ Hok pk i' u HiT Hu) as (Hku & Hhu & Hround & Hq).
  assert (i' = i \/ SignedVote pk i' ∈ pre /\ v_phase (vi_data i') = Precommit) as [->|[Hpre Hp]].
  { destruct Hwho as [Hd|Hp]; [left; apply (t_votes _ _ _ _ Hok pk); try done; by rewrite Hd|].
    apply elem_of_app in Hi' as [?|[= ->]%list_elem_of_singleton]; [by right|by left]. }
  - exists u. split_and!; try done; [destruct (v_phase (vi_data i)); lia|]. left. split; [done|]. intros Hp. by rewrite Hp in Hround.
  - destruct (t_precommit _ _ _ _ Hok pk i' HiT Hp) as (u' & Hu' & Hown). rewrite Hu in Hu'. injection Hu' as <-.
    pose proof (t_rounds _ _ _ _ Hok _ _ _ _ _ HT Hpre Hk') as Hle. rewrite Hk' in Hku, Hq.
    exists u. split_and!; try done; [lia|]. right. exists i'. split_and!; try done. congruence.
Qed.

Lemma triple_eta {A B C} (x : A * B * C) : x = (x.1.1, x.1.2, x.2).
Proof. by destruct x as [[??]?]. Qed.

(* ------------------------------------------------------------------ *)
(** ** Properties *)

(** C9: a validator signing through the journal never equivocates, over any
    sequence of votes, nil votes, proposals, reports, headers, expiries, finality
    advances and interruptions: per identity it signs at most one value vote per
    chunk, round and phase (with one attestation), never a value and nil at the
    same position, one proposal and one round-change report per chunk and round,
    and one header per slot. *)
Theorem signing_never_equivocates `{ConsensusCodec} `{Verifier} `{ArtifactStore} (d : ConsensusDomain)
    (params : ConsensusParams) (set_of : N -> list Validator) (e : SigningEngine) (T : list Signed) :
  run d params set_of e T -> forall pk,
  (forall i1 i2, SignedVote pk i1 ∈ T -> SignedVote pk i2 ∈ T ->
     same_position (vi_data i1) (vi_data i2) -> i1 = i2)
  /\ (forall i n, SignedVote pk i ∈ T -> SignedNil pk n ∈ T -> ~ nil_position (vi_data i) n)
  /\ (forall kind k r m1 m2, SignedMessage pk kind k r m1 ∈ T -> SignedMessage pk kind k r m2 ∈ T -> m1 = m2)
  /\ (forall slot h1 h2, SignedHeader pk slot h1 ∈ T -> SignedHeader pk slot h2 ∈ T -> h1 = h2).
Proof.
  intros [_ Hok]%run_safe pk. split_and!.
  - apply (t_votes _ _ _ _ Hok).
  - intros i n. apply (t_nil _ _ _ _ Hok).
  - apply (t_messages _ _ _ _ Hok).
  - apply (t_headers _ _ _ _ Hok).
Qed.

Lemma signing_never_equivocates_witness :
  sample_signed (sample_data 1 0 Prevote, [], None) ∈ map sample_signed sample_votes
  /\ forall i2, SignedVote (replicate 48 7) i2 ∈ map sample_signed sample_votes ->
  same_position (sample_data 1 0 Prevote) (vi_data i2) -> v_chunk_hash (vi_data i2) = v_chunk_hash (sample_data 1 0 Prevote).
Proof.
  split; [left|]. intros i2 Hi2 Hpos.
  destruct (@signing_never_equivocates sample_codec sample_verifier sample_store sample_domain ConsensusParams_default
    (fun _ => sample_signers) _ _ sample_run (replicate 48 7)) as [Hone _].
  rewrite <- (Hone {| vi_data := sample_data 1 0 Prevote; vi_validator_index := 0; vi_proof_hashes := [];
    vi_unlock_quorum := None |} i2 ltac:(left) Hi2 Hpos). reflexivity.
Defined.

(** C10: a validator signing through the journal respects its locks: rounds never
    go back within a chunk; a precommit carries a verified prevote quorum for its
    value from its own round; and after a precommit for one value every vote for
    another value is justified by a verified prevote quorum for that value from a
    round after the precommit and not after the vote.  The quorum is either declared by
    the vote itself, and then from an earlier round when the vote is a prevote, or
    it is the quorum, of its own round, of a precommit for the new value that the
    validator signed before, which had moved the lock. *)
Theorem signing_respects_locks `{ConsensusCodec} `{Verifier} `{ArtifactStore} (d : ConsensusDomain)
    (params : ConsensusParams) (set_of : N -> list Validator) (e : SigningEngine) (T pre post : list Signed)
    (pk : BlsPublicKey) (i : VoteIntent) :
  run d params set_of e T -> T = pre ++ SignedVote pk i :: post ->
  (v_phase (vi_data i) = Precommit -> exists u, vi_unlock_quorum i = Some u /\ v_round (qc_data u) = v_round (vi_data i)
     /\ unlock_justifies d (set_of (v_chunk_id (vi_data i))) (prevote_fraction params) (vi_data i) u)
  /\ forall i1, SignedVote pk i1 ∈ pre -> v_chunk_id (vi_data i1) = v_chunk_id (vi_data i) ->
     v_round (vi_data i1) <= v_round (vi_data i)
     /\ (v_phase (vi_data i1) = Precommit -> v_chunk_hash (vi_data i1) <> v_chunk_hash (vi_data i) ->
         exists u, verify_quorum_using d (set_of (v_chunk_id (vi_data i))) u (prevote_fraction params) = Ok tt
           /\ v_chunk_id (qc_data u) = v_chunk_id (vi_data i) /\ v_chunk_hash (qc_data u) = v_chunk_hash (vi_data i)
           /\ v_round (vi_data i1) < v_round (qc_data u) <= v_round (vi_data i)
           /\ ((vi_unlock_quorum i = Some u /\ (v_phase (vi_data i) = Prevote -> v_round (qc_data u) < v_round (vi_data i)))
               \/ exists i', SignedVote pk i' ∈ pre /\ v_phase (vi_data i') = Precommit /\ vi_unlock_quorum i' = Some u
                    /\ v_chunk_id (vi_data i') = v_chunk_id (vi_data i) /\ v_chunk_hash (vi_data i') = v_chunk_hash (vi_data i)
                    /\ v_round (qc_data u) = v_round (vi_data i'))).
Proof.
  intros [_ Hok]%run_safe HT. assert (SignedVote pk i ∈ T) as Hi by (rewrite HT; set_solver). split.
  - intros Hp. destruct (t_precommit _ _ _ _ Hok pk i Hi Hp) as (u & Hu & Hr). exists u.
    split_and!; try done. by apply (t_justified _ _ _ _ Hok pk).
  - intros i1 Hi1 Hk. split; [by eapply (t_rounds _ _ _ _ Hok)|]. intros Hp1 Hne.
    by apply (switch_bounds d params set_of T pre post pk i i1 Hok).
Qed.

Lemma signing_respects_locks_witness :
  exists u, @verify_quorum_using sample_codec sample_verifier sample_domain sample_signers u (2, 3) = Ok tt
    /\ v_chunk_hash (qc_data u) = v_chunk_hash (sample_data 2 1 Precommit) /\ 0 < v_round (qc_data u) <= 1.
Proof.
  destruct (@signing_respects_locks sample_codec sample_verifier sample_store sample_domain ConsensusParams_default
    (fun _ => sample_signers) _ _ (map sample_signed (take 2 sample_votes)) [] (replicate 48 7)
    {| vi_data := sample_data 2 1 Precommit; vi_validator_index := 0; vi_proof_hashes := [];
       vi_unlock_quorum := Some (sample_quorum 2 1) |} sample_run eq_refl) as [_ Hlock].
  destruct (Hlock {| vi_data := sample_data 1 0 Precommit; vi_validator_index := 0; vi_proof_hashes := [];
    vi_unlock_quorum := Some (sample_quorum 1 0) |} ltac:(right; left) eq_refl) as [_ Hswitch].
  destruct (Hswitch eq_refl ltac:(vm_compute; discriminate)) as (u & Hq & _ & Hh & Hr & _).
  exists u. split; [exact Hq|]. split; [exact Hh|exact Hr].
Defined.

(** A reservation can be repeated after an interruption: once a vote has been
    reserved, requesting exactly the same vote again is accepted, signs the same
    vote and leaves the journal unchanged, whatever the journal held before. *)
Theorem reservation_repeatable `{ConsensusCodec} `{Verifier} `{ArtifactStore} (e e1 : SigningEngine)
    (voter : ProposerKey) (data : FinalityVoteData) (proofs : list Hash) (unlock : option QuorumCertificate)
    (signed : list Signed) (r1 : result SigningError FinalityVote) :
  sign_vote_durable e voter data proofs unlock = (e1, signed, r1) -> signed <> [] ->
  exists e2 r2, sign_vote_durable e1 voter data proofs unlock = (e2, signed, r2)
    /\ sg_journal e2 = sg_journal e1 /\ forall v1 v2, r1 = Ok v1 -> r2 = Ok v2 -> v2 = v1.
Proof.
  unfold sign_vote_durable. set (i := Build_VoteIntent _ _ _ _).
  destruct (reserve_vote e voter i) as [b|err] eqn:Hres; [|by intros [= _ <- _]].
  destruct (reserve_vote_again _ _ _ _ Hres) as (b' & Hres' & Hj). unfold retain at 1.
  destruct (retain_signed_artifact _ _) as [st kept]. intros [= <- <- <-] _.
  change (reserve_vote (with_artifacts (write_batch e b) st) voter i) with (reserve_vote (write_batch e b) voter i).
  rewrite Hres'. unfold retain. destruct (retain_signed_artifact _ _) as [st' kept']. eexists _, _. split; [done|].
  split; [exact Hj|]. intros v1 v2. destruct kept, kept'; try done. by intros [= <-] [= <-].
Qed.

Lemma reservation_repeatable_witness :
  let first := @sign_vote_durable sample_codec sample_verifier sample_store sample_engine sample_key
    (sample_data 1 0 Prevote) [] None in
  first.1.2 = [sample_signed (sample_data 1 0 Prevote, [], None)]
  /\ exists e2 r2, @sign_vote_durable sample_codec sample_verifier sample_store first.1.1
    sample_key (sample_data 1 0 Prevote) [] None = (e2, first.1.2, r2).
Proof.
  intros first. assert (first.1.2 = [sample_signed (sample_data 1 0 Prevote, [], None)]) as Hfirst
    by (vm_compute; reflexivity). split; [exact Hfirst|].
  destruct (@reservation_repeatable sample_codec sample_verifier sample_store sample_engine first.1.1
    sample_key (sample_data 1 0 Prevote) [] None first.1.2 first.2) as (e2 & r2 & Hsign & _).
  - apply triple_eta.
  - rewrite Hfirst. discriminate.
  - exists e2, r2. exact Hsign.
Defined.

(** The journal's positions have distinct database keys, for identities of 48
    bytes and chunk ids and rounds of their integer types, and expiry reads off a
    key exactly the chunk it belongs to (none for a proposer watermark). *)
Theorem journal_keys_distinct (k1 k2 : JournalKey) :
  key_wf k1 -> key_wf k2 ->
  (key_bytes k1 = key_bytes k2 -> k1 = k2) /\ key_chunk (key_bytes k1) = Ok (journal_chunk k1).
Proof. intros Hw1 Hw2. split; [by apply key_bytes_inj|by apply key_chunk_bytes]. Qed.

Lemma journal_keys_distinct_witness :
  key_bytes (NilKey (replicate 48 7) 3 1 Prevote) <> key_bytes (IntentKey (replicate 48 7) 3 1 Prevote)
  /\ key_chunk (key_bytes (NilKey (replicate 48 7) 3 1 Prevote)) = Ok (Some 3).
Proof.
  destruct (journal_keys_distinct (NilKey (replicate 48 7) 3 1 Prevote) (IntentKey (replicate 48 7) 3 1 Prevote))
    as [Hinj Hchunk]; [split; [reflexivity|split; vm_compute; discriminate]..|].
  split; [intros Heq; discriminate (Hinj Heq)|exact Hchunk].
Defined.
