(* ===== verification/Offences.v ===== *)
(** * Slashing evidence: crates/prover-chunk/src/history.rs, slashing.rs, evidence.rs

    The offences a validator can be convicted of, the dispatch that authorizes a
    piece of evidence against one historical record, the identity of a penalty, and
    the statement the evidence guest derives.  The theorems connect convictions to the
    signing journal: a validator whose key signs only through the journal cannot be
    convicted of equivocating, while the lock rule convicts journal users
    that keep a moved lock. *)

From S2P Require Import Prelude External Primitives History Evidence Vrf Votes Finality Records Blocks Signing.

(** ** Data *)

Inductive VrfRejectionReason := BadSignature | WrongDomain | WrongFinalizedSeed | WrongSlot | ThresholdNotMet.
Inductive ProofRejectionReason := MalformedProof | PublicInputsMismatch | VerifierRejected.

Record DaFraudProof := {
  publication_signature : BlsSignature;
  expected_da_root : Hash;
  computed_da_root : Hash;
  bundle_hash : Hash;
  offending_bundle : bytes;
}.

Inductive SlashingEvidence :=
  | DoubleBftProposal (proposer_index : N) (proposal_a proposal_b : BftProposal)
  | ConflictingNilVote (validator_index : N) (value_vote : IndexedVote) (nil_vote : IndexedNilVote)
  | DoubleProposal (proposer_index : N) (header_a header_b : Header)
  | InvalidVrfClaim (proposer_index : N) (header : Header) (reason : VrfRejectionReason)
  | DoublePrevote (validator_index : N) (vote_a vote_b : IndexedVote)
  | DoublePrecommit (validator_index : N) (vote_a vote_b : IndexedVote)
  | LockViolation (validator_index : N) (vote_a vote_b : IndexedVote) (lock_evidence : LockEvidence)
  | InvalidProofSigning (validator_index : N) (vote : IndexedVote) (attestation : VoteAttestation)
      (rejected_proof : BlockProof) (reason : ProofRejectionReason)
  | LongRangeForkParticipation (validator_index : N) (vote canonical_vote : IndexedVote)
  | DaCommitmentFraud (proposer_index : N) (header : Header) (fraud_proof : DaFraudProof).

Definition offender_index (e : SlashingEvidence) : N :=
  match e with
  | DoubleBftProposal index _ _ | DoubleProposal index _ _ | InvalidVrfClaim index _ _
  | DaCommitmentFraud index _ _ => index
  | ConflictingNilVote index _ _ | DoublePrevote index _ _ | DoublePrecommit index _ _
  | LockViolation index _ _ _ | InvalidProofSigning index _ _ _ _
  | LongRangeForkParticipation index _ _ => index
  end.

Definition PENALTY_DOUBLE_PROPOSAL : N := 0.
Definition PENALTY_INVALID_VRF : N := 1.
Definition PENALTY_PREVOTE_EQUIVOCATION : N := 2.
Definition PENALTY_PRECOMMIT_EQUIVOCATION : N := 3.
Definition PENALTY_LOCK_VIOLATION : N := 4.
Definition PENALTY_INVALID_PROOF_SIGNING : N := 5.
Definition PENALTY_DA_COMMITMENT_FRAUD : N := 6.
Definition PENALTY_INACTIVITY : N := 7.
Definition PENALTY_DOUBLE_BFT_PROPOSAL : N := 8.

(** [b"neutrino-penalty"]. *)
Definition PENALTY_TAG : bytes :=
  [110; 101; 117; 116; 114; 105; 110; 111; 45; 112; 101; 110; 97; 108; 116; 121].

Definition vote_kind (phase : FinalityVotePhase) : N :=
  match phase with
  | Prevote => PENALTY_PREVOTE_EQUIVOCATION
  | Precommit => PENALTY_PRECOMMIT_EQUIVOCATION
  end.

(** The [EvidenceVerifier] trait: deciding that an exact proof envelope is
    rejected; an error is not a verdict. *)
Class EvidenceVerifier := rejects_block : BlockProof -> Digest -> result HistoryError bool.

Inductive EvidenceClaim :=
  | ClaimSlash (evidence : SlashingEvidence)
  | ClaimInactivity (validator_index : N) (certificate : FinalityCert).

Record EvidenceWitness := {
  ew_chain_spec : ChainSpec;
  ew_source : HistoricalChunk;
  ew_claim : EvidenceClaim;
  ew_block_guest_vk_digest : Digest;
  ew_reporter : option Hash;
}.

(** The Borsh encodings of a penalty identity, a claim and the chain specification. *)
Class OffenceCodec := {
  #[global] codec_penalty :: Borsh (bytes * N * BlsPublicKey * Hash * N * N);
  #[global] codec_claim :: Borsh EvidenceClaim;
  #[global] codec_spec :: Borsh ChainSpec;
}.

Definition active_validator (validators : list Validator) (index : N) : result HistoryError Validator :=
  ok_or (active_get validators index) HistEvidence.

(** [height.checked_sub(1).and_then(|h| h.checked_div(chunk_size))]. *)
Definition chunk_for_height (chunk_size height : N) : result HistoryError N :=
  ok_or (h ← checked_sub height 1; if chunk_size =? 0 then None else Some (h / chunk_size)) HistEvidence.

Definition evidence_chunk_id (spec : ChainSpec) (e : SlashingEvidence) : result HistoryError N :=
  match e with
  | DoubleBftProposal _ a _ => Ok (ck_chunk_id (bp_chunk a))
  | ConflictingNilVote _ v _ => Ok (v_chunk_id (iv_data v))
  | DoubleProposal _ a _ => chunk_for_height (chunk_size (consensus spec)) (h_height a)
  | InvalidVrfClaim _ h _ | DaCommitmentFraud _ h _ => chunk_for_height (chunk_size (consensus spec)) (h_height h)
  | DoublePrevote _ a _ | DoublePrecommit _ a _ | LockViolation _ a _ _ => Ok (v_chunk_id (iv_data a))
  | InvalidProofSigning _ v _ _ _ | LongRangeForkParticipation _ v _ => Ok (v_chunk_id (iv_data v))
  end.

(** [record_at]: the only record an authorization reads. *)
Definition record_at (source : HistoricalChunk) (chunk_id : N) : result HistoryError HistoricalChunk :=
  if ck_chunk_id (hc_chunk source) =? chunk_id then Ok source else Err HistAnchor.

Definition invalid {E A} (r : result E A) : result HistoryError A := map_err (fun _ => HistEvidence) r.

Section offences.
Context `{Blake3} `{Sha256} `{ConsensusCodec} `{RecordCodec} `{BlockCodec} `{OffenceCodec}.
Context `{Verifier} `{EvidenceVerifier}.

Definition penalty_id (kind : N) (v : Validator) (scope round : N) : Hash :=
  commitment (PENALTY_TAG, kind, pubkey v, withdrawal_credentials v, scope, round).

(** What [penalty_id] hashes for one piece of evidence. *)
Definition penalty_preimage (scope : N * N * N) (v : Validator) : bytes :=
  borsh_to_vec (PENALTY_TAG, scope.1.1, pubkey v, withdrawal_credentials v, scope.1.2, scope.2).

Definition verify_proof_acceptance (a : VoteAttestation) (proof : BlockProof) (chunk_size : N) :
    result EvidenceError unit :=
  offset ← ok_or (start ← checked_mul U64_MAX (v_chunk_id (va_vote a)) chunk_size;
                  position ← checked_sub (bpr_height proof) start;
                  checked_sub position 1) EvBinding;
  ensure (bool_decide (v_phase (va_vote a) = Precommit) && negb (chunk_size =? 0)
          && (len (va_proof_hashes a) =? chunk_size)
          && bool_decide (va_proof_hashes a !! N.to_nat offset = Some (commitment proof))) EvBinding.

Definition verify_da_fraud_using (domain : ConsensusDomain) (validators : list Validator) (header : Header)
    (fraud : DaFraudProof) : result EvidenceError unit :=
  let header_hash := Header_hash header in
  _ ← map_err (fun _ => EvSignature) (verify_header_signature_with header header_hash domain validators);
  validator ← ok_or (validators !! N.to_nat (h_proposer_index header)) EvBinding;
  let hash := blake3_256 (offending_bundle fraud) in
  _ ← ensure (bool_decide (hash = bundle_hash fraud)
              && bool_decide (expected_da_root fraud = h_da_root header)) EvBinding;
  _ ← ensure (verifier_verify (pubkey validator) (da_publication_message domain header_hash hash)
                (publication_signature fraud)) EvSignature;
  body ← ok_or (borsh_from_slice (offending_bundle fraud) : option Body) EvBinding;
  (* a decoded body has lanes that fit their counters, so the root exists *)
  actual ← ok_or (body_da_root body) EvBinding;
  ensure (bool_decide (actual = computed_da_root fraud) && negb (bool_decide (actual = h_da_root header)))
    EvBinding.

(** The two equivocation arms share their body, at their phase. *)
Definition authorize_double_vote (domain : ConsensusDomain) (source : HistoricalChunk)
    (phase : FinalityVotePhase) (index : N) (vote_a vote_b : IndexedVote) :
    result HistoryError (Validator * Hash) :=
  let a := iv_data vote_a in
  let b := iv_data vote_b in
  _ ← ensure (bool_decide (v_phase a = phase) && bool_decide (v_phase b = phase)
              && (v_chunk_id a =? v_chunk_id b) && (v_round a =? v_round b)
              && negb (bool_decide (v_chunk_hash a = v_chunk_hash b))) HistEvidence;
  record ← record_at source (v_chunk_id a);
  validator ← active_validator (hc_validators record) index;
  _ ← invalid (verify_indexed_vote_using domain (hc_validators record) index vote_a);
  _ ← invalid (verify_indexed_vote_using domain (hc_validators record) index vote_b);
  Ok (validator, penalty_id (vote_kind phase) validator (v_chunk_id a) (v_round a)).

Definition authorize_evidence_with (spec : ChainSpec) (domain : ConsensusDomain) (source : HistoricalChunk)
    (root : option Hash) (e : SlashingEvidence) (block_key : Digest) :
    result HistoryError (Validator * Hash) :=
  let params := consensus spec in
  let chunk_of := chunk_for_height (chunk_size params) in
  match e with
  | DoubleBftProposal index a b =>
      record ← record_at source (ck_chunk_id (bp_chunk a));
      validator ← active_validator (hc_validators record) index;
      _ ← invalid (verify_double_bft_proposal_with_root domain (hc_validators record)
                     (default (commitment (hc_validators record)) root) index a b);
      Ok (validator, penalty_id PENALTY_DOUBLE_BFT_PROPOSAL validator (ck_chunk_id (hc_chunk record)) (bp_round a))
  | ConflictingNilVote index value nil_ =>
      record ← record_at source (v_chunk_id (iv_data value));
      validator ← active_validator (hc_validators record) index;
      _ ← invalid (verify_conflicting_nil_vote_using domain (hc_validators record) index value nil_);
      Ok (validator, penalty_id (vote_kind (v_phase (iv_data value))) validator
                       (v_chunk_id (iv_data value)) (v_round (iv_data value)))
  | DoubleProposal index a b =>
      chunk_id ← chunk_of (h_height a);
      let hash_a := Header_hash a in
      let hash_b := Header_hash b in
      chunk_b ← chunk_of (h_height b);
      _ ← ensure ((chunk_b =? chunk_id) && (h_proposer_index a =? index) && (h_proposer_index b =? index)
                  && (h_slot a =? h_slot b) && negb (bool_decide (hash_a = hash_b))) HistEvidence;
      record ← record_at source chunk_id;
      validator ← active_validator (hc_validators record) index;
      _ ← invalid (verify_header_signature_with a hash_a domain (hc_validators record));
      _ ← invalid (verify_header_signature_with b hash_b domain (hc_validators record));
      Ok (validator, penalty_id PENALTY_DOUBLE_PROPOSAL validator (h_slot a) 0)
  | InvalidVrfClaim index header reason =>
      chunk_id ← chunk_of (h_height header);
      record ← record_at source chunk_id;
      validator ← active_validator (hc_validators record) index;
      _ ← ensure (h_proposer_index header =? index) HistEvidence;
      let hash := Header_hash header in
      _ ← invalid (verify_header_signature_with header hash domain (hc_validators record));
      let actual := verify_proposer_with header hash domain
        (Proposers_new (hc_validators record) (hc_seed record) (expected_proposers_per_slot params)) in
      _ ← ensure match actual, reason with
                 | Err ProposerVrf, BadSignature | Err ProposerIneligible, ThresholdNotMet => true
                 | _, _ => false
                 end HistEvidence;
      Ok (validator, penalty_id PENALTY_INVALID_VRF validator (h_slot header) 0)
  | DoublePrevote index a b => authorize_double_vote domain source Prevote index a b
  | DoublePrecommit index a b => authorize_double_vote domain source Precommit index a b
  | LockViolation index a b lock =>
      record ← record_at source (v_chunk_id (iv_data a));
      validator ← active_validator (hc_validators record) index;
      _ ← invalid (verify_lock_violation_using domain (hc_validators record) index a b lock (prevote_fraction params));
      Ok (validator, penalty_id PENALTY_LOCK_VIOLATION validator (v_chunk_id (iv_data b)) (v_round (iv_data b)))
  | InvalidProofSigning index vote attestation rejected_proof _ =>
      record ← record_at source (v_chunk_id (iv_data vote));
      validator ← active_validator (hc_validators record) index;
      _ ← invalid (verify_indexed_vote_using domain (hc_validators record) index vote);
      _ ← invalid (verify_attestation_using domain (hc_validators record) index (iv_data vote) attestation);
      _ ← invalid (verify_proof_acceptance attestation rejected_proof (chunk_size params));
      rejected ← rejects_block rejected_proof block_key;
      _ ← ensure rejected HistEvidence;
      Ok (validator, penalty_id PENALTY_INVALID_PROOF_SIGNING validator (bpr_height rejected_proof) 0)
  | LongRangeForkParticipation index vote canonical_vote =>
      record ← record_at source (v_chunk_id (iv_data vote));
      let canonical := iv_data canonical_vote in
      _ ← ensure (bool_decide (v_chunk_hash canonical = Chunk_hash (hc_chunk record))
                  && (v_chunk_id canonical =? v_chunk_id (iv_data vote))
                  && (v_round canonical =? v_round (iv_data vote))
                  && bool_decide (v_phase canonical = v_phase (iv_data vote))
                  && negb (bool_decide (v_chunk_hash (iv_data vote) = v_chunk_hash canonical))) HistEvidence;
      validator ← active_validator (hc_validators record) index;
      _ ← invalid (verify_indexed_vote_using domain (hc_validators record) index vote);
      _ ← invalid (verify_indexed_vote_using domain (hc_validators record) index canonical_vote);
      Ok (validator, penalty_id (vote_kind (v_phase (iv_data vote))) validator
                       (v_chunk_id (iv_data vote)) (v_round (iv_data vote)))
  | DaCommitmentFraud index header fraud =>
      chunk_id ← chunk_of (h_height header);
      record ← record_at source chunk_id;
      validator ← active_validator (hc_validators record) index;
      _ ← ensure (h_proposer_index header =? index) HistEvidence;
      _ ← invalid (verify_da_fraud_using domain (hc_validators record) header fraud);
      Ok (validator, penalty_id PENALTY_DA_COMMITMENT_FRAUD validator (h_slot header) 0)
  end.

(** Authorization through an authenticated history witness. *)
Definition authorize_evidence (spec : ChainSpec) (w : HistoryWitness) (e : SlashingEvidence) (block_key : Digest) :
    result HistoryError (Validator * Hash) :=
  chunk_id ← evidence_chunk_id spec e;
  source ← record w chunk_id;
  authorize_evidence_with spec (consensus_domain spec) source None e block_key.

Definition verify_embedded_vote_with (domain : ConsensusDomain) (params : ConsensusParams) (w : HistoryWitness)
    (vote : FinalityVote) : result HistoryError unit :=
  record ← record w (v_chunk_id (fv_data vote));
  invalid (verify_vote_using domain (hc_validators record) vote params).

Definition validate_evidence_using (input : EvidenceWitness) : result HistoryError EvidenceStatement :=
  let spec := ew_chain_spec input in
  let source := ew_source input in
  _ ← map_err (fun _ => HistAnchor) (ChainSpec_validate spec);
  let context := record_context source in
  _ ← ensure (bool_decide (ck_active_validator_set_root (hc_chunk source) = validators_root context)
              && bool_decide ((n ← checked_add U64_MAX (ck_chunk_id (hc_chunk source)) 1;
                               checked_mul U64_MAX n (chunk_size (consensus spec)))
                              = Some (ck_end_height (hc_chunk source)))) HistAnchor;
  let domain := consensus_domain spec in
  '(offender, offence_id, kind) ←
    match ew_claim input with
    | ClaimSlash evidence =>
        '(validator, id) ← authorize_evidence_with spec domain source (Some (validators_root context)) evidence
                             (hc_block_guest_vk_digest source);
        Ok (validator, id, Slash)
    | ClaimInactivity index certificate =>
        _ ← invalid (verify_finality_with_root domain (consensus spec) (hc_validators source)
                       (validators_root context) (hc_chunk source) certificate);
        validator ← active_validator (hc_validators source) index;
        _ ← ensure (bool_decide (BitVec.get (av_bits (fc_precommit certificate)) index = Some false)) HistEvidence;
        Ok (validator, penalty_id PENALTY_INACTIVITY validator (ck_chunk_id (hc_chunk source)) 0, Inactivity)
    end;
  Ok {| st_chain_id := spec_chain_id spec; st_chain_spec_hash := chain_spec_hash domain;
        st_block_guest_vk_digest := ew_block_guest_vk_digest input; Evidence.context := context;
        offender := offender; Evidence.kind := kind; Evidence.offence_id := offence_id;
        facts_commitment := commitment (ew_claim input); reporter := ew_reporter input |}.

End offences.

(* ------------------------------------------------------------------ *)
(** ** What a journal user signs *)

(** The tags the journal guards; an honest key uses them nowhere else. *)
Definition journal_tags : list DomainTag :=
  [DOMAIN_PREVOTE; DOMAIN_PRECOMMIT; DOMAIN_VOTE_ATTESTATION; DOMAIN_BFT_NIL; DOMAIN_BFT_NIL_ATTESTATION;
   DOMAIN_BFT_PROPOSAL; DOMAIN_BFT_ROUND_CHANGE; DOMAIN_PROPOSER_SIG].

Definition kind_tag (kind : MessageKind) : DomainTag :=
  match kind with ProposalMessage => DOMAIN_BFT_PROPOSAL | RoundChangeMessage => DOMAIN_BFT_ROUND_CHANGE end.

Section issued.
Context `{ConsensusCodec} `{Verifier}.

(** The signature of event [s] under [pk] covers the tagged payload. *)
Definition issues (d : ConsensusDomain) (s : Signed) (pk : BlsPublicKey) (tag : DomainTag) (payload : bytes) : Prop :=
  match s with
  | SignedVote pk' i =>
      pk' = pk
      /\ ((tag = phase_tag (v_phase (vi_data i)) /\ payload = borsh_to_vec (vi_data i))
          \/ (tag = DOMAIN_VOTE_ATTESTATION /\ exists signature : BlsSignature,
                payload = borsh_to_vec (vi_validator_index i, vi_data i, signature, vi_proof_hashes i, vi_unlock_quorum i)))
  | SignedNil pk' n =>
      pk' = pk
      /\ ((tag = DOMAIN_BFT_NIL /\ payload = borsh_to_vec n)
          \/ (tag = DOMAIN_BFT_NIL_ATTESTATION /\ exists (index : N) (signature : BlsSignature),
                payload = borsh_to_vec (index, n, signature)))
  | SignedMessage pk' kind _ _ m => pk' = pk /\ tag = kind_tag kind /\ m = signing_message d tag payload
  | SignedHeader pk' _ h => pk' = pk /\ tag = DOMAIN_PROPOSER_SIG /\ payload = h
  end.

(** Unforgeability of an honest key: under the journal's tags a signature that
    verifies covers a message one of the events of [T] signed. *)
Definition unforgeable (d : ConsensusDomain) (T : list Signed) (pk : BlsPublicKey) : Prop :=
  forall tag payload signature, tag ∈ journal_tags ->
    verifier_verify pk (signing_message d tag payload) signature = true ->
    exists s tag' payload', s ∈ T /\ issues d s pk tag' payload' /\ tag' ∈ journal_tags
      /\ signing_message d tag payload = signing_message d tag' payload'.

Context (d : ConsensusDomain) (Hd : domain_wf d) (T : list Signed) (pk : BlsPublicKey).
Context (Hun : unforgeable d T pk).

Lemma journal_tags_length t : t ∈ journal_tags -> length t = 16%nat.
Proof.
  assert (Forall (fun t => length t = 16%nat) journal_tags) as Hall by (by repeat constructor).
  intros Ht. by eapply Forall_forall in Hall.
Qed.

Lemma issued tag payload signature : tag ∈ journal_tags ->
  verifier_verify pk (signing_message d tag payload) signature = true ->
  exists s, s ∈ T /\ issues d s pk tag payload.
Proof.
  intros Htag Hv. destruct (Hun _ _ _ Htag Hv) as (s & tag' & payload' & Hs & Hi & Htag' & Heq).
  apply signing_message_inj in Heq as (<- & _ & <-); [by exists s|done..|].
  by rewrite !journal_tags_length.
Qed.

Lemma signing_message_borsh_eq `{Borsh A} tag (x : A) :
  signing_message_borsh d tag x = signing_message d tag (borsh_to_vec x).
Proof. unfold signing_message_borsh, signing_message. by rewrite <- !app_assoc. Qed.

Lemma phase_tag_inj p q : phase_tag p = phase_tag q -> p = q.
Proof. destruct p, q; try done; intros Heq; vm_compute in Heq; discriminate Heq. Qed.

Context `{!ConsensusCodecLaws}.

(** Two different tags. *)
Ltac other_tag H := exfalso; vm_compute in H; discriminate H.

Lemma issued_vote v signature : verifier_verify pk (vote_message d v) signature = true ->
  exists i, SignedVote pk i ∈ T /\ vi_data i = v.
Proof.
  unfold vote_message. rewrite signing_message_borsh_eq. intros Hv.
  apply issued in Hv as (s & Hs & Hi); [|destruct (v_phase v); cbn; set_solver].
  destruct s as [pk' i|pk' n|pk' kind k r m|pk' slot h]; cbn in Hi.
  - destruct Hi as (-> & [[_ Hp]|[Htag _]]); [|destruct (v_phase v); other_tag Htag].
    exists i. split; [done|]. by apply borsh_to_vec_inj in Hp.
  - destruct Hi as (-> & [[Htag _]|[Htag _]]); destruct (v_phase v); other_tag Htag.
  - destruct Hi as (-> & Htag & _). destruct kind, (v_phase v); other_tag Htag.
  - destruct Hi as (-> & Htag & _). destruct (v_phase v); other_tag Htag.
Qed.

Lemma issued_attestation a signature : verifier_verify pk (attestation_message d a) signature = true ->
  exists i, SignedVote pk i ∈ T /\ vi_data i = va_vote a /\ vi_unlock_quorum i = va_unlock_quorum a.
Proof.
  unfold attestation_message. rewrite signing_message_borsh_eq. intros Hv.
  apply issued in Hv as (s & Hs & Hi); [|cbn; set_solver].
  destruct s as [pk' i|pk' n|pk' kind k r m|pk' slot h]; cbn in Hi.
  - destruct Hi as (-> & [[Htag _]|[_ [sg Hp]]]); [destruct (v_phase (vi_data i)); other_tag Htag|].
    exists i. apply borsh_to_vec_inj in Hp. by injection Hp.
  - destruct Hi as (-> & [[Htag _]|[Htag _]]); other_tag Htag.
  - destruct Hi as (-> & Htag & _). destruct kind; other_tag Htag.
  - destruct Hi as (-> & Htag & _). other_tag Htag.
Qed.

Lemma issued_nil n signature : verifier_verify pk (nil_message d n) signature = true -> SignedNil pk n ∈ T.
Proof.
  unfold nil_message. rewrite signing_message_borsh_eq. intros Hv.
  apply issued in Hv as (s & Hs & Hi); [|cbn; set_solver].
  destruct s as [pk' i|pk' n'|pk' kind k r m|pk' slot h]; cbn in Hi.
  - destruct Hi as (-> & [[Htag _]|[Htag _]]); [destruct (v_phase (vi_data i)); other_tag Htag|other_tag Htag].
  - destruct Hi as (-> & [[_ Hp]|[Htag _]]); [|other_tag Htag]. by apply borsh_to_vec_inj in Hp as ->.
  - destruct Hi as (-> & Htag & _). destruct kind; other_tag Htag.
  - destruct Hi as (-> & Htag & _). other_tag Htag.
Qed.

Lemma issued_proposal p signature : verifier_verify pk (proposal_message d p) signature = true ->
  exists k r, SignedMessage pk ProposalMessage k r (proposal_message d p) ∈ T.
Proof.
  unfold proposal_message. rewrite signing_message_borsh_eq. intros Hv.
  apply issued in Hv as (s & Hs & Hi); [|cbn; set_solver].
  destruct s as [pk' i|pk' n'|pk' kind k r m|pk' slot h]; cbn in Hi.
  - destruct Hi as (-> & [[Htag _]|[Htag _]]); [destruct (v_phase (vi_data i)); other_tag Htag|other_tag Htag].
  - destruct Hi as (-> & [[Htag _]|[Htag _]]); other_tag Htag.
  - destruct Hi as (-> & Htag & ->). destruct kind; [by exists k, r|other_tag Htag].
  - destruct Hi as (-> & Htag & _). other_tag Htag.
Qed.

Lemma issued_header h signature :
  verifier_verify pk (signing_message d DOMAIN_PROPOSER_SIG h) signature = true ->
  exists slot, SignedHeader pk slot h ∈ T.
Proof.
  intros Hv. apply issued in Hv as (s & Hs & Hi); [|cbn; set_solver].
  destruct s as [pk' i|pk' n'|pk' kind k r m|pk' slot h']; cbn in Hi.
  - destruct Hi as (-> & [[Htag _]|[Htag _]]); [destruct (v_phase (vi_data i)); other_tag Htag|other_tag Htag].
  - destruct Hi as (-> & [[Htag _]|[Htag _]]); other_tag Htag.
  - destruct Hi as (-> & Htag & ->). destruct kind; other_tag Htag.
  - destruct Hi as (-> & _ & ->). by exists slot.
Qed.

Lemma proposal_message_inj p q : proposal_message d p = proposal_message d q ->
  bp_chunk p = bp_chunk q /\ bp_round p = bp_round q.
Proof.
  unfold proposal_message. rewrite !signing_message_borsh_eq. intros (_ & _ & Hp)%signing_message_inj; [|done..].
  apply borsh_to_vec_inj in Hp. by injection Hp.
Qed.

End issued.

(* ------------------------------------------------------------------ *)
(** ** Convictions *)

(** The offences that consist of two conflicting signatures. *)
Definition is_equivocation (e : SlashingEvidence) : bool :=
  match e with
  | DoubleBftProposal _ _ _ | ConflictingNilVote _ _ _ | DoubleProposal _ _ _ | DoublePrevote _ _ _
  | DoublePrecommit _ _ _ | LongRangeForkParticipation _ _ _ => true
  | _ => false
  end.

(** Penalty kind, scope and round of an offence: what its identity commits to. *)
Definition offence_scope (source : HistoricalChunk) (e : SlashingEvidence) : N * N * N :=
  let vote_scope v := (vote_kind (v_phase (iv_data v)), v_chunk_id (iv_data v), v_round (iv_data v)) in
  match e with
  | DoubleBftProposal _ a _ => (PENALTY_DOUBLE_BFT_PROPOSAL, ck_chunk_id (hc_chunk source), bp_round a)
  | ConflictingNilVote _ v _ | DoublePrevote _ v _ | DoublePrecommit _ v _
  | LongRangeForkParticipation _ v _ => vote_scope v
  | DoubleProposal _ a _ => (PENALTY_DOUBLE_PROPOSAL, h_slot a, 0)
  | InvalidVrfClaim _ h _ => (PENALTY_INVALID_VRF, h_slot h, 0)
  | LockViolation _ _ b _ => (PENALTY_LOCK_VIOLATION, v_chunk_id (iv_data b), v_round (iv_data b))
  | InvalidProofSigning _ _ _ p _ => (PENALTY_INVALID_PROOF_SIGNING, bpr_height p, 0)
  | DaCommitmentFraud _ h _ => (PENALTY_DA_COMMITMENT_FRAUD, h_slot h, 0)
  end.

(** Local production signs the hash of a header at that header's slot. *)
Definition signs_own_slots `{Blake3} `{BlockCodec} (T : list Signed) (pk : BlsPublicKey) : Prop :=
  forall slot h, SignedHeader pk slot h ∈ T -> exists header, h = Header_hash header /\ h_slot header = slot.

Class BlockCodecLaws `{BlockCodec} : Prop := codec_header_laws :: BorshLaws HeaderHashPayload.

Lemma record_at_Ok source k r : record_at source k = Ok r <-> r = source /\ ck_chunk_id (hc_chunk source) = k.
Proof. unfold record_at. destruct (N.eqb_spec (ck_chunk_id (hc_chunk source)) k); naive_solver. Qed.

Lemma active_validator_Ok vs index v :
  active_validator vs index = Ok v <-> vs !! N.to_nat index = Some v /\ is_active v = true.
Proof.
  unfold active_validator, active_get. destruct (vs !! N.to_nat index) as [v'|]; cbn; [|naive_solver].
  destruct (is_active v') eqn:Ha; cbn; split.
  - by intros [= <-].
  - by intros [[= <-] _].
  - done.
  - intros [[= <-] Hv]. by rewrite Hv in Ha.
Qed.

Lemma invalid_Ok {E A} (r : result E A) x : invalid r = Ok x <-> r = Ok x.
Proof. unfold invalid. destruct r; cbn; naive_solver. Qed.

Lemma verify_indexed_vote_Ok `{ConsensusCodec} `{Verifier} d vs index vote v :
  vs !! N.to_nat index = Some v -> verify_indexed_vote_using d vs index vote = Ok tt ->
  verifier_verify (pubkey v) (vote_message d (iv_data vote)) (iv_signature vote) = true.
Proof. intros Hv. unfold verify_indexed_vote_using. rewrite Hv. cbn. by rewrite ensure_Ok. Qed.

(** A later event of a higher round has the earlier one before it. *)
Lemma earlier_round `{ConsensusCodec} `{Verifier} d params set_of T pk (Hok : trace_ok d params set_of T) pre post i j :
  T = pre ++ SignedVote pk j :: post -> SignedVote pk i ∈ T ->
  v_chunk_id (vi_data i) = v_chunk_id (vi_data j) -> v_round (vi_data i) < v_round (vi_data j) ->
  SignedVote pk i ∈ pre.
Proof.
  intros HT Hi Hk Hr. rewrite HT in Hi. apply elem_of_app in Hi as [Hi|Hi]; [done|].
  apply elem_of_cons in Hi as [[= ->]|Hi]; [lia|]. exfalso.
  apply list_elem_of_split in Hi as (mid & post' & ->).
  assert (v_round (vi_data j) <= v_round (vi_data i)); [|lia].
  eapply (t_rounds _ _ _ _ Hok (pre ++ SignedVote pk j :: mid) pk i post'); [|set_solver|done].
  by rewrite HT, <- app_assoc.
Qed.

Section convictions.
Context `{Blake3} `{Sha256} `{ConsensusCodec} `{RecordCodec} `{BlockCodec} `{OffenceCodec}.
Context `{Verifier} `{EvidenceVerifier}.

(** Opens the guards of an accepted authorization. *)
Ltac open_guard Hx :=
  lazymatch type of Hx with
  | record_at _ _ = Ok _ => apply record_at_Ok in Hx as [-> ?]
  | active_validator _ _ = Ok _ => apply active_validator_Ok in Hx as [? ?]
  | invalid _ = Ok _ => apply (proj1 (invalid_Ok _ _)) in Hx
  | ensure _ _ = Ok _ => bool_prop in Hx
  | _ => idtac
  end.
Ltac open_guards H :=
  repeat lazymatch type of H with
  | _ ≫= _ = Ok _ =>
      let x := fresh "x" in let Hx := fresh "Hx" in
      apply bind_Ok in H as (x & Hx & H); cbv beta in H; open_guard Hx
  end.

(** Every authorization names the active validator at the accused index and the
    penalty of the offence's scope. *)
Lemma authorize_names spec d source root e key v id :
  authorize_evidence_with spec d source root e key = Ok (v, id) ->
  hc_validators source !! N.to_nat (offender_index e) = Some v /\ is_active v = true
  /\ let '(kind, scope, round) := offence_scope source e in id = penalty_id kind v scope round.
Proof.
  destruct e; cbn [authorize_evidence_with offender_index offence_scope]; unfold authorize_double_vote;
    intros Hok; open_guards Hok; injection Hok as <- <-; destruct_and?; subst; split_and!; try congruence;
    by match goal with Hp : v_phase _ = _ |- _ => rewrite Hp end.
Qed.

Context (d : ConsensusDomain) (params : ConsensusParams) (set_of : N -> list Validator).
Context (Hd : domain_wf d) `{!ConsensusCodecLaws}.
Context (T : list Signed) (pk : BlsPublicKey) (Hok : trace_ok d params set_of T) (Hun : unforgeable d T pk).

(** The event behind an accepted individual vote of the honest validator. *)
Lemma indexed_vote_issued vs index vote v u : vs !! N.to_nat index = Some v -> pubkey v = pk ->
  verify_indexed_vote_using d vs index vote = Ok u -> exists i, SignedVote pk i ∈ T /\ vi_data i = iv_data vote.
Proof.
  intros Hv <- Hok'. destruct u. eapply issued_vote; [done..|]. by eapply verify_indexed_vote_Ok.
Qed.

(** No two accepted votes of one position with different hashes. *)
Lemma no_double_vote vs index a b v u1 u2 : vs !! N.to_nat index = Some v -> pubkey v = pk ->
  verify_indexed_vote_using d vs index a = Ok u1 -> verify_indexed_vote_using d vs index b = Ok u2 ->
  same_position (iv_data a) (iv_data b) -> v_chunk_hash (iv_data a) = v_chunk_hash (iv_data b).
Proof.
  intros Hv Hpk Ha Hb Hpos. destruct (indexed_vote_issued _ _ _ _ _ Hv Hpk Ha) as (i & Hi & Hdi).
  destruct (indexed_vote_issued _ _ _ _ _ Hv Hpk Hb) as (j & Hj & Hdj). rewrite <- Hdi, <- Hdj in *.
  by rewrite (t_votes _ _ _ _ Hok pk i j).
Qed.

Lemma no_nil_conflict vs index a n v u : vs !! N.to_nat index = Some v -> pubkey v = pk ->
  verify_conflicting_nil_vote_using d vs index a n = Ok u -> False.
Proof.
  intros Hv Hpk Hc. unfold verify_conflicting_nil_vote_using in Hc. rewrite Hv in Hc.
  apply bind_Ok in Hc as (? & Hpos & Hc). bool_prop in Hpos. destruct Hpos as [[Hk Hr] Hph]. cbn in Hc.
  apply bind_Ok in Hc as (? & _ & Hc). apply bind_Ok in Hc as (? & Ha & Hn%ensure_Ok).
  destruct (indexed_vote_issued _ _ _ _ _ Hv Hpk Ha) as (i & Hi & Hdata). rewrite Hpk in Hn.
  apply (issued_nil d Hd T pk Hun) in Hn. apply (t_nil _ _ _ _ Hok pk i _ Hi Hn). by rewrite Hdata.
Qed.

Lemma no_double_bft_proposal vs root index a b v u : vs !! N.to_nat index = Some v -> pubkey v = pk ->
  verify_double_bft_proposal_with_root d vs root index a b = Ok u -> False.
Proof.
  intros Hv Hpk Hc. unfold verify_double_bft_proposal_with_root in Hc. rewrite Hv in Hc.
  apply bind_Ok in Hc as (? & Hpos & Hc). bool_prop in Hpos. cbn in Hc. bool_prop in Hc. rewrite Hpk in Hc.
  destruct Hc as [Ha Hb]. apply (issued_proposal d Hd T pk Hun) in Ha as (k & r & Ha), Hb as (k' & r' & Hb).
  destruct (t_shape _ _ _ _ Hok _ _ _ _ _ Ha) as (p & Hp & <- & <-).
  destruct (t_shape _ _ _ _ Hok _ _ _ _ _ Hb) as (q & Hq & <- & <-).
  apply (proposal_message_inj d Hd) in Hp as [Hpc Hpr], Hq as [Hqc Hqr]. rewrite <- Hpc, <- Hpr in Ha.
  rewrite <- Hqc, <- Hqr in Hb. destruct_and!.
  assert (proposal_message d a = proposal_message d b) as Heq.
  { eapply (t_messages _ _ _ _ Hok); [exact Ha|]. congruence. }
  apply (proposal_message_inj d Hd) in Heq as [Heq _]. congruence.
Qed.

(** The only way to a lock conviction: an own precommit for the later value, after
    the precommit held against the validator, that the later vote does not repeat. *)
Lemma lock_conviction_cause vs index a b lock v u : vs = set_of (v_chunk_id (iv_data b)) ->
  vs !! N.to_nat index = Some v -> pubkey v = pk ->
  verify_lock_violation_using d vs index a b lock (prevote_fraction params) = Ok u ->
  exists i, SignedVote pk i ∈ T /\ v_phase (vi_data i) = Precommit
    /\ v_chunk_id (vi_data i) = v_chunk_id (iv_data b) /\ v_chunk_hash (vi_data i) = v_chunk_hash (iv_data b)
    /\ v_round (iv_data a) < v_round (vi_data i) <= v_round (iv_data b) /\ vi_data i <> iv_data b.
Proof.
  intros Hvs Hv Hpk Hc. unfold verify_lock_violation_using in Hc. open_guards Hc. destruct_and!.
  destruct (indexed_vote_issued _ _ _ _ _ Hv Hpk Hx0) as (i1 & Hi1 & Hd1).
  destruct (indexed_vote_issued _ _ _ _ _ Hv Hpk Hx1) as (i & Hi & Hdi).
  assert (vi_unlock_quorum i = va_unlock_quorum (attestation lock)) as Hunlock.
  { destruct x2. apply verify_attestation_with_Ok in Hx2 as (Hidx & Hvote & key & Hkey & _ & Hsig).
    rewrite Hidx, Hv in Hkey. injection Hkey as <-. rewrite Hpk in Hsig.
    apply (issued_attestation d Hd T pk Hun) in Hsig as (i' & Hi' & Hdi' & <-).
    rewrite (t_votes _ _ _ _ Hok pk i i'); try done. by rewrite Hdi, Hdi', Hvote. }
  rewrite <- Hd1, <- Hdi in *.
  pose proof Hi as Hsplit. apply list_elem_of_split in Hsplit as (pre & post & HT).
  pose proof (earlier_round d params set_of T pk Hok _ _ _ _ HT Hi1 ltac:(done) ltac:(done)) as Hpre.
  destruct (t_lock _ _ _ _ Hok _ _ _ _ _ HT Hpre) as (i' & q & Hi' & Hk' & Hq & Hh & Hr & Hwho); try done.
  assert (SignedVote pk i' ∈ T) as HiT.
  { rewrite HT. apply elem_of_snoc in Hi' as [?| ->]; set_solver. }
  pose proof (t_justified _ _ _ _ Hok pk i' q HiT Hq) as Hj.
  destruct (decide (vi_data i' = vi_data i)) as [Hsame|Hdiff].
  - exfalso. assert (i' = i) as -> by (apply (t_votes _ _ _ _ Hok pk); try done; by rewrite Hsame).
    rewrite <- Hunlock, Hq in Hc. rewrite Hdi in Hj. rewrite <- Hdi, <- Hvs in Hj.
    apply verify_unlock_using_Ok in Hj. rewrite Hj in Hc. cbn in Hc.
    apply ensure_Ok in Hc. rewrite andb_true_r, negb_true_iff, N.ltb_ge in Hc. lia.
  - destruct Hwho as [?|Hp']; [done|]. exists i'.
    destruct (t_precommit _ _ _ _ Hok pk i' HiT Hp') as (q' & Hq' & Hrq). rewrite Hq in Hq'. injection Hq' as <-.
    destruct Hj as (_ & Hhash & _). apply elem_of_snoc in Hi' as [Hi'|[= ->]]; [|done].
    pose proof (t_rounds _ _ _ _ Hok _ _ _ _ _ HT Hi' Hk'). split_and!; try done; try congruence; lia.
Qed.

Context `{!BlockCodecLaws}.

Lemma Header_hash_inj a b : Header_hash a = Header_hash b ->
  header_payload a = header_payload b \/ Collides [borsh_to_vec (header_payload a)] [borsh_to_vec (header_payload b)].
Proof. apply commitment_inj. Qed.

Lemma no_double_header vs a b v u1 u2 : signs_own_slots T pk ->
  vs !! N.to_nat (h_proposer_index a) = Some v -> pubkey v = pk -> h_proposer_index b = h_proposer_index a ->
  verify_header_signature_with a (Header_hash a) d vs = Ok u1 ->
  verify_header_signature_with b (Header_hash b) d vs = Ok u2 -> h_slot a = h_slot b ->
  Header_hash a = Header_hash b
  \/ exists h x, h ∈ [a; b] /\ SignedHeader pk (h_slot x) (Header_hash x) ∈ T
       /\ Collides [borsh_to_vec (header_payload h)] [borsh_to_vec (header_payload x)].
Proof.
  intros Hslots Hv Hpk Hidx Ha Hb Hslot. unfold verify_header_signature_with, active_get in Ha, Hb.
  rewrite Hidx in Hb. rewrite Hv in Ha, Hb. cbn in Ha, Hb. destruct (is_active v); [|done]. cbn in Ha, Hb.
  rewrite ensure_Ok, Hpk in Ha, Hb. apply (issued_header d Hd T pk Hun) in Ha as [sa Ha], Hb as [sb Hb].
  destruct (Hslots _ _ Ha) as (x & Hx & <-), (Hslots _ _ Hb) as (y & Hy & <-).
  destruct (Header_hash_inj _ _ Hx) as [Hx'|?]; [|right; exists a, x; rewrite <- Hx; by split; [left|]].
  destruct (Header_hash_inj _ _ Hy) as [Hy'|?]; [|right; exists b, y; rewrite <- Hy; by split; [right; left|]].
  left. assert (h_slot a = h_slot x) as Hsx by (by injection Hx').
  assert (h_slot b = h_slot y) as Hsy by (by injection Hy'). rewrite <- Hsx in Ha. rewrite <- Hsy, <- Hslot in Hb. by eapply (t_headers _ _ _ _ Hok).
Qed.

(** No equivocation conviction, up to a collision of header hashes. *)
Lemma no_equivocation spec source root e key v id : signs_own_slots T pk ->
  is_equivocation e = true -> authorize_evidence_with spec d source root e key = Ok (v, id) -> pubkey v = pk ->
  exists index a b h x, e = DoubleProposal index a b /\ h ∈ [a; b] /\ SignedHeader pk (h_slot x) (Header_hash x) ∈ T
    /\ Collides [borsh_to_vec (header_payload h)] [borsh_to_vec (header_payload x)].
Proof.
  intros Hslots Heq Hauth Hpk. destruct (authorize_names _ _ _ _ _ _ _ _ Hauth) as (Hv & _ & _).
  destruct e; try discriminate Heq; cbn [authorize_evidence_with offender_index] in *;
    unfold authorize_double_vote in Hauth; open_guards Hauth; destruct_and?.
  - exfalso. by eapply no_double_bft_proposal.
  - exfalso. by eapply no_nil_conflict.
  - destruct (no_double_header (hc_validators source) header_a header_b v x3 x4) as [?|(h' & x' & ?)];
      try done; try congruence. by exists proposer_index, header_a, header_b, h', x'.
  - exfalso. assert (v_chunk_hash (iv_data vote_a) = v_chunk_hash (iv_data vote_b)); [|done].
    eapply no_double_vote; try done. split_and!; congruence.
  - exfalso. assert (v_chunk_hash (iv_data vote_a) = v_chunk_hash (iv_data vote_b)); [|done].
    eapply no_double_vote; try done. split_and!; congruence.
  - exfalso. assert (v_chunk_hash (iv_data vote) = v_chunk_hash (iv_data canonical_vote)); [|done].
    by eapply no_double_vote.
Qed.

End convictions.

(* ------------------------------------------------------------------ *)
(** ** Votes that keep a moved lock *)

(** The attestation a signed intent publishes. *)
Definition claimed_attestation (i : VoteIntent) (vote_signature signature : BlsSignature) : VoteAttestation :=
  {| va_vote_signature := vote_signature; va_validator_index := vi_validator_index i; va_vote := vi_data i;
     va_proof_hashes := vi_proof_hashes i; va_unlock_quorum := vi_unlock_quorum i; va_signature := signature |}.

(** The lock rule accepts every pair of votes for different values of which the later
    declares no quorum. *)
Lemma undeclared_switch_convicted `{ConsensusCodec} `{Verifier} d vs f v first later locked s1 s3 s4 :
  vs !! N.to_nat (vi_validator_index later) = Some v ->
  v_chunk_id (vi_data first) = v_chunk_id (vi_data later) -> v_phase (vi_data first) = Precommit ->
  v_chunk_hash (vi_data first) <> v_chunk_hash (vi_data later) -> vi_unlock_quorum later = None ->
  v_round (vi_data first) < v_round (vi_data later) ->
  v_round (qc_data locked) = v_round (vi_data first) -> unlock_justifies d vs f (vi_data first) locked ->
  verifier_verify (pubkey v) (vote_message d (vi_data first)) s1 = true ->
  verifier_verify (pubkey v) (vote_message d (vi_data later)) s3 = true ->
  verifier_verify (pubkey v) (attestation_message d (claimed_attestation later s3 s4)) s4 = true ->
  verify_lock_violation_using d vs (vi_validator_index later) {| iv_data := vi_data first; iv_signature := s1 |}
    {| iv_data := vi_data later; iv_signature := s3 |}
    {| locked_prevote_quorum := locked; attestation := claimed_attestation later s3 s4 |} f = Ok tt.
Proof.
  intros Hv Hk Hp Hne Hnone Hr Hlr (Hlk & Hlh & _ & Hq) Hs1 Hs3 Hs4. unfold verify_lock_violation_using.
  rewrite !bind_unit_Ok, !ensure_Ok. cbn [iv_data attestation locked_prevote_quorum]. split_and!.
  - bool_prop. done.
  - unfold verify_indexed_vote_using. rewrite Hv. cbn. by rewrite Hs1.
  - unfold verify_indexed_vote_using. rewrite Hv. cbn. by rewrite Hs3.
  - apply verify_attestation_with_Ok. split; [done|]. split; [done|]. by exists v.
  - bool_prop. done.
  - done.
  - cbn. by rewrite Hnone.
Qed.

(* ------------------------------------------------------------------ *)
(** ** A run of one honest validator among four, for witnesses *)

Definition sample_offence_codec : OffenceCodec :=
  {| codec_penalty := codec_borsh; codec_claim := {| borsh_to_vec _ := []; borsh_from_slice _ := None |};
     codec_spec := {| borsh_to_vec _ := []; borsh_from_slice _ := None |} |}.
Definition sample_sha : Sha256 := fun input => take 32 (input ++ replicate 32 0).
Definition sample_rejects : EvidenceVerifier := fun _ _ => Err HistUnsupported.

Definition sample_spec : ChainSpec :=
  {| name := []; spec_chain_id := 7; genesis_time := 0; genesis_gas_limit := 0; runtime_info := [];
     runtime_code_hash := ZERO_HASH; genesis_seed := ZERO_HASH; genesis_state_root := ZERO_HASH;
     genesis_block_hash := ZERO_HASH; genesis_validator_set_root := ZERO_HASH;
     consensus := ConsensusParams_default; proof := ProofParams_default; state_params := StateParams_default;
     light_client := LightClientParams_default; runtime := RuntimeParams_default; initial_validators := [];
     metadata := [] |}.

(** The honest key and three others, one unit of stake each. *)
Definition lock_validators : list Validator :=
  map (fun b => {| pubkey := replicate 48 b; withdrawal_credentials := ZERO_HASH; effective_stake := 1;
                   slashed := false; activation_epoch := 0; exit_epoch := U64_MAX; last_active_chunk := 0 |})
    [7; 8; 9; 10].

(** Prevote quorums of the other three. *)
Definition lock_quorum (b round : N) : QuorumCertificate :=
  {| qc_data := sample_data b round Prevote; qc_aggregate := {| av_bits := BitVec.mk 4 [14]; av_signature := [] |} |}.

(** Lock on chunk 1 in round 0, move the lock to chunk 2 in round 1 on its quorum,
    and prevote chunk 2 again in round 2, when no quorum is declared. *)
Definition lock_votes : list (FinalityVoteData * list Hash * option QuorumCertificate) :=
  [(sample_data 1 0 Prevote, [], None); (sample_data 1 0 Precommit, [], Some (lock_quorum 1 0));
   (sample_data 2 1 Precommit, [], Some (lock_quorum 2 1)); (sample_data 2 2 Prevote, [], None)].

Definition lock_attestation (v : FinalityVoteData * list Hash * option QuorumCertificate) : VoteAttestation :=
  {| va_vote_signature := @vote_message sample_codec sample_domain v.1.1; va_validator_index := 0;
     va_vote := v.1.1; va_proof_hashes := v.1.2; va_unlock_quorum := v.2; va_signature := [] |}.

(** Everything the honest key signed. *)
Definition lock_messages : list bytes :=
  concat (map (fun v => [@vote_message sample_codec sample_domain v.1.1;
                         @attestation_message sample_codec sample_domain (lock_attestation v)]) lock_votes).

(** Signatures of the honest key verify exactly on the messages it signed; the
    other keys sign anything. *)
Definition lock_verifier : Verifier :=
  let covered (k : BlsPublicKey) (m : bytes) :=
    negb (bool_decide (k = public_key_bytes sample_key)) || bool_decide (m ∈ lock_messages) in
  {| verifier_verify k m _ := covered k m; verifier_aggregate keys m _ := forallb (fun k => covered k m) keys |}.

Definition lock_engine : @SigningEngine sample_store :=
  @Build_SigningEngine sample_store sample_domain ConsensusParams_default lock_validators None 0 ∅ tt.

Definition lock_final : @SigningEngine sample_store :=
  (@sign_all sample_codec lock_verifier sample_store lock_engine sample_key lock_votes).1.

Definition lock_record : HistoricalChunk :=
  {| hc_chunk := sample_chunk 1; hc_validators := lock_validators; hc_seed := ZERO_HASH;
     hc_block_guest_vk_digest := []; hc_runtime_code_hash := ZERO_HASH; hc_finality := sample_cert 1 0 |}.

Definition indexed (v : FinalityVoteData * list Hash * option QuorumCertificate) : IndexedVote :=
  {| iv_data := v.1.1; iv_signature := [] |}.

(** The precommit of round 0 and the prevote of round 2, as a lock violation. *)
Definition lock_first : IndexedVote := indexed (sample_data 1 0 Precommit, [], None).
Definition lock_later : IndexedVote := indexed (sample_data 2 2 Prevote, [], None).
Definition sample_lock_evidence : LockEvidence :=
  {| locked_prevote_quorum := lock_quorum 1 0; attestation := lock_attestation (sample_data 2 2 Prevote, [], None) |}.
Definition lock_accusation : SlashingEvidence := LockViolation 0 lock_first lock_later sample_lock_evidence.

(** The same votes, as the journal signed them. *)
Definition lock_first_intent : VoteIntent :=
  {| vi_data := sample_data 1 0 Precommit; vi_validator_index := 0; vi_proof_hashes := []; vi_unlock_quorum := Some (lock_quorum 1 0) |}.
Definition lock_later_intent : VoteIntent :=
  {| vi_data := sample_data 2 2 Prevote; vi_validator_index := 0; vi_proof_hashes := []; vi_unlock_quorum := None |}.

Definition lock_later_signature : BlsSignature := @vote_message sample_codec sample_domain (sample_data 2 2 Prevote).

Definition lock_offender : Validator := default (sample_validator 1) (lock_validators !! 0%nat).

Lemma sample_block_codec_laws : @BlockCodecLaws sample_block_codec.
Proof. apply codec_borsh_laws. Qed.

Lemma lock_run :
  @run sample_codec lock_verifier sample_store sample_domain ConsensusParams_default (fun _ => lock_validators)
    lock_final (map sample_signed lock_votes).
Proof.
  assert ((@sign_all sample_codec lock_verifier sample_store lock_engine sample_key lock_votes).2
    = map sample_signed lock_votes) as <- by (vm_compute; reflexivity).
  apply (@sign_all_run sample_codec lock_verifier sample_store sample_domain ConsensusParams_default
    (fun _ => lock_validators) sample_key lock_votes lock_engine []).
  - by apply run_start.
  - done.
  - done.
  - by repeat constructor.
Qed.

Lemma lock_unforgeable :
  @unforgeable sample_codec lock_verifier sample_domain (map sample_signed lock_votes) (public_key_bytes sample_key).
Proof.
  intros tag payload sg Htag Hv. cbn [verifier_verify lock_verifier] in Hv.
  rewrite (bool_decide_true (_ = _)) in Hv by done. cbn [negb orb] in Hv. apply bool_decide_eq_true in Hv.
  unfold lock_messages in Hv. apply list_elem_of_In, in_concat in Hv as (ms & Hms & Hm); apply list_elem_of_In in Hms, Hm.
  apply list_elem_of_fmap in Hms as (v & -> & Hin).
  exists (sample_signed v). repeat rewrite elem_of_cons in Hm. destruct Hm as [Hm|[Hm|[]%not_elem_of_nil]].
  - exists (phase_tag (v_phase v.1.1)), (@borsh_to_vec _ (@codec_vote sample_codec) v.1.1).
    split; [by apply list_elem_of_fmap_2|]. split; [split; [done|by left]|].
    split; [destruct (v_phase v.1.1); set_solver|]. rewrite Hm. apply signing_message_borsh_eq.
  - eexists DOMAIN_VOTE_ATTESTATION, _. split; [by apply list_elem_of_fmap_2|].
    split; [split; [done|right; split; [done|by eexists]]|]. split; [set_solver|].
    rewrite Hm. apply signing_message_borsh_eq.
Qed.

Lemma lock_convicted :
  exists id, @authorize_evidence_with pad32 sample_sha sample_codec sample_block_codec sample_offence_codec
    lock_verifier sample_rejects sample_spec sample_domain lock_record None lock_accusation [] = Ok (lock_offender, id).
Proof. eexists. vm_compute. reflexivity. Qed.

(* ------------------------------------------------------------------ *)
(** ** Properties *)

(** C25: no honest validator is convicted of equivocation: for a key that signs
    only through the journal, over any run of it, and whose signatures cannot be
    forged and sign headers at their own slots only, no evidence of double proposals,
    double votes, value and nil conflicts or fork participation authorizes a penalty
    against that key; for block headers, unless one of the two accusing headers
    collides under BLAKE3 with a header the key signed. *)
Theorem honest_never_convicted_of_equivocation `{Blake3} `{Sha256} `{ConsensusCodecLaws} `{RecordCodec}
    `{BlockCodecLaws} `{OffenceCodec} `{Verifier} `{EvidenceVerifier} `{ArtifactStore}
    (d : ConsensusDomain) (params : ConsensusParams) (set_of : N -> list Validator) (engine : SigningEngine)
    (T : list Signed) (pk : BlsPublicKey) (e : SlashingEvidence) :
  run d params set_of engine T -> domain_wf d -> unforgeable d T pk -> signs_own_slots T pk ->
  is_equivocation e = true ->
  forall spec source root key v id, authorize_evidence_with spec d source root e key = Ok (v, id) ->
  pubkey v = pk ->
  exists index a b h x, e = DoubleProposal index a b /\ h ∈ [a; b] /\ SignedHeader pk (h_slot x) (Header_hash x) ∈ T
    /\ Collides [borsh_to_vec (header_payload h)] [borsh_to_vec (header_payload x)].
Proof.
  intros [_ Hok]%run_safe Hd Hun Hslots He spec source root key v id Hauth Hpk.
  eapply (no_equivocation d params set_of Hd T pk Hok Hun); eauto.
Qed.

Lemma honest_never_convicted_of_equivocation_witness :
  @run sample_codec lock_verifier sample_store sample_domain ConsensusParams_default (fun _ => lock_validators)
    lock_final (map sample_signed lock_votes)
  /\ forall spec source root key v id,
    @authorize_evidence_with pad32 sample_sha sample_codec sample_block_codec sample_offence_codec
      lock_verifier sample_rejects spec sample_domain source root
      (DoublePrecommit 0 (indexed (sample_data 1 0 Precommit, [], None)) (indexed (sample_data 2 0 Precommit, [], None)))
      key = Ok (v, id) -> pubkey v <> public_key_bytes sample_key.
Proof.
  split; [exact lock_run|]. intros spec source root key v id Hauth Hpk.
  destruct (@honest_never_convicted_of_equivocation pad32 sample_sha sample_codec sample_codec_laws sample_record_codec
    sample_block_codec sample_block_codec_laws sample_offence_codec lock_verifier sample_rejects sample_store sample_domain
    ConsensusParams_default (fun _ => lock_validators) lock_final (map sample_signed lock_votes)
    (public_key_bytes sample_key)
    (DoublePrecommit 0 (indexed (sample_data 1 0 Precommit, [], None)) (indexed (sample_data 2 0 Precommit, [], None))))
    with (spec := spec) (source := source) (root := root) (key := key) (v := v) (id := id)
    as (i & a & b & h & x & Hdouble & _).
  - exact lock_run.
  - split; [by vm_compute|reflexivity].
  - exact lock_unforgeable.
  - intros slot h Hh. exfalso. apply list_elem_of_fmap in Hh as (w & Hw & _). discriminate Hw.
  - reflexivity.
  - exact Hauth.
  - exact Hpk.
  - discriminate Hdouble.
Defined.

(** C26: what the lock rule can hold against an honest validator: when evidence
    of a lock violation convicts a key that signs only through the journal, that
    validator had itself precommitted the later value in a round after the precommit
    held against it and not after the later vote; so the later vote kept its lock. *)
Theorem lock_conviction_only_after_relock `{Blake3} `{Sha256} `{ConsensusCodecLaws} `{RecordCodec}
    `{BlockCodec} `{OffenceCodec} `{Verifier} `{EvidenceVerifier} `{ArtifactStore}
    (spec : ChainSpec) (d : ConsensusDomain) (set_of : N -> list Validator) (engine : SigningEngine)
    (T : list Signed) (pk : BlsPublicKey) (source : HistoricalChunk) (root : option Hash) (key : Digest)
    (index : N) (a b : IndexedVote) (lock : LockEvidence) (v : Validator) (id : Hash) :
  run d (consensus spec) set_of engine T -> domain_wf d -> unforgeable d T pk ->
  hc_validators source = set_of (v_chunk_id (iv_data b)) ->
  authorize_evidence_with spec d source root (LockViolation index a b lock) key = Ok (v, id) -> pubkey v = pk ->
  exists i, SignedVote pk i ∈ T /\ v_phase (vi_data i) = Precommit
    /\ v_chunk_id (vi_data i) = v_chunk_id (iv_data b) /\ v_chunk_hash (vi_data i) = v_chunk_hash (iv_data b)
    /\ v_round (iv_data a) < v_round (vi_data i) <= v_round (iv_data b) /\ vi_data i <> iv_data b.
Proof.
  intros [_ Hok]%run_safe Hd Hun Hset Hauth Hpk.
  destruct (authorize_names _ _ _ _ _ _ _ _ Hauth) as (Hv & _ & _).
  cbn [authorize_evidence_with offender_index] in Hauth, Hv.
  apply bind_Ok in Hauth as (r & [-> _]%record_at_Ok & Hauth). apply bind_Ok in Hauth as (v' & _ & Hauth).
  apply bind_Ok in Hauth as (u & Hlock & _). apply (proj1 (invalid_Ok _ _)) in Hlock.
  by apply (lock_conviction_cause d (consensus spec) set_of Hd T pk Hok Hun (hc_validators source) index a b lock v u).
Qed.

Lemma lock_conviction_only_after_relock_witness :
  exists i, SignedVote (public_key_bytes sample_key) i ∈ map sample_signed lock_votes
    /\ v_phase (vi_data i) = Precommit /\ v_chunk_hash (vi_data i) = v_chunk_hash (sample_data 2 2 Prevote).
Proof.
  destruct lock_convicted as [id Hid].
  destruct (@lock_conviction_only_after_relock pad32 sample_sha sample_codec sample_codec_laws sample_record_codec
    sample_block_codec sample_offence_codec lock_verifier sample_rejects sample_store sample_spec sample_domain
    (fun _ => lock_validators) lock_final (map sample_signed lock_votes) (public_key_bytes sample_key) lock_record None []
    0 lock_first lock_later sample_lock_evidence lock_offender id lock_run) as (i & Hi & Hp & _ & Hh & _).
  - split; [by vm_compute|reflexivity].
  - exact lock_unforgeable.
  - reflexivity.
  - exact Hid.
  - reflexivity.
  - exists i. split; [exact Hi|]. split; [exact Hp|exact Hh].
Defined.

(** C27: the lock rule convicts honest validators.  Take any run of the signing
    journal in which a validator precommitted one value and later voted for another
    without declaring an unlock quorum.  The vote kept a lock that the validator had
    properly moved: it had precommitted the new value in between, on a verified prevote
    quorum of that round.  Yet the two votes, with the quorum the first precommit itself
    declared and the attestation of the later vote, are accepted as a lock violation
    and convict the validator, whenever their signatures verify. *)
Theorem lock_rule_convicts_honest_run `{Blake3} `{Sha256} `{ConsensusCodec} `{BlockCodec} `{OffenceCodec}
    `{Verifier} `{EvidenceVerifier} `{ArtifactStore} (spec : ChainSpec) (d : ConsensusDomain)
    (set_of : N -> list Validator) (engine : SigningEngine) (T pre post : list Signed) (pk : BlsPublicKey)
    (source : HistoricalChunk) (root : option Hash) (key : Digest) (first later : VoteIntent)
    (first_signature later_signature attestation_signature : BlsSignature) (v : Validator) :
  let accusing := claimed_attestation later later_signature attestation_signature in
  run d (consensus spec) set_of engine T -> T = pre ++ SignedVote pk later :: post -> SignedVote pk first ∈ pre ->
  v_chunk_id (vi_data first) = v_chunk_id (vi_data later) -> v_phase (vi_data first) = Precommit ->
  v_chunk_hash (vi_data first) <> v_chunk_hash (vi_data later) -> vi_unlock_quorum later = None ->
  ck_chunk_id (hc_chunk source) = v_chunk_id (vi_data later) -> hc_validators source = set_of (v_chunk_id (vi_data later)) ->
  hc_validators source !! N.to_nat (vi_validator_index later) = Some v -> is_active v = true -> pubkey v = pk ->
  verifier_verify pk (vote_message d (vi_data first)) first_signature = true ->
  verifier_verify pk (vote_message d (vi_data later)) later_signature = true ->
  verifier_verify pk (attestation_message d accusing) attestation_signature = true ->
  exists locked moved u id,
    vi_unlock_quorum first = Some locked
    /\ authorize_evidence_with spec d source root
         (LockViolation (vi_validator_index later) {| iv_data := vi_data first; iv_signature := first_signature |}
            {| iv_data := vi_data later; iv_signature := later_signature |}
            {| locked_prevote_quorum := locked; attestation := accusing |}) key = Ok (v, id)
    /\ SignedVote pk moved ∈ pre /\ v_phase (vi_data moved) = Precommit /\ vi_unlock_quorum moved = Some u
    /\ v_chunk_id (vi_data moved) = v_chunk_id (vi_data later) /\ v_chunk_hash (vi_data moved) = v_chunk_hash (vi_data later)
    /\ v_round (vi_data first) < v_round (vi_data moved) <= v_round (vi_data later)
    /\ verify_quorum_using d (hc_validators source) u (prevote_fraction (consensus spec)) = Ok tt
    /\ v_round (qc_data u) = v_round (vi_data moved) /\ v_chunk_hash (qc_data u) = v_chunk_hash (vi_data later).
Proof.
  intros accusing [_ Hok]%run_safe HT Hfirst Hk Hp Hne Hnone Hrec Hset Hv Ha Hpk Hs1 Hs3 Hs4.
  destruct (switch_bounds d (consensus spec) set_of T pre post pk later first Hok HT Hfirst Hk Hp Hne)
    as (u & Hq & _ & Hh & Hr & [[? _]|(moved & Hm & Hmp & Hmu & Hmk & Hmh & Hmr)]); [congruence|].
  assert (SignedVote pk first ∈ T) as HfT by (rewrite HT; set_solver).
  destruct (t_precommit _ _ _ _ Hok pk first HfT Hp) as (locked & Hlocked & Hlr).
  pose proof (t_justified _ _ _ _ Hok pk first locked HfT Hlocked) as Hj. rewrite Hk in Hj.
  rewrite <- Hset in Hq, Hj. eexists locked, moved, u, _. rewrite Hmr in Hr. split_and!; try done; [|lia..].
  cbn [authorize_evidence_with iv_data]. rewrite (proj2 (record_at_Ok source _ source)) by (split; [done|congruence]). cbn [mbind result_bind].
  rewrite (proj2 (active_validator_Ok _ _ v)) by done. cbn [mbind result_bind].
  rewrite (undeclared_switch_convicted d (hc_validators source) (prevote_fraction (consensus spec)) v first later locked
    first_signature later_signature attestation_signature); [done|..]; try done; by rewrite Hpk || lia.
Qed.

Lemma lock_rule_convicts_honest_run_witness :
  exists locked id, @authorize_evidence_with pad32 sample_sha sample_codec sample_block_codec sample_offence_codec
    lock_verifier sample_rejects sample_spec sample_domain lock_record None
    (LockViolation 0 {| iv_data := sample_data 1 0 Precommit; iv_signature := [] |}
       {| iv_data := sample_data 2 2 Prevote; iv_signature := lock_later_signature |}
       {| locked_prevote_quorum := locked; attestation := claimed_attestation lock_later_intent lock_later_signature [] |}) []
    = Ok (lock_offender, id).
Proof.
  destruct (@lock_rule_convicts_honest_run pad32 sample_sha sample_codec sample_block_codec sample_offence_codec lock_verifier
    sample_rejects sample_store sample_spec sample_domain (fun _ => lock_validators) lock_final (map sample_signed lock_votes)
    (map sample_signed (take 3 lock_votes)) [] (public_key_bytes sample_key) lock_record None [] lock_first_intent lock_later_intent
    [] lock_later_signature [] lock_offender) as (locked & moved & u & id & _ & Hauth & _).
  - exact lock_run.
  - reflexivity.
  - right. left.
  - reflexivity.
  - reflexivity.
  - vm_compute. discriminate.
  - reflexivity.
  - reflexivity.
  - reflexivity.
  - reflexivity.
  - reflexivity.
  - reflexivity.
  - vm_compute. reflexivity.
  - vm_compute. reflexivity.
  - vm_compute. reflexivity.
  - exists locked, id. exact Hauth.
Defined.

(** C28: penalties identify offences, not evidence: every authorization names the
    active validator at the accused index of the historical set, and two
    authorizations against one record yield the same penalty exactly when they accuse
    the same identity of an offence of the same kind, scope and round (prevote or
    precommit equivocation being one kind whatever form proves it); otherwise they
    exhibit a BLAKE3 collision. *)
Theorem penalty_identity_exact `{Blake3} `{Sha256} `{ConsensusCodec} `{RecordCodec}
    `{BlockCodec} `{OffenceCodec} `{!BorshLaws (bytes * N * BlsPublicKey * Hash * N * N)}
    `{Verifier} `{EvidenceVerifier} (spec : ChainSpec) (d : ConsensusDomain) (source : HistoricalChunk)
    (root : option Hash) (e1 e2 : SlashingEvidence) (key : Digest) (v1 v2 : Validator) (id1 id2 : Hash) :
  authorize_evidence_with spec d source root e1 key = Ok (v1, id1) ->
  authorize_evidence_with spec d source root e2 key = Ok (v2, id2) ->
  let same := pubkey v1 = pubkey v2 /\ withdrawal_credentials v1 = withdrawal_credentials v2
              /\ offence_scope source e1 = offence_scope source e2 in
  hc_validators source !! N.to_nat (offender_index e1) = Some v1 /\ is_active v1 = true
  /\ (same -> id1 = id2) /\ (id1 = id2 -> same
      \/ Collides [penalty_preimage (offence_scope source e1) v1] [penalty_preimage (offence_scope source e2) v2]).
Proof.
  intros H1'%authorize_names H2'%authorize_names same. subst same. destruct H1' as (Hv1 & Ha1 & Hid1).
  destruct H2' as (_ & _ & Hid2). split_and!; try done;
    destruct (offence_scope source e1) as [[k1 s1] r1], (offence_scope source e2) as [[k2 s2] r2]; subst id1 id2.
  - intros (Hpk & Hcred & [= -> -> ->]). unfold penalty_id. by rewrite Hpk, Hcred.
  - unfold penalty_id. intros [Heq|?]%(commitment_inj _ _ [] []); [left|by right].
    injection Heq as -> -> -> -> ->. done.
Qed.

Lemma penalty_identity_exact_witness :
  exists id, @authorize_evidence_with pad32 sample_sha sample_codec sample_block_codec sample_offence_codec
    lock_verifier sample_rejects sample_spec sample_domain lock_record None lock_accusation [] = Ok (lock_offender, id)
    /\ is_active lock_offender = true.
Proof.
  destruct lock_convicted as [id Hid]. exists id. split; [exact Hid|].
  eapply (@penalty_identity_exact pad32 sample_sha sample_codec sample_record_codec sample_block_codec
    sample_offence_codec codec_borsh_laws lock_verifier sample_rejects sample_spec sample_domain lock_record None
    lock_accusation lock_accusation [] lock_offender lock_offender id id Hid Hid).
Defined.
