(* ===== verification/BftSafety.v ===== *)
(** * Agreement: the signing journal makes finality safe

    The composition of the components below it: validators that sign through the
    journal (consensus-engine/src/signing.rs), certificates as the chunk guest and
    light clients verify them (prover-chunk/src/finality.rs), and signatures that
    cannot be forged.  A global trace lists the signatures of all honest validators
    in the order they were issued; everyone else may sign anything.  If the others
    hold less than a third of the active stake, two finality certificates for one
    chunk id certify the same chunk. *)

From S2P Require Import Prelude External Primitives Votes Finality Records Signing Offences.

(** The signer of an event. *)
Definition signer (s : Signed) : BlsPublicKey :=
  match s with
  | SignedVote pk _ | SignedNil pk _ | SignedMessage pk _ _ _ _ | SignedHeader pk _ _ => pk
  end.

(** The events of one key, in order. *)
Definition signed_by (pk : BlsPublicKey) (G : list Signed) : list Signed := filter (fun s => signer s = pk) G.

Section agreement.
Context `{Blake3} `{ConsensusCodec} `{Verifier} `{ArtifactStore}.
Context (d : ConsensusDomain) (params : ConsensusParams) (set_of : N -> list Validator).

(** An honest validator at index [j] of [vs]: its events in the global trace [G]
    are a run of its journal, and its signatures cannot be forged. *)
Definition honest_at (vs : list Validator) (G : list Signed) (j : N) : Prop :=
  exists v, vs !! N.to_nat j = Some v
    /\ (exists e, run d params set_of e (signed_by (pubkey v) G))
    /\ unforgeable d (signed_by (pubkey v) G) (pubkey v).

(** Aggregates cannot be forged in advance: when an honest validator declares a
    quorum that verifies, every honest signer marked in it had signed before. *)
Definition quorums_caused (vs : list Validator) (G : list Signed) (honest : list N) : Prop :=
  forall pre pk i post u, G = pre ++ SignedVote pk i :: post -> vi_unlock_quorum i = Some u ->
    (exists j v, j ∈ honest /\ vs !! N.to_nat j = Some v /\ pubkey v = pk) ->
    verify_quorum_using d vs u (prevote_fraction params) = Ok tt ->
    forall j v, j ∈ honest -> j ∈ qc_signers u -> vs !! N.to_nat j = Some v ->
    exists i', SignedVote (pubkey v) i' ∈ pre /\ vi_data i' = qc_data u.

(** Less than a third of the active stake is not honest. *)
Definition mostly_honest (vs : list Validator) (honest : list N) : Prop :=
  exists total, active_stake_total vs = Some total
    /\ 3 * sum_by (weight_at vs) (filter (fun i => i ∉ honest) (range (len vs))) < total.

(* ------------------------------------------------------------------ *)
(** ** Honest members of intersections *)

Lemma third_has_honest vs honest s : mostly_honest vs honest -> (forall i, i ∈ s -> active_at vs i) ->
  a_third_of vs s -> exists i, i ∈ s /\ i ∈ honest.
Proof.
  intros (total & Htotal & Hbyz) Hact (Hnd & total' & Htotal' & _ & Hthird).
  rewrite Htotal in Htotal'. injection Htotal' as <-.
  destruct (decide (Exists (fun i => i ∈ honest) s)) as [Hex|Hno]; [by apply Exists_exists in Hex|].
  exfalso. assert (s ⊆+ filter (fun i => i ∉ honest) (range (len vs))) as Hsub.
  { apply NoDup_submseteq; [done|]. intros i Hi. apply list_elem_of_filter. split.
    - intros Hh. apply Hno, Exists_exists. by exists i.
    - by apply elem_of_range, active_at_lt, Hact. }
  apply (sum_by_submseteq (weight_at vs)) in Hsub.
  rewrite (sum_by_ext (weight_at vs) (stake_at vs) s) in Hsub by (intros; by rewrite weight_at_active by auto). lia.
Qed.

Lemma quorums_share_honest vs honest f1 f2 s1 s2 : mostly_honest vs honest ->
  quorum_of vs f1 s1 -> quorum_of vs f2 s2 -> exists i, i ∈ s1 /\ i ∈ s2 /\ i ∈ honest.
Proof.
  intros Hmost Hq1 Hq2. pose proof Hmost as (total & Htotal & _).
  destruct (third_has_honest vs honest (filter (fun i => i ∈ s2) s1)) as (i & Hi & Hh); try done.
  - intros i [_ Hi]%list_elem_of_filter. by apply Hq1.
  - split; [apply NoDup_filter, Hq1|]. exists total. split; [done|].
    split; [by apply active_stake_total_Some in Htotal as [_ [? _]]|]. by eapply quorums_intersect.
  - apply list_elem_of_filter in Hi as [? ?]. by exists i.
Qed.

Lemma signed_by_split pk pre i post :
  signed_by pk (pre ++ SignedVote pk i :: post) = signed_by pk pre ++ SignedVote pk i :: signed_by pk post.
Proof. unfold signed_by. rewrite filter_app, filter_cons_True by done. done. Qed.

Lemma elem_of_signed_by pk i G : SignedVote pk i ∈ signed_by pk G <-> SignedVote pk i ∈ G.
Proof. unfold signed_by. rewrite list_elem_of_filter. naive_solver. Qed.

(* ------------------------------------------------------------------ *)
(** ** Locks hold against every later quorum *)

Context (Hd : domain_wf d) `{!ConsensusCodecLaws}.
Context (vs : list Validator) (G : list Signed) (honest : list N) (k : N).
Context (Hset : set_of k = vs) (Hhonest : forall j, j ∈ honest -> honest_at vs G j).
Context (Hcaused : quorums_caused vs G honest) (Hmost : mostly_honest vs honest).

(** A verified vote of an honest validator is one of its events. *)
Lemma honest_voted j data : j ∈ honest -> voted d vs j data ->
  exists v i, vs !! N.to_nat j = Some v /\ SignedVote (pubkey v) i ∈ G /\ vi_data i = data
    /\ trace_ok d params set_of (signed_by (pubkey v) G).
Proof.
  intros Hj (v & s & Hv & Hs). destruct (Hhonest j Hj) as (v' & Hv' & [e Hrun] & Hun).
  rewrite Hv in Hv'. injection Hv' as <-. destruct (issued_vote d Hd _ _ Hun data s Hs) as (i & Hi & Hdata).
  exists v, i. rewrite elem_of_signed_by in Hi. split_and!; try done. by apply run_safe in Hrun as [_ ?].
Qed.

(** Where an honest validator switches value, a quorum for the new value from after
    its lock was signed by honest validators before. *)
Lemma switch_caused j v pre i post i1 :
  j ∈ honest -> vs !! N.to_nat j = Some v -> trace_ok d params set_of (signed_by (pubkey v) G) ->
  G = pre ++ SignedVote (pubkey v) i :: post -> SignedVote (pubkey v) i1 ∈ pre ->
  v_chunk_id (vi_data i) = k -> v_chunk_id (vi_data i1) = k -> v_phase (vi_data i1) = Precommit ->
  v_chunk_hash (vi_data i1) <> v_chunk_hash (vi_data i) ->
  exists u, v_chunk_id (qc_data u) = k /\ v_chunk_hash (qc_data u) = v_chunk_hash (vi_data i)
    /\ v_round (vi_data i1) < v_round (qc_data u) /\ quorum_of vs (prevote_fraction params) (qc_signers u)
    /\ forall j' v', j' ∈ honest -> j' ∈ qc_signers u -> vs !! N.to_nat j' = Some v' ->
       exists i', SignedVote (pubkey v') i' ∈ pre /\ vi_data i' = qc_data u.
Proof.
  intros Hj Hv Hok HG Hi1 Hk Hk1 Hp1 Hne. pose proof (signed_by_split (pubkey v) pre i post) as Hsplit.
  rewrite <- HG in Hsplit.
  destruct (t_lock _ _ _ _ Hok _ _ _ _ i1 Hsplit) as (i' & u & Hi' & Hk' & Hu & Hh & Hr & _);
    [by apply elem_of_signed_by|by rewrite Hk1|done..|].
  assert (SignedVote (pubkey v) i' ∈ pre ++ [SignedVote (pubkey v) i]) as Hin.
  { apply elem_of_snoc in Hi' as [Hi'|Heq]; apply elem_of_snoc; [left; by apply elem_of_signed_by|by right]. }
  assert (SignedVote (pubkey v) i' ∈ G) as HinG.
  { rewrite HG. apply elem_of_snoc in Hin as [?| ->]; set_solver. }
  destruct (t_justified _ _ _ _ Hok (pubkey v) i' u) as (Hku & _ & _ & Hq); [by apply elem_of_signed_by|done|].
  rewrite Hk', Hk in Hku, Hq. rewrite Hset in Hq. exists u. split_and!; try done; [by apply verify_quorum_using_Ok in Hq as (_ & ? & _)|].
  intros j' v' Hj' Hsig Hv'. apply elem_of_snoc in Hin as [Hpre|[= ->]].
  - apply list_elem_of_split in Hpre as (p1 & p2 & ->). rewrite <- app_assoc in HG. cbn in HG.
    destruct (Hcaused _ _ _ _ u HG Hu) with (j := j') (v := v') as (i'' & Hi'' & ?); try done; [by exists j, v|].
    exists i''. split; [set_solver|done].
  - by apply (Hcaused _ _ _ _ u HG Hu ltac:(by exists j, v) Hq j' v').
Qed.

(** Honest precommitters of a quorum for one value never vote for another in a
    later round. *)
Lemma lock_persists s f data : quorum_of vs f s -> (forall j, j ∈ s -> voted d vs j data) ->
  v_phase data = Precommit -> v_chunk_id data = k ->
  forall n pre i post j v, length pre = n -> G = pre ++ SignedVote (pubkey v) i :: post ->
    j ∈ s -> j ∈ honest -> vs !! N.to_nat j = Some v -> v_chunk_id (vi_data i) = k ->
    v_round data < v_round (vi_data i) -> v_chunk_hash (vi_data i) = v_chunk_hash data.
Proof.
  intros Hs Hsigned Hphase Hk n. induction (lt_wf n) as [n _ IH]. intros pre i post j v Hn HG Hjs Hj Hv Hki Hri.
  destruct (decide (v_chunk_hash (vi_data i) = v_chunk_hash data)) as [|Hne]; [done|exfalso].
  destruct (honest_voted j data Hj (Hsigned j Hjs)) as (v' & i1 & Hv' & Hi1 & Hdata & Hok).
  rewrite Hv in Hv'. injection Hv' as <-.
  assert (SignedVote (pubkey v) i1 ∈ pre) as Hpre.
  { apply elem_of_signed_by. pose proof (signed_by_split (pubkey v) pre i post) as Hsplit. rewrite <- HG in Hsplit.
    apply (earlier_round d params set_of _ _ Hok _ _ _ _ Hsplit); [by apply elem_of_signed_by|by rewrite Hdata, Hk|].
    by rewrite Hdata. }
  destruct (switch_caused j v pre i post i1) as (u & Hku & Hhu & Hru & Hqu & Hcause); try done;
    [by rewrite Hdata..|by rewrite Hdata|].
  destruct (quorums_share_honest vs honest _ _ _ _ Hmost Hs Hqu) as (j' & Hj's & Hj'u & Hj').
  destruct (Hhonest j' Hj') as (v' & Hv' & _).
  destruct (Hcause j' v' Hj' Hj'u Hv') as (i' & Hi' & Hdi'). apply list_elem_of_split in Hi' as (p1 & p2 & ->).
  apply Hne. rewrite <- Hhu, <- Hdi'.
  apply (IH (length p1)) with (pre := p1) (post := p2 ++ SignedVote (pubkey v) i :: post) (j := j') (v := v');
    try done; rewrite ?Hdi', ?Hku; try done.
  - rewrite <- Hn, length_app. cbn. lia.
  - by rewrite HG, <- app_assoc.
  - by rewrite <- Hdata.
Qed.

(** Every signer of a certified phase voted. *)
Lemma certified_voted data f vote claims j : phase_certified d params vs data f vote claims ->
  j ∈ set_bits (av_bits vote) -> voted d vs j data.
Proof.
  intros Hc Hj. destruct (certified_claim _ _ _ _ _ _ _ _ Hc Hj) as (a & _ & <- & Ha). by apply claim_voted.
Qed.

(** No certificate for another chunk in the same or a later round. *)
Lemma later_certificate_agrees ch1 ch2 c1 c2 :
  certified d params vs ch1 c1 -> certified d params vs ch2 c2 ->
  fc_chunk_id c1 = k -> fc_chunk_id c2 = k -> fc_round c1 <= fc_round c2 -> fc_chunk_hash c2 = fc_chunk_hash c1.
Proof.
  intros Hc1 Hc2 Hk1 Hk2 Hr. pose proof (cert_precommit _ _ _ _ _ Hc1) as Hp1.
  destruct (decide (fc_round c1 = fc_round c2)) as [Heq|Hlt].
  - pose proof (cert_precommit _ _ _ _ _ Hc2) as Hp2.
    destruct (quorums_share_honest vs honest _ _ _ _ Hmost (pc_quorum _ _ _ _ _ _ _ Hp1) (pc_quorum _ _ _ _ _ _ _ Hp2))
      as (j & Hj1 & Hj2 & Hj).
    destruct (honest_voted j _ Hj (certified_voted _ _ _ _ _ Hp1 Hj1)) as (v & i1 & Hv & Hi1 & Hd1 & Hok).
    destruct (honest_voted j _ Hj (certified_voted _ _ _ _ _ Hp2 Hj2)) as (v' & i2 & Hv' & Hi2 & Hd2 & _).
    rewrite Hv in Hv'. injection Hv' as <-. assert (i1 = i2) as <-.
    { apply (t_votes _ _ _ _ Hok (pubkey v)); try (by apply elem_of_signed_by). rewrite Hd1, Hd2. split_and!; cbn; congruence. }
    rewrite Hd1 in Hd2. by injection Hd2.
  - pose proof (cert_prevote _ _ _ _ _ Hc2) as Hp2.
    destruct (quorums_share_honest vs honest _ _ _ _ Hmost (pc_quorum _ _ _ _ _ _ _ Hp1) (pc_quorum _ _ _ _ _ _ _ Hp2))
      as (j & Hj1 & Hj2 & Hj).
    destruct (honest_voted j _ Hj (certified_voted _ _ _ _ _ Hp2 Hj2)) as (v & i & Hv & Hi & Hdi & _).
    apply list_elem_of_split in Hi as (pre & post & HG).
    pose proof (lock_persists (set_bits (av_bits (fc_precommit c1))) (precommit_fraction params)
      (cert_vote_data c1 Precommit) (pc_quorum _ _ _ _ _ _ _ Hp1)
      (fun j => certified_voted _ _ _ _ j Hp1) eq_refl Hk1 _ pre i post j v eq_refl HG Hj1 Hj Hv) as Hhash.
    rewrite Hdi in Hhash. apply Hhash; cbn; [done|lia].
Qed.

End agreement.

(* ------------------------------------------------------------------ *)
(** ** A chain of one honest validator, for the witness *)

Definition solo_root : Hash := @validators_commitment pad32 sample_codec sample_signers.

Definition solo_chunk : Chunk :=
  {| ck_chunk_id := 0; ck_start_height := 1; ck_end_height := 128; ck_start_state_root := [1];
     ck_end_state_root := []; ck_start_block_hash := []; ck_end_block_hash := []; ck_block_hash_root := [];
     ck_block_proof_root := []; ck_vrf_proof_root := []; ck_active_validator_set_root := solo_root;
     ck_next_validator_set_root := solo_root; ck_da_root := [] |}.

Definition solo_data (phase : FinalityVotePhase) : FinalityVoteData :=
  {| v_chunk_id := 0; v_round := 0; v_chunk_hash := @Chunk_hash pad32 sample_codec solo_chunk; v_phase := phase |}.

Definition solo_quorum : QuorumCertificate :=
  {| qc_data := solo_data Prevote; qc_aggregate := sample_aggregate |}.

(** A prevote and, on its quorum, a precommit. *)
Definition solo_votes : list (FinalityVoteData * list Hash * option QuorumCertificate) :=
  [(solo_data Prevote, [], None); (solo_data Precommit, replicate 128 ZERO_HASH, Some solo_quorum)].

Definition solo_claim (v : FinalityVoteData * list Hash * option QuorumCertificate) : VoteAttestation :=
  {| va_vote_signature := []; va_validator_index := 0; va_vote := v.1.1; va_proof_hashes := v.1.2;
     va_unlock_quorum := v.2; va_signature := [] |}.

Definition solo_proposal : BftProposal :=
  {| bp_chunk := solo_chunk; bp_round := 0; bp_proposer_index := 0; bp_valid_quorum := None;
     bp_round_change_certificate := None; bp_signature := [] |}.

Definition solo_cert : FinalityCert :=
  {| fc_proposal := solo_proposal;
     fc_prevote_attestations := map solo_claim (take 1 solo_votes);
     fc_precommit_attestations := map solo_claim (drop 1 solo_votes);
     fc_chunk_id := 0; fc_round := 0; fc_chunk_hash := @Chunk_hash pad32 sample_codec solo_chunk;
     fc_prevote := sample_aggregate; fc_precommit := sample_aggregate; fc_active_validator_set_root := solo_root |}.

Definition proposal_bytes : bytes := @proposal_message sample_codec sample_domain solo_proposal.

(** Signatures verify exactly on the messages of the one key. *)
Definition solo_messages : list bytes :=
  proposal_bytes
  :: concat (map (fun v => [@vote_message sample_codec sample_domain v.1.1;
                            @attestation_message sample_codec sample_domain (solo_claim v)]) solo_votes).

Definition solo_verifier : Verifier :=
  {| verifier_verify _ m _ := bool_decide (m ∈ solo_messages);
     verifier_aggregate _ m _ := bool_decide (m ∈ solo_messages) |}.

Definition solo_trace : list Signed :=
  SignedMessage (public_key_bytes sample_key) ProposalMessage 0 0 proposal_bytes :: map sample_signed solo_votes.

Lemma solo_run : exists e, @run sample_codec solo_verifier sample_store sample_domain ConsensusParams_default
  (fun _ => sample_signers) e solo_trace.
Proof.
  set (first := @sign_bft_proposal_durable sample_codec solo_verifier sample_store sample_engine sample_key solo_proposal).
  assert (first.1.2 = [SignedMessage (public_key_bytes sample_key) ProposalMessage 0 0 proposal_bytes]) as Hfirst
    by (vm_compute; reflexivity).
  assert ((@sign_all sample_codec solo_verifier sample_store first.1.1 sample_key solo_votes).2
    = map sample_signed solo_votes) as Hvotes by (vm_compute; reflexivity).
  eexists. unfold solo_trace. change (SignedMessage _ _ _ _ _ :: ?l) with
    ([SignedMessage (public_key_bytes sample_key) ProposalMessage 0 0 proposal_bytes] ++ l).
  rewrite <- Hvotes, <- Hfirst. apply sign_all_run; try done.
  - apply (@run_proposal sample_codec solo_verifier sample_store _ _ _ sample_engine [] sample_key solo_proposal
      first.1.1 first.1.2 first.2); [by apply run_start| |apply triple_eta].
    split; [reflexivity|split; by vm_compute].
  - by repeat constructor.
Qed.

Lemma solo_unforgeable :
  @unforgeable sample_codec solo_verifier sample_domain solo_trace (public_key_bytes sample_key).
Proof.
  intros tag payload sg Htag Hv. cbn [verifier_verify solo_verifier] in Hv. apply bool_decide_eq_true in Hv.
  unfold solo_messages in Hv. apply elem_of_cons in Hv as [Hm|Hv].
  - eexists (SignedMessage _ ProposalMessage 0 0 proposal_bytes), DOMAIN_BFT_PROPOSAL, _.
    split; [left|]. split; [|split; [set_solver|]]; [split_and!; [done|done|]|].
    + unfold proposal_bytes, proposal_message. apply signing_message_borsh_eq.
    + rewrite Hm. unfold proposal_bytes, proposal_message. apply signing_message_borsh_eq.
  - apply list_elem_of_In, in_concat in Hv as (ms & Hms & Hm). apply list_elem_of_In in Hms, Hm.
    apply list_elem_of_fmap in Hms as (v & -> & Hin). exists (sample_signed v).
    repeat rewrite elem_of_cons in Hm. destruct Hm as [Hm|[Hm|[]%not_elem_of_nil]].
    + exists (phase_tag (v_phase v.1.1)), (@borsh_to_vec _ (@codec_vote sample_codec) v.1.1).
      split; [right; by apply list_elem_of_fmap_2|]. split; [split; [done|by left]|].
      split; [destruct (v_phase v.1.1); set_solver|]. rewrite Hm. apply signing_message_borsh_eq.
    + eexists DOMAIN_VOTE_ATTESTATION, _. split; [right; by apply list_elem_of_fmap_2|].
      split; [split; [done|right; split; [done|by eexists]]|]. split; [set_solver|].
      rewrite Hm. apply signing_message_borsh_eq.
Qed.

(* ------------------------------------------------------------------ *)
(** ** Properties *)

(** C1: finality is safe: for one chunk id, if validators with more than two
    thirds of the active stake sign only through the journal, with keys that cannot
    be forged and no aggregate of their signatures before they signed, then any two
    finality certificates that verify certify the same chunk, or exhibit a BLAKE3
    collision, whatever the other validators sign and whatever the rounds. *)
Theorem finality_agreement `{Blake3} `{ConsensusCodecLaws} `{Verifier} `{ArtifactStore}
    (d : ConsensusDomain) (params : ConsensusParams) (set_of : N -> list Validator) (vs : list Validator)
    (G : list Signed) (honest : list N) (ch1 ch2 : Chunk) (c1 c2 : FinalityCert) :
  domain_wf d -> set_of (ck_chunk_id ch1) = vs -> ck_chunk_id ch2 = ck_chunk_id ch1 ->
  (forall j, j ∈ honest -> honest_at d params set_of vs G j) ->
  quorums_caused d params vs G honest -> mostly_honest vs honest ->
  verify_finality_using d params vs ch1 c1 = Ok tt -> verify_finality_using d params vs ch2 c2 = Ok tt ->
  ch1 = ch2 \/ Collides [borsh_to_vec ch1] [borsh_to_vec ch2].
Proof.
  intros Hd Hset Hid Hhonest Hcaused Hmost HC1%verify_finality_using_Ok HC2%verify_finality_using_Ok.
  destruct (cert_target _ _ _ _ _ HC1) as [Hk1 Hh1], (cert_target _ _ _ _ _ HC2) as [Hk2 Hh2]. rewrite Hid in Hk2.
  assert (fc_chunk_hash c1 = fc_chunk_hash c2) as Hhash.
  { destruct (N.le_ge_cases (fc_round c1) (fc_round c2)).
    - symmetry. by eapply (later_certificate_agrees d params set_of Hd vs G honest).
    - by eapply (later_certificate_agrees d params set_of Hd vs G honest). }
  rewrite Hh1, Hh2 in Hhash. by apply commitment_inj.
Qed.

Lemma finality_agreement_witness :
  @verify_finality_using pad32 sample_codec solo_verifier sample_domain ConsensusParams_default sample_signers
    solo_chunk solo_cert = Ok tt
  /\ (solo_chunk = solo_chunk \/ @Collides pad32 [@borsh_to_vec _ (@codec_chunk sample_codec) solo_chunk]
        [@borsh_to_vec _ (@codec_chunk sample_codec) solo_chunk]).
Proof.
  assert (@verify_finality_using pad32 sample_codec solo_verifier sample_domain ConsensusParams_default sample_signers
    solo_chunk solo_cert = Ok tt) as Hcert by (vm_compute; reflexivity).
  split; [exact Hcert|].
  apply (@finality_agreement pad32 sample_codec sample_codec_laws solo_verifier sample_store sample_domain
    ConsensusParams_default (fun _ => sample_signers) sample_signers solo_trace [0] solo_chunk solo_chunk solo_cert solo_cert).
  - split; [by vm_compute|reflexivity].
  - reflexivity.
  - reflexivity.
  - intros j ->%list_elem_of_singleton. eexists. split; [reflexivity|].
    split; [exact solo_run|exact solo_unforgeable].
  - intros pre pk i post u HG Hu _ _ j v ->%list_elem_of_singleton _ [= <-]. unfold solo_trace in HG.
    destruct pre as [|? [|? [|? pre]]]; try discriminate HG.
    + injection HG as _ _ <- <-. discriminate Hu.
    + injection HG as <- <- _ <- _. injection Hu as <-. eexists. split; [right; left|reflexivity].
    + destruct pre; discriminate HG.
  - exists 1. split; vm_compute; reflexivity.
  - exact Hcert.
  - exact Hcert.
Defined.
