(* ===== verification/Sorted.v ===== *)
(** * Sorted vectors

    [slice::binary_search_by], [Vec::insert] and [Vec::remove] of the standard
    library, as the runtime and the mempool use them on vectors kept sorted by a
    byte-string key.  On a strictly sorted vector an insert-or-replace, a removal
    and a lookup are the operations of a finite map. *)

From S2P Require Import Prelude.

(** The halving loop; [size] at least halves (rounded up) per step, so the length
    of the vector is enough fuel. *)
Fixpoint search_loop {A} (fuel : nat) (f : A -> comparison) (l : list A) (base size : nat) : nat :=
  match fuel with
  | O => base
  | S fuel =>
      if (1 <? size)%nat then
        let half := (size / 2)%nat in
        let mid := (base + half)%nat in
        let base := match f <$> l !! mid with Some Gt => base | _ => mid end in
        search_loop fuel f l base (size - half)
      else base
  end.

(** [Ok index] of a match, or [Err index] where it would be inserted. *)
Definition binary_search_by {A} (f : A -> comparison) (l : list A) : result nat nat :=
  match l with
  | [] => Err 0%nat
  | _ =>
      let base := search_loop (length l) f l 0 (length l) in
      match f <$> l !! base with
      | Some Eq => Ok base
      | Some Lt => Err (S base)
      | _ => Err base
      end
  end.

Definition vec_insert {A} (i : nat) (x : A) (l : list A) : list A := take i l ++ x :: drop i l.

Section keyed.
Context {A : Type} (key : A -> bytes).

Definition search (l : list A) (k : bytes) : result nat nat :=
  binary_search_by (fun e => bytes_cmp (key e) k) l.

Definition sorted_upsert (l : list A) (x : A) : list A :=
  match search l (key x) with Ok i => <[i := x]> l | Err i => vec_insert i x l end.

Definition sorted_remove (l : list A) (k : bytes) : list A :=
  match search l k with Ok i => delete i l | Err _ => l end.

Definition sorted_get (l : list A) (k : bytes) : option A :=
  match search l k with Ok i => l !! i | Err _ => None end.

Definition sorted_contains (l : list A) (k : bytes) : bool := is_ok (search l k).

(** Strictly increasing keys. *)
Definition sorted (l : list A) : Prop :=
  forall i j x y, l !! i = Some x -> l !! j = Some y -> (i < j)%nat -> bytes_cmp (key x) (key y) = Lt.

(* ------------------------------------------------------------------ *)

Lemma sorted_nil : sorted [].
Proof. intros i j x y Hx. by rewrite lookup_nil in Hx. Qed.

Lemma sorted_inj l i j x y :
  sorted l -> l !! i = Some x -> l !! j = Some y -> key x = key y -> i = j.
Proof.
  intros Hs Hx Hy Heq. destruct (Nat.lt_trichotomy i j) as [Hlt|[Hij|Hlt]]; [|done|].
  - pose proof (Hs _ _ _ _ Hx Hy Hlt) as Hc. by rewrite Heq, bytes_cmp_refl in Hc.
  - pose proof (Hs _ _ _ _ Hy Hx Hlt) as Hc. by rewrite Heq, bytes_cmp_refl in Hc.
Qed.

(** The keys before a key that is not above the target are below it, those after
    one that is are above. *)
Lemma sorted_below l i j x y k :
  sorted l -> l !! i = Some x -> l !! j = Some y -> (i < j)%nat ->
  bytes_cmp (key y) k <> Gt -> bytes_cmp (key x) k = Lt.
Proof.
  intros Hs Hx Hy Hlt Hle. pose proof (Hs _ _ _ _ Hx Hy Hlt) as Hxy.
  destruct (bytes_cmp (key y) k) eqn:Hyk; [|by eapply bytes_cmp_trans|done].
  apply bytes_cmp_eq in Hyk as <-. done.
Qed.

Lemma sorted_above l i j x y k :
  sorted l -> l !! i = Some x -> l !! j = Some y -> (i < j)%nat ->
  bytes_cmp (key x) k = Gt -> bytes_cmp (key y) k = Gt.
Proof.
  intros Hs Hx Hy Hlt Hgt. pose proof (Hs _ _ _ _ Hx Hy Hlt) as Hxy.
  assert (bytes_cmp (key y) (key x) = Gt) as Hyx by (by rewrite bytes_cmp_antisym, Hxy).
  by eapply bytes_cmp_trans.
Qed.

Definition above_from (l : list A) (n : nat) (k : bytes) : Prop :=
  forall j y, (n <= j)%nat -> l !! j = Some y -> bytes_cmp (key y) k = Gt.

Lemma search_loop_spec l k fuel base size :
  sorted l -> (size <= fuel)%nat -> (1 <= size)%nat -> (base + size <= length l)%nat ->
  (base = 0%nat \/ exists x, l !! base = Some x /\ bytes_cmp (key x) k <> Gt) ->
  above_from l (base + size) k ->
  let i := search_loop fuel (fun e => bytes_cmp (key e) k) l base size in
  (i < length l)%nat /\ above_from l (S i) k
  /\ (i = 0%nat \/ exists x, l !! i = Some x /\ bytes_cmp (key x) k <> Gt).
Proof.
  intros Hs. revert base size. induction fuel as [|fuel IH]; intros base size Hfuel Hsz Hlen Hbase Hab; [lia|].
  cbn [search_loop]. destruct (Nat.ltb_spec 1 size) as [Hlt|Hge].
  - pose proof (Nat.div_mod_eq size 2) as Hdiv. pose proof (Nat.mod_upper_bound size 2) as Hmod.
    set (half := (size / 2)%nat) in *.
    destruct (lookup_lt_is_Some_2 l (base + half)) as [x Hx]; [lia|]. rewrite Hx. cbn [fmap option_fmap option_map].
    destruct (bytes_cmp (key x) k) eqn:Hc; (apply IH; [lia|lia|lia| |]);
      try (right; exists x; split; [done|by rewrite Hc]); try done;
      try (replace (base + half + (size - half))%nat with (base + size)%nat by lia; done).
    intros j y Hj Hy. destruct (decide (j = (base + half)%nat)) as [->|Hne]; [by simplify_eq|].
    eapply sorted_above; [done|exact Hx|exact Hy|lia|done].
  - cbn. split; [lia|]. split; [|done]. replace (S base) with (base + size)%nat by lia. done.
Qed.

Lemma search_spec l k :
  sorted l ->
  match search l k with
  | Ok i => exists x, l !! i = Some x /\ key x = k
  | Err i => (i <= length l)%nat /\ above_from l i k
      /\ forall j y, (j < i)%nat -> l !! j = Some y -> bytes_cmp (key y) k = Lt
  end.
Proof.
  intros Hs. unfold search, binary_search_by. destruct l as [|a l'] eqn:Hl.
  { split; [done|]. split; intros j y Hj Hy; [by rewrite lookup_nil in Hy|lia]. }
  rewrite <- Hl in *. assert (1 <= length l)%nat as Hlen by (rewrite Hl; cbn; lia). clear Hl.
  destruct (search_loop_spec l k (length l) 0 (length l)) as (Hi & Hab & Hle); [done|lia|lia|lia|by left| |].
  { intros j y Hj Hy. apply lookup_lt_Some in Hy. lia. }
  set (i := search_loop _ _ _ _ _) in *. destruct (lookup_lt_is_Some_2 l i Hi) as [x Hx]. rewrite Hx.
  cbn [fmap option_fmap option_map]. destruct (bytes_cmp (key x) k) eqn:Hc.
  - exists x. by apply bytes_cmp_eq in Hc.
  - split; [lia|]. split; [done|]. intros j y Hj Hy.
    destruct (decide (j = i)) as [->|Hne]; [by simplify_eq|].
    eapply sorted_below; [done|exact Hy|exact Hx|lia|by rewrite Hc].
  - destruct Hle as [Hi0|(x' & Hx' & Hx'c)]; [|by simplify_eq]. rewrite Hi0 in *. split; [lia|].
    split; [|intros; lia]. intros j y Hj Hy. destruct j; [by simplify_eq|]. apply (Hab (S j)); [lia|done].
Qed.

Lemma search_Ok l k i : sorted l -> search l k = Ok i <-> exists x, l !! i = Some x /\ key x = k.
Proof.
  intros Hs. pose proof (search_spec l k Hs) as Hspec. destruct (search l k) as [j|j].
  - destruct Hspec as (y & Hy & Hyk). split; [intros [= <-]; by exists y|].
    intros (x & Hx & Hxk). f_equal. by eapply sorted_inj; [| | |rewrite Hyk, Hxk].
  - destruct Hspec as (_ & Hab & Hbe). split; [done|]. intros (x & Hx & Hxk).
    destruct (decide (i < j)%nat) as [Hlt|Hge].
    + specialize (Hbe _ _ Hlt Hx). by rewrite Hxk, bytes_cmp_refl in Hbe.
    + specialize (Hab i x ltac:(lia) Hx). by rewrite Hxk, bytes_cmp_refl in Hab.
Qed.

Lemma sorted_get_Some l k x : sorted l -> sorted_get l k = Some x <-> x ∈ l /\ key x = k.
Proof.
  intros Hs. unfold sorted_get. split.
  - destruct (search l k) as [i|] eqn:Hi; [|done]. apply (search_Ok l k i Hs) in Hi as (y & Hy & Hyk).
    intros Hx. simplify_eq. split; [by eapply list_elem_of_lookup_2|done].
  - intros [Hx Hk]. apply list_elem_of_lookup in Hx as [i Hi].
    assert (search l k = Ok i) as -> by (apply search_Ok; eauto). done.
Qed.

Lemma sorted_get_None l k : sorted l -> sorted_get l k = None <-> forall x, x ∈ l -> key x <> k.
Proof.
  intros Hs. destruct (sorted_get l k) as [x|] eqn:Hget.
  - apply sorted_get_Some in Hget; [|done]. naive_solver.
  - split; [|done]. intros _ x Hx Hk. by rewrite (proj2 (sorted_get_Some l k x Hs)) in Hget.
Qed.

Lemma sorted_contains_get l k : sorted l -> sorted_contains l k = true <-> is_Some (sorted_get l k).
Proof.
  intros Hs. unfold sorted_contains, sorted_get. pose proof (search_spec l k Hs) as Hspec.
  destruct (search l k) as [i|i]; cbn; [|by split; [|intros []]].
  destruct Hspec as (x & -> & _). by split.
Qed.

Lemma lookup_vec_insert i (x : A) l j :
  (i <= length l)%nat ->
  vec_insert i x l !! j = if (j <? i)%nat then l !! j else if (j =? i)%nat then Some x else l !! (j - 1)%nat.
Proof.
  intros Hi. unfold vec_insert. assert (length (take i l) = i) as Hlen by (rewrite length_take; lia).
  destruct (Nat.ltb_spec j i).
  - rewrite lookup_app_l by lia. by rewrite lookup_take_lt.
  - rewrite lookup_app_r by lia. rewrite Hlen. destruct (Nat.eqb_spec j i) as [->|Hne].
    + by rewrite Nat.sub_diag.
    + rewrite lookup_cons_ne_0 by lia. rewrite lookup_drop. f_equal. lia.
Qed.

Lemma sorted_upsert_sorted l x : sorted l -> sorted (sorted_upsert l x).
Proof.
  intros Hs. unfold sorted_upsert. pose proof (search_spec l (key x) Hs) as Hspec.
  destruct (search l (key x)) as [i|i].
  - destruct Hspec as (y & Hy & Hk). intros a b u v Hu Hv Hab.
    assert (forall j w, <[i:=x]> l !! j = Some w -> exists w', l !! j = Some w' /\ key w' = key w) as Hsame.
    { intros j w Hw. apply list_lookup_insert_Some in Hw as [(-> & -> & _)|[_ Hw]]; eauto. }
    destruct (Hsame _ _ Hu) as (u' & Hu' & <-), (Hsame _ _ Hv) as (v' & Hv' & <-). by eapply Hs.
  - destruct Hspec as (Hi & Hab & Hbe). intros a b u v. rewrite !lookup_vec_insert by done.
    destruct (Nat.ltb_spec a i), (Nat.ltb_spec b i), (Nat.eqb_spec a i), (Nat.eqb_spec b i);
      intros Hu Hv Hlt; simplify_eq; try lia.
    + by eapply Hs; [exact Hu|exact Hv|].
    + by apply (Hbe a).
    + eapply Hs; [exact Hu|exact Hv|lia].
    + rewrite bytes_cmp_antisym, (Hab (b - 1)%nat v); [done|lia|done].
    + eapply Hs; [exact Hu|exact Hv|lia].
Qed.

Lemma elem_of_sorted_upsert l x y :
  sorted l -> y ∈ sorted_upsert l x <-> y = x \/ (y ∈ l /\ key y <> key x).
Proof.
  intros Hs. unfold sorted_upsert. pose proof (search_spec l (key x) Hs) as Hspec.
  destruct (search l (key x)) as [i|i].
  - destruct Hspec as (z & Hz & Hk). rewrite list_elem_of_lookup. split.
    + intros [j Hj]. apply list_lookup_insert_Some in Hj as [(_ & -> & _)|[Hne Hj]]; [by left|right].
      split; [by eapply list_elem_of_lookup_2|]. intros Heq. apply Hne. eapply sorted_inj; [done|exact Hz|exact Hj|congruence].
    + intros [->|[Hy Hne]]; [exists i; apply list_lookup_insert_eq; by eapply lookup_lt_Some|].
      apply list_elem_of_lookup in Hy as [j Hj]. exists j. rewrite list_lookup_insert_ne; [done|].
      intros ->. by simplify_eq.
  - destruct Hspec as (Hi & Hab & Hbe). unfold vec_insert. rewrite elem_of_app, elem_of_cons.
    assert (y ∈ l <-> y ∈ take i l \/ y ∈ drop i l) as Hsplit by (rewrite <- elem_of_app, take_drop; done).
    assert (y ∈ l -> key y <> key x) as Hfresh.
    { intros Hy Heq. apply list_elem_of_lookup in Hy as [j Hj]. destruct (decide (j < i)%nat).
      - specialize (Hbe j y ltac:(lia) Hj). by rewrite (proj2 (bytes_cmp_eq _ _) Heq) in Hbe.
      - specialize (Hab j y ltac:(lia) Hj). by rewrite (proj2 (bytes_cmp_eq _ _) Heq) in Hab. }
    naive_solver.
Qed.

Lemma sorted_remove_sorted l k : sorted l -> sorted (sorted_remove l k).
Proof.
  intros Hs. unfold sorted_remove. destruct (search l k) as [i|]; [|done].
  assert (forall j, delete i l !! j = l !! (if (j <? i)%nat then j else S j)) as Hl.
  { intros j. destruct (Nat.ltb_spec j i); [by apply list_lookup_delete_lt|by apply list_lookup_delete_ge]. }
  intros a b u v. rewrite !Hl. intros Hu Hv Hab. eapply Hs; [exact Hu|exact Hv|].
  destruct (Nat.ltb_spec a i), (Nat.ltb_spec b i); lia.
Qed.

Lemma elem_of_sorted_remove l k y : sorted l -> y ∈ sorted_remove l k <-> y ∈ l /\ key y <> k.
Proof.
  intros Hs. unfold sorted_remove. destruct (search l k) as [i|i] eqn:Hi.
  - apply (search_Ok l k i Hs) in Hi as (z & Hz & Hk). rewrite !list_elem_of_lookup. split.
    + intros [j Hj]. destruct (decide (j < i)%nat).
      * rewrite list_lookup_delete_lt in Hj by done. split; [eauto|]. intros Heq.
        assert (j = i); [|lia]. eapply sorted_inj; [done|exact Hj|exact Hz|congruence].
      * rewrite list_lookup_delete_ge in Hj by lia. split; [eauto|]. intros Heq.
        assert (S j = i); [|lia]. eapply sorted_inj; [done|exact Hj|exact Hz|congruence].
    + intros [[j Hj] Hne]. destruct (Nat.lt_trichotomy j i) as [Hlt|[->|Hlt]]; [| by simplify_eq|].
      * exists j. by rewrite list_lookup_delete_lt.
      * exists (j - 1)%nat. rewrite list_lookup_delete_ge by lia. by replace (S (j - 1)) with j by lia.
  - split; [|tauto]. intros Hy. split; [done|]. intros Hk. apply list_elem_of_lookup in Hy as [j Hj].
    assert (search l k = Ok j) as Heq by (apply search_Ok; eauto). congruence.
Qed.

Lemma sorted_remove_absent l k : sorted_contains l k = false -> sorted_remove l k = l.
Proof. unfold sorted_contains, sorted_remove. by destruct (search l k). Qed.

(** The operations as those of a finite map. *)
Lemma sorted_get_upsert l x k :
  sorted l -> sorted_get (sorted_upsert l x) k = if decide (key x = k) then Some x else sorted_get l k.
Proof.
  intros Hs. pose proof (sorted_upsert_sorted l x Hs) as Hs'. destruct (decide (key x = k)) as [Hk|Hk].
  - apply sorted_get_Some; [done|]. rewrite elem_of_sorted_upsert by done. auto.
  - destruct (sorted_get l k) as [y|] eqn:Hget.
    + apply sorted_get_Some in Hget as [Hy <-]; [|done]. apply sorted_get_Some; [done|].
      rewrite elem_of_sorted_upsert by done. auto.
    + rewrite sorted_get_None in Hget |- * by done. intros y.
      rewrite elem_of_sorted_upsert by done. naive_solver.
Qed.

Lemma sorted_get_remove l k k' :
  sorted l -> sorted_get (sorted_remove l k) k' = if decide (k = k') then None else sorted_get l k'.
Proof.
  intros Hs. pose proof (sorted_remove_sorted l k Hs) as Hs'. destruct (decide (k = k')) as [<-|Hk].
  - apply sorted_get_None; [done|]. intros y. rewrite elem_of_sorted_remove by done. naive_solver.
  - destruct (sorted_get l k') as [y|] eqn:Hget.
    + apply sorted_get_Some in Hget as [Hy <-]; [|done]. apply sorted_get_Some; [done|].
      rewrite elem_of_sorted_remove by done. auto.
    + rewrite sorted_get_None in Hget |- * by done. intros y.
      rewrite elem_of_sorted_remove by done. naive_solver.
Qed.

End keyed.
