(* ===== verification/Backend.v ===== *)
(** * The state a runtime executes against

    [StateBackend] of crates/runtime-core/src/lib.rs and the write-back view
    [BlockState] of runtimes/neutrino-default/core/src/state.rs.  The state
    transition is generic over its backend; here it is a tree of backend calls
    ([stf]) that [run] interprets with any instance.  The theorem shows that a
    block executed through the write-back view leaves exactly the state, and
    returns exactly the values, of direct execution. *)

From stdpp Require Import sorting.
From S2P Require Import Prelude External Primitives Bits Trie.

(** ** Computations over a backend *)

(** The assertions of the state transition and of its backends; a failed one aborts
    the block. *)
Inductive Panic :=
| InvalidAnchor | EvidenceOrder | EvidenceBinding | EvidencePendingCap
| InvalidPolicy | EvidenceWindow | AdmissionCap | OffenceReplay | UncertifiedInactivity
| DuplicateOffence | QueueBound | SanctionGas | QueueCapacity | NonCanonical
| RewardShare | UnexpectedDeduction | RewardExceedsDeduction | BalanceUnderflow | CountOverflow
| UnwitnessedKey | TriePanic (f : TrieFault) | TrieInsertFailed (e : TrieError).

#[export] Instance Panic_eq_dec : EqDecision Panic.
Proof. solve_decision. Defined.

(** A program over [read], [write] and [delete]. *)
Inductive stf (A : Type) : Type :=
| Ret (a : A)
| Abort (p : Panic)
| Read (key : bytes) (k : option bytes -> stf A)
| Write (key value : bytes) (k : stf A)
| Delete (key : bytes) (k : stf A).
Arguments Ret {A} a.
Arguments Abort {A} p.
Arguments Read {A} key k.
Arguments Write {A} key value k.
Arguments Delete {A} key k.

#[export] Instance stf_ret : MRet stf := fun A => Ret.
#[export] Instance stf_bind : MBind stf := fun A B f =>
  fix go p := match p with
              | Ret a => f a
              | Abort e => Abort e
              | Read key k => Read key (fun v => go (k v))
              | Write key v k => Write key v (go k)
              | Delete key k => Delete key (go k)
              end.

#[export] Instance stf_fmap : FMap stf := fun A B f p => p ≫= fun a => Ret (f a).

Definition read (key : bytes) : stf (option bytes) := Read key Ret.
Definition write (key value : bytes) : stf unit := Write key value (Ret tt).
Definition delete_key (key : bytes) : stf unit := Delete key (Ret tt).

(** [assert!]. *)
Definition assert (b : bool) (e : Panic) : stf unit := if b then Ret tt else Abort e.

(** [Option::expect]. *)
Definition expect {A} (o : option A) (e : Panic) : stf A :=
  match o with Some x => Ret x | None => Abort e end.

(** The [?] operator: an error ends the handler and leaves the state as it is. *)
Definition and_then {E A B} (p : stf (result E A)) (k : A -> stf (result E B)) : stf (result E B) :=
  p ≫= fun r => match r with Ok x => k x | Err e => Ret (Err e) end.

Notation "x ⇐ p ; k" := (and_then p (fun x => k))
  (at level 20, p at level 100, k at level 200, only parsing) : stdpp_scope.
Notation "' x ⇐ p ; k" := (and_then p (fun x => k))
  (at level 20, x pattern, p at level 100, k at level 200, only parsing) : stdpp_scope.

(** A loop over a list that threads a value through its body. *)
Fixpoint fold_stf {A S} (f : S -> A -> stf S) (acc : S) (l : list A) : stf S :=
  match l with
  | [] => Ret acc
  | x :: l => acc ← f acc x; fold_stf f acc l
  end.

(** ** Backends *)

(** A call may abort: the Guest's backend refuses keys outside its witness, and
    panics on nodes that its witness lacks. *)
Class StateBackend (B : Type) := {
  backend_read : bytes -> B -> result Panic (option bytes * B);
  backend_write : bytes -> bytes -> B -> result Panic B;
  backend_delete : bytes -> B -> result Panic B;
  pre_state_root : B -> Hash;
  post_state_root : B -> Hash;
}.

Fixpoint run `{StateBackend B} {A} (p : stf A) (b : B) : result Panic (A * B) :=
  match p with
  | Ret a => Ok (a, b)
  | Abort e => Err e
  | Read key k => '(v, b) ← backend_read key b; run (k v) b
  | Write key v k => b ← backend_write key v b; run k b
  | Delete key k => b ← backend_delete key b; run k b
  end.

(** The content of the state trie. *)
Abbreviation state :=
  (@gmap (list N) (@list_eq_dec N N.eq_dec) (@list_countable N N.eq_dec N_countable) (list N)) (only parsing).

(** The root of a state with a given content.  File Witness gives the root the trie
    computes; the theorems on the runtime hold for any. *)
Class TrieRoot := trie_root : state -> Hash.

(** A live trie and the root it had before the run. *)
Record LiveState := { ls_pre_root : Hash; ls_state : state }.

#[export] Instance live_backend `{TrieRoot} : StateBackend LiveState := {|
  backend_read key b := Ok (ls_state b !! key, b);
  backend_write key v b := Ok {| ls_pre_root := ls_pre_root b; ls_state := <[key := v]> (ls_state b) |};
  backend_delete key b := Ok {| ls_pre_root := ls_pre_root b; ls_state := delete key (ls_state b) |};
  pre_state_root := ls_pre_root;
  post_state_root b := trie_root (ls_state b);
|}.

Definition LiveState_new `{TrieRoot} (s : state) : LiveState := {| ls_pre_root := trie_root s; ls_state := s |}.

(** ** [BlockState] *)

Inductive Slot := Clean (value : option bytes) | Written (value : bytes) | Deleted.

Definition Slot_value (s : Slot) : option bytes :=
  match s with Clean v => v | Written v => Some v | Deleted => None end.

Definition is_clean (s : Slot) : bool := match s with Clean _ => true | _ => false end.

Record BlockState (B : Type) := { bs_inner : B; bs_slots : gmap bytes Slot }.
Arguments Build_BlockState {B} bs_inner bs_slots.
Arguments bs_inner {B} b.
Arguments bs_slots {B} b.

Definition BlockState_new {B} (inner : B) : BlockState B := {| bs_inner := inner; bs_slots := ∅ |}.

(** [BTreeMap] iterates in key order. *)
Definition key_le (x y : bytes * Slot) : Prop := bytes_cmp x.1 y.1 <> Gt.

#[export] Instance key_le_dec : RelDecision key_le.
Proof. intros x y. unfold key_le. apply _. Defined.

Definition flush_slot `{StateBackend B} (inner : B) (entry : bytes * Slot) : result Panic B :=
  match entry.2 with
  | Clean _ => Ok inner
  | Written value => backend_write entry.1 value inner
  | Deleted => backend_delete entry.1 inner
  end.

Fixpoint flush_slots `{StateBackend B} (inner : B) (entries : list (bytes * Slot)) : result Panic B :=
  match entries with
  | [] => Ok inner
  | entry :: entries => inner ← flush_slot inner entry; flush_slots inner entries
  end.

(** The slots in the order of their keys. *)
Definition slot_entries (slots : gmap bytes Slot) : list (bytes * Slot) := merge_sort key_le (map_to_list slots).

Definition BlockState_finish `{StateBackend B} (b : BlockState B) : result Panic B :=
  flush_slots (bs_inner b) (slot_entries (bs_slots b)).

(** [post_state_root] asserts that every slot is clean; execution reads the root
    after [finish], from the inner backend. *)
#[export] Instance block_backend `{StateBackend B} : StateBackend (BlockState B) := {|
  backend_read key b :=
    match bs_slots b !! key with
    | Some slot => Ok (Slot_value slot, b)
    | None =>
        '(value, inner) ← backend_read key (bs_inner b);
        Ok (value, {| bs_inner := inner; bs_slots := <[key := Clean value]> (bs_slots b) |})
    end;
  backend_write key v b :=
    Ok {| bs_inner := bs_inner b; bs_slots := <[key := Written v]> (bs_slots b) |};
  backend_delete key b :=
    Ok {| bs_inner := bs_inner b; bs_slots := <[key := Deleted]> (bs_slots b) |};
  pre_state_root b := pre_state_root (bs_inner b);
  post_state_root b := post_state_root (bs_inner b);
|}.

(* ------------------------------------------------------------------ *)
(** ** Reasoning about runs *)

(** Direct execution against the content alone. *)
Fixpoint exec {A} (p : stf A) (s : state) : result Panic (A * state) :=
  match p with
  | Ret a => Ok (a, s)
  | Abort e => Err e
  | Read key k => exec (k (s !! key)) s
  | Write key v k => exec k (<[key := v]> s)
  | Delete key k => exec k (delete key s)
  end.

(** [wp P p Q s]: the run of [p] from [s] either aborts, when [P] allows it, or
    ends with a value and a state related by [Q].  [wp False] is total
    correctness, [wp True] partial correctness. *)
Definition wp (P : Prop) {A} (p : stf A) (Q : A -> state -> Prop) (s : state) : Prop :=
  match exec p s with Ok (a, s') => Q a s' | Err _ => P end.

Lemma exec_bind {A B} (p : stf A) (f : A -> stf B) s :
  exec (p ≫= f) s = match exec p s with Ok (a, s') => exec (f a) s' | Err e => Err e end.
Proof. revert s. induction p as [| |key k IH|key v k IH|key k IH]; intros s; cbn in *; auto. Qed.

Lemma exec_Ok (P : Prop) {A} (p : stf A) Q s a s' : exec p s = Ok (a, s') -> wp P p Q s -> Q a s'.
Proof. unfold wp. by intros ->. Qed.

Lemma wp_bind (P : Prop) {A B} (p : stf A) (f : A -> stf B) Q s :
  wp P (p ≫= f) Q s <-> wp P p (fun a => wp P (f a) Q) s.
Proof. unfold wp. rewrite exec_bind. by destruct (exec p s) as [[a s']|]. Qed.

Lemma wp_ret (P : Prop) {A} (a : A) Q s : wp P (Ret a) Q s <-> Q a s.
Proof. done. Qed.

Lemma wp_read (P : Prop) key Q s : wp P (read key) Q s <-> Q (s !! key) s.
Proof. done. Qed.

Lemma wp_write (P : Prop) key v Q s : wp P (write key v) Q s <-> Q tt (<[key := v]> s).
Proof. done. Qed.

Lemma wp_delete (P : Prop) key Q s : wp P (delete_key key) Q s <-> Q tt (delete key s).
Proof. done. Qed.

Lemma wp_assert (P : Prop) b e Q s : wp P (assert b e) Q s <-> if b then Q tt s else P.
Proof. by destruct b. Qed.

Lemma wp_and_then (P : Prop) {E A B} (p : stf (result E A)) (k : A -> stf (result E B)) Q s :
  wp P (and_then p k) Q s <->
  wp P p (fun r => match r with Ok x => wp P (k x) Q | Err e => Q (Err e) end) s.
Proof.
  unfold and_then. rewrite wp_bind. unfold wp at 1 3. destruct (exec p s) as [[[]]|]; done.
Qed.

Lemma wp_mono (P : Prop) {A} (p : stf A) (Q R : A -> state -> Prop) s :
  wp P p Q s -> (forall a s', Q a s' -> R a s') -> wp P p R s.
Proof. unfold wp. destruct (exec p s) as [[a s']|]; auto. Qed.

(** Two results of one run, and the run itself when it only reads. *)
Lemma wp_and (P : Prop) {A} (p : stf A) (Q R : A -> state -> Prop) s :
  wp P p Q s -> wp P p R s -> wp P p (fun a s' => Q a s' /\ R a s') s.
Proof. unfold wp. by destruct (exec p s) as [[a s']|]. Qed.

Lemma wp_exec (P : Prop) {A} (p : stf A) s :
  wp P p (fun _ s' => s' = s) s -> wp P p (fun a s' => s' = s /\ exec p s = Ok (a, s)) s.
Proof. unfold wp. destruct (exec p s) as [[a s']|]; [|done]. by intros ->. Qed.

(** An invariant of the loop body, with the elements already seen. *)
Lemma wp_fold (P : Prop) {A S} (f : S -> A -> stf S) (I : list A -> S -> state -> Prop) l acc s :
  I [] acc s ->
  (forall done_ x acc s, x ∈ l -> I done_ acc s -> wp P (f acc x) (fun acc => I (done_ ++ [x]) acc) s) ->
  wp P (fold_stf f acc l) (fun acc => I l acc) s.
Proof.
  intros H0 Hstep.
  assert (forall todo done_ acc s, done_ ++ todo = l -> I done_ acc s ->
    wp P (fold_stf f acc todo) (fun acc => I l acc) s) as Hgen; [|by apply (Hgen l [])].
  induction todo as [|x todo IH]; cbn; intros done_ acc' s' Heq HI.
  - rewrite app_nil_r in Heq. by subst.
  - rewrite wp_bind. eapply wp_mono; [apply Hstep; [|exact HI]|].
    + rewrite <- Heq. set_solver.
    + intros a s'' HI'. eapply IH; [|exact HI']. by rewrite <- app_assoc.
Qed.

(** The abstract content of a write-back view. *)
Definition view (s : state) (slots : gmap bytes Slot) (k : bytes) : option bytes :=
  match slots !! k with Some slot => Slot_value slot | None => s !! k end.

(** Clean slots hold the backend's value. *)
Definition slots_clean (s : state) (slots : gmap bytes Slot) : Prop :=
  forall k v, slots !! k = Some (Clean v) -> s !! k = v.

Lemma flush_lookup `{TrieRoot} (l : list (bytes * Slot)) (b : LiveState) :
  NoDup l.*1 -> exists b', flush_slots b l = Ok b' /\ ls_pre_root b' = ls_pre_root b
    /\ forall k, ls_state b' !! k =
      match list_find (fun e => e.1 = k) l with
      | Some (_, (_, Written v)) => Some v
      | Some (_, (_, Deleted)) => None
      | _ => ls_state b !! k
      end.
Proof.
  revert b. induction l as [|[k' slot] l IH]; intros b Hnd; [by exists b|].
  cbn in Hnd. apply NoDup_cons in Hnd as [Hk' Hnd]. cbn [flush_slots].
  assert (exists b1, flush_slot b (k', slot) = Ok b1 /\ ls_pre_root b1 = ls_pre_root b /\ forall k, ls_state b1 !! k =
    if decide (k' = k) then match slot with Written v => Some v | Deleted => None | Clean _ => ls_state b !! k end else ls_state b !! k)
    as (b1 & -> & Hr1 & Hb1).
  { destruct slot as [v|v|]; cbn; eexists; (split; [done|]); (split; [done|]); intros k; cbn; destruct (decide (k' = k)) as [<-|Hne];
      rewrite ?lookup_insert_eq, ?lookup_delete_eq, ?lookup_insert_ne, ?lookup_delete_ne by done; done. }
  cbn [mbind result_bind]. destruct (IH b1 Hnd) as (b' & -> & Hr & Hb'). exists b'. split; [done|]. split; [congruence|].
  intros k. rewrite Hb'. cbn [list_find]. destruct (decide (k' = k)) as [->|Hne].
  - assert (list_find (fun e : bytes * Slot => e.1 = k) l = None) as ->.
    { apply list_find_None, Forall_forall. intros e Hin Heq. apply Hk'. rewrite <- Heq. by apply list_elem_of_fmap_2. }
    rewrite (decide_True _ _ (P := (k, slot).1 = k)) by done. rewrite Hb1, decide_True by done. by destruct slot.
  - rewrite (decide_False _ _ (P := (k', slot).1 = k)) by done. rewrite Hb1, decide_False by done.
    by destruct (list_find _ l) as [[i [k0 s0]]|].
Qed.

Lemma slot_entries_keys slots : NoDup (slot_entries slots).*1.
Proof.
  unfold slot_entries. assert (merge_sort key_le (map_to_list slots) ≡ₚ map_to_list slots) as -> by apply merge_sort_Permutation.
  apply NoDup_fst_map_to_list.
Qed.

Lemma elem_of_slot_entries slots key slot : (key, slot) ∈ slot_entries slots <-> slots !! key = Some slot.
Proof.
  unfold slot_entries. assert (merge_sort key_le (map_to_list slots) ≡ₚ map_to_list slots) as -> by apply merge_sort_Permutation.
  apply elem_of_map_to_list.
Qed.

Lemma finish_lookup `{TrieRoot} (b : BlockState LiveState) :
  slots_clean (ls_state (bs_inner b)) (bs_slots b) ->
  exists b', BlockState_finish b = Ok b' /\ ls_pre_root b' = ls_pre_root (bs_inner b)
    /\ forall k, ls_state b' !! k = view (ls_state (bs_inner b)) (bs_slots b) k.
Proof.
  intros Hclean. unfold BlockState_finish.
  destruct (flush_lookup (slot_entries (bs_slots b)) (bs_inner b) (slot_entries_keys _)) as (b' & -> & Hr & Hb').
  exists b'. split; [done|]. split; [done|]. intros k. rewrite Hb'. unfold view.
  destruct (list_find _ _) as [[i [k0 slot]]|] eqn:Hfind.
  - apply list_find_Some in Hfind as (Hi & Hk & _). cbn in Hk. subst k0.
    apply list_elem_of_lookup_2, elem_of_slot_entries in Hi. rewrite Hi. destruct slot; cbn; [by apply Hclean|done|done].
  - apply list_find_None in Hfind. destruct (bs_slots b !! k) as [slot|] eqn:Hslot; [|done].
    apply elem_of_slot_entries in Hslot. rewrite Forall_forall in Hfind. by destruct (Hfind _ Hslot).
Qed.

(** A run through the view follows the direct run. *)
Lemma run_block `{TrieRoot} {A} (p : stf A) (b : BlockState LiveState) (s : state) :
  slots_clean (ls_state (bs_inner b)) (bs_slots b) ->
  (forall k, view (ls_state (bs_inner b)) (bs_slots b) k = s !! k) ->
  match exec p s with
  | Err e => run p b = Err e
  | Ok (a, s') => exists b', run p b = Ok (a, b') /\ bs_inner b' = bs_inner b
      /\ slots_clean (ls_state (bs_inner b')) (bs_slots b')
      /\ (forall k, view (ls_state (bs_inner b')) (bs_slots b') k = s' !! k)
  end.
Proof.
  revert b s. induction p as [a|e|key k IH|key v k IH|key k IH]; intros b s Hclean Hview; cbn.
  - by exists b.
  - done.
  - pose proof (Hview key) as Hk. unfold view in Hk.
    destruct (bs_slots b !! key) as [slot|] eqn:Hslot; cbn.
    + rewrite Hk. by apply IH.
    + rewrite Hk. apply (IH _ {| bs_inner := bs_inner b; bs_slots := <[key := Clean (s !! key)]> (bs_slots b) |}); cbn.
      * intros k' v. destruct (decide (k' = key)) as [->|Hne];
          [rewrite lookup_insert_eq; by intros [= <-]|rewrite lookup_insert_ne by done; apply Hclean].
      * intros k'. unfold view in *. destruct (decide (k' = key)) as [->|Hne];
          [by rewrite lookup_insert_eq|by rewrite lookup_insert_ne].
  - apply (IH {| bs_inner := bs_inner b; bs_slots := <[key := Written v]> (bs_slots b) |}); cbn.
    + intros k' v'. destruct (decide (k' = key)) as [->|Hne];
        [by rewrite lookup_insert_eq|rewrite lookup_insert_ne by done; apply Hclean].
    + intros k'. unfold view in *. destruct (decide (k' = key)) as [->|Hne];
        [by rewrite !lookup_insert_eq|by rewrite !lookup_insert_ne].
  - apply (IH {| bs_inner := bs_inner b; bs_slots := <[key := Deleted]> (bs_slots b) |}); cbn.
    + intros k' v'. destruct (decide (k' = key)) as [->|Hne];
        [by rewrite lookup_insert_eq|rewrite lookup_insert_ne by done; apply Hclean].
    + intros k'. unfold view in *. destruct (decide (k' = key)) as [->|Hne];
        [by rewrite lookup_insert_eq, lookup_delete_eq|by rewrite lookup_insert_ne, lookup_delete_ne].
Qed.

Lemma run_live `{TrieRoot} {A} (p : stf A) (b : LiveState) :
  run p b = match exec p (ls_state b) with
            | Ok (a, s) => Ok (a, {| ls_pre_root := ls_pre_root b; ls_state := s |})
            | Err e => Err e
            end.
Proof. revert b. induction p as [a|e|key k IH|key v k IH|key k IH]; intros b; cbn; [by destruct b|auto..]; by rewrite IH. Qed.

(** The run through a fresh view, flushed, is the direct run. *)
Lemma run_view `{TrieRoot} {A} (p : stf A) (b : LiveState) :
  match exec p (ls_state b) with
  | Ok (a, s') => exists v, run p (BlockState_new b) = Ok (a, v)
      /\ BlockState_finish v = Ok {| ls_pre_root := ls_pre_root b; ls_state := s' |}
  | Err e => run p (BlockState_new b) = Err e
  end.
Proof.
  pose proof (run_block p (BlockState_new b) (ls_state b)) as Hrun.
  destruct (exec p (ls_state b)) as [[a s']|e]; [|by apply Hrun].
  destruct Hrun as (b' & -> & Hinner & Hclean & Hview); [done|by intros k|].
  exists b'. split; [done|]. destruct (finish_lookup b' Hclean) as ([r s] & -> & Hr & Hs). cbn in Hr, Hs. rewrite Hinner in Hr. cbn in Hr.
  subst r. do 2 f_equal. apply map_eq. intros k. by rewrite Hs, Hview.
Qed.

(* ------------------------------------------------------------------ *)
(** ** Properties *)

(** C17: executing a block through the write-back view and then flushing it is
    direct execution: for every program of reads, writes and deletes, the run
    through [BlockState] aborts exactly when the direct run does, with the same
    assertion, and otherwise returns the same value and leaves the same state
    content. *)
Theorem block_state_transparent `{TrieRoot} {A} (p : stf A) (b : LiveState) :
  match run p (BlockState_new b) with
  | Ok (a, view_) => exists b', BlockState_finish view_ = Ok b' /\ run p b = Ok (a, b')
  | Err e => run p b = Err e
  end.
Proof.
  pose proof (run_view p b) as Hrun. rewrite run_live. destruct (exec p (ls_state b)) as [[a s']|e]; [|by rewrite Hrun].
  destruct Hrun as (v & -> & ->). by eexists.
Qed.
