(* ===== verification/Witness.v ===== *)
(** * Host and Guest state

    The backends of crates/runtime-core/src/lib.rs over the state trie: the host's
    [TracingState], which executes a block on a copy of the live trie and records
    the keys it touches, the [StateWitness] it builds from them, and the Guest's
    [WitnessState], which executes the block again on the nodes of the witness. *)

From stdpp Require Import sorting.
From S2P Require Import Prelude External Primitives Bits TrieNode Trie TrieSpec TrieStore TrieWalk TrieMap TriePrune TrieKeys TriePartial Backend.

Section Witness.
Context `{Hasher}.

Definition EMPTY_STATE_ROOT : Hash := EMPTY_TRIE_ROOT.

(** ** The trie under a backend *)

(** [insert(key, value).expect(..)]. *)
Definition trie_write (key value : bytes) (trie : Trie) : result Panic Trie :=
  '(r, trie) ← map_err TriePanic (Trie_insert key value trie);
  match r with Ok _ => Ok trie | Err e => Err (TrieInsertFailed e) end.

Definition trie_delete (key : bytes) (trie : Trie) : result Panic Trie :=
  '(_, trie) ← map_err TriePanic (Trie_remove key trie);
  Ok trie.

(** ** The Guest *)

Record StateWitness := {
  sw_pre_state_root : Hash;
  sw_nodes : list (Hash * bytes);
  sw_values : list (Hash * bytes);
  sw_witnessed_keys : list bytes;
}.

Inductive WitnessError :=
| NodeHashMismatch (claimed : Hash)
| WitnessValueMismatch (claimed : Hash)
| PreRootMissing (claimed : Hash).

Record WitnessState := {
  ws_witnessed : gset bytes;
  ws_trie : Trie;
  ws_pre_root : Hash;
}.

(** The loops over the claimed hashes. *)
Fixpoint check_hashes (hash : bytes -> Hash) (mismatch : Hash -> WitnessError) (l : list (Hash * bytes)) : result WitnessError unit :=
  match l with
  | [] => Ok tt
  | (claimed, b) :: l => if bool_decide (hash b ≠ claimed) then Err (mismatch claimed) else check_hashes hash mismatch l
  end.

Definition WitnessState_new (witness : StateWitness) : result WitnessError WitnessState :=
  _ ← check_hashes hash_node NodeHashMismatch (sw_nodes witness);
  _ ← check_hashes hash_value WitnessValueMismatch (sw_values witness);
  if bool_decide (sw_pre_state_root witness ≠ EMPTY_STATE_ROOT)
     && negb (existsb (fun n => bool_decide (n.1 = sw_pre_state_root witness)) (sw_nodes witness))
  then Err (PreRootMissing (sw_pre_state_root witness))
  else Ok {| ws_witnessed := list_to_set (sw_witnessed_keys witness);
             ws_trie := Trie_from_persisted (sw_pre_state_root witness) (sw_nodes witness) (sw_values witness);
             ws_pre_root := sw_pre_state_root witness |}.

Definition WitnessState_read (key : bytes) (b : WitnessState) : result Panic (option bytes * WitnessState) :=
  if bool_decide (key ∈ ws_witnessed b) then
    v ← map_err TriePanic (Trie_get key (ws_trie b)); Ok (v, b)
  else Err UnwitnessedKey.

Definition WitnessState_write (key v : bytes) (b : WitnessState) : result Panic WitnessState :=
  trie ← trie_write key v (ws_trie b);
  Ok {| ws_witnessed := {[key]} ∪ ws_witnessed b; ws_trie := trie; ws_pre_root := ws_pre_root b |}.

Definition WitnessState_delete (key : bytes) (b : WitnessState) : result Panic WitnessState :=
  trie ← trie_delete key (ws_trie b);
  Ok {| ws_witnessed := {[key]} ∪ ws_witnessed b; ws_trie := trie; ws_pre_root := ws_pre_root b |}.

#[global] Instance witness_backend : StateBackend WitnessState := {|
  backend_read := WitnessState_read;
  backend_write := WitnessState_write;
  backend_delete := WitnessState_delete;
  pre_state_root := ws_pre_root;
  post_state_root b := tr_root (ws_trie b);
|}.

(** ** The host *)

(** A [BTreeMap] and a [BTreeSet] in the order of their keys. *)
Definition entry_le (x y : Hash * bytes) : Prop := bytes_le x.1 y.1.

#[local] Instance entry_le_dec x y : Decision (entry_le x y).
Proof. unfold entry_le. apply _. Defined.

Definition map_entries (m : gmap Hash bytes) : list (Hash * bytes) := merge_sort entry_le (map_to_list m).
Definition set_keys (keys : gset bytes) : list bytes := merge_sort bytes_le (elements keys).

Fixpoint collect_paths (live : Trie) (keys : list bytes) (out : gmap Hash bytes * gmap Hash bytes)
    : result TrieFault (gmap Hash bytes * gmap Hash bytes) :=
  match keys with
  | [] => Ok out
  | key :: keys => out ← collect_path_nodes live key out; collect_paths live keys out
  end.

(** [nodes.entry(pre_root).or_insert_with(..)]. *)
Definition with_root (live : Trie) (nodes : gmap Hash bytes) : gmap Hash bytes :=
  if bool_decide (tr_root live = EMPTY_TRIE_ROOT) then nodes
  else
    match tr_nodes live !! tr_root live, nodes !! tr_root live with
    | Some b, None => <[tr_root live := b]> nodes
    | _, _ => nodes
    end.

Definition witness_of (live : Trie) (accessed : gset bytes) : result TrieFault StateWitness :=
  '(nodes, values) ← collect_paths live (set_keys accessed) (∅, ∅);
  Ok {| sw_pre_state_root := tr_root live;
        sw_nodes := map_entries (with_root live nodes);
        sw_values := map_entries values;
        sw_witnessed_keys := set_keys accessed |}.

Record TracingState := {
  ts_live : Trie;
  ts_accessed : gset bytes;
  ts_pre_root : Hash;
  ts_scratch : option Trie;
}.

Definition TracingState_new (live : Trie) : TracingState :=
  {| ts_live := live; ts_accessed := ∅; ts_pre_root := tr_root live; ts_scratch := None |}.

(** [ensure_scratch], and the trie that reads see. *)
Definition ts_current (b : TracingState) : Trie := default (ts_live b) (ts_scratch b).

(** The scratch trie after a change of [key]. *)
Definition ts_commit (key : bytes) (trie : Trie) (b : TracingState) : TracingState :=
  {| ts_live := ts_live b; ts_accessed := {[key]} ∪ ts_accessed b; ts_pre_root := ts_pre_root b; ts_scratch := Some trie |}.

Definition TracingState_read (key : bytes) (b : TracingState) : result Panic (option bytes * TracingState) :=
  v ← map_err TriePanic (Trie_get key (ts_current b));
  Ok (v, {| ts_live := ts_live b; ts_accessed := {[key]} ∪ ts_accessed b; ts_pre_root := ts_pre_root b; ts_scratch := ts_scratch b |}).

Definition TracingState_write (key v : bytes) (b : TracingState) : result Panic TracingState :=
  trie ← trie_write key v (ts_current b); Ok (ts_commit key trie b).

Definition TracingState_delete (key : bytes) (b : TracingState) : result Panic TracingState :=
  trie ← trie_delete key (ts_current b); Ok (ts_commit key trie b).

#[global] Instance tracing_backend : StateBackend TracingState := {|
  backend_read := TracingState_read;
  backend_write := TracingState_write;
  backend_delete := TracingState_delete;
  pre_state_root := ts_pre_root;
  post_state_root b := match ts_scratch b with Some trie => tr_root trie | None => ts_pre_root b end;
|}.

Definition into_committed_and_witness (b : TracingState) : result TrieFault (Trie * StateWitness) :=
  witness ← witness_of (ts_live b) (ts_accessed b);
  Ok (ts_current b, witness).

End Witness.

#[local] Arguments WitnessState_read _ _ /.
#[local] Arguments WitnessState_write {_} _ _ _ /.
#[local] Arguments WitnessState_delete {_} _ _ /.
#[local] Arguments TracingState_read _ _ /.
#[local] Arguments TracingState_write {_} _ _ _ /.
#[local] Arguments TracingState_delete {_} _ _ /.

(* ------------------------------------------------------------------ *)
(** ** Runs through a write-back view

    What a run through [BlockState] does to its inner backend, for an inner backend
    of content [s0]: the value it returns, the slots it leaves, and the keys it reads
    from the inner backend. *)

Fixpoint block_trace {A} (p : stf A) (s0 : state) (slots : gmap bytes Slot) (reads : list bytes)
    : result Panic (A * (gmap bytes Slot * list bytes)) :=
  match p with
  | Ret a => Ok (a, (slots, reads))
  | Abort e => Err e
  | Read key k =>
      match slots !! key with
      | Some slot => block_trace (k (Slot_value slot)) s0 slots reads
      | None => block_trace (k (s0 !! key)) s0 (<[key := Clean (s0 !! key)]> slots) (reads ++ [key])
      end
  | Write key v k => block_trace k s0 (<[key := Written v]> slots) reads
  | Delete key k => block_trace k s0 (<[key := Deleted]> slots) reads
  end.

(** The keys a run from [s] touches. *)
Fixpoint touched {A} (p : stf A) (s : state) : list bytes :=
  match p with
  | Ret _ | Abort _ => []
  | Read key k => key :: touched (k (s !! key)) s
  | Write key v k => key :: touched k (<[key := v]> s)
  | Delete key k => key :: touched k (delete key s)
  end.

Definition viewed (s0 : state) (slots : gmap bytes Slot) (s : state) : Prop :=
  slots_clean s0 slots /\ forall k, view s0 slots k = s !! k.

Lemma viewed_read s0 slots s key : viewed s0 slots s -> slots !! key = None ->
  s !! key = s0 !! key /\ viewed s0 (<[key := Clean (s0 !! key)]> slots) s.
Proof.
  intros [Hc Hv] Hk. assert (s !! key = s0 !! key) as Hs by (rewrite <- Hv; unfold view; by rewrite Hk). split; [done|]. split.
  - intros k v. destruct (decide (key = k)) as [<-|Hne]; [rewrite lookup_insert_eq; by intros [= <-]|rewrite lookup_insert_ne by done; apply Hc].
  - intros k. specialize (Hv k). unfold view in *. destruct (decide (key = k)) as [<-|Hne];
      [by rewrite lookup_insert_eq, Hs|by rewrite lookup_insert_ne].
Qed.

Lemma viewed_slot s0 slots s key slot : viewed s0 slots s -> slots !! key = Some slot -> s !! key = Slot_value slot.
Proof. intros [_ Hv] Hk. rewrite <- Hv. unfold view. by rewrite Hk. Qed.

Lemma viewed_write s0 slots s key v : viewed s0 slots s -> viewed s0 (<[key := Written v]> slots) (<[key := v]> s).
Proof.
  intros [Hc Hv]. split.
  - intros k v'. destruct (decide (key = k)) as [<-|Hne]; [by rewrite lookup_insert_eq|rewrite lookup_insert_ne by done; apply Hc].
  - intros k. specialize (Hv k). unfold view in *. destruct (decide (key = k)) as [<-|Hne];
      [by rewrite !lookup_insert_eq|by rewrite !lookup_insert_ne].
Qed.

Lemma viewed_delete s0 slots s key : viewed s0 slots s -> viewed s0 (<[key := Deleted]> slots) (delete key s).
Proof.
  intros [Hc Hv]. split.
  - intros k v'. destruct (decide (key = k)) as [<-|Hne]; [by rewrite lookup_insert_eq|rewrite lookup_insert_ne by done; apply Hc].
  - intros k. specialize (Hv k). unfold view in *. destruct (decide (key = k)) as [<-|Hne];
      [by rewrite lookup_insert_eq, lookup_delete_eq|by rewrite lookup_insert_ne, lookup_delete_ne].
Qed.

(** The trace is the direct run, seen through the slots. *)
Lemma trace_exec {A} (p : stf A) s0 slots reads s : viewed s0 slots s ->
  match exec p s with
  | Err e => block_trace p s0 slots reads = Err e
  | Ok (a, s') => exists slots' reads', block_trace p s0 slots reads = Ok (a, (slots', reads')) /\ viewed s0 slots' s'
  end.
Proof.
  revert slots reads s. induction p as [a|e|key k IH|key v k IH|key k IH]; intros slots reads s Hv; cbn [exec block_trace].
  - by exists slots, reads.
  - done.
  - destruct (slots !! key) as [slot|] eqn:Hk.
    + rewrite (viewed_slot _ _ _ _ _ Hv Hk). by apply IH.
    + destruct (viewed_read _ _ _ _ Hv Hk) as [-> Hv']. by apply IH.
  - by apply IH, viewed_write.
  - by apply IH, viewed_delete.
Qed.

(** Every touched key has a slot, and a clean slot was read. *)
Lemma trace_touched {A} (p : stf A) s0 slots reads s a slots' reads' : viewed s0 slots s ->
  block_trace p s0 slots reads = Ok (a, (slots', reads')) ->
  (forall key v, slots !! key = Some (Clean v) -> key ∈ reads) -> (forall key, key ∈ reads -> is_Some (slots !! key)) ->
  (forall key, is_Some (slots' !! key) <-> is_Some (slots !! key) \/ key ∈ touched p s)
  /\ (forall key v, slots' !! key = Some (Clean v) -> key ∈ reads')
  /\ (forall key, key ∈ reads' -> is_Some (slots' !! key)).
Proof.
  assert (forall (sl : gmap bytes Slot) key slot k, is_Some (<[key := slot]> sl !! k) <-> k = key \/ is_Some (sl !! k)) as Hins.
  { intros sl key slot k. destruct (decide (key = k)) as [<-|Hne]; [rewrite lookup_insert_eq|rewrite lookup_insert_ne by done]; naive_solver. }
  revert slots reads s. induction p as [x|e|key k IH|key v k IH|key k IH]; intros slots reads s Hv; cbn [block_trace touched].
  - intros [= <- <- <-] Hc Hr. split_and!; [|done..]. intros key. set_solver.
  - done.
  - intros Ht Hc Hr. destruct (slots !! key) as [slot|] eqn:Hk.
    + rewrite <- (viewed_slot _ _ _ _ _ Hv Hk) in Ht. destruct (IH _ _ _ _ Hv Ht Hc Hr) as (H1 & H2). split; [|done].
      intros k'. rewrite H1. set_solver.
    + destruct (viewed_read _ _ _ _ Hv Hk) as [Hs Hv']. rewrite <- Hs in Ht at 1. destruct (IH _ _ _ _ Hv' Ht) as (H1 & H2).
      * intros k' v'. rewrite elem_of_app, list_elem_of_singleton. destruct (decide (key = k')) as [<-|Hne]; [by right|].
        rewrite lookup_insert_ne by done. left. by eapply Hc.
      * intros k' [Hin| ->%list_elem_of_singleton]%elem_of_app; apply Hins; [right; by apply Hr|by left].
      * split; [|done]. intros k'. rewrite H1, Hins. set_solver.
  - intros Ht Hc Hr. destruct (IH _ _ _ (viewed_write _ _ _ _ _ Hv) Ht) as (H1 & H2).
    + intros k' v'. destruct (decide (key = k')) as [<-|Hne]; [by rewrite lookup_insert_eq|rewrite lookup_insert_ne by done; apply Hc].
    + intros k' Hin. apply Hins. right. by apply Hr.
    + split; [|done]. intros k'. rewrite H1, Hins. set_solver.
  - intros Ht Hc Hr. destruct (IH _ _ _ (viewed_delete _ _ _ _ Hv) Ht) as (H1 & H2).
    + intros k' v'. destruct (decide (key = k')) as [<-|Hne]; [by rewrite lookup_insert_eq|rewrite lookup_insert_ne by done; apply Hc].
    + intros k' Hin. apply Hins. right. by apply Hr.
    + split; [|done]. intros k'. rewrite H1, Hins. set_solver.
Qed.

(** A run on an inner backend whose reads return the content. *)
Lemma run_trace `{StateBackend B} {A} (p : stf A) (R : list bytes -> B -> Prop) (K : bytes -> Prop) s0 s (c : BlockState B) reads :
  (forall ks key b, R ks b -> K key -> exists b', backend_read key b = Ok (s0 !! key, b') /\ R (ks ++ [key]) b') ->
  viewed s0 (bs_slots c) s -> R reads (bs_inner c) -> (forall key, key ∈ touched p s -> K key) ->
  match block_trace p s0 (bs_slots c) reads with
  | Err e => run p c = Err e
  | Ok (a, (slots', reads')) => exists b', run p c = Ok (a, {| bs_inner := b'; bs_slots := slots' |}) /\ R reads' b'
  end.
Proof.
  intros Hread. revert c reads s. induction p as [a|e|key k IH|key v k IH|key k IH]; intros c reads s Hv HR HK; cbn [block_trace run touched] in *.
  - exists (bs_inner c). by destruct c.
  - done.
  - cbn [backend_read block_backend]. destruct (bs_slots c !! key) as [slot|] eqn:Hk; cbn [mbind result_bind].
    + rewrite (viewed_slot _ _ _ _ _ Hv Hk) in HK. eapply IH; [done|done|]. intros key' Hin. apply HK. by right.
    + destruct (viewed_read _ _ _ _ Hv Hk) as [Hs Hv']. destruct (Hread _ key _ HR (HK key ltac:(by left))) as (b' & -> & HR').
      cbn [mbind result_bind]. eapply (IH _ {| bs_inner := b'; bs_slots := _ |}); [exact Hv'|exact HR'|].
      rewrite Hs in HK. intros key' Hin. apply HK. by right.
  - eapply (IH {| bs_inner := bs_inner c; bs_slots := _ |}); [by apply viewed_write|done|]. intros key' Hin. apply HK. by right.
  - eapply (IH {| bs_inner := bs_inner c; bs_slots := _ |}); [by apply viewed_delete|done|]. intros key' Hin. apply HK. by right.
Qed.

(** A run that ends on an inner backend whose reads return nothing but the content. *)
Lemma run_trace_inv `{StateBackend B} {A} (p : stf A) (R : B -> Prop) (K : bytes -> Prop) s0 s (c c' : BlockState B) reads a :
  (forall key b v b', R b -> K key -> backend_read key b = Ok (v, b') -> v = s0 !! key /\ R b') ->
  viewed s0 (bs_slots c) s -> R (bs_inner c) -> (forall key, key ∈ touched p s -> K key) -> run p c = Ok (a, c') ->
  R (bs_inner c') /\ exists reads', block_trace p s0 (bs_slots c) reads = Ok (a, (bs_slots c', reads')).
Proof.
  intros Hread. revert c reads s. induction p as [x|e|key k IH|key v k IH|key k IH]; intros c reads s Hv HR HK; cbn [block_trace run touched] in *.
  - intros [= -> ->]. split; [done|by eexists].
  - done.
  - cbn [backend_read block_backend]. destruct (bs_slots c !! key) as [slot|] eqn:Hk; cbn [mbind result_bind].
    + rewrite (viewed_slot _ _ _ _ _ Hv Hk) in HK. eapply IH; [done|done|]. intros key' Hin. apply HK. by right.
    + destruct (viewed_read _ _ _ _ Hv Hk) as [Hs Hv']. destruct (backend_read key (bs_inner c)) as [[v b']|] eqn:Hb; [|done].
      destruct (Hread _ _ _ _ HR (HK key ltac:(by left)) Hb) as [-> HR'].
      cbn [mbind result_bind]. eapply (IH _ {| bs_inner := b'; bs_slots := _ |}); [exact Hv'|exact HR'|].
      rewrite Hs in HK. intros key' Hin. apply HK. by right.
  - eapply (IH {| bs_inner := bs_inner c; bs_slots := _ |}); [by apply viewed_write|done|]. intros key' Hin. apply HK. by right.
  - eapply (IH {| bs_inner := bs_inner c; bs_slots := _ |}); [by apply viewed_delete|done|]. intros key' Hin. apply HK. by right.
Qed.

(* ------------------------------------------------------------------ *)
(** ** Flushing a view into a trie *)

Definition slot_op (entry : bytes * Slot) : option trie_op :=
  match entry.2 with
  | Clean _ => None
  | Written v => Some (OpInsert entry.1 v)
  | Deleted => Some (OpRemove entry.1)
  end.

Definition flush_ops (entries : list (bytes * Slot)) : list trie_op := omap slot_op entries.

Lemma flush_ops_elem l op : op ∈ flush_ops l -> exists slot, (op_key op, slot) ∈ l /\ is_clean slot = false.
Proof.
  intros ([key slot] & Hin & Hop)%list_elem_of_omap. destruct slot as [v|v|]; cbn in Hop; [done|..]; injection Hop as <-; eauto.
Qed.

Lemma flush_ops_dirty l key slot : (key, slot) ∈ l -> is_clean slot = false -> key ∈ op_key <$> flush_ops l.
Proof.
  intros Hin Hd. apply list_elem_of_fmap. destruct slot as [v|v|]; [done|exists (OpInsert key v)|exists (OpRemove key)];
    (split; [done|]); apply list_elem_of_omap; by eexists.
Qed.

Lemma flush_ops_NoDup l : NoDup l.*1 -> NoDup (op_key <$> flush_ops l).
Proof.
  induction l as [|[key slot] l IH]; cbn; [constructor|]. intros [Hk Hnd]%NoDup_cons. specialize (IH Hnd).
  assert (key ∉ op_key <$> flush_ops l) as Hkey.
  { intros (op & -> & Hop)%list_elem_of_fmap. apply flush_ops_elem in Hop as (slot' & Hin & _). apply Hk. apply list_elem_of_fmap. by exists (op_key op, slot'). }
  destruct slot; cbn; [done|apply NoDup_cons; done..].
Qed.

Lemma flush_map `{TrieRoot} l (b : LiveState) :
  flush_slots b l = Ok {| ls_pre_root := ls_pre_root b; ls_state := (map_ops (flush_ops l) (ls_state b)).2 |}.
Proof.
  revert b. induction l as [|[key slot] l IH]; intros b; [by destruct b|].
  destruct slot as [v|v|]; cbn [flush_slots flush_slot flush_ops omap list_omap slot_op fst snd mbind result_bind backend_write backend_delete live_backend];
    rewrite IH; cbn [map_ops map_op ls_pre_root ls_state]; [done|..];
    unfold flush_ops; (destruct (map_ops _ _) as [answers s] eqn:Hm; try rewrite Hm; done).
Qed.

(** The content a flush leaves. *)
Lemma flush_content s0 slots s : viewed s0 slots s -> (map_ops (flush_ops (slot_entries slots)) s0).2 = s.
Proof.
  intros [Hc Hv]. set (R := (fun _ => []) : TrieRoot). set (b := {| ls_pre_root := []; ls_state := s0 |}).
  destruct (@finish_lookup R {| bs_inner := b; bs_slots := slots |}) as (b' & Hb' & _ & Hl); [done|].
  unfold BlockState_finish in Hb'. rewrite flush_map in Hb'. injection Hb' as <-. cbn in Hl.
  apply map_eq. intros k. by rewrite Hl, Hv.
Qed.

Section Replay.
Context `{Hasher} `{!HasherLaws}.

Definition trie_apply (op : trie_op) (trie : Trie) : result Panic Trie :=
  match op with OpInsert key v => trie_write key v trie | OpRemove key => trie_delete key trie end.

Fixpoint trie_ops (ops : list trie_op) (trie : Trie) : result Panic Trie :=
  match ops with
  | [] => Ok trie
  | op :: ops => trie ← trie_apply op trie; trie_ops ops trie
  end.

Lemma trie_ops_run ops tr answers tr' : run_ops ops tr = Ok (answers, tr') -> (forall r, Inserted r ∈ answers -> r = Ok tt) ->
  trie_ops ops tr = Ok tr'.
Proof.
  revert tr answers. induction ops as [|op ops IH]; intros tr answers; cbn [run_ops trie_ops]; [by intros [= _ ->]|].
  destruct (run_op op tr) as [[a tr1]|] eqn:Hop; [|done]. cbn [mbind result_bind].
  destruct (run_ops ops tr1) as [[as_ tr2]|] eqn:Hops; [|done]. cbn [mbind result_bind]. intros [= <- <-] Hall.
  assert (trie_apply op tr = Ok tr1) as ->.
  { destruct op as [key v|key]; cbn in Hop |- *; unfold trie_write, trie_delete.
    - destruct (Trie_insert key v tr) as [[r tr3]|]; [|done]. cbn in Hop |- *. injection Hop as <- <-. rewrite (Hall r) by (by left). done.
    - destruct (Trie_remove key tr) as [[v tr3]|]; [|done]. cbn in Hop |- *. by injection Hop as <- <-. }
  cbn [mbind result_bind]. eapply IH; [exact Hops|]. intros r Hin. apply Hall. by right.
Qed.

Lemma map_ops_answers ops s r : Inserted r ∈ (map_ops ops s).1 -> r = Ok tt.
Proof.
  revert s. induction ops as [|op ops IH]; intros s; cbn [map_ops]; [by intros ?%not_elem_of_nil|].
  destruct (map_op op s) as [a s1] eqn:Hop. specialize (IH s1). destruct (map_ops ops s1) as [answers s2]. cbn in *.
  intros [Heq|Hin]%elem_of_cons; [|by apply IH]. destruct op; cbn in Hop; injection Hop as <- <-; congruence.
Qed.

(** What a flush does to the host's state. *)
Definition flushed (b : TracingState) (l : list (bytes * Slot)) (keys : list bytes) (r : result Panic Trie) : Prop :=
  match r with
  | Ok tr => exists b', flush_slots b l = Ok b' /\ ts_current b' = tr /\ ts_live b' = ts_live b /\ ts_pre_root b' = ts_pre_root b
      /\ (forall key, key ∈ ts_accessed b' <-> key ∈ ts_accessed b \/ key ∈ keys)
  | Err e => flush_slots b l = Err e
  end.

Lemma flush_step key slot tr l keys r (b : TracingState) : flush_slot b (key, slot) = Ok (ts_commit key tr b) ->
  flushed (ts_commit key tr b) l keys r -> flushed b ((key, slot) :: l) (key :: keys) r.
Proof.
  unfold flushed. cbn [flush_slots]. intros ->. cbn [mbind result_bind]. destruct r as [tr'|e]; [|done].
  intros (b' & Hf & Hc & Hl & Hp & Ha). exists b'. split_and!; [done..|]. intros k. rewrite Ha. cbn. set_solver.
Qed.

Lemma flush_tracing l (b : TracingState) : flushed b l (op_key <$> flush_ops l) (trie_ops (flush_ops l) (ts_current b)).
Proof.
  revert b. induction l as [|[key slot] l IH]; intros b; [exists b; set_solver|].
  destruct slot as [v|v|]; [apply IH|..]; cbn [flush_ops omap list_omap slot_op fst snd trie_ops trie_apply fmap list_fmap op_key].
  - destruct (trie_write key v (ts_current b)) as [tr|e] eqn:Hw; cbn [mbind result_bind].
    + apply (flush_step key (Written v) tr); [cbn; by rewrite Hw|apply (IH (ts_commit key tr b))].
    + cbn. by rewrite Hw.
  - destruct (trie_delete key (ts_current b)) as [tr|e] eqn:Hw; cbn [mbind result_bind].
    + apply (flush_step key Deleted tr); [cbn; by rewrite Hw|apply (IH (ts_commit key tr b))].
    + cbn. by rewrite Hw.
Qed.

Lemma flush_witness l (g : WitnessState) :
  match trie_ops (flush_ops l) (ws_trie g) with
  | Ok tr => exists g', flush_slots g l = Ok g' /\ ws_trie g' = tr /\ ws_pre_root g' = ws_pre_root g
  | Err e => flush_slots g l = Err e
  end.
Proof.
  revert g. induction l as [|[key slot] l IH]; intros g; [by exists g|].
  destruct slot as [v|v|]; cbn [flush_slots flush_slot flush_ops omap list_omap slot_op fst snd mbind result_bind trie_ops trie_apply].
  - apply IH.
  - cbn [backend_write witness_backend]. unfold WitnessState_write. destruct (trie_write key v (ws_trie g)) as [tr|e]; cbn [mbind result_bind]; [|done]. apply (IH {| ws_trie := tr |}).
  - cbn [backend_delete witness_backend]. unfold WitnessState_delete. destruct (trie_delete key (ws_trie g)) as [tr|e]; cbn [mbind result_bind]; [|done]. apply (IH {| ws_trie := tr |}).
Qed.

Lemma tracing_root (b : TracingState) : ts_pre_root b = tr_root (ts_live b) -> post_state_root b = tr_root (ts_current b).
Proof. intros Hp. cbn. unfold ts_current. by destruct (ts_scratch b). Qed.

(** *** Content addressing *)

(** Every entry is filed under its hash. *)
Definition intact (tr : Trie) : Prop :=
  map_Forall (fun h l => hash_node l = h) (tr_nodes tr) /\ map_Forall (fun h l => hash_value l = h) (tr_values tr).

#[global] Instance intact_dec tr : Decision (intact tr).
Proof. unfold intact. apply _. Defined.

Lemma run_intact {A} (p : prog A) tr a tr' : run_trie p tr = Ok (a, tr') -> intact tr -> intact tr'.
Proof.
  revert tr. induction p as [x|e|hash k IH|n k IH]; intros tr; cbn [run_trie]; [by intros [= _ <-]|done|..].
  - destruct (fetch_node (tr_nodes tr) hash); [apply IH|done].
  - intros Hrun [Hn Hv]. apply IH in Hrun; [done|]. split; [|done]. by apply map_Forall_insert_2.
Qed.

Lemma op_intact op tr a tr' : run_op op tr = Ok (a, tr') -> intact tr -> intact tr'.
Proof.
  destruct op as [key l|key]; cbn [run_op].
  - destruct (Trie_insert key l tr) as [[r tr1]|] eqn:Hi; [|done]. intros [= _ ->] [Hn Hv].
    apply insert_inv in Hi as (path & r0 & tr2 & _ & Hrun & Heq). apply run_intact in Hrun; [|split; [done|by apply map_Forall_insert_2]].
    destruct r0; by injection Heq as _ ->.
  - destruct (Trie_remove key tr) as [[r tr1]|] eqn:Hi; [|done]. intros [= _ ->] Hin.
    apply remove_inv in Hi as (path & root & x & tr2 & _ & Hrun & ->). by apply run_intact in Hrun.
Qed.

Lemma ops_intact ops tr answers tr' : run_ops ops tr = Ok (answers, tr') -> intact tr -> intact tr'.
Proof.
  revert tr answers. induction ops as [|op ops IH]; intros tr answers; cbn [run_ops]; [by intros [= _ <-]|].
  destruct (run_op op tr) as [[a tr1]|] eqn:Hop; [|done]. cbn [mbind result_bind].
  destruct (run_ops ops tr1) as [[as_ tr2]|] eqn:Hops; [|done]. intros [= _ <-] Hin. eapply IH; [done|]. by eapply op_intact.
Qed.

(** *** The witness of a set of keys *)

Lemma map_entries_elem m h l : (h, l) ∈ map_entries m <-> m !! h = Some l.
Proof.
  unfold map_entries. assert (merge_sort entry_le (map_to_list m) ≡ₚ map_to_list m) as -> by apply merge_sort_Permutation.
  apply elem_of_map_to_list.
Qed.

Lemma collect_map_lookup (l : list (Hash * bytes)) h x : NoDup l.*1 -> collect_map l !! h = Some x <-> (h, x) ∈ l.
Proof.
  induction l as [|[k y] l IH] using rev_ind; intros Hnd; [split; [done|set_solver]|]. rewrite collect_map_snoc.
  rewrite fmap_app in Hnd. apply NoDup_app in Hnd as (Hnd & Hk & _). specialize (IH Hnd). cbn in Hk.
  rewrite elem_of_app, list_elem_of_singleton. destruct (decide (k = h)) as [->|Hne].
  - rewrite lookup_insert_eq. split; [intros [= ->]; by right|]. intros [Hin|[= ->]]; [|done].
    exfalso. apply (Hk h); [apply list_elem_of_fmap; by exists (h, x)|by left].
  - rewrite lookup_insert_ne by done. rewrite IH. split; [by left|]. by intros [|[= -> _]].
Qed.

Lemma collect_entries m : collect_map (map_entries m) = m.
Proof.
  apply map_eq. intros h. apply option_eq. intros x. rewrite collect_map_lookup; [apply map_entries_elem|].
  unfold map_entries. assert (merge_sort entry_le (map_to_list m) ≡ₚ map_to_list m) as -> by apply merge_sort_Permutation.
  apply NoDup_fst_map_to_list.
Qed.

Lemma set_keys_elem keys key : key ∈ set_keys keys <-> key ∈ keys.
Proof.
  unfold set_keys. assert (merge_sort bytes_le (elements keys) ≡ₚ elements keys) as -> by apply merge_sort_Permutation. apply elem_of_elements.
Qed.

Lemma check_hashes_entries hash mismatch m : map_Forall (fun h l => hash l = h) m -> check_hashes hash mismatch (map_entries m) = Ok tt.
Proof.
  intros Hm. assert (forall h l, (h, l) ∈ map_entries m -> hash l = h) as Hall by (intros h l Hin%map_entries_elem; by apply (Hm _ _ Hin)).
  induction (map_entries m) as [|[h l] k IH]; [done|]. cbn. rewrite bool_decide_false by (intros Hne; apply Hne, Hall; by left).
  apply IH. intros h' l' Hin. apply Hall. by right.
Qed.

(** What the collected entries hold for a key. *)
Record collects (live : Trie) (t : option tree) (s : content) (out : gmap Hash bytes * gmap Hash bytes) (key : bytes) : Prop := {
  cs_cover : forall t0, t = Some t0 -> cover (has out.1) t0 (key_bits key);
  cs_value : forall l, s !! key = Some l -> out.2 !! hash_value l = Some l;
}.

Lemma collects_mono live t s out out' key : collected live out out' -> collects live t s out key -> collects live t s out' key.
Proof.
  intros Hcol [Hc Hv]. constructor.
  - intros t0 Ht. eapply cover_mono, Hc, Ht. intros u. apply has_mono, Hcol.
  - intros l Hl. eapply lookup_weaken; [by apply Hv|apply Hcol].
Qed.

Lemma collect_path_spec live t s key out : models live t s -> key_ok key -> out.1 ⊆ tr_nodes live -> out.2 ⊆ tr_values live ->
  exists out', collect_path_nodes live key out = Ok out' /\ collected live out out' /\ collects live t s out' key.
Proof.
  intros Hm Hk Hn Hv. destruct (for_key_path key Hk) as (Hpath & Hw & Hfrom). unfold collect_path_nodes. rewrite Hpath. cbn [in_range ok_or mbind result_bind].
  pose proof (md_rooted _ _ _ Hm) as Hro. rewrite (ro_root _ _ _ Hro). pose proof (holds_lookup _ _ key (ro_holds _ _ _ Hro) Hk) as Hl.
  destruct t as [t|]; cbn [root_hash olookup mbind option_bind] in *.
  - pose proof (ro_shaped _ _ _ Hro t eq_refl) as Hs.
    destruct (collect_walk_spec live (path_fuel (key_path key)) t (key_path key) 0 out) as (out' & -> & Hcol & Hcov & Hval);
      [done|lia|done|apply Hs|unfold path_fuel; lia|by apply Hm|done|done|]. rewrite Hfrom in Hcov, Hval.
    exists out'. split_and!; [done..|]. constructor; [by intros t0 [= <-]|]. intros l Hsl. rewrite Hsl in Hl.
    rewrite (Hval _ Hl). by apply (md_values _ _ _ Hm key).
  - exists out. split_and!; [done|by apply collected_refl|]. constructor; [done|]. intros l Hsl. by rewrite Hsl in Hl.
Qed.

Lemma collect_paths_spec live t s keys out : models live t s -> Forall key_ok keys -> out.1 ⊆ tr_nodes live -> out.2 ⊆ tr_values live ->
  exists out', collect_paths live keys out = Ok out' /\ collected live out out' /\ Forall (collects live t s out') keys.
Proof.
  intros Hm. revert out. induction keys as [|key keys IH]; intros out Hk Hn Hv; [exists out; split_and!; [done|by apply collected_refl|constructor]|].
  apply Forall_cons in Hk as [Hkey Hk]. destruct (collect_path_spec live t s key out Hm Hkey Hn Hv) as (out1 & Hrun & Hcol1 & Hc1).
  cbn [collect_paths]. rewrite Hrun. cbn [mbind result_bind]. destruct (IH out1 Hk) as (out2 & -> & Hcol2 & Hall); [apply Hcol1..|].
  exists out2. split_and!; [done|by eapply collected_trans|]. constructor; [by eapply collects_mono|done].
Qed.

Lemma with_root_sub live nodes : nodes ⊆ tr_nodes live -> nodes ⊆ with_root live nodes /\ with_root live nodes ⊆ tr_nodes live.
Proof.
  intros Hn. unfold with_root. case_bool_decide; [done|]. destruct (tr_nodes live !! tr_root live) as [b|] eqn:Hb; [|done].
  destruct (nodes !! tr_root live) eqn:Hr; [done|]. split; [by apply insert_subseteq|by apply insert_subseteq_l].
Qed.

Lemma with_root_here live t s nodes : models live t s -> nodes ⊆ tr_nodes live -> tr_root live <> ZERO_HASH ->
  is_Some (with_root live nodes !! tr_root live).
Proof.
  intros Hm Hn Hz. unfold with_root. rewrite bool_decide_false by done. pose proof (ro_root _ _ _ (md_rooted _ _ _ Hm)) as Hroot.
  destruct t as [t|]; [|done]. destruct (everywhere_root _ _ (md_nodes _ _ _ Hm t eq_refl)) as [Hb _].
  cbn in Hroot. rewrite Hroot, Hb. destruct (nodes !! tree_hash t) eqn:Ht; [by rewrite Ht|rewrite lookup_insert_eq; by eexists].
Qed.

(** The Guest's state, from the host's witness. *)
Record guest_of (live : Trie) (t : option tree) (s : content) (accessed : gset bytes) (g : WitnessState) : Prop := {
  gu_witnessed : forall key, key ∈ ws_witnessed g <-> key ∈ accessed;
  gu_pre_root : ws_pre_root g = tr_root live;
  gu_trie : replays live (ws_trie g) t s;
  gu_ready : forall key, key ∈ accessed -> ready (ws_trie g) t key;
  gu_get : forall key, key ∈ accessed -> Trie_get key (ws_trie g) = Ok (s !! key);
}.

Lemma witness_accepted root nodes values keys : map_Forall (fun h l => hash_node l = h) nodes -> map_Forall (fun h l => hash_value l = h) values ->
  root = ZERO_HASH \/ is_Some (nodes !! root) ->
  WitnessState_new {| sw_pre_state_root := root; sw_nodes := map_entries nodes; sw_values := map_entries values; sw_witnessed_keys := keys |}
  = Ok {| ws_witnessed := list_to_set keys; ws_trie := Trie_from_persisted root (map_entries nodes) (map_entries values); ws_pre_root := root |}.
Proof.
  intros Hn Hv Hroot. unfold WitnessState_new. cbn [sw_nodes sw_values sw_pre_state_root sw_witnessed_keys].
  rewrite !check_hashes_entries by done. cbn [mbind result_bind].
  assert (bool_decide (root ≠ EMPTY_STATE_ROOT) && negb (existsb (fun n => bool_decide (n.1 = root)) (map_entries nodes)) = false) as ->; [|done].
  destruct Hroot as [->|[b Hb]]; [by rewrite bool_decide_false by (by intros [])|]. apply andb_false_iff. right.
  apply negb_false_iff, existsb_exists. exists (root, b). split; [by apply list_elem_of_In, map_entries_elem|by apply bool_decide_eq_true].
Qed.

Lemma witness_guest live t s accessed : models live t s -> intact live -> (forall key, key ∈ accessed -> key_ok key) ->
  exists w g, witness_of live accessed = Ok w /\ WitnessState_new w = Ok g /\ guest_of live t s accessed g.
Proof.
  intros Hm [Hin Hiv] Hk. pose proof (md_rooted _ _ _ Hm) as Hro.
  destruct (collect_paths_spec live t s (set_keys accessed) (∅, ∅) Hm) as ([nodes values] & Hrun & Hcol & Hall);
    [apply Forall_forall; intros key Hkey%set_keys_elem; by apply Hk|apply map_empty_subseteq..|].
  pose proof (cl_trie_nodes _ _ _ Hcol) as Hn. pose proof (cl_trie_values _ _ _ Hcol) as Hv. cbn in Hn, Hv.
  destruct (with_root_sub live nodes Hn) as [Hn1 Hn2].
  unfold witness_of. rewrite Hrun. cbn [mbind result_bind]. eexists _, _. split; [done|]. split.
  { apply witness_accepted; [intros h l Hl; apply (Hin h l); by eapply lookup_weaken|intros h l Hl; apply (Hiv h l); by eapply lookup_weaken|].
    destruct (decide (tr_root live = ZERO_HASH)); [by left|right; by eapply with_root_here]. }
  set (g := Trie_from_persisted (tr_root live) (map_entries (with_root live nodes)) (map_entries values)).
  assert (tr_nodes g = with_root live nodes /\ tr_values g = values) as [Hgn Hgv] by (split; apply collect_entries).
  assert (rooted g t s) as Hrg by (constructor; [apply Hro|apply Hro|apply Hro]).
  assert (forall key, key ∈ accessed -> collects live t s (nodes, values) key) as Hcs.
  { intros key Hkey. rewrite Forall_forall in Hall. apply Hall. by apply set_keys_elem. }
  assert (forall key, key ∈ accessed -> ready g t key) as Hready.
  { intros key Hkey t0 Ht0. rewrite Hgn. pose proof (cs_cover _ _ _ _ _ (Hcs key Hkey) t0 Ht0) as Hc.
    apply (cover_mono _ (has (with_root live nodes))) in Hc; [|intros u; by apply has_mono]. split; [by apply cover_reach|done]. }
  constructor; cbn [ws_witnessed ws_pre_root ws_trie]; fold g.
  - intros key. rewrite elem_of_list_to_set. apply set_keys_elem.
  - done.
  - constructor; [done|done|by rewrite Hgn|by rewrite Hgv].
  - done.
  - intros key Hkey. apply (get_spec g t s key Hrg); [by apply Hk|intros t0 Ht0; by apply Hready|].
    intros l Hl. rewrite Hgv. apply (cs_value _ _ _ _ _ (Hcs key Hkey) l Hl).
Qed.

(** ** Executing on the host and on the Guest *)

(** A program through a fresh view, flushed. *)
Definition execute `{StateBackend B} {A} (p : stf A) (b : B) : result Panic (A * B) :=
  '(a, c) ← run p (BlockState_new b);
  b ← BlockState_finish c;
  Ok (a, b).

(** The changes a run leaves in its slots. *)
Definition block_ops {A} (p : stf A) (s : state) : list trie_op :=
  match block_trace p s ∅ [] with Ok (_, (slots, _)) => flush_ops (slot_entries slots) | Err _ => [] end.

Lemma viewed_start s : viewed s ∅ s.
Proof. split; [by intros k v|by intros k]. Qed.

Lemma block_ops_keys {A} (p : stf A) s op : op ∈ block_ops p s -> op_key op ∈ touched p s.
Proof.
  unfold block_ops. destruct (block_trace p s ∅ []) as [[a [slots reads]]|] eqn:Ht; [|by intros ?%not_elem_of_nil].
  intros (slot & Hin & _)%flush_ops_elem. apply elem_of_slot_entries in Hin.
  destruct (trace_touched p s ∅ [] s a slots reads (viewed_start s) Ht) as (Hd & _); [done|set_solver|].
  destruct (proj1 (Hd (op_key op))) as [[x Hx]|]; [by exists slot|done|done].
Qed.

Lemma block_ops_NoDup {A} (p : stf A) s : NoDup (op_key <$> block_ops p s).
Proof.
  unfold block_ops. destruct (block_trace p s ∅ []) as [[a [slots reads]]|]; [|constructor]. apply flush_ops_NoDup, slot_entries_keys.
Qed.

(** The part of a run that touches the inner backend, for both sides. *)
Lemma execute_trace `{StateBackend B} {A} (p : stf A) (R : list bytes -> B -> Prop) s (b : B) :
  (forall ks key b, R ks b -> key ∈ touched p s -> exists b', backend_read key b = Ok (s !! key, b') /\ R (ks ++ [key]) b') -> R [] b ->
  match exec p s with
  | Err e => execute p b = Err e
  | Ok (a, s') => exists slots reads b', viewed s slots s' /\ block_ops p s = flush_ops (slot_entries slots) /\ R reads b'
      /\ (forall key, key ∈ touched p s <-> key ∈ reads \/ key ∈ op_key <$> block_ops p s)
      /\ execute p b = (b'' ← flush_slots b' (slot_entries slots); Ok (a, b''))
  end.
Proof.
  intros Hread HR. pose proof (trace_exec p s ∅ [] s (viewed_start s)) as Ht.
  pose proof (run_trace p R (fun key => key ∈ touched p s) s s (BlockState_new b) [] Hread (viewed_start s) HR (fun _ Hk => Hk)) as Hrun.
  unfold execute, block_ops. cbn [bs_slots BlockState_new] in Hrun.
  destruct (exec p s) as [[a s']|e]; [|by rewrite Ht in *; rewrite Hrun].
  destruct Ht as (slots & reads & Ht & Hv). rewrite Ht in *. destruct Hrun as (b' & -> & HR'). exists slots, reads, b'.
  destruct (trace_touched p s ∅ [] s a slots reads (viewed_start s) Ht) as (Hd & Hc & Hr); [done|set_solver|].
  split_and!; [done..| |done]. intros key.
  assert (key ∈ touched p s <-> is_Some (slots !! key)) as ->.
  { rewrite Hd, lookup_empty. split; [by right|]. by intros [[? ?]|]. }
  split.
  - intros [slot Hslot]. destruct (is_clean slot) eqn:Hcl; [left; destruct slot; [by eapply Hc|done|done]|right].
    eapply flush_ops_dirty, Hcl. by apply elem_of_slot_entries.
  - intros [Hin|(op & -> & Hop)%list_elem_of_fmap]; [by apply Hr|].
    apply flush_ops_elem in Hop as (slot & Hin & _). exists slot. by apply elem_of_slot_entries.
Qed.

(** What executing leaves on the host. *)
Record committed_by {A} (p : stf A) (live : Trie) (s s' : content) (h : TracingState) : Prop := {
  cb_live : ts_live h = live;
  cb_pre_root : ts_pre_root h = tr_root live;
  cb_accessed : forall key, key ∈ ts_accessed h <-> key ∈ touched p s;
  cb_ops : exists answers, run_ops (block_ops p s) live = Ok (answers, ts_current h);
  cb_state : represents (ts_current h) s';
}.

(** The host after reading [ks]. *)
Definition tracing_after (live : Trie) (ks : list bytes) : TracingState :=
  {| ts_live := live; ts_accessed := list_to_set ks; ts_pre_root := tr_root live; ts_scratch := None |}.

Lemma tracing_read live t s ks key : models live t s -> key_ok key ->
  backend_read key (tracing_after live ks) = Ok (s !! key, tracing_after live (ks ++ [key])).
Proof.
  intros Hm Hk. cbn. rewrite (models_get live t s key Hm Hk). cbn [map_err mbind result_bind]. unfold tracing_after. do 3 f_equal.
  apply set_eq. intros k. rewrite elem_of_list_to_set, elem_of_union, elem_of_singleton, elem_of_list_to_set. set_solver.
Qed.

Lemma host_execute {A} (p : stf A) live s : represents live s -> Forall key_ok (touched p s) -> ops_clash_free (block_ops p s) live = true ->
  match exec p s with
  | Err e => execute p (TracingState_new live) = Err e
  | Ok (a, s') => exists h, execute p (TracingState_new live) = Ok (a, h) /\ committed_by p live s s' h
  end.
Proof.
  intros [t Hm] Hk Hcf. rewrite Forall_forall in Hk.
  assert (forall ks key b, b = tracing_after live ks -> key ∈ touched p s ->
    exists b', backend_read key b = Ok (s !! key, b') /\ b' = tracing_after live (ks ++ [key])) as Hread.
  { intros ks key b -> Hkey. eexists. split; [by apply (tracing_read live t s); [|apply Hk]|done]. }
  pose proof (execute_trace p (fun ks b => b = tracing_after live ks) s (TracingState_new live) Hread eq_refl) as Hex.
  destruct (exec p s) as [[a s']|e]; [|done]. destruct Hex as (slots & reads & b' & Hv & Hops & -> & Htouch & Hexec).
  assert (Forall (fun op => key_ok (op_key op)) (block_ops p s)) as Hkops.
  { apply Forall_forall. intros op Hop. apply Hk. by apply block_ops_keys. }
  destruct (models_ops (block_ops p s) live t s Hm Hkops Hcf) as (t' & tr' & Hrun & Hm' & _).
  pose proof (flush_tracing (slot_entries slots) (tracing_after live reads)) as Hfl. rewrite <- Hops in Hfl.
  change (ts_current (tracing_after live reads)) with live in Hfl.
  rewrite (trie_ops_run _ _ _ _ Hrun (map_ops_answers _ _)) in Hfl. destruct Hfl as (h & Hfl & Hcur & Hl & Hp & Hacc).
  rewrite Hexec, Hfl. cbn [mbind result_bind]. exists h. split; [done|]. constructor; [done|done|..].
  - intros key. rewrite Hacc, Htouch. cbn. by rewrite elem_of_list_to_set.
  - eexists. rewrite Hcur. done.
  - rewrite Hcur. exists t'. rewrite Hops, (flush_content s slots s' Hv) in Hm'. done.
Qed.

(** A run on the host is a run of the Guest, from the host's witness. *)
Lemma guest_replays_host {A} (p : stf A) live s a s' :
  represents live s -> intact live -> Forall key_ok (touched p s) -> ops_clash_free (block_ops p s) live = true ->
  exec p s = Ok (a, s') ->
  exists h committed w g g', execute p (TracingState_new live) = Ok (a, h)
    /\ into_committed_and_witness h = Ok (committed, w) /\ represents committed s' /\ intact committed
    /\ WitnessState_new w = Ok g /\ execute p g = Ok (a, g')
    /\ pre_state_root g = tr_root live /\ post_state_root g' = tr_root committed /\ post_state_root h = tr_root committed.
Proof.
  intros Hrep Hin Hk Hcf Hexec. pose proof (host_execute p live s Hrep Hk Hcf) as Hhost. rewrite Hexec in Hhost.
  destruct Hhost as (h & Hh & [Hl Hp Hacc [answers Hops] Hst]). destruct Hrep as [t Hm]. rewrite Forall_forall in Hk.
  destruct (witness_guest live t s (ts_accessed h) Hm Hin) as (w & g & Hw & Hg & [Hwit Hpre Hrpl Hready Hget]);
    [intros key Hkey; apply Hk; by apply Hacc|].
  assert (forall (ks : list bytes) key b, b = g -> key ∈ touched p s -> exists b', backend_read key b = Ok (s !! key, b') /\ b' = g) as Hread.
  { intros ks key b -> Hkey. exists g. split; [|done]. apply Hacc in Hkey. cbn. rewrite bool_decide_true by (by apply Hwit). by rewrite (Hget key Hkey). }
  pose proof (execute_trace p (fun _ b => b = g) s g Hread eq_refl) as Hguest. rewrite Hexec in Hguest.
  destruct Hguest as (slots & reads & b' & Hv & Hbops & -> & Htouch & Hge).
  destruct (replay_ops (block_ops p s) live (ws_trie g) t s Hrpl) as (t' & h' & g' & ganswers & Hrunh & Hrung & Hall & Hrpl').
  { apply Forall_forall. intros op Hop. apply Hk. by apply block_ops_keys. }
  { apply block_ops_NoDup. }
  { done. }
  { apply Forall_forall. intros op Hop. apply Hready, Hacc. by apply block_ops_keys. }
  pose proof (flush_witness (slot_entries slots) g) as Hfl. rewrite <- Hbops, (trie_ops_run _ _ _ _ Hrung Hall) in Hfl.
  destruct Hfl as (g2 & Hfl & Hgt & Hgp). rewrite Hops in Hrunh. injection Hrunh as _ <-.
  exists h, (ts_current h), w, g, g2. unfold into_committed_and_witness. rewrite Hl, Hw. split_and!; [done..|by eapply ops_intact|done| |exact Hpre| |].
  - by rewrite Hge, Hfl.
  - cbn. rewrite Hgt. by apply (replays_root _ _ t' _ Hrpl').
  - rewrite tracing_root; [done|by rewrite Hp, Hl].
Qed.

(** *** Any witness *)

(** No string of [xs] has the hash of a different string of [ys]. *)
Definition collision_free (hash : bytes -> Hash) (xs ys : list bytes) : bool :=
  forallb (fun x => forallb (fun y => negb (bool_decide (hash x = hash y)) || bool_decide (x = y)) ys) xs.

Lemma collision_free_spec hash xs ys x y : collision_free hash xs ys = true -> x ∈ xs -> y ∈ ys -> hash x = hash y -> x = y.
Proof.
  unfold collision_free. rewrite forallb_forall. intros Hf Hx%list_elem_of_In Hy%list_elem_of_In Heq.
  specialize (Hf x Hx). cbn in Hf. rewrite forallb_forall in Hf. specialize (Hf y Hy). cbn in Hf.
  rewrite (bool_decide_true _ Heq) in Hf. by apply bool_decide_eq_true in Hf.
Qed.

Lemma check_hashes_Ok hash mismatch l h b : check_hashes hash mismatch l = Ok tt -> (h, b) ∈ l -> hash b = h.
Proof.
  induction l as [|[claimed x] l IH]; cbn; [by intros _ ?%not_elem_of_nil|]. case_bool_decide as Hx; [done|].
  intros Hl [[= -> ->]|Hin]%elem_of_cons; [|by apply IH]. destruct (decide (hash x = claimed)) as [|Hne]; [done|by destruct Hx].
Qed.

Lemma collect_map_elem (l : list (Hash * bytes)) h x : collect_map l !! h = Some x -> (h, x) ∈ l.
Proof.
  induction l as [|[k y] l IH] using rev_ind; [done|]. rewrite collect_map_snoc, elem_of_app, list_elem_of_singleton.
  destruct (decide (k = h)) as [->|Hne]; [rewrite lookup_insert_eq; intros [= ->]; by right|].
  rewrite lookup_insert_ne by done. left. by apply IH.
Qed.

Lemma checked_agree (hash : bytes -> Hash) (mismatch : Hash -> WitnessError) (l : list (Hash * bytes)) (m : gmap Hash bytes) : check_hashes hash mismatch l = Ok tt ->
  map_Forall (fun h b => hash b = h) m -> collision_free hash l.*2 (map_to_list m).*2 = true -> agree (collect_map l) m.
Proof.
  intros Hc Hm Hf h x y Hx%collect_map_elem Hy. eapply collision_free_spec; [exact Hf|..].
  - apply list_elem_of_fmap. by exists (h, x).
  - apply list_elem_of_fmap. exists (h, y). split; [done|]. by apply elem_of_map_to_list.
  - rewrite (check_hashes_Ok _ _ _ _ _ Hc Hx). symmetry. by apply (Hm h y).
Qed.

Lemma trie_ops_agree ops g h g' h' : agrees g h -> trie_ops ops g = Ok g' -> trie_ops ops h = Ok h' -> agrees g' h'.
Proof.
  revert g h. induction ops as [|op ops IH]; intros g h Hag; cbn [trie_ops]; [by intros [= <-] [= <-]|].
  destruct (trie_apply op g) as [g1|] eqn:Hg; [|done]. destruct (trie_apply op h) as [h1|] eqn:Hh; [|done]. cbn [mbind result_bind].
  apply IH. destruct op as [key v|key]; cbn in Hg, Hh; unfold trie_write, trie_delete in *.
  - destruct (Trie_insert key v g) as [[[[]|] g2]|] eqn:Hig; [|done..]. destruct (Trie_insert key v h) as [[[[]|] h2]|] eqn:Hih; [|done..].
    injection Hg as <-. injection Hh as <-. by apply (insert_agree _ _ _ _ _ _ _ _ Hag Hig Hih).
  - destruct (Trie_remove key g) as [[x g2]|] eqn:Hig; [|done..]. destruct (Trie_remove key h) as [[y h2]|] eqn:Hih; [|done..].
    injection Hg as <-. injection Hh as <-. by apply (remove_agree _ _ _ _ _ _ _ Hag Hig Hih).
Qed.

(** A run that the Guest completes, from any witness for the root of the host's
    trie, is the run of the host. *)
Lemma guest_result_sound {A} (p : stf A) live s w g a g' :
  represents live s -> intact live -> Forall key_ok (touched p s) -> ops_clash_free (block_ops p s) live = true ->
  sw_pre_state_root w = tr_root live ->
  collision_free hash_node (sw_nodes w).*2 (map_to_list (tr_nodes live)).*2 = true ->
  collision_free hash_value (sw_values w).*2 (map_to_list (tr_values live)).*2 = true ->
  WitnessState_new w = Ok g -> execute p g = Ok (a, g') ->
  exists s' h, exec p s = Ok (a, s') /\ execute p (TracingState_new live) = Ok (a, h)
    /\ represents (ts_current h) s' /\ pre_state_root g = tr_root live
    /\ post_state_root g' = tr_root (ts_current h) /\ post_state_root h = tr_root (ts_current h).
Proof.
  intros Hrep [Hin Hiv] Hk Hcf Hroot Hcn Hcv Hg Hexec.
  assert (agrees (ws_trie g) live /\ ws_pre_root g = tr_root live) as [Hag Hpre].
  { unfold WitnessState_new in Hg. destruct (check_hashes hash_node _ _) as [[]|] eqn:Hn; [|done]. destruct (check_hashes hash_value _ _) as [[]|] eqn:Hv; [|done].
    cbn [mbind result_bind] in Hg. destruct (_ && _); [done|]. injection Hg as <-. cbn. split; [|done].
    constructor; [done|by eapply checked_agree|by eapply checked_agree]. }
  pose proof (host_execute p live s Hrep Hk Hcf) as Hhost. destruct Hrep as [t Hm].
  unfold execute in Hexec. destruct (run p (BlockState_new g)) as [[a1 c]|] eqn:Hrun; [|done]. cbn [mbind result_bind] in Hexec.
  destruct (BlockState_finish c) as [g1|] eqn:Hfin; [|done]. injection Hexec as -> ->.
  destruct (run_trace_inv p (fun b => b = g) key_ok s s (BlockState_new g) c [] a) as (Hc & reads & Ht); [|apply viewed_start|done|by apply Forall_forall|done|].
  { intros key b v b' -> Hkey Hread. cbn in Hread. case_bool_decide; [|done]. destruct (Trie_get key (ws_trie g)) as [v'|] eqn:Hget; [|done].
    injection Hread as <- <-. split; [|done]. eapply get_agree; [done|done|]. by apply (models_get live t s). }
  cbn [bs_slots BlockState_new] in Ht. pose proof (trace_exec p s ∅ [] s (viewed_start s)) as Hte.
  destruct (exec p s) as [[a2 s']|]; [|by rewrite Ht in Hte]. destruct Hte as (slots & reads2 & Ht2 & Hv).
  assert (block_ops p s = flush_ops (slot_entries (bs_slots c))) as Hops by (unfold block_ops; by rewrite Ht).
  rewrite Ht in Ht2. injection Ht2 as <- _ _. destruct Hhost as (h & Hh & [Hl Hp Hacc [answers Hrops] Hst]).
  pose proof (flush_witness (slot_entries (bs_slots c)) (bs_inner c)) as Hfl. rewrite <- Hops, Hc in Hfl. unfold BlockState_finish in Hfin. rewrite Hc in Hfin.
  destruct (trie_ops (block_ops p s) (ws_trie g)) as [tg|] eqn:Htg; [|by rewrite Hfl in Hfin].
  destruct Hfl as (g2 & Hf2 & Hgt & Hgp). rewrite Hf2 in Hfin. injection Hfin as ->.
  assert (agrees tg (ts_current h)) as Hag'.
  { eapply trie_ops_agree; [exact Hag|exact Htg|]. destruct (models_ops (block_ops p s) live t s Hm) as (t' & tr' & Hrun' & _); [|done|].
    { apply Forall_forall. intros op Hop. rewrite Forall_forall in Hk. apply Hk. by apply block_ops_keys. }
    rewrite Hrops in Hrun'. injection Hrun' as -> <-. by eapply trie_ops_run, map_ops_answers. }
  exists s', h. split_and!; [done..|exact Hpre|cbn; rewrite Hgt; apply Hag'|].
  rewrite tracing_root; [done|by rewrite Hp, Hl].
Qed.

End Replay.

(** ** Writing through

    The entries collected for a key are enough to insert it or to remove it, and not
    to do both: the insertion may split an extension at its last bit, and the removal
    then fetches the extension's child, which is not on the path of the key.  A
    program that runs on [TracingState] itself, without the view, meets this: the
    Guest aborts on the host's witness. *)

Section write_through.
#[local] Existing Instance sample_hasher.

Definition insert_then_remove : stf unit := _ ← write [1; 2; 8] [5]; delete_key [1; 2; 8].

Definition split_live : Trie := (sample_trie [OpInsert [1; 2; 3] [7]; OpInsert [1; 2; 4] [9]]).2.

(** The Guest's result on the host's witness. *)
Definition replayed (host : result Panic (unit * TracingState)) (replay : WitnessState -> result Panic (unit * WitnessState)) : option (result Panic unit) :=
  match host with
  | Ok (_, h) =>
      match into_committed_and_witness h with
      | Ok (_, w) => match WitnessState_new w with Ok g => Some ('(a, _) ← replay g; Ok a) | Err _ => None end
      | Err _ => None
      end
  | Err _ => None
  end.

Theorem unbuffered_replay_aborts :
  replayed (run insert_then_remove (TracingState_new split_live)) (run insert_then_remove) = Some (Err (TriePanic MissingNode))
  /\ replayed (execute insert_then_remove (TracingState_new split_live)) (execute insert_then_remove) = Some (Ok tt).
Proof. by vm_compute. Qed.

End write_through.
