(* ===== verification/RuntimeState.v ===== *)
(** * runtimes/neutrino-default/core/src/state.rs: runtime records and their keys

    The records the default runtime keeps in its state trie, the key of each, the
    typed accessors and the governable policy.  A record is stored as its Borsh
    encoding, a parameter of the development; the lemmas read the state through
    [peek], the record a key decodes to. *)

From Stdlib Require Import Ascii String.
From S2P Require Import Prelude External Primitives History Evidence Sorted Backend.

Abbreviation Address := (list N) (only parsing).

(** A byte-string literal. *)
Definition ascii_bytes (s : string) : bytes := map N_of_ascii (list_ascii_of_string s).

(** ** Keys *)

Definition ACCOUNT_KEY_PREFIX : bytes := Eval vm_compute in ascii_bytes "acct:".
Definition VALIDATOR_KEY_PREFIX : bytes := Eval vm_compute in ascii_bytes "val:".
Definition WITHDRAWAL_KEY_PREFIX : bytes := Eval vm_compute in ascii_bytes "wdr:".
Definition REGISTRATION_KEY_PREFIX : bytes := Eval vm_compute in ascii_bytes "reg:".
Definition BONDING_KEY_PREFIX : bytes := Eval vm_compute in ascii_bytes "bond:".
Definition VALIDATOR_SET_KEY : bytes := Eval vm_compute in ascii_bytes "validator_set".
Definition VALIDATOR_REGISTRATIONS_KEY : bytes := Eval vm_compute in ascii_bytes "validator_registrations".
Definition UPGRADE_KEY : bytes := Eval vm_compute in ascii_bytes "upgrade:scheduled".
Definition RUNTIME_POLICY_KEY : bytes := Eval vm_compute in ascii_bytes "runtime:policy".
Definition CONSENSUS_CANDIDATES_KEY : bytes := Eval vm_compute in ascii_bytes "consensus:candidates".
Definition PARTICIPATION_KEY : bytes := Eval vm_compute in ascii_bytes "consensus:participation".
Definition ABSENT_KEY_PREFIX : bytes := Eval vm_compute in ascii_bytes "consensus:absent:".
Definition DOMAIN_CONSENSUS_CANDIDATES_ROOT : bytes :=
  Eval vm_compute in ascii_bytes "NTRO/candidates" ++ [0].

Definition prefixed_key (prefix suffix : bytes) : bytes := prefix ++ suffix.
Definition account_key (addr : Address) : bytes := prefixed_key ACCOUNT_KEY_PREFIX addr.
Definition validator_key (addr : Address) : bytes := prefixed_key VALIDATOR_KEY_PREFIX addr.
Definition registration_key (addr : Address) : bytes := prefixed_key REGISTRATION_KEY_PREFIX addr.
Definition withdrawal_key (addr : Address) : bytes := prefixed_key WITHDRAWAL_KEY_PREFIX addr.
Definition absent_key (chunk_id : N) : bytes := prefixed_key ABSENT_KEY_PREFIX (to_be_bytes 8 chunk_id).
Definition bonding_key (addr : Address) : bytes := prefixed_key BONDING_KEY_PREFIX addr.

(** ** Records *)

(** [participation.rs] of crates/consensus-types. *)
Record ParticipationReport := { pr_chunk_id : N; pr_present : list Hash; pr_absent : list Hash }.

Record RuntimePolicy := {
  p_gas_price : N;
  p_min_validator_stake : N;
  p_evidence_max_age_blocks : N;
  p_evidence_max_pending : N;
  p_evidence_admissions_per_block : N;
  p_evidence_executions_per_block : N;
  p_slash_amount : N;
  p_inactivity_leak_amount : N;
  p_reporter_reward_bps : N;
}.

Record BlsIdentity := { id_pubkey : BlsPublicKey; id_pop_signature : BlsSignature }.

Record ConsensusCandidate := { c_address : Address; c_stake : N; c_identity : option BlsIdentity }.

Record ConsensusCandidates := { cand_entries : list ConsensusCandidate }.

Record Account := { a_nonce : N; a_balance : N }.

(** The runtime's [Validator]; the consensus one is in [Primitives]. *)
Record RtValidator := { v_stake : N; v_active : bool }.

Record ValidatorSetEntry := { e_address : Address; e_stake : N }.

Record ValidatorSet := { set_entries : list ValidatorSetEntry }.

Record Bonding := { b_amount : N; b_since_height : N }.

Record ValidatorRegistration := {
  r_address : Address;
  r_bls_pubkey : BlsPublicKey;
  r_pop_signature : BlsSignature;
  r_registered_at_height : N;
}.

Record ValidatorRegistrations := { reg_addresses : list Address }.

Record Withdrawal := { w_amount : N; w_mature_at_height : N }.

Record WithdrawalQueue := { wq_entries : list Withdrawal }.

Definition Account_default : Account := {| a_nonce := 0; a_balance := 0 |}.
Definition RtValidator_default : RtValidator := {| v_stake := 0; v_active := false |}.

#[export] Instance RuntimePolicy_eq_dec : EqDecision RuntimePolicy.
Proof. solve_decision. Defined.

(** ** Policy *)

Definition BASIS_POINTS : N := 10000.
Definition DEFAULT_REPORTER_REWARD_BPS : N := 1000.
(** [accountability::MAX_PENDING]. *)
Definition MAX_PENDING : N := 4096.

Definition RuntimePolicy_from_params (params : RuntimeParams) : RuntimePolicy := {|
  p_gas_price := gas_price params;
  p_min_validator_stake := min_validator_stake params;
  p_evidence_max_age_blocks := evidence_max_age_blocks params;
  p_evidence_max_pending := evidence_max_pending params;
  p_evidence_admissions_per_block := evidence_admissions_per_block params;
  p_evidence_executions_per_block := evidence_executions_per_block params;
  p_slash_amount := slash_amount params;
  p_inactivity_leak_amount := inactivity_leak_amount params;
  p_reporter_reward_bps := DEFAULT_REPORTER_REWARD_BPS;
|}.

Definition RuntimePolicy_default : RuntimePolicy := RuntimePolicy_from_params RuntimeParams_default.

Definition policy_is_well_formed (p : RuntimePolicy) : bool :=
  (0 <? p_gas_price p) && (0 <? p_min_validator_stake p) && (0 <? p_evidence_max_age_blocks p)
  && (0 <? p_evidence_max_pending p) && (p_evidence_max_pending p <=? MAX_PENDING)
  && (0 <? p_evidence_admissions_per_block p)
  && (p_evidence_admissions_per_block p <=? p_evidence_max_pending p)
  && (0 <? p_evidence_executions_per_block p)
  && (p_evidence_executions_per_block p <=? p_evidence_max_pending p)
  && (p_reporter_reward_bps p <=? BASIS_POINTS).

Definition policy_is_valid_for (p : RuntimePolicy) (anchor : EvidenceAnchor) : bool :=
  policy_is_well_formed p && EvidenceAnchor_is_well_formed anchor
  && (p_evidence_max_age_blocks p <? an_unbonding_delay_blocks anchor).

(** ** Typed access *)

(** The record stored under [key]: absent or undecodable bytes read as [None]. *)
Definition read_record {T} `{Borsh T} (key : bytes) : stf (option T) :=
  bytes_ ← read key; Ret (bytes_ ≫= borsh_from_slice).

(** Authenticated bytes that do not decode abort the transition. *)
Definition read_canonical {T} `{Borsh T} (key : bytes) : stf (option T) :=
  bytes_ ← read key;
  match bytes_ with
  | None => Ret None
  | Some b => match borsh_from_slice b with Some x => Ret (Some x) | None => Abort NonCanonical end
  end.

Definition write_record {T} `{Borsh T} (key : bytes) (value : T) : stf unit :=
  write key (borsh_to_vec value).

(** The encodings of the stored records; an absence list and an expiry bucket are
    both lists of byte strings, of different Rust types. *)
Class StateCodec := {
  #[global] codec_policy :: Borsh RuntimePolicy;
  #[global] codec_candidates :: Borsh ConsensusCandidates;
  #[global] codec_participation :: Borsh ParticipationReport;
  #[global] codec_account :: Borsh Account;
  #[global] codec_validator :: Borsh RtValidator;
  #[global] codec_validator_set :: Borsh ValidatorSet;
  #[global] codec_bonding :: Borsh Bonding;
  #[global] codec_registration :: Borsh ValidatorRegistration;
  #[global] codec_registrations :: Borsh ValidatorRegistrations;
  #[global] codec_withdrawals :: Borsh WithdrawalQueue;
  codec_absent : Borsh (list Hash);
}.

Class StateCodecLaws `{StateCodec} : Prop := {
  #[global] codec_policy_laws :: BorshLaws RuntimePolicy;
  #[global] codec_candidates_laws :: BorshLaws ConsensusCandidates;
  #[global] codec_participation_laws :: BorshLaws ParticipationReport;
  #[global] codec_account_laws :: BorshLaws Account;
  #[global] codec_validator_laws :: BorshLaws RtValidator;
  #[global] codec_validator_set_laws :: BorshLaws ValidatorSet;
  #[global] codec_bonding_laws :: BorshLaws Bonding;
  #[global] codec_registration_laws :: BorshLaws ValidatorRegistration;
  #[global] codec_registrations_laws :: BorshLaws ValidatorRegistrations;
  #[global] codec_withdrawals_laws :: BorshLaws WithdrawalQueue;
  codec_absent_laws : @BorshLaws (list Hash) codec_absent;
}.

Section state.
Context `{Blake3} `{StateCodec}.

Definition load_runtime_policy : stf RuntimePolicy :=
  p ← read_record RUNTIME_POLICY_KEY; Ret (default RuntimePolicy_default p).
Definition store_runtime_policy (p : RuntimePolicy) : stf unit := write_record RUNTIME_POLICY_KEY p.

(** *** Consensus candidates *)

Definition candidates_upsert (c : ConsensusCandidates) (candidate : ConsensusCandidate) : ConsensusCandidates :=
  {| cand_entries := sorted_upsert c_address (cand_entries c) candidate |}.

(** The remaining entries and whether one was present. *)
Definition candidates_remove (c : ConsensusCandidates) (addr : Address) : ConsensusCandidates * bool :=
  match search c_address (cand_entries c) addr with
  | Ok i => ({| cand_entries := delete i (cand_entries c) |}, true)
  | Err _ => (c, false)
  end.

Definition candidates_get (c : ConsensusCandidates) (addr : Address) : option ConsensusCandidate :=
  sorted_get c_address (cand_entries c) addr.

Definition candidates_root (c : ConsensusCandidates) : Hash :=
  blake3_hash (DOMAIN_CONSENSUS_CANDIDATES_ROOT ++ borsh_to_vec c).

Definition load_consensus_candidates : stf ConsensusCandidates :=
  c ← read_record CONSENSUS_CANDIDATES_KEY; Ret (default {| cand_entries := [] |} c).
Definition store_consensus_candidates (c : ConsensusCandidates) : stf unit :=
  write_record CONSENSUS_CANDIDATES_KEY c.

(** *** Participation *)

Definition NO_PARTICIPATION : Hash := ZERO_HASH.

(** [tagged_commitment] and [ParticipationReport::commitment]. *)
Definition participation_commitment (report : option ParticipationReport) : Hash :=
  match report with
  | None => NO_PARTICIPATION
  | Some r => blake3_256 (DOMAIN_PARTICIPATION ++ borsh_to_vec r)
  end.

Definition load_participation : stf (option ParticipationReport) := read_record PARTICIPATION_KEY.

Definition apply_participation (report : option ParticipationReport) : stf Hash :=
  _ ← match report with
      | None => Ret tt
      | Some r =>
          latest ← load_participation;
          if match latest with None => true | Some l => pr_chunk_id l <? pr_chunk_id r end then
            _ ← write_record PARTICIPATION_KEY r;
            _ ← @write_record _ codec_absent (absent_key (pr_chunk_id r)) (pr_absent r);
            match checked_sub (pr_chunk_id r) HISTORY_RETENTION_CHUNKS with
            | Some expired => delete_key (absent_key expired)
            | None => Ret tt
            end
          else Ret tt
      end;
  Ret (participation_commitment report).

Definition certified_absent (chunk_id : N) (address : Address) : stf bool :=
  absent ← @read_canonical _ codec_absent (absent_key chunk_id);
  Ret match absent with Some l => bool_decide (address ∈ l) | None => false end.

(** *** Accounts and validators *)

Definition load_account (addr : Address) : stf Account :=
  a ← read_record (account_key addr); Ret (default Account_default a).
Definition store_account (addr : Address) (account : Account) : stf unit :=
  write_record (account_key addr) account.

Definition load_validator_record (addr : Address) : stf (option RtValidator) :=
  read_record (validator_key addr).
Definition load_validator (addr : Address) : stf RtValidator :=
  v ← load_validator_record addr; Ret (default RtValidator_default v).
Definition store_validator (addr : Address) (v : RtValidator) : stf unit :=
  write_record (validator_key addr) v.

Definition set_upsert (s : ValidatorSet) (addr : Address) (stake : N) : ValidatorSet :=
  {| set_entries := sorted_upsert e_address (set_entries s) {| e_address := addr; e_stake := stake |} |}.
Definition set_remove (s : ValidatorSet) (addr : Address) : ValidatorSet :=
  {| set_entries := sorted_remove e_address (set_entries s) addr |}.
Definition total_stake (s : ValidatorSet) : N :=
  foldl (fun total e => saturating_add U128_MAX total (e_stake e)) 0 (set_entries s).

Definition load_validator_set : stf ValidatorSet :=
  s ← read_record VALIDATOR_SET_KEY; Ret (default {| set_entries := [] |} s).
Definition store_validator_set (s : ValidatorSet) : stf unit := write_record VALIDATOR_SET_KEY s.

Definition load_bonding (addr : Address) : stf (option Bonding) := read_record (bonding_key addr).
Definition store_bonding (addr : Address) (b : Bonding) : stf unit := write_record (bonding_key addr) b.

(** *** Registrations *)

Definition registrations_contains (r : ValidatorRegistrations) (addr : Address) : bool :=
  sorted_contains id (reg_addresses r) addr.
Definition registrations_insert (r : ValidatorRegistrations) (addr : Address) : ValidatorRegistrations * bool :=
  match search id (reg_addresses r) addr with
  | Ok _ => (r, false)
  | Err i => ({| reg_addresses := vec_insert i addr (reg_addresses r) |}, true)
  end.
Definition registrations_remove (r : ValidatorRegistrations) (addr : Address) : ValidatorRegistrations * bool :=
  match search id (reg_addresses r) addr with
  | Ok i => ({| reg_addresses := delete i (reg_addresses r) |}, true)
  | Err _ => (r, false)
  end.

Definition load_validator_registrations : stf ValidatorRegistrations :=
  r ← read_record VALIDATOR_REGISTRATIONS_KEY; Ret (default {| reg_addresses := [] |} r).
Definition store_validator_registrations (r : ValidatorRegistrations) : stf unit :=
  if bool_decide (reg_addresses r = []) then delete_key VALIDATOR_REGISTRATIONS_KEY
  else write_record VALIDATOR_REGISTRATIONS_KEY r.
Definition load_validator_registration (addr : Address) : stf (option ValidatorRegistration) :=
  read_record (registration_key addr).
Definition store_validator_registration (r : ValidatorRegistration) : stf unit :=
  write_record (registration_key (r_address r)) r.

(** *** Withdrawals *)

Definition queue_total (q : WithdrawalQueue) : N :=
  foldl (fun total e => saturating_add U128_MAX total (w_amount e)) 0 (wq_entries q).

Definition load_withdrawal_queue (addr : Address) : stf WithdrawalQueue :=
  q ← read_record (withdrawal_key addr); Ret (default {| wq_entries := [] |} q).
Definition store_withdrawal_queue (addr : Address) (q : WithdrawalQueue) : stf unit :=
  write_record (withdrawal_key addr) q.

End state.
