(* ===== verification/Transactions.v ===== *)
(** * runtimes/neutrino-default/core/src/tx.rs: transactions of the default runtime

    Transaction kinds, their gas schedule and the payload each signature covers,
    with the proposal types of governance.rs, the program identities of
    crates/consensus-types/src/history_proof.rs and the receipt statuses and
    failures of lib.rs. *)

From Stdlib Require Import String.
From S2P Require Import Prelude External Primitives History Evidence Sorted Backend RuntimeState.

(** ** Programs *)

Record ExecutionPrograms := { ep_fact : Digest; ep_evidence : Digest; ep_block : Digest }.
Record ProgramSet := { ps_runtime_code_hash : Hash; ps_execution : ExecutionPrograms }.
Record ProgramArtifacts := { pa_runtime : Hash; pa_fact : Hash; pa_evidence : Hash; pa_block : Hash }.
Record ScheduledUpgrade := {
  su_activate_at_chunk : N;
  su_programs : ProgramSet;
  su_artifacts : ProgramArtifacts;
}.

Definition ExecutionPrograms_is_complete (e : ExecutionPrograms) : bool :=
  negb (bool_decide (replicate 8 0 ∈ [ep_fact e; ep_evidence e; ep_block e])).
Definition ProgramSet_is_complete (p : ProgramSet) : bool := ExecutionPrograms_is_complete (ps_execution p).

(** ** Transaction kinds *)

Record TransferTx := { tr_from : Address; tr_to : Address; tr_amount : N; tr_nonce : N; tr_signature : bytes }.
Record StakeTx := { sk_validator : Address; sk_amount : N; sk_nonce : N; sk_signature : bytes }.
Record UnstakeTx := { us_validator : Address; us_amount : N; us_nonce : N; us_signature : bytes }.
Record DepositTx := {
  dp_depositor : Address; dp_validator : Address; dp_amount : N; dp_nonce : N; dp_signature : bytes }.
Record VoluntaryExitTx := { ve_validator : Address; ve_nonce : N; ve_signature : bytes }.
Record WithdrawTx := { wd_validator : Address; wd_nonce : N; wd_signature : bytes }.
Record RegisterValidatorTx := {
  rv_depositor : Address;
  rv_validator : Address;
  rv_bls_pubkey : BlsPublicKey;
  rv_pop_signature : BlsSignature;
  rv_deposit_amount : N;
  rv_nonce : N;
  rv_signature : bytes;
  rv_validator_signature : bytes;
}.
Record ProposeUpgradeTx := {
  pu_proposer : Address;
  pu_programs : ProgramSet;
  pu_artifacts : ProgramArtifacts;
  pu_activate_at_chunk : N;
  pu_nonce : N;
  pu_signature : bytes;
}.
Record ProposePolicyTx := { po_proposer : Address; po_policy : RuntimePolicy; po_nonce : N; po_signature : bytes }.
Record VoteUpgradeTx := { vu_voter : Address; vu_proposal_id : Hash; vu_nonce : N; vu_signature : bytes }.

Inductive ProposalAction :=
| Programs (programs : ProgramSet) (artifacts : ProgramArtifacts) (activate_at_chunk : N)
| Policy (policy : RuntimePolicy).

Record UpgradeProposal := {
  prop_proposer : Address;
  prop_action : ProposalAction;
  prop_proposed_at_chunk : N;
  prop_voters : list Address;
}.

Inductive Transaction :=
| Transfer (tx : TransferTx)
| Stake (tx : StakeTx)
| Unstake (tx : UnstakeTx)
| Deposit (tx : DepositTx)
| VoluntaryExit (tx : VoluntaryExitTx)
| Withdraw (tx : WithdrawTx)
| RegisterValidator (tx : RegisterValidatorTx)
| SubmitEvidence (submission : EvidenceSubmission)
| ProposeUpgrade (tx : ProposeUpgradeTx)
| VoteUpgrade (tx : VoteUpgradeTx)
| ProposePolicy (tx : ProposePolicyTx).

(** ** Gas *)

Definition GAS_TRANSFER : N := 21000.
Definition GAS_STAKE : N := 50000.
Definition GAS_UNSTAKE : N := 50000.
Definition GAS_SANCTION : N := 5000.
Definition GAS_DEPOSIT : N := 30000.
Definition GAS_VOLUNTARY_EXIT : N := 40000.
Definition GAS_WITHDRAW : N := 50000.
Definition GAS_REGISTER_VALIDATOR : N := 75000.
(** [accountability::GAS_EVIDENCE_ADMISSION] and the governance costs. *)
Definition GAS_EVIDENCE_ADMISSION : N := 10000.
Definition GAS_PROPOSE_UPGRADE : N := 100000.
Definition GAS_VOTE_UPGRADE : N := 40000.

Definition tx_gas (tx : Transaction) : N :=
  match tx with
  | Transfer _ => GAS_TRANSFER
  | Stake _ => GAS_STAKE
  | Unstake _ => GAS_UNSTAKE
  | Deposit _ => GAS_DEPOSIT
  | VoluntaryExit _ => GAS_VOLUNTARY_EXIT
  | Withdraw _ => GAS_WITHDRAW
  | RegisterValidator _ => GAS_REGISTER_VALIDATOR
  | SubmitEvidence _ => GAS_EVIDENCE_ADMISSION
  | ProposeUpgrade _ | ProposePolicy _ => GAS_PROPOSE_UPGRADE
  | VoteUpgrade _ => GAS_VOTE_UPGRADE
  end.

Definition tx_kind_code (tx : Transaction) : N :=
  match tx with
  | Transfer _ => 0
  | Stake _ => 1
  | Unstake _ => 2
  | Deposit _ => 3
  | VoluntaryExit _ => 4
  | Withdraw _ => 5
  | RegisterValidator _ => 6
  | SubmitEvidence _ => 7
  | ProposeUpgrade _ => 8
  | VoteUpgrade _ => 9
  | ProposePolicy _ => 10
  end.

Definition tx_charges_fee (tx : Transaction) : bool :=
  match tx with SubmitEvidence _ => false | _ => true end.

(** ** Signed payloads *)

Definition DOMAIN_TRANSFER : bytes := Eval vm_compute in ascii_bytes "NTRO/transfer" ++ replicate 3 0.
Definition DOMAIN_STAKE : bytes := Eval vm_compute in ascii_bytes "NTRO/stake" ++ replicate 6 0.
Definition DOMAIN_UNSTAKE : bytes := Eval vm_compute in ascii_bytes "NTRO/unstake" ++ replicate 4 0.
Definition DOMAIN_DEPOSIT : bytes := Eval vm_compute in ascii_bytes "NTRO/deposit" ++ replicate 4 0.
Definition DOMAIN_VOLUNTARY_EXIT : bytes := Eval vm_compute in ascii_bytes "NTRO/vexit" ++ replicate 6 0.
Definition DOMAIN_WITHDRAW : bytes := Eval vm_compute in ascii_bytes "NTRO/withdraw" ++ replicate 3 0.
Definition DOMAIN_REGISTER_VALIDATOR : bytes := Eval vm_compute in ascii_bytes "NTRO/regval" ++ replicate 5 0.
Definition DOMAIN_PROPOSE_UPGRADE : bytes := Eval vm_compute in ascii_bytes "NTRO/upg-propose".
Definition DOMAIN_VOTE_UPGRADE : bytes := Eval vm_compute in ascii_bytes "NTRO/upg-vote" ++ replicate 3 0.
Definition DOMAIN_PROPOSE_POLICY : bytes := Eval vm_compute in ascii_bytes "NTRO/pol-propose".
Definition DOMAIN_UPGRADE_PROPOSAL_ID : bytes := Eval vm_compute in ascii_bytes "NTRO/upg-prop-id".

Definition transfer_sig_message (chain_id : N) (tx : TransferTx) : bytes :=
  DOMAIN_TRANSFER ++ to_le_bytes 8 chain_id ++ tr_from tx ++ tr_to tx
  ++ to_le_bytes 16 (tr_amount tx) ++ to_le_bytes 8 (tr_nonce tx).

Definition stake_op_message (domain : bytes) (chain_id : N) (validator : Address) (amount nonce : N) : bytes :=
  domain ++ to_le_bytes 8 chain_id ++ validator ++ to_le_bytes 16 amount ++ to_le_bytes 8 nonce.

Definition stake_sig_message (chain_id : N) (tx : StakeTx) : bytes :=
  stake_op_message DOMAIN_STAKE chain_id (sk_validator tx) (sk_amount tx) (sk_nonce tx).

Definition unstake_sig_message (chain_id : N) (tx : UnstakeTx) : bytes :=
  stake_op_message DOMAIN_UNSTAKE chain_id (us_validator tx) (us_amount tx) (us_nonce tx).

Definition deposit_sig_message (chain_id : N) (tx : DepositTx) : bytes :=
  DOMAIN_DEPOSIT ++ to_le_bytes 8 chain_id ++ dp_depositor tx ++ dp_validator tx
  ++ to_le_bytes 16 (dp_amount tx) ++ to_le_bytes 8 (dp_nonce tx).

Definition validator_op_message (domain : bytes) (chain_id : N) (validator : Address) (nonce : N) : bytes :=
  domain ++ to_le_bytes 8 chain_id ++ validator ++ to_le_bytes 8 nonce.

Definition voluntary_exit_sig_message (chain_id : N) (tx : VoluntaryExitTx) : bytes :=
  validator_op_message DOMAIN_VOLUNTARY_EXIT chain_id (ve_validator tx) (ve_nonce tx).

Definition withdraw_sig_message (chain_id : N) (tx : WithdrawTx) : bytes :=
  validator_op_message DOMAIN_WITHDRAW chain_id (wd_validator tx) (wd_nonce tx).

Definition register_validator_sig_message (chain_id : N) (tx : RegisterValidatorTx) : bytes :=
  DOMAIN_REGISTER_VALIDATOR ++ to_le_bytes 8 chain_id ++ rv_depositor tx ++ rv_validator tx
  ++ rv_bls_pubkey tx ++ to_le_bytes 16 (rv_deposit_amount tx) ++ to_le_bytes 8 (rv_nonce tx).

Definition bound_message (domain : bytes) (chain_id : N) (signer : Address) (id : Hash) (nonce : N) : bytes :=
  domain ++ to_le_bytes 8 chain_id ++ signer ++ id ++ to_le_bytes 8 nonce.

Section messages.
Context `{Blake3} `{Borsh ProposalAction}.

Definition proposal_id (proposer : Address) (action : ProposalAction) : Hash :=
  blake3_hash (DOMAIN_UPGRADE_PROPOSAL_ID ++ proposer ++ borsh_to_vec action).

Definition UpgradeProposal_id (p : UpgradeProposal) : Hash := proposal_id (prop_proposer p) (prop_action p).

Definition ProposeUpgradeTx_action (tx : ProposeUpgradeTx) : ProposalAction :=
  Programs (pu_programs tx) (pu_artifacts tx) (pu_activate_at_chunk tx).

Definition propose_policy_sig_message (chain_id : N) (tx : ProposePolicyTx) : bytes :=
  bound_message DOMAIN_PROPOSE_POLICY chain_id (po_proposer tx)
    (proposal_id (po_proposer tx) (Policy (po_policy tx))) (po_nonce tx).

Definition propose_upgrade_sig_message (chain_id : N) (tx : ProposeUpgradeTx) : bytes :=
  bound_message DOMAIN_PROPOSE_UPGRADE chain_id (pu_proposer tx)
    (proposal_id (pu_proposer tx) (ProposeUpgradeTx_action tx)) (pu_nonce tx).

Definition vote_upgrade_sig_message (chain_id : N) (tx : VoteUpgradeTx) : bytes :=
  bound_message DOMAIN_VOTE_UPGRADE chain_id (vu_voter tx) (vu_proposal_id tx) (vu_nonce tx).

End messages.

Definition verify_signature `{Ed25519} (signer : Address) (message signature : bytes) : bool :=
  match ed_key_from_bytes signer with
  | Some key => ed_verify_strict key message signature
  | None => false
  end.

(** ** Statuses, failures and receipts *)

Inductive ReceiptStatus :=
| Success | BadSignature | NonceMismatch | InsufficientBalance | OutOfBlockGas | Overflow
| Unauthorized | UpgradeConflict | InvalidUpgrade | AlreadyVoted.

#[export] Instance ReceiptStatus_eq_dec : EqDecision ReceiptStatus.
Proof. solve_decision. Defined.

Definition status_as_u32 (s : ReceiptStatus) : N :=
  match s with
  | Success => 0 | BadSignature => 1 | NonceMismatch => 2 | InsufficientBalance => 3
  | OutOfBlockGas => 4 | Overflow => 5 | Unauthorized => 6 | UpgradeConflict => 7
  | InvalidUpgrade => 8 | AlreadyVoted => 9
  end.

(** A transaction that did not apply, and who pays for it. *)
Record Failure := { f_status : ReceiptStatus; f_payer : option Address }.

Definition charged (payer : Address) (status : ReceiptStatus) : Failure :=
  {| f_status := status; f_payer := Some payer |}.

(** [Failure::from(status)]: a failure nobody authorized. *)
Definition uncharged (status : ReceiptStatus) : Failure := {| f_status := status; f_payer := None |}.

Record Receipt := { rc_status_code : N; rc_gas_used : N; rc_kind : N }.

(** [mul_div_floor] of lib.rs. *)
Definition mul_div_floor (value numerator denominator : N) : N :=
  value / denominator * numerator + value mod denominator * numerator / denominator.
