(* ===== verification/Governance.v ===== *)
(** * runtimes/neutrino-default/core/src/governance.rs: upgrade and policy votes

    One open proposal at a time, stake-weighted votes of aged stake, enactment at
    two thirds of the counted stake.  Handlers are [stf] programs returning the
    payer-aware [Failure] of the runtime. *)

From Stdlib Require Import String.
From S2P Require Import Prelude External Primitives History Evidence Sorted Backend RuntimeState Transactions.

Definition UPGRADE_PROPOSAL_KEY : bytes := Eval vm_compute in ascii_bytes "upgrade:proposal".
Definition UPGRADE_MIN_LEAD_CHUNKS : N := 1.
Definition UPGRADE_MAX_LEAD_CHUNKS : N := 1024.
Definition UPGRADE_VOTING_PERIOD_CHUNKS : N := 64.
Definition UPGRADE_QUORUM : N * N := (2, 3).
Definition UPGRADE_VOTER_MIN_AGE_BLOCKS : N := 1024.

(** The encodings of the governance records. *)
Class GovernanceCodec := {
  #[global] codec_action :: Borsh ProposalAction;
  #[global] codec_proposal_record :: Borsh UpgradeProposal;
  #[global] codec_scheduled :: Borsh ScheduledUpgrade;
}.

Class GovernanceCodecLaws `{GovernanceCodec} : Prop := {
  #[global] codec_proposal_record_laws :: BorshLaws UpgradeProposal;
  #[global] codec_scheduled_laws :: BorshLaws ScheduledUpgrade;
}.

(** [stake / total >= numerator / denominator], for [stake <= total]. *)
Definition quorum_reached (stake total : N) (quorum : N * N) : bool :=
  total - mul_div_floor total (quorum.2 - quorum.1) quorum.2 <=? stake.

Definition voted_stake (p : UpgradeProposal) (set : ValidatorSet) : N :=
  foldl (fun sum e => saturating_add U128_MAX sum (e_stake e)) 0
    (filter (fun e => sorted_contains id (prop_voters p) (e_address e) = true) (set_entries set)).

Definition proposal_quorum_reached (p : UpgradeProposal) (set : ValidatorSet) : bool :=
  let total := total_stake set in
  (0 <? total) && quorum_reached (voted_stake p set) total UPGRADE_QUORUM.

Definition activation_in_time (activate_at_chunk current_chunk : N) : bool :=
  match checked_add U64_MAX current_chunk UPGRADE_MIN_LEAD_CHUNKS with
  | Some earliest => earliest <=? activate_at_chunk
  | None => false
  end.

Definition is_live (p : UpgradeProposal) (current_chunk : N) : bool :=
  match checked_add U64_MAX (prop_proposed_at_chunk p) UPGRADE_VOTING_PERIOD_CHUNKS with
  | Some deadline => current_chunk <=? deadline
  | None => false
  end
  && match prop_action p with
     | Programs _ _ activate_at_chunk => activation_in_time activate_at_chunk current_chunk
     | Policy _ => true
     end.

Definition proposal_shape_ok (tx : ProposeUpgradeTx) (current_chunk : N) : bool :=
  activation_in_time (pu_activate_at_chunk tx) current_chunk
  && match checked_add U64_MAX current_chunk UPGRADE_MAX_LEAD_CHUNKS with
     | Some latest => pu_activate_at_chunk tx <=? latest
     | None => false
     end.

Definition aged (since height : N) : bool :=
  match checked_add U64_MAX since UPGRADE_VOTER_MIN_AGE_BLOCKS with
  | Some mature => mature <=? height
  | None => false
  end.

(** Block facts the execution checks use; mempool admission has none. *)
Record BlockContext := {
  bc_chunk : N;
  bc_height : N;
  bc_anchor : EvidenceAnchor;
  bc_pending_sanctions : N;
}.

Definition policy_enactable (block : BlockContext) (policy : RuntimePolicy) : bool :=
  bc_pending_sanctions block <=? p_evidence_max_pending policy.

Section governance.
Context `{Blake3} `{Ed25519} `{StateCodec} `{GovernanceCodec}.

Definition load_proposal : stf (option UpgradeProposal) := read_record UPGRADE_PROPOSAL_KEY.
Definition store_proposal (p : UpgradeProposal) : stf unit := write_record UPGRADE_PROPOSAL_KEY p.
Definition load_scheduled : stf (option ScheduledUpgrade) := read_record UPGRADE_KEY.
Definition store_scheduled (s : ScheduledUpgrade) : stf unit := write_record UPGRADE_KEY s.

(** Block-start housekeeping. *)
Definition expire (current_chunk : N) : stf unit :=
  scheduled ← load_scheduled;
  _ ← match scheduled with
      | Some s => if su_activate_at_chunk s <=? current_chunk then delete_key UPGRADE_KEY else Ret tt
      | None => Ret tt
      end;
  proposal ← load_proposal;
  match proposal with
  | Some p => if negb (is_live p current_chunk) then delete_key UPGRADE_PROPOSAL_KEY else Ret tt
  | None => Ret tt
  end.

Definition governance_weight (addr : Address) (bonded height : N) : stf N :=
  registration ← load_validator_registration addr;
  if match registration with Some r => negb (aged (r_registered_at_height r) height) | None => false end
  then Ret 0
  else
    bonding ← load_bonding addr;
    Ret match bonding with
        | Some b => if aged (b_since_height b) height then bonded else saturating_sub bonded (b_amount b)
        | None => bonded
        end.

Definition record_bond (addr : Address) (amount height : N) : stf unit :=
  bonding ← load_bonding addr;
  let unaged := match bonding with
                | Some b => if aged (b_since_height b) height then 0 else b_amount b
                | None => 0
                end in
  store_bonding addr {| b_amount := saturating_add U128_MAX unaged amount; b_since_height := height |}.

(** The seated validators with their counted stake. *)
Definition governance_set (block_height : option N) : stf ValidatorSet :=
  set ← load_validator_set;
  match block_height with
  | None => Ret {| set_entries := filter (fun e => 0 < e_stake e) (set_entries set) |}
  | Some height =>
      counted ← fold_stf (fun counted entry =>
          weight ← governance_weight (e_address entry) (e_stake entry) height;
          Ret (if 0 <? weight
               then counted ++ [{| e_address := e_address entry; e_stake := weight |}]
               else counted)) [] (set_entries set);
      Ret {| set_entries := counted |}
  end.

Definition authorize_signer (signer : Address) (nonce : N) (block_height : option N) (fee : N)
    (message signature : bytes) : stf (result Failure (Account * ValidatorSet)) :=
  if negb (verify_signature signer message signature) then Ret (Err (uncharged BadSignature))
  else
    account ← load_account signer;
    if negb (a_nonce account =? nonce) then Ret (Err (uncharged NonceMismatch))
    else if a_balance account <? fee then Ret (Err (uncharged InsufficientBalance))
    else
      set ← governance_set block_height;
      if sorted_contains e_address (set_entries set) signer then Ret (Ok (account, set))
      else Ret (Err (charged signer Unauthorized)).

(** [set.entries.iter().find(|entry| entry.address == *proposer)]. *)
Definition stake_in (set : ValidatorSet) (addr : Address) : N :=
  match list_find (fun e => e_address e = addr) (set_entries set) with
  | Some (_, e) => e_stake e
  | None => 0
  end.

Definition check_new_proposal (block : option BlockContext) (fee : N) (proposer : Address) (nonce : N)
    (message signature : bytes) : stf (result Failure (Account * ValidatorSet)) :=
  authorized ⇐ authorize_signer proposer nonce (bc_height <$> block) fee message signature;
  match block with
  | None => Ret (Ok authorized)
  | Some block =>
      let current := bc_chunk block in
      scheduled ← load_scheduled;
      if match scheduled with Some s => current <? su_activate_at_chunk s | None => false end
      then Ret (Err (charged proposer UpgradeConflict))
      else
        proposal ← load_proposal;
        let conflict := match proposal with
                        | Some open_ =>
                            is_live open_ current
                            && (stake_in authorized.2 proposer <=? voted_stake open_ authorized.2)
                        | None => false
                        end in
        if conflict then Ret (Err (charged proposer UpgradeConflict)) else Ret (Ok authorized)
  end.

Definition check_propose (chain_id : N) (block : option BlockContext) (fee : N) (tx : ProposeUpgradeTx) :
    stf (result Failure (Account * ValidatorSet)) :=
  authorized ⇐ check_new_proposal block fee (pu_proposer tx) (pu_nonce tx)
                 (propose_upgrade_sig_message chain_id tx) (pu_signature tx);
  if negb (ProgramSet_is_complete (pu_programs tx))
     || match block with Some b => negb (proposal_shape_ok tx (bc_chunk b)) | None => false end
  then Ret (Err (charged (pu_proposer tx) InvalidUpgrade))
  else Ret (Ok authorized).

Definition check_propose_policy (chain_id : N) (block : option BlockContext) (fee : N) (tx : ProposePolicyTx) :
    stf (result Failure (Account * ValidatorSet)) :=
  authorized ⇐ check_new_proposal block fee (po_proposer tx) (po_nonce tx)
                 (propose_policy_sig_message chain_id tx) (po_signature tx);
  let valid := match block with
               | None => policy_is_well_formed (po_policy tx)
               | Some b => policy_is_valid_for (po_policy tx) (bc_anchor b) && policy_enactable b (po_policy tx)
               end in
  if negb valid then Ret (Err (charged (po_proposer tx) InvalidUpgrade)) else Ret (Ok authorized).

Definition check_vote (chain_id : N) (block : option BlockContext) (fee : N) (tx : VoteUpgradeTx) :
    stf (result Failure (Account * ValidatorSet * UpgradeProposal)) :=
  authorized ⇐ authorize_signer (vu_voter tx) (vu_nonce tx) (bc_height <$> block) fee
                 (vote_upgrade_sig_message chain_id tx) (vu_signature tx);
  proposal ← load_proposal;
  match proposal with
  | Some p =>
      if bool_decide (UpgradeProposal_id p = vu_proposal_id tx)
         && match block with Some b => is_live p (bc_chunk b) | None => true end
      then
        if sorted_contains id (prop_voters p) (vu_voter tx)
        then Ret (Err (charged (vu_voter tx) AlreadyVoted))
        else Ret (Ok (authorized, p))
      else Ret (Err (charged (vu_voter tx) InvalidUpgrade))
  | None => Ret (Err (charged (vu_voter tx) InvalidUpgrade))
  end.

(** Enact when quorum is reached, otherwise keep the proposal open. *)
Definition settle (proposal : UpgradeProposal) (set : ValidatorSet) : stf unit :=
  if negb (proposal_quorum_reached proposal set) then store_proposal proposal
  else
    _ ← match prop_action proposal with
        | Programs programs artifacts activate_at_chunk =>
            store_scheduled {| su_activate_at_chunk := activate_at_chunk; su_programs := programs;
                               su_artifacts := artifacts |}
        | Policy policy => store_runtime_policy policy
        end;
    delete_key UPGRADE_PROPOSAL_KEY.

(** [account.balance -= fee; account.nonce = account.nonce.saturating_add(1)]. *)
Definition spend (account : Account) (debit : N) : Account :=
  {| a_nonce := saturating_add U64_MAX (a_nonce account) 1; a_balance := a_balance account - debit |}.

Definition apply_propose (chain_id : N) (block : BlockContext) (fee : N) (tx : ProposeUpgradeTx) :
    stf (result Failure unit) :=
  '(account, set) ⇐ check_propose chain_id (Some block) fee tx;
  _ ← store_account (pu_proposer tx) (spend account fee);
  _ ← settle {| prop_proposer := pu_proposer tx; prop_action := ProposeUpgradeTx_action tx;
                prop_proposed_at_chunk := bc_chunk block; prop_voters := [pu_proposer tx] |} set;
  Ret (Ok tt).

Definition apply_propose_policy (chain_id : N) (block : BlockContext) (fee : N) (tx : ProposePolicyTx) :
    stf (result Failure unit) :=
  '(account, set) ⇐ check_propose_policy chain_id (Some block) fee tx;
  _ ← store_account (po_proposer tx) (spend account fee);
  _ ← settle {| prop_proposer := po_proposer tx; prop_action := Policy (po_policy tx);
                prop_proposed_at_chunk := bc_chunk block; prop_voters := [po_proposer tx] |} set;
  Ret (Ok tt).

Definition apply_vote (chain_id : N) (block : BlockContext) (fee : N) (tx : VoteUpgradeTx) :
    stf (result Failure unit) :=
  '(account, set, proposal) ⇐ check_vote chain_id (Some block) fee tx;
  let index := match search id (prop_voters proposal) (vu_voter tx) with Ok i => i | Err i => i end in
  let proposal := {| prop_proposer := prop_proposer proposal; prop_action := prop_action proposal;
                     prop_proposed_at_chunk := prop_proposed_at_chunk proposal;
                     prop_voters := vec_insert index (vu_voter tx) (prop_voters proposal) |} in
  if match prop_action proposal with
     | Policy policy => proposal_quorum_reached proposal set && negb (policy_enactable block policy)
     | Programs _ _ _ => false
     end
  then Ret (Err (charged (vu_voter tx) InvalidUpgrade))
  else
    _ ← store_account (vu_voter tx) (spend account fee);
    _ ← settle proposal set;
    Ret (Ok tt).

End governance.
