(* ===== verification/Staking.v ===== *)
(** * runtimes/neutrino-default/core/src/staking.rs: accounts, staking and deductions

    One [check_*] program per transaction kind, shared by mempool admission and
    block execution, and one [apply_*] program that continues from it.  A check
    first authorizes the payer; a failure after that names the payer. *)

From S2P Require Import Prelude External Primitives History Evidence Sorted Backend RuntimeState Transactions Governance.

(** Amounts of one stake or deposit. *)
Record Bond := { bond_amount : N; bond_nonce : N; bond_fee : N; bond_min_stake : N }.

(** Withdrawal accounts held by queued sanctions, and the queue length:
    [accountability::Backlog]. *)
Record Backlog := { bl_held : list Address; bl_count : N }.

Definition backlog_holds (b : Backlog) (address : Address) : bool := bool_decide (address ∈ bl_held b).

Definition require_amount (amount : N) : result ReceiptStatus unit :=
  if amount =? 0 then Err InsufficientBalance else Ok tt.

Definition require_bonded (stake min_stake : N) : result ReceiptStatus unit :=
  if negb (stake =? 0) && (stake <? min_stake) then Err InsufficientBalance else Ok tt.

Definition authenticate `{Ed25519} (signer : Address) (message signature : bytes) : result ReceiptStatus unit :=
  if verify_signature signer message signature then Ok tt else Err BadSignature.

Section staking.
Context `{Blake3} `{Ed25519} `{StateCodec} `{GovernanceCodec}.

Definition signer_account (signer : Address) (nonce : N) : stf (result ReceiptStatus Account) :=
  account ← load_account signer;
  Ret (if negb (a_nonce account =? nonce) then Err NonceMismatch else Ok account).

Definition authorize (payer : Address) (nonce fee : N) : stf (result Failure Account) :=
  r ← signer_account payer nonce;
  account ⇐ Ret (map_err uncharged r);
  if a_balance account <? fee then Ret (Err (uncharged InsufficientBalance)) else Ret (Ok account).

Definition check_payer (payer : Address) (nonce amount fee : N) : stf (result Failure (Account * N)) :=
  account ⇐ authorize payer nonce fee;
  debit ⇐ Ret (map_err (charged payer) (ok_or (checked_add U128_MAX amount fee) Overflow));
  if a_balance account <? debit then Ret (Err (charged payer InsufficientBalance))
  else Ret (Ok (account, debit)).

Definition check_bond (funder validator : Address) (bond : Bond) :
    stf (result Failure (Account * N * RtValidator)) :=
  payer ⇐ check_payer funder (bond_nonce bond) (bond_amount bond) (bond_fee bond);
  _ ⇐ Ret (map_err (charged funder) (require_amount (bond_amount bond)));
  stored ← load_validator_record validator;
  bonded ⇐ Ret (map_err (charged funder) (ok_or stored Unauthorized));
  stake ⇐ Ret (map_err (charged funder)
                 (ok_or (checked_add U128_MAX (v_stake bonded) (bond_amount bond)) Overflow));
  _ ⇐ Ret (map_err (charged funder) (require_bonded stake (bond_min_stake bond)));
  Ret (Ok (payer, {| v_stake := stake; v_active := 0 <? stake |})).

(** *** Validator records *)

Definition sync_consensus_candidate (addr : Address) (validator : option RtValidator) : stf unit :=
  registration ← load_validator_registration addr;
  candidates ← load_consensus_candidates;
  match validator, registration with
  | None, None =>
      let '(candidates, removed) := candidates_remove candidates addr in
      if removed : bool then store_consensus_candidates candidates else Ret tt
  | _, _ =>
      store_consensus_candidates (candidates_upsert candidates
        {| c_address := addr;
           c_stake := match validator with Some v => v_stake v | None => 0 end;
           c_identity := match registration with
                         | Some r => Some {| id_pubkey := r_bls_pubkey r; id_pop_signature := r_pop_signature r |}
                         | None => None
                         end |})
  end.

Definition commit_validator (address : Address) (validator : RtValidator) : stf unit :=
  set ← load_validator_set;
  let set := if v_active validator then set_upsert set address (v_stake validator)
             else set_remove set address in
  _ ← store_validator address validator;
  _ ← store_validator_set set;
  sync_consensus_candidate address (Some validator).

Definition retire_validator (addr : Address) : stf unit :=
  _ ← delete_key (validator_key addr);
  _ ← delete_key (withdrawal_key addr);
  _ ← delete_key (bonding_key addr);
  registrations ← load_validator_registrations;
  let '(registrations, removed) := registrations_remove registrations addr in
  _ ← (if removed : bool then
         _ ← delete_key (registration_key addr);
         store_validator_registrations registrations
       else Ret tt);
  sync_consensus_candidate addr None.

(** The queue with [withdrawal] merged into a last entry of the same maturity, or
    appended. *)
Definition push_withdrawal (q : WithdrawalQueue) (withdrawal : Withdrawal) : WithdrawalQueue :=
  match last (wq_entries q) with
  | Some l =>
      if w_mature_at_height l =? w_mature_at_height withdrawal then
        {| wq_entries := removelast (wq_entries q)
             ++ [{| w_amount := saturating_add U128_MAX (w_amount l) (w_amount withdrawal);
                    w_mature_at_height := w_mature_at_height l |}] |}
      else {| wq_entries := wq_entries q ++ [withdrawal] |}
  | None => {| wq_entries := wq_entries q ++ [withdrawal] |}
  end.

Definition unbond (address : Address) (signer : Account) (fee : N) (validator : RtValidator)
    (withdrawal : Withdrawal) : stf unit :=
  queue ← load_withdrawal_queue address;
  let queue := push_withdrawal queue withdrawal in
  let stake := v_stake validator - w_amount withdrawal in
  _ ← store_account address (spend signer fee);
  _ ← commit_validator address {| v_stake := stake; v_active := 0 <? stake |};
  store_withdrawal_queue address queue.

(** *** Transfer *)

Definition check_transfer (chain_id fee : N) (tx : TransferTx) : stf (result Failure (Account * N)) :=
  _ ⇐ Ret (map_err uncharged (authenticate (tr_from tx) (transfer_sig_message chain_id tx) (tr_signature tx)));
  check_payer (tr_from tx) (tr_nonce tx) (tr_amount tx) fee.

Definition apply_transfer (chain_id fee : N) (tx : TransferTx) : stf (result Failure unit) :=
  '(sender, total_debit) ⇐ check_transfer chain_id fee tx;
  let debited := spend sender total_debit in
  if bool_decide (tr_from tx = tr_to tx) then
    _ ← store_account (tr_from tx)
          {| a_nonce := a_nonce debited;
             a_balance := saturating_add U128_MAX (a_balance debited) (tr_amount tx) |};
    Ret (Ok tt)
  else
    receiver ← load_account (tr_to tx);
    match checked_add U128_MAX (a_balance receiver) (tr_amount tx) with
    | None => Ret (Err (charged (tr_from tx) Overflow))
    | Some balance =>
        _ ← store_account (tr_from tx) debited;
        _ ← store_account (tr_to tx) {| a_nonce := a_nonce receiver; a_balance := balance |};
        Ret (Ok tt)
    end.

(** *** Stake, deposit, unstake, voluntary exit *)

Definition check_stake (chain_id fee min_stake : N) (tx : StakeTx) :
    stf (result Failure (Account * N * RtValidator)) :=
  _ ⇐ Ret (map_err uncharged (authenticate (sk_validator tx) (stake_sig_message chain_id tx) (sk_signature tx)));
  check_bond (sk_validator tx) (sk_validator tx)
    {| bond_amount := sk_amount tx; bond_nonce := sk_nonce tx; bond_fee := fee; bond_min_stake := min_stake |}.

Definition apply_stake (chain_id block_height fee min_stake : N) (tx : StakeTx) : stf (result Failure unit) :=
  '(signer, debit, validator) ⇐ check_stake chain_id fee min_stake tx;
  _ ← store_account (sk_validator tx) (spend signer debit);
  _ ← commit_validator (sk_validator tx) validator;
  _ ← record_bond (sk_validator tx) (sk_amount tx) block_height;
  Ret (Ok tt).

Definition check_deposit (chain_id fee min_stake : N) (tx : DepositTx) :
    stf (result Failure (Account * N * RtValidator)) :=
  _ ⇐ Ret (map_err uncharged (authenticate (dp_depositor tx) (deposit_sig_message chain_id tx) (dp_signature tx)));
  check_bond (dp_depositor tx) (dp_validator tx)
    {| bond_amount := dp_amount tx; bond_nonce := dp_nonce tx; bond_fee := fee; bond_min_stake := min_stake |}.

Definition apply_deposit (chain_id block_height fee min_stake : N) (tx : DepositTx) : stf (result Failure unit) :=
  '(depositor, debit, validator) ⇐ check_deposit chain_id fee min_stake tx;
  _ ← store_account (dp_depositor tx) (spend depositor debit);
  _ ← commit_validator (dp_validator tx) validator;
  _ ← record_bond (dp_validator tx) (dp_amount tx) block_height;
  Ret (Ok tt).

Definition check_unstake (chain_id fee min_stake : N) (tx : UnstakeTx) :
    stf (result Failure (Account * RtValidator)) :=
  _ ⇐ Ret (map_err uncharged (authenticate (us_validator tx) (unstake_sig_message chain_id tx) (us_signature tx)));
  '(signer, _) ⇐ check_payer (us_validator tx) (us_nonce tx) 0 fee;
  _ ⇐ Ret (map_err (charged (us_validator tx)) (require_amount (us_amount tx)));
  validator ← load_validator (us_validator tx);
  if v_stake validator <? us_amount tx then Ret (Err (charged (us_validator tx) InsufficientBalance))
  else
    _ ⇐ Ret (map_err (charged (us_validator tx)) (require_bonded (v_stake validator - us_amount tx) min_stake));
    Ret (Ok (signer, validator)).

Definition apply_unstake (chain_id block_height unbonding_delay fee min_stake : N) (tx : UnstakeTx) :
    stf (result Failure unit) :=
  '(signer, validator) ⇐ check_unstake chain_id fee min_stake tx;
  mature_at_height ⇐ Ret (map_err (charged (us_validator tx))
                            (ok_or (checked_add U64_MAX block_height unbonding_delay) Overflow));
  _ ← unbond (us_validator tx) signer fee validator
        {| w_amount := us_amount tx; w_mature_at_height := mature_at_height |};
  Ret (Ok tt).

Definition check_voluntary_exit (chain_id fee : N) (tx : VoluntaryExitTx) :
    stf (result Failure (Account * RtValidator)) :=
  _ ⇐ Ret (map_err uncharged
             (authenticate (ve_validator tx) (voluntary_exit_sig_message chain_id tx) (ve_signature tx)));
  '(signer, _) ⇐ check_payer (ve_validator tx) (ve_nonce tx) 0 fee;
  validator ← load_validator (ve_validator tx);
  if v_stake validator =? 0 then Ret (Err (charged (ve_validator tx) InsufficientBalance))
  else Ret (Ok (signer, validator)).

Definition apply_voluntary_exit (chain_id block_height unbonding_delay fee : N) (tx : VoluntaryExitTx) :
    stf (result Failure unit) :=
  '(signer, validator) ⇐ check_voluntary_exit chain_id fee tx;
  mature_at_height ⇐ Ret (map_err (charged (ve_validator tx))
                            (ok_or (checked_add U64_MAX block_height unbonding_delay) Overflow));
  _ ← unbond (ve_validator tx) signer fee validator
        {| w_amount := v_stake validator; w_mature_at_height := mature_at_height |};
  Ret (Ok tt).

(** *** Withdraw *)

Definition check_withdraw (chain_id : N) (tx : WithdrawTx) : stf (result Failure Account) :=
  _ ⇐ Ret (map_err uncharged (authenticate (wd_validator tx) (withdraw_sig_message chain_id tx) (wd_signature tx)));
  r ← signer_account (wd_validator tx) (wd_nonce tx);
  Ret (map_err uncharged r).

Definition admit_withdraw (chain_id fee : N) (tx : WithdrawTx) : stf (result Failure Account) :=
  signer ⇐ check_withdraw chain_id tx;
  if a_balance signer <? fee then Ret (Err (uncharged InsufficientBalance)) else Ret (Ok signer).

(** The matured sum and the entries kept by [retain]. *)
Definition split_matured (block_height : N) (entries : list Withdrawal) : N * list Withdrawal :=
  foldl (fun acc e =>
      if w_mature_at_height e <=? block_height
      then (saturating_add U128_MAX acc.1 (w_amount e), acc.2)
      else (acc.1, acc.2 ++ [e])) (0, []) entries.

Definition apply_withdraw (chain_id block_height : N) (backlog : Backlog) (fee : N) (tx : WithdrawTx) :
    stf (result Failure unit) :=
  signer ⇐ check_withdraw chain_id tx;
  if backlog_holds backlog (wd_validator tx) then
    Ret (Err (if fee <=? a_balance signer then charged (wd_validator tx) InsufficientBalance
              else uncharged InsufficientBalance))
  else
    queue ← load_withdrawal_queue (wd_validator tx);
    let '(matured, pending) := split_matured block_height (wq_entries queue) in
    match checked_add U128_MAX (a_balance signer) matured ≫= (fun b => checked_sub b fee) with
    | None => Ret (Err (uncharged InsufficientBalance))
    | Some net_balance =>
        _ ← store_account (wd_validator tx)
              {| a_nonce := saturating_add U64_MAX (a_nonce signer) 1; a_balance := net_balance |};
        if negb (bool_decide (pending = [])) then
          _ ← store_withdrawal_queue (wd_validator tx) {| wq_entries := pending |};
          Ret (Ok tt)
        else
          validator ← load_validator (wd_validator tx);
          _ ← (if (v_stake validator =? 0) && negb (v_active validator)
               then retire_validator (wd_validator tx)
               else delete_key (withdrawal_key (wd_validator tx)));
          Ret (Ok tt)
    end.

(** *** Register validator *)

Definition check_register_validator (chain_id fee min_stake : N) (tx : RegisterValidatorTx) :
    stf (result Failure (Account * N * ValidatorRegistrations)) :=
  let message := register_validator_sig_message chain_id tx in
  _ ⇐ Ret (map_err uncharged (authenticate (rv_depositor tx) message (rv_signature tx)));
  _ ⇐ Ret (map_err uncharged (authenticate (rv_validator tx) message (rv_validator_signature tx)));
  payer ⇐ check_payer (rv_depositor tx) (rv_nonce tx) (rv_deposit_amount tx) fee;
  _ ⇐ Ret (map_err (charged (rv_depositor tx)) (require_amount (rv_deposit_amount tx)));
  _ ⇐ Ret (map_err (charged (rv_depositor tx)) (require_bonded (rv_deposit_amount tx) min_stake));
  registrations ← load_validator_registrations;
  if registrations_contains registrations (rv_validator tx)
  then Ret (Err (charged (rv_depositor tx) InsufficientBalance))
  else
    existing ← load_validator (rv_validator tx);
    if (0 <? v_stake existing) || v_active existing
    then Ret (Err (charged (rv_depositor tx) InsufficientBalance))
    else Ret (Ok (payer, registrations)).

Definition apply_register_validator (chain_id block_height fee min_stake : N) (tx : RegisterValidatorTx) :
    stf (result Failure unit) :=
  '(depositor, debit, registrations) ⇐ check_register_validator chain_id fee min_stake tx;
  let '(registrations, _) := registrations_insert registrations (rv_validator tx) in
  _ ← store_validator_registration
        {| r_address := rv_validator tx; r_bls_pubkey := rv_bls_pubkey tx;
           r_pop_signature := rv_pop_signature tx; r_registered_at_height := block_height |};
  _ ← store_account (rv_depositor tx) (spend depositor debit);
  _ ← store_validator_registrations registrations;
  _ ← commit_validator (rv_validator tx) {| v_stake := rv_deposit_amount tx; v_active := true |};
  Ret (Ok tt).

(** *** Mandatory deductions *)

(** The [retain_mut] loop: burn oldest entries first. *)
Fixpoint burn_entries (entries : list Withdrawal) (remaining : N) : list Withdrawal :=
  match entries with
  | [] => []
  | e :: rest =>
      if remaining =? 0 then e :: burn_entries rest remaining
      else if w_amount e <=? remaining then burn_entries rest (remaining - w_amount e)
      else {| w_amount := w_amount e - remaining; w_mature_at_height := w_mature_at_height e |}
           :: burn_entries rest 0
  end.

Definition apply_deduction (address : Address) (amount : N) : stf (result ReceiptStatus N) :=
  validator ← load_validator address;
  queue ← load_withdrawal_queue address;
  let total_slashable := saturating_add U128_MAX (v_stake validator) (queue_total queue) in
  if total_slashable =? 0 then Ret (Err InsufficientBalance)
  else
    let burn := N.min total_slashable amount in
    let burn_from_stake := N.min (v_stake validator) burn in
    let stake := v_stake validator - burn_from_stake in
    let remaining_burn := burn - burn_from_stake in
    let queue_touched := (0 <? remaining_burn) && negb (bool_decide (wq_entries queue = [])) in
    let entries := if queue_touched then burn_entries (wq_entries queue) remaining_burn else wq_entries queue in
    _ ← commit_validator address {| v_stake := stake; v_active := 0 <? stake |};
    _ ← (if queue_touched then
           if bool_decide (entries = []) then delete_key (withdrawal_key address)
           else store_withdrawal_queue address {| wq_entries := entries |}
         else Ret tt);
    Ret (Ok burn).

End staking.
