(* ===== verification/Accountability.v ===== *)
(** * runtimes/neutrino-default/core/src/accountability.rs: mandatory sanctions

    Admission of proof-carrying evidence, the bounded FIFO of verified sanctions,
    its execution at the start of every block, and the settlement totals of
    accountability/settlement.rs. *)

From Stdlib Require Import String.
From S2P Require Import Prelude External Primitives History Evidence Sorted Backend RuntimeState Transactions Governance Staking.

Definition QUEUE_KEY : bytes := Eval vm_compute in ascii_bytes "accountability:queue:v1".
Definition SETTLEMENT_TOTALS_KEY : bytes := Eval vm_compute in ascii_bytes "accountability:settlement_totals".
Definition OFFENCE_KEY_PREFIX : bytes := Eval vm_compute in ascii_bytes "accountability:event:v1:".
Definition SLASHED_KEY_PREFIX : bytes := Eval vm_compute in ascii_bytes "accountability:slashed:v1:".
Definition EXPIRY_KEY_PREFIX : bytes := Eval vm_compute in ascii_bytes "accountability:expiry:v1:".
Definition SANCTION_RECEIPT_KIND : N := 11.

Record Sanction := { sn_offence_id : Hash; sn_offender : Validator; sn_kind : SanctionKind }.

Record PendingSanction := {
  pd_sanction : Sanction;
  pd_amount : N;
  pd_reporter : option Address;
  pd_reporter_reward_bps : N;
}.

Record AccountabilityOutput := {
  ao_anchor : EvidenceAnchor;
  ao_admitted : list Sanction;
  ao_executed : list Sanction;
  ao_queue_before : Hash;
  ao_queue_after : Hash;
}.

(** ** Settlement totals *)

Record SettlementCounter := { sc_value : N; sc_overflowed : bool }.
Record SettlementKindTotals := {
  kt_admitted : SettlementCounter;
  kt_executed : SettlementCounter;
  kt_zero_deductions : SettlementCounter;
  kt_deducted : SettlementCounter;
  kt_rewarded : SettlementCounter;
  kt_burned : SettlementCounter;
}.
Record SettlementTotals := { st_slash : SettlementKindTotals; st_inactivity : SettlementKindTotals }.

Definition counter_default : SettlementCounter := {| sc_value := 0; sc_overflowed := false |}.
Definition kind_totals_default : SettlementKindTotals :=
  {| kt_admitted := counter_default; kt_executed := counter_default; kt_zero_deductions := counter_default;
     kt_deducted := counter_default; kt_rewarded := counter_default; kt_burned := counter_default |}.
Definition totals_default : SettlementTotals :=
  {| st_slash := kind_totals_default; st_inactivity := kind_totals_default |}.

Definition counter_add (c : SettlementCounter) (amount : N) : SettlementCounter :=
  match checked_add U128_MAX (sc_value c) amount with
  | Some value => {| sc_value := value; sc_overflowed := sc_overflowed c |}
  | None => {| sc_value := U128_MAX; sc_overflowed := true |}
  end.

Definition kind_admitted (t : SettlementKindTotals) : SettlementKindTotals :=
  {| kt_admitted := counter_add (kt_admitted t) 1; kt_executed := kt_executed t;
     kt_zero_deductions := kt_zero_deductions t; kt_deducted := kt_deducted t;
     kt_rewarded := kt_rewarded t; kt_burned := kt_burned t |}.

Definition kind_executed (t : SettlementKindTotals) (deducted rewarded burned : N) : SettlementKindTotals :=
  {| kt_admitted := kt_admitted t; kt_executed := counter_add (kt_executed t) 1;
     kt_zero_deductions := counter_add (kt_zero_deductions t) (if deducted =? 0 then 1 else 0);
     kt_deducted := counter_add (kt_deducted t) deducted;
     kt_rewarded := counter_add (kt_rewarded t) rewarded;
     kt_burned := counter_add (kt_burned t) burned |}.

(** [kind_mut] followed by an update of the selected totals. *)
Definition update_kind (t : SettlementTotals) (kind : SanctionKind)
    (f : SettlementKindTotals -> SettlementKindTotals) : SettlementTotals :=
  match kind with
  | Slash => {| st_slash := f (st_slash t); st_inactivity := st_inactivity t |}
  | Inactivity => {| st_slash := st_slash t; st_inactivity := f (st_inactivity t) |}
  end.

Definition totals_admitted (t : SettlementTotals) (kind : SanctionKind) : SettlementTotals :=
  update_kind t kind kind_admitted.

(** [None]: the reward exceeds the deduction, which aborts. *)
Definition totals_executed (t : SettlementTotals) (kind : SanctionKind) (deducted rewarded : N) :
    option SettlementTotals :=
  burned ← checked_sub deducted rewarded;
  Some (update_kind t kind (fun k => kind_executed k deducted rewarded burned)).

(** ** Keys *)

Definition offence_key (id : Hash) : bytes := prefixed_key OFFENCE_KEY_PREFIX id.
Definition slashed_key (pk : BlsPublicKey) : bytes := prefixed_key SLASHED_KEY_PREFIX pk.
Definition expiry_key (height : N) : bytes := prefixed_key EXPIRY_KEY_PREFIX (to_be_bytes 8 height).

Definition replay_marker (kind : SanctionKind) (pk : BlsPublicKey) (offence_id : Hash) : bytes :=
  match kind with Slash => slashed_key pk | Inactivity => offence_key offence_id end.

Definition statement_marker_key (s : EvidenceStatement) : bytes :=
  replay_marker (kind s) (pubkey (offender s)) (offence_id s).
Definition sanction_marker_key (s : Sanction) : bytes :=
  replay_marker (sn_kind s) (pubkey (sn_offender s)) (sn_offence_id s).

(** ** Input rules *)

Inductive InputError := InputAnchor | InputOrder | InputBinding | InputCap.

Definition input_panic (e : InputError) : Panic :=
  match e with
  | InputAnchor => InvalidAnchor
  | InputOrder => EvidenceOrder
  | InputBinding => EvidenceBinding
  | InputCap => EvidencePendingCap
  end.

(** The evidence submissions a block opens with: the loop that breaks at the
    first ordinary transaction. *)
Fixpoint evidence_prefix (txs : list Transaction) : list EvidenceSubmission :=
  match txs with
  | SubmitEvidence s :: txs => s :: evidence_prefix txs
  | _ => []
  end.

Section input.
Context `{Blake3} `{Borsh EvidenceContext}.

Definition check_admissions_step (chain_id height : N) (anchor : EvidenceAnchor) (st : bool * N)
    (tx : Transaction) : result InputError (bool * N) :=
  match tx with
  | SubmitEvidence s =>
      if st.1 : bool then Err InputOrder
      else if negb (EvidenceSubmission_binds s chain_id height anchor) then Err InputBinding
      else match checked_add U32_MAX st.2 1 with Some c => Ok (st.1, c) | None => Err InputCap end
  | _ => Ok (true, st.2)
  end.

Definition check_admissions (chain_id height : N) (anchor : EvidenceAnchor) (txs : list Transaction) :
    result InputError unit :=
  if negb (EvidenceAnchor_is_well_formed anchor) then Err InputAnchor
  else
    '(_, count) ← try_fold (check_admissions_step chain_id height anchor) (false, 0) txs;
    if MAX_PENDING <? count then Err InputCap else Ok tt.

End input.

(** The encodings of the sanction queue, the totals and an expiry bucket. *)
Class AccountabilityCodec := {
  #[global] codec_queue :: Borsh (list PendingSanction);
  #[global] codec_totals :: Borsh SettlementTotals;
  codec_bucket : Borsh (list bytes);
}.

Class AccountabilityCodecLaws `{AccountabilityCodec} : Prop := {
  #[global] codec_queue_laws :: BorshLaws (list PendingSanction);
  #[global] codec_totals_laws :: BorshLaws SettlementTotals;
  codec_bucket_laws : @BorshLaws (list bytes) codec_bucket;
}.

(** What [apply] reads of the block's input. *)
Record MandatoryInput := {
  mi_anchor : EvidenceAnchor;
  mi_height : N;
  mi_gas_limit : N;
  mi_transactions : list Transaction;
}.

(** The mandatory phase's result. *)
Record Mandatory := {
  md_output : AccountabilityOutput;
  md_gas : N;
  md_receipts : list Receipt;
  md_backlog : Backlog;
}.

Definition backlog_of (queue : list PendingSanction) : Backlog :=
  {| bl_held := map (fun p => withdrawal_credentials (sn_offender (pd_sanction p))) queue;
     bl_count := len queue |}.

Section accountability.
Context `{Blake3} `{Ed25519} `{StateCodec} `{GovernanceCodec} `{AccountabilityCodec}.

Definition load_totals : stf SettlementTotals :=
  t ← read_canonical SETTLEMENT_TOTALS_KEY; Ret (default totals_default t).
Definition store_totals (t : SettlementTotals) : stf unit := write_record SETTLEMENT_TOTALS_KEY t.

Definition load_queue : stf (list PendingSanction) :=
  q ← read_canonical QUEUE_KEY; Ret (default [] q).

Definition sweep_expired_markers (height retention : N) : stf unit :=
  match checked_sub height retention ≫= (fun h => checked_sub h 1) with
  | None => Ret tt
  | Some expired =>
      keys ← @read_canonical _ codec_bucket (expiry_key expired);
      match keys with
      | None => Ret tt
      | Some keys =>
          _ ← fold_stf (fun _ key => delete_key key) tt keys;
          delete_key (expiry_key expired)
      end
  end.

Definition record_expiry_bucket (height : N) (admitted : list Sanction) : stf unit :=
  let keys := map sanction_marker_key (filter (fun s => sn_kind s = Inactivity) admitted) in
  if bool_decide (keys = []) then Ret tt else @write_record _ codec_bucket (expiry_key height) keys.

Definition check_policy (input : MandatoryInput) (policy : RuntimePolicy) : stf unit :=
  _ ← assert (policy_is_valid_for policy (mi_anchor input)) InvalidPolicy;
  let submissions := evidence_prefix (mi_transactions input) in
  _ ← fold_stf (fun _ s =>
        assert (within_age s (mi_height input) (p_evidence_max_age_blocks policy)) EvidenceWindow) tt submissions;
  assert (len submissions <=? p_evidence_admissions_per_block policy) AdmissionCap.

Definition sanction_of (s : EvidenceStatement) : Sanction :=
  {| sn_offence_id := offence_id s; sn_offender := offender s; sn_kind := kind s |}.

(** Accumulator: admitted sanctions, slashed identities, offence ids. *)
Definition collect_step (acc : list Sanction * list BlsPublicKey * list Hash) (s : EvidenceSubmission) :
    stf (list Sanction * list BlsPublicKey * list Hash) :=
  let '(admitted, slashed, ids) := acc in
  let claim := statement s in
  marker ← read (statement_marker_key claim);
  _ ← assert (bool_decide (marker = None)) OffenceReplay;
  absent ← match kind claim with
           | Inactivity => certified_absent (ctx_chunk_id (context claim)) (withdrawal_credentials (offender claim))
           | Slash => Ret true
           end;
  _ ← assert absent UncertifiedInactivity;
  let fresh := match kind claim with
               | Slash => negb (bool_decide (pubkey (offender claim) ∈ slashed))
               | Inactivity => negb (bool_decide (offence_id claim ∈ ids))
               end in
  _ ← assert fresh DuplicateOffence;
  Ret (admitted ++ [sanction_of claim],
       match kind claim with Slash => pubkey (offender claim) :: slashed | Inactivity => slashed end,
       offence_id claim :: ids).

Definition collect_admissions (input : MandatoryInput) : stf (list Sanction) :=
  '(admitted, _, _) ← fold_stf collect_step ([], [], []) (evidence_prefix (mi_transactions input));
  Ret admitted.

Definition pending_of (policy : RuntimePolicy) (s : Sanction) (reporter_ : option Hash) : PendingSanction :=
  {| pd_sanction := s;
     pd_amount := match sn_kind s with
                  | Slash => p_slash_amount policy
                  | Inactivity => p_inactivity_leak_amount policy
                  end;
     pd_reporter := match sn_kind s with Slash => reporter_ | Inactivity => None end;
     pd_reporter_reward_bps := match sn_kind s with Slash => p_reporter_reward_bps policy | Inactivity => 0 end |}.

Definition enqueue_admissions (input : MandatoryInput) (policy : RuntimePolicy) (admitted : list Sanction)
    (queue : list PendingSanction) : stf (list PendingSanction) :=
  fold_stf (fun queue p =>
      _ ← write (sanction_marker_key p.1) [0];
      Ret (queue ++ [pending_of policy p.1 (reporter (statement p.2))]))
    queue (zip admitted (evidence_prefix (mi_transactions input))).

Definition credit_reporter (reporter_ : Address) (deducted basis_points : N) : stf N :=
  _ ← assert (basis_points <=? BASIS_POINTS) RewardShare;
  let reward := mul_div_floor deducted basis_points BASIS_POINTS in
  if reward =? 0 then Ret 0
  else
    account ← load_account reporter_;
    let credited := N.min reward (U128_MAX - a_balance account) in
    _ ← store_account reporter_ {| a_nonce := a_nonce account; a_balance := a_balance account + credited |};
    Ret credited.

Definition execute_pending (item : PendingSanction) (totals : SettlementTotals) :
    stf (ReceiptStatus * SettlementTotals) :=
  let s := pd_sanction item in
  result_ ← apply_deduction (withdrawal_credentials (sn_offender s)) (pd_amount item);
  '(status, deducted, rewarded) ←
    match result_ with
    | Ok deducted =>
        rewarded ← match sn_kind s, pd_reporter item with
                   | Slash, Some r => credit_reporter r deducted (pd_reporter_reward_bps item)
                   | _, _ => Ret 0
                   end;
        Ret (Success, deducted, rewarded)
    | Err InsufficientBalance => Ret (InsufficientBalance, 0, 0)
    | Err _ => Abort UnexpectedDeduction
    end;
  totals ← expect (totals_executed totals (sn_kind s) deducted rewarded) RewardExceedsDeduction;
  _ ← write (sanction_marker_key s) [1];
  Ret (status, totals).

(** Body of the loop over the drained queue prefix: totals and receipts. *)
Definition execute_step (acc : SettlementTotals * list Receipt) (item : PendingSanction) :
    stf (SettlementTotals * list Receipt) :=
  '(status, totals) ← execute_pending item acc.1;
  Ret (totals, acc.2 ++ [{| rc_status_code := status_as_u32 status; rc_gas_used := GAS_SANCTION;
                            rc_kind := SANCTION_RECEIPT_KIND |}]).

(** [apply]: admissions, then the mandatory FIFO prefix. *)
Definition apply_mandatory (input : MandatoryInput) (policy : RuntimePolicy) : stf Mandatory :=
  _ ← check_policy input policy;
  stored ← read QUEUE_KEY;
  queue ← match stored with
          | None => Ret []
          | Some b => expect (borsh_from_slice b) NonCanonical
          end;
  _ ← assert (len queue <=? p_evidence_max_pending policy) QueueBound;
  let before := match stored with Some b => blake3_256 b | None => commitment queue end in
  _ ← sweep_expired_markers (mi_height input) (an_unbonding_delay_blocks (mi_anchor input));
  admitted ← collect_admissions input;
  let execution_count := N.min (len queue + len admitted) (p_evidence_executions_per_block policy) in
  execution_gas ← expect (checked_mul U64_MAX execution_count GAS_SANCTION) CountOverflow;
  admission_gas ← expect (checked_mul U64_MAX (len admitted) GAS_EVIDENCE_ADMISSION) CountOverflow;
  _ ← assert match checked_add U64_MAX execution_gas admission_gas with
             | Some gas => gas <=? mi_gas_limit input
             | None => false
             end SanctionGas;
  _ ← assert (len queue + len admitted - execution_count <=? p_evidence_max_pending policy) QueueCapacity;
  queue ← enqueue_admissions input policy admitted queue;
  _ ← record_expiry_bucket (mi_height input) admitted;
  let settles := negb (bool_decide (admitted = [])) || (0 <? execution_count) in
  totals ← (if settles then load_totals else Ret totals_default);
  let totals := foldl (fun t s => totals_admitted t (sn_kind s)) totals admitted in
  let drained := take (N.to_nat execution_count) queue in
  let residue := drop (N.to_nat execution_count) queue in
  '(totals, receipts) ← fold_stf execute_step (totals, []) drained;
  _ ← (if settles then store_totals totals else Ret tt);
  let residual := borsh_to_vec residue in
  let after := blake3_256 residual in
  _ ← (if bool_decide (before = after) then Ret tt else write QUEUE_KEY residual);
  Ret {| md_output := {| ao_anchor := mi_anchor input; ao_admitted := admitted;
                         ao_executed := map pd_sanction drained;
                         ao_queue_before := before; ao_queue_after := after |};
         md_gas := execution_gas;
         md_receipts := receipts;
         md_backlog := backlog_of residue |}.

End accountability.
