(* ===== verification/Stf.v ===== *)
(** * runtimes/neutrino-default/core/src/lib.rs: block execution and admission

    [apply_block] composes the certified participation report, the mandatory
    sanction phase, governance housekeeping and the ordinary transactions under
    the block's gas ceiling, through the write-back view of the backend;
    [validate_tx] is mempool admission with the same checks. *)

From Stdlib Require Import String.
From S2P Require Import Prelude External Primitives History Evidence Sorted Backend RuntimeState Transactions Governance Staking Accountability.

Record StfInput := {
  in_evidence_anchor : EvidenceAnchor;
  in_chain_id : N;
  in_block_height : N;
  in_block_gas_limit : N;
  in_proposer_address : Address;
  in_participation : option ParticipationReport;
  in_transactions : list Transaction;
}.

Record StfPublicOutput := {
  out_accountability : AccountabilityOutput;
  out_chain_id : N;
  out_block_height : N;
  out_block_gas_limit : N;
  out_gas_price : N;
  out_proposer_address : Address;
  out_participation : Hash;
  out_transactions_root : Hash;
  out_transaction_count : N;
  out_pre_state_root : Hash;
  out_post_state_root : Hash;
  out_applied : N;
  out_failed : N;
  out_validator_set_root : Hash;
  out_gas_used : N;
  out_receipts_root : Hash;
}.

Record BlockFacts := {
  bf_input : StfInput;
  bf_gas_price : N;
  bf_min_validator_stake : N;
  bf_governance : BlockContext;
  bf_backlog : Backlog;
}.

Record Tally := {
  tl_applied : N;
  tl_failed : N;
  tl_gas_used : N;
  tl_proposer_fee : N;
  tl_receipts : list Receipt;
}.

Definition DOMAIN_RECEIPTS_ROOT : bytes := Eval vm_compute in ascii_bytes "NTRO/receipts" ++ replicate 3 0.

(** [TxValidationCode] and [TxValidity] of crates/runtime-abi. *)
Inductive TxValidationCode :=
| TxValid | TxMalformed | TxBadSignature | TxNonceMismatch | TxInsufficientBalance | TxUnauthorized
| TxUnknownType | TxStateReadFailed.

Record TxValidity := { tv_code : TxValidationCode; tv_priority : N }.

Definition tx_valid (priority : N) : TxValidity := {| tv_code := TxValid; tv_priority := priority |}.
Definition tx_invalid (code : TxValidationCode) : TxValidity := {| tv_code := code; tv_priority := 0 |}.

Definition rejection (s : ReceiptStatus) : TxValidationCode :=
  match s with
  | BadSignature => TxBadSignature
  | NonceMismatch => TxNonceMismatch
  | InsufficientBalance | Overflow => TxInsufficientBalance
  | Success | OutOfBlockGas | Unauthorized | UpgradeConflict | InvalidUpgrade | AlreadyVoted => TxUnauthorized
  end.

Definition admission {A} (checked : result Failure A) : TxValidity :=
  match checked with
  | Ok _ => tx_valid 0
  | Err failure => tx_invalid (rejection (f_status failure))
  end.

Section stf.
Context `{Blake3} `{Ed25519} `{StateCodec} `{GovernanceCodec} `{AccountabilityCodec}.
Context `{Borsh EvidenceContext} `{Borsh Transaction}.

Definition compute_receipts_root (receipts : list Receipt) : Hash :=
  blake3_hash (DOMAIN_RECEIPTS_ROOT ++ to_le_bytes 8 (len receipts)
    ++ concat (map (fun r => to_le_bytes 4 (rc_status_code r) ++ to_le_bytes 8 (rc_gas_used r) ++ [rc_kind r])
         receipts)).

(** [commitments.rs]: the transaction Merkle root and count. *)
Definition transaction_leaf (tx : Transaction) : option Hash :=
  length_ ← try_from U32_MAX (len (borsh_to_vec tx));
  Some (blake3_256 (to_le_bytes 4 length_ ++ borsh_to_vec tx)).

Definition transaction_commitments (txs : list Transaction) : option (Hash * N) :=
  count ← try_from U32_MAX (len txs);
  leaves ← mapM transaction_leaf txs;
  root ← merkle_root_from_hashes leaves;
  Some (root, count).

Definition apply_transaction (facts : BlockFacts) (fee : N) (tx : Transaction) : stf (result Failure unit) :=
  let input := bf_input facts in
  let chain_id := in_chain_id input in
  let height := in_block_height input in
  let unbonding_delay := an_unbonding_delay_blocks (in_evidence_anchor input) in
  let min_stake := bf_min_validator_stake facts in
  match tx with
  | Transfer t => apply_transfer chain_id fee t
  | Stake t => apply_stake chain_id height fee min_stake t
  | Unstake t => apply_unstake chain_id height unbonding_delay fee min_stake t
  | SubmitEvidence _ => Ret (Ok tt)
  | Deposit t => apply_deposit chain_id height fee min_stake t
  | VoluntaryExit t => apply_voluntary_exit chain_id height unbonding_delay fee t
  | Withdraw t => apply_withdraw chain_id height (bf_backlog facts) fee t
  | RegisterValidator t => apply_register_validator chain_id height fee min_stake t
  | ProposeUpgrade t => apply_propose chain_id (bf_governance facts) fee t
  | VoteUpgrade t => apply_vote chain_id (bf_governance facts) fee t
  | ProposePolicy t => apply_propose_policy chain_id (bf_governance facts) fee t
  end.

(** Fee and nonce of an authorized transaction that failed. *)
Definition charge_failure (payer : Address) (fee : N) : stf N :=
  account ← load_account payer;
  let charged_ := N.min fee (a_balance account) in
  _ ← store_account payer (spend account charged_);
  Ret charged_.

(** Body of the loop over the block's transactions. *)
Definition execute_transaction (facts : BlockFacts) (tally : Tally) (tx : Transaction) : stf Tally :=
  let kind := tx_kind_code tx in
  let cost := tx_gas tx in
  let fee := saturating_mul U128_MAX cost (bf_gas_price facts) in
  if in_block_gas_limit (bf_input facts) <? saturating_add U64_MAX (tl_gas_used tally) cost then
    Ret {| tl_applied := tl_applied tally; tl_failed := saturating_add U32_MAX (tl_failed tally) 1;
           tl_gas_used := tl_gas_used tally; tl_proposer_fee := tl_proposer_fee tally;
           tl_receipts := tl_receipts tally ++
             [{| rc_status_code := status_as_u32 OutOfBlockGas; rc_gas_used := 0; rc_kind := kind |}] |}
  else
    outcome ← apply_transaction facts fee tx;
    match outcome with
    | Ok _ =>
        Ret {| tl_applied := saturating_add U32_MAX (tl_applied tally) 1; tl_failed := tl_failed tally;
               tl_gas_used := saturating_add U64_MAX (tl_gas_used tally) cost;
               tl_proposer_fee := if tx_charges_fee tx
                                  then saturating_add U128_MAX (tl_proposer_fee tally) fee
                                  else tl_proposer_fee tally;
               tl_receipts := tl_receipts tally ++
                 [{| rc_status_code := status_as_u32 Success; rc_gas_used := cost; rc_kind := kind |}] |}
    | Err failure =>
        proposer_fee ← match f_payer failure with
                       | Some payer =>
                           if tx_charges_fee tx then
                             charged_ ← charge_failure payer fee;
                             Ret (saturating_add U128_MAX (tl_proposer_fee tally) charged_)
                           else Ret (tl_proposer_fee tally)
                       | None => Ret (tl_proposer_fee tally)
                       end;
        Ret {| tl_applied := tl_applied tally; tl_failed := saturating_add U32_MAX (tl_failed tally) 1;
               tl_gas_used := saturating_add U64_MAX (tl_gas_used tally) cost;
               tl_proposer_fee := proposer_fee;
               tl_receipts := tl_receipts tally ++
                 [{| rc_status_code := status_as_u32 (f_status failure); rc_gas_used := cost; rc_kind := kind |}] |}
    end.

Definition execute_transactions (facts : BlockFacts) (tally : Tally) : stf Tally :=
  fold_stf (execute_transaction facts) tally (in_transactions (bf_input facts)).

Definition credit_proposer (proposer : Address) (fee : N) : stf unit :=
  if fee =? 0 then Ret tt
  else
    account ← load_account proposer;
    store_account proposer
      {| a_nonce := a_nonce account; a_balance := saturating_add U128_MAX (a_balance account) fee |}.

(** What the block leaves besides the state roots. *)
Record BlockResult := {
  br_mandatory : Mandatory;
  br_policy : RuntimePolicy;
  br_participation : Hash;
  br_commitments : Hash * N;
  br_tally : Tally;
  br_validator_set_root : Hash;
}.

Definition mandatory_input (input : StfInput) : MandatoryInput :=
  {| mi_anchor := in_evidence_anchor input; mi_height := in_block_height input;
     mi_gas_limit := in_block_gas_limit input; mi_transactions := in_transactions input |}.

Definition block_facts (input : StfInput) (policy : RuntimePolicy) (mandatory : Mandatory) : BlockFacts :=
  {| bf_input := input; bf_gas_price := p_gas_price policy;
     bf_min_validator_stake := p_min_validator_stake policy;
     bf_governance := {| bc_chunk := an_chunk_id (in_evidence_anchor input); bc_height := in_block_height input;
                         bc_anchor := in_evidence_anchor input;
                         bc_pending_sanctions := bl_count (md_backlog mandatory) |};
     bf_backlog := md_backlog mandatory |}.

Definition tally_start (mandatory : Mandatory) : Tally :=
  {| tl_applied := 0; tl_failed := 0; tl_gas_used := md_gas mandatory; tl_proposer_fee := 0;
     tl_receipts := md_receipts mandatory |}.

(** Everything between [BlockState::new] and [finish]. *)
Definition block_program (input : StfInput) : stf BlockResult :=
  policy ← load_runtime_policy;
  participation ← apply_participation (in_participation input);
  mandatory ← apply_mandatory (mandatory_input input) policy;
  _ ← expire (an_chunk_id (in_evidence_anchor input));
  commitments ← expect (transaction_commitments (in_transactions input)) CountOverflow;
  tally ← execute_transactions (block_facts input policy mandatory) (tally_start mandatory);
  _ ← credit_proposer (in_proposer_address input) (tl_proposer_fee tally);
  candidates ← load_consensus_candidates;
  Ret {| br_mandatory := mandatory; br_policy := policy; br_participation := participation;
         br_commitments := commitments; br_tally := tally;
         br_validator_set_root := candidates_root candidates |}.

Definition apply_block_validated `{StateBackend B} (input : StfInput) (state_ : B) :
    result Panic (StfPublicOutput * B) :=
  let pre := pre_state_root state_ in
  '(r, block) ← run (block_program input) (BlockState_new state_);
  state_ ← BlockState_finish block;
  Ok ({| out_accountability := md_output (br_mandatory r);
         out_chain_id := in_chain_id input;
         out_block_height := in_block_height input;
         out_block_gas_limit := in_block_gas_limit input;
         out_gas_price := p_gas_price (br_policy r);
         out_proposer_address := in_proposer_address input;
         out_participation := br_participation r;
         out_transactions_root := (br_commitments r).1;
         out_transaction_count := (br_commitments r).2;
         out_pre_state_root := pre;
         out_post_state_root := post_state_root state_;
         out_applied := tl_applied (br_tally r);
         out_failed := tl_failed (br_tally r);
         out_validator_set_root := br_validator_set_root r;
         out_gas_used := tl_gas_used (br_tally r);
         out_receipts_root := compute_receipts_root (tl_receipts (br_tally r)) |}, state_).

Definition apply_block `{StateBackend B} (input : StfInput) (state_ : B) : result Panic (StfPublicOutput * B) :=
  _ ← map_err input_panic (check_admissions (in_chain_id input) (in_block_height input)
        (in_evidence_anchor input) (in_transactions input));
  apply_block_validated input state_.

(** ** Transaction admission *)

Definition validate_tx (tx_bytes : bytes) (chain_id block_gas_limit : N) : stf TxValidity :=
  match borsh_from_slice (A := Transaction) tx_bytes with
  | None => Ret (tx_invalid TxMalformed)
  | Some tx =>
      let cost := tx_gas tx in
      if block_gas_limit <? cost then Ret (tx_invalid TxInsufficientBalance)
      else
        policy ← load_runtime_policy;
        let min_stake := p_min_validator_stake policy in
        let fee := if tx_charges_fee tx then saturating_mul U128_MAX cost (p_gas_price policy) else 0 in
        match tx with
        | Transfer t => admission <$> check_transfer chain_id fee t
        | Stake t => admission <$> check_stake chain_id fee min_stake t
        | Unstake t => admission <$> check_unstake chain_id fee min_stake t
        | Deposit t => admission <$> check_deposit chain_id fee min_stake t
        | VoluntaryExit t => admission <$> check_voluntary_exit chain_id fee t
        | Withdraw t => admission <$> admit_withdraw chain_id fee t
        | RegisterValidator t => admission <$> check_register_validator chain_id fee min_stake t
        | SubmitEvidence _ => Ret (tx_invalid TxUnauthorized)
        | ProposeUpgrade t => admission <$> check_propose chain_id None fee t
        | VoteUpgrade t => admission <$> check_vote chain_id None fee t
        | ProposePolicy t => admission <$> check_propose_policy chain_id None fee t
        end
  end.

End stf.
