(* ===== verification/Views.v ===== *)
(** * Reading and writing the runtime's state

    What the state holds, record by record; the money supply, the sum of every
    spendable balance, bonded stake and queued withdrawal; symbolic execution of
    the state transition's programs; and the two mirrors of the validator records,
    the canonical set and the consensus candidates. *)

From S2P Require Import Prelude External Primitives History Evidence Sorted Backend RuntimeState Transactions Governance Staking Accountability Stf.

(** ** Reading a state *)

Fixpoint has_prefix (p k : bytes) : bool :=
  match p, k with
  | [], _ => true
  | x :: p, y :: k => (x =? y) && has_prefix p k
  | _ :: _, [] => false
  end.

(** The record [key] decodes to. *)
Definition peek {T} `{Borsh T} (key : bytes) (s : state) : option T := s !! key ≫= borsh_from_slice.

(** Two states that differ at most at [ks]. *)
Definition agree_off (ks : list bytes) (s s' : state) : Prop := forall k, k ∉ ks -> s' !! k = s !! k.

Section views.
Context `{StateCodec} `{GovernanceCodec}.

Definition account_at (s : state) (a : Address) : Account := default Account_default (peek (account_key a) s).
Definition nonce_at (s : state) (a : Address) : N := a_nonce (account_at s a).
Definition balance_at (s : state) (a : Address) : N := a_balance (account_at s a).
Definition validator_rec (s : state) (a : Address) : option RtValidator := peek (validator_key a) s.
Definition validator_at (s : state) (a : Address) : RtValidator := default RtValidator_default (validator_rec s a).
Definition queue_at (s : state) (a : Address) : WithdrawalQueue :=
  default {| wq_entries := [] |} (peek (withdrawal_key a) s).
Definition registration_rec (s : state) (a : Address) : option ValidatorRegistration :=
  peek (registration_key a) s.
Definition registrations_at (s : state) : ValidatorRegistrations :=
  default {| reg_addresses := [] |} (peek VALIDATOR_REGISTRATIONS_KEY s).
Definition set_at (s : state) : ValidatorSet := default {| set_entries := [] |} (peek VALIDATOR_SET_KEY s).
Definition candidates_at (s : state) : ConsensusCandidates :=
  default {| cand_entries := [] |} (peek CONSENSUS_CANDIDATES_KEY s).
Definition policy_at (s : state) : RuntimePolicy := default RuntimePolicy_default (peek RUNTIME_POLICY_KEY s).
Definition proposal_at (s : state) : option UpgradeProposal := peek UPGRADE_PROPOSAL_KEY s.

(** ** The money supply *)

(** What the value of one key is worth. *)
Definition worth (k v : bytes) : N :=
  if has_prefix ACCOUNT_KEY_PREFIX k then
    a_balance (default Account_default (borsh_from_slice v))
  else if has_prefix VALIDATOR_KEY_PREFIX k then
    v_stake (default RtValidator_default (borsh_from_slice v))
  else if has_prefix WITHDRAWAL_KEY_PREFIX k then
    sum_by w_amount (wq_entries (default {| wq_entries := [] |} (borsh_from_slice v)))
  else 0.

Definition worth_at (s : state) (k : bytes) : N := match s !! k with Some v => worth k v | None => 0 end.

Definition supply (s : state) : N := map_fold (fun k v total => worth k v + total) 0 s.

(** ** The mirrors of the validator records *)

(** The row of the canonical set, and the candidate, of one address. *)
Definition entry_of (a : Address) (v : option RtValidator) : option ValidatorSetEntry :=
  match v with
  | Some v => if v_active v then Some {| e_address := a; e_stake := v_stake v |} else None
  | None => None
  end.

Definition candidate_of (a : Address) (v : option RtValidator) (r : option ValidatorRegistration) :
    option ConsensusCandidate :=
  match v, r with
  | None, None => None
  | _, _ =>
      Some {| c_address := a; c_stake := match v with Some v => v_stake v | None => 0 end;
              c_identity := match r with
                            | Some r => Some {| id_pubkey := r_bls_pubkey r; id_pop_signature := r_pop_signature r |}
                            | None => None
                            end |}
  end.

(** Outside [ex], the set and the candidates are functions of the records. *)
Record mirrored_off (ex : list Address) (s : state) : Prop := {
  mr_set_sorted : sorted e_address (set_entries (set_at s));
  mr_set : forall a, a ∉ ex -> sorted_get e_address (set_entries (set_at s)) a = entry_of a (validator_rec s a);
  mr_candidates_sorted : sorted c_address (cand_entries (candidates_at s));
  mr_candidates : forall a, a ∉ ex ->
    candidates_get (candidates_at s) a = candidate_of a (validator_rec s a) (registration_rec s a);
  mr_registrations_sorted : sorted id (reg_addresses (registrations_at s));
  mr_registrations : forall a, registrations_contains (registrations_at s) a = true <-> is_Some (registration_rec s a);
  mr_active : forall a v, a ∉ ex -> validator_rec s a = Some v -> v_active v = (0 <? v_stake v);
}.

Definition mirrored (s : state) : Prop := mirrored_off [] s.

End views.

(** The keys [commit_validator], [unbond] and [retire_validator] write. *)
Definition commit_keys (a : Address) : list bytes := [validator_key a; VALIDATOR_SET_KEY; CONSENSUS_CANDIDATES_KEY].
Definition unbond_keys (a : Address) : list bytes := commit_keys a ++ [withdrawal_key a].
Definition retire_keys (a : Address) : list bytes :=
  [validator_key a; withdrawal_key a; bonding_key a; registration_key a; VALIDATOR_REGISTRATIONS_KEY;
   CONSENSUS_CANDIDATES_KEY].

Definition register_keys (a : Address) : list bytes :=
  [registration_key a; VALIDATOR_REGISTRATIONS_KEY] ++ commit_keys a.

Definition governance_keys : list bytes := [UPGRADE_PROPOSAL_KEY; UPGRADE_KEY; RUNTIME_POLICY_KEY].

(** The keys the mirrors read. *)
Definition mirror_key (k : bytes) : bool :=
  has_prefix VALIDATOR_KEY_PREFIX k || has_prefix VALIDATOR_SET_KEY k || has_prefix CONSENSUS_CANDIDATES_KEY k
  || has_prefix REGISTRATION_KEY_PREFIX k || has_prefix VALIDATOR_REGISTRATIONS_KEY k.

(** Keys ordinary transactions never write; only governance transactions write
    the governance records. *)
Definition ACCOUNTABILITY_PREFIX : bytes := Eval vm_compute in take 15 QUEUE_KEY.
Definition governance_key (k : bytes) : bool :=
  has_prefix UPGRADE_PROPOSAL_KEY k || has_prefix UPGRADE_KEY k || has_prefix RUNTIME_POLICY_KEY k.
Definition reserved (governance : bool) (k : bytes) : bool :=
  has_prefix ACCOUNTABILITY_PREFIX k || has_prefix ABSENT_KEY_PREFIX k || (negb governance && governance_key k).

(* ------------------------------------------------------------------ *)
(** ** Keys *)

(** Two keys with different literal parts. *)
Ltac key_ne := let Heq := fresh in intros Heq; vm_compute in Heq; discriminate Heq.

(** A key outside a list of keys, and a list of different keys. *)
Ltac key_lists := unfold register_keys, retire_keys, unbond_keys, commit_keys, governance_keys; cbn [app].
Ltac key_notin :=
  key_lists; rewrite ?elem_of_cons, ?elem_of_nil;
  let Heq := fresh in
  intros Heq; repeat (destruct Heq as [Heq|Heq]; [vm_compute in Heq; discriminate Heq|]); done.
(** The same when one member differs by its address, by [H]. *)
Ltac key_notin_by H :=
  key_lists; rewrite ?elem_of_cons, ?elem_of_nil;
  let Heq := fresh in
  intros Heq;
  repeat (destruct Heq as [Heq|Heq]; [first [solve [destruct (H Heq)] | vm_compute in Heq; discriminate Heq]|]); done.
(** A key with the property [H] is none of the keys of a list. *)
Ltac key_untouched H :=
  key_lists; rewrite ?elem_of_cons, ?elem_of_nil;
  let Hin := fresh in
  intros Hin; repeat (destruct Hin as [->|Hin]; [vm_compute in H; discriminate H|]); done.
Ltac key_nodup := key_lists; repeat (apply NoDup_cons; split; [key_notin|]); apply NoDup_nil_2.

Lemma prefixed_key_inj p a b : prefixed_key p a = prefixed_key p b -> a = b.
Proof. apply app_inv_head. Qed.

Lemma peek_same {T} `{Borsh T} k s s' : s' !! k = s !! k -> peek k s' = peek k s.
Proof. unfold peek. by intros ->. Qed.

Lemma peek_insert {T} `{BorshLaws T} k s (x : T) : peek k (<[k := borsh_to_vec x]> s) = Some x.
Proof. unfold peek. rewrite lookup_insert_eq. apply borsh_roundtrip. Qed.

Lemma peek_insert_ne {T} `{Borsh T} k k' v s : k <> k' -> peek k (<[k' := v]> s) = peek (T := T) k s.
Proof. intros Hne. apply peek_same. by rewrite lookup_insert_ne. Qed.

Lemma peek_delete {T} `{Borsh T} k s : peek (T := T) k (delete k s) = None.
Proof. unfold peek. by rewrite lookup_delete_eq. Qed.

Lemma peek_delete_ne {T} `{Borsh T} k k' s : k <> k' -> peek k (delete k' s) = peek (T := T) k s.
Proof. intros Hne. apply peek_same. by rewrite lookup_delete_ne. Qed.

(** Read a view of an updated state. *)
Ltac views :=
  unfold account_at, validator_at, validator_rec, queue_at, registration_rec, registrations_at, set_at,
    candidates_at, policy_at, proposal_at;
  repeat first [rewrite peek_insert | rewrite peek_delete
               | rewrite peek_insert_ne by key_ne | rewrite peek_delete_ne by key_ne].

Lemma agree_off_refl ks s : agree_off ks s s.
Proof. by intros k. Qed.

Lemma agree_off_trans ks ls s t u : agree_off ks s t -> agree_off ls t u -> agree_off (ks ++ ls) s u.
Proof. intros Hst Htu k Hk. rewrite Htu, Hst; [done|set_solver..]. Qed.

Lemma agree_off_insert k v s : agree_off [k] s (<[k := v]> s).
Proof. intros k' Hk. rewrite lookup_insert_ne; set_solver. Qed.

Lemma agree_off_delete k s : agree_off [k] s (delete k s).
Proof. intros k' Hk. rewrite lookup_delete_ne; set_solver. Qed.

Lemma agree_off_weaken ks ls s s' : (forall k, k ∈ ks -> k ∈ ls) -> agree_off ks s s' -> agree_off ls s s'.
Proof. intros Hsub Hag k Hk. apply Hag. auto. Qed.

#[export] Hint Resolve agree_off_refl agree_off_insert agree_off_delete : neutrino.

Section supply.
Context `{StateCodec}.

Lemma supply_insert_new s k v : s !! k = None -> supply (<[k := v]> s) = worth k v + supply s.
Proof. intros Hk. unfold supply. rewrite map_fold_insert_L; [done|intros; lia|done]. Qed.

Lemma supply_delete s k : supply (delete k s) + worth_at s k = supply s.
Proof.
  unfold worth_at. destruct (s !! k) as [v|] eqn:Hk; [|rewrite delete_id by done; lia].
  rewrite <- (insert_delete_id s k v Hk) at 2. rewrite supply_insert_new by apply lookup_delete_eq. lia.
Qed.

(** The supply, as the worth of a few keys and of the rest. *)
Lemma supply_split ks s :
  NoDup ks -> supply s = supply (foldr delete s ks) + sum_by (worth_at s) ks.
Proof.
  revert s. induction ks as [|k ks IH]; intros s Hnd; [cbn; lia|].
  apply NoDup_cons in Hnd as [Hk Hnd]. cbn [foldr]. rewrite sum_by_cons, (IH s Hnd).
  pose proof (supply_delete (foldr delete s ks) k) as Hd.
  assert (worth_at (foldr delete s ks) k = worth_at s k) as Hw.
  { unfold worth_at. by rewrite lookup_foldr_delete_not_elem_of. }
  lia.
Qed.

(** Two states that agree elsewhere differ in supply by what the keys are worth. *)
Lemma supply_agree ks s s' :
  NoDup ks -> agree_off ks s s' ->
  supply s' + sum_by (worth_at s) ks = supply s + sum_by (worth_at s') ks.
Proof.
  intros Hnd Hag. rewrite (supply_split ks s), (supply_split ks s') by done.
  assert (foldr delete s' ks = foldr delete s ks) as ->; [|lia].
  apply map_eq. intros k. destruct (decide (k ∈ ks)) as [Hin|Hout].
  - by rewrite !lookup_foldr_delete.
  - rewrite !lookup_foldr_delete_not_elem_of by done. by apply Hag.
Qed.

Lemma worth_le_supply s k : worth_at s k <= supply s.
Proof. pose proof (supply_delete s k). lia. Qed.

Lemma worth_account s a : worth_at s (account_key a) = balance_at s a.
Proof.
  unfold worth_at, balance_at, account_at, peek.
  destruct (s !! account_key a); [|done]. reflexivity.
Qed.

Lemma worth_validator s a : worth_at s (validator_key a) = v_stake (validator_at s a).
Proof.
  unfold worth_at, validator_at, validator_rec, peek.
  destruct (s !! validator_key a); [|done]. reflexivity.
Qed.

Lemma worth_queue s a : worth_at s (withdrawal_key a) = sum_by w_amount (wq_entries (queue_at s a)).
Proof.
  unfold worth_at, queue_at, peek. destruct (s !! withdrawal_key a); [|done]. reflexivity.
Qed.

Lemma worth_none s k :
  has_prefix ACCOUNT_KEY_PREFIX k = false -> has_prefix VALIDATOR_KEY_PREFIX k = false ->
  has_prefix WITHDRAWAL_KEY_PREFIX k = false -> worth_at s k = 0.
Proof. intros Ha Hv Hw. unfold worth_at, worth. rewrite Ha, Hv, Hw. by destruct (s !! k). Qed.

(** Only the keys of accounts, validators and withdrawal queues are worth
    anything. *)
Definition worth_key (k : bytes) : bool :=
  has_prefix ACCOUNT_KEY_PREFIX k || has_prefix VALIDATOR_KEY_PREFIX k || has_prefix WITHDRAWAL_KEY_PREFIX k.

Lemma supply_filter s : supply s = supply (filter (fun p => worth_key p.1 = true) s).
Proof.
  induction s as [|k v s Hk IH] using map_ind; [done|]. rewrite supply_insert_new by done.
  rewrite map_filter_insert. cbn [fst]. case_decide as Hw.
  - rewrite supply_insert_new, IH; [done|]. apply map_lookup_filter_None. by left.
  - rewrite delete_id by done. rewrite IH. unfold worth_key in Hw. unfold worth.
    destruct (has_prefix _ k), (has_prefix _ k), (has_prefix _ k); try done; lia.
Qed.

Lemma supply_same s s' : (forall k, worth_key k = true -> s' !! k = s !! k) -> supply s' = supply s.
Proof.
  intros Hsame. rewrite (supply_filter s), (supply_filter s'). f_equal. apply map_eq. intros k.
  rewrite !map_lookup_filter. destruct (decide (worth_key k = true)) as [Hk|Hk]; [by rewrite Hsame|].
  destruct (s' !! k), (s !! k); cbn; rewrite ?option_guard_False by done; done.
Qed.

End supply.

(* ------------------------------------------------------------------ *)
(** ** Symbolic execution *)

Lemma wp_read_record (P : Prop) {T : Type} `{Borsh T} (key : bytes) (Q : option T -> state -> Prop) (s : state) :
  Q (peek key s) s -> wp P (read_record key) Q s.
Proof. done. Qed.

Lemma wp_write_record (P : Prop) {T : Type} `{Borsh T} (key : bytes) (x : T) (Q : unit -> state -> Prop) (s : state) :
  Q tt (<[key := borsh_to_vec x]> s) -> wp P (write_record key x) Q s.
Proof. done. Qed.

Section loads.
Context `{StateCodec}.

Lemma wp_load_account (P : Prop) (a : Address) Q s : Q (account_at s a) s -> wp P (load_account a) Q s.
Proof. done. Qed.
Lemma wp_load_validator_record (P : Prop) (a : Address) Q s : Q (validator_rec s a) s -> wp P (load_validator_record a) Q s.
Proof. done. Qed.
Lemma wp_load_validator (P : Prop) (a : Address) Q s : Q (validator_at s a) s -> wp P (load_validator a) Q s.
Proof. done. Qed.
Lemma wp_load_validator_registration (P : Prop) (a : Address) Q s : Q (registration_rec s a) s -> wp P (load_validator_registration a) Q s.
Proof. done. Qed.
Lemma wp_load_validator_set (P : Prop) Q s : Q (set_at s) s -> wp P (load_validator_set) Q s.
Proof. done. Qed.
Lemma wp_load_validator_registrations (P : Prop) Q s : Q (registrations_at s) s -> wp P (load_validator_registrations) Q s.
Proof. done. Qed.
Lemma wp_load_consensus_candidates (P : Prop) Q s : Q (candidates_at s) s -> wp P (load_consensus_candidates) Q s.
Proof. done. Qed.
Lemma wp_load_withdrawal_queue (P : Prop) (a : Address) Q s : Q (queue_at s a) s -> wp P (load_withdrawal_queue a) Q s.
Proof. done. Qed.
Lemma wp_load_runtime_policy (P : Prop) Q s : Q (policy_at s) s -> wp P (load_runtime_policy) Q s.
Proof. done. Qed.

End loads.

(** One step of a run.  Loads become the record the state holds, stores an
    insertion; branches are left to the caller. *)
Ltac wp_step :=
  lazymatch goal with
  | |- wp _ (Ret _) _ _ => apply wp_ret
  | |- wp _ (read_record _) _ _ => apply wp_read_record
  | |- wp _ (write_record _ _) _ _ => apply wp_write_record
  | |- wp _ (delete_key _) _ _ => apply wp_delete
  | |- wp _ (read _) _ _ => apply wp_read
  | |- wp _ (write _ _) _ _ => apply wp_write
  | |- wp _ (load_account _) _ _ => apply wp_load_account
  | |- wp _ (load_validator_record _) _ _ => apply wp_load_validator_record
  | |- wp _ (load_validator _) _ _ => apply wp_load_validator
  | |- wp _ (load_validator_registration _) _ _ => apply wp_load_validator_registration
  | |- wp _ (load_validator_set) _ _ => apply wp_load_validator_set
  | |- wp _ (load_validator_registrations) _ _ => apply wp_load_validator_registrations
  | |- wp _ (load_consensus_candidates) _ _ => apply wp_load_consensus_candidates
  | |- wp _ (load_withdrawal_queue _) _ _ => apply wp_load_withdrawal_queue
  | |- wp _ (load_runtime_policy) _ _ => apply wp_load_runtime_policy
  | |- wp _ (load_bonding _) _ _ => apply wp_read_record
  | |- wp _ (load_proposal) _ _ => apply wp_read_record
  | |- wp _ (load_scheduled) _ _ => apply wp_read_record
  | |- wp _ (store_account _ _) _ _ => apply wp_write_record
  | |- wp _ (store_validator _ _) _ _ => apply wp_write_record
  | |- wp _ (store_validator_set _) _ _ => apply wp_write_record
  | |- wp _ (store_bonding _ _) _ _ => apply wp_write_record
  | |- wp _ (store_validator_registration _) _ _ => apply wp_write_record
  | |- wp _ (store_consensus_candidates _) _ _ => apply wp_write_record
  | |- wp _ (store_withdrawal_queue _ _) _ _ => apply wp_write_record
  | |- wp _ (store_runtime_policy _) _ _ => apply wp_write_record
  | |- wp _ (store_proposal _) _ _ => apply wp_write_record
  | |- wp _ (store_scheduled _) _ _ => apply wp_write_record
  | |- wp _ (mbind _ _) _ _ => apply wp_bind
  | |- wp _ (and_then _ _) _ _ => apply wp_and_then
  end; cbv beta.
Ltac wp_steps := repeat wp_step.

(** The worth of a list of keys, record by record. *)
Ltac worths :=
  key_lists; repeat first [rewrite sum_by_cons | rewrite sum_by_nil];
  repeat first [rewrite worth_account | rewrite worth_validator | rewrite worth_queue
               | rewrite worth_none by reflexivity].

Section writes.
Context `{Blake3} `{Ed25519} `{StateCodecLaws} `{GovernanceCodec}.

Lemma account_same ks (s s' : state) a : agree_off ks s s' -> account_key a ∉ ks -> account_at s' a = account_at s a.
Proof. intros Hag Hk. unfold account_at. by rewrite (peek_same _ s s') by by apply Hag. Qed.

Lemma account_insert (s : state) a x : account_at (<[account_key a := borsh_to_vec x]> s) a = x.
Proof. unfold account_at. by rewrite peek_insert. Qed.

Lemma account_key_ne a b : a <> b -> account_key a <> account_key b.
Proof. intros Hne Heq. by apply Hne, (prefixed_key_inj ACCOUNT_KEY_PREFIX). Qed.

(** Storing one account. *)
Lemma supply_account (s : state) a x :
  supply (<[account_key a := borsh_to_vec x]> s) + balance_at s a = supply s + a_balance x.
Proof.
  pose proof (supply_agree [account_key a] s _ ltac:(key_nodup) (agree_off_insert _ (borsh_to_vec x) _)) as Hs.
  revert Hs. worths. unfold balance_at at 2. rewrite account_insert. lia.
Qed.

Lemma account_insert_ne (s : state) a b (x : Account) :
  b <> a -> account_at (<[account_key a := borsh_to_vec x]> s) b = account_at s b.
Proof. intros Hne. eapply account_same; [apply agree_off_insert|]. apply account_key_ne in Hne. set_solver. Qed.

Lemma account_key_prefix a : has_prefix ACCOUNT_KEY_PREFIX (account_key a) = true.
Proof. reflexivity. Qed.

(** *** Shared effects *)

(** [commit_validator] stores the record and mirrors it. *)
Record committed (a : Address) (v : RtValidator) (s s' : state) : Prop := {
  cm_agree : agree_off (commit_keys a) s s';
  cm_validator : validator_rec s' a = Some v;
  cm_set : set_at s' = if v_active v then set_upsert (set_at s) a (v_stake v) else set_remove (set_at s) a;
  cm_candidates : candidates_at s' = candidates_upsert (candidates_at s)
    {| c_address := a; c_stake := v_stake v;
       c_identity := match registration_rec s a with
                     | Some r => Some {| id_pubkey := r_bls_pubkey r; id_pop_signature := r_pop_signature r |}
                     | None => None
                     end |};
}.

Lemma commit_validator_spec (P : Prop) (s : state) a v :
  wp P (commit_validator a v) (fun _ => committed a v s) s.
Proof.
  unfold commit_validator, sync_consensus_candidate. wp_steps.
  split.
  - intros k Hk. unfold commit_keys in Hk. rewrite !lookup_insert_ne; set_solver.
  - by views.
  - by views.
  - by views.
Qed.

Lemma record_bond_spec (P : Prop) (s : state) a amount height :
  wp P (record_bond a amount height) (fun _ => agree_off [bonding_key a] s) s.
Proof. unfold record_bond, load_bonding. wp_steps. apply agree_off_insert. Qed.

(** [retire_validator] drops every record of a validator. *)
Record retired (a : Address) (s s' : state) : Prop := {
  rt_agree : agree_off (retire_keys a) s s';
  rt_validator : validator_rec s' a = None;
  rt_queue : queue_at s' a = {| wq_entries := [] |};
  rt_registrations : reg_addresses (registrations_at s') = sorted_remove id (reg_addresses (registrations_at s)) a;
  rt_registration : registration_rec s' a =
    if registrations_contains (registrations_at s) a then None else registration_rec s a;
  rt_candidates : candidates_at s' =
    match registration_rec s' a with
    | None => {| cand_entries := sorted_remove c_address (cand_entries (candidates_at s)) a |}
    | Some r => candidates_upsert (candidates_at s)
        {| c_address := a; c_stake := 0;
           c_identity := Some {| id_pubkey := r_bls_pubkey r; id_pop_signature := r_pop_signature r |} |}
    end;
}.

Lemma candidates_remove_spec c a :
  (candidates_remove c a).1 = {| cand_entries := sorted_remove c_address (cand_entries c) a |}
  /\ ((candidates_remove c a).2 = false -> (candidates_remove c a).1 = c).
Proof. unfold candidates_remove, sorted_remove. destruct (search _ _ _), c; done. Qed.

Lemma sync_None_spec (P : Prop) (s : state) a :
  wp P (sync_consensus_candidate a None) (fun _ s' =>
    agree_off [CONSENSUS_CANDIDATES_KEY] s s' /\ candidates_at s' =
      match registration_rec s a with
      | None => {| cand_entries := sorted_remove c_address (cand_entries (candidates_at s)) a |}
      | Some r => candidates_upsert (candidates_at s)
          {| c_address := a; c_stake := 0;
             c_identity := Some {| id_pubkey := r_bls_pubkey r; id_pop_signature := r_pop_signature r |} |}
      end) s.
Proof.
  unfold sync_consensus_candidate. wp_steps. destruct (registration_rec s a) as [r|]; wp_steps.
  - split; [apply agree_off_insert|]. unfold candidates_at at 1. by rewrite peek_insert.
  - pose proof (candidates_remove_spec (candidates_at s) a) as [Hr Hid].
    destruct (candidates_remove (candidates_at s) a) as [c []]; cbn in Hr, Hid; wp_steps.
    + split; [apply agree_off_insert|]. unfold candidates_at at 1. by rewrite peek_insert.
    + split; [apply agree_off_refl|]. by rewrite <- Hr, Hid.
Qed.

Lemma registrations_remove_spec r a :
  (registrations_remove r a).2 = registrations_contains r a
  /\ reg_addresses (registrations_remove r a).1 = sorted_remove id (reg_addresses r) a.
Proof. unfold registrations_remove, registrations_contains, sorted_contains, sorted_remove. by destruct (search _ _ _). Qed.

Lemma store_registrations_spec (P : Prop) (s : state) r :
  wp P (store_validator_registrations r) (fun _ s' =>
    agree_off [VALIDATOR_REGISTRATIONS_KEY] s s' /\ reg_addresses (registrations_at s') = reg_addresses r) s.
Proof.
  unfold store_validator_registrations. case_bool_decide as Hr; wp_steps.
  - split; [apply agree_off_delete|]. unfold registrations_at. by rewrite peek_delete, Hr.
  - split; [apply agree_off_insert|]. unfold registrations_at. by rewrite peek_insert.
Qed.

Lemma retire_validator_spec (P : Prop) (s : state) a :
  wp P (retire_validator a) (fun _ => retired a s) s.
Proof.
  unfold retire_validator. wp_steps.
  set (s1 := delete (bonding_key a) (delete (withdrawal_key a) (delete (validator_key a) s))).
  assert (agree_off [validator_key a; withdrawal_key a; bonding_key a] s s1) as Hs1.
  { intros k Hk. subst s1. rewrite !lookup_delete_ne; set_solver. }
  assert (registrations_at s1 = registrations_at s) as Hregs.
  { unfold registrations_at. by rewrite (peek_same _ s s1) by (apply Hs1; key_notin). }
  rewrite Hregs. pose proof (registrations_remove_spec (registrations_at s) a) as [Hrem Hadd].
  destruct (registrations_remove (registrations_at s) a) as [regs removed]. cbn in Hrem, Hadd.
  apply wp_bind. eapply wp_mono with (Q := fun _ s2 =>
    agree_off [registration_key a; VALIDATOR_REGISTRATIONS_KEY] s1 s2
    /\ reg_addresses (registrations_at s2) = sorted_remove id (reg_addresses (registrations_at s)) a
    /\ registration_rec s2 a = if registrations_contains (registrations_at s) a then None else registration_rec s a).
  - assert (registration_rec s1 a = registration_rec s a) as Hreg.
    { unfold registration_rec. by rewrite (peek_same _ s s1) by (apply Hs1; key_notin). }
    destruct removed; wp_steps.
    + eapply wp_mono; [apply store_registrations_spec|]. intros _ s2 [Hag Hr]. split; [|split].
      * eapply agree_off_trans with (ks := [registration_key a]); [apply agree_off_delete|exact Hag].
      * by rewrite Hr.
      * rewrite <- Hrem. unfold registration_rec. rewrite (peek_same _ (delete (registration_key a) s1)) by (apply Hag; key_notin).
        apply peek_delete.
    + split; [apply agree_off_refl|]. rewrite Hregs, <- Hadd, <- Hrem. split; [|done].
      rewrite Hadd. by rewrite sorted_remove_absent.
  - intros [] s2 (Hag2 & Hr2 & Hreg2). eapply wp_mono; [apply sync_None_spec|]. intros [] s3 [Hag3 Hcand].
    assert (agree_off (retire_keys a) s s3) as Hag.
    { eapply agree_off_weaken; [|eapply agree_off_trans; [exact Hs1|eapply agree_off_trans; [exact Hag2|exact Hag3]]].
      unfold retire_keys. set_solver. }
    assert (registration_rec s3 a = registration_rec s2 a) as Hreg3.
    { unfold registration_rec. by rewrite (peek_same _ s2 s3) by (apply Hag3; key_notin). }
    split.
    + exact Hag.
    + unfold validator_rec. rewrite (peek_same _ s1 s3).
      * subst s1. by views.
      * rewrite (Hag3 (validator_key a)), (Hag2 (validator_key a)) by key_notin. done.
    + unfold queue_at. rewrite (peek_same _ s1 s3).
      * subst s1. by views.
      * rewrite (Hag3 (withdrawal_key a)), (Hag2 (withdrawal_key a)) by key_notin. done.
    + unfold registrations_at. rewrite (peek_same _ s2 s3) by (apply Hag3; key_notin). exact Hr2.
    + by rewrite Hreg3.
    + rewrite Hcand, Hreg3. assert (candidates_at s2 = candidates_at s) as ->; [|done].
      unfold candidates_at. rewrite (peek_same _ s1 s2), (peek_same _ s s1); [done|apply Hs1; key_notin|apply Hag2; key_notin].
Qed.

(** *** The mirrors *)

Lemma has_prefix_app p k : has_prefix p (p ++ k) = true.
Proof. induction p as [|x p IH]; [done|]. cbn. by rewrite N.eqb_refl. Qed.

Lemma mirror_same ks (s s' : state) k :
  agree_off ks s s' -> Forall (fun k => mirror_key k = false) ks -> mirror_key k = true -> s' !! k = s !! k.
Proof. intros Hag Hks Hk. apply Hag. intros Hin. rewrite Forall_forall in Hks. rewrite (Hks _ Hin) in Hk. done. Qed.

(** Other keys do not matter. *)
Lemma mirrored_same ex (s s' : state) :
  (forall k, mirror_key k = true -> s' !! k = s !! k) -> mirrored_off ex s -> mirrored_off ex s'.
Proof.
  intros Hsame Hm.
  assert (set_at s' = set_at s) as Hset by (unfold set_at; by rewrite (peek_same _ s s') by by apply Hsame).
  assert (candidates_at s' = candidates_at s) as Hcand
    by (unfold candidates_at; by rewrite (peek_same _ s s') by by apply Hsame).
  assert (registrations_at s' = registrations_at s) as Hregs
    by (unfold registrations_at; by rewrite (peek_same _ s s') by by apply Hsame).
  assert (forall a, validator_rec s' a = validator_rec s a) as Hval by (intros a; apply peek_same; by apply Hsame).
  assert (forall a, registration_rec s' a = registration_rec s a) as Hreg by (intros a; apply peek_same; by apply Hsame).
  destruct Hm as [Hss Hs Hcs Hc Hrs Hr Ha].
  split; intros; rewrite ?Hset, ?Hcand, ?Hregs, ?Hval, ?Hreg in *; eauto.
Qed.

Lemma mirrored_frame ex ks (s s' : state) :
  agree_off ks s s' -> Forall (fun k => mirror_key k = false) ks -> mirrored_off ex s -> mirrored_off ex s'.
Proof. intros Hag Hks. apply mirrored_same. intros k. by apply mirror_same with ks. Qed.

Lemma mirrored_weaken ex (s : state) : mirrored s -> mirrored_off ex s.
Proof. intros []. split; eauto using not_elem_of_nil. Qed.

Lemma validator_key_ne a b : a <> b -> validator_key a <> validator_key b.
Proof. intros Hne Heq. by apply Hne, (prefixed_key_inj VALIDATOR_KEY_PREFIX). Qed.

Lemma registration_key_ne a b : a <> b -> registration_key a <> registration_key b.
Proof. intros Hne Heq. by apply Hne, (prefixed_key_inj REGISTRATION_KEY_PREFIX). Qed.

(** Committing a record restores the mirrors at its address. *)
Lemma mirrored_commit a v (s s' : state) :
  mirrored_off [a] s -> committed a v s s' -> v_active v = (0 <? v_stake v) -> mirrored s'.
Proof.
  intros [Hss Hs Hcs Hc Hrs Hr Ha] [Hag Hv Hset Hcand] Hact.
  assert (forall b, b <> a -> validator_rec s' b = validator_rec s b) as Hval.
  { intros b Hb. apply peek_same, Hag. key_notin_by (validator_key_ne b a Hb). }
  assert (forall b, registration_rec s' b = registration_rec s b) as Hreg by (intros b; apply peek_same, Hag; key_notin).
  assert (registrations_at s' = registrations_at s) as Hregs
    by (unfold registrations_at; by rewrite (peek_same _ s s') by (apply Hag; key_notin)).
  split.
  - rewrite Hset. destruct (v_active v); [by apply sorted_upsert_sorted|by apply sorted_remove_sorted].
  - intros b _. rewrite Hset. destruct (decide (b = a)) as [->|Hb].
    + rewrite Hv. cbn. destruct (v_active v); cbn [set_upsert set_remove set_entries];
        [rewrite sorted_get_upsert by done|rewrite sorted_get_remove by done]; by rewrite decide_True.
    + rewrite Hval, <- Hs by set_solver. destruct (v_active v); cbn [set_upsert set_remove set_entries];
        [rewrite sorted_get_upsert by done|rewrite sorted_get_remove by done]; by rewrite decide_False.
  - rewrite Hcand. by apply sorted_upsert_sorted.
  - intros b _. rewrite Hcand. unfold candidates_get, candidates_upsert. cbn [cand_entries].
    rewrite sorted_get_upsert by done. cbn [c_address]. rewrite Hreg.
    destruct (decide (a = b)) as [<-|Hb]; [by rewrite Hv|].
    rewrite Hval by done. apply Hc. set_solver.
  - by rewrite Hregs.
  - intros b. rewrite Hregs, Hreg. apply Hr.
  - intros b w _. destruct (decide (b = a)) as [->|Hb]; [rewrite Hv; by intros [= <-]|].
    rewrite Hval by done. apply Ha. set_solver.
Qed.

(** Retiring an address without stake keeps them. *)
Lemma mirrored_retire a (s s' : state) :
  mirrored s -> v_active (validator_at s a) = false -> retired a s s' -> mirrored s'.
Proof.
  intros [Hss Hs Hcs Hc Hrs Hr Ha] Hin [Hag Hv _ Hregs Hreg Hcand].
  assert (forall b, b <> a -> validator_rec s' b = validator_rec s b) as Hval.
  { intros b Hb. apply peek_same, Hag. key_notin_by (validator_key_ne b a Hb). }
  assert (forall b, b <> a -> registration_rec s' b = registration_rec s b) as Hregb.
  { intros b Hb. apply peek_same, Hag. key_notin_by (registration_key_ne b a Hb). }
  assert (registration_rec s' a = None) as Hnone.
  { rewrite Hreg. destruct (registrations_contains _ a) eqn:Hcon; [done|].
    destruct (registration_rec s a) eqn:Hra; [|done]. assert (is_Some (registration_rec s a)) as Hsome by (by rewrite Hra).
    apply Hr in Hsome. congruence. }
  rewrite Hnone in Hcand.
  assert (set_at s' = set_at s) as Hset by (unfold set_at; by rewrite (peek_same _ s s') by (apply Hag; key_notin)).
  split.
  - by rewrite Hset.
  - intros b _. rewrite Hset, Hs by set_solver. destruct (decide (b = a)) as [->|Hb]; [|by rewrite Hval].
    rewrite Hv. unfold validator_at in Hin. destruct (validator_rec s a) as [w|]; cbn in *; [by rewrite Hin|done].
  - rewrite Hcand. by apply sorted_remove_sorted.
  - intros b _. rewrite Hcand. unfold candidates_get. cbn [cand_entries]. rewrite sorted_get_remove by done.
    destruct (decide (a = b)) as [<-|Hb]; [by rewrite Hv, Hnone|]. rewrite Hval, Hregb by done. apply Hc. set_solver.
  - rewrite Hregs. by apply sorted_remove_sorted.
  - intros b. unfold registrations_contains. rewrite Hregs, sorted_contains_get by by apply sorted_remove_sorted.
    rewrite sorted_get_remove by done. destruct (decide (a = b)) as [<-|Hb]; [rewrite Hnone; by split; intros []|].
    rewrite Hregb, <- Hr by done. unfold registrations_contains. by rewrite sorted_contains_get.
  - intros b w _. destruct (decide (b = a)) as [->|Hb]; [by rewrite Hv|]. rewrite Hval by done. apply Ha. set_solver.
Qed.

Lemma registrations_insert_spec r a :
  registrations_contains r a = false ->
  reg_addresses (registrations_insert r a).1 = sorted_upsert id (reg_addresses r) a.
Proof.
  unfold registrations_contains, sorted_contains, registrations_insert, sorted_upsert. cbn [id].
  by destruct (search id (reg_addresses r) a).
Qed.

(** A new registration leaves its address to be committed. *)
Lemma mirrored_register a r (s s' : state) :
  mirrored s -> agree_off [registration_key a; VALIDATOR_REGISTRATIONS_KEY] s s' ->
  registration_rec s' a = Some r ->
  reg_addresses (registrations_at s') = sorted_upsert id (reg_addresses (registrations_at s)) a ->
  mirrored_off [a] s'.
Proof.
  intros [Hss Hs Hcs Hc Hrs Hr Ha] Hag Hra Hregs.
  assert (set_at s' = set_at s) as Hset by (unfold set_at; by rewrite (peek_same _ s s') by (apply Hag; key_notin)).
  assert (candidates_at s' = candidates_at s) as Hcand
    by (unfold candidates_at; by rewrite (peek_same _ s s') by (apply Hag; key_notin)).
  assert (forall b, validator_rec s' b = validator_rec s b) as Hval by (intros b; apply peek_same, Hag; key_notin).
  assert (forall b, b <> a -> registration_rec s' b = registration_rec s b) as Hregb.
  { intros b Hb. apply peek_same, Hag. key_notin_by (registration_key_ne b a Hb). }
  split.
  - by rewrite Hset.
  - intros b _. rewrite Hset, Hval. apply Hs. set_solver.
  - by rewrite Hcand.
  - intros b Hb. rewrite Hcand, Hval, Hregb by set_solver. apply Hc. set_solver.
  - rewrite Hregs. by apply sorted_upsert_sorted.
  - intros b. unfold registrations_contains. rewrite Hregs, sorted_contains_get by by apply sorted_upsert_sorted.
    rewrite sorted_get_upsert by done. cbn [id]. destruct (decide (a = b)) as [<-|Hb]; [by rewrite Hra|].
    rewrite Hregb, <- Hr by done. unfold registrations_contains. by rewrite sorted_contains_get.
  - intros b w Hb. rewrite Hval. apply Ha. set_solver.
Qed.

End writes.
