(* ===== verification/Ledger.v ===== *)
(** * The runtime's ledger

    The effect of each transaction kind on the money supply, on the nonces, on the
    validator mirrors and on the records it leaves alone; the block-level theorems
    are in [RuntimeSafety]. *)

From S2P Require Import Prelude External Primitives History Evidence Sorted Backend RuntimeState Transactions Governance Staking Accountability Stf Views.

(** ** Who pays for a transaction *)

Definition tx_payer (tx : Transaction) : Address :=
  match tx with
  | Transfer t => tr_from t
  | Stake t => sk_validator t
  | Unstake t => us_validator t
  | Deposit t => dp_depositor t
  | VoluntaryExit t => ve_validator t
  | Withdraw t => wd_validator t
  | RegisterValidator t => rv_depositor t
  | SubmitEvidence _ => []
  | ProposeUpgrade t => pu_proposer t
  | VoteUpgrade t => vu_voter t
  | ProposePolicy t => po_proposer t
  end.

Definition tx_nonce (tx : Transaction) : N :=
  match tx with
  | Transfer t => tr_nonce t
  | Stake t => sk_nonce t
  | Unstake t => us_nonce t
  | Deposit t => dp_nonce t
  | VoluntaryExit t => ve_nonce t
  | Withdraw t => wd_nonce t
  | RegisterValidator t => rv_nonce t
  | SubmitEvidence _ => 0
  | ProposeUpgrade t => pu_nonce t
  | VoteUpgrade t => vu_nonce t
  | ProposePolicy t => po_nonce t
  end.

Definition is_governance (tx : Transaction) : bool :=
  match tx with ProposeUpgrade _ | VoteUpgrade _ | ProposePolicy _ => true | _ => false end.

Section effects.
Context `{Blake3} `{Ed25519} `{StateCodecLaws} `{GovernanceCodec}.

(** The payer signed the transaction for its next nonce and can pay the fee. *)
Definition authorized (s : state) (payer : Address) (nonce fee : N) : Prop :=
  nonce_at s payer = nonce /\ fee <= balance_at s payer.

(** A failure is charged to nobody, or to the payer that authorized it. *)
Definition fair_failure (s : state) (payer : Address) (nonce fee : N) (f : Failure) : Prop :=
  f_payer f = None \/ (f_payer f = Some payer /\ authorized s payer nonce fee).

(** Checks read only. *)
Definition check_post {A : Type} (s : state) (payer : Address) (nonce fee : N) (good : A -> Prop)
    (r : result Failure A) (s' : state) : Prop :=
  s' = s /\ match r with Ok x => authorized s payer nonce fee /\ good x | Err f => fair_failure s payer nonce fee f end.

(** An executed transaction: the fee leaves the supply (when balances fit their
    128 bits), the payer's nonce advances by one, the mirrors are kept and the reserved keys stay. *)
Record spent (gov : bool) (payer : Address) (fee : N) (s s' : state) : Prop := {
  spent_supply : supply s <= U128_MAX -> supply s' + fee = supply s;
  spent_nonce : nonce_at s' payer = saturating_add U64_MAX (nonce_at s payer) 1;
  spent_others : forall a, a <> payer -> nonce_at s' a = nonce_at s a;
  spent_reserved : forall k, reserved gov k = true -> s' !! k = s !! k;
  spent_mirrored : mirrored s -> mirrored s';
}.

Definition tx_post (gov : bool) (s : state) (payer : Address) (nonce fee : N) (r : result Failure unit) (s' : state) : Prop :=
  match r with
  | Ok _ => nonce_at s payer = nonce /\ spent gov payer fee s s'
  | Err f => s' = s /\ fair_failure s payer nonce fee f
  end.

Lemma check_ok {A : Type} (s : state) payer nonce fee (good : A -> Prop) x :
  authorized s payer nonce fee -> good x -> check_post s payer nonce fee good (Ok x) s.
Proof. done. Qed.

Lemma check_and_then (P : Prop) {A B : Type} (p : stf (result Failure A)) (k : A -> stf (result Failure B))
    (s : state) payer nonce fee good good' :
  wp P p (check_post s payer nonce fee good) s ->
  (forall x, authorized s payer nonce fee -> good x -> wp P (k x) (check_post s payer nonce fee good') s) ->
  wp P (and_then p k) (check_post s payer nonce fee good') s.
Proof.
  intros Hp Hk. apply wp_and_then. eapply wp_mono; [exact Hp|].
  intros [x|f] s' [-> Hr]; [destruct Hr; by apply Hk|by split].
Qed.

Lemma tx_and_then (P : Prop) {A : Type} (p : stf (result Failure A)) (k : A -> stf (result Failure unit))
    gov (s : state) payer nonce fee good :
  wp P p (check_post s payer nonce fee good) s ->
  (forall x, authorized s payer nonce fee -> good x -> wp P (k x) (tx_post gov s payer nonce fee) s) ->
  wp P (and_then p k) (tx_post gov s payer nonce fee) s.
Proof.
  intros Hp Hk. apply wp_and_then. eapply wp_mono; [exact Hp|].
  intros [x|f] s' [-> Hr]; [destruct Hr; by apply Hk|by split].
Qed.

(** A guard before the payer is authorized, and one after. *)
Lemma check_guard (P : Prop) {A B : Type} (r : result ReceiptStatus A) (k : A -> stf (result Failure B))
    (s : state) payer nonce fee good :
  (forall x, r = Ok x -> wp P (k x) (check_post s payer nonce fee good) s) ->
  wp P (and_then (Ret (map_err uncharged r)) k) (check_post s payer nonce fee good) s.
Proof. intros Hk. destruct r as [x|e]; [by apply Hk|]. split; [done|by left]. Qed.

Lemma check_charged (P : Prop) {A B : Type} (r : result ReceiptStatus A) (k : A -> stf (result Failure B))
    (s : state) payer nonce fee good :
  authorized s payer nonce fee ->
  (forall x, r = Ok x -> wp P (k x) (check_post s payer nonce fee good) s) ->
  wp P (and_then (Ret (map_err (charged payer) r)) k) (check_post s payer nonce fee good) s.
Proof. intros Hauth Hk. destruct r as [x|e]; [by apply Hk|]. split; [done|by right]. Qed.

Lemma tx_charged (P : Prop) {A : Type} (r : result ReceiptStatus A) (k : A -> stf (result Failure unit)) gov (s : state) payer nonce fee :
  authorized s payer nonce fee ->
  (forall x, r = Ok x -> wp P (k x) (tx_post gov s payer nonce fee) s) ->
  wp P (and_then (Ret (map_err (charged payer) r)) k) (tx_post gov s payer nonce fee) s.
Proof. intros Hauth Hk. destruct r as [x|e]; [by apply Hk|]. split; [done|by right]. Qed.

Lemma ok_or_Ok {E A} (o : option A) (e : E) x : ok_or o e = Ok x -> o = Some x.
Proof. by destruct o; intros [= ->]. Qed.

(** *** Checks *)

Lemma authorize_spec (P : Prop) (s : state) payer nonce fee :
  wp P (authorize payer nonce fee) (check_post s payer nonce fee (fun a => a = account_at s payer)) s.
Proof.
  unfold authorize, signer_account. wp_steps.
  destruct (N.eqb_spec (a_nonce (account_at s payer)) nonce) as [Hn|Hn]; cbn [negb map_err]; wp_steps.
  - destruct (N.ltb_spec (a_balance (account_at s payer)) fee); wp_steps; (split; [done|]); [by left|done].
  - split; [done|by left].
Qed.

Lemma check_payer_spec (P : Prop) (s : state) payer nonce amount fee :
  wp P (check_payer payer nonce amount fee)
    (check_post s payer nonce fee (fun x =>
       x = (account_at s payer, amount + fee) /\ amount + fee <= balance_at s payer)) s.
Proof.
  unfold check_payer. eapply check_and_then; [apply authorize_spec|]. intros a Hauth ->.
  apply check_charged; [done|]. intros debit [-> _]%ok_or_Ok%checked_add_Some.
  destruct (N.ltb_spec (a_balance (account_at s payer)) (amount + fee)); wp_steps; (split; [done|]); [by right|done].
Qed.

Lemma require_amount_Ok n u : require_amount n = Ok u -> 0 < n.
Proof. unfold require_amount. destruct (N.eqb_spec n 0); [done|]. intros _. lia. Qed.

Lemma check_bond_spec (P : Prop) (s : state) funder validator bond :
  wp P (check_bond funder validator bond)
    (check_post s funder (bond_nonce bond) (bond_fee bond) (fun x => exists stored,
       x = (account_at s funder, bond_amount bond + bond_fee bond,
            {| v_stake := v_stake stored + bond_amount bond; v_active := 0 <? v_stake stored + bond_amount bond |})
       /\ bond_amount bond + bond_fee bond <= balance_at s funder
       /\ validator_rec s validator = Some stored)) s.
Proof.
  unfold check_bond. eapply check_and_then; [apply check_payer_spec|]. intros x Hauth [-> Hle].
  apply check_charged; [done|]. intros _ _. apply wp_bind, wp_read_record. cbv beta.
  apply check_charged; [done|]. intros stored Hst%ok_or_Ok.
  apply check_charged; [done|]. intros stake [-> _]%ok_or_Ok%checked_add_Some.
  apply check_charged; [done|]. intros _ _. wp_steps. split; [done|]. split; [done|]. by exists stored.
Qed.

(** A transaction that changes one account and some keys that are neither
    accounts nor reserved. *)
Lemma spent_intro gov payer fee ks (s s' : state) :
  agree_off (account_key payer :: ks) s s' -> NoDup (account_key payer :: ks) ->
  Forall (fun k => has_prefix ACCOUNT_KEY_PREFIX k = false /\ reserved gov k = false) ks ->
  nonce_at s' payer = saturating_add U64_MAX (nonce_at s payer) 1 ->
  (supply s <= U128_MAX ->
   balance_at s' payer + sum_by (worth_at s') ks + fee = balance_at s payer + sum_by (worth_at s) ks) ->
  (mirrored s -> mirrored s') -> spent gov payer fee s s'.
Proof.
  intros Hag Hnd Hks Hnonce Hsum Hmir. rewrite Forall_forall in Hks. split.
  - intros Hmax. specialize (Hsum Hmax).
    pose proof (supply_agree _ _ _ Hnd Hag) as Hsup. rewrite !sum_by_cons, !worth_account in Hsup. lia.
  - done.
  - intros a Ha. unfold nonce_at. f_equal. eapply account_same; [exact Hag|].
    rewrite elem_of_cons. intros [Heq|Hin]; [by apply (account_key_ne a payer)|].
    apply Hks in Hin as [Hp _]. by rewrite account_key_prefix in Hp.
  - intros k Hk. apply Hag. rewrite elem_of_cons. intros [->|Hin]; [by destruct gov|].
    apply Hks in Hin as [_ Hr]. by rewrite Hk in Hr.
  - done.
Qed.

(** *** Transfers *)

Lemma check_transfer_spec (P : Prop) (s : state) chain fee tx :
  wp P (check_transfer chain fee tx)
    (check_post s (tr_from tx) (tr_nonce tx) fee (fun x =>
       x = (account_at s (tr_from tx), tr_amount tx + fee)
       /\ tr_amount tx + fee <= balance_at s (tr_from tx))) s.
Proof. unfold check_transfer. apply check_guard. intros _ _. apply check_payer_spec. Qed.

Lemma apply_transfer_spec (P : Prop) (s : state) chain fee tx :
  wp P (apply_transfer chain fee tx) (tx_post false s (tr_from tx) (tr_nonce tx) fee) s.
Proof.
  unfold apply_transfer. eapply tx_and_then; [apply check_transfer_spec|].
  intros x Hauth [-> Hle]. cbv beta iota zeta.
  pose proof (worth_le_supply s (account_key (tr_from tx))) as Hbound. rewrite worth_account in Hbound.
  case_bool_decide as Hself.
  - wp_steps. split; [apply Hauth|]. apply (spent_intro _ _ _ []).
    + intros k Hk. rewrite lookup_insert_ne; set_solver.
    + key_nodup.
    + constructor.
    + unfold nonce_at. by rewrite account_insert.
    + intros Hsup. unfold balance_at in *. rewrite account_insert, !sum_by_nil. cbn [a_balance spend].
      rewrite saturating_add_exact; lia.
    + apply (mirrored_frame [] [account_key (tr_from tx)]); [apply agree_off_insert|by repeat constructor].
  - wp_steps. destruct (checked_add U128_MAX _ _) as [balance|] eqn:Hadd; wp_steps; [|by split; [|right]].
    apply checked_add_Some in Hadd as [-> _]. split; [apply Hauth|].
    set (s' := <[account_key (tr_to tx):=_]> _).
    assert (account_key (tr_from tx) <> account_key (tr_to tx)) as Hne by by apply account_key_ne.
    assert (account_at s' (tr_from tx) = spend (account_at s (tr_from tx)) (tr_amount tx + fee)) as Hfrom.
    { subst s'. unfold account_at at 1. rewrite peek_insert_ne, peek_insert by done. done. }
    assert (account_at s' (tr_to tx) = {| a_nonce := a_nonce (account_at s (tr_to tx));
      a_balance := a_balance (account_at s (tr_to tx)) + tr_amount tx |}) as Hto.
    { subst s'. unfold account_at at 1. by rewrite peek_insert. }
    assert (agree_off [account_key (tr_from tx); account_key (tr_to tx)] s s') as Hag.
    { intros k Hk. subst s'. rewrite !lookup_insert_ne; set_solver. }
    split.
    + intros _. pose proof (supply_agree [account_key (tr_from tx); account_key (tr_to tx)] s s') as Hs'.
      revert Hs'. worths. unfold balance_at in *. rewrite Hfrom, Hto. cbn. intros Hs'.
      specialize (Hs' ltac:(repeat constructor; set_solver) Hag). lia.
    + unfold nonce_at. by rewrite Hfrom.
    + intros a Ha. unfold nonce_at. destruct (decide (a = tr_to tx)) as [->|Hb]; [by rewrite Hto|].
      f_equal. eapply account_same; [exact Hag|].
      apply account_key_ne in Ha, Hb. set_solver.
    + intros k Hk. apply Hag. intros Hin. rewrite !elem_of_cons, elem_of_nil in Hin.
      by destruct Hin as [->|[->|[]]].
    + apply (mirrored_frame [] _ _ _ Hag). by repeat constructor.
Qed.

(** *** Stake and deposit *)

(** The writes shared by stake and deposit. *)
Definition bond_writes (funder validator : Address) (account : Account) (debit : N) (v : RtValidator)
    (amount height : N) : stf (result Failure unit) :=
  _ ← store_account funder (spend account debit);
  _ ← commit_validator validator v;
  _ ← record_bond validator amount height;
  Ret (Ok tt).

Lemma bond_writes_spec (P : Prop) (s : state) funder validator stored amount fee nonce height :
  nonce_at s funder = nonce -> amount + fee <= balance_at s funder -> validator_rec s validator = Some stored ->
  wp P (bond_writes funder validator (account_at s funder) (amount + fee)
          {| v_stake := v_stake stored + amount; v_active := 0 <? v_stake stored + amount |} amount height)
    (tx_post false s funder nonce fee) s.
Proof.
  intros Hnonce Hle Hst. unfold bond_writes. do 2 wp_step. apply wp_bind.
  eapply wp_mono; [apply commit_validator_spec|]. intros [] s2 Hcm. cbv beta in Hcm. apply wp_bind.
  eapply wp_mono; [apply record_bond_spec|]. intros [] s3 Hbond. cbv beta in Hbond. wp_steps. split; [done|].
  set (s1 := <[account_key funder:=_]> s) in *.
  assert (account_at s3 funder = spend (account_at s funder) (amount + fee)) as Hacc.
  { rewrite (account_same _ s2 s3 _ Hbond), (account_same _ s1 s2 _ (cm_agree _ _ _ _ Hcm)) by key_notin.
    apply account_insert. }
  assert (validator_at s3 validator = {| v_stake := v_stake stored + amount; v_active := 0 <? v_stake stored + amount |}) as Hval.
  { unfold validator_at, validator_rec. rewrite (peek_same _ s2 s3) by (apply Hbond; key_notin).
    fold (validator_rec s2 validator). by rewrite (cm_validator _ _ _ _ Hcm). }
  apply (spent_intro _ _ _ [validator_key validator; VALIDATOR_SET_KEY; CONSENSUS_CANDIDATES_KEY; bonding_key validator]).
  - eapply agree_off_trans with (ks := [account_key funder]); [apply agree_off_insert|].
    change [validator_key validator; VALIDATOR_SET_KEY; CONSENSUS_CANDIDATES_KEY; bonding_key validator]
      with (commit_keys validator ++ [bonding_key validator]).
    eapply agree_off_trans; [apply Hcm|exact Hbond].
  - key_nodup.
  - by repeat constructor.
  - unfold nonce_at. by rewrite Hacc.
  - intros _. worths. unfold balance_at in *. rewrite Hacc, Hval. unfold validator_at. rewrite Hst. cbn. lia.
  - intros Hm. eapply (mirrored_frame [] _ s2 s3); [exact Hbond|by repeat constructor|].
    eapply mirrored_commit; [|exact Hcm|done]. apply mirrored_weaken.
    eapply (mirrored_frame [] [account_key funder]); [apply agree_off_insert|by repeat constructor|done].
Qed.

Lemma apply_stake_spec (P : Prop) (s : state) chain height fee min_stake tx :
  wp P (apply_stake chain height fee min_stake tx) (tx_post false s (sk_validator tx) (sk_nonce tx) fee) s.
Proof.
  unfold apply_stake. eapply tx_and_then; [unfold check_stake; apply check_guard; intros _ _; apply check_bond_spec|].
  intros x [Hn _] (stored & -> & Hle & Hst). cbn in Hle.
  exact (bond_writes_spec P s _ _ stored _ fee _ height Hn Hle Hst).
Qed.

Lemma apply_deposit_spec (P : Prop) (s : state) chain height fee min_stake tx :
  wp P (apply_deposit chain height fee min_stake tx) (tx_post false s (dp_depositor tx) (dp_nonce tx) fee) s.
Proof.
  unfold apply_deposit.
  eapply tx_and_then; [unfold check_deposit; apply check_guard; intros _ _; apply check_bond_spec|].
  intros x [Hn _] (stored & -> & Hle & Hst). cbn in Hle.
  exact (bond_writes_spec P s _ _ stored _ fee _ height Hn Hle Hst).
Qed.

(** *** Unstake and voluntary exit *)

Lemma push_withdrawal_sum q w :
  sum_by w_amount (wq_entries q) + w_amount w <= U128_MAX ->
  sum_by w_amount (wq_entries (push_withdrawal q w)) = sum_by w_amount (wq_entries q) + w_amount w.
Proof.
  intros Hle. unfold push_withdrawal. destruct (last (wq_entries q)) as [l|] eqn:Hlast.
  - apply last_Some in Hlast as [q' Hq]. rewrite Hq in *.
    destruct (_ =? _); cbn [wq_entries]; rewrite ?removelast_last, !sum_by_app in *; cbn in *;
      rewrite ?saturating_add_exact by lia; lia.
  - apply last_None in Hlast. rewrite Hlast. cbn. lia.
Qed.

Lemma unbond_spec (P : Prop) (s : state) a fee w :
  fee <= balance_at s a -> w_amount w <= v_stake (validator_at s a) ->
  wp P (unbond a (account_at s a) fee (validator_at s a) w) (fun _ => spent false a fee s) s.
Proof.
  intros Hfee Hw. unfold unbond. do 4 wp_step. apply wp_bind.
  eapply wp_mono; [apply commit_validator_spec|]. intros [] s2 Hcm. cbv beta in Hcm. wp_steps.
  set (s1 := <[account_key a:=_]> s) in *. set (s3 := <[withdrawal_key a:=_]> s2).
  assert (account_at s3 a = spend (account_at s a) fee) as Hacc.
  { rewrite (account_same [withdrawal_key a] s2 s3), (account_same _ s1 s2 _ (cm_agree _ _ _ _ Hcm));
      [apply account_insert|key_notin|apply agree_off_insert|key_notin]. }
  assert (v_stake (validator_at s3 a) = v_stake (validator_at s a) - w_amount w) as Hval.
  { subst s3. unfold validator_at at 1, validator_rec. rewrite peek_insert_ne by key_ne.
    fold (validator_rec s2 a). by rewrite (cm_validator _ _ _ _ Hcm). }
  assert (queue_at s3 a = push_withdrawal (queue_at s a) w) as Hq by (subst s3; unfold queue_at at 1; by rewrite peek_insert).
  assert (sum_by w_amount (wq_entries (queue_at s a)) + v_stake (validator_at s a) <= supply s) as Hbound.
  { pose proof (supply_split [withdrawal_key a; validator_key a] s) as Hsp. revert Hsp. worths. intros Hsp.
    specialize (Hsp ltac:(key_nodup)). lia. }
  apply (spent_intro _ _ _ (unbond_keys a)).
  - eapply agree_off_trans with (ks := [account_key a]); [apply agree_off_insert|].
    eapply agree_off_trans; [apply Hcm|apply agree_off_insert].
  - key_nodup.
  - by repeat constructor.
  - unfold nonce_at. by rewrite Hacc.
  - intros Hsup. worths. unfold balance_at in *.
    rewrite Hacc, Hval, Hq, push_withdrawal_sum by lia. cbn [spend a_balance]. lia.
  - intros Hm. eapply (mirrored_frame [] [withdrawal_key a] s2); [apply agree_off_insert|by repeat constructor|].
    eapply mirrored_commit; [|exact Hcm|done]. apply mirrored_weaken.
    eapply (mirrored_frame [] [account_key a]); [apply agree_off_insert|by repeat constructor|done].
Qed.

Lemma apply_unstake_spec (P : Prop) (s : state) chain height delay fee min_stake tx :
  wp P (apply_unstake chain height delay fee min_stake tx) (tx_post false s (us_validator tx) (us_nonce tx) fee) s.
Proof.
  unfold apply_unstake.
  eapply tx_and_then with (good := fun x => x = (account_at s (us_validator tx), validator_at s (us_validator tx))
    /\ us_amount tx <= v_stake (validator_at s (us_validator tx))).
  - unfold check_unstake. apply check_guard. intros _ _.
    eapply check_and_then; [apply check_payer_spec|]. intros x Hauth [-> _].
    apply check_charged; [done|]. intros _ _. wp_steps.
    destruct (N.ltb_spec (v_stake (validator_at s (us_validator tx))) (us_amount tx)); [wp_steps; by split; [|right]|].
    apply check_charged; [done|]. intros _ _. wp_steps. by apply check_ok.
  - intros x Hauth [-> Hle]. apply tx_charged; [done|]. intros mature _. apply wp_bind.
    eapply wp_mono; [apply unbond_spec; [apply Hauth|done]|]. intros [] s' Hs. split; [apply Hauth|done].
Qed.

Lemma apply_voluntary_exit_spec (P : Prop) (s : state) chain height delay fee tx :
  wp P (apply_voluntary_exit chain height delay fee tx) (tx_post false s (ve_validator tx) (ve_nonce tx) fee) s.
Proof.
  unfold apply_voluntary_exit.
  eapply tx_and_then with (good := fun x => x = (account_at s (ve_validator tx), validator_at s (ve_validator tx))).
  - unfold check_voluntary_exit. apply check_guard. intros _ _.
    eapply check_and_then; [apply check_payer_spec|]. intros x Hauth [-> _]. wp_steps.
    destruct (_ =? 0); wp_steps; [by split; [|right]|by apply check_ok].
  - intros x Hauth ->. apply tx_charged; [done|]. intros mature _. apply wp_bind.
    eapply wp_mono; [apply unbond_spec; [apply Hauth|by cbn]|]. intros [] s' Hs. split; [apply Hauth|done].
Qed.

(** *** Withdraw *)

(** The entries [retain] keeps, and the matured sum when it fits its width. *)
Lemma split_matured_spec height es :
  (split_matured height es).2 = filter (fun e => ~ w_mature_at_height e <= height) es
  /\ (sum_by w_amount es <= U128_MAX ->
      (split_matured height es).1 + sum_by w_amount (split_matured height es).2 = sum_by w_amount es).
Proof.
  assert (forall m p,
    let r := foldl (fun acc e => if w_mature_at_height e <=? height
        then (saturating_add U128_MAX acc.1 (w_amount e), acc.2) else (acc.1, acc.2 ++ [e])) (m, p) es in
    r.2 = p ++ filter (fun e => ~ w_mature_at_height e <= height) es
    /\ (m + sum_by w_amount es <= U128_MAX ->
        r.1 + sum_by w_amount r.2 = m + sum_by w_amount p + sum_by w_amount es)) as Hgen.
  { induction es as [|e es IH]; intros m p; cbn [foldl].
    { cbn zeta. cbn [fst snd]. rewrite filter_nil, app_nil_r, sum_by_nil. split; [done|lia]. }
    rewrite filter_cons, sum_by_cons. cbn [fst snd]. destruct (N.leb_spec (w_mature_at_height e) height).
    - rewrite decide_False by lia. destruct (IH (saturating_add U128_MAX m (w_amount e)) p) as [Hp Hsum].
      split; [exact Hp|]. intros Hb. rewrite saturating_add_exact in Hsum by lia.
      rewrite saturating_add_exact by lia. rewrite Hsum by lia. lia.
    - rewrite decide_True by lia. destruct (IH m (p ++ [e])) as [Hp Hsum]. rewrite <- app_assoc in Hp.
      split; [exact Hp|]. intros Hb. rewrite Hsum, sum_by_app, sum_by_cons, sum_by_nil by lia. lia. }
  destruct (Hgen 0 []) as [H1' H2']. split; [exact H1'|]. intros Hb. specialize (H2' Hb). exact H2'.
Qed.

Lemma check_withdraw_spec (P : Prop) (s : state) chain tx :
  wp P (check_withdraw chain tx) (fun r s' => s' = s /\
    match r with
    | Ok a => a = account_at s (wd_validator tx) /\ nonce_at s (wd_validator tx) = wd_nonce tx
    | Err f => f_payer f = None
    end) s.
Proof.
  unfold check_withdraw, signer_account. wp_step. wp_step. destruct (authenticate _ _ _) as [[]|e]; cbn [map_err]; [|done].
  wp_steps. destruct (N.eqb_spec (a_nonce (account_at s (wd_validator tx))) (wd_nonce tx)); done.
Qed.

(** A withdrawal that leaves the payer's account with [net] and empties [ks]. *)
Lemma claim_spent gov (s s' : state) a fee net ks :
  agree_off ks (<[account_key a := borsh_to_vec
     {| a_nonce := saturating_add U64_MAX (nonce_at s a) 1; a_balance := net |}]> s) s' ->
  NoDup (account_key a :: ks) ->
  Forall (fun k => has_prefix ACCOUNT_KEY_PREFIX k = false /\ reserved gov k = false) ks ->
  (supply s <= U128_MAX ->
   net + sum_by (worth_at s') ks + fee = balance_at s a + sum_by (worth_at s) ks) ->
  (mirrored s -> mirrored s') -> spent gov a fee s s'.
Proof.
  intros Hag Hnd Hks Hsum Hmir. set (s1 := <[account_key a := _]> s) in *.
  assert (account_at s' a = account_at s1 a) as Hacc.
  { eapply account_same; [exact Hag|]. by apply NoDup_cons in Hnd as [? _]. }
  unfold s1 in Hacc. rewrite account_insert in Hacc.
  apply (spent_intro _ _ _ ks); try done.
  - eapply agree_off_trans with (ks := [account_key a]); [apply agree_off_insert|exact Hag].
  - unfold nonce_at at 1. by rewrite Hacc.
  - unfold balance_at at 1. by rewrite Hacc.
Qed.

Lemma apply_withdraw_spec (P : Prop) (s : state) chain height backlog fee tx :
  wp P (apply_withdraw chain height backlog fee tx) (tx_post false s (wd_validator tx) (wd_nonce tx) fee) s.
Proof.
  unfold apply_withdraw. set (a := wd_validator tx). apply wp_and_then.
  eapply wp_mono; [apply check_withdraw_spec|]. intros [signer|f] s0 [-> Hr]; [|split; [done|by left]].
  destruct Hr as [-> Hnonce]. fold a in Hnonce |- *. cbv beta.
  destruct (backlog_holds backlog a).
  { wp_steps. split; [done|]. destruct (N.leb_spec fee (a_balance (account_at s a))); [by right|by left]. }
  wp_steps. pose proof (worth_le_supply s (withdrawal_key a)) as Hq. rewrite worth_queue in Hq.
  set (es := wq_entries (queue_at s a)) in *. destruct (split_matured_spec height es) as [_ Hsplit].
  destruct (split_matured height es) as [matured pending]. cbn [fst snd] in Hsplit.
  destruct (checked_add U128_MAX _ matured ≫= _) as [net|] eqn:Hnet; [|wp_steps; split; [done|by left]].
  apply bind_Some in Hnet as (total & [-> _]%checked_add_Some & [-> Hfee]%checked_sub_Some).
  wp_step. wp_step. set (s1 := <[account_key a:=_]> s). case_bool_decide as Hp; cbn [negb]; wp_steps.
  - assert (validator_at s1 a = validator_at s a) as -> by (subst s1; by views).
    rewrite Hp, sum_by_nil in Hsplit.
    destruct ((v_stake (validator_at s a) =? 0) && _) eqn:Hstake; wp_steps.
    + eapply wp_mono; [apply retire_validator_spec|]. intros [] s2 Hrt. cbv beta in Hrt. wp_steps.
      split; [done|]. rewrite andb_true_iff, N.eqb_eq in Hstake. destruct Hstake as [Hstake Hinactive].
      eapply (claim_spent _ _ _ _ _ _ (retire_keys a)); [apply Hrt|key_nodup|by repeat constructor| |]; cycle 1.
      { intros Hm. apply (mirrored_retire a s1); [|by subst s1; views; apply negb_true_iff in Hinactive|done].
        eapply (mirrored_frame [] [account_key a]); [apply agree_off_insert|by repeat constructor|done]. }
      intros Hsup. specialize (Hsplit ltac:(lia)). worths. fold es. unfold validator_at at 1.
      rewrite (rt_validator _ _ _ Hrt), (rt_queue _ _ _ Hrt). unfold balance_at. cbn [default id wq_entries v_stake RtValidator_default].
      rewrite sum_by_nil, Hstake. lia.
    + split; [done|]. eapply (claim_spent _ _ _ _ _ _ [withdrawal_key a]);
        [apply agree_off_delete|key_nodup|by repeat constructor| |]; cycle 1.
      { apply (mirrored_frame [] [account_key a; withdrawal_key a]); [|by repeat constructor].
        eapply agree_off_trans with (ks := [account_key a]); [apply agree_off_insert|apply agree_off_delete]. }
      intros Hsup. specialize (Hsplit ltac:(lia)). worths. fold es. unfold queue_at at 1. rewrite peek_delete.
      unfold balance_at. cbn [default wq_entries]. rewrite sum_by_nil. lia.
  - split; [done|]. eapply (claim_spent _ _ _ _ _ _ [withdrawal_key a]);
      [apply agree_off_insert|key_nodup|by repeat constructor| |]; cycle 1.
    { apply (mirrored_frame [] [account_key a; withdrawal_key a]); [|by repeat constructor].
      eapply agree_off_trans with (ks := [account_key a]); apply agree_off_insert. }
    intros Hsup. specialize (Hsplit ltac:(lia)). worths. fold es. unfold queue_at at 1. rewrite peek_insert.
    unfold balance_at. cbn [default id wq_entries]. lia.
Qed.

(** *** Register validator *)

Lemma check_register_validator_spec (P : Prop) (s : state) chain fee min_stake tx :
  wp P (check_register_validator chain fee min_stake tx)
    (check_post s (rv_depositor tx) (rv_nonce tx) fee (fun x =>
       x = (account_at s (rv_depositor tx), rv_deposit_amount tx + fee, registrations_at s)
       /\ rv_deposit_amount tx + fee <= balance_at s (rv_depositor tx) /\ 0 < rv_deposit_amount tx
       /\ registrations_contains (registrations_at s) (rv_validator tx) = false
       /\ v_stake (validator_at s (rv_validator tx)) = 0 /\ v_active (validator_at s (rv_validator tx)) = false)) s.
Proof.
  unfold check_register_validator. apply check_guard; intros _ _. apply check_guard; intros _ _.
  eapply check_and_then; [apply check_payer_spec|]. intros x Hauth [-> Hle].
  apply check_charged; [done|]. intros _ Hamount%require_amount_Ok. apply check_charged; [done|]. intros _ _. wp_steps.
  destruct (registrations_contains _ _) eqn:Hregs; wp_steps; [by split; [|right]|].
  destruct (_ || _) eqn:Hex; wp_steps; [by split; [|right]|].
  apply orb_false_iff in Hex as [Hstake Hactive]. apply N.ltb_ge in Hstake.
  apply check_ok; [done|]. by repeat (split; [done || lia|]).
Qed.

Lemma apply_register_validator_spec (P : Prop) (s : state) chain height fee min_stake tx :
  wp P (apply_register_validator chain height fee min_stake tx)
    (tx_post false s (rv_depositor tx) (rv_nonce tx) fee) s.
Proof.
  unfold apply_register_validator. eapply tx_and_then; [apply check_register_validator_spec|].
  intros x [Hnonce _] (-> & Hle & Hpos & Hfresh & Hstake & _). apply registrations_insert_spec in Hfresh as Hins.
  destruct (registrations_insert _ _) as [regs ?]. cbn [fst] in Hins.
  set (a := rv_validator tx) in *. do 4 wp_step. apply wp_bind.
  set (s1 := <[account_key (rv_depositor tx):=_]> _).
  eapply wp_mono; [apply store_registrations_spec|]. intros [] s2 [Hag2 Hregs]. apply wp_bind.
  eapply wp_mono; [apply commit_validator_spec|]. intros [] s3 Hcm. cbv beta in Hcm. wp_steps. split; [done|].
  assert (agree_off [registration_key a] (<[account_key (rv_depositor tx) := borsh_to_vec
    (spend (account_at s (rv_depositor tx)) (rv_deposit_amount tx + fee))]> s) s1) as Hag1.
  { intros k Hk. subst s1. destruct (decide (k = account_key (rv_depositor tx))) as [->|Hne];
      [by rewrite !lookup_insert_eq|rewrite !lookup_insert_ne; set_solver]. }
  pose proof (agree_off_trans _ _ _ _ _ Hag1 (agree_off_trans _ _ _ _ _ Hag2 (cm_agree _ _ _ _ Hcm))) as Hag.
  assert (account_at s3 (rv_depositor tx) = spend (account_at s (rv_depositor tx)) (rv_deposit_amount tx + fee)) as Hacc.
  { rewrite (account_same _ _ _ _ Hag) by key_notin. apply account_insert. }
  apply (spent_intro _ _ _ (register_keys a)).
  - eapply agree_off_trans with (ks := [account_key (rv_depositor tx)]); [apply agree_off_insert|exact Hag].
  - unfold register_keys. key_nodup.
  - by repeat constructor.
  - unfold nonce_at. by rewrite Hacc.
  - intros _. unfold register_keys. worths. unfold balance_at in *. rewrite Hacc, Hstake. unfold validator_at.
    rewrite (cm_validator _ _ _ _ Hcm). cbn. lia.
  - intros Hm. eapply mirrored_commit; [|exact Hcm|symmetry; by apply N.ltb_lt].
    eapply (mirrored_register a _ _ s2); [|exact (agree_off_trans _ _ _ _ _ Hag1 Hag2)| |].
    + eapply (mirrored_frame [] [account_key (rv_depositor tx)]); [apply agree_off_insert|by repeat constructor|done].
    + unfold registration_rec. rewrite (peek_same _ s1 s2) by (apply Hag2; key_notin). subst s1. by views.
    + rewrite Hregs, Hins. by views.
Qed.

(** *** Governance *)

Lemma governance_weight_spec (P : Prop) (s : state) a bonded height :
  wp P (governance_weight a bonded height) (fun w s' => s' = s /\ w <= bonded) s.
Proof.
  unfold governance_weight. wp_steps. destruct (match _ with Some _ => _ | None => _ end); wp_steps; [split; [done|lia]|].
  unfold load_bonding. wp_steps. split; [done|]. destruct (peek _ s) as [b|]; [|lia].
  destruct (aged _ _); unfold saturating_sub; lia.
Qed.

Lemma governance_set_spec (P : Prop) (s : state) height : wp P (governance_set height) (fun _ s' => s' = s) s.
Proof.
  unfold governance_set. wp_steps. destruct height as [h|]; wp_steps; [|done].
  eapply wp_mono; [apply (wp_fold P _ (fun _ _ s' => s' = s)); [done|]|by intros counted s' ->].
  intros done_ e counted s' _ ->. wp_steps. eapply wp_mono; [apply governance_weight_spec|].
  intros w s'' [-> _]. by wp_steps.
Qed.

(** [set] is the electorate the code reads. *)
Definition counts (height : option N) (s : state) (set : ValidatorSet) : Prop :=
  exec (governance_set height) s = Ok (set, s).

Lemma authorize_signer_spec (P : Prop) (s : state) signer nonce height fee message signature :
  wp P (authorize_signer signer nonce height fee message signature)
    (check_post s signer nonce fee (fun x => x.1 = account_at s signer /\ counts height s x.2)) s.
Proof.
  unfold authorize_signer. destruct (verify_signature _ _ _); cbn [negb]; wp_steps; [|split; [done|by left]].
  destruct (N.eqb_spec (a_nonce (account_at s signer)) nonce); cbn [negb]; wp_steps; [|split; [done|by left]].
  destruct (N.ltb_spec (a_balance (account_at s signer)) fee); wp_steps; [split; [done|by left]|].
  eapply wp_mono; [apply wp_exec, governance_set_spec|]. intros set s' [-> Hset].
  destruct (sorted_contains _ _ _); wp_steps; [by apply check_ok|split; [done|by right]].
Qed.

Lemma check_new_proposal_spec (P : Prop) (s : state) block fee proposer nonce message signature :
  wp P (check_new_proposal block fee proposer nonce message signature)
    (check_post s proposer nonce fee (fun x => x.1 = account_at s proposer /\ counts (bc_height <$> block) s x.2)) s.
Proof.
  unfold check_new_proposal. eapply check_and_then; [apply authorize_signer_spec|]. intros x Hauth Hx.
  destruct block as [block|]; wp_steps; [|by apply check_ok].
  destruct (match _ with Some _ => _ | None => _ end); wp_steps; [by split; [|right]|].
  destruct (match _ with Some _ => _ | None => _ end); wp_steps; [by split; [|right]|by apply check_ok].
Qed.

Lemma check_propose_spec (P : Prop) (s : state) chain block fee tx :
  wp P (check_propose chain block fee tx) (check_post s (pu_proposer tx) (pu_nonce tx) fee
    (fun x => x.1 = account_at s (pu_proposer tx) /\ counts (bc_height <$> block) s x.2)) s.
Proof.
  unfold check_propose. eapply check_and_then; [apply check_new_proposal_spec|]. intros x Hauth Hx.
  destruct (_ || _); wp_steps; [by split; [|right]|by apply check_ok].
Qed.

Lemma check_propose_policy_spec (P : Prop) (s : state) chain block fee tx :
  wp P (check_propose_policy chain (Some block) fee tx) (check_post s (po_proposer tx) (po_nonce tx) fee
    (fun x => x.1 = account_at s (po_proposer tx) /\ counts (Some (bc_height block)) s x.2
       /\ policy_is_valid_for (po_policy tx) (bc_anchor block) = true
       /\ policy_enactable block (po_policy tx) = true)) s.
Proof.
  unfold check_propose_policy. eapply check_and_then; [apply check_new_proposal_spec|]. intros x Hauth [Hacc Hset].
  cbv zeta. destruct (policy_is_valid_for _ _ && _) eqn:Hv; cbn [negb]; wp_steps; [|by split; [|right]].
  apply andb_true_iff in Hv as [Hv He]. by apply check_ok.
Qed.

Lemma check_vote_spec (P : Prop) (s : state) chain block fee tx :
  wp P (check_vote chain (Some block) fee tx) (check_post s (vu_voter tx) (vu_nonce tx) fee
    (fun x => x.1.1 = account_at s (vu_voter tx) /\ counts (Some (bc_height block)) s x.1.2
       /\ proposal_at s = Some x.2 /\ is_live x.2 (bc_chunk block) = true
       /\ sorted_contains id (prop_voters x.2) (vu_voter tx) = false)) s.
Proof.
  unfold check_vote. eapply check_and_then; [apply authorize_signer_spec|]. intros x Hauth [Hacc Hset]. wp_steps.
  destruct (peek _ s) as [p|] eqn:Hp; wp_steps; [|by split; [|right]].
  destruct (_ && _) eqn:Hlive; wp_steps; [|by split; [|right]]. apply andb_true_iff in Hlive as [_ Hlive].
  destruct (sorted_contains _ _ _) eqn:Hin; wp_steps; [by split; [|right]|by apply check_ok].
Qed.

Lemma settle_spec (P : Prop) (s : state) proposal set :
  wp P (settle proposal set) (fun _ => agree_off governance_keys s) s.
Proof.
  unfold settle, governance_keys. destruct (proposal_quorum_reached _ _); cbn [negb]; wp_steps.
  - destruct (prop_action proposal); wp_steps; intros k Hk; rewrite lookup_delete_ne, lookup_insert_ne; set_solver.
  - intros k Hk. rewrite lookup_insert_ne; set_solver.
Qed.

(** The fee and the enactment shared by the governance transactions. *)
Lemma settle_writes_spec (P : Prop) (s : state) signer nonce fee proposal set :
  nonce_at s signer = nonce -> fee <= balance_at s signer ->
  wp P (_ ← store_account signer (spend (account_at s signer) fee); _ ← settle proposal set; Ret (Ok tt))
    (tx_post true s signer nonce fee) s.
Proof.
  intros Hnonce Hfee. do 2 wp_step. apply wp_bind. eapply wp_mono; [apply settle_spec|].
  intros [] s2 Hag. cbv beta in Hag. wp_steps. split; [done|]. set (s1 := <[account_key signer:=_]> s) in *.
  assert (account_at s2 signer = spend (account_at s signer) fee) as Hacc.
  { rewrite (account_same _ s1 s2 _ Hag) by (unfold governance_keys; key_notin). apply account_insert. }
  apply (spent_intro _ _ _ governance_keys).
  - eapply agree_off_trans with (ks := [account_key signer]); [apply agree_off_insert|exact Hag].
  - unfold governance_keys. key_nodup.
  - by repeat constructor.
  - unfold nonce_at. by rewrite Hacc.
  - intros _. unfold governance_keys. worths. unfold balance_at in *. rewrite Hacc. cbn [spend a_balance]. lia.
  - apply (mirrored_frame [] (account_key signer :: governance_keys)); [|by repeat constructor].
    eapply agree_off_trans with (ks := [account_key signer]); [apply agree_off_insert|exact Hag].
Qed.

Lemma apply_propose_spec (P : Prop) (s : state) chain block fee tx :
  wp P (apply_propose chain block fee tx) (tx_post true s (pu_proposer tx) (pu_nonce tx) fee) s.
Proof.
  unfold apply_propose. eapply tx_and_then; [apply check_propose_spec|].
  intros [account set] Hauth [Hacc _]. cbn in Hacc. subst account. apply settle_writes_spec; apply Hauth.
Qed.

Lemma apply_propose_policy_spec (P : Prop) (s : state) chain block fee tx :
  wp P (apply_propose_policy chain block fee tx) (tx_post true s (po_proposer tx) (po_nonce tx) fee) s.
Proof.
  unfold apply_propose_policy. eapply tx_and_then; [apply check_propose_policy_spec|].
  intros [account set] Hauth [Hacc _]. cbn in Hacc. subst account. apply settle_writes_spec; apply Hauth.
Qed.

Lemma apply_vote_spec (P : Prop) (s : state) chain block fee tx :
  wp P (apply_vote chain block fee tx) (tx_post true s (vu_voter tx) (vu_nonce tx) fee) s.
Proof.
  unfold apply_vote. eapply tx_and_then; [apply check_vote_spec|].
  intros [[account set] p] Hauth [Hacc _]. cbn in Hacc. subst account. cbv beta iota zeta.
  destruct (match _ with Policy _ => _ | Programs _ _ _ => _ end); [wp_steps; by split; [|right]|].
  apply settle_writes_spec; apply Hauth.
Qed.

(** *** Every transaction *)

Lemma apply_transaction_spec (P : Prop) (s : state) facts fee tx :
  tx_charges_fee tx = true ->
  wp P (apply_transaction facts fee tx) (tx_post (is_governance tx) s (tx_payer tx) (tx_nonce tx) fee) s.
Proof.
  intros Hfee. destruct tx; cbn [apply_transaction tx_payer tx_nonce]; try done;
    eauto using apply_transfer_spec, apply_stake_spec, apply_unstake_spec, apply_deposit_spec,
      apply_voluntary_exit_spec, apply_withdraw_spec, apply_register_validator_spec, apply_propose_spec,
      apply_vote_spec, apply_propose_policy_spec.
Qed.

End effects.
