(* ===== verification/Sanctions.v ===== *)
(** * The mandatory phase of a block

    Effects of deductions, rewards and the sanction queue on the money supply, the
    settlement totals, the nonces and the validator mirrors, and the invariant
    [healthy] under which the mandatory phase of an evidence-free block cannot
    abort. *)

From S2P Require Import Prelude External Primitives History Evidence Sorted Backend RuntimeState Transactions Governance Staking Accountability Stf Views.

(** ** Sums *)

(** A saturating fold is the sum, capped. *)
Lemma saturating_sum {A} (f : A -> N) max l acc :
  acc <= max ->
  foldl (fun total e => saturating_add max total (f e)) acc l = N.min max (acc + sum_by f l).
Proof.
  revert acc. induction l as [|x l IH]; intros acc Hacc; cbn [foldl]; [rewrite sum_by_nil; lia|].
  rewrite IH, sum_by_cons by apply saturating_add_le. unfold saturating_add. lia.
Qed.

Lemma queue_total_exact q :
  sum_by w_amount (wq_entries q) <= U128_MAX -> queue_total q = sum_by w_amount (wq_entries q).
Proof. intros Hle. unfold queue_total. rewrite saturating_sum by lia. lia. Qed.

Lemma queue_total_le q : queue_total q <= sum_by w_amount (wq_entries q).
Proof. unfold queue_total. rewrite saturating_sum by (unfold U128_MAX; lia). lia. Qed.

Lemma burn_entries_0 es : burn_entries es 0 = es.
Proof. induction es as [|e es IH]; [done|]. cbn. by rewrite IH. Qed.

Lemma burn_entries_sum es r :
  r <= sum_by w_amount es -> sum_by w_amount (burn_entries es r) + r = sum_by w_amount es.
Proof.
  revert r. induction es as [|e es IH]; intros r Hr; cbn [burn_entries]; [cbn in *; lia|].
  rewrite sum_by_cons in *. destruct (N.eqb_spec r 0) as [->|Hr0].
  - rewrite burn_entries_0, sum_by_cons. lia.
  - destruct (N.leb_spec (w_amount e) r).
    + specialize (IH (r - w_amount e) ltac:(lia)). lia.
    + rewrite burn_entries_0, sum_by_cons. cbn [w_amount]. lia.
Qed.

(** The share computed from quotient and remainder is the exact floor. *)
Lemma mul_div_floor_exact v n d : d <> 0 -> mul_div_floor v n d = v * n / d.
Proof.
  intros Hd. unfold mul_div_floor. rewrite (N.div_mod v d) at 3 by done.
  replace ((d * (v / d) + v mod d) * n) with (v / d * n * d + v mod d * n) by lia.
  by rewrite N.div_add_l.
Qed.

Lemma mul_div_floor_le v n d : d <> 0 -> n <= d -> mul_div_floor v n d <= v.
Proof.
  intros Hd Hn. rewrite mul_div_floor_exact by done. apply N.Div0.div_le_upper_bound.
  rewrite (N.mul_comm d v). by apply N.mul_le_mono_l.
Qed.

(** ** Totals *)

Definition burned_of (t : SettlementTotals) : N :=
  sc_value (kt_burned (st_slash t)) + sc_value (kt_burned (st_inactivity t)).

Lemma counter_add_exact c n : sc_value c + n <= U128_MAX -> sc_value (counter_add c n) = sc_value c + n.
Proof. intros Hle. unfold counter_add, checked_add. by rewrite (proj2 (N.leb_le _ _) Hle). Qed.

Lemma burned_admitted t kind : burned_of (totals_admitted t kind) = burned_of t.
Proof. by destruct kind. Qed.

Lemma burned_admitted_all t admitted :
  burned_of (foldl (fun t s => totals_admitted t (sn_kind s)) t admitted) = burned_of t.
Proof. revert t. induction admitted as [|s l IH]; intros t; [done|]. cbn. by rewrite IH, burned_admitted. Qed.

Lemma totals_executed_burned t kind d r t' :
  totals_executed t kind d r = Some t' ->
  burned_of t + (d - r) <= U128_MAX -> burned_of t' = burned_of t + (d - r).
Proof.
  unfold totals_executed. intros Ht Hle. apply bind_Some in Ht as (b & Hb & [= <-]).
  apply checked_sub_Some in Hb as [-> _]. unfold burned_of in *.
  destruct kind; cbn [update_kind st_slash st_inactivity kind_executed kt_burned];
    rewrite counter_add_exact by lia; lia.
Qed.

(** ** Invariants of the state *)

Section health.
Context `{StateCodec} `{GovernanceCodec} `{AccountabilityCodec}.

(** The key is absent or decodes. *)
Definition canonical {T} `{Borsh T} (key : bytes) (s : state) : Prop := s !! key = None \/ is_Some (peek (T := T) key s).

Definition sanctions_at (s : state) : list PendingSanction := default [] (peek QUEUE_KEY s).
Definition totals_at (s : state) : SettlementTotals := default totals_default (peek SETTLEMENT_TOTALS_KEY s).
Definition burned_at (s : state) : N := burned_of (totals_at s).

Definition fair_share (p : PendingSanction) : Prop := pd_reporter_reward_bps p <= BASIS_POINTS.

(** A policy valid for the chain's fixed unbonding delay. *)
Definition policy_fits (delay : N) (p : RuntimePolicy) : Prop :=
  policy_is_well_formed p = true /\ p_evidence_max_age_blocks p < delay.

(** Governance facts: the policy in force and an open policy proposal are valid, the
    voters of an open proposal are a sorted set, and a queue of [pending] sanctions fits the policy in force. *)
Record governed (delay pending : N) (s : state) : Prop := {
  gv_policy : policy_fits delay (policy_at s);
  gv_proposal : forall p policy, proposal_at s = Some p -> prop_action p = Policy policy -> policy_fits delay policy;
  gv_voters : forall p, proposal_at s = Some p -> sorted id (prop_voters p);
  gv_fits : pending <= p_evidence_max_pending (policy_at s);
}.

(** The records of the mandatory phase. *)
Record accountable (s : state) : Prop := {
  ac_queue : canonical (T := list PendingSanction) QUEUE_KEY s;
  ac_shares : Forall fair_share (sanctions_at s);
  ac_totals : canonical (T := SettlementTotals) SETTLEMENT_TOTALS_KEY s;
  ac_buckets : forall h, @canonical _ codec_bucket (expiry_key h) s;
  ac_markers : forall h keys, @peek _ codec_bucket (expiry_key h) s = Some keys ->
    Forall (fun k => has_prefix OFFENCE_KEY_PREFIX k = true) keys;
}.

Definition healthy (delay : N) (s : state) : Prop :=
  governed delay (len (sanctions_at s)) s /\ accountable s.

Lemma policy_fits_valid policy anchor :
  policy_is_valid_for policy anchor = true <->
  EvidenceAnchor_is_well_formed anchor = true /\ policy_fits (an_unbonding_delay_blocks anchor) policy.
Proof. unfold policy_is_valid_for, policy_fits. rewrite !andb_true_iff, N.ltb_lt. tauto. Qed.

(** Only the governance records matter. *)
Lemma governed_same delay pending (s s' : state) :
  (forall k, governance_key k = true -> s' !! k = s !! k) -> governed delay pending s -> governed delay pending s'.
Proof.
  intros Hsame [Hp Ho Hv Hf]. assert (policy_at s' = policy_at s) as He.
  { unfold policy_at. by rewrite (peek_same _ s s') by by apply Hsame. }
  assert (proposal_at s' = proposal_at s) as Hq.
  { unfold proposal_at. by rewrite (peek_same _ s s') by by apply Hsame. }
  split; rewrite ?He, ?Hq; auto.
Qed.

End health.

(** The states agree outside the accountability records. *)
Definition outside (s s' : state) : Prop :=
  forall k, has_prefix ACCOUNTABILITY_PREFIX k = false -> s' !! k = s !! k.

Lemma outside_refl s : outside s s.
Proof. by intros k. Qed.

Lemma outside_trans s t u : outside s t -> outside t u -> outside s u.
Proof. intros Hst Htu k Hk. by rewrite Htu, Hst. Qed.

Lemma outside_insert s k v : has_prefix ACCOUNTABILITY_PREFIX k = true -> outside s (<[k := v]> s).
Proof. intros Hk k' Hk'. rewrite lookup_insert_ne; [done|]. intros ->. congruence. Qed.

Lemma outside_delete s k : has_prefix ACCOUNTABILITY_PREFIX k = true -> outside s (delete k s).
Proof. intros Hk k' Hk'. rewrite lookup_delete_ne; [done|]. intros ->. congruence. Qed.

Lemma has_prefix_weaken p q k : has_prefix p q = true -> has_prefix q k = true -> has_prefix p k = true.
Proof.
  revert q k. induction p as [|x p IH]; intros [|y q] k; cbn; try done. destruct k as [|z k]; cbn; [done|].
  rewrite !andb_true_iff, !N.eqb_eq. intros [-> Hp] [-> Hq]. eauto.
Qed.

Lemma has_prefix_disjoint p q k :
  has_prefix p k = true -> has_prefix q k = true -> has_prefix p q = true \/ has_prefix q p = true.
Proof.
  revert q k. induction p as [|x p IH]; intros [|y q] [|z k]; cbn; try by auto.
  rewrite !andb_true_iff, !N.eqb_eq. intros [-> Hp] [-> Hq]. destruct (IH q k Hp Hq); auto.
Qed.

#[export] Hint Resolve outside_refl outside_trans outside_insert outside_delete : neutrino.

Section mandatory.
Context `{Blake3} `{Ed25519} `{StateCodecLaws} `{GovernanceCodec} `{AccountabilityCodecLaws}.

Lemma worth_outside k : worth_key k = true -> has_prefix ACCOUNTABILITY_PREFIX k = false.
Proof.
  unfold worth_key. rewrite !orb_true_iff. intros Hk. destruct (has_prefix ACCOUNTABILITY_PREFIX k) eqn:Hp; [|done].
  destruct Hk as [[Hk|Hk]|Hk]; by destruct (has_prefix_disjoint _ _ _ Hp Hk) as [Hd|Hd]; vm_compute in Hd.
Qed.

Lemma mirror_outside k : mirror_key k = true -> has_prefix ACCOUNTABILITY_PREFIX k = false.
Proof.
  unfold mirror_key. rewrite !orb_true_iff. intros Hk. destruct (has_prefix ACCOUNTABILITY_PREFIX k) eqn:Hp; [|done].
  destruct Hk as [[[[Hk|Hk]|Hk]|Hk]|Hk]; by destruct (has_prefix_disjoint _ _ _ Hp Hk) as [Hd|Hd]; vm_compute in Hd.
Qed.

Lemma outside_supply s s' : outside s s' -> supply s' = supply s.
Proof. intros Hout. apply supply_same. intros k Hk. by apply Hout, worth_outside. Qed.

Lemma outside_mirrored s s' : outside s s' -> mirrored s -> mirrored s'.
Proof. intros Hout. apply mirrored_same. intros k Hk. by apply Hout, mirror_outside. Qed.

Lemma outside_account s s' a : outside s s' -> account_at s' a = account_at s a.
Proof. intros Hout. unfold account_at. by rewrite (peek_same _ s s') by by apply Hout. Qed.

(** ** One deduction *)

(** [apply_deduction]: the burn leaves the supply. *)
Record deducted (a : Address) (amount burn : N) (s s' : state) : Prop := {
  dd_agree : agree_off (unbond_keys a) s s';
  dd_burn : burn <= amount;
  dd_supply : supply s <= U128_MAX -> supply s' + burn = supply s;
  dd_mirrored : mirrored s -> mirrored s';
}.

Lemma apply_deduction_spec (P : Prop) (s : state) a amount :
  wp P (apply_deduction a amount) (fun r s' =>
    match r with
    | Ok burn => deducted a amount burn s s'
    | Err e => e = InsufficientBalance /\ s' = s
    end) s.
Proof.
  unfold apply_deduction. wp_steps. set (v := validator_at s a). set (q := queue_at s a).
  set (total := saturating_add U128_MAX (v_stake v) (queue_total q)).
  destruct (N.eqb_spec total 0); wp_steps; [done|]. set (burn := N.min total amount).
  set (from_stake := N.min (v_stake v) burn). set (stake := v_stake v - from_stake).
  assert (v_stake v + sum_by w_amount (wq_entries q) <= supply s) as Hbound.
  { pose proof (supply_split [validator_key a; withdrawal_key a] s) as Hsp. revert Hsp. worths. intros Hsp.
    specialize (Hsp ltac:(key_nodup)). subst v q. lia. }
  assert (supply s <= U128_MAX -> total = v_stake v + sum_by w_amount (wq_entries q)) as Htotal.
  { intros Hsup. subst total. rewrite queue_total_exact, saturating_add_exact by lia. done. }
  assert (burn <= v_stake v + sum_by w_amount (wq_entries q)) as Hburn.
  { subst burn total. pose proof (queue_total_le q). unfold saturating_add. lia. }
  set (touched := (0 <? burn - from_stake) && negb (bool_decide (wq_entries q = []))).
  set (entries := if touched then burn_entries (wq_entries q) (burn - from_stake) else wq_entries q).
  assert (sum_by w_amount entries + (burn - from_stake) = sum_by w_amount (wq_entries q)) as Hentries.
  { subst entries touched. destruct (N.ltb_spec 0 (burn - from_stake)) as [Hpos|Hzero].
    - case_bool_decide as Hq; cbn [negb andb]; [rewrite Hq, sum_by_nil in *; lia|]. apply burn_entries_sum. lia.
    - cbn [andb]. lia. }
  eapply wp_mono; [apply commit_validator_spec|]. intros [] s1 Hcm. cbv beta in Hcm. apply wp_bind.
  apply (wp_mono P _ (fun _ s2 => agree_off [withdrawal_key a] s1 s2
    /\ sum_by w_amount (wq_entries (queue_at s2 a)) = sum_by w_amount entries)).
  - assert (queue_at s1 a = q) as Hq1.
    { unfold queue_at. by rewrite (peek_same _ s s1) by (apply (cm_agree _ _ _ _ Hcm); key_notin). }
    destruct touched; [case_bool_decide as He|]; wp_steps.
    + split; [apply agree_off_delete|]. unfold queue_at. by rewrite peek_delete, He.
    + split; [apply agree_off_insert|]. unfold queue_at. by rewrite peek_insert.
    + split; [apply agree_off_refl|]. by rewrite Hq1.
  - intros [] s2 [Hag2 Hq2]. wp_steps.
    assert (agree_off (unbond_keys a) s s2) as Hag by exact (agree_off_trans _ _ _ _ _ (cm_agree _ _ _ _ Hcm) Hag2).
    assert (v_stake (validator_at s2 a) = stake) as Hv2.
    { unfold validator_at, validator_rec. rewrite (peek_same _ s1 s2) by (apply Hag2; key_notin).
      fold (validator_rec s1 a). by rewrite (cm_validator _ _ _ _ Hcm). }
    split; [exact Hag|lia| |].
    + intros Hsup. pose proof (supply_agree (unbond_keys a) s s2 ltac:(key_nodup) Hag) as Hs. revert Hs.
      worths. fold v q. rewrite Hv2, Hq2. lia.
    + intros Hm. eapply (mirrored_frame [] _ s1 s2); [exact Hag2|by repeat constructor|].
      eapply mirrored_commit; [|exact Hcm|done]. by apply mirrored_weaken.
Qed.

Lemma credit_reporter_spec (P : Prop) (s : state) r d bps :
  bps <= BASIS_POINTS ->
  wp P (credit_reporter r d bps) (fun c s' =>
    c <= d /\ agree_off [account_key r] s s' /\ supply s' = supply s + c
    /\ (forall a, nonce_at s' a = nonce_at s a)) s.
Proof.
  intros Hbps. unfold credit_reporter. apply wp_bind, wp_assert. rewrite (proj2 (N.leb_le _ _) Hbps).
  pose proof (mul_div_floor_le d bps BASIS_POINTS ltac:(done) Hbps) as Hle.
  destruct (N.eqb_spec (mul_div_floor d bps BASIS_POINTS) 0); wp_steps; [by repeat split; try lia; auto with neutrino|].
  split; [lia|]. split; [apply agree_off_insert|]. split.
  - match goal with |- context [<[account_key r := borsh_to_vec ?x]> s] => pose proof (supply_account s r x) as Hs end.
    unfold balance_at in Hs. cbn [a_balance] in Hs. lia.
  - intros a. unfold nonce_at. destruct (decide (a = r)) as [->|Hne]; [by rewrite account_insert|].
    by rewrite account_insert_ne.
Qed.

(** ** Executing the queue *)

(** Keys the executions leave alone. *)
Definition settled_key (k : bytes) : bool :=
  governance_key k || has_prefix QUEUE_KEY k || has_prefix SETTLEMENT_TOTALS_KEY k || has_prefix EXPIRY_KEY_PREFIX k.

(** Executions move money between the supply and the burned totals only. *)
Record settled (t t' : SettlementTotals) (s s' : state) : Prop := {
  sd_money : supply s + burned_of t <= U128_MAX -> supply s' + burned_of t' = supply s + burned_of t;
  sd_nonces : forall a, nonce_at s' a = nonce_at s a;
  sd_mirrored : mirrored s -> mirrored s';
  sd_frame : forall k, settled_key k = true -> s' !! k = s !! k;
}.

Lemma settled_refl t s : settled t t s s.
Proof. done. Qed.

Lemma settled_trans t u v s1 s2 s3 : settled t u s1 s2 -> settled u v s2 s3 -> settled t v s1 s3.
Proof.
  intros [Hm Hn Hr Hf] [Hm' Hn' Hr' Hf']. split; auto.
  - intros Hle. rewrite <- (Hm Hle). apply Hm'. rewrite Hm; done.
  - intros a. by rewrite Hn', Hn.
  - intros k Hk. by rewrite Hf', Hf.
Qed.

Lemma marker_key_prefix s : has_prefix ACCOUNTABILITY_PREFIX (sanction_marker_key s) = true.
Proof. unfold sanction_marker_key, replay_marker. by destruct (sn_kind s). Qed.

Lemma marker_not_settled s : settled_key (sanction_marker_key s) = false.
Proof. unfold sanction_marker_key, replay_marker. by destruct (sn_kind s). Qed.

(** Writing a marker changes nothing else. *)
Lemma settled_marker t (s : state) x v : settled t t s (<[sanction_marker_key x := v]> s).
Proof.
  pose proof (outside_insert s (sanction_marker_key x) v (marker_key_prefix x)) as Hout. split.
  - intros _. by rewrite (outside_supply _ _ Hout).
  - intros a. unfold nonce_at. by rewrite (outside_account _ _ _ Hout).
  - by apply outside_mirrored.
  - intros k Hk. rewrite lookup_insert_ne; [done|]. intros <-. by rewrite marker_not_settled in Hk.
Qed.

(** The deduction, the reward and the counters of one obligation. *)
Lemma settled_item (s s1 s2 : state) a amount d r c t t' kind ks :
  deducted a amount d s s1 -> c <= d -> agree_off ks s1 s2 -> ks = [] \/ ks = [account_key r] ->
  supply s2 = supply s1 + c -> (forall b, nonce_at s2 b = nonce_at s1 b) ->
  totals_executed t kind d c = Some t' -> settled t t' s s2.
Proof.
  intros Hdd Hc Hag Hks Hsup Hn Ht. destruct Hdd as [Hag1 _ Hburn Hmir]. split.
  - intros Hle. specialize (Hburn ltac:(lia)). rewrite (totals_executed_burned _ _ _ _ _ Ht) by lia. lia.
  - intros b. rewrite Hn. unfold nonce_at. f_equal. eapply account_same; [exact Hag1|key_notin].
  - intros Hm. eapply (mirrored_frame [] ks); [exact Hag| |by apply Hmir].
    by destruct Hks as [-> | ->]; repeat constructor.
  - intros k Hk. rewrite Hag, Hag1; [done| |].
    + key_untouched Hk.
    + destruct Hks as [-> | ->]; key_untouched Hk.
Qed.

Lemma execute_pending_spec (P : Prop) (s : state) item t :
  fair_share item -> wp P (execute_pending item t) (fun r => settled t r.2 s) s.
Proof.
  intros Hshare. unfold execute_pending. apply wp_bind. eapply wp_mono; [apply apply_deduction_spec|].
  intros [d|e] s1 Hr; cbv beta in Hr.
  - apply wp_bind. apply wp_bind. eapply (wp_mono P _ (fun c s2 => exists ks r, c <= d /\ agree_off ks s1 s2
      /\ (ks = [] \/ ks = [account_key r]) /\ supply s2 = supply s1 + c /\ (forall b, nonce_at s2 b = nonce_at s1 b))).
    + assert (wp P (Ret 0) (fun c s2 => exists ks r, c <= d /\ agree_off ks s1 s2
        /\ (ks = [] \/ ks = [account_key r]) /\ supply s2 = supply s1 + c /\ (forall b, nonce_at s2 b = nonce_at s1 b)) s1) as Hzero.
      { wp_steps. exists [], []. repeat split; try lia; auto with neutrino. }
      destruct (sn_kind _); [|done]. destruct (pd_reporter item) as [r|]; [|done].
      eapply wp_mono; [by apply credit_reporter_spec|]. intros c s2 (Hc & Hag & Hs & Hn). exists [account_key r], r. auto.
    + intros c s2 (ks & r & Hc & Hag & Hks & Hs & Hn). wp_steps. unfold expect.
      destruct (totals_executed t _ d c) as [t'|] eqn:Ht.
      * wp_steps. cbn [snd]. eapply settled_trans; [|apply settled_marker]. by eapply settled_item.
      * unfold totals_executed in Ht. apply bind_None in Ht as [Ht|(b & _ & Ht)]; [|done].
        apply checked_sub_None in Ht. lia.
  - destruct Hr as [-> ->]. wp_steps. unfold totals_executed. change (checked_sub 0 0) with (Some 0). cbn [mbind option_bind expect].
    wp_steps. eapply settled_trans; [|apply settled_marker]. split; auto. intros Hle. cbn [snd].
    pose proof (totals_executed_burned t (sn_kind (pd_sanction item)) 0 0 _ eq_refl ltac:(lia)) as Hb.
    change (0 - 0) with 0 in Hb. lia.
Qed.

(** The loop over the drained prefix: one receipt per obligation. *)
Lemma execute_fold_spec (P : Prop) (s : state) drained t :
  Forall fair_share drained ->
  wp P (fold_stf execute_step (t, []) drained)
    (fun acc s' => settled t acc.1 s s' /\ len acc.2 = len drained
       /\ Forall (fun r => rc_gas_used r = GAS_SANCTION) acc.2) s.
Proof.
  rewrite Forall_forall. intros Hfair.
  apply (wp_fold P execute_step (fun seen acc s' => settled t acc.1 s s' /\ len acc.2 = len seen
    /\ Forall (fun r => rc_gas_used r = GAS_SANCTION) acc.2)).
  - split; [apply settled_refl|by split].
  - intros seen item [u rs] s' Hin (Hset & Hlen & Hgas). unfold execute_step. apply wp_bind.
    eapply wp_mono; [by apply execute_pending_spec, Hfair|]. intros [status u'] s'' Hset'. cbn [fst snd] in *.
    wp_steps. cbn [fst snd]. split; [by eapply settled_trans|]. split; [|apply Forall_app; by repeat constructor].
    revert Hlen. unfold len. rewrite !length_app. cbn. lia.
Qed.

(** ** Admission *)

(** Writes under the markers. *)
Definition marking (s s' : state) : Prop :=
  forall k, has_prefix OFFENCE_KEY_PREFIX k = false -> has_prefix SLASHED_KEY_PREFIX k = false -> s' !! k = s !! k.

Lemma marking_refl s : marking s s.
Proof. by intros k. Qed.

Lemma marking_trans s t u : marking s t -> marking t u -> marking s u.
Proof. intros Hst Htu k Ho Hs. rewrite (Htu k Ho Hs). exact (Hst k Ho Hs). Qed.

Lemma marking_insert (s : state) (x : Sanction) (v : bytes) : marking s (<[sanction_marker_key x := v]> s).
Proof.
  intros k Ho Hs. rewrite lookup_insert_ne; [done|]. intros <-. revert Ho Hs.
  unfold sanction_marker_key, replay_marker.
  destruct (sn_kind x); intros Ho Hs; [vm_compute in Hs; discriminate|vm_compute in Ho; discriminate].
Qed.

Lemma marking_delete (s : state) k : has_prefix OFFENCE_KEY_PREFIX k = true -> marking s (delete k s).
Proof. intros Hk k' Ho _. rewrite lookup_delete_ne; [done|]. intros <-. congruence. Qed.

Hint Resolve marking_refl marking_trans marking_insert marking_delete : neutrino.

(** Steps that touch neither the queue nor the totals and keep the records
    well-formed. *)
Record housekept (s s' : state) : Prop := {
  hk_outside : outside s s';
  hk_queue : s' !! QUEUE_KEY = s !! QUEUE_KEY;
  hk_totals : s' !! SETTLEMENT_TOTALS_KEY = s !! SETTLEMENT_TOTALS_KEY;
  hk_accountable : accountable s -> accountable s';
}.

Lemma housekept_refl s : housekept s s.
Proof. by split. Qed.

Lemma housekept_trans s t u : housekept s t -> housekept t u -> housekept s u.
Proof.
  intros [Ho Hq Ht Ha] [Ho' Hq' Ht' Ha']. split; eauto with neutrino; congruence.
Qed.

Lemma canonical_same {T} `{Borsh T} k (s s' : state) : s' !! k = s !! k -> canonical (T := T) k s -> canonical (T := T) k s'.
Proof. unfold canonical, peek. by intros ->. Qed.

Lemma canonical_insert {T} `{BorshLaws T} k (s : state) (x : T) : canonical (T := T) k (<[k := borsh_to_vec x]> s).
Proof. right. by rewrite peek_insert. Qed.

(** The records of the mandatory phase, bucket by bucket. *)
Lemma accountable_same (s s' : state) :
  s' !! QUEUE_KEY = s !! QUEUE_KEY -> s' !! SETTLEMENT_TOTALS_KEY = s !! SETTLEMENT_TOTALS_KEY ->
  (forall h, s' !! expiry_key h = s !! expiry_key h \/ s' !! expiry_key h = None
     \/ exists keys, s' !! expiry_key h = Some (@borsh_to_vec _ codec_bucket keys)
        /\ Forall (fun k => has_prefix OFFENCE_KEY_PREFIX k = true) keys) ->
  accountable s -> accountable s'.
Proof.
  intros Hq Ht Hb [Aq As At Ab Am]. split.
  - by eapply canonical_same.
  - unfold sanctions_at. by rewrite (peek_same _ _ _ Hq).
  - by eapply canonical_same.
  - intros h. destruct (Hb h) as [He|[He|(keys & He & _)]]; [by eapply canonical_same|by left|].
    right. unfold peek. rewrite He. cbn. rewrite (@borsh_roundtrip _ _ codec_bucket_laws). by eexists.
  - intros h keys. destruct (Hb h) as [He|[He|(keys' & He & Hall)]]; unfold peek; rewrite He; [apply Am|done|].
    cbn. rewrite (@borsh_roundtrip _ _ codec_bucket_laws). by intros [= <-].
Qed.

Lemma marking_housekept s s' : marking s s' -> housekept s s'.
Proof.
  intros Hm. split.
  - intros k Hk. apply Hm; apply not_true_is_false; intros Hp;
      (apply (has_prefix_weaken ACCOUNTABILITY_PREFIX) in Hp; [congruence|done]).
  - by apply Hm.
  - by apply Hm.
  - apply accountable_same; [by apply Hm..|]. intros h. left. by apply Hm.
Qed.

Lemma expiry_housekept (s : state) h v :
  v = None \/ (exists keys, v = Some (@borsh_to_vec _ codec_bucket keys)
    /\ Forall (fun k => has_prefix OFFENCE_KEY_PREFIX k = true) keys) ->
  housekept s (partial_alter (fun _ => v) (expiry_key h) s).
Proof.
  intros Hv.
  assert (forall k, k <> expiry_key h -> partial_alter (fun _ => v) (expiry_key h) s !! k = s !! k) as Hne.
  { intros k Hk. by rewrite lookup_partial_alter_ne by congruence. }
  split.
  - intros k Hk. apply Hne. intros ->. by vm_compute in Hk.
  - by apply Hne.
  - by apply Hne.
  - apply accountable_same; [by apply Hne..|]. intros h'.
    destruct (decide (expiry_key h' = expiry_key h)) as [->|Hk]; [|left; by apply Hne].
    right. by rewrite lookup_partial_alter_eq.
Qed.

(** A canonical record is read without aborting. *)
Lemma wp_read_canonical (P : Prop) {T : Type} `{Borsh T} (key : bytes) (Q : option T -> state -> Prop) (s : state) :
  canonical (T := T) key s -> Q (peek key s) s -> wp P (read_canonical key) Q s.
Proof.
  intros Hc HQ. unfold read_canonical. wp_steps. revert HQ. unfold canonical, peek in *.
  destruct (s !! key) as [b|]; [|done]. cbn in *. destruct Hc as [|[x Hx]]; [done|]. by rewrite Hx.
Qed.

Lemma sweep_expired_markers_spec (P : Prop) (s : state) height retention :
  accountable s -> wp P (sweep_expired_markers height retention) (fun _ => housekept s) s.
Proof.
  intros Ha. unfold sweep_expired_markers. destruct (_ ≫= _) as [h|]; [|apply wp_ret, housekept_refl].
  apply wp_bind, wp_read_canonical; [apply (ac_buckets _ Ha)|].
  destruct (peek (expiry_key h) s) as [keys|] eqn:Hkeys; [|apply wp_ret, housekept_refl].
  apply (ac_markers _ Ha) in Hkeys. rewrite Forall_forall in Hkeys. apply wp_bind.
  eapply wp_mono.
  - apply (wp_fold P _ (fun _ _ s' => marking s s')); [apply marking_refl|].
    intros _ k [] s' Hk Hm. apply wp_delete. eapply marking_trans; [exact Hm|]. by apply marking_delete, Hkeys.
  - intros [] s' Hm. cbv beta in Hm. apply wp_delete. eapply housekept_trans; [by apply marking_housekept|].
    apply (expiry_housekept s' h None). by left.
Qed.

Lemma record_expiry_bucket_spec (P : Prop) (s : state) height admitted :
  wp P (record_expiry_bucket height admitted) (fun _ => housekept s) s.
Proof.
  unfold record_expiry_bucket. case_bool_decide; [apply wp_ret, housekept_refl|].
  apply wp_write_record. eapply (expiry_housekept _ _ (Some _)). right. eexists. split; [done|].
  apply Forall_forall. intros k [x [-> Hx]]%list_elem_of_fmap. apply list_elem_of_filter in Hx as [Hx _].
  unfold sanction_marker_key, replay_marker. by rewrite Hx.
Qed.

(** The sanctions a block admits are the claims of its evidence prefix. *)
Lemma collect_admissions_spec (P : Prop) (s : state) input :
  (evidence_prefix (mi_transactions input) <> [] -> P) ->
  wp P (collect_admissions input) (fun admitted s' =>
    s' = s /\ admitted = map (fun e => sanction_of (statement e)) (evidence_prefix (mi_transactions input))) s.
Proof.
  intros HP. unfold collect_admissions. set (l := evidence_prefix _) in *. apply wp_bind.
  eapply wp_mono; [apply (wp_fold P _ (fun seen acc s' => s' = s /\ acc.1.1 = map (fun e => sanction_of (statement e)) seen))|].
  - done.
  - intros seen x [[adm slashed] ids] s' Hx [-> Hadm]. cbn [fst] in Hadm.
    assert P as HPP by (apply HP; intros Hl; rewrite Hl in Hx; by apply elem_of_nil in Hx).
    unfold collect_step. wp_steps. case_bool_decide; [|done]. apply wp_bind.
    apply (wp_mono P _ (fun _ s' => s' = s)).
    + destruct (kind _); [done|]. unfold certified_absent, read_canonical. wp_steps.
      destruct (s !! absent_key _) as [b|]; [|exact eq_refl].
      destruct (@borsh_from_slice _ codec_absent b); [exact eq_refl|exact HPP].
    + intros ab s'' ->. cbv beta. apply wp_bind, wp_assert. destruct ab; [|done]. apply wp_bind, wp_assert.
      case_match; [|done]. wp_steps. split; [done|]. cbn [fst]. by rewrite Hadm, map_app.
  - intros [[adm sl] ids] s' [-> Hadm]. by apply wp_ret.
Qed.

Definition pending_item (policy : RuntimePolicy) (e : EvidenceSubmission) : PendingSanction :=
  pending_of policy (sanction_of (statement e)) (reporter (statement e)).

Lemma enqueue_admissions_spec (P : Prop) (s : state) input policy queue :
  let es := evidence_prefix (mi_transactions input) in
  wp P (enqueue_admissions input policy (map (fun e => sanction_of (statement e)) es) queue) (fun q s' =>
    q = queue ++ map (pending_item policy) es /\ housekept s s') s.
Proof.
  cbv zeta. unfold enqueue_admissions. set (es := evidence_prefix _).
  eapply wp_mono; [apply (wp_fold P _ (fun seen q s' => q = queue ++ map (pending_item policy) seen.*2 /\ marking s s'))|].
  - split; [by rewrite app_nil_r|apply marking_refl].
  - intros seen [x e] q s' Hx [-> Hm]. wp_steps. split.
    + rewrite fmap_app, map_app, app_assoc. cbn. do 2 f_equal. unfold pending_item. f_equal.
      apply elem_of_lookup_zip_with in Hx as (i & a & b & [= <- <-] & Hi & Hj).
      rewrite list_lookup_fmap, Hj in Hi. by injection Hi.
    + eapply marking_trans; [exact Hm|apply marking_insert].
  - intros q s' [-> Hm]. rewrite snd_zip by by rewrite length_map. split; [done|by apply marking_housekept].
Qed.

(** ** The whole phase *)

(** Money is conserved between the supply and the burned totals; nonces, mirrors
    and governance are kept. *)
Record conserved (s s' : state) : Prop := {
  cv_money : supply s + burned_at s <= U128_MAX -> supply s' + burned_at s' = supply s + burned_at s;
  cv_nonces : forall a, nonce_at s' a = nonce_at s a;
  cv_mirrored : mirrored s -> mirrored s';
  cv_governance : forall k, governance_key k = true -> s' !! k = s !! k;
}.

Lemma conserved_refl s : conserved s s.
Proof. by split. Qed.

Lemma conserved_trans s t u : conserved s t -> conserved t u -> conserved s u.
Proof.
  intros [Hm Hn Hr Hg] [Hm' Hn' Hr' Hg']. split; auto.
  - intros Hle. rewrite <- (Hm Hle). apply Hm'. rewrite Hm; done.
  - intros a. by rewrite Hn', Hn.
  - intros k Hk. by rewrite Hg', Hg.
Qed.

Lemma governance_outside k : governance_key k = true -> has_prefix ACCOUNTABILITY_PREFIX k = false.
Proof.
  unfold governance_key. rewrite !orb_true_iff. intros Hk. destruct (has_prefix ACCOUNTABILITY_PREFIX k) eqn:Hp; [|done].
  destruct Hk as [[Hk|Hk]|Hk]; by destruct (has_prefix_disjoint _ _ _ Hp Hk) as [Hd|Hd]; vm_compute in Hd.
Qed.

Lemma outside_conserved s s' :
  outside s s' -> s' !! SETTLEMENT_TOTALS_KEY = s !! SETTLEMENT_TOTALS_KEY -> conserved s s'.
Proof.
  intros Ho Ht. split.
  - intros _. unfold burned_at, totals_at. by rewrite (outside_supply _ _ Ho), (peek_same _ _ _ Ht).
  - intros a. unfold nonce_at. by rewrite (outside_account _ _ _ Ho).
  - by apply outside_mirrored.
  - intros k Hk. by apply Ho, governance_outside.
Qed.

Lemma housekept_conserved s s' : housekept s s' -> conserved s s'.
Proof. intros [Ho _ Ht _]. by apply outside_conserved. Qed.

Lemma settled_accountable t t' s s' : settled t t' s s' -> accountable s -> accountable s'.
Proof.
  intros Hs. apply accountable_same; [by apply (sd_frame _ _ _ _ Hs)..|]. intros h. left. by apply (sd_frame _ _ _ _ Hs).
Qed.

(** Executions followed by the write of the new totals. *)
Lemma settled_stored t t' s s' :
  settled t t' s s' -> burned_of t = burned_at s ->
  let s'' := <[SETTLEMENT_TOTALS_KEY := borsh_to_vec t']> s' in
  conserved s s'' /\ (accountable s -> accountable s'') /\ s'' !! QUEUE_KEY = s !! QUEUE_KEY.
Proof.
  intros Hs Hb s''. assert (outside s' s'') as Ho by by apply outside_insert. split; [|split].
  - split.
    + assert (burned_at s'' = burned_of t') as ->.
      { unfold burned_at, totals_at, s''. by rewrite (peek_insert (T := SettlementTotals)). }
      rewrite <- Hb, (outside_supply _ _ Ho). apply (sd_money _ _ _ _ Hs).
    + intros a. unfold nonce_at. rewrite (outside_account _ _ _ Ho). by apply (sd_nonces _ _ _ _ Hs).
    + intros Hm. by apply (outside_mirrored _ _ Ho), (sd_mirrored _ _ _ _ Hs).
    + intros k Hk. rewrite (Ho _ (governance_outside _ Hk)). apply (sd_frame _ _ _ _ Hs).
      unfold settled_key. by rewrite Hk.
  - intros Ha. destruct (settled_accountable _ _ _ _ Hs Ha) as [Aq As At Ab Am].
    split; [apply (canonical_same _ s'); [by apply lookup_insert_ne|done]|..].
    + unfold sanctions_at, s''. by rewrite peek_insert_ne.
    + apply canonical_insert.
    + intros h. apply (canonical_same _ s'); [by apply lookup_insert_ne|apply Ab].
    + intros h keys. unfold s''. rewrite peek_insert_ne by done. apply Am.
  - unfold s''. rewrite lookup_insert_ne by done. by apply (sd_frame _ _ _ _ Hs).
Qed.

(** The bytes whose digest the queue's commitment is. *)
Definition queue_bytes (s : state) : bytes := default (borsh_to_vec ([] : list PendingSanction)) (s !! QUEUE_KEY).

(** The queue is rewritten when its digest changes. *)
Lemma queue_stored s residue :
  accountable s -> Forall fair_share residue ->
  let s' := if bool_decide (blake3_256 (queue_bytes s) = blake3_256 (borsh_to_vec residue)) then s
            else <[QUEUE_KEY := borsh_to_vec residue]> s in
  conserved s s' /\ accountable s'
  /\ (sanctions_at s' = residue \/ Collides [queue_bytes s] [borsh_to_vec residue]).
Proof.
  intros Ha Hfair s'. subst s'. case_bool_decide as Heq.
  - split; [apply conserved_refl|]. split; [done|].
    destruct (collides_here _ _ [] [] Heq) as [Hb|]; [left|by right]. revert Hb. unfold queue_bytes, sanctions_at, peek.
    destruct (s !! QUEUE_KEY); cbn; intros Hb; [by rewrite Hb, borsh_roundtrip|by apply borsh_to_vec_inj].
  - assert (outside s (<[QUEUE_KEY := borsh_to_vec residue]> s)) as Ho by by apply outside_insert.
    split; [by apply outside_conserved; [|rewrite lookup_insert_ne]|]. destruct Ha as [Aq As At Ab Am].
    assert (sanctions_at (<[QUEUE_KEY:=borsh_to_vec residue]> s) = residue) as Hq.
    { unfold sanctions_at. by rewrite (peek_insert (T := list PendingSanction)). }
    split; [|by left]. split.
    + apply canonical_insert.
    + by rewrite Hq.
    + apply (canonical_same _ s); [by apply lookup_insert_ne|done].
    + intros h. apply (canonical_same _ s); [by apply lookup_insert_ne|apply Ab].
    + intros h keys. rewrite peek_insert_ne by done. apply Am.
Qed.

Lemma wp_expect (P : Prop) {A} (o : option A) e Q s :
  wp P (expect o e) Q s <-> match o with Some a => Q a s | None => P end.
Proof. by destruct o. Qed.

Lemma policy_bounds policy anchor :
  policy_is_valid_for policy anchor = true ->
  p_evidence_max_pending policy <= MAX_PENDING
  /\ p_evidence_admissions_per_block policy <= p_evidence_max_pending policy
  /\ 0 < p_evidence_executions_per_block policy <= p_evidence_max_pending policy
  /\ p_reporter_reward_bps policy <= BASIS_POINTS.
Proof.
  unfold policy_is_valid_for, policy_is_well_formed. rewrite !andb_true_iff, !N.ltb_lt, !N.leb_le. lia.
Qed.

Lemma check_policy_spec (P : Prop) (s : state) input policy :
  (policy_is_valid_for policy (mi_anchor input) = false -> P) ->
  (evidence_prefix (mi_transactions input) <> [] -> P) ->
  wp P (check_policy input policy) (fun _ s' => s' = s
    /\ policy_is_valid_for policy (mi_anchor input) = true
    /\ len (evidence_prefix (mi_transactions input)) <= p_evidence_admissions_per_block policy) s.
Proof.
  intros Hv HP. unfold check_policy. rewrite wp_bind, wp_assert.
  destruct (policy_is_valid_for _ _); [|by apply Hv]. cbv zeta. apply wp_bind.
  eapply wp_mono; [apply (wp_fold P _ (fun _ _ s' => s' = s)); [done|]|].
  - intros _ x [] s' Hx ->. apply wp_assert. case_match; [done|]. apply HP. intros Hn. rewrite Hn in Hx.
    by apply elem_of_nil in Hx.
  - intros [] s' ->. cbv beta. apply wp_assert. destruct (N.leb_spec (len (evidence_prefix (mi_transactions input)))
      (p_evidence_admissions_per_block policy)) as [Hle|Hlt]; [done|].
    apply HP. intros Hn. rewrite Hn in Hlt. by apply N.nlt_0_r in Hlt.
Qed.

Lemma pending_item_fair policy e : p_reporter_reward_bps policy <= BASIS_POINTS -> fair_share (pending_item policy e).
Proof.
  intros Hb. unfold fair_share, pending_item, pending_of. cbn [pd_reporter_reward_bps].
  destruct (sn_kind _); [done|]. unfold BASIS_POINTS. lia.
Qed.

(** What the mandatory phase leaves: the old queue and the new claims in order,
    of which a prefix of at most the policy's executions was drained. *)
Definition all_pending (input : MandatoryInput) (policy : RuntimePolicy) (s : state) : list PendingSanction :=
  sanctions_at s ++ map (pending_item policy) (evidence_prefix (mi_transactions input)).
Definition drained_count (input : MandatoryInput) (policy : RuntimePolicy) (s : state) : N :=
  N.min (len (all_pending input policy s)) (p_evidence_executions_per_block policy).
Definition residue_of (input : MandatoryInput) (policy : RuntimePolicy) (s : state) : list PendingSanction :=
  drop (N.to_nat (drained_count input policy s)) (all_pending input policy s).

Record mandated (input : MandatoryInput) (policy : RuntimePolicy) (s : state) (m : Mandatory) (s' : state) : Prop := {
  mn_valid : policy_is_valid_for policy (mi_anchor input) = true;
  mn_conserved : conserved s s';
  mn_accountable : accountable s';
  mn_queue : sanctions_at s' = residue_of input policy s
    \/ Collides [queue_bytes s] [borsh_to_vec (residue_of input policy s)];
  mn_executed : ao_executed (md_output m) =
    map pd_sanction (take (N.to_nat (drained_count input policy s)) (all_pending input policy s));
  mn_backlog : md_backlog m = backlog_of (residue_of input policy s);
  mn_fits : len (residue_of input policy s) <= p_evidence_max_pending policy;
  mn_gas : md_gas m = drained_count input policy s * GAS_SANCTION;
  mn_receipts : len (md_receipts m) = drained_count input policy s
    /\ Forall (fun r => rc_gas_used r = GAS_SANCTION) (md_receipts m);
  mn_room : md_gas m + len (evidence_prefix (mi_transactions input)) * GAS_EVIDENCE_ADMISSION <= mi_gas_limit input;
}.

(** From the enqueued list on: drain and totals, before the rest [k] of the phase. *)
Lemma drain_spec (P : Prop) {M} (s : state) (admitted : list Sanction) all n (k : list Receipt -> stf M) Q :
  accountable s -> Forall fair_share all ->
  (forall receipts s', conserved s s' -> accountable s' -> s' !! QUEUE_KEY = s !! QUEUE_KEY ->
     len receipts = len (take (N.to_nat n) all) -> Forall (fun r => rc_gas_used r = GAS_SANCTION) receipts ->
     wp P (k receipts) Q s') ->
  let settles := negb (bool_decide (admitted = [])) || (0 <? n) in
  wp P (totals ← (if settles then load_totals else Ret totals_default);
        '(totals, receipts) ← fold_stf execute_step
             (foldl (fun t x => totals_admitted t (sn_kind x)) totals admitted, []) (take (N.to_nat n) all);
        _ ← (if settles then store_totals totals else Ret tt);
        k receipts) Q s.
Proof.
  intros Ha Hfair Hk settles. destruct settles eqn:Hs.
  - apply wp_bind. unfold load_totals. apply wp_bind, wp_read_canonical; [apply (ac_totals _ Ha)|]. apply wp_ret.
    apply wp_bind. eapply wp_mono; [by apply execute_fold_spec, Forall_take|].
    intros [t rs] s' (Hset & Hlen & Hgas). cbn [fst snd] in *. apply wp_bind, wp_write_record.
    destruct (settled_stored _ _ _ _ Hset) as (Hc & Hac & Hq); [by rewrite burned_admitted_all|]. auto.
  - subst settles. apply orb_false_iff in Hs as [Hadm Hn]. apply N.ltb_ge in Hn.
    replace n with 0 in * by lia. apply (Hk []); auto using conserved_refl.
Qed.

(** Reading the queue: its records and the digest of its bytes. *)
Lemma read_queue_spec (P : Prop) (s : state) :
  accountable s ->
  wp P (match s !! QUEUE_KEY with None => Ret [] | Some b => expect (borsh_from_slice b) NonCanonical end)
    (fun q s' => q = sanctions_at s /\ s' = s) s
  /\ (match s !! QUEUE_KEY with Some b => blake3_256 b | None => commitment (sanctions_at s) end)
     = blake3_256 (queue_bytes s).
Proof.
  intros Ha. unfold sanctions_at, queue_bytes, peek. destruct (ac_queue _ Ha) as [Hn|[q Hq]]; [by rewrite Hn|].
  unfold peek in Hq. destruct (s !! QUEUE_KEY) as [b|]; [|done]. cbn in *. by rewrite Hq.
Qed.

(** The gas the phase claims fits the limit, or the block may abort. *)
Lemma mandatory_gas (P : Prop) n k limit executions :
  n <= executions -> executions <= MAX_PENDING -> k <= MAX_PENDING -> (k <> 0 -> P) ->
  (limit < executions * GAS_SANCTION -> P) ->
  let gas := n * GAS_SANCTION + k * GAS_EVIDENCE_ADMISSION in
  checked_add U64_MAX (n * GAS_SANCTION) (k * GAS_EVIDENCE_ADMISSION) = Some gas
  /\ ((gas <=? limit) = true /\ gas <= limit \/ (gas <=? limit) = false /\ P).
Proof.
  unfold MAX_PENDING, GAS_SANCTION, GAS_EVIDENCE_ADMISSION. intros Hn He Hk Hev Hgas. set (gas := n * 5000 + _). split.
  - apply checked_add_Some. unfold U64_MAX. lia.
  - destruct (N.leb_spec gas limit); [by left|right]. split; [done|].
    destruct (decide (k = 0)); [|by apply Hev]. apply Hgas. lia.
Qed.

(** The sanctions enqueued for a block's evidence. *)
Lemma all_pending_len input policy s :
  len (all_pending input policy s) = len (sanctions_at s) + len (evidence_prefix (mi_transactions input)).
Proof. unfold all_pending. rewrite len_app. unfold len. by rewrite length_map. Qed.

Lemma all_pending_fair input policy s :
  accountable s -> p_reporter_reward_bps policy <= BASIS_POINTS -> Forall fair_share (all_pending input policy s).
Proof.
  intros Ha Hb. apply Forall_app. split; [apply (ac_shares _ Ha)|]. apply Forall_fmap, Forall_forall.
  intros e _. by apply pending_item_fair.
Qed.

(** The second half of the phase, from the checked gas on. *)
Lemma mandatory_tail_spec (P : Prop) (s s1 : state) input policy gas_ :
  let es := evidence_prefix (mi_transactions input) in
  let admitted := map (fun e => sanction_of (statement e)) es in
  let n := drained_count input policy s in
  housekept s s1 -> accountable s -> policy_is_valid_for policy (mi_anchor input) = true ->
  len (residue_of input policy s) <= p_evidence_max_pending policy ->
  gas_ = n * GAS_SANCTION -> gas_ + len es * GAS_EVIDENCE_ADMISSION <= mi_gas_limit input ->
  wp P (queue ← enqueue_admissions input policy admitted (sanctions_at s);
        _ ← record_expiry_bucket (mi_height input) admitted;
        let settles := negb (bool_decide (admitted = [])) || (0 <? n) in
        totals ← (if settles then load_totals else Ret totals_default);
        let totals := foldl (fun t s => totals_admitted t (sn_kind s)) totals admitted in
        let drained := take (N.to_nat n) queue in
        let residue := drop (N.to_nat n) queue in
        '(totals, receipts) ← fold_stf execute_step (totals, []) drained;
        _ ← (if settles then store_totals totals else Ret tt);
        let residual := borsh_to_vec residue in
        let after := blake3_256 residual in
        _ ← (if bool_decide (blake3_256 (queue_bytes s) = after) then Ret tt else write QUEUE_KEY residual);
        Ret {| md_output := {| ao_anchor := mi_anchor input; ao_admitted := admitted;
                               ao_executed := map pd_sanction drained;
                               ao_queue_before := blake3_256 (queue_bytes s); ao_queue_after := after |};
               md_gas := gas_; md_receipts := receipts; md_backlog := backlog_of residue |})
    (mandated input policy s) s1.
Proof.
  intros es admitted n Hk1 Ha Hv Hfits Hg Hroom. destruct (policy_bounds _ _ Hv) as (_ & _ & _ & Hb). apply wp_bind.
  eapply wp_mono; [apply enqueue_admissions_spec|]. intros q s2 [-> Hk2]. fold es. apply wp_bind.
  eapply wp_mono; [apply record_expiry_bucket_spec|]. intros [] s3 Hk3. cbv beta in Hk3 |- *.
  pose proof (housekept_trans _ _ _ Hk1 (housekept_trans _ _ _ Hk2 Hk3)) as Hk. clear Hk1 Hk2 Hk3 s1 s2.
  change (sanctions_at s ++ map (pending_item policy) es) with (all_pending input policy s).
  pose proof (all_pending_fair input policy s Ha Hb) as Hfair.
  apply drain_spec; [by apply (hk_accountable _ _ Hk)|done|].
  intros rs s4 Hc Ha4 Hq Hlen Hgas. change (drop (N.to_nat n) _) with (residue_of input policy s).
  assert (queue_bytes s4 = queue_bytes s) as Hqb by (unfold queue_bytes; by rewrite Hq, (hk_queue _ _ Hk)).
  pose proof (queue_stored s4 (residue_of input policy s) Ha4 ltac:(by apply Forall_drop)) as Hst.
  rewrite Hqb in Hst. cbv zeta in Hst. apply wp_bind.
  assert (conserved s s4) as Hc4 by (eapply conserved_trans; [by apply housekept_conserved|done]).
  revert Hst. set (s5 := if bool_decide _ then s4 else _). intros (Hc' & Ha' & Hs').
  apply (wp_mono P _ (fun _ s' => s' = s5)); [subst s5; case_bool_decide; exact eq_refl|]. intros [] ? ->. cbv beta. apply wp_ret.
  split; try done; [by eapply conserved_trans|]. split; [|done]. cbn [md_receipts]. rewrite Hlen.
  unfold len. rewrite length_take. fold n. unfold n, drained_count, len. lia.
Qed.

(** The mandatory phase on well-formed records: it aborts only under an invalid
    policy or an overfull queue, or if the block carries evidence or a gas limit
    below the policy's executions. *)
Lemma apply_mandatory_spec (P : Prop) (s : state) input policy :
  accountable s ->
  (policy_is_valid_for policy (mi_anchor input) = false -> P) ->
  (p_evidence_max_pending policy < len (sanctions_at s) -> P) ->
  (evidence_prefix (mi_transactions input) <> [] -> P) ->
  (mi_gas_limit input < p_evidence_executions_per_block policy * GAS_SANCTION -> P) ->
  wp P (apply_mandatory input policy) (mandated input policy s) s.
Proof.
  intros Ha Hval Hfull Hev Hgas. destruct (read_queue_spec P s Ha) as [Hq Hbytes].
  unfold apply_mandatory. apply wp_bind. eapply wp_mono; [by apply check_policy_spec|].
  intros [] s1 (-> & Hv & Hcap). cbv beta. destruct (policy_bounds _ _ Hv) as (Hmax & Hadm & Hexe & Hbps).
  apply wp_bind, wp_read, wp_bind.
  eapply wp_mono; [exact Hq|]. intros q s' [-> ->]. clear Hq. cbv beta zeta. rewrite Hbytes. clear Hbytes.
  apply wp_bind, wp_assert.
  destruct (N.leb_spec (len (sanctions_at s)) (p_evidence_max_pending policy)) as [Hfit|]; [|by apply Hfull]. apply wp_bind.
  eapply wp_mono; [by apply sweep_expired_markers_spec|]. intros [] s1 Hk1. cbv beta in Hk1. apply wp_bind.
  eapply wp_mono; [by apply collect_admissions_spec|]. intros adm s' [-> ->]. cbv beta.
  set (es := evidence_prefix (mi_transactions input)) in *.
  set (adm := map (fun e => sanction_of (statement e)) es).
  assert (len adm = len es) as Hlen by (unfold adm, len; by rewrite length_map).
  assert (len (sanctions_at s) + len adm = len (all_pending input policy s)) as Hall.
  { by rewrite all_pending_len, Hlen. }
  rewrite Hall, Hlen. fold (drained_count input policy s). set (n := drained_count input policy s).
  assert (n <= p_evidence_executions_per_block policy) as Hn by (unfold n, drained_count; lia).
  destruct (mandatory_gas P n (len es) (mi_gas_limit input) _ Hn) as [Hsum Hor]; [lia|lia| |done|].
  { intros Hne. apply Hev. intros Hnil. rewrite Hnil in Hne. by apply Hne. }
  rewrite wp_bind, wp_expect, checked_mul_Some by (unfold U64_MAX, GAS_SANCTION, MAX_PENDING in *; lia).
  rewrite wp_bind, wp_expect, checked_mul_Some by (unfold U64_MAX, GAS_EVIDENCE_ADMISSION, MAX_PENDING in *; lia).
  rewrite wp_bind, wp_assert, Hsum. destruct Hor as [[-> Hroom]|[-> HP]]; [|done].
  assert (len (residue_of input policy s) = len (all_pending input policy s) - n) as Hres.
  { unfold residue_of, len. rewrite length_drop. fold n. lia. }
  rewrite wp_bind, wp_assert, <- Hres. destruct (N.leb_spec (len (residue_of input policy s)) (p_evidence_max_pending policy));
    [by apply mandatory_tail_spec|].
  apply Hev. intros Hnil. assert (len es = 0) as Hz by by rewrite Hnil. rewrite all_pending_len in Hres. fold es in Hres. lia.
Qed.

End mandatory.
