(* ===== verification/RuntimeSamples.v ===== *)
(** * Concrete instances of the runtime's parameters

    Executable encodings of the state records, a signature scheme that accepts, and
    a small state with a queued sanction, on which the runtime's theorems are
    instantiated. *)

From S2P Require Import Prelude External Primitives History Evidence Sorted Backend RuntimeState Transactions Governance Staking Accountability Stf Views Ledger Sanctions.

(** ** Encodings *)

Section codecs.

#[local] Instance policy_codec : Codec RuntimePolicy.
Proof.
  refine (via_codec
    (fun p => (p_gas_price p, p_min_validator_stake p, p_evidence_max_age_blocks p, p_evidence_max_pending p,
       p_evidence_admissions_per_block p, p_evidence_executions_per_block p, p_slash_amount p,
       p_inactivity_leak_amount p, p_reporter_reward_bps p))
    (fun '(a, b, c, d, e, f, g, h, i) => Build_RuntimePolicy a b c d e f g h i) _). by intros [].
Defined.

#[local] Instance identity_codec : Codec BlsIdentity.
Proof. refine (via_codec (fun i => (id_pubkey i, id_pop_signature i)) (fun '(a, b) => Build_BlsIdentity a b) _). by intros []. Defined.

#[local] Instance candidate_codec : Codec ConsensusCandidate.
Proof. refine (via_codec (fun c => (c_address c, c_stake c, c_identity c)) (fun '(a, b, c) => Build_ConsensusCandidate a b c) _). by intros []. Defined.

#[local] Instance candidates_codec : Codec ConsensusCandidates.
Proof. refine (via_codec cand_entries Build_ConsensusCandidates _). by intros []. Defined.

#[local] Instance participation_codec : Codec ParticipationReport.
Proof. refine (via_codec (fun r => (pr_chunk_id r, pr_present r, pr_absent r)) (fun '(a, b, c) => Build_ParticipationReport a b c) _). by intros []. Defined.

#[local] Instance account_codec : Codec Account.
Proof. refine (via_codec (fun a => (a_nonce a, a_balance a)) (fun '(a, b) => Build_Account a b) _). by intros []. Defined.

#[local] Instance rt_validator_codec : Codec RtValidator.
Proof. refine (via_codec (fun v => (v_stake v, v_active v)) (fun '(a, b) => Build_RtValidator a b) _). by intros []. Defined.

#[local] Instance entry_codec : Codec ValidatorSetEntry.
Proof. refine (via_codec (fun e => (e_address e, e_stake e)) (fun '(a, b) => Build_ValidatorSetEntry a b) _). by intros []. Defined.

#[local] Instance set_codec : Codec ValidatorSet.
Proof. refine (via_codec set_entries Build_ValidatorSet _). by intros []. Defined.

#[local] Instance bonding_codec : Codec Bonding.
Proof. refine (via_codec (fun b => (b_amount b, b_since_height b)) (fun '(a, b) => Build_Bonding a b) _). by intros []. Defined.

#[local] Instance registration_codec : Codec ValidatorRegistration.
Proof.
  refine (via_codec (fun r => (r_address r, r_bls_pubkey r, r_pop_signature r, r_registered_at_height r))
    (fun '(a, b, c, d) => Build_ValidatorRegistration a b c d) _). by intros [].
Defined.

#[local] Instance registrations_codec : Codec ValidatorRegistrations.
Proof. refine (via_codec reg_addresses Build_ValidatorRegistrations _). by intros []. Defined.

#[local] Instance withdrawal_codec : Codec Withdrawal.
Proof. refine (via_codec (fun w => (w_amount w, w_mature_at_height w)) (fun '(a, b) => Build_Withdrawal a b) _). by intros []. Defined.

#[local] Instance withdrawals_codec : Codec WithdrawalQueue.
Proof. refine (via_codec wq_entries Build_WithdrawalQueue _). by intros []. Defined.

Definition sample_state_codec : StateCodec := {|
  codec_policy := codec_borsh; codec_candidates := codec_borsh; codec_participation := codec_borsh;
  codec_account := codec_borsh; codec_validator := codec_borsh; codec_validator_set := codec_borsh;
  codec_bonding := codec_borsh; codec_registration := codec_borsh; codec_registrations := codec_borsh;
  codec_withdrawals := codec_borsh; codec_absent := codec_borsh |}.

Lemma sample_state_codec_laws : @StateCodecLaws sample_state_codec.
Proof. split; apply codec_borsh_laws. Qed.

#[local] Instance sum_codec `{Codec A} `{Codec B} : Codec (A + B).
Proof.
  refine {| enc x := match x with inl a => 0 :: enc a | inr b => 1 :: enc b end;
            dec b := match b with
                     | 0 :: rest => '(x, rest) ← dec rest; Some (inl x, rest)
                     | _ :: rest => '(x, rest) ← dec rest; Some (inr x, rest)
                     | [] => None
                     end |}.
  intros [x|x] rest; simpl; by rewrite dec_enc.
Defined.

#[local] Instance programs_codec : Codec ProgramSet.
Proof.
  refine (via_codec (fun p => (ps_runtime_code_hash p, ep_fact (ps_execution p), ep_evidence (ps_execution p), ep_block (ps_execution p)))
    (fun '(a, b, c, d) => Build_ProgramSet a (Build_ExecutionPrograms b c d)) _). by intros [? []].
Defined.

#[local] Instance artifacts_codec : Codec ProgramArtifacts.
Proof.
  refine (via_codec (fun p => (pa_runtime p, pa_fact p, pa_evidence p, pa_block p))
    (fun '(a, b, c, d) => Build_ProgramArtifacts a b c d) _). by intros [].
Defined.

#[local] Instance scheduled_codec : Codec ScheduledUpgrade.
Proof.
  refine (via_codec (fun u => (su_activate_at_chunk u, su_programs u, su_artifacts u))
    (fun '(a, b, c) => Build_ScheduledUpgrade a b c) _). by intros [].
Defined.

#[local] Instance action_codec : Codec ProposalAction.
Proof.
  refine (via_codec (fun a => match a with Programs p r c => inl (p, r, c) | Policy p => inr p end)
    (fun x => match x with inl (p, r, c) => Programs p r c | inr p => Policy p end) _). by intros [].
Defined.

#[local] Instance proposal_codec : Codec UpgradeProposal.
Proof.
  refine (via_codec (fun p => (prop_proposer p, prop_action p, prop_proposed_at_chunk p, prop_voters p))
    (fun '(a, b, c, d) => Build_UpgradeProposal a b c d) _). by intros [].
Defined.

Definition sample_governance_codec : GovernanceCodec :=
  {| codec_action := codec_borsh; codec_proposal_record := codec_borsh; codec_scheduled := codec_borsh |}.

Lemma sample_governance_codec_laws : @GovernanceCodecLaws sample_governance_codec.
Proof. split; apply codec_borsh_laws. Qed.

#[local] Instance sanction_codec : Codec Sanction.
Proof.
  refine (via_codec (fun x => (sn_offence_id x, sn_offender x, sn_kind x)) (fun '(a, b, c) => Build_Sanction a b c) _).
  by intros [].
Defined.

#[local] Instance pending_codec : Codec PendingSanction.
Proof.
  refine (via_codec (fun p => (pd_sanction p, pd_amount p, pd_reporter p, pd_reporter_reward_bps p))
    (fun '(a, b, c, d) => Build_PendingSanction a b c d) _). by intros [].
Defined.

#[local] Instance counter_codec : Codec SettlementCounter.
Proof. refine (via_codec (fun c => (sc_value c, sc_overflowed c)) (fun '(a, b) => Build_SettlementCounter a b) _). by intros []. Defined.

#[local] Instance kind_totals_codec : Codec SettlementKindTotals.
Proof.
  refine (via_codec (fun k => (kt_admitted k, kt_executed k, kt_zero_deductions k, kt_deducted k, kt_rewarded k, kt_burned k))
    (fun '(a, b, c, d, e, f) => Build_SettlementKindTotals a b c d e f) _). by intros [].
Defined.

#[local] Instance totals_codec : Codec SettlementTotals.
Proof. refine (via_codec (fun t => (st_slash t, st_inactivity t)) (fun '(a, b) => Build_SettlementTotals a b) _). by intros []. Defined.

Definition sample_accountability_codec : AccountabilityCodec :=
  {| codec_queue := codec_borsh; codec_totals := codec_borsh; codec_bucket := codec_borsh |}.

Lemma sample_accountability_codec_laws : @AccountabilityCodecLaws sample_accountability_codec.
Proof. split; apply codec_borsh_laws. Qed.

End codecs.

(** Transactions are only hashed here; their encoding is never decoded. *)
Definition sample_tx_codec : Borsh Transaction :=
  {| borsh_to_vec tx := [tx_kind_code tx]; borsh_from_slice _ := None |}.

(** Every key verifies every signature. *)
Definition sample_ed25519 : Ed25519 :=
  {| ed_key := unit; ed_key_from_bytes _ := Some tt; ed_verify_strict _ _ _ := true |}.

(** A root that depends on the number of keys. *)
Definition sample_trie_root : TrieRoot := fun s => [N.of_nat (size s)].

(** ** A state *)

Definition alice : Address := [1].
Definition bob : Address := [2].

Definition sample_offender : Validator :=
  {| pubkey := [7]; withdrawal_credentials := alice; effective_stake := 1; slashed := false;
     activation_epoch := 0; exit_epoch := U64_MAX; last_active_chunk := 0 |}.

(** Alice is to lose 300, of which Bob reported and earns a tenth. *)
Definition sample_pending : PendingSanction :=
  {| pd_sanction := {| sn_offence_id := [9]; sn_offender := sample_offender; sn_kind := Slash |};
     pd_amount := 300; pd_reporter := Some bob; pd_reporter_reward_bps := 1000 |}.

Section sample.
#[local] Existing Instances pad32 sample_ed25519 sample_trie_root sample_state_codec sample_governance_codec
  sample_accountability_codec sample_tx_codec sample_state_codec_laws sample_governance_codec_laws
  sample_accountability_codec_laws.

Definition sample_state : state :=
  <[QUEUE_KEY := borsh_to_vec [sample_pending]]>
  (<[withdrawal_key alice := borsh_to_vec {| wq_entries := [{| w_amount := 500; w_mature_at_height := 9 |}] |}]>
  (<[account_key alice := borsh_to_vec {| a_nonce := 0; a_balance := 100000000000 |}]> ∅)).

Definition sample_anchor : EvidenceAnchor :=
  {| an_fact_guest_vk_digest := []; an_chain_spec_hash := ZERO_HASH; an_chunk_id := 0; history_root_ := ZERO_HASH;
     an_block_guest_vk_digest := []; evidence_guest_vk_digest := []; an_unbonding_delay_blocks := 4096;
     an_chunk_size := 128 |}.

Definition sample_transfer : Transaction :=
  Transfer {| tr_from := alice; tr_to := bob; tr_amount := 100; tr_nonce := 0; tr_signature := [] |}.

(** A block that carries the same transfer twice. *)
Definition sample_input : StfInput :=
  {| in_evidence_anchor := sample_anchor; in_chain_id := 7; in_block_height := 1; in_block_gas_limit := 30000000;
     in_proposer_address := bob; in_participation := None; in_transactions := [sample_transfer; sample_transfer] |}.

Lemma sample_absent k :
  QUEUE_KEY <> k -> withdrawal_key alice <> k -> account_key alice <> k -> sample_state !! k = None.
Proof. intros Hq Hw Ha. unfold sample_state. by rewrite !lookup_insert_ne by done. Qed.

Lemma sample_accountable : accountable sample_state.
Proof.
  assert (forall h, sample_state !! expiry_key h = None) as Hexp by (intros h; apply sample_absent; key_ne).
  assert (sanctions_at sample_state = [sample_pending]) as Hq by (vm_compute; reflexivity). split.
  - right. by eexists; vm_compute.
  - rewrite Hq. constructor; [by vm_compute|constructor].
  - left. apply sample_absent; key_ne.
  - intros h. left. apply Hexp.
  - intros h keys. unfold peek. by rewrite Hexp.
Qed.

Lemma sample_mirrored : mirrored sample_state.
Proof.
  assert (forall a, validator_rec sample_state a = None) as Hv.
  { intros a. unfold validator_rec, peek. rewrite sample_absent; [done|key_ne..]. }
  assert (forall a, registration_rec sample_state a = None) as Hr.
  { intros a. unfold registration_rec, peek. rewrite sample_absent; [done|key_ne..]. }
  assert (set_at sample_state = {| set_entries := [] |}) as Hs by by vm_compute.
  assert (candidates_at sample_state = {| cand_entries := [] |}) as Hc by by vm_compute.
  assert (registrations_at sample_state = {| reg_addresses := [] |}) as Hi by by vm_compute.
  split; rewrite ?Hs, ?Hc, ?Hi; cbn [set_entries cand_entries reg_addresses]; try apply sorted_nil.
  - intros a _. by rewrite Hv.
  - intros a _. by rewrite Hv, Hr.
  - intros a. rewrite Hr. split; [done|by intros []].
  - intros a v _. by rewrite Hv.
Qed.

Lemma sample_healthy : healthy 4096 sample_state.
Proof.
  split; [|apply sample_accountable]. assert (proposal_at sample_state = None) as Hp by by vm_compute.
  split; rewrite ?Hp; try done; by vm_compute.
Qed.

End sample.
