(* ===== verification/Elections.v ===== *)
(** * Governance effects

    What a proposal or a vote leaves behind, when the policy or the scheduled
    programs can change, and that the governance records stay valid. *)

From S2P Require Import Prelude External Primitives History Evidence Sorted Backend RuntimeState Transactions Governance Staking Accountability Stf Views Ledger Sanctions RuntimeSamples.

(** ** The quorum *)





(** ** The electorate *)

Section electorate.
Context `{Blake3} `{Ed25519} `{StateCodecLaws} `{GovernanceCodecLaws} `{AccountabilityCodec}.

Definition counted_weight (s : state) (height : N) (e : ValidatorSetEntry) : N :=
  if match registration_rec s (e_address e) with
     | Some r => negb (aged (r_registered_at_height r) height)
     | None => false
     end
  then 0
  else match peek (T := Bonding) (bonding_key (e_address e)) s with
       | Some b => if aged (b_since_height b) height then e_stake e else e_stake e - b_amount b
       | None => e_stake e
       end.

Definition counted_entry (s : state) (height : N) (e : ValidatorSetEntry) : ValidatorSetEntry :=
  {| e_address := e_address e; e_stake := counted_weight s height e |}.

(** The seated validators whose stake counts at [height]. *)
Definition counted_set (s : state) (height : N) : ValidatorSet :=
  {| set_entries := filter (fun e => 0 < e_stake e) (map (counted_entry s height) (set_entries (set_at s))) |}.

Lemma governance_weight_counted (P : Prop) (s : state) height e :
  wp P (governance_weight (e_address e) (e_stake e) height) (fun w s' => s' = s /\ w = counted_weight s height e) s.
Proof.
  unfold governance_weight, counted_weight. wp_steps.
  match goal with |- wp _ (if ?young then _ else _) _ _ => destruct young end; wp_steps; [done|].
  unfold load_bonding. wp_steps. done.
Qed.

Lemma governance_set_counted (P : Prop) (s : state) height :
  wp P (governance_set (Some height)) (fun set s' => s' = s /\ set = counted_set s height) s.
Proof.
  unfold governance_set. wp_steps. eapply wp_mono; [apply (wp_fold P _ (fun seen counted s' => s' = s /\
    counted = filter (fun e => 0 < e_stake e) (map (counted_entry s height) seen)))|].
  - done.
  - intros seen e counted s' _ [-> ->]. apply wp_bind. eapply wp_mono; [apply governance_weight_counted|].
    intros w s' [-> ->]. wp_steps. split; [done|]. rewrite map_app, filter_app. cbn [map].
    rewrite filter_cons. cbn [counted_entry e_stake]. destruct (N.ltb_spec 0 (counted_weight s height e)).
    + by rewrite decide_True.
    + rewrite decide_False by lia. by rewrite app_nil_r.
  - intros counted s' [-> ->]. wp_steps. done.
Qed.




(** ** Proposals and votes *)

Definition scheduled_at (s : state) : option ScheduledUpgrade := peek UPGRADE_KEY s.

(** The proposal a governance transaction puts to the count: a new one with its
    proposer as only voter, or the open one with one more voter. *)
Definition ballot (block : BlockContext) (s : state) (signer : Address) (p : UpgradeProposal) : Prop :=
  (prop_voters p = [signer] /\ forall policy, prop_action p = Policy policy ->
     policy_is_valid_for policy (bc_anchor block) = true /\ policy_enactable block policy = true)
  \/ exists o, proposal_at s = Some o /\ is_live o (bc_chunk block) = true /\ prop_action p = prop_action o
       /\ sorted_contains id (prop_voters o) signer = false
       /\ prop_voters p = sorted_upsert id (prop_voters o) signer
       /\ forall policy, prop_action p = Policy policy ->
            proposal_quorum_reached p (counted_set s (bc_height block)) = true -> policy_enactable block policy = true.

(** [settle]: enacted with quorum, kept open without. *)
Definition decided (p : UpgradeProposal) (set : ValidatorSet) (s s' : state) : Prop :=
  if proposal_quorum_reached p set then
    proposal_at s' = None
    /\ match prop_action p with
       | Programs programs artifacts chunk =>
           scheduled_at s' = Some {| su_activate_at_chunk := chunk; su_programs := programs; su_artifacts := artifacts |}
           /\ policy_at s' = policy_at s
       | Policy policy => policy_at s' = policy /\ s' !! UPGRADE_KEY = s !! UPGRADE_KEY
       end
  else proposal_at s' = Some p /\ policy_at s' = policy_at s /\ s' !! UPGRADE_KEY = s !! UPGRADE_KEY.

Definition elected (block : BlockContext) (signer : Address) (s : state) (r : result Failure unit) (s' : state) : Prop :=
  match r with
  | Err _ => s' = s
  | Ok _ => exists p, ballot block s signer p /\ decided p (counted_set s (bc_height block)) s s'
  end.

Lemma counts_counted height s set : counts (Some height) s set -> set = counted_set s height.
Proof. intros Hc. by destruct (exec_Ok False _ _ _ _ _ Hc (governance_set_counted False s height)). Qed.

Lemma settle_decided (P : Prop) (s : state) signer account p set :
  wp P (_ ← store_account signer account; _ ← settle p set; Ret (Ok (E := Failure) tt))
    (fun r s' => r = Ok tt /\ decided p set s s') s.
Proof.
  do 2 wp_step. unfold settle, decided, proposal_at, policy_at, scheduled_at. set (s1 := <[account_key signer:=_]> s).
  assert (forall k, account_key signer <> k -> s1 !! k = s !! k) as Hs1 by (intros k Hk; by apply lookup_insert_ne).
  destruct (proposal_quorum_reached p set); cbn [negb].
  - destruct (prop_action p) as [programs artifacts chunk|policy]; wp_steps; (split; [done|]).
    + split; [apply peek_delete|]. rewrite !peek_delete_ne, peek_insert, peek_insert_ne by done. split; [done|].
      f_equal. by apply peek_same, Hs1.
    + split; [apply peek_delete|]. rewrite !peek_delete_ne, peek_insert by done. split; [done|].
      rewrite lookup_delete_ne, lookup_insert_ne by done. by apply Hs1.
  - wp_steps. split; [done|]. rewrite peek_insert, peek_insert_ne, lookup_insert_ne by done.
    split; [done|]. split; [f_equal; by apply peek_same, Hs1|by apply Hs1].
Qed.

(** From a check to the election it leads to. *)
Lemma elected_and_then (P : Prop) {A : Type} (p : stf (result Failure A)) k block signer (s : state) nonce fee good :
  wp P p (check_post s signer nonce fee good) s ->
  (forall x, good x -> wp P (k x) (elected block signer s) s) ->
  wp P (and_then p k) (elected block signer s) s.
Proof.
  intros Hp Hk. apply wp_and_then. eapply wp_mono; [exact Hp|]. intros [x|f] s' [-> Hr]; [destruct Hr; by apply Hk|done].
Qed.

Lemma elected_intro (P : Prop) block signer account p set (s : state) :
  counts (Some (bc_height block)) s set -> ballot block s signer p ->
  wp P (_ ← store_account signer account; _ ← settle p set; Ret (Ok tt)) (elected block signer s) s.
Proof.
  intros ->%counts_counted Hb. eapply wp_mono; [apply settle_decided|]. intros r s' [-> Hd]. by exists p.
Qed.

Lemma apply_propose_elected (P : Prop) (s : state) chain block fee tx :
  wp P (apply_propose chain block fee tx) (elected block (pu_proposer tx) s) s.
Proof.
  unfold apply_propose. eapply elected_and_then; [apply check_propose_spec|].
  intros [account set] [_ Hset]. apply elected_intro; [done|]. left. split; [done|]. by intros policy [=].
Qed.

Lemma apply_propose_policy_elected (P : Prop) (s : state) chain block fee tx :
  wp P (apply_propose_policy chain block fee tx) (elected block (po_proposer tx) s) s.
Proof.
  unfold apply_propose_policy. eapply elected_and_then; [apply check_propose_policy_spec|].
  intros [account set] (_ & Hset & Hv & He). apply elected_intro; [done|]. left. split; [done|]. by intros policy [= <-].
Qed.

Lemma apply_vote_elected (P : Prop) (s : state) chain block fee tx :
  wp P (apply_vote chain block fee tx) (elected block (vu_voter tx) s) s.
Proof.
  unfold apply_vote. eapply elected_and_then; [apply check_vote_spec|].
  intros [[account set] o] (_ & Hset & Ho & Hlive & Hin). cbn [fst snd] in *. cbv zeta.
  match goal with |- wp _ (if ?late then _ else _) _ _ => destruct late eqn:Hlate end; [by wp_steps|].
  apply elected_intro; [done|]. apply counts_counted in Hset as ->. right. exists o. do 4 (split; [done|]).
  cbn [prop_voters prop_action] in *. split.
  - unfold sorted_upsert, sorted_contains in *. cbn [id]. by destruct (search id _ _).
  - intros policy Ha Hq. rewrite Ha in Hlate, Hq. rewrite Hq in Hlate. by apply negb_false_iff in Hlate.
Qed.

Lemma apply_transaction_elected (P : Prop) (s : state) facts fee tx :
  is_governance tx = true ->
  wp P (apply_transaction facts fee tx) (elected (bf_governance facts) (tx_payer tx) s) s.
Proof.
  intros Hgov. destruct tx; try discriminate Hgov;
    [apply apply_propose_elected|apply apply_vote_elected|apply apply_propose_policy_elected].
Qed.

(** ** Validity of the governance records *)

(** An election keeps the policy and the open proposal valid. *)
Lemma governed_elected delay block signer s r s' :
  EvidenceAnchor_is_well_formed (bc_anchor block) = true -> an_unbonding_delay_blocks (bc_anchor block) = delay ->
  elected block signer s r s' -> governed delay (bc_pending_sanctions block) s ->
  governed delay (bc_pending_sanctions block) s'.
Proof.
  intros Hanchor <- Hel Hgov. destruct r as [u|f]; [|by rewrite Hel]. destruct Hel as (p & Hb & Hd).
  destruct Hgov as [Gp Go Gv Gf].
  assert (forall policy, prop_action p = Policy policy -> policy_fits (an_unbonding_delay_blocks (bc_anchor block)) policy
    /\ (proposal_quorum_reached p (counted_set s (bc_height block)) = true -> policy_enactable block policy = true)) as Hfits.
  { intros policy Hp. destruct Hb as [[_ Hv]|(o & Ho & _ & Ha & _ & _ & Hq)].
    - destruct (Hv _ Hp) as [[_ Hf]%policy_fits_valid He]. by split.
    - split; [|by apply Hq]. eapply Go; [exact Ho|congruence]. }
  assert (sorted id (prop_voters p)) as Hsorted.
  { destruct Hb as [[-> _]|(o & Ho & _ & _ & _ & -> & _)]; [|by apply sorted_upsert_sorted, Gv].
    intros [|i] [|j] x y Hx Hy; cbn in *; try done; lia. }
  unfold decided in Hd. destruct (proposal_quorum_reached p _).
  - destruct Hd as [Hnone Hact]. destruct (prop_action p) as [a b c|policy].
    + destruct Hact as [_ He]. by split; rewrite ?He, ?Hnone.
    + destruct Hact as [He _]. destruct (Hfits policy eq_refl) as [Hf Hen]. split; rewrite ?He, ?Hnone; try done.
      by apply N.leb_le, Hen.
  - destruct Hd as (Hsome & He & _). split; rewrite ?He, ?Hsome; try done.
    + intros p' policy [= <-] Ha. by apply Hfits.
    + by intros p' [= <-].
Qed.

Lemma governed_transaction (P : Prop) (s : state) facts fee tx delay :
  let block := bf_governance facts in
  EvidenceAnchor_is_well_formed (bc_anchor block) = true -> an_unbonding_delay_blocks (bc_anchor block) = delay ->
  governed delay (bc_pending_sanctions block) s -> tx_charges_fee tx = true ->
  wp P (apply_transaction facts fee tx) (fun _ => governed delay (bc_pending_sanctions block)) s.
Proof.
  intros block Ha Hd Hg Hfee. destruct (is_governance tx) eqn:Hgov.
  - eapply wp_mono; [by apply apply_transaction_elected|].
    intros r s' Hel. eapply governed_elected; [done|done|exact Hel|done].
  - eapply wp_mono; [by apply apply_transaction_spec|]. rewrite Hgov.
    intros [u|f] s' Hr; [destruct Hr as [_ Hsp]|by destruct Hr as [-> _]].
    eapply governed_same; [|exact Hg]. intros k Hk. apply (spent_reserved _ _ _ _ _ Hsp).
    unfold reserved. rewrite Hk. by rewrite !orb_true_r.
Qed.

(** ** The electorate and the supply *)






(* ------------------------------------------------------------------ *)
(** ** Properties *)


End electorate.

(* ------------------------------------------------------------------ *)
(** ** An election, for the witness *)

Section sample_election.
#[local] Existing Instances pad32 sample_ed25519 sample_state_codec sample_governance_codec
  sample_accountability_codec sample_state_codec_laws sample_governance_codec_laws.













End sample_election.
