(* ===== verification/Execution.v ===== *)
(** * Effects of a block's execution

    One step of the transaction loop and the whole [block_program], in terms of the
    supply, the nonces, the mirrors, the governance records and the tally; the
    theorems about chains of blocks are in [RuntimeSafety]. *)

From S2P Require Import Prelude External Primitives History Evidence Sorted Backend RuntimeState Transactions Governance Staking Accountability Stf Views Ledger Sanctions Elections.

(** ** Failures are reported as failures *)

Section receipts.
Context `{Blake3} `{Ed25519} `{StateCodec} `{GovernanceCodec}.

(** No failure of the program carries the status of a success. *)
Definition failing {A} (p : stf (result Failure A)) : Prop :=
  forall s, wp True p (fun r _ => match r with Err f => f_status f <> Success | Ok _ => True end) s.

Lemma failing_bind {A B} (p : stf A) (k : A -> stf (result Failure B)) : (forall x, failing (k x)) -> failing (p ≫= k).
Proof. intros Hk s. apply wp_bind. unfold wp at 1. destruct (exec p s) as [[x s']|]; [apply Hk|done]. Qed.

Lemma failing_and_then {A B} (p : stf (result Failure A)) (k : A -> stf (result Failure B)) :
  failing p -> (forall x, failing (k x)) -> failing (and_then p k).
Proof. intros Hp Hk s. apply wp_and_then. eapply wp_mono; [apply Hp|]. intros [x|f] s' Hr; [apply Hk|exact Hr]. Qed.

Lemma failing_err {A} (r : result ReceiptStatus A) (g : ReceiptStatus -> Failure) :
  (forall e, f_status (g e) = e) -> (forall e, r = Err e -> e <> Success) -> failing (Ret (map_err g r)).
Proof. intros Hg Hr s. apply wp_ret. destruct r; [done|]. cbn. rewrite Hg. by apply Hr. Qed.

Lemma failing_signer {A} signer nonce (k : result ReceiptStatus Account -> stf (result Failure A)) :
  (forall r, (forall e, r = Err e -> e <> Success) -> failing (k r)) -> failing (signer_account signer nonce ≫= k).
Proof.
  intros Hk s. apply wp_bind. unfold signer_account. wp_steps. apply Hk. intros e. by destruct (negb _); intros [= <-].
Qed.

(** Split a handler down to its returns. *)
Ltac failing :=
  repeat first
    [ progress cbv zeta
    | apply failing_and_then; [|intros ?]
    | apply failing_signer; intros ? ?
    | apply failing_bind; intros ?
    | case_match
    | apply failing_err; [done|intros ? ?]
    | (intros ?; apply wp_ret; done) ];
  try solve [eauto | unfold require_amount, require_bonded, authenticate, ok_or in *; repeat case_match; by simplify_eq].

Lemma failing_transaction facts fee tx : failing (apply_transaction facts fee tx).
Proof.
  destruct tx; cbn [apply_transaction].
  - unfold apply_transfer, check_transfer, check_payer, authorize. failing.
  - unfold apply_stake, check_stake, check_bond, check_payer, authorize. failing.
  - unfold apply_unstake, check_unstake, check_payer, authorize. failing.
  - failing.
  - unfold apply_deposit, check_deposit, check_bond, check_payer, authorize. failing.
  - unfold apply_voluntary_exit, check_voluntary_exit, check_payer, authorize. failing.
  - unfold apply_withdraw, check_withdraw. failing.
  - unfold apply_register_validator, check_register_validator, check_payer, authorize. failing.
  - unfold apply_propose, check_propose, check_new_proposal, authorize_signer. failing.
  - unfold apply_vote, check_vote, authorize_signer. failing.
  - unfold apply_propose_policy, check_propose_policy, check_new_proposal, authorize_signer. failing.
Qed.

End receipts.

(** ** One transaction of the loop *)

Section steps.
Context `{Blake3} `{Ed25519} `{StateCodecLaws} `{GovernanceCodecLaws} `{AccountabilityCodecLaws}.

(** [n] is consumed: no transaction of [a] with nonce [n] is authorized any more. *)
Definition consumed (s : state) (a : Address) (n : N) : Prop := n < nonce_at s a.

(** A step that takes [fee] out of the supply. *)
Record stepped (fee : N) (s s' : state) : Prop := {
  sp_supply : supply s <= U128_MAX -> supply s' + fee = supply s;
  sp_nonces : forall a n, n < U64_MAX -> consumed s a n -> consumed s' a n;
  sp_mirrored : mirrored s -> mirrored s';
  sp_records : forall k, has_prefix ACCOUNTABILITY_PREFIX k = true -> s' !! k = s !! k;
}.

Lemma stepped_refl s : stepped 0 s s.
Proof. split; auto. lia. Qed.

Lemma stepped_trans f g s t u : stepped f s t -> stepped g t u -> stepped (f + g) s u.
Proof.
  intros [Hs Hn Hm Hr] [Hs' Hn' Hm' Hr']. split; eauto.
  - intros Hle. specialize (Hs Hle). specialize (Hs' ltac:(lia)). lia.
  - intros k Hk. by rewrite Hr', Hr.
Qed.

Lemma consumed_next n m : n < U64_MAX -> n < m -> n < saturating_add U64_MAX m 1.
Proof. unfold saturating_add. lia. Qed.

(** A successful transaction uses up its nonce. *)
Lemma spent_stepped gov payer fee s s' : spent gov payer fee s s' -> stepped fee s s'.
Proof.
  intros [Hs Hn Ho Hr Hm]. split; [done| |done|].
  - intros a n Hlt Hc. unfold consumed in *. destruct (decide (a = payer)) as [->|Hne]; [|by rewrite Ho].
    rewrite Hn. by apply consumed_next.
  - intros k Hk. apply Hr. unfold reserved. by rewrite Hk.
Qed.

(** An account written with a new nonce and balance. *)
Lemma account_stepped (s : state) a x d :
  balance_at s a = a_balance x + d -> (forall n, n < U64_MAX -> consumed s a n -> n < a_nonce x) ->
  stepped d s (<[account_key a := borsh_to_vec x]> s).
Proof.
  intros Hb Hn. split.
  - intros _. pose proof (supply_account s a x). lia.
  - intros b n Hlt Hc. unfold consumed, nonce_at in *. destruct (decide (b = a)) as [->|Hne].
    + rewrite account_insert. by apply Hn.
    + by rewrite account_insert_ne.
  - eapply (mirrored_frame [] [account_key a]); [apply agree_off_insert|by repeat constructor].
  - intros k Hk. rewrite lookup_insert_ne; [done|]. intros <-. by vm_compute in Hk.
Qed.

(** The fee and nonce of an authorized failure. *)
Lemma charge_failure_spec (P : Prop) (s : state) payer nonce fee :
  authorized s payer nonce fee ->
  wp P (charge_failure payer fee) (fun c s' => c = fee /\ stepped fee s s'
    /\ (nonce < U64_MAX -> consumed s' payer nonce)
    /\ forall k, governance_key k = true -> s' !! k = s !! k) s.
Proof.
  intros [Hn Hle]. unfold charge_failure. wp_steps. unfold balance_at in Hle. unfold spend.
  replace (N.min fee (a_balance (account_at s payer))) with fee by lia.
  split; [done|]. split; [|split].
  - apply account_stepped; [unfold balance_at; cbn [a_balance]; lia|].
    intros n Hlt Hc. by apply consumed_next.
  - intros Hlt. unfold consumed, nonce_at in *. rewrite account_insert. cbn [a_nonce]. rewrite Hn. unfold saturating_add. lia.
  - intros k Hk. rewrite lookup_insert_ne; [done|]. intros <-. by vm_compute in Hk.
Qed.

(** The receipt and the counters of one more transaction. *)
Record tallied (limit : N) (tally t : Tally) (r : Receipt) : Prop := {
  ta_receipts : tl_receipts t = tl_receipts tally ++ [r];
  ta_gas : tl_gas_used t = tl_gas_used tally /\ rc_gas_used r = 0
    \/ tl_gas_used t = saturating_add U64_MAX (tl_gas_used tally) (rc_gas_used r) /\ tl_gas_used t <= limit;
  ta_counts : tl_applied tally + tl_failed tally < U32_MAX ->
    tl_applied t + tl_failed t = tl_applied tally + tl_failed tally + 1;
}.

(** One round of the loop: what left the accounts is what the proposer gets, and a
    successful receipt uses up the nonce it was signed for. *)
Record executed (facts : BlockFacts) (tally : Tally) (tx : Transaction) (s : state) (t : Tally) (s' : state) : Prop := {
  ex_fee : exists fee, stepped fee s s' /\ tl_proposer_fee t = saturating_add U128_MAX (tl_proposer_fee tally) fee;
  ex_tally : exists r, tallied (in_block_gas_limit (bf_input facts)) tally t r
    /\ (rc_status_code r = 0 -> tx_charges_fee tx = true ->
        nonce_at s (tx_payer tx) = tx_nonce tx /\ (tx_nonce tx < U64_MAX -> consumed s' (tx_payer tx) (tx_nonce tx)));
  ex_governed : forall delay, EvidenceAnchor_is_well_formed (bc_anchor (bf_governance facts)) = true ->
    an_unbonding_delay_blocks (bc_anchor (bf_governance facts)) = delay ->
    governed delay (bc_pending_sanctions (bf_governance facts)) s ->
    governed delay (bc_pending_sanctions (bf_governance facts)) s';
}.

Lemma fee_none n : n <= U128_MAX -> n = saturating_add U128_MAX n 0.
Proof. unfold saturating_add. lia. Qed.

(** The outcome of the handler, with both of its descriptions. *)
Lemma transaction_outcome (P : Prop) (s : state) facts fee tx :
  tx_charges_fee tx = true ->
  wp P (apply_transaction facts fee tx) (fun r s' =>
    tx_post (is_governance tx) s (tx_payer tx) (tx_nonce tx) fee r s'
    /\ (forall delay, EvidenceAnchor_is_well_formed (bc_anchor (bf_governance facts)) = true ->
         an_unbonding_delay_blocks (bc_anchor (bf_governance facts)) = delay ->
         governed delay (bc_pending_sanctions (bf_governance facts)) s ->
         governed delay (bc_pending_sanctions (bf_governance facts)) s')
    /\ match r with Err f => f_status f <> Success | Ok _ => True end) s.
Proof.
  intros Hfee. pose proof (apply_transaction_spec P s facts fee tx Hfee) as Hpost.
  pose proof (failing_transaction facts fee tx s) as Hfail.
  unfold wp in *. destruct (exec (apply_transaction facts fee tx) s) as [[r s']|] eqn:Hexec; [|done].
  split; [done|]. split; [|done]. intros delay Ha Hd Hg.
  exact (exec_Ok True _ _ _ _ _ Hexec (governed_transaction True s facts fee tx delay Ha Hd Hg Hfee)).
Qed.

Lemma spent_consumed gov payer nonce fee s s' :
  spent gov payer fee s s' -> nonce_at s payer = nonce -> nonce < U64_MAX -> consumed s' payer nonce.
Proof. intros Hsp <- Hlt. unfold consumed. rewrite (spent_nonce _ _ _ _ _ Hsp). unfold saturating_add. lia. Qed.

Lemma success_code status : status <> Success -> status_as_u32 status <> 0.
Proof. by destruct status. Qed.

Lemma tallied_gas limit tally t r cost :
  tl_receipts t = tl_receipts tally ++ [r] -> rc_gas_used r = cost ->
  saturating_add U64_MAX (tl_gas_used tally) cost <= limit ->
  tl_gas_used t = saturating_add U64_MAX (tl_gas_used tally) cost ->
  (tl_applied t = saturating_add U32_MAX (tl_applied tally) 1 /\ tl_failed t = tl_failed tally
   \/ tl_applied t = tl_applied tally /\ tl_failed t = saturating_add U32_MAX (tl_failed tally) 1) ->
  tallied limit tally t r.
Proof.
  intros Hr Hc Hlim Hg Hcount. split; [done| |].
  - right. rewrite Hc. split; [done|]. rewrite Hg. lia.
  - intros Hlt. unfold saturating_add in Hcount. lia.
Qed.

(** The evidence submissions were settled by the mandatory phase; the loop only
    counts them. *)
Lemma execute_evidence_spec (P : Prop) (s : state) facts tally e :
  tl_proposer_fee tally <= U128_MAX ->
  wp P (execute_transaction facts tally (SubmitEvidence e)) (executed facts tally (SubmitEvidence e) s) s.
Proof.
  intros Hle. unfold execute_transaction. cbv zeta. destruct (N.ltb_spec (in_block_gas_limit (bf_input facts))
    (saturating_add U64_MAX (tl_gas_used tally) (tx_gas (SubmitEvidence e)))) as [Hlt|Hge]; wp_steps.
  - split; [exists 0; split; [apply stepped_refl|by apply fee_none]| |done]. eexists. split; [split; [done|by left|]|done].
    cbn. unfold saturating_add. lia.
  - cbn [apply_transaction]. wp_steps. split; [exists 0; split; [apply stepped_refl|by apply fee_none]| |done].
    eexists. split; [|done]. by eapply tallied_gas; [reflexivity|reflexivity|exact Hge|reflexivity|left].
Qed.

Lemma execute_transaction_spec (P : Prop) (s : state) facts tally tx :
  tl_proposer_fee tally <= U128_MAX ->
  wp P (execute_transaction facts tally tx) (executed facts tally tx s) s.
Proof.
  intros Hle. destruct (tx_charges_fee tx) eqn:Hfee; [|destruct tx; try done; by apply execute_evidence_spec].
  unfold execute_transaction. cbv zeta. set (fee := saturating_mul _ _ _). destruct (N.ltb_spec (in_block_gas_limit (bf_input facts))
    (saturating_add U64_MAX (tl_gas_used tally) (tx_gas tx))) as [Hlt|Hge]; wp_steps.
  { split; [exists 0; split; [apply stepped_refl|by apply fee_none]| |done]. eexists. split; [split; [done|by left|]|done].
    cbn. unfold saturating_add. lia. }
  eapply wp_mono; [by apply transaction_outcome|]. rewrite Hfee.
  intros [u|f] s1 (Hpost & Hgov & Hst); wp_steps.
  - destruct Hpost as [Hn Hsp]. split; [exists fee; split; [by eapply spent_stepped|done]| |done].
    eexists. split; [by eapply tallied_gas; [reflexivity|reflexivity|exact Hge|reflexivity|left]|]. intros _ _. split; [done|]. by eapply spent_consumed.
  - destruct Hpost as [-> Hfair]. unfold fair_failure in Hfair. destruct (f_payer f) as [payer|]; wp_steps.
    + destruct Hfair as [Hx|[[= ->] Hauth]]; [done|]. eapply wp_mono; [by apply charge_failure_spec|].
      intros c s2 (-> & Hstep & _ & Hkeep). wp_steps. split; [by exists fee| |].
      * eexists. split; [by eapply tallied_gas; [reflexivity|reflexivity|exact Hge|reflexivity|right]|]. intros Hs. by apply success_code in Hst.
      * intros delay Ha Hd Hg. by eapply governed_same.
    + split; [exists 0; split; [apply stepped_refl|by apply fee_none]| |done].
      eexists. split; [by eapply tallied_gas; [reflexivity|reflexivity|exact Hge|reflexivity|right]|]. intros Hs. by apply success_code in Hst.
Qed.

(** ** The loop *)

(** The receipt is a success of a transaction of [a] with nonce [n]. *)
Definition success_of (a : Address) (n : N) (p : Transaction * Receipt) : Prop :=
  tx_charges_fee p.1 = true /\ tx_payer p.1 = a /\ tx_nonce p.1 = n /\ rc_status_code p.2 = 0.

#[export] Instance success_of_dec a n p : Decision (success_of a n p).
Proof. unfold success_of. apply _. Defined.

Definition successes (a : Address) (n : N) (txs : list Transaction) (receipts : list Receipt) : N :=
  len (filter (success_of a n) (zip txs receipts)).

Definition used (s : state) (a : Address) (n : N) : N := if decide (n < nonce_at s a) then 1 else 0.

Lemma used_le s s' a n : (consumed s a n -> consumed s' a n) -> used s a n <= used s' a n.
Proof. unfold consumed, used. intros Hc. repeat case_decide; lia. Qed.

(** Everything the loop over [txs] leaves. *)
Record looped (facts : BlockFacts) (tally : Tally) (txs : list Transaction) (s : state) (t : Tally) (s' : state) : Prop := {
  lp_fee : exists fee, stepped fee s s' /\ tl_proposer_fee t = saturating_add U128_MAX (tl_proposer_fee tally) fee;
  lp_gas : tl_gas_used tally <= in_block_gas_limit (bf_input facts) -> tl_gas_used t <= in_block_gas_limit (bf_input facts);
  lp_receipts : exists rs, tl_receipts t = tl_receipts tally ++ rs /\ length rs = length txs
    /\ (in_block_gas_limit (bf_input facts) < U64_MAX -> tl_gas_used t = tl_gas_used tally + sum_by rc_gas_used rs)
    /\ forall a n, n < U64_MAX -> successes a n txs rs + used s a n <= used s' a n;
  lp_counts : tl_applied tally + tl_failed tally + len txs <= U32_MAX ->
    tl_applied t + tl_failed t = tl_applied tally + tl_failed tally + len txs;
  lp_governed : forall delay, EvidenceAnchor_is_well_formed (bc_anchor (bf_governance facts)) = true ->
    an_unbonding_delay_blocks (bc_anchor (bf_governance facts)) = delay ->
    governed delay (bc_pending_sanctions (bf_governance facts)) s ->
    governed delay (bc_pending_sanctions (bf_governance facts)) s';
}.

Lemma successes_snoc a n txs rs tx r :
  length rs = length txs ->
  successes a n (txs ++ [tx]) (rs ++ [r]) = successes a n txs rs + (if decide (success_of a n (tx, r)) then 1 else 0).
Proof.
  intros Hlen. unfold successes. rewrite zip_with_app by done. rewrite filter_app, len_app. f_equal.
  cbn [zip_with]. rewrite filter_cons. by case_decide.
Qed.

Lemma looped_start facts tally s : tl_proposer_fee tally <= U128_MAX -> looped facts tally [] s tally s.
Proof.
  intros Hle. split; try done.
  - exists 0. split; [apply stepped_refl|by apply fee_none].
  - exists []. split; [by rewrite app_nil_r|]. split; [done|]. split; [intros _; rewrite sum_by_nil; lia|].
    intros a n _. change (successes a n [] []) with 0. lia.
  - intros _. change (len []) with 0. lia.
Qed.

Lemma used_step tx s s' fee r a n :
  stepped fee s s' ->
  (rc_status_code r = 0 -> tx_charges_fee tx = true ->
     nonce_at s (tx_payer tx) = tx_nonce tx /\ (tx_nonce tx < U64_MAX -> consumed s' (tx_payer tx) (tx_nonce tx))) ->
  n < U64_MAX ->
  used s a n + (if decide (success_of a n (tx, r)) then 1 else 0) <= used s' a n.
Proof.
  intros Hst Hsucc Hn. pose proof (used_le s s' a n (sp_nonces _ _ _ Hst a n Hn)) as Hle.
  case_decide as Hs; [|lia]. destruct Hs as (Hfee & <- & <- & Hcode). cbn [fst snd] in *.
  destruct (Hsucc Hcode Hfee) as [Heq Hc]. specialize (Hc Hn). unfold used, consumed in *.
  rewrite Heq in *. repeat case_decide; lia.
Qed.

Lemma looped_step facts tally seen tx s t s' t' s'' :
  looped facts tally seen s t s' -> executed facts t tx s' t' s'' -> looped facts tally (seen ++ [tx]) s t' s''.
Proof.
  intros [(f & Hf & Hfee) Hgas (rs & Hrs & Hlen & Hsum & Huse) Hcnt Hgov] Hex.
  destruct Hex as [(g & Hg & Hfee') (r & Hta & Hsucc) Hgov']. destruct Hta as [Hr Hg' Hc']. split.
  - exists (f + g). split; [by eapply stepped_trans|]. rewrite Hfee', Hfee. unfold saturating_add. lia.
  - intros Hle. specialize (Hgas Hle). destruct Hg' as [[-> _]|[_ Hle']]; done.
  - exists (rs ++ [r]). split; [by rewrite Hr, Hrs, app_assoc|]. split; [rewrite !length_app; cbn; lia|]. split.
    + intros Hlim. specialize (Hsum Hlim). rewrite sum_by_app, sum_by_cons, sum_by_nil.
      destruct Hg' as [[-> Hz]|[Heq Hle']]; [lia|]. rewrite Heq in Hle' |- *. unfold saturating_add in *. lia.
    + intros a n Hn. rewrite successes_snoc by done. specialize (Huse a n Hn).
      pose proof (used_step tx s' s'' g r a n Hg Hsucc Hn). lia.
  - rewrite len_snoc. intros Hle. rewrite Hc'; rewrite Hcnt; lia.
  - eauto.
Qed.

Lemma looped_fee facts tally txs s t s' : looped facts tally txs s t s' -> tl_proposer_fee t <= U128_MAX.
Proof. intros [(f & _ & ->) _ _ _ _]. apply saturating_add_le. Qed.

Lemma execute_transactions_spec (P : Prop) (s : state) facts tally :
  tl_proposer_fee tally <= U128_MAX ->
  wp P (execute_transactions facts tally) (looped facts tally (in_transactions (bf_input facts)) s) s.
Proof.
  intros Hle. apply (wp_fold P _ (fun seen t s' => looped facts tally seen s t s')); [by apply looped_start|].
  intros seen tx t s' _ Hl. eapply wp_mono; [apply execute_transaction_spec; by eapply looped_fee|].
  intros t' s'' Hex. by eapply looped_step.
Qed.

End steps.

(** ** The block *)

Section block.
Context `{Blake3} `{Ed25519} `{StateCodecLaws} `{GovernanceCodecLaws} `{AccountabilityCodecLaws} `{Borsh Transaction}.

(** The keys the properties below depend on. *)
Definition watched (k : bytes) : bool :=
  worth_key k || mirror_key k || governance_key k || has_prefix ACCOUNTABILITY_PREFIX k.

Definition quiet (s s' : state) : Prop := forall k, watched k = true -> s' !! k = s !! k.

Lemma quiet_insert (s : state) k v : watched k = false -> quiet s (<[k := v]> s).
Proof. intros Hk k' Hk'. apply lookup_insert_ne. congruence. Qed.

Lemma quiet_trans s t u : quiet s t -> quiet t u -> quiet s u.
Proof. intros Hst Htu k Hk. rewrite Htu by done. by apply Hst. Qed.

Lemma apply_participation_spec (P : Prop) (s : state) report :
  wp P (apply_participation report) (fun _ => quiet s) s.
Proof.
  unfold apply_participation. apply wp_bind. destruct report as [r|]; [|by apply wp_ret, wp_ret].
  unfold load_participation. wp_step. wp_step. destruct (match _ with None => _ | Some _ => _ end); [|by apply wp_ret, wp_ret].
  wp_steps. set (s1 := <[PARTICIPATION_KEY:=_]> s). set (s2 := <[absent_key _:=_]> s1).
  assert (quiet s s2) as Hq by by eapply quiet_trans; apply quiet_insert.
  destruct (checked_sub _ _) as [expired|]; wp_steps; [|done]. eapply quiet_trans; [exact Hq|].
  intros k Hk. apply lookup_delete_ne. intros <-. by vm_compute in Hk.
Qed.

Lemma quiet_conserved s s' : quiet s s' -> conserved s s'.
Proof.
  intros Hq. unfold quiet, watched in Hq. split.
  - intros _. unfold burned_at, totals_at. rewrite (supply_same s s') by (intros k Hk; apply Hq; by rewrite Hk).
    by rewrite (peek_same _ s s') by by apply Hq.
  - intros a. unfold nonce_at, account_at. by rewrite (peek_same _ s s') by by apply Hq.
  - apply mirrored_same. intros k Hk. apply Hq. by rewrite Hk, orb_true_r.
  - intros k Hk. apply Hq. by rewrite Hk, !orb_true_r.
Qed.

(** The records of the mandatory phase are accountability records. *)
Lemma accountable_frame s s' :
  (forall k, has_prefix ACCOUNTABILITY_PREFIX k = true -> s' !! k = s !! k) -> accountable s -> accountable s'.
Proof. intros Hk. apply accountable_same; [by apply Hk..|]. intros h. left. by apply Hk. Qed.

Lemma sanctions_frame s s' :
  (forall k, has_prefix ACCOUNTABILITY_PREFIX k = true -> s' !! k = s !! k) ->
  sanctions_at s' = sanctions_at s /\ queue_bytes s' = queue_bytes s /\ burned_at s' = burned_at s.
Proof.
  intros Hk. unfold sanctions_at, queue_bytes, burned_at, totals_at, peek.
  by rewrite (Hk QUEUE_KEY), (Hk SETTLEMENT_TOTALS_KEY).
Qed.

(** A step that may drop the open proposal and the scheduled upgrade. *)
Record lapsed (s s' : state) : Prop := {
  la_step : stepped 0 s s';
  la_nonces : forall a, nonce_at s' a = nonce_at s a;
  la_governed : forall delay pending, governed delay pending s -> governed delay pending s';
}.

Lemma lapsed_intro s s' :
  agree_off [UPGRADE_KEY; UPGRADE_PROPOSAL_KEY] s s' ->
  s' !! UPGRADE_PROPOSAL_KEY = s !! UPGRADE_PROPOSAL_KEY \/ s' !! UPGRADE_PROPOSAL_KEY = None -> lapsed s s'.
Proof.
  intros Hag Hp.
  assert (forall a, nonce_at s' a = nonce_at s a) as Hn.
  { intros a. unfold nonce_at. f_equal. eapply account_same; [exact Hag|key_notin]. }
  split; [split|done|].
  - intros _. pose proof (supply_agree [UPGRADE_KEY; UPGRADE_PROPOSAL_KEY] s s' ltac:(key_nodup) Hag) as Hs. revert Hs. worths. lia.
  - intros a n _. unfold consumed. by rewrite Hn.
  - apply (mirrored_frame [] [UPGRADE_KEY; UPGRADE_PROPOSAL_KEY]); [done|by repeat constructor].
  - intros k Hk. apply Hag. key_untouched Hk.
  - intros delay pending [Gp Go Gv Gf]. assert (policy_at s' = policy_at s) as He.
    { unfold policy_at. by rewrite (peek_same _ s s') by (apply Hag; key_notin). }
    assert (proposal_at s' = proposal_at s \/ proposal_at s' = None) as Hq.
    { unfold proposal_at, peek. destruct Hp as [-> | ->]; [by left|by right]. }
    split; rewrite ?He; try done; intros p; destruct Hq as [-> | ->]; [apply Go|done|apply Gv|done].
Qed.

(** Block-start housekeeping of governance. *)
Lemma expire_spec (P : Prop) (s : state) chunk : wp P (expire chunk) (fun _ => lapsed s) s.
Proof.
  unfold expire. wp_step. wp_step. apply wp_bind.
  apply (wp_mono P _ (fun _ s' => s' = s \/ s' = delete UPGRADE_KEY s)).
  - destruct (peek UPGRADE_KEY s) as [u|]; [destruct (_ <=? _)|]; wp_steps; auto.
  - intros [] s1 Hs1. cbv beta. wp_steps.
    destruct (peek UPGRADE_PROPOSAL_KEY s1) as [p|]; [destruct (negb _)|]; wp_steps;
      destruct Hs1 as [-> | ->]; (apply lapsed_intro; [intros k Hk; by rewrite ?lookup_delete_ne by set_solver|]);
      rewrite ?lookup_delete_eq, ?lookup_delete_ne by done; auto.
Qed.

(** The proposer gets the fees. *)
Lemma credit_proposer_spec (P : Prop) (s : state) proposer fee :
  wp P (credit_proposer proposer fee) (fun _ s' =>
    (supply s + fee <= U128_MAX -> supply s' = supply s + fee)
    /\ (forall a, nonce_at s' a = nonce_at s a) /\ (mirrored s -> mirrored s')
    /\ (forall k, has_prefix ACCOUNTABILITY_PREFIX k = true \/ governance_key k = true -> s' !! k = s !! k)) s.
Proof.
  unfold credit_proposer. destruct (N.eqb_spec fee 0) as [->|Hf]; wp_steps; [split; [lia|done]|].
  pose proof (worth_le_supply s (account_key proposer)) as Hb. rewrite worth_account in Hb.
  set (x := {| a_nonce := _; a_balance := _ |}). pose proof (supply_account s proposer x) as Hs. split; [|split; [|split]].
  - intros Hle. assert (a_balance x = balance_at s proposer + fee) as Hx.
    { subst x. cbn [a_balance]. apply saturating_add_exact. unfold balance_at in *. lia. }
    lia.
  - intros a. unfold nonce_at. destruct (decide (a = proposer)) as [->|Hne];
      [by rewrite account_insert|by rewrite account_insert_ne].
  - eapply (mirrored_frame [] [account_key proposer]); [apply agree_off_insert|by repeat constructor].
  - intros k Hk. apply lookup_insert_ne. intros <-. by destruct Hk as [Hk|Hk]; vm_compute in Hk.
Qed.

(** What an accepted block leaves. *)
Record blocked (input : StfInput) (s : state) (r : BlockResult) (s' : state) : Prop := {
  bk_anchor : EvidenceAnchor_is_well_formed (in_evidence_anchor input) = true;
  bk_money : supply s + burned_at s <= U128_MAX -> supply s' + burned_at s' = supply s + burned_at s;
  bk_mirrored : mirrored s -> mirrored s';
  bk_accountable : accountable s';
  bk_queue : sanctions_at s' = residue_of (mandatory_input input) (policy_at s) s
    \/ Collides [queue_bytes s] [borsh_to_vec (residue_of (mandatory_input input) (policy_at s) s)];
  bk_executed : ao_executed (md_output (br_mandatory r)) = map pd_sanction
    (take (N.to_nat (drained_count (mandatory_input input) (policy_at s) s)) (all_pending (mandatory_input input) (policy_at s) s));
  bk_governed : forall delay, an_unbonding_delay_blocks (in_evidence_anchor input) = delay ->
    governed delay (len (sanctions_at s)) s ->
    governed delay (len (residue_of (mandatory_input input) (policy_at s) s)) s';
  bk_gas : tl_gas_used (br_tally r) <= in_block_gas_limit input;
  bk_counts : tl_applied (br_tally r) + tl_failed (br_tally r) = len (in_transactions input);
  bk_receipts : exists mandatory ordinary,
    tl_receipts (br_tally r) = mandatory ++ ordinary
    /\ len mandatory = drained_count (mandatory_input input) (policy_at s) s
    /\ length ordinary = length (in_transactions input)
    /\ (in_block_gas_limit input < U64_MAX -> tl_gas_used (br_tally r) = sum_by rc_gas_used (tl_receipts (br_tally r)))
    /\ forall a n, n < U64_MAX -> successes a n (in_transactions input) ordinary + used s a n <= used s' a n;
}.

Lemma quiet_records s s' :
  quiet s s' -> forall k, has_prefix ACCOUNTABILITY_PREFIX k = true -> s' !! k = s !! k.
Proof. intros Hq k Hk. apply Hq. unfold watched. by rewrite Hk, !orb_true_r. Qed.

(** The queue's functions depend on the stored queue only. *)
Lemma pending_frame input policy s s' :
  sanctions_at s' = sanctions_at s ->
  all_pending input policy s' = all_pending input policy s /\ drained_count input policy s' = drained_count input policy s
  /\ residue_of input policy s' = residue_of input policy s.
Proof. intros Hs. unfold residue_of, drained_count, all_pending. by rewrite Hs. Qed.

(** The money of the four phases. *)
Lemma block_money s s2 s3 s4 s5 fee total :
  conserved s s2 -> stepped 0 s2 s3 -> stepped fee s3 s4 -> total = saturating_add U128_MAX 0 fee ->
  (supply s4 + total <= U128_MAX -> supply s5 = supply s4 + total) -> burned_at s5 = burned_at s2 ->
  supply s + burned_at s <= U128_MAX -> supply s5 + burned_at s5 = supply s + burned_at s.
Proof.
  intros Hc Hs3 Hs4 Htot Hs5 Hb Hle. pose proof (cv_money _ _ Hc Hle) as E2.
  pose proof (sp_supply _ _ _ Hs3 ltac:(lia)) as E3. pose proof (sp_supply _ _ _ Hs4 ltac:(lia)) as E4.
  rewrite saturating_add_exact in Htot by lia. specialize (Hs5 ltac:(lia)). lia.
Qed.

(** The nonces of the four phases. *)
Lemma block_nonces s s2 s3 s4 s5 a n k :
  (forall a, nonce_at s2 a = nonce_at s a) -> (forall a, nonce_at s3 a = nonce_at s2 a) ->
  (forall a, nonce_at s5 a = nonce_at s4 a) ->
  k + used s3 a n <= used s4 a n -> k + used s a n <= used s5 a n.
Proof. intros Hn2 Hn3 Hn5. unfold used. by rewrite Hn5, Hn3, Hn2. Qed.

Lemma block_governed delay input policy (m : Mandatory) s1 s2 s3 s4 t tally :
  policy_at s1 = policy -> mandated (mandatory_input input) policy s1 m s2 -> lapsed s2 s3 ->
  looped (block_facts input policy m) tally (in_transactions input) s3 t s4 ->
  an_unbonding_delay_blocks (in_evidence_anchor input) = delay -> governed delay (len (sanctions_at s1)) s1 ->
  governed delay (len (residue_of (mandatory_input input) policy s1)) s4.
Proof.
  intros Hp Hmd Hla Hlp Hdelay Hg.
  assert (bc_pending_sanctions (bf_governance (block_facts input policy m)) = len (residue_of (mandatory_input input) policy s1)) as Hbl.
  { cbn. by rewrite (mn_backlog _ _ _ _ _ Hmd). }
  rewrite <- Hbl. apply (lp_governed _ _ _ _ _ _ Hlp); [|done|].
  { by destruct (proj1 (policy_fits_valid _ _) (mn_valid _ _ _ _ _ Hmd)). }
  rewrite Hbl. apply (la_governed _ _ Hla).
  assert (governed delay (len (residue_of (mandatory_input input) policy s1)) s1) as Hg1.
  { destruct Hg as [Gp Go Gv Gf]. split; try done. rewrite Hp. apply (mn_fits _ _ _ _ _ Hmd). }
  eapply governed_same; [|exact Hg1]. apply (cv_governance _ _ (mn_conserved _ _ _ _ _ Hmd)).
Qed.

Lemma commitments_count txs c : transaction_commitments txs = Some c -> len txs <= U32_MAX.
Proof.
  unfold transaction_commitments, try_from. destruct (N.leb_spec (len txs) U32_MAX); [done|].
  by intros (? & ? & _)%bind_Some.
Qed.

Lemma block_receipts input policy m s1 s2 s3 s4 s5 t :
  mandated (mandatory_input input) policy s1 m s2 ->
  looped (block_facts input policy m) (tally_start m) (in_transactions input) s3 t s4 ->
  (forall a, nonce_at s2 a = nonce_at s1 a) -> (forall a, nonce_at s3 a = nonce_at s2 a) ->
  (forall a, nonce_at s5 a = nonce_at s4 a) ->
  exists mandatory ordinary, tl_receipts t = mandatory ++ ordinary
    /\ len mandatory = drained_count (mandatory_input input) policy s1
    /\ length ordinary = length (in_transactions input)
    /\ (in_block_gas_limit input < U64_MAX -> tl_gas_used t = sum_by rc_gas_used (tl_receipts t))
    /\ forall a n, n < U64_MAX -> successes a n (in_transactions input) ordinary + used s1 a n <= used s5 a n.
Proof.
  intros Hmd Hlp Hn2 Hn3 Hn5. destruct (lp_receipts _ _ _ _ _ _ Hlp) as (rs & Hrs & Hlen & Hgas & Huse).
  destruct (mn_receipts _ _ _ _ _ Hmd) as [Hml Hmg]. cbn [tally_start tl_receipts tl_gas_used bf_input block_facts] in *.
  exists (md_receipts m), rs. do 3 (split; [done|]). split.
  - intros Hlim. rewrite (Hgas Hlim), Hrs, sum_by_app, (mn_gas _ _ _ _ _ Hmd), <- Hml. f_equal.
    clear -Hmg. induction Hmg as [|r rs Hr Hmg IH]; [done|]. rewrite sum_by_cons, len_cons, <- IH, Hr. lia.
  - intros a n Hn. eapply block_nonces; eauto.
Qed.

(** [block_program] on well-formed records. *)
Lemma block_program_spec (P : Prop) (s : state) input :
  let policy := policy_at s in
  accountable s ->
  (policy_is_valid_for policy (in_evidence_anchor input) = false -> P) ->
  (p_evidence_max_pending policy < len (sanctions_at s) -> P) ->
  (evidence_prefix (in_transactions input) <> [] -> P) ->
  (in_block_gas_limit input < p_evidence_executions_per_block policy * GAS_SANCTION -> P) ->
  (transaction_commitments (in_transactions input) = None -> P) ->
  wp P (block_program input) (blocked input s) s.
Proof.
  intros policy Ha Hv Hfull Hev Hgas Hcom. unfold block_program. apply wp_bind, wp_load_runtime_policy. fold policy.
  apply wp_bind. eapply wp_mono; [apply apply_participation_spec|]. intros part s1 Hq. cbv beta in Hq |- *.
  destruct (sanctions_frame _ _ (quiet_records _ _ Hq)) as (Hs1 & Hb1 & _).
  destruct (pending_frame (mandatory_input input) policy _ _ Hs1) as (Hall & Hdr & Hres).
  pose proof (quiet_conserved _ _ Hq) as Hc1.
  apply wp_bind. eapply wp_mono; [apply apply_mandatory_spec; [eapply accountable_frame; [by apply quiet_records|done]|rewrite ?Hs1; done..]|].
  intros m s2 Hmd. apply wp_bind. eapply wp_mono; [apply expire_spec|]. intros [] s3 Hla. cbv beta in Hla |- *.
  apply wp_bind, wp_expect. destruct (transaction_commitments _) as [c|] eqn:Hc; [|by apply Hcom].
  apply commitments_count in Hc. apply wp_bind. eapply wp_mono; [by apply execute_transactions_spec|].
  intros t s4 Hlp. apply wp_bind. eapply wp_mono; [apply credit_proposer_spec|].
  intros [] s5 (Hcr & Hn5 & Hm5 & Hk5). wp_steps.
  destruct (lp_fee _ _ _ _ _ _ Hlp) as (fee & Hst & Hfee).
  assert (forall k, has_prefix ACCOUNTABILITY_PREFIX k = true -> s5 !! k = s2 !! k) as Hrec.
  { intros k Hk. rewrite Hk5, (sp_records _ _ _ Hst), (sp_records _ _ _ (la_step _ _ Hla)); auto. }
  destruct (sanctions_frame _ _ Hrec) as (Hq5 & _ & Hburn).
  pose proof (conserved_trans _ _ _ Hc1 (mn_conserved _ _ _ _ _ Hmd)) as Hc2. split; cbn [br_tally br_mandatory]; fold policy.
  - by destruct (proj1 (policy_fits_valid _ _) (mn_valid _ _ _ _ _ Hmd)).
  - eapply block_money; [exact Hc2|apply Hla|exact Hst|exact Hfee|exact Hcr|exact Hburn].
  - intros Hm. apply Hm5, (sp_mirrored _ _ _ Hst), (sp_mirrored _ _ _ (la_step _ _ Hla)), (cv_mirrored _ _ Hc2), Hm.
  - eapply accountable_frame; [exact Hrec|apply (mn_accountable _ _ _ _ _ Hmd)].
  - rewrite Hq5, <- Hres, <- Hb1. apply (mn_queue _ _ _ _ _ Hmd).
  - rewrite <- Hdr, <- Hall. apply (mn_executed _ _ _ _ _ Hmd).
  - intros delay Hd Hg. eapply (governed_same _ _ s4); [intros k Hk; apply Hk5; by right|]. rewrite <- Hres.
    assert (policy_at s1 = policy) as Hp1.
    { unfold policy, policy_at. by rewrite (peek_same _ s s1) by by apply (cv_governance _ _ Hc1). }
    eapply block_governed; [exact Hp1|exact Hmd|exact Hla|exact Hlp|done|].
    rewrite Hs1. eapply governed_same; [|exact Hg]. apply (cv_governance _ _ Hc1).
  - apply (lp_gas _ _ _ _ _ _ Hlp). cbn. pose proof (mn_room _ _ _ _ _ Hmd) as Hroom. cbn [mi_gas_limit mandatory_input] in Hroom. lia.
  - apply (lp_counts _ _ _ _ _ _ Hlp). cbn. lia.
  - rewrite <- Hdr. eapply block_receipts in Hlp as (ms & os & Hr & Hl & Hlo & Hg & Hu); [|exact Hmd|..|exact Hn5].
    + exists ms, os. do 4 (split; [done|]). intros a n Hn. specialize (Hu a n Hn). revert Hu. unfold used.
      by rewrite (cv_nonces _ _ Hc1).
    + apply (cv_nonces _ _ (mn_conserved _ _ _ _ _ Hmd)).
    + apply (la_nonces _ _ Hla).
Qed.

End block.
