(* ===== verification/RuntimeSafety.v ===== *)
(** * Chains of blocks

    Theorems about [apply_block] iterated over the inputs of consecutive blocks:
    conservation of money, at most one success per nonce, the mirrors, gas and
    receipts, and that blocks without evidence execute and drain the sanction
    queue. *)

From S2P Require Import Prelude External Primitives History Evidence Sorted Backend RuntimeState Transactions Governance Staking Accountability Stf Views Ledger Sanctions RuntimeSamples Elections Execution.

Section chain.
Context `{Blake3} `{Ed25519} `{TrieRoot} `{StateCodecLaws} `{GovernanceCodecLaws} `{AccountabilityCodecLaws}.
Context `{Borsh Transaction} `{Borsh EvidenceContext}.

(** Consecutive blocks, each on a live backend over the previous content. *)
Fixpoint apply_blocks (inputs : list StfInput) (s : state) : result Panic (list StfPublicOutput * state) :=
  match inputs with
  | [] => Ok ([], s)
  | input :: inputs =>
      '(out, b) ← apply_block input (LiveState_new s);
      '(outs, s') ← apply_blocks inputs (ls_state b);
      Ok (out :: outs, s')
  end.

(** The results behind the public outputs, with the receipts. *)
Fixpoint block_results (inputs : list StfInput) (s : state) : result Panic (list BlockResult * state) :=
  match inputs with
  | [] => Ok ([], s)
  | input :: inputs =>
      '(r, s1) ← exec (block_program input) s;
      '(rs, s') ← block_results inputs s1;
      Ok (r :: rs, s')
  end.

(** The receipts of a block's transactions follow those of its sanctions. *)
Definition ordinary_receipts (input : StfInput) (r : BlockResult) : list Receipt :=
  drop (length (tl_receipts (br_tally r)) - length (in_transactions input)) (tl_receipts (br_tally r)).

(** The fields of an output that a block's result determines. *)
Record publishes (input : StfInput) (s s' : state) (r : BlockResult) (out : StfPublicOutput) : Prop := {
  pb_accountability : out_accountability out = md_output (br_mandatory r);
  pb_gas : out_gas_used out = tl_gas_used (br_tally r);
  pb_applied : out_applied out = tl_applied (br_tally r);
  pb_failed : out_failed out = tl_failed (br_tally r);
  pb_receipts : out_receipts_root out = compute_receipts_root (tl_receipts (br_tally r));
  pb_pre : out_pre_state_root out = trie_root s;
  pb_post : out_post_state_root out = trie_root s';
}.

Lemma apply_block_exec input s :
  check_admissions (in_chain_id input) (in_block_height input) (in_evidence_anchor input) (in_transactions input) = Ok tt ->
  match exec (block_program input) s with
  | Ok (r, s') => exists out b, apply_block input (LiveState_new s) = Ok (out, b) /\ ls_state b = s' /\ publishes input s s' r out
  | Err e => apply_block input (LiveState_new s) = Err e
  end.
Proof.
  intros Hin. unfold apply_block. rewrite Hin. cbn [map_err mbind result_bind]. unfold apply_block_validated.
  pose proof (run_view (block_program input) (LiveState_new s)) as Hrun. cbn [LiveState_new ls_state] in Hrun.
  destruct (exec (block_program input) s) as [[r s']|e]; [|by rewrite Hrun].
  destruct Hrun as (v & -> & Hfin). cbn. rewrite Hfin. by do 2 eexists.
Qed.

(** An accepted block, on well-formed records. *)
Lemma apply_block_blocked input s out b :
  apply_block input (LiveState_new s) = Ok (out, b) -> accountable s ->
  exists r, exec (block_program input) s = Ok (r, ls_state b) /\ blocked input s r (ls_state b)
    /\ publishes input s (ls_state b) r out.
Proof.
  intros Happ Ha. destruct (check_admissions (in_chain_id input) (in_block_height input)
    (in_evidence_anchor input) (in_transactions input)) as [[]|e] eqn:Hin; [|unfold apply_block in Happ; by rewrite Hin in Happ].
  pose proof (apply_block_exec input s Hin) as Hrun.
  pose proof (block_program_spec True s input Ha ltac:(done) ltac:(done) ltac:(done) ltac:(done) ltac:(done)) as Hspec.
  unfold wp in Hspec. destruct (exec (block_program input) s) as [[r s']|]; [|by rewrite Hrun in Happ].
  destruct Hrun as (out' & b' & Hrun & <- & Hpub). rewrite Happ in Hrun. injection Hrun as <- <-. by exists r.
Qed.

Lemma apply_blocks_cons input inputs s outs s' :
  apply_blocks (input :: inputs) s = Ok (outs, s') ->
  exists out b outs', outs = out :: outs' /\ apply_block input (LiveState_new s) = Ok (out, b)
    /\ apply_blocks inputs (ls_state b) = Ok (outs', s').
Proof.
  cbn [apply_blocks]. destruct (apply_block input (LiveState_new s)) as [[out b]|]; cbn [mbind result_bind]; [|done].
  destruct (apply_blocks inputs (ls_state b)) as [[outs' s1]|] eqn:Hrec; cbn [mbind result_bind]; [|done].
  intros [= <- <-]. by exists out, b, outs'.
Qed.

(** An invariant of accepted blocks is an invariant of chains. *)
Lemma apply_blocks_invariant (I : state -> Prop) inputs s outs s' :
  (forall input s out b, apply_block input (LiveState_new s) = Ok (out, b) -> I s -> I (ls_state b)) ->
  apply_blocks inputs s = Ok (outs, s') -> I s -> I s'.
Proof.
  intros Hstep. revert s outs. induction inputs as [|input inputs IH]; intros s outs Hrun HI; [by injection Hrun as <- <-|].
  apply apply_blocks_cons in Hrun as (out & b & outs' & -> & Hb & Hrest). eapply IH; [exact Hrest|]. by eapply Hstep.
Qed.

Lemma money_step input s out b total :
  apply_block input (LiveState_new s) = Ok (out, b) ->
  (accountable s /\ total <= U128_MAX /\ supply s + burned_at s = total) ->
  accountable (ls_state b) /\ total <= U128_MAX /\ supply (ls_state b) + burned_at (ls_state b) = total.
Proof.
  intros Hb (Ha & Hle & Hs). destruct (apply_block_blocked _ _ _ _ Hb Ha) as (r & _ & Hbk & _).
  split; [apply (bk_accountable _ _ _ _ Hbk)|]. split; [done|]. rewrite <- Hs. apply (bk_money _ _ _ _ Hbk). by rewrite Hs.
Qed.

Lemma used_le_1 s a n : used s a n <= 1.
Proof. unfold used. case_decide; lia. Qed.

(** The receipts of one block count what the nonces record. *)
Lemma block_once input s r s' a n :
  exec (block_program input) s = Ok (r, s') -> accountable s -> n < U64_MAX ->
  accountable s' /\ successes a n (in_transactions input) (ordinary_receipts input r) + used s a n <= used s' a n.
Proof.
  intros Hexec Ha Hn.
  pose proof (exec_Ok True _ _ _ _ _ Hexec (block_program_spec True s input Ha ltac:(done) ltac:(done) ltac:(done) ltac:(done) ltac:(done))) as Hbk.
  split; [apply (bk_accountable _ _ _ _ Hbk)|].
  destruct (bk_receipts _ _ _ _ Hbk) as (ms & os & Hr & _ & Hlen & _ & Hu). unfold ordinary_receipts.
  rewrite Hr, length_app, Hlen. replace (_ - _)%nat with (length ms) by lia. rewrite drop_app_length. by apply Hu.
Qed.

(** ** Blocks without evidence *)

(** An input any proposer can build without evidence at hand: a well-formed anchor
    of the chain, transactions whose count and sizes fit 32 bits, and gas for the
    largest mandatory prefix a policy may ask for. *)
Record plain (delay : N) (input : StfInput) : Prop := {
  pl_anchor : EvidenceAnchor_is_well_formed (in_evidence_anchor input) = true;
  pl_delay : an_unbonding_delay_blocks (in_evidence_anchor input) = delay;
  pl_transactions : Forall (fun tx => tx_charges_fee tx = true) (in_transactions input);
  pl_count : len (in_transactions input) <= U32_MAX;
  pl_sizes : Forall (fun tx => len (borsh_to_vec tx) <= U32_MAX) (in_transactions input);
  pl_gas : MAX_PENDING * GAS_SANCTION <= in_block_gas_limit input;
}.

Lemma plain_evidence txs : Forall (fun tx => tx_charges_fee tx = true) txs -> evidence_prefix txs = [].
Proof. by intros [|tx txs' Htx]; [|destruct tx]. Qed.

Lemma plain_admissions delay input :
  plain delay input ->
  check_admissions (in_chain_id input) (in_block_height input) (in_evidence_anchor input) (in_transactions input) = Ok tt.
Proof.
  intros [Hanchor _ Htxs _ _ _]. unfold check_admissions. rewrite Hanchor. cbn [negb].
  assert (forall st, st.2 = 0 -> exists st', try_fold (check_admissions_step (in_chain_id input) (in_block_height input)
    (in_evidence_anchor input)) st (in_transactions input) = Ok st' /\ st'.2 = 0) as Hfold.
  { induction Htxs as [|tx txs Htx _ IH]; intros st Hst; [by exists st|]. cbn [try_fold].
    destruct tx; cbn [check_admissions_step]; try done; by apply IH. }
  destruct (Hfold (false, 0) eq_refl) as ([b c] & -> & Hc). cbn in Hc. subst c. reflexivity.
Qed.

Lemma plain_commitments delay input :
  plain delay input -> transaction_commitments (in_transactions input) <> None.
Proof.
  intros [_ _ _ Hcount Hsizes _]. unfold transaction_commitments, try_from.
  rewrite (proj2 (N.leb_le _ _) Hcount). cbn [mbind option_bind].
  assert (exists leaves, mapM transaction_leaf (in_transactions input) = Some leaves) as [leaves ->].
  { clear Hcount. induction Hsizes as [|tx txs Htx _ [ls Hls]]; [by exists []|]. cbn [mapM].
    assert (exists leaf, transaction_leaf tx = Some leaf) as [leaf ->].
    { unfold transaction_leaf, try_from. rewrite (proj2 (N.leb_le _ _) Htx). by eexists. }
    cbn. rewrite Hls. by eexists. }
  cbn. destruct (merkle_root_from_hashes_total leaves) as [root ->]. done.
Qed.

(** The stored queue and its successor share a digest. *)
Definition queue_collides (input : StfInput) (s : state) : Prop :=
  Collides [queue_bytes s] [borsh_to_vec (residue_of (mandatory_input input) (policy_at s) s)].

Fixpoint chain_collides (inputs : list StfInput) (s : state) : Prop :=
  match inputs with
  | [] => False
  | input :: inputs => queue_collides input s
      \/ exists out b, apply_block input (LiveState_new s) = Ok (out, b) /\ chain_collides inputs (ls_state b)
  end.

(** A plain block on a healthy state is accepted and leaves a healthy state. *)
Lemma plain_block delay input s :
  healthy delay s -> plain delay input ->
  exists out b r, apply_block input (LiveState_new s) = Ok (out, b) /\ blocked input s r (ls_state b)
    /\ publishes input s (ls_state b) r out /\ (healthy delay (ls_state b) \/ queue_collides input s).
Proof.
  intros [Hg Ha] Hpl. destruct (gv_policy _ _ _ Hg) as [Hwf Hage].
  assert (policy_is_valid_for (policy_at s) (in_evidence_anchor input) = true) as Hv.
  { apply policy_fits_valid. split; [apply (pl_anchor _ _ Hpl)|]. by rewrite (pl_delay _ _ Hpl). }
  destruct (policy_bounds _ _ Hv) as (Hmax & _ & Hexe & _).
  pose proof (apply_block_exec input s (plain_admissions _ _ Hpl)) as Hrun.
  assert (wp False (block_program input) (blocked input s) s) as Hspec.
  { apply block_program_spec; [done|by rewrite Hv|..].
    - pose proof (gv_fits _ _ _ Hg). lia.
    - intros Hne. apply Hne, plain_evidence, (pl_transactions _ _ Hpl).
    - pose proof (pl_gas _ _ Hpl). unfold GAS_SANCTION in *. lia.
    - by apply (plain_commitments delay). }
  unfold wp in Hspec. destruct (exec (block_program input) s) as [[r s']|]; [|done].
  destruct Hrun as (out & b & Hrun & <- & Hpub). exists out, b, r. do 3 (split; [done|]).
  destruct (bk_queue _ _ _ _ Hspec) as [Hq|Hcol]; [left|by right].
  split; [|apply (bk_accountable _ _ _ _ Hspec)]. rewrite Hq. apply (bk_governed _ _ _ _ Hspec); [apply (pl_delay _ _ Hpl)|done].
Qed.

(** Plain blocks on a healthy state are accepted one after the other. *)
Lemma plain_chain delay inputs s :
  healthy delay s -> Forall (plain delay) inputs ->
  (exists outs s', apply_blocks inputs s = Ok (outs, s') /\ healthy delay s') \/ chain_collides inputs s.
Proof.
  intros Hh Hall. revert s Hh. induction Hall as [|input inputs Hpl _ IH]; intros s Hh; [left; by exists [], s|].
  destruct (plain_block _ _ _ Hh Hpl) as (out & b & r & Hb & _ & _ & [Hh'|Hcol]); [|by right; left].
  destruct (IH _ Hh') as [(outs & s' & Hrest & Hh'')|Hcol]; [|right; right; by exists out, b].
  left. exists (out :: outs), s'. split; [|done]. cbn [apply_blocks]. rewrite Hb. cbn [mbind result_bind]. by rewrite Hrest.
Qed.

(** A non-empty queue is drained by at least one. *)
Lemma drained_positive delay input s :
  healthy delay s -> plain delay input -> (0 < length (sanctions_at s))%nat ->
  (1 <= N.to_nat (drained_count (mandatory_input input) (policy_at s) s))%nat.
Proof.
  intros [Hg _] Hpl Hlen. destruct (gv_policy _ _ _ Hg) as [Hwf Hage].
  destruct (policy_bounds (policy_at s) (in_evidence_anchor input)) as (_ & _ & Hexe & _).
  { apply policy_fits_valid. split; [apply (pl_anchor _ _ Hpl)|]. by rewrite (pl_delay _ _ Hpl). }
  unfold drained_count. rewrite all_pending_len. unfold len. lia.
Qed.

(** A queued sanction at position [i] is executed within [S i] plain blocks. *)
Lemma sanction_reached delay inputs s i item :
  healthy delay s -> Forall (plain delay) inputs -> sanctions_at s !! i = Some item -> (i < length inputs)%nat ->
  (exists outs s' k out, apply_blocks inputs s = Ok (outs, s') /\ outs !! k = Some out /\ (k <= i)%nat
     /\ pd_sanction item ∈ ao_executed (out_accountability out)) \/ chain_collides inputs s.
Proof.
  revert s i. induction inputs as [|input inputs IH]; intros s i Hh Hall Hitem Hlen; [cbn in Hlen; lia|].
  apply Forall_cons in Hall as [Hpl Hall]. destruct (plain_block _ _ _ Hh Hpl) as (out & b & r & Hb & Hbk & Hpub & [Hh'|Hcol]);
    [|by right; left].
  destruct (plain_chain delay inputs (ls_state b) Hh' Hall) as [(outs & s' & Hrest & _)|Hcol]; [|right; right; by exists out, b].
  assert (apply_blocks (input :: inputs) s = Ok (out :: outs, s')) as Hrun.
  { cbn [apply_blocks]. rewrite Hb. cbn [mbind result_bind]. by rewrite Hrest. }
  set (mi := mandatory_input input). set (n := N.to_nat (drained_count mi (policy_at s) s)).
  assert (all_pending mi (policy_at s) s = sanctions_at s) as Hap.
  { unfold all_pending. subst mi. cbn. rewrite (plain_evidence _ (pl_transactions _ _ Hpl)). apply app_nil_r. }
  destruct (decide (i < n)%nat) as [Hi|Hi].
  - left. exists (out :: outs), s', 0%nat, out. split; [done|]. split; [done|]. split; [lia|].
    rewrite (pb_accountability _ _ _ _ _ Hpub), (bk_executed _ _ _ _ Hbk). fold mi n. rewrite Hap.
    apply list_elem_of_fmap_2, (list_elem_of_lookup_2 _ i). by rewrite lookup_take_lt.
  - destruct (bk_queue _ _ _ _ Hbk) as [Hq|Hcol]; [|by right; left]. fold mi in Hq.
    unfold residue_of in Hq. fold n in Hq. rewrite Hap in Hq.
    assert (1 <= n)%nat as Hn by (eapply drained_positive; [exact Hh|exact Hpl|]; by apply lookup_lt_Some in Hitem; lia).
    destruct (IH (ls_state b) (i - n)%nat Hh' Hall) as [(outs' & s1 & k & o & Hrest' & Ho & Hk & Hin)|Hcol].
    + rewrite Hq, lookup_drop. by replace (n + (i - n))%nat with i by lia.
    + cbn in Hlen. lia.
    + rewrite Hrest in Hrest'. injection Hrest' as <- <-. left. exists (out :: outs), s', (S k), o.
      split; [done|]. split; [done|]. split; [lia|done].
    + right. right. by exists out, b.
Qed.

(* ------------------------------------------------------------------ *)
(** ** Properties *)

(** C11: money is conserved.  Over any chain of accepted blocks, from a state with
    well-formed accountability records, the balances, stakes and pending
    withdrawals plus the burned settlement totals keep their sum: transfers,
    staking, fees, proposer credits, slashing, reporter rewards and withdrawals
    neither create nor lose a unit, provided the sum fits 128 bits at the start. *)
Theorem money_conserved (inputs : list StfInput) (s s' : state) outs :
  apply_blocks inputs s = Ok (outs, s') -> accountable s -> supply s + burned_at s <= U128_MAX ->
  supply s' + burned_at s' = supply s + burned_at s.
Proof.
  intros Hrun Ha Hle. eapply (apply_blocks_invariant (fun s1 => accountable s1 /\ supply s + burned_at s <= U128_MAX
    /\ supply s1 + burned_at s1 = supply s + burned_at s)) in Hrun; [apply Hrun| |done].
  intros input s1 out b Hb HI. by eapply money_step.
Qed.

(** C12: a nonce is spent at most once.  Over any chain of executed blocks, at most
    one receipt of a transaction that charges a fee reports success for a given
    payer and nonce (below the largest 64-bit number, where the nonce stops
    advancing), whatever transactions the blocks repeat. *)
Theorem nonce_spent_once (inputs : list StfInput) (s s' : state) results (a : Address) (n : N) :
  block_results inputs s = Ok (results, s') -> accountable s -> n < U64_MAX ->
  sum_by (fun p => successes a n (in_transactions p.1) (ordinary_receipts p.1 p.2)) (zip inputs results) <= 1.
Proof.
  intros Hrun Ha Hn. enough (sum_by (fun p => successes a n (in_transactions p.1) (ordinary_receipts p.1 p.2))
    (zip inputs results) + used s a n <= 1) by lia.
  revert s results Hrun Ha. induction inputs as [|input inputs IH]; intros s results Hrun Ha; cbn [block_results] in Hrun.
  - injection Hrun as <- _. cbn [zip_with]. rewrite sum_by_nil. apply used_le_1.
  - destruct (exec (block_program input) s) as [[r s1]|] eqn:Hexec; cbn [mbind result_bind] in Hrun; [|done].
    destruct (block_results inputs s1) as [[rs s2]|] eqn:Hrest; cbn [mbind result_bind] in Hrun; [|done].
    injection Hrun as <- <-. cbn [zip_with]. rewrite sum_by_cons. cbn [fst snd].
    destruct (block_once _ _ _ _ a n Hexec Ha Hn) as [Ha1 Hu]. specialize (IH _ _ Hrest Ha1). lia.
Qed.

(** C16: the records stay well-formed.  Every accepted block keeps the accountability
    records decodable, with reward shares of at most the whole and expiry buckets
    that list offence markers only, and keeps the validator set, the consensus
    candidates and the registration index exact mirrors of the validator and
    registration records; an active validator has stake. *)
Theorem records_well_formed (inputs : list StfInput) (s s' : state) outs :
  apply_blocks inputs s = Ok (outs, s') -> accountable s -> accountable s' /\ (mirrored s -> mirrored s').
Proof.
  intros Hrun Ha. eapply (apply_blocks_invariant (fun s1 => accountable s1 /\ (mirrored s -> mirrored s1))) in Hrun; [done| |done].
  intros input s1 out b Hb [Ha1 Hm]. destruct (apply_block_blocked _ _ _ _ Hb Ha1) as (r & _ & Hbk & _).
  split; [apply (bk_accountable _ _ _ _ Hbk)|]. intros Hs. by apply (bk_mirrored _ _ _ _ Hbk), Hm.
Qed.

(** C18: gas and receipts of an accepted block.  The gas used is within the block's
    limit; every transaction is counted as applied or failed; the receipts are one
    per executed sanction and one per transaction, in that order, and (below the
    largest 64-bit limit) their gas adds up to the gas used; the receipts root
    commits to them. *)
Theorem block_gas_and_receipts (input : StfInput) (s : state) out b :
  apply_block input (LiveState_new s) = Ok (out, b) -> accountable s ->
  out_gas_used out <= in_block_gas_limit input
  /\ out_applied out + out_failed out = len (in_transactions input)
  /\ exists receipts, out_receipts_root out = compute_receipts_root receipts
       /\ len receipts = len (ao_executed (out_accountability out)) + len (in_transactions input)
       /\ (in_block_gas_limit input < U64_MAX -> out_gas_used out = sum_by rc_gas_used receipts).
Proof.
  intros Hb Ha. destruct (apply_block_blocked _ _ _ _ Hb Ha) as (r & _ & Hbk & Hpub).
  rewrite (pb_gas _ _ _ _ _ Hpub), (pb_applied _ _ _ _ _ Hpub), (pb_failed _ _ _ _ _ Hpub).
  split; [apply (bk_gas _ _ _ _ Hbk)|]. split; [apply (bk_counts _ _ _ _ Hbk)|].
  destruct (bk_receipts _ _ _ _ Hbk) as (ms & os & Hr & Hms & Hos & Hgas & _).
  exists (tl_receipts (br_tally r)). split; [apply (pb_receipts _ _ _ _ _ Hpub)|]. split; [|exact Hgas].
  rewrite (pb_accountability _ _ _ _ _ Hpub), (bk_executed _ _ _ _ Hbk), Hr, len_app, Hms. f_equal; [|unfold len; by rewrite Hos].
  unfold len. rewrite length_map, length_take. unfold drained_count, len. lia.
Qed.

(** C13: blocks without evidence never halt the chain.  From a healthy state (valid
    policy and open proposal, well-formed accountability records, a queue within
    the policy's bound), every list of blocks without evidence, with well-formed
    anchors and gas for the mandatory prefix, whatever their transactions, is
    accepted and leaves a healthy state; otherwise one of the queues reached on the
    way has the BLAKE3 digest of a different queue. *)
Theorem plain_blocks_never_halt (delay : N) (inputs : list StfInput) (s : state) :
  healthy delay s -> Forall (plain delay) inputs ->
  (exists outs s', apply_blocks inputs s = Ok (outs, s') /\ healthy delay s') \/ chain_collides inputs s.
Proof. apply plain_chain. Qed.

(** C14: queued sanctions are executed.  The sanction at position [i] of the queue of
    a healthy state is executed by one of the next [i + 1] blocks, when these carry
    no evidence; otherwise one of the queues reached on the way has the BLAKE3
    digest of a different queue. *)
Theorem queued_sanction_executed (delay : N) (inputs : list StfInput) (s : state) (i : nat) item :
  healthy delay s -> Forall (plain delay) inputs -> sanctions_at s !! i = Some item -> (i < length inputs)%nat ->
  (exists outs s' k out, apply_blocks inputs s = Ok (outs, s') /\ outs !! k = Some out /\ (k <= i)%nat
     /\ pd_sanction item ∈ ao_executed (out_accountability out)) \/ chain_collides inputs s.
Proof. apply sanction_reached. Qed.

End chain.

(* ------------------------------------------------------------------ *)
(** ** Two blocks of the sample chain, for the witnesses *)

Section sample_chain.
#[local] Existing Instances pad32 sample_ed25519 sample_trie_root sample_state_codec sample_governance_codec
  sample_accountability_codec sample_tx_codec sample_state_codec_laws sample_governance_codec_laws
  sample_accountability_codec_laws.
#[local] Instance sample_context_codec : Borsh EvidenceContext := codec_borsh.

Lemma accepted {E A} (r : result E A) : match r with Ok _ => true | Err _ => false end = true -> exists x, r = Ok x.
Proof. destruct r as [x|]; [by exists x|done]. Qed.

(** The second block repeats the transfer of the first. *)
Definition sample_inputs : list StfInput := [sample_input; sample_input].

Lemma sample_chain_run : exists r, apply_blocks sample_inputs sample_state = Ok r.
Proof. apply accepted. vm_compute. reflexivity. Qed.

Lemma sample_plain : plain 4096 sample_input.
Proof.
  split; [reflexivity|reflexivity|by repeat constructor|by vm_compute|by repeat (constructor; [by vm_compute|])|by vm_compute].
Qed.

Lemma sample_inputs_plain : Forall (plain 4096) sample_inputs.
Proof. repeat constructor; apply sample_plain. Qed.

Lemma money_conserved_witness :
  exists outs s', apply_blocks sample_inputs sample_state = Ok (outs, s')
    /\ supply s' + burned_at s' = supply sample_state + burned_at sample_state.
Proof.
  destruct sample_chain_run as [[outs s'] Hrun]. exists outs, s'. split; [exact Hrun|].
  apply (money_conserved sample_inputs sample_state s' outs Hrun sample_accountable). vm_compute. discriminate.
Defined.

Lemma nonce_spent_once_witness :
  exists results s', block_results sample_inputs sample_state = Ok (results, s')
    /\ sum_by (fun p => successes alice 0 (in_transactions p.1) (ordinary_receipts p.1 p.2)) (zip sample_inputs results) <= 1.
Proof.
  destruct (accepted (block_results sample_inputs sample_state)) as [[results s'] Hrun]; [vm_compute; reflexivity|].
  exists results, s'. split; [exact Hrun|].
  apply (nonce_spent_once sample_inputs sample_state s' results alice 0 Hrun sample_accountable). reflexivity.
Defined.

Lemma records_well_formed_witness :
  exists outs s', apply_blocks sample_inputs sample_state = Ok (outs, s') /\ accountable s' /\ mirrored s'.
Proof.
  destruct sample_chain_run as [[outs s'] Hrun]. exists outs, s'. split; [exact Hrun|].
  destruct (records_well_formed sample_inputs sample_state s' outs Hrun sample_accountable) as [Ha Hm].
  split; [exact Ha|exact (Hm sample_mirrored)].
Defined.

Lemma block_gas_and_receipts_witness :
  exists out b, apply_block sample_input (LiveState_new sample_state) = Ok (out, b)
    /\ out_gas_used out <= 30000000 /\ out_applied out + out_failed out = 2.
Proof.
  destruct (accepted (apply_block sample_input (LiveState_new sample_state))) as [[out b] Hrun]; [vm_compute; reflexivity|].
  exists out, b. split; [exact Hrun|].
  destruct (block_gas_and_receipts sample_input sample_state out b Hrun sample_accountable) as (Hgas & Hcount & _).
  split; [exact Hgas|exact Hcount].
Defined.

Lemma plain_blocks_never_halt_witness :
  (exists outs s', apply_blocks sample_inputs sample_state = Ok (outs, s') /\ healthy 4096 s')
  \/ chain_collides sample_inputs sample_state.
Proof. apply (plain_blocks_never_halt 4096 sample_inputs sample_state sample_healthy sample_inputs_plain). Defined.

Lemma queued_sanction_executed_witness :
  (exists outs s' k out, apply_blocks sample_inputs sample_state = Ok (outs, s') /\ outs !! k = Some out /\ (k <= 0)%nat
     /\ pd_sanction sample_pending ∈ ao_executed (out_accountability out)) \/ chain_collides sample_inputs sample_state.
Proof.
  apply (queued_sanction_executed 4096 sample_inputs sample_state 0 sample_pending sample_healthy sample_inputs_plain).
  - vm_compute. reflexivity.
  - apply Nat.lt_0_2.
Defined.

End sample_chain.
