(* ===== verification/Proving.v ===== *)
(** * Blocks on the host and in the Guest

    [apply_block] on the host's [TracingState] over the state trie, on the Guest's
    [WitnessState] over the nodes of a witness, and on a live content.  A block the
    host executes is executed by the Guest, from the witness the host builds, with
    the same public output; and an output the Guest commits to, from any witness for
    the root of the host's trie, is the output of the host. *)

From S2P Require Import Prelude External Primitives Bits TrieNode Trie TrieMap TriePrune History Evidence Sorted Backend Witness RuntimeState Transactions Governance Staking Accountability Stf Views Ledger Sanctions RuntimeSamples Elections Execution RuntimeSafety.

Section proving.
Context `{Blake3} `{Ed25519} `{StateCodecLaws} `{GovernanceCodecLaws} `{AccountabilityCodecLaws}.
Context `{Borsh Transaction} `{Borsh EvidenceContext} `{Hasher} `{!HasherLaws}.

(** The root of a live content is that of its trie. *)
#[local] Instance content_trie_root : TrieRoot := content_root.

(** An accepted block, on another backend with the same result and roots. *)
Lemma apply_block_transfer `{StateBackend B} input (b b' : B) out : apply_block input b = Ok (out, b') ->
  exists r, execute (block_program input) b = Ok (r, b')
    /\ forall C `(StateBackend C) (c c' : C), execute (block_program input) c = Ok (r, c') ->
       pre_state_root c = pre_state_root b -> post_state_root c' = post_state_root b' -> apply_block input c = Ok (out, c').
Proof.
  unfold apply_block, apply_block_validated, execute. destruct (map_err _ _) as [[]|]; [|done]. cbn [mbind result_bind].
  destruct (run (block_program input) (BlockState_new b)) as [[r c]|]; [|done]. cbn [mbind result_bind].
  destruct (BlockState_finish c) as [b1|] eqn:Hf; [|done]. cbn [mbind result_bind]. intros [= <- <-]. exists r. split; [done|].
  intros C HC d d' Hd Hpre Hpost. destruct (run (block_program input) (BlockState_new d)) as [[r' e]|]; [|done]. cbn [mbind result_bind] in *.
  destruct (BlockState_finish e) as [d1|]; [|done]. injection Hd as -> ->. cbn [mbind result_bind]. by rewrite Hpre, Hpost.
Qed.

Lemma live_execute {A} (p : stf A) s : execute p (LiveState_new s)
  = match exec p s with Ok (a, s') => Ok (a, {| ls_pre_root := content_root s; ls_state := s' |}) | Err e => Err e end.
Proof.
  unfold execute. pose proof (run_view p (LiveState_new s)) as Hrun. cbn [LiveState_new ls_state] in Hrun.
  destruct (exec p s) as [[a s']|e]; [|by rewrite Hrun]. destruct Hrun as (v & -> & Hf). cbn [mbind result_bind]. by rewrite Hf.
Qed.

(** C4: every block the host produces can be proved.  If the transition accepts a
    block on the content of the host's trie, the host executes it on the trie with
    that output and commits a trie of the new content, and the Guest accepts the
    witness the host builds and executes the block on it without touching an
    unwitnessed key or a missing node, to the same public output (unless two nodes or
    values of the host collide). *)
Theorem produced_block_provable input live s out b :
  represents live s -> intact live -> Forall key_ok (touched (block_program input) s) ->
  ops_clash_free (block_ops (block_program input) s) live = true ->
  apply_block input (LiveState_new s) = Ok (out, b) ->
  exists h committed w g g', apply_block input (TracingState_new live) = Ok (out, h)
    /\ into_committed_and_witness h = Ok (committed, w) /\ represents committed (ls_state b) /\ intact committed
    /\ WitnessState_new w = Ok g /\ apply_block input g = Ok (out, g').
Proof.
  intros Hrep Hin Hk Hcf Hb. destruct (apply_block_transfer input _ _ _ Hb) as (r & Hr & Htr). rewrite live_execute in Hr.
  destruct (exec (block_program input) s) as [[r' s']|] eqn:Hexec; [|done]. injection Hr as -> <-.
  destruct (guest_replays_host (block_program input) live s r s' Hrep Hin Hk Hcf Hexec)
    as (h & committed & w & g & g' & Hh & Hw & Hrep' & Hin' & Hg & Hge & Hpg & Hqg & Hqh).
  rewrite (represents_root committed s' Hrep') in Hqg, Hqh. rewrite (represents_root live s Hrep) in Hpg.
  exists h, committed, w, g, g'. split_and!; [|done..|]; (eapply Htr; [done| |done]); [|done]. apply (represents_root live s Hrep).
Qed.

(** C3: what the Guest proves is what the host would execute.  If the Guest accepts
    any witness for the root of the host's trie, and the block executes on it, then
    the host executes the block with the same public output, the content of the trie
    is the one the transition computes, and the post-state root of the output is the
    root of the host's new trie, unless a node or value of the witness collides with
    one of the host. *)
Theorem proven_block_executed input live s w g out g' :
  represents live s -> intact live -> Forall key_ok (touched (block_program input) s) ->
  ops_clash_free (block_ops (block_program input) s) live = true ->
  sw_pre_state_root w = tr_root live ->
  collision_free hash_node (sw_nodes w).*2 (map_to_list (tr_nodes live)).*2 = true ->
  collision_free hash_value (sw_values w).*2 (map_to_list (tr_values live)).*2 = true ->
  WitnessState_new w = Ok g -> apply_block input g = Ok (out, g') ->
  exists h b, apply_block input (TracingState_new live) = Ok (out, h) /\ apply_block input (LiveState_new s) = Ok (out, b)
    /\ represents (ts_current h) (ls_state b) /\ out_post_state_root out = tr_root (ts_current h).
Proof.
  intros Hrep Hin Hk Hcf Hroot Hcn Hcv Hg Hb. destruct (apply_block_transfer input _ _ _ Hb) as (r & Hr & Htr).
  destruct (guest_result_sound (block_program input) live s w g r g' Hrep Hin Hk Hcf Hroot Hcn Hcv Hg Hr)
    as (s' & h & Hexec & Hh & Hrep' & Hpre & Hpost & Hqh).
  pose proof (live_execute (block_program input) s) as Hlive. rewrite Hexec in Hlive.
  exists h, {| ls_pre_root := content_root s; ls_state := s' |}. split_and!; [|..|done|].
  - eapply Htr; [done|by rewrite Hpre|by rewrite Hqh, Hpost].
  - eapply Htr; [done|rewrite Hpre; symmetry; by apply represents_root|rewrite Hpost; symmetry; by apply represents_root].
  - rewrite <- Hpost. unfold apply_block, apply_block_validated in Hb. destruct (map_err _ _) as [[]|]; [|done]. cbn [mbind result_bind] in Hb.
    destruct (run _ _) as [[r' c]|]; [|done]. cbn [mbind result_bind] in Hb. destruct (BlockState_finish c) as [g1|]; [|done].
    by injection Hb as <- <-.
Qed.

End proving.

(* ------------------------------------------------------------------ *)
(** ** The sample block on a trie *)

Section sample_proving.
#[local] Existing Instances pad32 sample_ed25519 sample_state_codec sample_governance_codec
  sample_accountability_codec sample_tx_codec sample_state_codec_laws sample_governance_codec_laws
  sample_accountability_codec_laws sample_hasher sample_hasher_laws content_trie_root.
#[local] Instance sample_proving_codec : Borsh EvidenceContext := codec_borsh.

Definition sample_state_ops : list trie_op := map (fun e => OpInsert e.1 e.2) (map_to_list sample_state).

Definition sample_live : Trie := (sample_trie sample_state_ops).2.

Lemma sample_live_represents : represents sample_live sample_state.
Proof.
  assert (represents Trie_new ∅) as H0 by (exists None; apply models_new).
  destruct (represents_ops sample_state_ops Trie_new ∅ (sample_trie sample_state_ops).1 sample_live H0) as [Hr _];
    [by apply (bool_decide_unpack _); vm_compute|by vm_compute|apply run_or_new_Ok; by vm_compute|].
  assert ((map_ops sample_state_ops ∅).2 = sample_state) as <- by (apply (bool_decide_unpack _); by vm_compute). done.
Qed.

Lemma sample_live_intact : intact sample_live.
Proof. apply (bool_decide_unpack _). by vm_compute. Qed.

Lemma sample_touched : Forall key_ok (touched (block_program sample_input) sample_state).
Proof. apply (bool_decide_unpack _). by vm_compute. Qed.

Lemma sample_block_clash_free : ops_clash_free (block_ops (block_program sample_input) sample_state) sample_live = true.
Proof. by vm_compute. Qed.

Lemma produced_block_provable_witness : exists out h committed w g g', apply_block sample_input (TracingState_new sample_live) = Ok (out, h)
  /\ into_committed_and_witness h = Ok (committed, w) /\ WitnessState_new w = Ok g /\ apply_block sample_input g = Ok (out, g').
Proof.
  destruct (accepted (apply_block sample_input (LiveState_new sample_state))) as [[out b] Hrun]; [vm_compute; reflexivity|].
  destruct (produced_block_provable sample_input sample_live sample_state out b sample_live_represents sample_live_intact sample_touched
    sample_block_clash_free Hrun) as (h & committed & w & g & g' & Hh & Hw & _ & _ & Hg & Hgb).
  exists out, h, committed, w, g, g'. split; [exact Hh|]. split; [exact Hw|]. split; [exact Hg|exact Hgb].
Defined.

(** The witness the host hands to the Guest. *)
Definition witness_or_empty (r : result Panic (StfPublicOutput * TracingState)) : StateWitness :=
  match r with
  | Ok (_, h) =>
      match into_committed_and_witness h with
      | Ok (_, w) => w
      | Err _ => {| sw_pre_state_root := ZERO_HASH; sw_nodes := []; sw_values := []; sw_witnessed_keys := [] |}
      end
  | Err _ => {| sw_pre_state_root := ZERO_HASH; sw_nodes := []; sw_values := []; sw_witnessed_keys := [] |}
  end.

Definition sample_block_witness : StateWitness := witness_or_empty (apply_block sample_input (TracingState_new sample_live)).

Lemma proven_block_executed_witness : exists out h, apply_block sample_input (TracingState_new sample_live) = Ok (out, h)
  /\ out_post_state_root out = tr_root (ts_current h).
Proof.
  destruct (accepted (WitnessState_new sample_block_witness)) as [g Hg]; [by vm_compute|].
  assert (is_ok (g ← map_err (fun _ => UnwitnessedKey) (WitnessState_new sample_block_witness); apply_block sample_input g) = true) as Hok by (by vm_compute).
  rewrite Hg in Hok. cbn [map_err mbind result_bind] in Hok. destruct (apply_block sample_input g) as [[out g']|] eqn:Hb; [|done].
  destruct (proven_block_executed sample_input sample_live sample_state sample_block_witness g out g' sample_live_represents sample_live_intact
    sample_touched sample_block_clash_free) as (h & b & Hh & _ & _ & Hpost); [by vm_compute|by vm_compute|by vm_compute|exact Hg|exact Hb|].
  exists out, h. split; [exact Hh|exact Hpost].
Defined.

End sample_proving.
